(* ===== verification/_CoqProject ===== *)
-Q . S2P
Prelude.v
Platform.v
Crypto.v
Transactions.v
TransactionsFacts.v
Storage.v
BlockNames.v
KeeperFacts.v
ChainFacts.v
MempoolFacts.v
StorageTheorems.v
Refinement.v
Messages.v
RaftLogStore.v
Raft.v
RaftFacts.v
RaftInvariant.v
RaftTheorems.v
Voting.v
VotingTheorems.v
Consensus.v
Network.v
Effects.v
PeerNode.v
PeerTheorems.v
LogSteps.v
RaftCommits.v
Cluster.v
LogMatching.v
SafetySteps.v
ClusterSafety.v
ClusterRun.v
Synchronization.v
SyncTheorems.v
HonestSync.v
Replay.v
NetworkTheorems.v
Discovery.v
DiscoveryTheorems.v
Server.v
Runtime.v
Http.v
Process.v
History.v
RuntimeTheorems.v
PanicFree.v
HttpTheorems.v
HttpSync.v
ProcessTheorems.v
RaftStore.v
Codec.v
Concrete.v
Wire.v
LedgerExamples.v
StorageExamples.v
RaftExamples.v
ClusterExamples.v
VotingExamples.v
NodeExamples.v
RuntimeExamples.v
HttpExamples.v
ProcessExamples.v
UnitTests.v
RaftTests.v
ConsensusTests.v
PeerTests.v
