(* ===== verification/Prelude.v ===== *)
(** * Rustchain, verified

    Rustchain is a replicated ledger.  Clients submit signed transactions to
    peers; a peer collects them in a mempool, makes blocks of them, agrees on
    blocks with the other peers by voting or by Raft, and keeps the committed
    blocks as files.  This library models the whole of a peer, the discovery
    server, their networks and the repository's tests, one definition per
    function of the code, and proves what makes the parts correct, alone and
    composed.

    ** The parts and how they interact

    A peer ([Peer], src/src/peer.rs) is one event loop
    (src/src/peer_runtime.rs) over a consensus engine and the services in
    [PeerEffects] (src/src/peer/effects.rs): the ledger, the block store, the
    signing key and a network handle.  A message is validated, handed to the
    engine, and the engine answers with a list of effects, which a queue
    executes on the services; an effect may ask the engine again.  The engine
    is a voting count per block or a Raft node (src/src/peer/consensus/).
    The HTTP server (src/src/server.rs) queues messages for the loop and reads
    the block files and the published state; the discovery server
    (src/src/bin/discovery.rs) tells peers about each other; a voting peer
    fetches the blocks it missed (src/src/synchronization.rs).

    ** Conventions

    A method on [&mut self] that returns [Result<A, E>] is a computation
    [M S E A]: a function from the state to [Ret], [Err] (with the state in
    which the error was returned) or [Panic].  Integers are [N], with the
    width written out where it can be left: arithmetic the code does unchecked
    goes through [checked_plus] and its like, which panic or wrap according to
    [BuildProfile].  A HashMap is a [gmap], a HashSet a [gset]; where the code
    iterates over one the order comes from the class [HashOrder], and theorems
    hold for every order.  Clock readings and random draws are arguments.  The
    file system is a [Disk] (Platform.v) whose faults say which reads and
    writes fail, partial writes included.  The crates (k256, sha2, hex, serde,
    regex, sorted-vec, rand) are the parameters [Platform] and [Serde]; what is
    relied on of them is [PlatformLaws] and [SerdeLaws].  Codec.v and
    Concrete.v give executable instances that satisfy these laws, on which the
    witnesses of the theorems are evaluated.

    ** Files

    - Prelude.v: this vocabulary, with the lemmas and tactics ([lead],
      [preserve], [by_compute], [computes]) the components share.
    - Platform.v: crates, hash iteration, the disk.
    - Crypto.v models src/src/crypto.rs; a directory keeps its key.
    - Transactions.v models src/src/transactions.rs; TransactionsFacts.v:
      supply is conserved, errors are atomic, a transaction is applied at most
      once, rolling back a block undoes staging it; where it does not.
    - Storage.v models src/src/storage.rs.  BlockNames.v: the names of block
      files order as numbers.  KeeperFacts.v: the invariant [storage_wf].
      ChainFacts.v: [chain_ok], the files are a hash-linked chain; durability
      and restart.  MempoolFacts.v: what a full mempool becomes, whatever the
      iteration order.  StorageTheorems.v: the theorems of the store.
      Refinement.v: the store implements an append-only list of blocks, its
      abstract specification.
    - Messages.v, RaftLogStore.v, Raft.v, Voting.v, Consensus.v model
      src/src/peer/messages.rs, src/src/peer/consensus.rs and the files of
      src/src/peer/consensus/.  RaftFacts.v: logs, merging.  RaftInvariant.v:
      the invariant [raft_wf] and the relation [evolves] of every handler, by
      induction over runs of events ([raft_run]).  RaftTheorems.v: voting,
      replication, committing, persistence and restart of one node.
      RaftCommits.v: in a build with overflow checks an event extends the list
      of committed blocks by those its effects name.
      Cluster.v: a cluster as a transition system with any delay, loss,
      reordering and duplication of messages; election safety.  LogSteps.v:
      how one event may change a log and what AppendEntries requests it may
      send; LogMatching.v: the log matching property of the cluster, by an
      invariant over its runs.  SafetySteps.v: where votes, match indexes and
      the commit index come from in one event; ClusterSafety.v: leader
      completeness and state machine safety, of the executions in which no
      AppendEntries message comes late or lets a node commit what it does not
      vouch for ([vouched_for]).  ClusterRun.v: schedules of a cluster as lists of moves that
      can be executed, each a run of the transition system.
      VotingTheorems.v: what a vote does to its round and asks for
      ([handle_spec]), what rounds decide, that two peers that commit blocks
      share approvals, and where rounds cannot decide.
    - Network.v models src/src/network/; the class [NetworkInterface] is the
      trait, [NetworkLaws] what its clients rely on.  NetworkTheorems.v: both
      networks satisfy the laws, and what each operation sends or changes.
    - Effects.v and PeerNode.v model src/src/peer/effects.rs and
      src/src/peer.rs.  PeerTheorems.v: executing the effect queue ([executes], every
      effect in its turn, errors collected); what is checked before a peer
      counts its own approval of a proposal; what is not.
    - Synchronization.v models src/src/synchronization.rs, SyncTheorems.v
      proves that it ends, how far it gets and that it keeps the chain;
      HonestSync.v: among honest peers it succeeds.
    - Discovery.v models the handlers of src/src/bin/discovery.rs between two
      lock acquisitions; DiscoveryTheorems.v.
    - Replay.v: [read_state] on the store of a synchronized peer against the
      ledger of that peer.
    - Server.v models src/src/server.rs; Runtime.v src/src/config.rs and, of
      src/src/peer_runtime.rs, how a peer starts and a turn of its event loop.
      RuntimeTheorems.v: what the server answers, what a restart recovers,
      configuration.
    - Http.v models the requests of rest_network.rs and
      src/src/network/discovery_client.rs, the routes of the two servers, the
      serving of a request, the discovery loop with its client and the wait
      for the first peers.  HttpTheorems.v: a request reaches the handler it is
      meant for; a block asked for over HTTP is the block on the other peer's
      disk; a turn of the discovery loop makes the node known and leaves it
      knowing the others.  HttpSync.v: a peer that synchronizes over HTTP with
      honest peers ends with their blocks.
    - Process.v models a running peer: the tasks that [run_peer] spawns and the
      main task as a transition system ([process_step]) over the handles they
      share, and how a run ends ([process_exit]).  History.v: what each call and each turn of the loop may do to the
      block store and the channel.  PanicFree.v: without overflow
      checks only a synchronization makes the main task panic.
      ProcessTheorems.v: the invariant of a running peer and what can end it,
      its committed history, the order in which accepted messages are handled.  RaftStore.v: a running Raft peer adds to its disk only what
      its node commits, in that order.
    - Codec.v, Concrete.v and the Examples files: the concrete platform and the
      theorems at concrete inputs.  ClusterExamples.v also has the runs of the
      cluster that lose committed blocks.  Wire.v: the encodings of requests
      and answers on the concrete platform.
    - UnitTests.v, RaftTests.v, ConsensusTests.v and PeerTests.v are the tests
      of the repository (the test modules under src/src/ and the files of
      src/tests/), each a computation that the model runs; all of them pass.

    ** What the theorems show

    Safety of the ledger (conservation, at most once, rollback); of the
    store (representation invariant, durability, linkage, refinement,
    restart, replay); of Raft (one vote per term, one leader per term, log
    matching, leader completeness and state machine safety where
    AppendEntries messages vouch for what they let a node commit, committed
    prefixes, the commit rule, persistence before acknowledgement); of
    voting (one decision per block, on a quorum; two peers that commit share
    approvals); of a running peer, over any interleaving of its tasks, any
    messages and any failures of the disk (committed history is immutable,
    [run_peer] does not return and its main task panics only on a failed
    overflow check or in a synchronization that lost its peers or an answer,
    the channel stays within its capacity, an accepted message is handled in
    its turn, a Raft node decides what the disk gets, a peer approves what
    it has checked); of the HTTP layer (routing, block exchange, discovery,
    a synchronization of honest peers succeeds); termination of the effect
    queue and of synchronization. The tests of the repository pass on the
    model, which is a check of the model against what its authors expect of
    the code. A theorem that states a defect proves it of the model at a
    general input, or by a run of the cluster, and says so in its comment;
    these are where the code does not do what its comments or its names say.
    Leader completeness and state machine safety of Raft fail in general:
    ClusterExamples.v has two executions in which nodes commit different
    blocks at one index. They are proved of the executions without these two
    situations, so the two are the only ways, restarts and changes of
    membership apart.

    ** Fuel and bounds

    [execute_all] runs three generations of the queue; [execute_all_drains]
    shows that this is what executing the queue to its end means, and
    [queue_loop_executes] that the loop of the code does the same with any fuel
    that is enough.  The loop of
    a synchronization has fuel [sync_fuel], the missing blocks plus the errors
    left, and [sync_reaches_height] shows that it never runs out.  All other
    recursion is structural.

    ** Not modelled

    reqwest, axum and sockets: a request is carried by a transport that is an
    argument, paths are matched by [match_path] with the laws of
    [PathMatchLaws], and what axum answers to a body that does not parse is an
    argument; request bodies are within axum's default limit of 2 MB.  A
    transport gives an error (a connection that fails, the 30 second time-out),
    a whole response, or one whose body cannot be read ([Received]), on which
    rest_network.rs panics ([deserialize_resp]).
    Messages sent without waiting go to an outbox.  JSON is a [Serde] instance,
    not a text format.  The scheduling of tokio: a turn of a task is one step,
    and the theorems about runs quantify over the order of the steps.  A turn of
    the loop that waits for answers (a synchronization) is one step too: what
    other tasks do meanwhile appends to a channel that it does not read, or
    changes the known peers, which are an argument of that turn.  A panic
    of the main task ends the run, and what the turn did before is not
    described; a handler of
    the server that panics may leave any contents in the key file of its test
    client and changes nothing else.  Logging (src/src/logging.rs), the entry
    point (src/src/bin/peer_runner.rs, [main] of src/src/bin/discovery.rs) and
    module declarations (src/src/lib.rs) hold no logic of the system.

    The cluster of Raft nodes (Cluster.v) has a fixed membership and no
    restarts: a restarted node forgets its term and its vote
    ([restart_votes_twice]), so its safety theorems are not true of clusters
    with restarts.  For the same reason there is no theorem about the disks of
    several Raft peers; RaftStore.v relates each disk to its own node. *)

From stdpp Require Export base decidable list gmap strings sorting pretty numbers fin_maps fin_sets vector.
From Stdlib Require Export Strings.Byte.

Create HintDb rustchain.

(** ** Bytes *)

#[export] Instance byte_eq_dec : EqDecision byte := Byte.byte_eq_dec.

#[export] Program Instance byte_countable : Countable byte :=
  inj_countable Byte.to_N Byte.of_N _.
Next Obligation. intros b. apply Byte.of_to_N. Qed.

(** A [Vec<u8>] or a byte slice. *)
Abbreviation bytes := (list byte).

(** ** Results: the [Result] of Rust *)

Inductive result (A E : Type) : Type :=
  | Ok (a : A)
  | Error (e : E).
Arguments Ok {A E} a.
Arguments Error {A E} e.

#[export] Instance result_eq_dec `{EqDecision A, EqDecision E} : EqDecision (result A E).
Proof. solve_decision. Defined.

Definition is_ok {A E} (r : result A E) : bool :=
  match r with Ok _ => true | Error _ => false end.

(** ** Stateful, fallible, panicking code

    A method taking [&mut self] and returning [Result<A, E>] is a function
    from the state to an outcome.  [Err] carries the state reached when the
    error was returned: Rust keeps every mutation made before a [?] returns.
    [Panic] is an unwinding panic (an arithmetic overflow in a checked build,
    a failed [unwrap]); no state survives it. *)

Inductive outcome (S A E : Type) : Type :=
  | Ret (a : A) (s : S)
  | Err (e : E) (s : S)
  | Panic.
Arguments Ret {S A E} a s.
Arguments Err {S A E} e s.
Arguments Panic {S A E}.

Definition M (S E A : Type) : Type := S → outcome S A E.

Definition ret {S E A} (a : A) : M S E A := λ s, Ret a s.
Definition throw {S E A} (e : E) : M S E A := λ s, Err e s.
Definition panic {S E A} : M S E A := λ _, Panic.
Definition get {S E} : M S E S := λ s, Ret s s.
Definition put {S E} (s : S) : M S E unit := λ _, Ret tt s.
Definition modify {S E} (f : S → S) : M S E unit := λ s, Ret tt (f s).
Definition gets {S E A} (f : S → A) : M S E A := λ s, Ret (f s) s.

Definition bind {S E A B} (m : M S E A) (k : A → M S E B) : M S E B :=
  λ s, match m s with
       | Ret a s' => k a s'
       | Err e s' => Err e s'
       | Panic => Panic
       end.

(** The [map_err] of a [Result] followed by [?]. *)
Definition map_err {S E F A} (f : E → F) (m : M S E A) : M S F A :=
  λ s, match m s with
       | Ret a s' => Ret a s'
       | Err e s' => Err (f e) s'
       | Panic => Panic
       end.

(** A call whose [Result] is inspected rather than propagated with [?]. *)
Definition try_ {S E F A} (m : M S E A) : M S F (result A E) :=
  λ s, match m s with
       | Ret a s' => Ret (Ok a) s'
       | Err e s' => Ret (Error e) s'
       | Panic => Panic
       end.

(** Propagating a plain [Result] value with [?]. *)
Definition of_result {S E A} (r : result A E) : M S E A :=
  match r with Ok a => ret a | Error e => throw e end.

(** An [Option] that the code unwraps or reports as an error. *)
Definition unwrap {S E A} (o : option A) : M S E A :=
  match o with Some a => ret a | None => panic end.
Definition ok_or {S E A} (e : E) (o : option A) : M S E A :=
  match o with Some a => ret a | None => throw e end.

(** Running a method of a component on a larger state that contains it. *)
Definition zoom {S T E A} (proj : S → T) (upd : T → S → S) (m : M T E A) : M S E A :=
  λ s, match m (proj s) with
       | Ret a t => Ret a (upd t s)
       | Err e t => Err e (upd t s)
       | Panic => Panic
       end.

Declare Scope rust_scope.
Delimit Scope rust_scope with rust.
Notation "'let*' x ':=' m 'in' k" := (bind m (fun x => k))
  (at level 10, x name, m at level 100, k at level 200) : rust_scope.
Notation "'let*' ' x ':=' m 'in' k" := (bind m (fun x => k))
  (at level 10, x strict pattern, m at level 100, k at level 200) : rust_scope.
Notation "m ';;;' k" := (bind m (fun _ => k))
  (at level 199, right associativity) : rust_scope.
Open Scope rust_scope.

(** A [for] loop whose body runs for its effects. *)
Fixpoint for_each {S E A} (l : list A) (f : A → M S E unit) : M S E unit :=
  match l with
  | [] => ret tt
  | x :: l => f x ;;; for_each l f
  end.

(** *** Outcomes, as the theorems speak of them *)

Definition final_state {S A E} (o : outcome S A E) : option S :=
  match o with Ret _ s | Err _ s => Some s | Panic => None end.

(** [succeeds m s a s']: the call returns normally (or [Ok]). *)
Definition succeeds {S E A} (m : M S E A) (s : S) (a : A) (s' : S) : Prop := m s = Ret a s'.

(** An invariant preserved by every outcome, errors included. *)
Definition preserves {S E A} (I : S → Prop) (m : M S E A) : Prop :=
  ∀ s s', I s → final_state (m s) = Some s' → I s'.

(** [outcome_rel R o1 o2]: the same outcome up to a relation on states. *)
Inductive outcome_rel {S A E} (R : S → S → Prop) : outcome S A E → outcome S A E → Prop :=
  | orel_ret a s1 s2 : R s1 s2 → outcome_rel R (Ret a s1) (Ret a s2)
  | orel_err e s1 s2 : R s1 s2 → outcome_rel R (Err e s1) (Err e s2)
  | orel_panic : outcome_rel R Panic Panic.

Section monad_laws.
Context {S E : Type}.

Lemma bind_ret_l {A B} (a : A) (k : A → M S E B) s : bind (ret a) k s = k a s.
Proof. done. Qed.

Lemma bind_gets {A B} (f : S → A) (k : A → M S E B) s : bind (gets f) k s = k (f s) s.
Proof. done. Qed.

Lemma bind_modify {B} (f : S → S) (k : unit → M S E B) s : bind (modify f) k s = k tt (f s).
Proof. done. Qed.

Lemma bind_unwrap_Some {A B} (a : A) (k : A → M S E B) s : bind (unwrap (Some a)) k s = k a s.
Proof. done. Qed.

Lemma bind_of {A B} (m : M S E A) (k : A → M S E B) s a s' :
  m s = Ret a s' → bind m k s = k a s'.
Proof. unfold bind. by intros ->. Qed.

Lemma of_result_Ret {A} (r : result A E) (s : S) a s' :
  of_result r s = Ret a s' → r = Ok a ∧ s' = s.
Proof. destruct r; [|done]. by intros [= <- <-]. Qed.

Lemma bind_ret_r {A} (m : M S E A) s : bind m ret s = m s.
Proof. unfold bind, ret. by destruct (m s). Qed.

Lemma bind_assoc {A B C} (m : M S E A) (k : A → M S E B) (h : B → M S E C) s :
  bind (bind m k) h s = bind m (λ a, bind (k a) h) s.
Proof. unfold bind. by destruct (m s). Qed.

Lemma bind_Ret {A B} (m : M S E A) (k : A → M S E B) s b s' :
  bind m k s = Ret b s' ↔ ∃ a s1, m s = Ret a s1 ∧ k a s1 = Ret b s'.
Proof.
  unfold bind. split.
  - destruct (m s); [eauto|done..].
  - by intros (a & s1 & -> & ?).
Qed.

Lemma bind_Err {A B} (m : M S E A) (k : A → M S E B) s e s' :
  bind m k s = Err e s' ↔ m s = Err e s' ∨ ∃ a s1, m s = Ret a s1 ∧ k a s1 = Err e s'.
Proof.
  unfold bind. split.
  - destruct (m s); [eauto|by left; simplify_eq|done].
  - by intros [->|(a & s1 & -> & ?)].
Qed.

Lemma bind_final {A B} (m : M S E A) (k : A → M S E B) s s' :
  final_state (bind m k s) = Some s' →
  (∃ a s1, m s = Ret a s1 ∧ final_state (k a s1) = Some s') ∨ (∃ e, m s = Err e s').
Proof. unfold bind. destruct (m s); cbn; [eauto|intros [= <-]; eauto|done]. Qed.

Lemma preserves_ret {A} (I : S → Prop) (a : A) : preserves I (@ret S E A a).
Proof. intros s s' HI [= <-]. done. Qed.

Lemma preserves_bind {A B} (I : S → Prop) (m : M S E A) (k : A → M S E B) :
  preserves I m → (∀ a, preserves I (k a)) → preserves I (bind m k).
Proof.
  intros Hm Hk s s' HI. unfold bind. specialize (Hm s).
  destruct (m s) as [a s1|e s1|]; simpl in *; intros Hf; [|by eauto|done].
  exact (Hk a s1 s' (Hm s1 HI eq_refl) Hf).
Qed.

Lemma preserves_for_each {A} (I : S → Prop) (l : list A) (f : A → M S E unit) :
  (∀ x, preserves I (f x)) → preserves I (for_each l f).
Proof.
  intros Hf. induction l as [|x l IH]; simpl; [apply preserves_ret|].
  apply preserves_bind; auto.
Qed.

Lemma preserves_throw {A} (I : S → Prop) (e : E) : preserves I (@throw S E A e).
Proof. by intros s s' HI [= <-]. Qed.

Lemma preserves_panic {A} (I : S → Prop) : preserves I (@panic S E A).
Proof. done. Qed.

Lemma preserves_gets {A} (I : S → Prop) (f : S → A) : preserves I (@gets S E A f).
Proof. by intros s s' HI [= <-]. Qed.

Lemma preserves_get (I : S → Prop) : preserves I (@get S E).
Proof. by intros s s' HI [= <-]. Qed.

Lemma preserves_modify (I : S → Prop) (f : S → S) :
  (∀ s, I s → I (f s)) → preserves I (@modify S E f).
Proof. intros Hf s s' HI [= <-]. auto. Qed.

Lemma preserves_unwrap {A} (I : S → Prop) (o : option A) : preserves I (@unwrap S E A o).
Proof. destruct o; [apply preserves_ret|done]. Qed.

Lemma preserves_ok_or {A} (I : S → Prop) (e : E) (o : option A) : preserves I (ok_or e o).
Proof. destruct o; [apply preserves_ret|apply preserves_throw]. Qed.

Lemma preserves_of_result {A} (I : S → Prop) (r : result A E) : preserves I (@of_result S E A r).
Proof. destruct r; [apply preserves_ret|apply preserves_throw]. Qed.

Lemma preserves_try {F A} (I : S → Prop) (m : M S E A) : preserves I m → preserves I (try_ (F := F) m).
Proof. intros Hm s s' HI. unfold try_. specialize (Hm s). destruct (m s); intros [= <-]; eauto. Qed.

Lemma preserves_map_err {F A} (I : S → Prop) (g : E → F) (m : M S E A) :
  preserves I m → preserves I (map_err g m).
Proof. intros Hm s s' HI. unfold map_err. specialize (Hm s). destruct (m s); intros [= <-]; eauto. Qed.

Lemma preserves_zoom {T A} (I : S → Prop) (J : T → Prop) proj upd (m : M T E A) :
  (∀ s, I s → J (proj s)) → (∀ t s, I s → J t → I (upd t s)) →
  preserves J m → preserves I (zoom proj upd m).
Proof.
  intros HJ Hupd Hm s s' HI. unfold zoom. specialize (Hm (proj s)).
  destruct (m (proj s)); intros [= <-]; eauto.
Qed.

(** Reading the state before going on. *)
Lemma preserves_gets_bind {A B} (I : S → Prop) (f : S → A) (k : A → M S E B) :
  (∀ s s', I s → final_state (k (f s) s) = Some s' → I s') → preserves I (bind (gets f) k).
Proof. intros H s s' HI. unfold bind, gets. eauto. Qed.
End monad_laws.

(** A call that always returns normally. *)
Definition total {S E A} (m : M S E A) : Prop := ∀ s, ∃ a s', m s = Ret a s'.

Lemma for_each_total {S E A} (l : list A) (f : A → M S E unit) :
  (∀ x, total (f x)) → total (for_each l f).
Proof.
  intros Hf. induction l as [|x l IH]; intros s; cbn; [by eexists _, s|].
  unfold bind. destruct (Hf x s) as (a & s1 & ->). apply IH.
Qed.

Lemma for_each_app {S E A} (l1 l2 : list A) (f : A → M S E unit) s :
  for_each (l1 ++ l2) f s = bind (for_each l1 f) (λ _, for_each l2 f) s.
Proof.
  revert s. induction l1 as [|x l1 IH]; intros s; cbn; [done|].
  unfold bind in *. destruct (f x s); [apply IH|done..].
Qed.

Lemma for_each_bind {S E A B} (f : A → list B) (g : B → M S E unit) l s :
  for_each (l ≫= f) g s = for_each l (λ x, for_each (f x) g) s.
Proof.
  revert s. induction l as [|x l IH]; intros s; [done|]. cbn [for_each mbind list_bind].
  change (mbind f (x :: l)) with (f x ++ (l ≫= f)). rewrite for_each_app. unfold bind.
  destruct (for_each (f x) g s); [apply IH|done..].
Qed.

(** Splitting a [preserves] goal along the code; what remains are the
    updates and the calls. *)
Ltac preserve_step :=
  lazymatch goal with
  | |- preserves _ (bind _ _) => apply preserves_bind; [|intros ?]
  | |- preserves _ (ret _) => apply preserves_ret
  | |- preserves _ (throw _) => apply preserves_throw
  | |- preserves _ panic => apply preserves_panic
  | |- preserves _ (gets _) => apply preserves_gets
  | |- preserves _ get => apply preserves_get
  | |- preserves _ (modify _) => apply preserves_modify; intros ??
  | |- preserves _ (unwrap _) => apply preserves_unwrap
  | |- preserves _ (ok_or _ _) => apply preserves_ok_or
  | |- preserves _ (of_result _) => apply preserves_of_result
  | |- preserves _ (try_ _) => apply preserves_try
  | |- preserves _ (map_err _ _) => apply preserves_map_err
  | |- preserves _ (for_each _ _) => apply preserves_for_each; intros ?
  | |- preserves _ (match ?x with _ => _ end) => destruct x eqn:?
  | |- preserves _ (let _ := _ in _) => cbv zeta
  end.
Ltac preserve := repeat preserve_step.

(** [leads R s m]: wherever the call ends, from [s], is related to [s] by the
    preorder [R]; the rules follow the code from a given state, so the code's
    tests are available. *)
Definition leads {S E A} (R : relation S) (s : S) (m : M S E A) : Prop :=
  ∀ s', final_state (m s) = Some s' → R s s'.

Section leads.
Context {S E : Type} (R : relation S) {HR : PreOrder R}.

Lemma leads_ret {A} (a : A) s : leads (E := E) R s (ret a).
Proof. intros s' [= <-]. reflexivity. Qed.
Lemma leads_throw {A} (e : E) s : leads (A := A) R s (throw e).
Proof. intros s' [= <-]. reflexivity. Qed.
Lemma leads_panic {A} s : leads (E := E) (A := A) R s panic.
Proof. done. Qed.
Lemma leads_modify (f : S → S) s : R s (f s) → leads (E := E) R s (modify f).
Proof. by intros ? s' [= <-]. Qed.
Lemma leads_unwrap {A} (o : option A) s : leads (E := E) R s (unwrap o).
Proof. destruct o; [apply leads_ret|done]. Qed.
Lemma leads_of_result {A} (r : result A E) s : leads R s (of_result r).
Proof. destruct r; [apply leads_ret|apply leads_throw]. Qed.
Lemma leads_ok_or {A} (e : E) (o : option A) s : leads R s (ok_or e o).
Proof. destruct o; [apply leads_ret|apply leads_throw]. Qed.

Lemma leads_bind {A B} (m : M S E A) (k : A → M S E B) s :
  leads R s m → (∀ a s1, m s = Ret a s1 → leads R s1 (k a)) → leads R s (bind m k).
Proof.
  intros Hm Hk s'. unfold bind, leads in *.
  destruct (m s) as [a s1|e s1|] eqn:E1; cbn in *; [|by auto|done].
  intros Hf. transitivity s1; [by apply Hm|by eapply Hk].
Qed.

Lemma leads_try {F A} (m : M S E A) s : leads R s m → leads (E := F) R s (try_ m).
Proof. intros Hm s'. unfold try_, leads in *. destruct (m s); cbn in *; auto. Qed.
Lemma leads_map_err {F A} (g : E → F) (m : M S E A) s : leads R s m → leads R s (map_err g m).
Proof. intros Hm s'. unfold map_err, leads in *. destruct (m s); cbn in *; auto. Qed.

(** A component's call, when any value of the component will do. *)
Lemma leads_zoom {T A} proj upd (m : M T E A) s :
  (∀ t, R s (upd t s)) → leads R s (zoom proj upd m).
Proof. intros Hu s'. unfold zoom. destruct (m (proj s)); cbn; by intros [= <-]. Qed.

(** The state is read, or the call leaves it alone. *)
Lemma leads_get {B} (k : S → M S E B) s : leads R s (k s) → leads R s (bind get k).
Proof. done. Qed.
Lemma leads_gets {A B} (f : S → A) (k : A → M S E B) s :
  leads R s (k (f s)) → leads R s (bind (gets f) k).
Proof. done. Qed.
End leads.


(** ** Lists *)

(** The search from the end finds the last one. *)
Lemma find_rev_Some {A} (f : A → bool) (l : list A) x :
  List.find f (rev l) = Some x →
  ∃ k, l !! k = Some x ∧ f x = true ∧ ∀ j y, l !! j = Some y → f y = true → (j ≤ k)%nat.
Proof.
  induction l as [|z l IH] using rev_ind; [done|]. rewrite rev_app_distr. cbn. destruct (f z) eqn:Hz.
  - intros [= <-]. exists (length l). split_and!; [by apply list_lookup_middle|done|].
    intros j y Hj%lookup_lt_Some _. rewrite length_app in Hj. cbn in Hj. lia.
  - intros H. destruct (IH H) as (k & Hk & Hx & Hlast). exists k.
    split_and!; [by apply lookup_app_l_Some|done|]. intros j y [Hj|[_ Hj]]%lookup_app_Some Hy; [by eapply Hlast|].
    apply list_lookup_singleton_Some in Hj as [_ <-]. congruence.
Qed.

Lemma find_rev_None {A} (f : A → bool) (l : list A) x : List.find f (rev l) = None → x ∈ l → f x = false.
Proof. intros H Hx. apply (List.find_none _ _ H), in_rev. rewrite rev_involutive. by apply list_elem_of_In. Qed.

Lemma filter_keeps {A} (Q : A → Prop) `{∀ x, Decision (Q x)} l : Forall Q l → filter Q l = l.
Proof. induction 1 as [|x l Hx _ IH]; [done|]. by rewrite filter_cons_True, IH. Qed.

Lemma filter_drops {A} (Q : A → Prop) `{∀ x, Decision (Q x)} l :
  Forall (λ x, ¬ Q x) l → filter Q l = [].
Proof. induction 1 as [|x l Hx _ IH]; [done|]. by rewrite filter_cons_False. Qed.

(** ** Sets *)

(** Two subsets overlap by at least what their sizes exceed the whole. *)
Lemma subsets_overlap `{Countable A} (X Y Z : gset A) :
  X ⊆ Z → Y ⊆ Z → (size X + size Y ≤ size Z + size (X ∩ Y))%nat.
Proof.
  intros HX HY. assert (Hu : (size (X ∪ Y) ≤ size Z)%nat) by (apply subseteq_size; set_solver).
  rewrite size_union_alt in Hu.
  assert (Hd : (size Y = size (X ∩ Y) + size (Y ∖ X))%nat).
  { rewrite <-size_union by set_solver. f_equal. apply set_eq. intros x.
    destruct (decide (x ∈ X)); set_solver. }
  lia.
Qed.

(** ** Vectors *)

(** A vector from a list of its length. *)
Fixpoint to_vec_n {T} (n : nat) (l : list T) : option (vec T n) :=
  match n, l with
  | O, [] => Some [#]
  | S n, x :: l => vcons x <$> to_vec_n n l
  | _, _ => None
  end.

Lemma to_vec_n_to_list {T n} (v : vec T n) : to_vec_n n (vec_to_list v) = Some v.
Proof. induction v as [|x n v IH]; [done|]. cbn. by rewrite IH. Qed.

Lemma to_vec_n_of_list {T} n (l : list T) v : to_vec_n n l = Some v → vec_to_list v = l.
Proof.
  revert l. induction n as [|n IH]; intros [|x l] Hv; cbn in Hv; simplify_eq; [done|].
  apply fmap_Some in Hv as (v' & Hv' & ->). cbn. by rewrite (IH v' l Hv').
Qed.

(** ** Record update

    [s <| f := v |>] is the record [s] with the field [f] set to [v]; a record
    that is updated this way declares its eta expansion as a [Settable]
    instance, from which the setter of each field is derived. *)

Class Settable (R : Type) := eta_of : R → R.
Class Setter {R T : Type} (proj : R → T) := update_field : (T → T) → R → R.

Ltac derive_setter :=
  lazymatch goal with
  | |- @Setter ?R ?T ?proj =>
      let e := constr:(_ : Settable R) in
      exact (fun (f : T → T) (r : R) =>
        ltac:(let b := eval hnf in (e r) in
              lazymatch (eval pattern (proj r) in b) with
              | ?g _ => let b' := eval cbv beta in (g (f (proj r))) in exact b'
              end))
  end.
#[export] Hint Extern 1 (Setter _) => derive_setter : typeclass_instances.

Notation "x <| proj := v |>" := (update_field (proj := proj) (λ _, v) x)
  (at level 1, left associativity, proj at next level, v at level 99) : rust_scope.
Notation "x <| proj ::= f |>" := (update_field (proj := proj) f x)
  (at level 1, left associativity, proj at next level, f at level 99) : rust_scope.

(** ** Machine integers

    [u32], [u64] and [u16] values are [N] below the width's modulus.  Rust's
    [+] and [-] panic on overflow when the build has overflow checks (the dev
    profile, under which the tests run) and wrap otherwise (the release
    profile, which the Docker image ships); both builds are modelled. *)

Class BuildProfile := overflow_checks : bool.

Open Scope N_scope.

Definition u16_modulus : N := 65536.
Definition u32_modulus : N := 4294967296.
Definition u64_modulus : N := 18446744073709551616.

Section arithmetic.
Context {BP : BuildProfile}.

(** [a + b] at a width, [None] for a panic. *)
Definition checked_plus (modulus a b : N) : option N :=
  if decide (a + b < modulus) then Some (a + b)
  else if overflow_checks then None else Some ((a + b) mod modulus).

(** [a - b] at a width. *)
Definition checked_minus (modulus a b : N) : option N :=
  if decide (b ≤ a) then Some (a - b)
  else if overflow_checks then None else Some ((modulus + a - b) mod modulus).

Definition add_u32 {S E} (a b : N) : M S E N := unwrap (checked_plus u32_modulus a b).
Definition sub_u32 {S E} (a b : N) : M S E N := unwrap (checked_minus u32_modulus a b).
Definition add_u64 {S E} (a b : N) : M S E N := unwrap (checked_plus u64_modulus a b).
Definition sub_u64 {S E} (a b : N) : M S E N := unwrap (checked_minus u64_modulus a b).
Definition add_u16 {S E} (a b : N) : M S E N := unwrap (checked_plus u16_modulus a b).

Lemma checked_plus_bound m a b c : m ≠ 0 → checked_plus m a b = Some c → c < m.
Proof.
  unfold checked_plus. intros Hm. case_decide; [naive_solver|].
  destruct overflow_checks; intros [= <-]. by apply N.mod_lt.
Qed.

Lemma checked_plus_exact m a b : a + b < m → checked_plus m a b = Some (a + b).
Proof. intros. unfold checked_plus. by rewrite decide_True. Qed.

Lemma bind_add_u64 {S E B} a b (k : N → M S E B) s :
  a + b < u64_modulus → bind (add_u64 a b) k s = k (a + b) s.
Proof. intros. unfold add_u64. by rewrite checked_plus_exact. Qed.

Lemma add_u64_Ret {S E} a b n (s s' : S) :
  a + b < u64_modulus → add_u64 (E := E) a b s = Ret n s' → n = a + b ∧ s' = s.
Proof. unfold add_u64. intros Hb. rewrite checked_plus_exact by done. by intros [= <- <-]. Qed.

Lemma bind_sub_u64 {S E B} a b (k : N → M S E B) s :
  b ≤ a → bind (sub_u64 a b) k s = k (a - b) s.
Proof. intros. unfold sub_u64, checked_minus. by rewrite decide_True. Qed.

Lemma checked_minus_exact m a b : b ≤ a → checked_minus m a b = Some (a - b).
Proof. intros. unfold checked_minus. by rewrite decide_True. Qed.

(** With overflow checks a sum that is returned is the exact sum. *)
Lemma checked_plus_checked m a b c :
  overflow_checks = true → checked_plus m a b = Some c → c = a + b ∧ a + b < m.
Proof. unfold checked_plus. intros ->. case_decide; naive_solver. Qed.
End arithmetic.

(** Following the code with the rules of [leads]. *)
Ltac lead_step :=
  lazymatch goal with
  | |- leads _ _ (bind (gets _) _) => apply leads_gets; cbv beta
  | |- leads _ _ (bind get _) => apply leads_get; cbv beta
  | |- leads _ _ (bind _ _) => apply leads_bind; [apply _|..]; [|intros ?? ?]
  | |- leads _ _ (ret _) => apply leads_ret; apply _
  | |- leads _ _ (throw _) => apply leads_throw; apply _
  | |- leads _ _ panic => apply leads_panic
  | |- leads _ _ (modify _) => apply leads_modify
  | |- leads _ _ (add_u64 _ _) => unfold add_u64
  | |- leads _ _ (sub_u64 _ _) => unfold sub_u64
  | |- leads _ _ (unwrap _) => apply leads_unwrap; apply _
  | |- leads _ _ (try_ _) => apply leads_try
  | |- leads _ _ (map_err _ _) => apply leads_map_err
  | |- leads _ _ (of_result _) => apply leads_of_result; apply _
  | |- leads _ _ (ok_or _ _) => apply leads_ok_or; apply _
  | |- leads _ _ (match decide ?P with _ => _ end) => destruct (decide P)
  | |- leads _ _ (match ?x with _ => _ end) => destruct x eqn:?
  | |- leads _ _ (let _ := _ in _) => cbv zeta
  end.
Ltac lead := repeat lead_step.

(** [saturating_sub] is the subtraction of [N]. *)
Definition saturating_sub (a b : N) : N := a - b.

(** ** Strings

    [String]'s [Ord] is the lexicographic order of the UTF-8 bytes. *)

Definition string_le (a b : string) : Prop := Is_true (String.leb a b).

#[export] Instance string_le_dec : RelDecision string_le.
Proof. intros a b. unfold string_le. apply _. Defined.

Lemma string_compare_refl a : String.compare a a = Eq.
Proof.
  induction a as [|x a IH]; [done|]. simpl. unfold Ascii.compare.
  by rewrite N.compare_refl.
Qed.

Lemma string_compare_lt_trans a b c :
  String.compare a b = Lt → String.compare b c = Lt → String.compare a c = Lt.
Proof.
  revert b c. induction a as [|x a IH]; intros [|y b] [|z c]; simpl; try done.
  unfold Ascii.compare.
  destruct (N.compare_spec (Ascii.N_of_ascii x) (Ascii.N_of_ascii y)) as [Hxy|Hxy|Hxy];
    destruct (N.compare_spec (Ascii.N_of_ascii y) (Ascii.N_of_ascii z)) as [Hyz|Hyz|Hyz];
    try done; intros ??.
  - rewrite Hxy, Hyz, N.compare_refl. eauto.
  - rewrite Hxy. by rewrite (proj2 (N.compare_lt_iff _ _)).
  - rewrite <-Hyz. by rewrite (proj2 (N.compare_lt_iff _ _)).
  - rewrite (proj2 (N.compare_lt_iff _ _)); [done|by etrans].
Qed.

Lemma string_le_compare a b : string_le a b ↔ String.compare a b ≠ Gt.
Proof.
  unfold string_le, String.leb.
  destruct (String.compare a b); simpl; split; try discriminate; tauto.
Qed.

#[export] Instance string_le_total : Total string_le.
Proof.
  intros a b. rewrite !string_le_compare, (String.compare_antisym a b).
  destruct (String.compare b a); simpl; ((left; discriminate) || (right; discriminate)).
Qed.

#[export] Instance string_le_antisymm : AntiSymm (=) string_le.
Proof.
  intros a b. rewrite !string_le_compare, (String.compare_antisym a b).
  destruct (String.compare b a) eqn:Hab; simpl; intros H1 H2; [|congruence..].
  symmetry. by apply String.compare_eq_iff.
Qed.

#[export] Instance string_le_trans : Transitive string_le.
Proof.
  intros a b c. rewrite !string_le_compare.
  destruct (String.compare a b) eqn:Hab, (String.compare b c) eqn:Hbc; try congruence; intros _ _.
  - apply String.compare_eq_iff in Hab as ->. by rewrite Hbc.
  - apply String.compare_eq_iff in Hab as ->. by rewrite Hbc.
  - apply String.compare_eq_iff in Hbc as ->. by rewrite Hab.
  - by rewrite (string_compare_lt_trans _ _ _ Hab Hbc).
Qed.

(** Sorting records by a string key that identifies them: the result does not
    depend on the order in which a [HashMap] yields them. *)
Section sort_by_key.
Context {A : Type} (key : A → string).

Definition key_le (x y : A) : Prop := string_le (key x) (key y).

#[export] Instance key_le_dec : RelDecision key_le.
Proof. intros x y. unfold key_le. apply _. Defined.
#[export] Instance key_le_total : Total key_le.
Proof. intros x y. apply string_le_total. Qed.
#[export] Instance key_le_trans : Transitive key_le.
Proof. intros x y z. unfold key_le. apply string_le_trans. Qed.

Definition sort_by_key (l : list A) : list A := merge_sort key_le l.

Lemma sort_by_key_perm l : sort_by_key l ≡ₚ l.
Proof. apply merge_sort_Permutation. Qed.

Lemma sort_by_key_sorted l : StronglySorted key_le (sort_by_key l).
Proof. apply (StronglySorted_merge_sort key_le). Qed.

Lemma sort_by_key_canonical l1 l2 :
  (∀ x y, x ∈ l1 → y ∈ l1 → key x = key y → x = y) →
  l1 ≡ₚ l2 → sort_by_key l1 = sort_by_key l2.
Proof.
  intros Hinj Hp. apply (StronglySorted_unique_strong key_le).
  - intros x y Hx Hy Hxy Hyx.
    rewrite sort_by_key_perm in Hx. rewrite sort_by_key_perm, <-Hp in Hy.
    apply Hinj; auto. by apply (anti_symm string_le).
  - apply sort_by_key_sorted.
  - apply sort_by_key_sorted.
  - by rewrite !sort_by_key_perm.
Qed.
End sort_by_key.

(** A decidable statement about closed data, by evaluation. *)
Ltac by_compute := apply (bool_decide_unpack _); vm_compute; exact I.

(** An equation of closed data, by evaluating both sides. *)
Ltac computes := lazymatch goal with |- _ = ?y => vm_cast_no_check (eq_refl y) end.
