(* ===== verification/Platform.v ===== *)
(** * What the program takes from outside its sources

    The crates Rustchain calls (k256, sha2, hex, serde_json, regex,
    sorted-vec, rand) are parameters of the model, gathered in [Platform] and
    [Serde]; the documented behaviour the theorems rely on is in
    [PlatformLaws] and [SerdeLaws].  The parts of the standard library the
    code observes are modelled: the file system ([Disk], with [fs_read],
    [fs_write], [create_dir_all], [read_dir]) and the iteration order of hash
    maps and sets ([HashOrder]). *)

From S2P Require Import Prelude.

(** ** [std::io::ErrorKind], as far as the code tells errors apart *)

Inductive IoError : Type :=
  | NotFound
  | OtherIo.

#[export] Instance IoError_eq_dec : EqDecision IoError.
Proof. solve_decision. Defined.

(** ** Third-party crates *)

Class Platform : Type := {
  (* k256::ecdsa *)
  Signature : Type;
  VerifyingKey : Type;
  SigningKey : Type;
  Signature_eq_dec :: EqDecision Signature;
  VerifyingKey_eq_dec :: EqDecision VerifyingKey;
  verifying_key_from : SigningKey → VerifyingKey;
  ecdsa_sign : SigningKey → bytes → Signature;
  ecdsa_verify : VerifyingKey → bytes → Signature → bool;
  signature_to_bytes : Signature → bytes;
  to_sec1_bytes : VerifyingKey → bytes;
  from_sec1_bytes : bytes → option VerifyingKey;
  signing_key_to_bytes : SigningKey → bytes;
  signing_key_from_bytes : bytes → option SigningKey;
  (* SigningKey::random, as a function of what the generator draws *)
  signing_key_random : N → SigningKey;
  (* Display of signature::Error *)
  signature_error : string;
  (* k256::sha2::Sha256, over the concatenation of the updates *)
  sha256 : bytes → vec byte 32;
  (* hex::encode *)
  hex_encode : bytes → string;
  (* the first capture group of the regex ^(\d+)\.block$ *)
  block_pattern : string → option string;
  (* sorted_vec::SortedVec<String>::push *)
  sorted_vec_push : list string → string → list string;
  (* rand's random_range(lo..=hi), as a function of the generator's draw *)
  random_range : N → N → N → N;
  (* rand's choose_multiple on a slice, as a function of the draw *)
  choose_multiple : ∀ A : Type, N → list A → nat → list A;
  (* Display of std::io::Error *)
  io_error_display : IoError → string;
}.
Arguments choose_multiple {_} {A} _ _ _.

Definition is_ascii_digit (c : Ascii.ascii) : bool :=
  let n := Ascii.N_of_ascii c in (48 <=? n)%N && (n <=? 57)%N.

Definition all_digits (s : string) : bool :=
  forallb is_ascii_digit (String.list_ascii_of_string s).

Definition is_ascii_string (s : string) : bool :=
  forallb (λ c, (Ascii.N_of_ascii c <? 128)%N) (String.list_ascii_of_string s).

(** Documented behaviour of the crates. *)
Class PlatformLaws `{Platform} : Prop := {
  (* a signature verifies under the matching key *)
  ecdsa_sign_verify sk m :
    ecdsa_verify (verifying_key_from sk) m (ecdsa_sign sk m) = true;
  (* the encodings are faithful *)
  signature_to_bytes_inj :: Inj (=) (=) signature_to_bytes;
  sec1_roundtrip k : from_sec1_bytes (to_sec1_bytes k) = Some k;
  signing_key_roundtrip k : signing_key_from_bytes (signing_key_to_bytes k) = Some k;
  signing_key_length k : length (signing_key_to_bytes k) = 32%nat;
  hex_encode_inj :: Inj (=) (=) hex_encode;
  (* the regex, on ASCII names *)
  block_pattern_ascii s d :
    is_ascii_string s = true →
    block_pattern s = Some d ↔ (s = d +:+ ".block" ∧ d ≠ "" ∧ all_digits d = true);
  (* push keeps a sorted vector sorted and adds the element *)
  sorted_vec_push_perm v x : sorted_vec_push v x ≡ₚ x :: v;
  sorted_vec_push_sorted v x :
    StronglySorted string_le v → StronglySorted string_le (sorted_vec_push v x);
  (* the bounds of a range are respected *)
  random_range_bounds draw lo hi :
    lo ≤ hi → lo ≤ random_range draw lo hi ∧ random_range draw lo hi ≤ hi;
  (* min(k, len) distinct positions are sampled *)
  choose_multiple_length A draw (l : list A) k :
    length (choose_multiple draw l k) = Nat.min k (length l);
  choose_multiple_sub A draw (l : list A) k :
    choose_multiple draw l k ⊆+ l;
}.

(** serde's derived serializers with serde_json: [to_vec] (and the bytes of
    [to_string]) and [from_slice], whose error is only displayed. *)
Class Serde (T : Type) : Type := {
  to_vec : T → bytes;
  from_slice : bytes → result T string;
}.

Class SerdeLaws (T : Type) `{Serde T} : Prop :=
  from_slice_to_vec : ∀ x : T, from_slice (to_vec x) = Ok x.

(** ** Hash map and hash set iteration

    The standard library promises only that an iteration visits every entry
    once.  Every definition that iterates takes the order from here, and
    theorems hold for all orders. *)

Class HashOrder : Type := {
  map_order : ∀ {K V : Type} `{Countable K}, gmap K V → list (K * V);
  set_order : ∀ {K : Type} `{Countable K}, gset K → list K;
}.

Class HashOrderLaws `{HashOrder} : Prop := {
  map_order_perm {K V : Type} `{Countable K} (m : gmap K V) : map_order m ≡ₚ map_to_list m;
  set_order_perm {K : Type} `{Countable K} (s : gset K) : set_order s ≡ₚ elements s;
}.

(** The iteration order of the canonical representation, for examples. *)
Definition canonical_order : HashOrder := {|
  map_order _ _ _ _ m := map_to_list m;
  set_order _ _ _ s := elements s;
|}.

Lemma canonical_order_laws : @HashOrderLaws canonical_order.
Proof. by split. Qed.

(** ** The file system

    A directory maps file names to contents.  A fault says what the next
    operations on a path do: a write may be refused with the file untouched,
    or fail after storing a prefix of the contents ([fs::write] truncates
    first, so a full disk leaves such a file). *)

Inductive WriteFault : Type :=
  | WriteDenied
  | WritePartial (k : nat).

Record Disk : Type := mkDisk {
  dirs : gmap string (gmap string bytes);
  write_faults : gmap (string * string) WriteFault;
  read_faults : gset (string * string);
  dir_faults : gset string;
}.

#[export] Instance eta_disk : Settable Disk :=
  λ d, mkDisk (dirs d) (write_faults d) (read_faults d) (dir_faults d).

(** A path under a directory: [dir.join(name)]. *)
Abbreviation FilePath := (string * string)%type (only parsing).

Definition path_display (p : FilePath) : string := p.1 +:+ "/" +:+ p.2.

Definition file_at (d : Disk) (p : FilePath) : option bytes := dirs d !! p.1 ≫= (.!! p.2).

(** [Path::exists] *)
Definition path_exists (d : Disk) (p : FilePath) : bool :=
  match file_at d p with Some _ => true | None => false end.

Definition fs_read (d : Disk) (p : FilePath) : result bytes IoError :=
  if decide (p ∈ read_faults d) then Error OtherIo
  else match file_at d p with
       | Some b => Ok b
       | None => Error NotFound
       end.

Definition store_file (d : Disk) (p : FilePath) (b : bytes) : Disk :=
  d <| dirs ::= alter (λ files, <[p.2 := b]> files) p.1 |>.

Definition fs_write (p : FilePath) (b : bytes) : M Disk IoError unit := λ d,
  match write_faults d !! p with
  | Some WriteDenied => Err OtherIo d
  | Some (WritePartial k) => Err OtherIo (store_file d p (take k b))
  | None =>
      match dirs d !! p.1 with
      | Some _ => Ret tt (store_file d p b)
      | None => Err NotFound d
      end
  end.

Definition create_dir_all (dir : string) : M Disk IoError unit := λ d,
  if decide (dir ∈ dir_faults d) then Err OtherIo d
  else match dirs d !! dir with
       | Some _ => Ret tt d
       | None => Ret tt (d <| dirs ::= <[dir := ∅]> |>)
       end.

(** [fs::read_dir]: the entries of a directory, in no particular order. *)
Definition read_dir `{HashOrder} (d : Disk) (dir : string) : result (list string) IoError :=
  if decide (dir ∈ dir_faults d) then Error OtherIo
  else match dirs d !! dir with
       | Some files => Ok (map_order files).*1
       | None => Error NotFound
       end.

(** The disk may differ in one file, or in none; what could be read still
    can. *)
Definition writes_only (written : option FilePath) (d d' : Disk) : Prop :=
  read_faults d' = read_faults d ∧ ∀ q, written ≠ Some q → file_at d' q = file_at d q.

Section disk_lemmas.
Implicit Types (d : Disk) (p q : FilePath).

Lemma file_at_store_file_eq d p b :
  is_Some (dirs d !! p.1) → file_at (store_file d p b) p = Some b.
Proof.
  intros [files Hf]. unfold file_at, store_file. cbn.
  rewrite lookup_alter_eq, Hf. cbn. by rewrite lookup_insert_eq.
Qed.

Lemma file_at_store_file_ne d p q b :
  p ≠ q → file_at (store_file d p b) q = file_at d q.
Proof.
  destruct p as [dir name], q as [dir' name']. intros Hne.
  unfold file_at, store_file. cbn. destruct (decide (dir = dir')) as [->|].
  - rewrite lookup_alter_eq. destruct (dirs d !! dir') as [files|]; [|done].
    cbn. apply lookup_insert_ne. congruence.
  - by rewrite lookup_alter_ne.
Qed.

Lemma fs_write_Ret p b d d' :
  fs_write p b d = Ret tt d' ↔
  (write_faults d !! p = None ∧ is_Some (dirs d !! p.1) ∧ d' = store_file d p b).
Proof.
  unfold fs_write. destruct (write_faults d !! p) as [[]|].
  - split; [done|by intros (?&?&?)].
  - split; [done|by intros (?&?&?)].
  - destruct (dirs d !! p.1) eqn:E.
    + split; [intros [= <-]; eauto|by intros (?&?&->)].
    + split; [done|]. by intros (?&[? ?]&?).
Qed.

(** A write never touches another file, whether it succeeds or not. *)
Lemma fs_write_frame p b d d' q :
  final_state (fs_write p b d) = Some d' → p ≠ q → file_at d' q = file_at d q.
Proof.
  unfold fs_write. intros Hf Hne.
  destruct (write_faults d !! p) as [[|k]|]; simpl in Hf; simplify_eq; [done|..].
  - by apply file_at_store_file_ne.
  - destruct (dirs d !! p.1); simpl in Hf; simplify_eq; [|done].
    by apply file_at_store_file_ne.
Qed.

Lemma fs_write_read_faults p b d d' :
  final_state (fs_write p b d) = Some d' → read_faults d' = read_faults d.
Proof. unfold fs_write. repeat case_match; by intros [= <-]. Qed.

Lemma fs_write_no_panic p b d : fs_write p b d ≠ Panic.
Proof.
  unfold fs_write. destruct (write_faults d !! p) as [[]|]; [done..|].
  by destruct (dirs d !! p.1).
Qed.

Lemma store_file_faults d p b :
  write_faults (store_file d p b) = write_faults d ∧
  read_faults (store_file d p b) = read_faults d ∧
  dir_faults (store_file d p b) = dir_faults d.
Proof. done. Qed.

Lemma store_file_dir d p b dir :
  is_Some (dirs (store_file d p b) !! dir) ↔ is_Some (dirs d !! dir).
Proof. cbn. apply lookup_alter_is_Some. Qed.

Lemma create_dir_all_spec dir d :
  dir ∉ dir_faults d →
  ∃ d1, create_dir_all dir d = Ret tt d1 ∧ dir ∉ dir_faults d1 ∧ is_Some (dirs d1 !! dir) ∧
        (is_Some (dirs d !! dir) → d1 = d).
Proof.
  intros Hd. unfold create_dir_all. rewrite decide_False by done.
  destruct (dirs d !! dir) eqn:E; (eexists; split_and!; [done|done|..]).
  - eauto.
  - done.
  - cbn. rewrite lookup_insert_eq. eauto.
  - by intros [].
Qed.

Lemma fs_read_spec d p b :
  fs_read d p = Ok b ↔ p ∉ read_faults d ∧ file_at d p = Some b.
Proof.
  unfold fs_read. case_decide; [split; [done|tauto]|].
  destruct (file_at d p); split; naive_solver.
Qed.
End disk_lemmas.

#[export] Hint Resolve file_at_store_file_eq fs_write_no_panic : rustchain.
