(* ===== verification/Crypto.v ===== *)
(** * crypto.rs: keys and signatures *)

From S2P Require Import Prelude Platform.

Definition KEY_FILE_NAME : string := "private_key.bin".

Module KeyManager.
Section key_manager.
Context {P : Platform}.

(** [SigningKey::random(&mut rand::rng())]; [draw] stands for the generator. *)
Definition create_key (draw : N) : SigningKey := signing_key_random draw.

(** Every [expect] of the method is a panic; a read error of any kind counts
    as an absent key file. *)
Definition get_or_create_key {E} (draw : N) (key_dir : string) : M Disk E SigningKey :=
  let* created := try_ (create_dir_all key_dir) in
  match created with
  | Error _ => panic
  | Ok _ =>
      let* d := get in
      match fs_read d (key_dir, KEY_FILE_NAME) with
      | Ok key_bytes =>
          if decide (length key_bytes = 32%nat)
          then unwrap (signing_key_from_bytes key_bytes)
          else panic
      | Error _ =>
          let key := create_key draw in
          let* written := try_ (fs_write (key_dir, KEY_FILE_NAME) (signing_key_to_bytes key)) in
          match written with
          | Ok _ => ret key
          | Error _ => panic
          end
      end
  end.

Definition public_key_to_bytes (key : VerifyingKey) : bytes := to_sec1_bytes key.

Definition bytes_to_key (key_bytes : bytes) : result VerifyingKey string :=
  match from_sec1_bytes key_bytes with
  | Some k => Ok k
  | None => Error signature_error
  end.

Definition to_string_hex (k : VerifyingKey) : string := hex_encode (to_sec1_bytes k).

Definition sign_message {T} `{Serde T} (key : SigningKey) (signable : T) : Signature :=
  ecdsa_sign key (to_vec signable).

Definition verify_message (public_key : VerifyingKey) (signature : Signature)
    (message : bytes) : result unit string :=
  if ecdsa_verify public_key message signature then Ok tt else Error signature_error.

Section laws.
Context {L : PlatformLaws}.

Lemma to_string_hex_inj k1 k2 : to_string_hex k1 = to_string_hex k2 → k1 = k2.
Proof.
  unfold to_string_hex. intros H%(inj hex_encode).
  apply (f_equal from_sec1_bytes) in H. rewrite !sec1_roundtrip in H. congruence.
Qed.

Lemma bytes_to_key_roundtrip k : bytes_to_key (public_key_to_bytes k) = Ok k.
Proof. unfold bytes_to_key, public_key_to_bytes. by rewrite sec1_roundtrip. Qed.

Lemma verify_sign_message {T} `{Serde T} sk (x : T) :
  verify_message (verifying_key_from sk) (sign_message sk x) (to_vec x) = Ok tt.
Proof. unfold verify_message, sign_message. by rewrite ecdsa_sign_verify. Qed.

(** What a successful call leaves on disk. *)
Lemma get_or_create_key_stored {E} draw dir d k d' :
  get_or_create_key (E := E) draw dir d = Ret k d' →
  dir ∉ dir_faults d' ∧ is_Some (dirs d' !! dir) ∧
  ((dir, KEY_FILE_NAME) ∉ read_faults d' →
   ∃ b, fs_read d' (dir, KEY_FILE_NAME) = Ok b ∧ length b = 32%nat ∧
        signing_key_from_bytes b = Some k).
Proof.
  unfold get_or_create_key, bind, try_, get. intros Hk.
  destruct (decide (dir ∈ dir_faults d)) as [Hd|Hd].
  { unfold create_dir_all in Hk. by rewrite decide_True in Hk. }
  destruct (create_dir_all_spec dir d Hd) as (d1 & E1 & Hnf & Hdir & _).
  rewrite E1 in Hk. destruct (fs_read d1 (dir, KEY_FILE_NAME)) as [b|e] eqn:Er.
  - case_decide as Hl; [|done]. unfold unwrap in Hk.
    destruct (signing_key_from_bytes b) eqn:Eb; [|done]. injection Hk as -> ->.
    split_and!; eauto.
  - destruct (fs_write _ _ d1) as [[] d2|e2 d2|] eqn:Ew; [|done..].
    injection Hk as <- <-. apply fs_write_Ret in Ew as (_ & _ & ->).
    split_and!; [done|by apply store_file_dir|]. intros Hf.
    exists (signing_key_to_bytes (create_key draw)).
    split_and!; auto using signing_key_length, signing_key_roundtrip.
    apply fs_read_spec. split; [done|]. by apply file_at_store_file_eq.
Qed.

(** The key is stable: asking again, on a disk that can be read, yields
    the key of the first call whatever the generator draws. *)
Lemma get_or_create_key_again {E} draw draw' dir d k d' :
  get_or_create_key (E := E) draw dir d = Ret k d' →
  (dir, KEY_FILE_NAME) ∉ read_faults d' →
  get_or_create_key (E := E) draw' dir d' = Ret k d'.
Proof.
  intros (Hnf & Hdir & Hr)%get_or_create_key_stored Hread.
  destruct (Hr Hread) as (b & Eb & Hl & Hk).
  destruct (create_dir_all_spec dir d' Hnf) as (d1 & E1 & _ & _ & Hd1).
  rewrite (Hd1 Hdir) in E1.
  unfold get_or_create_key, bind, try_, get.
  rewrite E1, Eb, decide_True by done. unfold unwrap. by rewrite Hk.
Qed.

(** C35. A peer keeps its identity: once a directory has yielded a key, every
    later call on it yields the same key and leaves the disk alone, whatever
    the generator draws, and what that key signs verifies under its public
    key. *)
Theorem signing_key_stable {E} draw dir d k d' :
  get_or_create_key (E := E) draw dir d = Ret k d' →
  (dir, KEY_FILE_NAME) ∉ read_faults d' →
  (∀ draw', get_or_create_key (E := E) draw' dir d' = Ret k d') ∧
  ∀ T (HT : Serde T) (x : T), verify_message (verifying_key_from k) (sign_message k x) (to_vec x) = Ok tt.
Proof.
  intros Hk Hr. split; [|intros; apply verify_sign_message].
  intros draw'. by eapply get_or_create_key_again.
Qed.
End laws.
End key_manager.
End KeyManager.
