(* ===== verification/Transactions.v ===== *)
(** * transactions.rs: signed transactions and the account ledger

    The data types of a transaction, the two signature layers (client and
    forwarding peer), and [TransactionProcessor]: the balances a peer derives
    from the transactions it has seen, with rollback. *)

From S2P Require Import Prelude Platform Crypto.

(** ** Data *)

Record Metadata : Type := mkMetadata {
  timestamp_nanos : N;     (* u128 *)
  sequence_number : N;     (* u32 *)
}.

Inductive AssetType : Type := BTC | USDT.

Inductive Operation : Type :=
  | AddCoin (amount : N) (asset_type : AssetType)
  | Send (recipient : string) (amount : N) (asset_type : AssetType).

Record Transaction : Type := mkTransaction {
  operation : Operation;
  metadata : Metadata;
}.

#[export] Instance Metadata_eq_dec : EqDecision Metadata.
Proof. solve_decision. Defined.
#[export] Instance AssetType_eq_dec : EqDecision AssetType.
Proof. solve_decision. Defined.
#[export] Instance Operation_eq_dec : EqDecision Operation.
Proof. solve_decision. Defined.
#[export] Instance Transaction_eq_dec : EqDecision Transaction.
Proof. solve_decision. Defined.

Section signed_data.
Context {P : Platform}.

Record SignedTransaction : Type := mkSignedTransaction {
  transaction : Transaction;
  signature : Signature;
  public_key : VerifyingKey;
}.

Record VerifiedTransaction : Type := mkVerifiedTransaction {
  client_tx : SignedTransaction;
  peer_signature : Signature;
  peer_public_key : VerifyingKey;
}.

#[export] Instance SignedTransaction_eq_dec : EqDecision SignedTransaction.
Proof. solve_decision. Defined.
#[export] Instance VerifiedTransaction_eq_dec : EqDecision VerifiedTransaction.
Proof. solve_decision. Defined.
End signed_data.

(** ** Signatures *)

Section signing.
Context {P : Platform} `{!Serde Transaction, !Serde SignedTransaction}.

Definition to_sign_bytes (t : Transaction) : bytes := to_vec t.

Definition SignedTransaction_new (t : Transaction) (signing_key : SigningKey) : SignedTransaction :=
  {| transaction := t;
     signature := ecdsa_sign signing_key (to_sign_bytes t);
     public_key := verifying_key_from signing_key |}.

Definition SignedTransaction_verify (tx : SignedTransaction) : result unit string :=
  if ecdsa_verify (public_key tx) (to_sign_bytes (transaction tx)) (signature tx)
  then Ok tt
  else Error ("Invalid client signature: " +:+ signature_error).

Definition tx_id (tx : SignedTransaction) : string :=
  hex_encode (signature_to_bytes (signature tx)).

Definition VerifiedTransaction_new (tx : SignedTransaction) (peer_key : SigningKey) : VerifiedTransaction :=
  {| client_tx := tx;
     peer_signature := ecdsa_sign peer_key (to_vec tx);
     peer_public_key := verifying_key_from peer_key |}.

Definition VerifiedTransaction_verify (vtx : VerifiedTransaction) : result unit string :=
  match SignedTransaction_verify (client_tx vtx) with
  | Error e => Error e
  | Ok _ =>
      if ecdsa_verify (peer_public_key vtx) (to_vec (client_tx vtx)) (peer_signature vtx)
      then Ok tt
      else Error ("Invalid peer signature: " +:+ signature_error)
  end.

Lemma signed_new_verifies `{!PlatformLaws} t sk :
  SignedTransaction_verify (SignedTransaction_new t sk) = Ok tt.
Proof. unfold SignedTransaction_verify. cbn. by rewrite ecdsa_sign_verify. Qed.

Lemma verified_new_verify_iff `{!PlatformLaws} tx sk :
  VerifiedTransaction_verify (VerifiedTransaction_new tx sk) = SignedTransaction_verify tx.
Proof.
  unfold VerifiedTransaction_verify. cbn.
  destruct (SignedTransaction_verify tx) as [[]|]; [|done]. by rewrite ecdsa_sign_verify.
Qed.
End signing.

(** ** The ledger *)

Record Account : Type := mkAccount {
  asset_type : AssetType;
  balance : N;             (* u32 *)
}.
#[export] Instance eta_account : Settable Account := λ a, mkAccount (asset_type a) (balance a).

Inductive TransactionValidationError : Type :=
  | AccountNotFound (account_id : string)
  | InsufficientFunds (account_id : string) (balance amount : N)
  | AssetMismatch (account_id : string) (expected actual : AssetType).

#[export] Instance TransactionValidationError_eq_dec : EqDecision TransactionValidationError.
Proof. solve_decision. Defined.

Definition asset_debug (a : AssetType) : string :=
  match a with BTC => "BTC" | USDT => "USDT" end.

(** [Display for TransactionValidationError] *)
Definition validation_error_display (e : TransactionValidationError) : string :=
  match e with
  | AccountNotFound id => "Account " +:+ id +:+ " not found"
  | InsufficientFunds id b a =>
      "Account " +:+ id +:+ " has insufficient funds: balance " +:+ pretty b
        +:+ ", requested " +:+ pretty a
  | AssetMismatch id x y =>
      "Account " +:+ id +:+ " asset mismatch: expected " +:+ asset_debug x
        +:+ ", got " +:+ asset_debug y
  end.

Record TransactionProcessor : Type := mkTransactionProcessor {
  accounts : gmap string Account;
  applied_transactions : gset string;
}.
#[export] Instance eta_processor : Settable TransactionProcessor :=
  λ p, mkTransactionProcessor (accounts p) (applied_transactions p).

(** [TransactionProcessor::default()] *)
Definition TransactionProcessor_default : TransactionProcessor := mkTransactionProcessor ∅ ∅.

Module TransactionProcessor.
Section processor.
Context {BP : BuildProfile} {P : Platform}.

Definition LedgerM := M TransactionProcessor TransactionValidationError.

Definition add_coin (id : string) (a : AssetType) (amount : N) : LedgerM unit :=
  let* p := get in
  match accounts p !! id with
  | Some account =>
      if decide (asset_type account ≠ a)
      then throw (AssetMismatch id (asset_type account) a)
      else
        let* b := add_u32 (balance account) amount in
        modify (λ p, p <| accounts ::= <[id := account <| balance := b |>]> |>)
  | None =>
      modify (λ p, p <| accounts ::= <[id := mkAccount a amount]> |>)
  end.

Definition send_coins (id to : string) (a : AssetType) (amount : N) : LedgerM unit :=
  let* p := get in
  match accounts p !! id with
  | None => throw (AccountNotFound id)
  | Some sender_account =>
      if decide (asset_type sender_account ≠ a)
      then throw (AssetMismatch id (asset_type sender_account) a)
      else if decide (balance sender_account < amount)
      then throw (InsufficientFunds id (balance sender_account) amount)
      else
        match accounts p !! to with
        | Some recipient_account =>
            if decide (asset_type recipient_account ≠ a)
            then throw (AssetMismatch to (asset_type recipient_account) a)
            else ret tt
        | None => ret tt
        end ;;;
        let* b := sub_u32 (balance sender_account) amount in
        modify (λ p, p <| accounts ::= <[id := sender_account <| balance := b |>]> |>) ;;;
        add_coin to a amount
  end.

Definition process_transaction (tx : SignedTransaction) : LedgerM unit :=
  let id := tx_id tx in
  let* p := get in
  if decide (id ∈ applied_transactions p) then ret tt
  else
    let* result := try_
      match operation (transaction tx) with
      | AddCoin amount a => add_coin (KeyManager.to_string_hex (public_key tx)) a amount
      | Send recipient amount a =>
          send_coins (KeyManager.to_string_hex (public_key tx)) recipient a amount
      end in
    (if is_ok result
     then modify (λ p, p <| applied_transactions ::= union {[ id ]} |>)
     else ret tt) ;;;
    of_result result.

Definition reverse_add_coin {E} (id : string) (amount : N) : M TransactionProcessor E unit :=
  let* p := get in
  match accounts p !! id with
  | Some account =>
      modify (λ p, p <| accounts ::= <[id :=
        account <| balance := saturating_sub (balance account) amount |>]> |>)
  | None => ret tt
  end.

Definition reverse_send_coins {E} (id to : string) (amount : N) : M TransactionProcessor E unit :=
  let* p := get in
  match accounts p !! to with
  | Some recipient_account =>
      modify (λ p, p <| accounts ::= <[to :=
        recipient_account <| balance := saturating_sub (balance recipient_account) amount |>]> |>)
  | None => ret tt
  end ;;;
  let* p := get in
  match accounts p !! id with
  | Some sender_account =>
      let* b := add_u32 (balance sender_account) amount in
      modify (λ p, p <| accounts ::= <[id := sender_account <| balance := b |>]> |>)
  | None => ret tt
  end.

Definition rollback_transaction {E} (tx : SignedTransaction) : M TransactionProcessor E unit :=
  let id := tx_id tx in
  let* p := get in
  if decide (id ∈ applied_transactions p) then
    modify (λ p, p <| applied_transactions ::= λ s, s ∖ {[ id ]} |>) ;;;
    match operation (transaction tx) with
    | AddCoin amount _ => reverse_add_coin (KeyManager.to_string_hex (public_key tx)) amount
    | Send recipient amount _ =>
        reverse_send_coins (KeyManager.to_string_hex (public_key tx)) recipient amount
    end
  else ret tt.

Definition rollback_transactions {E} (txs : list SignedTransaction) : M TransactionProcessor E unit :=
  for_each (reverse txs) rollback_transaction.

Definition get_account (p : TransactionProcessor) (id : string) : option Account :=
  accounts p !! id.
End processor.

#[global] Arguments add_coin : simpl never.
#[global] Arguments send_coins : simpl never.
#[global] Arguments process_transaction : simpl never.
#[global] Arguments reverse_add_coin : simpl never.
#[global] Arguments reverse_send_coins : simpl never.
#[global] Arguments rollback_transaction : simpl never.
#[global] Arguments rollback_transactions : simpl never.
End TransactionProcessor.
