(* ===== verification/TransactionsFacts.v ===== *)
(** * The ledger: conservation, atomicity, rollback

    [supply] is the total of an asset over all accounts.  The first group of
    lemmas computes it through insertions; the second describes each ledger
    operation by its exact result; the theorems follow. *)

From S2P Require Import Prelude Platform Crypto Transactions.

(** ** Total supply of an asset *)

Definition asset_amount (a : AssetType) (acc : Account) : N :=
  if decide (asset_type acc = a) then balance acc else 0.

Definition total (a : AssetType) (m : gmap string Account) : N :=
  map_fold (λ _ acc s, asset_amount a acc + s) 0 m.

Definition supply (a : AssetType) (p : TransactionProcessor) : N := total a (accounts p).

(** What a transaction adds to the supply. *)
Definition minted `{Platform} (a : AssetType) (tx : SignedTransaction) : N :=
  match operation (transaction tx) with
  | AddCoin amount a' => if decide (a' = a) then amount else 0
  | Send _ _ _ => 0
  end.

Definition tx_asset `{Platform} (tx : SignedTransaction) : AssetType :=
  match operation (transaction tx) with AddCoin _ a | Send _ _ a => a end.

(** The balance of an account, zero when there is none. *)
Definition balance_of (m : gmap string Account) (id : string) : N :=
  match m !! id with Some acc => balance acc | None => 0 end.

Section total.
Implicit Types (m : gmap string Account) (a : AssetType).

Lemma total_insert_new a m id acc :
  m !! id = None → total a (<[id := acc]> m) = asset_amount a acc + total a m.
Proof. intros. unfold total. rewrite map_fold_insert_L; [done|lia|done]. Qed.

Lemma total_delete a m id acc :
  m !! id = Some acc → total a m = asset_amount a acc + total a (delete id m).
Proof.
  intros H. rewrite <-(insert_delete_id m id acc) at 1 by done.
  by rewrite total_insert_new by apply lookup_delete_eq.
Qed.

Lemma total_insert_old a m id old acc :
  m !! id = Some old →
  total a (<[id := acc]> m) + asset_amount a old = total a m + asset_amount a acc.
Proof.
  intros H. rewrite (total_delete a m id old) by done.
  rewrite <-insert_delete_eq, total_insert_new by apply lookup_delete_eq. lia.
Qed.

Lemma total_lookup a m id acc :
  m !! id = Some acc → asset_type acc = a → balance acc ≤ total a m.
Proof.
  intros H <-. rewrite (total_delete _ m id acc) by done.
  unfold asset_amount. rewrite decide_True by done. lia.
Qed.
End total.

(** The account map after crediting [amount] exactly. *)
Definition credit (m : gmap string Account) (id : string) (a : AssetType) (amount : N) : gmap string Account :=
  <[id := mkAccount a (balance_of m id + amount)]> m.

Definition asset_matches (m : gmap string Account) (id : string) (a : AssetType) : Prop :=
  match m !! id with Some acc => asset_type acc = a | None => True end.

Lemma total_credit a' m id a amount :
  asset_matches m id a →
  total a' (credit m id a amount) = total a' m + (if decide (a = a') then amount else 0).
Proof.
  unfold asset_matches, credit, balance_of. intros Hm.
  destruct (m !! id) as [[a0 b]|] eqn:E; cbn in *.
  - subst a0. pose proof (total_insert_old a' m id _ (mkAccount a (b + amount)) E) as H.
    unfold asset_amount in H. cbn in H. case_decide; lia.
  - rewrite total_insert_new by done. unfold asset_amount. cbn. case_decide; lia.
Qed.

Lemma total_debit a' m id acc amount :
  m !! id = Some acc → amount ≤ balance acc →
  total a' (<[id := mkAccount (asset_type acc) (balance acc - amount)]> m)
    + (if decide (asset_type acc = a') then amount else 0) = total a' m.
Proof.
  intros E Hle.
  pose proof (total_insert_old a' m id acc (mkAccount (asset_type acc) (balance acc - amount)) E) as H.
  unfold asset_amount in H. cbn in H. case_decide; lia.
Qed.

(** ** The operations, exactly *)

Module Ledger.
Import TransactionProcessor.
Section ledger.
Context {BP : BuildProfile} {P : Platform}.
Implicit Types (p : TransactionProcessor) (tx : SignedTransaction).

(** Arithmetic is exact for a sum [n] : either the build checks overflow or
    [n] fits. *)
Definition exact_for (n : N) : Prop := overflow_checks = true ∨ n < u32_modulus.

Lemma exact_plus n x y z :
  exact_for n → x + y ≤ n → checked_plus u32_modulus x y = Some z → z = x + y.
Proof.
  intros [Hc|Hn] Hle Hz; [by apply checked_plus_checked in Hz as [-> _]|].
  rewrite checked_plus_exact in Hz by lia. congruence.
Qed.

Lemma add_coin_Ret id a amount p p' n :
  exact_for n → balance_of (accounts p) id + amount ≤ n →
  add_coin id a amount p = Ret tt p' →
  asset_matches (accounts p) id a ∧ p' = p <| accounts := credit (accounts p) id a amount |>.
Proof.
  unfold add_coin, bind, get, modify, add_u32, unwrap, asset_matches, credit, balance_of.
  intros Hex Hle. destruct (accounts p !! id) as [[a0 b]|]; cbn in *.
  - case_decide as Ha; [done|]. cbn in *.
    destruct (checked_plus _ _ _) as [c|] eqn:Ec; [|done]. intros [= <-].
    apply (exact_plus n) in Ec as ->; [|done..]. subst a0. done.
  - intros [= <-]. by rewrite N.add_0_l.
Qed.

Lemma add_coin_Err id a amount p e p' :
  add_coin id a amount p = Err e p' →
  p' = p ∧ ¬ asset_matches (accounts p) id a.
Proof.
  unfold add_coin, bind, get, modify, throw, add_u32, unwrap, asset_matches.
  destruct (accounts p !! id) as [[a0 b]|]; cbn; [|done].
  case_decide; [by intros [= _ <-]|]. by destruct (checked_plus _ _ _).
Qed.

Lemma add_coin_mismatch id a amount acc p :
  accounts p !! id = Some acc → Transactions.asset_type acc ≠ a →
  add_coin id a amount p = Err (AssetMismatch id (Transactions.asset_type acc) a) p.
Proof.
  intros E Hne. unfold add_coin, bind, get, throw. by rewrite E, decide_True.
Qed.

Lemma add_coin_ok id a amount p :
  asset_matches (accounts p) id a → balance_of (accounts p) id + amount < u32_modulus →
  add_coin id a amount p = Ret tt (p <| accounts := credit (accounts p) id a amount |>).
Proof.
  unfold add_coin, bind, get, modify, add_u32, unwrap, asset_matches, credit, balance_of.
  destruct (accounts p !! id) as [[a0 b]|]; cbn; intros Ha Hb.
  - subst a0. rewrite decide_False by tauto. cbn.
    by rewrite checked_plus_exact by done.
  - by rewrite N.add_0_l.
Qed.

(** When a send is accepted, and what it then does to the accounts. *)
Definition can_send (m : gmap string Account) (id to : string) (a : AssetType) (amount : N) : Prop :=
  (∃ acc, m !! id = Some acc ∧ asset_type acc = a ∧ amount ≤ balance acc) ∧
  asset_matches m to a.

Definition debit (m : gmap string Account) (id : string) (amount : N) : gmap string Account :=
  alter (λ acc, acc <| balance := balance acc - amount |>) id m.

Lemma send_coins_reduce id to a amount p :
  can_send (accounts p) id to a amount →
  send_coins id to a amount p =
    add_coin to a amount (p <| accounts := debit (accounts p) id amount |>).
Proof.
  intros [(acc & E & Ha & Hb) Hto]. unfold asset_matches in Hto.
  unfold send_coins, bind, get, modify, sub_u32, unwrap, ret.
  rewrite E, decide_False by tauto. rewrite decide_False by lia.
  assert (Hdeb : <[id := acc <| balance := balance acc - amount |>]> (accounts p)
                 = debit (accounts p) id amount).
  { apply map_eq. intros j. unfold debit. destruct (decide (id = j)) as [->|].
    - by rewrite lookup_insert_eq, lookup_alter_eq, E.
    - by rewrite lookup_insert_ne, lookup_alter_ne. }
  rewrite checked_minus_exact by lia.
  destruct (accounts p !! to) as [acc'|]; [rewrite decide_False by tauto|];
    cbn; rewrite <-Hdeb; done.
Qed.

Lemma send_coins_reject id to a amount p :
  ¬ can_send (accounts p) id to a amount → ∃ e, send_coins id to a amount p = Err e p.
Proof.
  unfold can_send, asset_matches, send_coins, bind, get, throw, ret. intros Hno.
  destruct (accounts p !! id) as [acc|]; [|eauto].
  case_decide; [eauto|]. case_decide; [eauto|].
  destruct (accounts p !! to) as [acc'|]; [case_decide; [eauto|]|];
    destruct Hno; split; try done; try done;
    exists acc; split_and!; try done; try done; lia.
Qed.

Lemma can_send_dec m id to a amount : Decision (can_send m id to a amount).
Proof.
  unfold can_send, asset_matches. apply and_dec.
  - destruct (m !! id) as [acc|]; [|right; naive_solver].
    destruct (decide (asset_type acc = a ∧ amount ≤ balance acc)); [left|right]; naive_solver.
  - destruct (m !! to); apply _.
Qed.

Lemma debit_matches m id to a amount :
  can_send m id to a amount → asset_matches (debit m id amount) to a.
Proof.
  intros [(acc & E & Ha & _) Hto]. unfold asset_matches, debit in *.
  destruct (decide (id = to)) as [->|].
  - by rewrite lookup_alter_eq, E.
  - by rewrite lookup_alter_ne.
Qed.

Lemma total_debit_can_send a' m id to a amount :
  can_send m id to a amount →
  total a' (debit m id amount) + (if decide (a = a') then amount else 0) = total a' m.
Proof.
  intros [(acc & E & Ha & Hb) _]. rewrite <-(total_debit a' m id acc amount) by done.
  rewrite Ha. f_equal. f_equal. apply map_eq. intros j. unfold debit.
  destruct (decide (id = j)) as [->|].
  - by rewrite lookup_insert_eq, lookup_alter_eq, E, <-Ha.
  - by rewrite lookup_insert_ne, lookup_alter_ne.
Qed.

Lemma balance_of_total m id a :
  asset_matches m id a → balance_of m id ≤ total a m.
Proof.
  unfold asset_matches, balance_of. destruct (m !! id) eqn:E; [|lia].
  intros. by eapply total_lookup.
Qed.

Lemma exact_for_le n n' : n' ≤ n → exact_for n → exact_for n'.
Proof. intros ? [?|?]; [by left|right; lia]. Qed.

(** *** [process_transaction] on a transaction that was not applied yet *)

Definition run_operation (tx : SignedTransaction) : LedgerM unit :=
  match operation (transaction tx) with
  | AddCoin amount a => add_coin (KeyManager.to_string_hex (public_key tx)) a amount
  | Send recipient amount a =>
      send_coins (KeyManager.to_string_hex (public_key tx)) recipient a amount
  end.

Lemma process_fresh tx p :
  tx_id tx ∉ applied_transactions p →
  process_transaction tx p =
    match run_operation tx p with
    | Ret _ p' => Ret tt (p' <| applied_transactions ::= union {[ tx_id tx ]} |>)
    | Err e p' => Err e p'
    | Panic => Panic
    end.
Proof.
  intros Hf. unfold process_transaction, bind at 1, get. rewrite decide_False by done.
  unfold bind, try_, run_operation.
  by destruct (operation (transaction tx)); [destruct (add_coin _ _ _ p) as [[]| |]
                                            |destruct (send_coins _ _ _ _ p) as [[]| |]].
Qed.

Lemma process_applied tx p :
  tx_id tx ∈ applied_transactions p → process_transaction tx p = Ret tt p.
Proof. intros Hf. unfold process_transaction, bind at 1, get. by rewrite decide_True. Qed.

Definition tx_balance_bound (tx : SignedTransaction) (p : TransactionProcessor) : N :=
  supply (tx_asset tx) p + minted (tx_asset tx) tx.

Lemma run_operation_Err tx p e p' : run_operation tx p = Err e p' → p' = p.
Proof.
  unfold run_operation. destruct (operation (transaction tx)) as [amount a|to amount a].
  - by intros [-> _]%add_coin_Err.
  - destruct (can_send_dec (accounts p) (KeyManager.to_string_hex (public_key tx)) to a amount) as [Hc|Hc].
    + rewrite send_coins_reduce by done. intros [_ []]%add_coin_Err. by apply debit_matches.
    + destruct (send_coins_reject _ _ _ _ _ Hc) as [? ->]. congruence.
Qed.

(** The accounts after a successful operation, computed exactly. *)
Definition exact_accounts (tx : SignedTransaction) (m : gmap string Account) : gmap string Account :=
  let id := KeyManager.to_string_hex (public_key tx) in
  match operation (transaction tx) with
  | AddCoin amount a => credit m id a amount
  | Send to amount a => credit (debit m id amount) to a amount
  end.

Definition accepts (tx : SignedTransaction) (m : gmap string Account) : Prop :=
  let id := KeyManager.to_string_hex (public_key tx) in
  match operation (transaction tx) with
  | AddCoin _ a => asset_matches m id a
  | Send to amount a => can_send m id to a amount
  end.

Lemma credited_bound tx p :
  accepts tx (accounts p) →
  let id := KeyManager.to_string_hex (public_key tx) in
  match operation (transaction tx) with
  | AddCoin amount _ => balance_of (accounts p) id + amount ≤ tx_balance_bound tx p
  | Send to amount _ =>
      balance_of (debit (accounts p) id amount) to + amount ≤ tx_balance_bound tx p
  end.
Proof.
  unfold accepts, tx_balance_bound, tx_asset, minted, supply.
  destruct (operation (transaction tx)) as [amount a|to amount a]; cbn.
  - intros ?%balance_of_total. rewrite decide_True by done. lia.
  - intros Hc. pose proof (balance_of_total _ _ _ (debit_matches _ _ _ _ _ Hc)) as H.
    pose proof (total_debit_can_send a _ _ _ _ _ Hc) as H2.
    rewrite decide_True in H2 by done. lia.
Qed.

Lemma run_operation_Ret tx p p' :
  exact_for (tx_balance_bound tx p) →
  run_operation tx p = Ret tt p' →
  accepts tx (accounts p) ∧ p' = p <| accounts := exact_accounts tx (accounts p) |>.
Proof.
  intros Hex. pose proof (credited_bound tx p) as Hb.
  unfold run_operation, accepts, exact_accounts in *.
  destruct (operation (transaction tx)) as [amount a|to amount a]; cbn in Hb.
  - intros H.
    assert (asset_matches (accounts p) (KeyManager.to_string_hex (public_key tx)) a) as Ha.
    { unfold add_coin, bind, get, throw in H. unfold asset_matches.
      destruct (accounts p !! _) as [acc|]; [|done]. by case_decide. }
    apply add_coin_Ret with (n := tx_balance_bound tx p) in H as [_ ->]; auto.
  - destruct (can_send_dec (accounts p) (KeyManager.to_string_hex (public_key tx)) to a amount) as [Hc|Hc].
    + rewrite send_coins_reduce by done. intros H. split; [done|].
      apply add_coin_Ret with (n := tx_balance_bound tx p) in H as [_ ->]; auto.
    + destruct (send_coins_reject _ _ _ _ _ Hc) as [? ->]. done.
Qed.

Lemma run_operation_ok tx p :
  tx_balance_bound tx p < u32_modulus → accepts tx (accounts p) →
  run_operation tx p = Ret tt (p <| accounts := exact_accounts tx (accounts p) |>).
Proof.
  intros Hn Ha. pose proof (credited_bound tx p Ha) as Hb.
  unfold run_operation, accepts, exact_accounts in *.
  destruct (operation (transaction tx)) as [amount a|to amount a]; cbn in Hb.
  - apply add_coin_ok; [done|]. lia.
  - rewrite send_coins_reduce by done. rewrite add_coin_ok; [done|by apply debit_matches|].
    cbn. lia.
Qed.

Lemma run_operation_reject tx p :
  ¬ accepts tx (accounts p) → ∃ e, run_operation tx p = Err e p.
Proof.
  unfold accepts, run_operation.
  destruct (operation (transaction tx)) as [amount a|to amount a]; [|apply send_coins_reject].
  unfold asset_matches, add_coin, bind, get, throw. intros Hno.
  destruct (accounts p !! _) as [acc|]; [|done]. rewrite decide_True by done. eauto.
Qed.

Lemma accepts_dec tx m : Decision (accepts tx m).
Proof.
  unfold accepts, asset_matches.
  destruct (operation (transaction tx)); [destruct (m !! _); apply _|apply can_send_dec].
Qed.

Lemma total_exact_accounts a tx m :
  accepts tx m → total a (exact_accounts tx m) = total a m + minted a tx.
Proof.
  unfold accepts, exact_accounts, minted.
  destruct (operation (transaction tx)) as [amount a'|to amount a']; intros H.
  - by rewrite total_credit.
  - rewrite total_credit by by apply debit_matches.
    rewrite <-(total_debit_can_send a m _ _ _ _ H). lia.
Qed.
End ledger.
End Ledger.

(** ** Rolling back a block

    Staging a block applies its transactions in order and ignores the ones
    that are refused ([PeerEffects::apply_block_transactions]); rolling it back
    calls [rollback_transactions] on the same list. *)

Module Rollback.
Import TransactionProcessor Ledger.
Section rollback.
Context {BP : BuildProfile} {P : Platform}.
Implicit Types (p q : TransactionProcessor) (tx : SignedTransaction).

Definition process_all (txs : list SignedTransaction) : M TransactionProcessor TransactionValidationError unit :=
  for_each txs (λ tx, let* _ := try_ (process_transaction tx) in ret tt).

Definition tx_amount (tx : SignedTransaction) : N :=
  match operation (transaction tx) with AddCoin n _ | Send _ n _ => n end.

(** Amounts and balances are u32 values. *)
Definition tx_u32 (tx : SignedTransaction) : Prop := tx_amount tx < u32_modulus.
Definition balances_u32 (m : gmap string Account) : Prop :=
  ∀ id acc, m !! id = Some acc → balance acc < u32_modulus.

Lemma add_coin_u32 id a amount p p' :
  balances_u32 (accounts p) → amount < u32_modulus →
  add_coin id a amount p = Ret tt p' → balances_u32 (accounts p').
Proof.
  intros H0 Hn. unfold add_coin, bind, get, modify, throw, add_u32, unwrap.
  destruct (accounts p !! id) as [acc|] eqn:E.
  - case_decide; [done|]. destruct (checked_plus _ _ _) as [c|] eqn:Ec; [|done].
    intros [= <-] j acc'. cbn. rewrite lookup_insert. case_decide; [|by eauto].
    intros [= <-]. cbn. by eapply checked_plus_bound.
  - intros [= <-] j acc'. cbn. rewrite lookup_insert. case_decide; [|by eauto].
    by intros [= <-].
Qed.

Lemma debit_u32 m id amount : balances_u32 m → balances_u32 (debit m id amount).
Proof.
  intros H j acc. unfold debit. rewrite lookup_alter. case_decide; [|apply H].
  subst j. destruct (m !! id) as [acc0|] eqn:E; [|done]. intros [= <-]. cbn.
  specialize (H _ _ E). lia.
Qed.

Lemma run_operation_u32 tx p p' :
  balances_u32 (accounts p) → tx_u32 tx → run_operation tx p = Ret tt p' →
  balances_u32 (accounts p').
Proof.
  unfold tx_u32, tx_amount, run_operation. intros Hb Hn.
  destruct (operation (transaction tx)) as [amount a|to amount a]; [by eapply add_coin_u32|].
  destruct (can_send_dec (accounts p) (KeyManager.to_string_hex (public_key tx)) to a amount) as [Hc|Hc].
  - rewrite send_coins_reduce by done. eapply add_coin_u32; [|done]. by apply debit_u32.
  - destruct (send_coins_reject _ _ _ _ _ Hc) as [? ->]. done.
Qed.

(** [q] is [p] up to accounts left behind with a zero balance. *)
Record restores (p q : TransactionProcessor) : Prop := {
  restores_applied : applied_transactions q = applied_transactions p;
  restores_accounts id acc : accounts p !! id = Some acc → accounts q !! id = Some acc;
  restores_empty id acc :
    accounts p !! id = None → accounts q !! id = Some acc → balance acc = 0;
}.

Lemma restores_refl p : restores p p.
Proof. split; naive_solver. Qed.

Lemma restores_balance p q id :
  restores p q → balance_of (accounts q) id = balance_of (accounts p) id.
Proof.
  intros [_ Ha He]. unfold balance_of.
  destruct (accounts p !! id) as [acc|] eqn:E; [by rewrite (Ha _ _ E)|].
  destruct (accounts q !! id) eqn:E'; [by eapply He|done].
Qed.

Lemma account_eq (x y : Account) :
  Transactions.asset_type x = Transactions.asset_type y → balance x = balance y → x = y.
Proof. destruct x, y; cbn. by intros -> ->. Qed.

(** Undoing one credit, and one transfer, on a state that restores the
    result. *)
Lemma reverse_add_coin_restores {E} id a amount p q :
  asset_matches (accounts p) id a →
  restores (p <| accounts := credit (accounts p) id a amount |>) q →
  ∃ q', reverse_add_coin (E := E) id amount q = Ret tt q' ∧ restores p q'.
Proof.
  unfold asset_matches. intros Hm [Happ Hacc Hemp]. cbn in *.
  pose proof (Hacc id _ (lookup_insert_eq _ _ _)) as Eq.
  unfold reverse_add_coin, bind, get, modify, saturating_sub. rewrite Eq.
  eexists; split; [done|]. split; cbn; [done|..].
  - intros j acc Ej. destruct (decide (id = j)) as [->|Hne].
    + rewrite lookup_insert_eq. unfold balance_of. rewrite Ej in Hm |- *. subst a.
      f_equal. apply account_eq; cbn; [done|lia].
    + rewrite lookup_insert_ne by done. apply Hacc. unfold credit.
      by rewrite lookup_insert_ne.
  - intros j acc Ej. destruct (decide (id = j)) as [->|Hne].
    + rewrite lookup_insert_eq. intros [= <-]. unfold balance_of. rewrite Ej. cbn. lia.
    + rewrite lookup_insert_ne by done. apply Hemp. unfold credit.
      by rewrite lookup_insert_ne.
Qed.

Lemma reverse_send_restores {E} id to a amount p q :
  balances_u32 (accounts p) → can_send (accounts p) id to a amount →
  restores (p <| accounts := credit (debit (accounts p) id amount) to a amount |>) q →
  ∃ q', reverse_send_coins (E := E) id to amount q = Ret tt q' ∧ restores p q'.
Proof.
  intros Hu Hc Hr.
  destruct (reverse_add_coin_restores (E := E) to a amount
    (p <| accounts := debit (accounts p) id amount |>) q) as (q1 & E1 & Hr1).
  { by apply debit_matches. }
  { done. }
  destruct Hc as [(acc & Eacc & Ha & Hle) _].
  assert (Eq1 : accounts q1 !! id = Some (acc <| balance := balance acc - amount |>)).
  { apply (restores_accounts _ _ Hr1). cbn. unfold debit. by rewrite lookup_alter_eq, Eacc. }
  change (reverse_send_coins id to amount q) with
    (bind (reverse_add_coin (E := E) to amount) (λ _, let* p := get in
      match accounts p !! id with
      | Some sender_account =>
          let* b := add_u32 (balance sender_account) amount in
          modify (λ p, p <| accounts ::= <[id := sender_account <| balance := b |>]> |>)
      | None => ret tt
      end) q).
  unfold bind at 1. rewrite E1. unfold bind, get, add_u32, unwrap. rewrite Eq1. cbn.
  specialize (Hu _ _ Eacc). rewrite checked_plus_exact by lia.
  eexists; split; [done|]. destruct Hr1 as [Happ Hacc Hemp]. cbn in *. unfold debit in *.
  split; cbn; [done|..]; intros j accj Ej; destruct (decide (id = j)) as [->|Hne].
  - rewrite lookup_insert_eq. rewrite Ej in Eacc. injection Eacc as ->.
    f_equal. apply account_eq; cbn; [done|lia].
  - rewrite lookup_insert_ne by done. apply Hacc. by rewrite lookup_alter_ne.
  - congruence.
  - rewrite lookup_insert_ne by done. apply Hemp. by rewrite lookup_alter_ne.
Qed.

Lemma rollback_one {E} tx p p1 q :
  balances_u32 (accounts p) → exact_for (tx_balance_bound tx p) →
  tx_id tx ∉ applied_transactions p →
  (let* _ := try_ (F := TransactionValidationError) (process_transaction tx) in ret tt) p = Ret tt p1 →
  restores p1 q →
  ∃ q', rollback_transaction (E := E) tx q = Ret tt q' ∧ restores p q'.
Proof.
  intros Hu Hex Hfresh. unfold bind, try_. rewrite process_fresh by done.
  destruct (run_operation tx p) as [[] p2|e p2|] eqn:Erun; [..|done].
  - intros [= <-] Hr. apply run_operation_Ret in Erun as [Hacc ->]; [|done].
    unfold rollback_transaction, bind at 1, get.
    rewrite decide_True by (rewrite (restores_applied _ _ Hr); set_solver).
    assert (Hr' : restores (p <| accounts := exact_accounts tx (accounts p) |>)
                    (q <| applied_transactions ::= λ s, s ∖ {[ tx_id tx ]} |>)).
    { destruct Hr as [Happ Ha He]. split; cbn in *; [|done..]. rewrite Happ. set_solver. }
    unfold bind at 1, modify. unfold accepts, exact_accounts in *.
    destruct (operation (transaction tx)) as [amount a|to amount a].
    + by eapply reverse_add_coin_restores.
    + by eapply reverse_send_restores.
  - intros [= <-] Hr. apply run_operation_Err in Erun as ->.
    exists q. split; [|done]. unfold rollback_transaction, bind, get.
    rewrite decide_False; [done|]. by rewrite (restores_applied _ _ Hr).
Qed.

(** *** What processing a list preserves *)

Definition minted_all (a : AssetType) (txs : list SignedTransaction) : N :=
  foldr (λ tx n, minted a tx + n) 0 txs.

Lemma process_step_facts tx p p1 :
  balances_u32 (accounts p) → tx_u32 tx → exact_for (tx_balance_bound tx p) →
  tx_id tx ∉ applied_transactions p →
  (let* _ := try_ (F := TransactionValidationError) (process_transaction tx) in ret tt) p = Ret tt p1 →
  balances_u32 (accounts p1) ∧
  applied_transactions p1 ⊆ {[ tx_id tx ]} ∪ applied_transactions p ∧
  ∀ a, supply a p1 ≤ supply a p + minted a tx.
Proof.
  intros Hu Htx Hex Hfresh. unfold bind, try_. rewrite process_fresh by done.
  destruct (run_operation tx p) as [[] p2|e p2|] eqn:Erun; [..|done]; intros [= <-].
  - split_and!.
    + exact (run_operation_u32 tx p p2 Hu Htx Erun).
    + apply run_operation_Ret in Erun as [_ ->]; [|done]. cbn. set_solver.
    + intros a. apply run_operation_Ret in Erun as [Hacc ->]; [|done].
      unfold supply. cbn. by rewrite total_exact_accounts.
  - apply run_operation_Err in Erun as ->. split_and!; [done|set_solver|]. intros a. lia.
Qed.

Lemma rollback_all {E} txs p p' q :
  balances_u32 (accounts p) → Forall tx_u32 txs →
  (∀ a, exact_for (supply a p + minted_all a txs)) →
  NoDup (tx_id <$> txs) → (∀ tx, tx ∈ txs → tx_id tx ∉ applied_transactions p) →
  process_all txs p = Ret tt p' → restores p' q →
  ∃ q', rollback_transactions (E := E) txs q = Ret tt q' ∧ restores p q'.
Proof.
  unfold rollback_transactions, process_all. revert p q.
  induction txs as [|tx txs IH]; intros p q Hu Htx Hex Hnd Hfresh; cbn [for_each].
  { intros [= <-] ?. by exists q. }
  apply Forall_cons in Htx as [Htx Htxs]. cbn in Hnd. apply NoDup_cons in Hnd as [Hnin Hnd].
  intros ([] & p1 & E1 & E2)%bind_Ret Hr.
  assert (Hfr : tx_id tx ∉ applied_transactions p) by (apply Hfresh; left).
  assert (Hex1 : exact_for (tx_balance_bound tx p)).
  { unfold tx_balance_bound. eapply exact_for_le, (Hex (tx_asset tx)).
    change (minted_all ?a (tx :: txs)) with (minted a tx + minted_all a txs). lia. }
  destruct (process_step_facts tx p p1) as (Hu1 & Happ1 & Hs1); [done..|].
  destruct (IH p1 q) as (q1 & Eq1 & Hr1); [done|done| |done| |done|done|].
  { intros a. eapply exact_for_le, (Hex a). specialize (Hs1 a).
    change (minted_all a (tx :: txs)) with (minted a tx + minted_all a txs). lia. }
  { intros tx' Hin Hin'. apply Happ1 in Hin'.
    apply elem_of_union in Hin' as [Heq%elem_of_singleton|Hin'].
    - apply Hnin. rewrite <-Heq. by apply list_elem_of_fmap_2.
    - eapply Hfresh; [|done]. by right. }
  destruct (rollback_one (E := E) tx p p1 q1) as (q2 & Eq2 & Hr2); [done..|].
  exists q2. split; [|done]. rewrite reverse_cons, for_each_app.
  unfold bind. rewrite Eq1. cbn. unfold bind. by rewrite Eq2.
Qed.
End rollback.
End Rollback.

(** ** Theorems *)

Module LedgerTheorems.
Import TransactionProcessor Ledger Rollback.
Section theorems.
Context {BP : BuildProfile} {P : Platform}.

(** C20. Conservation: a transaction accepted for the first time changes the
    total supply of each asset by exactly what it mints (a transfer, to
    another account or to oneself, changes nothing) and is recorded as
    applied, in a build with overflow checks or while the supply fits u32. *)
Theorem process_transaction_conserves tx p p' a :
  tx_id tx ∉ applied_transactions p →
  exact_for (tx_balance_bound tx p) →
  process_transaction tx p = Ret tt p' →
  supply a p' = supply a p + minted a tx ∧
  applied_transactions p' = {[ tx_id tx ]} ∪ applied_transactions p.
Proof.
  intros Hf Hex. rewrite process_fresh by done.
  destruct (run_operation tx p) as [[] p2| |] eqn:E; [|done..]. intros [= <-].
  apply run_operation_Ret in E as [Hacc ->]; [|done].
  split; [|done]. unfold supply. cbn. by apply total_exact_accounts.
Qed.

(** C22. Totality: while the supply of its asset fits u32, a fresh transaction
    never panics: it is accepted exactly when the sender's account, its
    asset, its funds and the recipient's asset allow it, with the exact
    balances, and refused with the ledger unchanged otherwise. *)
Theorem process_transaction_decides tx p :
  tx_id tx ∉ applied_transactions p →
  tx_balance_bound tx p < u32_modulus →
  (accepts tx (accounts p) ∧
   process_transaction tx p =
     Ret tt (mkTransactionProcessor (exact_accounts tx (accounts p))
               ({[ tx_id tx ]} ∪ applied_transactions p))) ∨
  (¬ accepts tx (accounts p) ∧ ∃ e, process_transaction tx p = Err e p).
Proof.
  intros Hf Hb. rewrite process_fresh by done.
  destruct (accepts_dec tx (accounts p)) as [Ha|Ha]; [left|right]; (split; [done|]).
  - by rewrite run_operation_ok.
  - destruct (run_operation_reject _ _ Ha) as [e ->]. eauto.
Qed.

(** C23. At most once: processing a transaction again after it was accepted
    changes nothing and succeeds, and a refused transaction leaves accounts
    and applied ids as they were (errors are atomic). *)
Theorem process_transaction_at_most_once tx p :
  match process_transaction tx p with
  | Ret _ p' => process_transaction tx p' = Ret tt p'
  | Err _ p' => p' = p
  | Panic => True
  end.
Proof.
  destruct (decide (tx_id tx ∈ applied_transactions p)) as [Hin|Hf].
  - rewrite process_applied by done. by apply process_applied.
  - rewrite process_fresh by done.
    destruct (run_operation tx p) as [[] p2|e p2|] eqn:E; [|by eapply run_operation_Err|done].
    apply process_applied. cbn. set_solver.
Qed.

(** C21. Rollback undoes the application of new transactions: take transactions
    with distinct ids none of which was applied before, amounts and balances of
    32 bits, and a supply that with everything they may mint fits a balance.
    Applying them one after the other (refused ones skipped) and then rolling
    the same list back returns to the original ledger: the same applied ids,
    every account with its balance and asset, and at most some extra accounts
    with balance zero.  (A transaction applied before, as one that the peer has
    from a client already is, is skipped by the application and undone by the
    rollback all the same: [rollback_undoes_applied].) *)
Theorem rollback_restores_ledger {E} txs p p' :
  balances_u32 (accounts p) → Forall tx_u32 txs →
  (∀ a, exact_for (supply a p + minted_all a txs)) →
  NoDup (tx_id <$> txs) →
  (∀ tx, tx ∈ txs → tx_id tx ∉ applied_transactions p) →
  process_all txs p = Ret tt p' →
  ∃ q, rollback_transactions (E := E) txs p' = Ret tt q ∧ restores p q.
Proof. intros. eapply rollback_all; eauto using restores_refl. Qed.

(** Overflow: crediting an existing account past u32::MAX panics in a
    build with overflow checks and otherwise wraps, destroying 2^32 units. *)
Theorem add_coin_overflow id acc amount p :
  accounts p !! id = Some acc →
  u32_modulus ≤ balance acc + amount →
  balance acc < u32_modulus → amount < u32_modulus →
  add_coin id (asset_type acc) amount p =
    if overflow_checks then Panic
    else Ret tt (p <| accounts ::= <[id := mkAccount (asset_type acc)
                                       (balance acc + amount - u32_modulus)]> |>).
Proof.
  intros E Hge Hb Ha. unfold add_coin, bind, get, modify, add_u32, unwrap, checked_plus.
  rewrite E, decide_False by tauto. rewrite decide_False by lia.
  destruct overflow_checks; [done|]. cbn.
  assert (Hm : (balance acc + amount) mod u32_modulus = balance acc + amount - u32_modulus).
  { symmetry. apply (N.mod_unique _ _ 1); lia. }
  by rewrite Hm.
Qed.

(** Applying a transaction that was applied before changes nothing, but rolling
    it back undoes the earlier application: a deposit is taken away again. *)
Theorem rollback_undoes_applied {E} tx n a acc p :
  let id := KeyManager.to_string_hex (public_key tx) in
  tx_id tx ∈ applied_transactions p → operation (transaction tx) = AddCoin n a → accounts p !! id = Some acc →
  process_transaction tx p = Ret tt p ∧
  rollback_transactions (E := E) [tx] p =
    Ret tt (mkTransactionProcessor (<[id := acc <| balance := balance acc - n |>]> (accounts p))
              (applied_transactions p ∖ {[ tx_id tx ]})).
Proof.
  intros id Hin Ho Hacc. split; [by apply process_applied|].
  unfold rollback_transactions, rollback_transaction, for_each, bind, get, modify, reverse_add_coin. cbn.
  rewrite decide_True, Ho by done. cbn. unfold id in *. by rewrite Hacc.
Qed.

(** Rollback is not a full inverse: after an AddCoin that opened an
    account is rolled back, the empty account remains and pins the asset, so
    a deposit of the other asset that would have succeeded is now refused. *)
Theorem rollback_leaves_asset_pinned {E} tx1 tx2 n1 n2 p :
  let id := KeyManager.to_string_hex (public_key tx1) in
  public_key tx2 = public_key tx1 →
  operation (transaction tx1) = AddCoin n1 BTC →
  operation (transaction tx2) = AddCoin n2 USDT →
  tx_id tx1 ≠ tx_id tx2 →
  tx_id tx1 ∉ applied_transactions p → tx_id tx2 ∉ applied_transactions p →
  accounts p !! id = None →
  (∃ p2, process_transaction tx2 p = Ret tt p2) ∧
  ∃ p1 q, process_transaction tx1 p = Ret tt p1 ∧
          rollback_transactions (E := E) [tx1] p1 = Ret tt q ∧
          process_transaction tx2 q = Err (AssetMismatch id BTC USDT) q.
Proof.
  intros id Hk Ho1 Ho2 Hne Hf1 Hf2 Hacc. split.
  { rewrite process_fresh by done. unfold run_operation, add_coin, bind, get, modify.
    rewrite Ho2, Hk. fold id. rewrite Hacc. eauto. }
  do 2 eexists. split_and!.
  - rewrite process_fresh by done. unfold run_operation, add_coin, bind, get, modify.
    rewrite Ho1. fold id. by rewrite Hacc.
  - unfold rollback_transactions, rollback_transaction, for_each, bind, get, modify,
      reverse_add_coin. cbn. rewrite decide_True by set_solver.
    rewrite Ho1. fold id. cbn. rewrite lookup_insert_eq. done.
  - rewrite process_fresh by (cbn; set_solver).
    unfold run_operation. rewrite Ho2, Hk. fold id.
    rewrite (add_coin_mismatch _ _ _ (mkAccount BTC (n1 - n1))); [done|apply lookup_insert_eq|done].
Qed.
End theorems.
End LedgerTheorems.
