(* ===== verification/Storage.v ===== *)
(** * storage.rs: blocks, the mempool and the committed chain on disk

    [BlockKeeper] owns the mempool, the transactions of staged blocks and the
    staged blocks themselves.  The committed height and hash live in one
    [RwLock] cell that the keeper shares with the HTTP server's views through
    [Arc]; the model keeps that cell, and the file system, beside the keeper
    in [Storage], so every handle reads the same value. *)

From S2P Require Import Prelude Platform Crypto Transactions.

(** ** Hashes and blocks *)

(** [struct BlockHash([u8; 32])] *)
Definition BlockHash : Type := vec byte 32.
#[export] Instance BlockHash_eq_dec : EqDecision BlockHash := _.
#[export] Instance BlockHash_countable : Countable BlockHash :=
  inj_countable vec_to_list (to_vec_n 32) to_vec_n_to_list.

Definition EMPTY_HASH : BlockHash := vreplicate 32 x00.

Definition hash_bytes (h : BlockHash) : bytes := vec_to_list h.

(** [Display for BlockHash] *)
Definition hash_display `{Platform} (h : BlockHash) : string := hex_encode (hash_bytes h).

Record BlockFile `{Platform} : Type := mkBlockFile {
  bf_index : N;                       (* u32 *)
  bf_hash : BlockHash;
  bf_previous_hash : BlockHash;
  bf_transactions : list SignedTransaction;
}.

Arguments mkBlockFile {_}.
#[export] Instance BlockFile_eq_dec `{Platform} : EqDecision BlockFile.
Proof. solve_decision. Defined.

Inductive BlockStatus : Type :=
  | AddedToMempool
  | NewBlockCreated (block_hash : BlockHash).

Inductive BlockVerificationError : Type :=
  | SignatureError (e : string)
  | DeserializationError (e : string)
  | InvalidBlockHash
  | InvalidPreviousHash
  | AlreadyAdded.

(** The derived [Display]: a variant's payload, or the variant's name. *)
Definition verification_error_display (e : BlockVerificationError) : string :=
  match e with
  | SignatureError e | DeserializationError e => e
  | InvalidBlockHash => "InvalidBlockHash"
  | InvalidPreviousHash => "InvalidPreviousHash"
  | AlreadyAdded => "AlreadyAdded"
  end.

Record BlockStorageState : Type := mkBlockStorageState {
  block_height : N;                   (* u32 *)
  last_commited_hash : BlockHash;
}.
#[export] Instance BlockStorageState_eq_dec : EqDecision BlockStorageState.
Proof. solve_decision. Defined.

(** [From<&BlockFile> for BlockStorageState] *)
Definition state_of_block `{Platform} (b : BlockFile) : BlockStorageState :=
  mkBlockStorageState (bf_index b) (bf_hash b).

(** ** Names of block files *)

Fixpoint zeros (n : nat) : string :=
  match n with O => "" | S n => "0" +:+ zeros n end.

(** [format!("{:05}.block", index)] *)
Definition block_filename_for_index (index : N) : string :=
  let digits := pretty index in
  zeros (5 - String.length digits) +:+ digits +:+ ".block".

Fixpoint parse_digits (s : string) (acc : N) : option N :=
  match s with
  | EmptyString => Some acc
  | String c s =>
      if is_ascii_digit c
      then parse_digits s (10 * acc + (Ascii.N_of_ascii c - 48))
      else None
  end.

(** [str::parse] at an unsigned width: an optional [+], then decimal digits
    whose value fits. *)
Definition parse_unsigned (modulus : N) (s : string) : option N :=
  let digits := match s with
                | String c rest => if (Ascii.N_of_ascii c =? 43)%N (* '+' *) then rest else s
                | EmptyString => s
                end in
  match digits with
  | EmptyString => None
  | _ => n ← parse_digits digits 0; if decide (n < modulus) then Some n else None
  end.

(** ** [BlockFile] *)

Module BlockFile.
Section block_file.
Context {P : Platform} `{!Serde (list SignedTransaction), !Serde BlockFile}.

Definition calculate_hash (txs : list SignedTransaction) (previous : BlockHash) : BlockHash :=
  sha256 (hash_bytes previous ++ to_vec txs).

Definition create (txs : list SignedTransaction) (previous : BlockHash) (index : N) : BlockFile :=
  {| bf_index := index;
     bf_hash := calculate_hash txs previous;
     bf_previous_hash := previous;
     bf_transactions := txs |}.

Definition read_from_disk (d : Disk) (p : FilePath) : result BlockFile string :=
  match fs_read d p with
  | Error NotFound => Error ("Block file not found: " +:+ path_display p)
  | Error e =>
      Error ("Failed to read block file " +:+ path_display p +:+ ": " +:+ io_error_display e)
  | Ok contents =>
      match from_slice contents with
      | Ok b => Ok b
      | Error e =>
          Error ("Failed to deserialize block file " +:+ path_display p +:+ ": " +:+ e)
      end
  end.

Definition read_from_disk_by_index (d : Disk) (path_to_blocks : string) (index : N) : result BlockFile string :=
  read_from_disk d (path_to_blocks, block_filename_for_index index).

Definition verify_block (b : BlockFile) : result unit BlockVerificationError :=
  if decide (calculate_hash (bf_transactions b) (bf_previous_hash b) = bf_hash b)
  then Ok tt else Error InvalidBlockHash.

(** [TryFrom<&Vec<u8>> for BlockFile] *)
Definition try_from (v : bytes) : result BlockFile BlockVerificationError :=
  match from_slice v with
  | Ok b => Ok b
  | Error e => Error (DeserializationError e)
  end.

Definition verify_block_vec (block_hash : BlockHash) (v : bytes) (sig : Signature)
    (key : VerifyingKey) : result BlockFile BlockVerificationError :=
  match KeyManager.verify_message key sig v with
  | Error e => Error (SignatureError e)
  | Ok _ =>
      match try_from v with
      | Error e => Error e
      | Ok b =>
          if decide (block_hash ≠ bf_hash b) then Error InvalidBlockHash
          else match verify_block b with
               | Error e => Error e
               | Ok _ => Ok b
               end
      end
  end.
End block_file.
End BlockFile.

(** [list_all_blocks]: the block file names of a directory, sorted. *)
Definition list_all_blocks {P : Platform} {HO : HashOrder} (d : Disk) (path_to_blocks : string) : list string :=
  match read_dir d path_to_blocks with
  | Ok names =>
      fold_left sorted_vec_push (filter (λ n, is_Some (block_pattern n)) names) []
  | Error _ => []
  end.

(** ** [BlockKeeper] *)

Record BlockKeeper `{Platform} : Type := mkBlockKeeper {
  path_to_blocks : string;
  mempool_size : nat;
  mempool : gmap string SignedTransaction;
  pending_transactions : gmap string SignedTransaction;
  uncommited_blocks : gmap BlockHash BlockFile;
  previous_hash : BlockHash;
}.
Arguments mkBlockKeeper {_}.
#[export] Instance eta_keeper `{Platform} : Settable BlockKeeper := λ k,
  mkBlockKeeper (path_to_blocks k) (mempool_size k) (mempool k) (pending_transactions k)
    (uncommited_blocks k) (previous_hash k).

(** A keeper with the shared cell and the disk it works on. *)
Record Storage `{Platform} : Type := mkStorage {
  keeper : BlockKeeper;
  storage_state : BlockStorageState;   (* the cell behind every Arc clone *)
  disk : Disk;
}.
Arguments mkStorage {_}.
#[export] Instance eta_storage `{Platform} : Settable Storage := λ s,
  mkStorage (keeper s) (storage_state s) (disk s).

Module BlockKeeper.
Section block_keeper.
Context {BP : BuildProfile} {P : Platform} {HO : HashOrder}.
Context `{!Serde (list SignedTransaction), !Serde BlockFile}.

Definition StorageM := M Storage.

(** [BlockKeeper::new]; [None] is a panic of [unwrap] or [expect]. *)
Definition new (path : string) (size : nat) (d : Disk) : option Storage :=
  '(last_index, last_hash) ←
    match last (list_all_blocks d path) with
    | None => Some (0, EMPTY_HASH)
    | Some name =>
        digits ← block_pattern name;
        index ← parse_unsigned u32_modulus digits;
        match BlockFile.read_from_disk d (path, name) with
        | Ok b => Some (index, bf_hash b)
        | Error _ => Some (0, EMPTY_HASH)
        end
    end;
  Some {| keeper := mkBlockKeeper path size ∅ ∅ ∅ last_hash;
          storage_state := mkBlockStorageState last_index last_hash;
          disk := d |}.

Definition update_keeper {E} (f : BlockKeeper → BlockKeeper) : StorageM E unit :=
  modify (λ s, s <| keeper ::= f |>).

Definition create_new_block {E} (transactions_map : gmap string SignedTransaction) : StorageM E BlockHash :=
  let transactions := sort_by_key tx_id (map_order transactions_map).*2 in
  let* state := gets storage_state in
  let* index := add_u32 (block_height state) 1 in
  let block_file := BlockFile.create transactions (last_commited_hash state) index in
  let block_hash := bf_hash block_file in
  update_keeper (λ k, k <| previous_hash := block_hash |>) ;;;
  update_keeper (λ k, k <| uncommited_blocks ::= <[block_hash := block_file]> |>) ;;;
  (* every entry of the map is inserted, replacing any of the same id *)
  update_keeper (λ k, k <| pending_transactions ::= union transactions_map |>) ;;;
  ret block_hash.

Definition add_transaction {E} (tx : SignedTransaction) : StorageM E BlockStatus :=
  update_keeper (λ k, k <| mempool ::= <[tx_id tx := tx]> |>) ;;;
  let* k := gets keeper in
  if decide (mempool_size k ≤ size (mempool k))%nat then
    update_keeper (λ k, k <| mempool := ∅ |>) ;;;
    let* block_hash := create_new_block (mempool k) in
    ret (NewBlockCreated block_hash)
  else ret AddedToMempool.

(** One turn of the loops that move a transaction between the maps. *)
Definition take_from_mempool {E} (tx : SignedTransaction) : StorageM E unit :=
  let* k := gets keeper in
  match mempool k !! tx_id tx with
  | Some transaction =>
      update_keeper (λ k, k <| mempool ::= delete (tx_id tx) |>) ;;;
      update_keeper (λ k, k <| pending_transactions ::= <[tx_id transaction := transaction]> |>)
  | None => ret tt
  end.

Definition add_external_block (block_file : BlockFile) : StorageM BlockVerificationError unit :=
  of_result (BlockFile.verify_block block_file) ;;;
  for_each (bf_transactions block_file) take_from_mempool ;;;
  update_keeper (λ k, k <| uncommited_blocks ::= <[bf_hash block_file := block_file]> |>).

Definition block_not_found (h : BlockHash) : string :=
  "Block with hash " +:+ hash_display h +:+ " not found".

Definition commit_block (block_hash : BlockHash) : StorageM string unit :=
  let* k := gets keeper in
  match uncommited_blocks k !! block_hash with
  | None => throw (block_not_found block_hash)
  | Some block_file =>
      let* state := gets storage_state in
      let* block_index := add_u32 (block_height state) 1 in
      let block_path := (path_to_blocks k, block_filename_for_index block_index) in
      let* written := try_ (zoom disk (λ d s, s <| disk := d |>)
                             (fs_write block_path (to_vec block_file))) in
      match written with
      | Ok _ =>
          modify (λ s, s <| storage_state := mkBlockStorageState block_index block_hash |>) ;;;
          for_each (bf_transactions block_file) (λ tx,
            update_keeper (λ k, k <| pending_transactions ::= delete (tx_id tx) |>)) ;;;
          update_keeper (λ k, k <| uncommited_blocks ::= delete block_hash |>)
      | Error e => throw ("Failed to write block file: " +:+ io_error_display e)
      end
  end.

Definition return_to_mempool {E} (tx : SignedTransaction) : StorageM E unit :=
  let* k := gets keeper in
  match pending_transactions k !! tx_id tx with
  | Some transaction =>
      update_keeper (λ k, k <| pending_transactions ::= delete (tx_id tx) |>) ;;;
      let* _ := add_transaction transaction in
      ret tt
  | None => ret tt
  end.

Definition rollback_block (block_hash : BlockHash) : StorageM string unit :=
  let* k := gets keeper in
  match uncommited_blocks k !! block_hash with
  | None => throw (block_not_found block_hash)
  | Some block_file =>
      update_keeper (λ k, k <| uncommited_blocks ::= delete block_hash |>) ;;;
      for_each (bf_transactions block_file) return_to_mempool
  end.

Definition get_uncommited_block (k : BlockKeeper) (h : BlockHash) : option BlockFile :=
  uncommited_blocks k !! h.

Definition read_block_by_index (s : Storage) (index : N) : result BlockFile string :=
  if decide (index < u32_modulus)
  then BlockFile.read_from_disk_by_index (disk s) (path_to_blocks (keeper s)) index
  else Error ("Block index " +:+ pretty index +:+ " is too large to read from disk").

Fixpoint find_block_file (d : Disk) (path : string) (names : list string) (h : BlockHash) : result BlockFile string :=
  match names with
  | [] => Error (block_not_found h)
  | name :: names =>
      match BlockFile.read_from_disk d (path, name) with
      | Error e => Error e
      | Ok b => if decide (bf_hash b = h) then Ok b else find_block_file d path names h
      end
  end.

Definition read_block_by_hash (s : Storage) (h : BlockHash) : result BlockFile string :=
  let path := path_to_blocks (keeper s) in
  find_block_file (disk s) path (list_all_blocks (disk s) path) h.

Definition read_transactions_from_disk (s : Storage) (name : string) : result (list SignedTransaction) string :=
  match BlockFile.read_from_disk (disk s) (path_to_blocks (keeper s), name) with
  | Ok b => Ok (bf_transactions b)
  | Error e => Error e
  end.

(** [values().find(|b| b.index + 1 == index)], the addition included. *)
Fixpoint find_predecessor {S E} (index : N) (l : list BlockFile) : M S E (option BlockFile) :=
  match l with
  | [] => ret None
  | b :: l =>
      let* next := add_u32 (bf_index b) 1 in
      if decide (next = index) then ret (Some b) else find_predecessor index l
  end.

Definition block_can_be_added {E} (block_file : BlockFile) : StorageM E bool :=
  if decide (bf_index block_file = 0) then ret false
  else
    let* state := gets storage_state in
    let* k := gets keeper in
    if decide (is_Some (uncommited_blocks k !! bf_hash block_file)) then ret false
    else
      let* expected := sub_u32 (bf_index block_file) 1 in
      if decide (block_height state = expected)
      then ret (bool_decide (bf_previous_hash block_file = last_commited_hash state))
      else
        let* found := find_predecessor (bf_index block_file)
                        (map_order (uncommited_blocks k)).*2 in
        ret match found with
            | Some previous_block =>
                bool_decide (bf_previous_hash block_file = bf_hash previous_block)
            | None => false
            end.
End block_keeper.

#[global] Arguments create_new_block : simpl never.
#[global] Arguments add_transaction : simpl never.
#[global] Arguments take_from_mempool : simpl never.
#[global] Arguments add_external_block : simpl never.
#[global] Arguments commit_block : simpl never.
#[global] Arguments return_to_mempool : simpl never.
#[global] Arguments rollback_block : simpl never.
#[global] Arguments block_can_be_added : simpl never.
#[global] Arguments find_predecessor : simpl nomatch.
End BlockKeeper.

(** ** [BlockStorageView]: the handle the server reads through *)

Module BlockStorageView.
Section view.
Context {P : Platform} `{!Serde BlockFile}.

Definition get_latest_state (s : Storage) : BlockStorageState := storage_state s.

Definition get_block (s : Storage) (index : N) : result BlockFile string :=
  BlockFile.read_from_disk_by_index (disk s) (path_to_blocks (keeper s)) index.
End view.
End BlockStorageView.

(** [TransactionProcessor::read_state]: replaying the blocks on disk. *)
Section read_state.
Context {BP : BuildProfile} {P : Platform} {HO : HashOrder} `{!Serde BlockFile}.

Definition read_state (s : Storage) : M TransactionProcessor string unit :=
  for_each (list_all_blocks (disk s) (path_to_blocks (keeper s))) (λ block_name,
    let* transactions := of_result (BlockKeeper.read_transactions_from_disk s block_name) in
    for_each transactions (λ tx,
      map_err validation_error_display (TransactionProcessor.process_transaction tx))).
End read_state.
