(* ===== verification/BlockNames.v ===== *)
(** * Block file names

    The decimal names of block files: they determine the height
    ([block_filename_inj]), parse back to it, match the regex, and sort like
    the heights up to 99999. *)

From S2P Require Import Prelude Platform Crypto Transactions Storage.

(** ** Sorted names and fixed-width decimals *)

Lemma StronglySorted_last {A} (R : relation A) l x :
  StronglySorted R l → last l = Some x → ∀ y, y ∈ l → y = x ∨ R y x.
Proof.
  induction l as [|z l IH]; [done|]. intros [Hs Hz]%StronglySorted_inv Hl y Hy.
  destruct l as [|w l].
  - cbn in Hl. injection Hl as ->. left. by apply list_elem_of_singleton in Hy.
  - rewrite last_cons_cons in Hl. apply elem_of_cons in Hy as [->|Hy]; [|by apply IH].
    right. rewrite Forall_forall in Hz. apply Hz. by apply last_Some_elem_of.
Qed.

(** The last of a sorted list is the element all others are below. *)
Lemma sorted_last_max l m :
  StronglySorted string_le l → m ∈ l → (∀ y, y ∈ l → string_le y m) → last l = Some m.
Proof.
  intros Hs Hm Hmax. destruct (last l) as [x|] eqn:E.
  - f_equal. destruct (StronglySorted_last _ _ _ Hs E m Hm) as [->|Hle]; [done|].
    apply (anti_symm string_le); [|done]. apply Hmax. by apply last_Some_elem_of.
  - apply last_None in E as ->. by apply not_elem_of_nil in Hm.
Qed.

(** Decimals of a fixed width [k], the digits of [n] in front of [s]. *)
Fixpoint fixed_width (k : nat) (n : N) (s : string) : string :=
  match k with
  | O => s
  | S k => fixed_width k (n / 10) (String (pretty_N_char (n mod 10)) s)
  end.

Lemma fixed_width_compare_eq k n s t :
  String.compare (fixed_width k n s) (fixed_width k n t) = String.compare s t.
Proof.
  revert n s t. induction k as [|k IH]; intros n s t; cbn; [done|].
  rewrite IH. cbn. unfold Ascii.compare. by rewrite N.compare_refl.
Qed.

Lemma pretty_N_char_lt c d :
  c < 10 → d < 10 → c < d →
  (Ascii.N_of_ascii (pretty_N_char c) ?= Ascii.N_of_ascii (pretty_N_char d)) = Lt.
Proof.
  intros Hc Hd Hlt.
  assert (∀ n, n < 10 → Ascii.N_of_ascii (pretty_N_char n) = 48 + n) as Hchar.
  { intros n Hn. destruct n as [|[[[[]|[]|]|[[]|[]|]|]|[[[]|[]|]|[[]|[]|]|]|]]; try done; lia. }
  rewrite !Hchar by done. apply N.compare_lt_iff. lia.
Qed.

Lemma fixed_width_compare_lt k m n s t :
  n < 10 ^ N.of_nat k → m < n →
  String.compare (fixed_width k m s) (fixed_width k n t) = Lt.
Proof.
  revert m n s t. induction k as [|k IH]; intros m n s t Hn Hlt.
  { change (10 ^ N.of_nat 0) with 1 in Hn. lia. }
  rewrite Nat2N.inj_succ, N.pow_succ_r' in Hn. cbn [fixed_width].
  pose proof (N.div_mod' m 10). pose proof (N.div_mod' n 10).
  pose proof (N.mod_lt m 10 ltac:(done)). pose proof (N.mod_lt n 10 ltac:(done)).
  destruct (decide (m / 10 = n / 10)) as [Hq|Hq].
  - rewrite Hq, fixed_width_compare_eq. cbn [String.compare]. unfold Ascii.compare.
    by rewrite pretty_N_char_lt by lia.
  - apply IH; [apply N.Div0.div_lt_upper_bound; lia|].
    pose proof (N.Div0.div_le_mono m n 10 ltac:(lia)). lia.
Qed.

Lemma zeros_app_zero k s : zeros k +:+ String (pretty_N_char 0) s = zeros (S k) +:+ s.
Proof. induction k as [|k IH]; [done|]. cbn in *. unfold String.append in *. cbn. by rewrite IH. Qed.

Lemma fixed_width_zeros k n s :
  n < 10 ^ N.of_nat k →
  fixed_width k n s =
    zeros (k + String.length s - String.length (pretty_N_go n s)) +:+ pretty_N_go n s ∧
  (String.length (pretty_N_go n s) ≤ k + String.length s)%nat.
Proof.
  revert n s. induction k as [|k IH]; intros n s Hn.
  { change (10 ^ N.of_nat 0) with 1 in Hn. assert (n = 0) as -> by lia.
    rewrite pretty_N_go_0. cbn. by rewrite Nat.sub_diag. }
  rewrite Nat2N.inj_succ, N.pow_succ_r' in Hn. cbn [fixed_width].
  destruct (decide (n = 0)) as [->|Hn0].
  - destruct (IH (0 / 10) (String (pretty_N_char (0 mod 10)) s)) as [-> Hl].
    { cbn. apply N.neq_0_lt_0. apply N.pow_nonzero. lia. }
    change (0 / 10) with 0 in *. rewrite !pretty_N_go_0 in *. cbn [String.length] in *.
    replace (k + S (String.length s) - S (String.length s))%nat with k by lia.
    replace (S k + String.length s - String.length s)%nat with (S k) by lia.
    split; [apply zeros_app_zero|lia].
  - rewrite pretty_N_go_step by lia.
    destruct (IH (n / 10) (String (pretty_N_char (n mod 10)) s)) as [-> Hl].
    { apply N.Div0.div_lt_upper_bound. lia. }
    cbn [String.length] in *. split; [f_equal; f_equal; lia|lia].
Qed.

Lemma string_append_assoc a b c : (a +:+ b) +:+ c = a +:+ (b +:+ c).
Proof. unfold String.append. induction a as [|x a IH]; [done|]. f_equal. apply IH. Qed.

Lemma block_filename_fixed n :
  n < 100000 → block_filename_for_index n = fixed_width 5 n "" +:+ ".block".
Proof.
  intros Hn. unfold block_filename_for_index. destruct (decide (n = 0)) as [->|Hn0]; [done|].
  destruct (fixed_width_zeros 5 n "") as [-> Hl]; [done|].
  assert (pretty n = pretty_N_go n "") as ->.
  { unfold pretty, pretty_N. by rewrite decide_False. }
  rewrite string_append_assoc. f_equal.
Qed.

Lemma fixed_width_app k n s t : fixed_width k n s +:+ t = fixed_width k n (s +:+ t).
Proof. revert n s. induction k as [|k IH]; intros n s; [done|]. apply IH. Qed.

(** Up to 99999 the lexicographic order of the names is the order of the
    heights; the padding is too short beyond. *)
Lemma block_filename_lt m n :
  m < n → n < 100000 →
  String.compare (block_filename_for_index m) (block_filename_for_index n) = Lt.
Proof.
  intros. rewrite !block_filename_fixed by lia. rewrite !fixed_width_app.
  by apply fixed_width_compare_lt.
Qed.

Lemma block_filename_le m n :
  m ≤ n → n < 100000 →
  string_le (block_filename_for_index m) (block_filename_for_index n).
Proof.
  intros Hle Hn. destruct (decide (m = n)) as [->|]; [by rewrite string_le_compare, string_compare_refl|].
  by rewrite string_le_compare, block_filename_lt by lia.
Qed.

(** The number in a block file's name. *)
Definition block_digits (n : N) : string := zeros (5 - String.length (pretty n)) +:+ pretty n.

Lemma block_filename_digits n : block_filename_for_index n = block_digits n +:+ ".block".
Proof. unfold block_filename_for_index, block_digits. by rewrite string_append_assoc. Qed.

Lemma pretty_N_char_digit c :
  c < 10 → is_ascii_digit (pretty_N_char c) = true ∧ Ascii.N_of_ascii (pretty_N_char c) - 48 = c.
Proof.
  intros Hc. destruct c as [|[[[[]|[]|]|[[]|[]|]|]|[[[]|[]|]|[[]|[]|]|]|]]; done || lia.
Qed.

Lemma parse_digits_fixed k n s acc :
  n < 10 ^ N.of_nat k →
  parse_digits (fixed_width k n s) acc = parse_digits s (acc * 10 ^ N.of_nat k + n).
Proof.
  revert n s acc. induction k as [|k IH]; intros n s acc Hn.
  { change (10 ^ N.of_nat 0) with 1 in *. cbn. f_equal. lia. }
  rewrite Nat2N.inj_succ, N.pow_succ_r' in *. cbn [fixed_width].
  rewrite IH by (apply N.Div0.div_lt_upper_bound; lia). cbn [parse_digits].
  destruct (pretty_N_char_digit (n mod 10)) as [-> ->]; [by apply N.mod_lt|].
  f_equal. pose proof (N.div_mod' n 10).
  set (X := 10 ^ N.of_nat k) in *. lia.
Qed.

Lemma parse_digits_zeros k s : parse_digits (zeros k +:+ s) 0 = parse_digits s 0.
Proof. induction k as [|k IH]; [done|]. apply IH. Qed.

Lemma parse_digits_pretty n : parse_digits (pretty n) 0 = Some n.
Proof.
  destruct (decide (n = 0)) as [->|Hn]; [done|].
  assert (Hlt : n < 10 ^ N.of_nat (N.to_nat n)) by (rewrite N2Nat.id; by apply N.pow_gt_lin_r).
  pose proof (parse_digits_fixed (N.to_nat n) n "" 0 Hlt) as H.
  destruct (fixed_width_zeros (N.to_nat n) n "" Hlt) as [E _].
  rewrite E, parse_digits_zeros in H. unfold pretty, pretty_N.
  rewrite decide_False by done. rewrite H. cbn [parse_digits]. f_equal.
Qed.

Lemma parse_block_digits n : parse_digits (block_digits n) 0 = Some n.
Proof. unfold block_digits. by rewrite parse_digits_zeros, parse_digits_pretty. Qed.

Lemma parse_digits_all s acc n : parse_digits s acc = Some n → all_digits s = true.
Proof.
  revert acc. induction s as [|c s IH]; intros acc; [done|]. cbn.
  destruct (is_ascii_digit c) eqn:Ec; [|done]. intros H. unfold all_digits in *. cbn.
  by eapply IH.
Qed.

Lemma all_digits_ascii s : all_digits s = true → is_ascii_string s = true.
Proof.
  unfold all_digits, is_ascii_string. induction s as [|c s IH]; [done|]. cbn.
  intros [Hc Hs]%andb_true_iff. apply andb_true_iff. split; [|by apply IH].
  unfold is_ascii_digit in Hc. cbv zeta in Hc. apply andb_true_iff in Hc as [_ Hc].
  apply N.leb_le in Hc. apply N.ltb_lt. lia.
Qed.

Lemma is_ascii_append s t :
  is_ascii_string (s +:+ t) = is_ascii_string s && is_ascii_string t.
Proof.
  unfold is_ascii_string, String.append. induction s as [|c s IH]; [done|]. cbn.
  rewrite IH. by rewrite andb_assoc.
Qed.

Lemma string_append_length s t : String.length (s +:+ t) = (String.length s + String.length t)%nat.
Proof. unfold String.append. induction s; cbn; lia. Qed.

Lemma string_append_inj_r s t u : s +:+ u = t +:+ u → s = t.
Proof.
  revert t. induction s as [|c s IH]; intros [|d t] H; [done|..].
  - apply (f_equal String.length) in H. rewrite !string_append_length in H. cbn in H. lia.
  - apply (f_equal String.length) in H. rewrite !string_append_length in H. cbn in H. lia.
  - unfold String.append in *. cbn in H. injection H as -> H. f_equal. by apply IH.
Qed.

#[export] Instance block_filename_inj : Inj (=) (=) block_filename_for_index.
Proof.
  intros m n. rewrite !block_filename_digits. intros H%string_append_inj_r.
  apply (f_equal (λ s, parse_digits s 0)) in H. rewrite !parse_block_digits in H. congruence.
Qed.

Lemma block_digits_nonempty n : block_digits n ≠ "".
Proof.
  unfold block_digits. intros H%(f_equal String.length). rewrite string_append_length in H.
  pose proof (parse_digits_pretty n) as Hp. destruct (pretty n) as [|c s] eqn:E; cbn in *.
  - done.
  - lia.
Qed.

Lemma block_filename_pattern `{PlatformLaws} n :
  block_pattern (block_filename_for_index n) = Some (block_digits n).
Proof.
  assert (Ha : all_digits (block_digits n) = true).
  { eapply parse_digits_all, parse_block_digits. }
  apply block_pattern_ascii.
  - rewrite block_filename_digits, is_ascii_append. by rewrite all_digits_ascii.
  - split_and!; [apply block_filename_digits|apply block_digits_nonempty|done].
Qed.

Lemma parse_unsigned_digits m s n :
  s ≠ "" → parse_digits s 0 = Some n → n < m → parse_unsigned m s = Some n.
Proof.
  intros Hs Hp Hn. unfold parse_unsigned. destruct s as [|c s]; [done|].
  assert ((Ascii.N_of_ascii c =? 43)%N = false) as ->.
  { cbn in Hp. destruct (is_ascii_digit c) eqn:Ec; [|done].
    unfold is_ascii_digit in Ec. cbv zeta in Ec. apply andb_true_iff in Ec as [Ec _].
    apply N.leb_le in Ec. apply N.eqb_neq. lia. }
  rewrite Hp. cbn. by rewrite decide_True.
Qed.
