(* ===== verification/KeeperFacts.v ===== *)
(** * The block store: invariants, determinism, durability

    [keeper_wf] is the representation invariant of [BlockKeeper]; [chain_ok]
    says that the files on disk are a hash-linked chain whose tip is the shared
    storage state. *)

From S2P Require Import Prelude Platform Crypto Transactions Storage BlockNames.

Section keeper_wf.
Context {P : Platform} `{!Serde (list SignedTransaction), !Serde BlockFile}.

Definition keyed_by_tx_id (m : gmap string SignedTransaction) : Prop :=
  ∀ id tx, m !! id = Some tx → tx_id tx = id.

(** The mempool and the pending map are keyed by transaction id, a staged
    block is stored under its own hash, which is the hash of its contents,
    and the mempool never holds a full block's worth of transactions. *)
Record keeper_wf (k : BlockKeeper) : Prop := {
  wf_mempool0 : keyed_by_tx_id (mempool k);
  wf_pending0 : keyed_by_tx_id (pending_transactions k);
  wf_uncommited h b :
    uncommited_blocks k !! h = Some b → bf_hash b = h ∧ BlockFile.verify_block b = Ok tt;
  wf_size : mempool k = ∅ ∨ (size (mempool k) < mempool_size k)%nat;
}.

Definition storage_wf (s : Storage) : Prop := keeper_wf (keeper s).

Lemma keyed_insert m tx : keyed_by_tx_id m → keyed_by_tx_id (<[tx_id tx := tx]> m).
Proof. intros H id tx'. rewrite lookup_insert. case_decide; [by intros [= <-]|apply H]. Qed.

Lemma keyed_delete m id : keyed_by_tx_id m → keyed_by_tx_id (delete id m).
Proof. intros H id' tx'. rewrite lookup_delete. case_decide; [done|apply H]. Qed.

Lemma keyed_union m1 m2 : keyed_by_tx_id m1 → keyed_by_tx_id m2 → keyed_by_tx_id (m1 ∪ m2).
Proof.
  intros H1 H2 id tx [?|[_ ?]]%lookup_union_Some_raw; eauto.
Qed.

Lemma keyed_empty : keyed_by_tx_id ∅.
Proof. intros id tx. by rewrite lookup_empty. Qed.

Lemma verify_create txs h n : BlockFile.verify_block (BlockFile.create txs h n) = Ok tt.
Proof. unfold BlockFile.verify_block. by rewrite decide_True. Qed.

Lemma verify_block_iff b :
  BlockFile.verify_block b = Ok tt ↔
  bf_hash b = BlockFile.calculate_hash (bf_transactions b) (bf_previous_hash b).
Proof. unfold BlockFile.verify_block. case_decide; naive_solver. Qed.
End keeper_wf.

#[export] Hint Resolve keyed_insert keyed_delete keyed_union keyed_empty verify_create : rustchain.

(** ** The operations on a well-formed store *)

Module KeeperFacts.
Import BlockKeeper.
Section facts.
Context {BP : BuildProfile} {P : Platform} {HO : HashOrder} {HL : HashOrderLaws}.
Context `{!Serde (list SignedTransaction), !Serde BlockFile}.
Implicit Types (s : Storage) (k : BlockKeeper) (tx : SignedTransaction).

Lemma elem_of_map_values (m : gmap string SignedTransaction) tx :
  tx ∈ (map_order m).*2 ↔ ∃ id, m !! id = Some tx.
Proof.
  rewrite list_elem_of_fmap. setoid_rewrite map_order_perm. split.
  - intros ([id tx'] & -> & ?%elem_of_map_to_list). eauto.
  - intros [id ?%elem_of_map_to_list]. by exists (id, tx).
Qed.

Lemma update_keeper_preserves {E} (I : Storage → Prop) f :
  (∀ s, I s → I (s <| keeper ::= f |>)) → preserves I (update_keeper (E := E) f).
Proof. apply preserves_modify. Qed.

Lemma wf_insert_block k h b :
  keeper_wf k → bf_hash b = h → BlockFile.verify_block b = Ok tt →
  keeper_wf (k <| uncommited_blocks ::= <[h := b]> |>).
Proof.
  intros [Hmp Hp Hu Hsz] Hh Hv. split; cbn; [done..| |done].
  intros h' b'. rewrite lookup_insert. case_decide; [|apply Hu]. intros [= <-]. by subst.
Qed.

Lemma wf_delete_block k h : keeper_wf k → keeper_wf (k <| uncommited_blocks ::= delete h |>).
Proof.
  intros [Hmp Hp Hu Hsz]. split; cbn; [done..| |done].
  intros h' b'. rewrite lookup_delete. case_decide; [done|apply Hu].
Qed.

Lemma wf_pending k m : keeper_wf k → keyed_by_tx_id m →
  keeper_wf (k <| pending_transactions := m |>).
Proof. intros [Hmp Hp Hu Hsz]. by split. Qed.

Lemma wf_mempool_delete k id : keeper_wf k → keeper_wf (k <| mempool ::= delete id |>).
Proof.
  intros [Hmp Hp Hu Hsz]. split; cbn; auto with rustchain.
  destruct Hsz as [->|Hsz]; [left; apply delete_empty|right].
  rewrite map_size_delete. case_match; unfold Datatypes.id; lia.
Qed.

Lemma wf_previous_hash k h : keeper_wf k → keeper_wf (k <| previous_hash := h |>).
Proof. intros [Hmp Hp Hu Hsz]. by split. Qed.

Hint Resolve wf_insert_block wf_delete_block wf_pending wf_mempool_delete wf_previous_hash : rustchain.

Lemma create_new_block_wf {E} m : keyed_by_tx_id m →
  preserves storage_wf (create_new_block (E := E) m).
Proof.
  intros Hm. unfold create_new_block, add_u32, update_keeper. cbv zeta. preserve.
  - by apply wf_previous_hash.
  - apply wf_insert_block; [done..|apply verify_create].
  - apply wf_pending; [done|]. apply keyed_union; [done|]. by apply wf_pending0.
Qed.

Lemma add_transaction_wf {E} tx : preserves storage_wf (add_transaction (E := E) tx).
Proof.
  intros s s' [Hmp Hp Hu Hsz]. unfold add_transaction, bind, gets, update_keeper, modify.
  cbn. case_decide as Hfull.
  - set (s1 := _ <| keeper ::= λ k, k <| mempool := ∅ |> |>).
    assert (Hwf : storage_wf s1) by (split; cbn; auto with rustchain).
    pose proof (create_new_block_wf (E := E) (<[tx_id tx := tx]> (mempool (keeper s)))
      (keyed_insert _ _ Hmp) s1) as Hc.
    destruct (create_new_block _ s1) as [h s2|e s2|]; cbn in *; intros [= <-]; eauto.
  - intros [= <-]. split; cbn; auto with rustchain. right. lia.
Qed.

Lemma take_from_mempool_wf {E} tx : preserves storage_wf (take_from_mempool (E := E) tx).
Proof.
  unfold take_from_mempool, update_keeper. preserve; [by apply wf_mempool_delete|].
  apply wf_pending; [done|]. apply keyed_insert. by apply wf_pending0.
Qed.

Lemma add_external_block_wf b : preserves storage_wf (add_external_block b).
Proof.
  intros s s' Hwf. unfold add_external_block, bind at 1.
  destruct (BlockFile.verify_block b) as [[]|] eqn:Ev; [|by intros [= <-]].
  revert s s' Hwf.
  change (preserves storage_wf (for_each (bf_transactions b) take_from_mempool ;;;
    update_keeper (E := BlockVerificationError)
      (λ k, k <| uncommited_blocks ::= <[bf_hash b := b]> |>))).
  unfold update_keeper. preserve; [apply take_from_mempool_wf|]. by apply wf_insert_block.
Qed.

Lemma return_to_mempool_wf {E} tx : preserves storage_wf (return_to_mempool (E := E) tx).
Proof.
  unfold return_to_mempool, update_keeper. preserve; [|apply add_transaction_wf].
  apply wf_pending; [done|]. apply keyed_delete. by apply wf_pending0.
Qed.

Lemma rollback_block_wf h : preserves storage_wf (rollback_block h).
Proof.
  unfold rollback_block, update_keeper. preserve; [|apply return_to_mempool_wf].
  by apply wf_delete_block.
Qed.

Lemma commit_block_wf h : preserves storage_wf (commit_block h).
Proof.
  unfold commit_block, update_keeper, add_u32. cbv zeta. preserve.
  - eapply (preserves_zoom _ (λ _, True)); [done|by intros ?? [] _; split|done].
  - done.
  - apply wf_pending; [done|]. apply keyed_delete. by apply wf_pending0.
  - by apply wf_delete_block.
Qed.

(** *** Committing *)

Definition commit_path s : FilePath :=
  (path_to_blocks (keeper s), block_filename_for_index (block_height (storage_state s) + 1)).

(** The loop that clears the pending map touches nothing else. *)
Lemma clear_pending_frame {E} txs s :
  ∃ m, for_each (E := E) txs (λ tx,
         update_keeper (λ k, k <| pending_transactions ::= delete (tx_id tx) |>)) s
       = Ret tt (s <| keeper ::= λ k, k <| pending_transactions := m |> |>).
Proof.
  revert s. induction txs as [|tx txs IH]; intros s.
  - exists (pending_transactions (keeper s)). by destruct s as [[] ? ?].
  - cbn. unfold bind. cbn. destruct (IH (s <| keeper ::= λ k,
      k <| pending_transactions ::= delete (tx_id tx) |> |>)) as [m ->]. by exists m.
Qed.

Lemma commit_block_cases h s :
  block_height (storage_state s) + 1 < u32_modulus →
  match uncommited_blocks (keeper s) !! h with
  | None => commit_block h s = Err (block_not_found h) s
  | Some b =>
      match fs_write (commit_path s) (to_vec b) (disk s) with
      | Ret _ d => ∃ m, commit_block h s = Ret tt {|
          keeper := (keeper s) <| pending_transactions := m |>
                             <| uncommited_blocks ::= delete h |>;
          storage_state := mkBlockStorageState (block_height (storage_state s) + 1) h;
          disk := d |}
      | Err e d =>
          commit_block h s = Err ("Failed to write block file: " +:+ io_error_display e)
                                 (s <| disk := d |>)
      | Panic => False
      end
  end.
Proof.
  intros Hh. destruct (uncommited_blocks (keeper s) !! h) as [b|] eqn:Eb.
  2:{ unfold commit_block, bind at 1, gets. cbn beta iota. by rewrite Eb. }
  destruct (fs_write (commit_path s) (to_vec b) (disk s)) as [[] d|e d|] eqn:Ew.
  3:{ by apply fs_write_no_panic in Ew. }
  all: unfold commit_path in Ew.
  - destruct (clear_pending_frame (E := string) (bf_transactions b) (s <| disk := d |>
      <| storage_state := mkBlockStorageState (block_height (storage_state s) + 1) h |>)) as [m Em].
    exists m. unfold commit_block, bind at 1, gets. cbn beta iota. rewrite Eb.
    unfold bind at 1, add_u32, unwrap. rewrite checked_plus_exact by done.
    unfold bind at 1, ret. cbn beta iota. unfold bind at 1, try_, zoom. rewrite Ew.
    unfold bind at 1, modify. cbn beta iota.
    unfold bind at 1. rewrite Em. done.
  - unfold commit_block, bind at 1, gets. cbn beta iota. rewrite Eb.
    unfold bind at 1, add_u32, unwrap. rewrite checked_plus_exact by done.
    unfold bind at 1, ret. cbn beta iota. unfold bind at 1, try_, zoom. rewrite Ew. done.
Qed.

Lemma commit_block_Ret h s s' :
  block_height (storage_state s) + 1 < u32_modulus →
  commit_block h s = Ret tt s' →
  ∃ b m, uncommited_blocks (keeper s) !! h = Some b ∧
    is_Some (dirs (disk s) !! (commit_path s).1) ∧
    s' = {| keeper := (keeper s) <| pending_transactions := m |>
                               <| uncommited_blocks ::= delete h |>;
            storage_state := mkBlockStorageState (block_height (storage_state s) + 1) h;
            disk := store_file (disk s) (commit_path s) (to_vec b) |}.
Proof.
  intros Hh Hc. pose proof (commit_block_cases h s Hh) as H. rewrite Hc in H.
  destruct (uncommited_blocks (keeper s) !! h) as [b|]; [|done].
  destruct (fs_write _ _ _) as [[] d|e d|] eqn:Ew; [|done..].
  apply fs_write_Ret in Ew as (_ & Hd & ->). destruct H as [m [= ->]]. eauto 10.
Qed.

Lemma read_committed {HS : SerdeLaws BlockFile} d p b :
  is_Some (dirs d !! p.1) → p ∉ read_faults d →
  BlockFile.read_from_disk (store_file d p (to_vec b)) p = Ok b.
Proof.
  intros Hd Hf. unfold BlockFile.read_from_disk.
  rewrite (proj2 (fs_read_spec _ _ (to_vec b))); [by rewrite from_slice_to_vec|].
  split; [done|]. by apply file_at_store_file_eq.
Qed.

Lemma read_uncommitted d p q v :
  p ≠ q → BlockFile.read_from_disk (store_file d p v) q = BlockFile.read_from_disk d q.
Proof.
  intros Hne. unfold BlockFile.read_from_disk, fs_read.
  by rewrite (file_at_store_file_ne d p q v Hne).
Qed.
End facts.
End KeeperFacts.
