(* ===== verification/ChainFacts.v ===== *)
(** * The committed chain: durability, linkage and restart

    [chain_ok] says that the block files [1 .. height] are a hash-linked chain
    whose tip is the shared storage state; [dir_ok] that the directory holds no
    other block files.  The theorems say which operations keep it, what a
    restart recovers from it, and where the code loses it. *)

From S2P Require Import Prelude Platform Crypto Transactions Storage BlockNames KeeperFacts.

Module Chain.
Import BlockKeeper KeeperFacts.
Section chain.
Context {BP : BuildProfile} {P : Platform} {HO : HashOrder}.
Context `{!Serde (list SignedTransaction), !Serde BlockFile}.
Implicit Types (s : Storage) (b : BlockFile) (i : N).

Definition stored s i : result BlockFile string := BlockStorageView.get_block s i.

(** The hash a block at height [i + 1] must name as its predecessor. *)
Definition hash_at s i : option BlockHash :=
  if decide (i = 0) then Some EMPTY_HASH
  else match stored s i with Ok b => Some (bf_hash b) | Error _ => None end.

Definition linked s i b : Prop :=
  bf_index b = i ∧ BlockFile.verify_block b = Ok tt ∧
  hash_at s (i - 1) = Some (bf_previous_hash b).

Record chain_ok s : Prop := {
  chain_tip : hash_at s (block_height (storage_state s)) = Some (last_commited_hash (storage_state s));
  chain_blocks i : 0 < i → i ≤ block_height (storage_state s) →
    ∃ b, stored s i = Ok b ∧ linked s i b;
}.

Definition dir_ok s : Prop := ∀ name,
  is_Some (file_at (disk s) (path_to_blocks (keeper s), name)) →
  is_Some (block_pattern name) →
  ∃ i, 0 < i ∧ i ≤ block_height (storage_state s) ∧ name = block_filename_for_index i.

(** What staging is meant to have checked of a block that is committed. *)
Definition extends_tip s b : Prop :=
  bf_index b = block_height (storage_state s) + 1 ∧
  bf_previous_hash b = last_commited_hash (storage_state s).

(** [commits s b s']: [s'] is what committing the staged block [b] leaves. *)
Record commits s b s' : Prop := {
  commits_path : path_to_blocks (keeper s') = path_to_blocks (keeper s);
  commits_dir : is_Some (dirs (disk s) !! path_to_blocks (keeper s));
  commits_disk : disk s' = store_file (disk s) (commit_path s) (to_vec b);
  commits_state : storage_state s' =
    mkBlockStorageState (block_height (storage_state s) + 1) (bf_hash b);
  commits_uncommited : uncommited_blocks (keeper s') = delete (bf_hash b) (uncommited_blocks (keeper s));
  commits_mempool : mempool (keeper s') = mempool (keeper s);
}.

Lemma commit_block_commits h s s' :
  block_height (storage_state s) + 1 < u32_modulus → storage_wf s →
  commit_block h s = Ret tt s' →
  ∃ b, uncommited_blocks (keeper s) !! h = Some b ∧ bf_hash b = h ∧
       BlockFile.verify_block b = Ok tt ∧ commits s b s'.
Proof.
  intros Hh Hwf (b & m & Eb & Hd & ->)%commit_block_Ret; [|done].
  destruct (wf_uncommited _ Hwf _ _ Eb) as [<- Hv]. exists b. split_and!; [done..|].
  by split.
Qed.

Lemma stored_frame s b s' i :
  commits s b s' → i ≠ block_height (storage_state s) + 1 → stored s' i = stored s i.
Proof.
  intros [Hp _ Hd _ _ _] Hne.
  unfold stored, BlockStorageView.get_block, BlockFile.read_from_disk_by_index.
  rewrite Hp, Hd. apply read_uncommitted. intros [= H]. by apply block_filename_inj in H.
Qed.

Lemma stored_new {HS : SerdeLaws BlockFile} s b s' :
  commits s b s' → commit_path s ∉ read_faults (disk s) →
  stored s' (block_height (storage_state s) + 1) = Ok b.
Proof.
  intros [Hp Hdir Hd _ _ _] Hf.
  unfold stored, BlockStorageView.get_block, BlockFile.read_from_disk_by_index.
  rewrite Hp, Hd. by apply read_committed.
Qed.

Lemma hash_at_frame s b s' i :
  commits s b s' → i ≤ block_height (storage_state s) → hash_at s' i = hash_at s i.
Proof.
  intros Hc Hi. unfold hash_at. case_decide; [done|].
  rewrite (stored_frame s b s'); [done|done|lia].
Qed.

Lemma commits_chain_ok {HS : SerdeLaws BlockFile} s b s' :
  commits s b s' → commit_path s ∉ read_faults (disk s) →
  BlockFile.verify_block b = Ok tt → extends_tip s b → chain_ok s → chain_ok s'.
Proof.
  intros Hc Hf Hv [Hi Hp] [Htip Hall].
  pose proof (stored_new _ _ _ Hc Hf) as Hnew.
  split; rewrite (commits_state _ _ _ Hc); cbn.
  - unfold hash_at. rewrite decide_False by lia. by rewrite Hnew.
  - intros i Hpos Hle.
    destruct (decide (i = block_height (storage_state s) + 1)) as [->|Hne].
    + exists b. split; [done|]. split; [done|]. split; [done|].
      rewrite N.add_sub, (hash_at_frame _ _ _ _ Hc) by lia. by rewrite Hp.
    + destruct (Hall i) as (b' & Eb' & Hidx & Hv' & Hlink); [lia..|].
      exists b'. rewrite (stored_frame _ _ _ _ Hc Hne). split; [done|]. split; [done|].
      split; [done|]. by rewrite (hash_at_frame _ _ _ _ Hc) by lia.
Qed.

(** What the chain depends on. *)
Lemma chain_ok_frame s s' :
  storage_state s' = storage_state s →
  (∀ i, i ≤ block_height (storage_state s) → stored s' i = stored s i) →
  chain_ok s → chain_ok s'.
Proof.
  intros Hst Hold [Htip Hall].
  assert (Hhash : ∀ i, i ≤ block_height (storage_state s) → hash_at s' i = hash_at s i).
  { intros i Hi. unfold hash_at. case_decide; [done|]. by rewrite Hold. }
  split; rewrite Hst; [by rewrite Hhash|]. intros i Hpos Hle.
  destruct (Hall i Hpos Hle) as (b & Hb & Hi & Hv & Hl). exists b. rewrite Hold by done.
  do 3 (split; [done|]). by rewrite Hhash by lia.
Qed.

Lemma commits_dir_ok s b s' : commits s b s' → dir_ok s → dir_ok s'.
Proof.
  intros [Hp Hdir Hd Hst _ _] Hok name. rewrite Hp, Hd, Hst. cbn.
  destruct (decide (name = block_filename_for_index (block_height (storage_state s) + 1))) as [->|Hne].
  - intros _ _. eexists. split_and!; [| |done]; lia.
  - rewrite file_at_store_file_ne by (unfold commit_path; congruence).
    intros Hf Hpat. destruct (Hok _ Hf Hpat) as (i & ? & ? & ->). exists i. split_and!; [done|lia|done].
Qed.

(** A second block that was also created on top of the tip breaks the chain. *)
Lemma commits_sibling {HS : SerdeLaws BlockFile} s b s' :
  commits s b s' → commit_path s ∉ read_faults (disk s) →
  bf_previous_hash b ≠ last_commited_hash (storage_state s) →
  chain_ok s → ¬ chain_ok s'.
Proof.
  intros Hc Hf Hp [Htip _] [_ Hall].
  destruct (Hall (block_height (storage_state s) + 1)) as (b' & Eb' & _ & _ & Hlink).
  { lia. } { rewrite (commits_state _ _ _ Hc). cbn. lia. }
  rewrite (stored_new _ _ _ Hc Hf) in Eb'. injection Eb' as <-.
  rewrite N.add_sub, (hash_at_frame _ _ _ _ Hc) in Hlink by lia. congruence.
Qed.
End chain.
End Chain.

(** ** What [BlockKeeper::new] finds on disk *)

Module Restart.
Import BlockKeeper KeeperFacts Chain.

Section listing.
Context {P : Platform} {PL : PlatformLaws} {HO : HashOrder} {HL : HashOrderLaws}.

Lemma push_all_perm l acc : fold_left sorted_vec_push l acc ≡ₚ l ++ acc.
Proof.
  revert acc. induction l as [|x l IH]; intros acc; [done|]. cbn.
  rewrite IH, sorted_vec_push_perm. by rewrite Permutation_middle.
Qed.

Lemma push_all_sorted l acc :
  StronglySorted string_le acc → StronglySorted string_le (fold_left sorted_vec_push l acc).
Proof. revert acc. induction l; intros acc H; cbn; auto using sorted_vec_push_sorted. Qed.

Lemma elem_of_list_all_blocks d dir name :
  dir ∉ dir_faults d →
  name ∈ list_all_blocks d dir ↔
  is_Some (file_at d (dir, name)) ∧ is_Some (block_pattern name).
Proof.
  intros Hf. unfold list_all_blocks, read_dir, file_at. rewrite decide_False by done. cbn.
  destruct (dirs d !! dir) as [files|] eqn:E; cbn.
  - rewrite push_all_perm, app_nil_r, list_elem_of_filter, list_elem_of_fmap.
    split.
    + intros (Hp & (x & v) & -> & Hin). rewrite map_order_perm in Hin.
      apply elem_of_map_to_list in Hin. eauto.
    + intros [[v Hv] Hp]. split; [done|]. exists (name, v). split; [done|].
      rewrite map_order_perm. by apply elem_of_map_to_list.
  - split; [by intros ?%not_elem_of_nil|]. by intros [[? ?] _].
Qed.

Lemma list_all_blocks_sorted d dir : StronglySorted string_le (list_all_blocks d dir).
Proof.
  unfold list_all_blocks. destruct (read_dir d dir); [|constructor].
  apply push_all_sorted. constructor.
Qed.

(** The file a restart looks at: the one whose name is the greatest. *)
Lemma last_block_max d dir name :
  dir ∉ dir_faults d → name ∈ list_all_blocks d dir →
  (∀ n, n ∈ list_all_blocks d dir → string_le n name) →
  last (list_all_blocks d dir) = Some name.
Proof. intros _ Hin Hmax. by apply sorted_last_max; [apply list_all_blocks_sorted|..]. Qed.
End listing.

(** A number with exactly [k + 1] digits needs no padding at that width. *)
Lemma pretty_N_go_fixed k n s :
  10 ^ N.of_nat k ≤ n → n < 10 ^ N.of_nat (S k) → pretty_N_go n s = fixed_width (S k) n s.
Proof.
  revert n s. induction k as [|k IH]; intros n s Hlo Hhi.
  - change (10 ^ N.of_nat 0) with 1 in Hlo. change (10 ^ N.of_nat 1) with 10 in Hhi.
    rewrite pretty_N_go_step by lia. rewrite N.div_small by done. by rewrite pretty_N_go_0.
  - rewrite !Nat2N.inj_succ, !N.pow_succ_r' in *.
    assert (0 < 10 ^ N.of_nat k) by (apply N.neq_0_lt_0, N.pow_nonzero; lia).
    rewrite pretty_N_go_step by lia. rewrite IH; [done|..].
    + apply N.div_le_lower_bound; lia.
    + apply N.Div0.div_lt_upper_bound. lia.
Qed.

(** Six-digit heights sort before 99999 as long as they start with a smaller
    five-digit prefix. *)
Lemma block_filename_six i :
  100000 ≤ i → i < 999990 →
  string_le (block_filename_for_index i) (block_filename_for_index 99999).
Proof.
  intros Hlo Hhi. assert (Hgo : pretty_N_go i "" = fixed_width 6 i "").
  { apply (pretty_N_go_fixed 5); [done|]. change (10 ^ N.of_nat 6) with 1000000. lia. }
  assert (Hd : block_filename_for_index i = fixed_width 6 i ".block").
  { unfold block_filename_for_index. assert (pretty i = pretty_N_go i "") as ->.
    { unfold pretty, pretty_N. rewrite decide_False; [done|lia]. }
    rewrite Hgo. change (fixed_width 6 i ".block") with (fixed_width 6 i ("" +:+ ".block")).
    by rewrite <-fixed_width_app. }
  rewrite Hd, (block_filename_fixed 99999), fixed_width_app by lia.
  change (fixed_width 6 i ".block") with
    (fixed_width 5 (i / 10) (String (pretty_N_char (i mod 10)) ".block")).
  rewrite string_le_compare, fixed_width_compare_lt; [done|done|].
  apply N.Div0.div_lt_upper_bound. lia.
Qed.

Section restart.
Context {BP : BuildProfile} {P : Platform} {PL : PlatformLaws} {HO : HashOrder} {HL : HashOrderLaws}.
Context `{!Serde (list SignedTransaction), !Serde BlockFile}.
Implicit Types (s : Storage).

(** A disk that can be listed and read. *)
Definition readable s : Prop :=
  path_to_blocks (keeper s) ∉ dir_faults (disk s) ∧
  ∀ i, (path_to_blocks (keeper s), block_filename_for_index i) ∉ read_faults (disk s).

Lemma listed s name :
  readable s → chain_ok s → dir_ok s →
  name ∈ list_all_blocks (disk s) (path_to_blocks (keeper s)) ↔
  ∃ i, 0 < i ∧ i ≤ block_height (storage_state s) ∧ name = block_filename_for_index i.
Proof.
  intros [Hf _] [_ Hall] Hdir. rewrite elem_of_list_all_blocks by done. split.
  - intros [? ?]. by apply Hdir.
  - intros (i & Hpos & Hle & ->). rewrite block_filename_pattern. split; [|eauto].
    destruct (Hall i Hpos Hle) as (b & Hb & _). unfold stored, BlockStorageView.get_block,
      BlockFile.read_from_disk_by_index, BlockFile.read_from_disk, fs_read in Hb.
    case_decide; [done|]. destruct (file_at _ _); [eauto|done].
Qed.

(** If the file named after [i] sorts last, the restart resumes at [i]. *)
Lemma new_resumes s size i :
  readable s → chain_ok s → dir_ok s →
  0 < i → i ≤ block_height (storage_state s) → i < u32_modulus →
  (∀ j, 0 < j → j ≤ block_height (storage_state s) →
     string_le (block_filename_for_index j) (block_filename_for_index i)) →
  ∃ b, stored s i = Ok b ∧
  new (path_to_blocks (keeper s)) size (disk s) = Some
    {| keeper := mkBlockKeeper (path_to_blocks (keeper s)) size ∅ ∅ ∅ (bf_hash b);
       storage_state := mkBlockStorageState i (bf_hash b);
       disk := disk s |}.
Proof.
  intros Hr Hc Hd Hpos Hle Hu Hmax.
  destruct (chain_blocks _ Hc i Hpos Hle) as (b & Hb & _). exists b. split; [done|].
  unfold new. rewrite (last_block_max _ _ (block_filename_for_index i)).
  - rewrite block_filename_pattern. cbn.
    rewrite (parse_unsigned_digits _ _ i); [|apply block_digits_nonempty|apply parse_block_digits|done].
    cbn. unfold stored, BlockStorageView.get_block, BlockFile.read_from_disk_by_index in Hb.
    by rewrite Hb.
  - apply Hr.
  - apply listed; eauto.
  - intros n (j & ? & ? & ->)%listed; auto.
Qed.

Lemma new_empty s size :
  readable s → chain_ok s → dir_ok s → block_height (storage_state s) = 0 →
  new (path_to_blocks (keeper s)) size (disk s) = Some
    {| keeper := mkBlockKeeper (path_to_blocks (keeper s)) size ∅ ∅ ∅ EMPTY_HASH;
       storage_state := storage_state s;
       disk := disk s |}.
Proof.
  intros Hr Hc Hd H0. assert (list_all_blocks (disk s) (path_to_blocks (keeper s)) = []) as E.
  { destruct (list_all_blocks _ _) as [|n l] eqn:E; [done|].
    assert (n ∈ list_all_blocks (disk s) (path_to_blocks (keeper s))) as Hn by (rewrite E; left).
    apply listed in Hn as (i & ? & ? & _); [lia|done..]. }
  unfold new. rewrite E. cbn. pose proof (chain_tip _ Hc) as Ht. rewrite H0 in Ht.
  unfold hash_at in Ht. rewrite decide_True in Ht by done.
  destruct (storage_state s); cbn in *. by simplify_eq.
Qed.
End restart.
End Restart.
