(* ===== verification/MempoolFacts.v ===== *)
(** * From the mempool to a block and back

    What [add_transaction] does, independently of the iteration order of hash
    maps, and what rolling back the block it creates amounts to. *)

From S2P Require Import Prelude Platform Crypto Transactions Storage KeeperFacts.

Module Mempool.
Import BlockKeeper KeeperFacts.

Section keyed_lists.
Context {P : Platform}.
Implicit Types (m : gmap string SignedTransaction) (l : list SignedTransaction).

(** The transactions of a map in the order of a block. *)
Definition block_transactions m : list SignedTransaction := sort_by_key tx_id (map_to_list m).*2.

Definition to_map l : gmap string SignedTransaction := list_to_map ((λ tx, (tx_id tx, tx)) <$> l).

Lemma keyed_entries m :
  keyed_by_tx_id m → (λ tx, (tx_id tx, tx)) <$> (map_to_list m).*2 = map_to_list m.
Proof.
  intros Hk. rewrite <-list_fmap_compose.
  transitivity (id <$> map_to_list m); [|by rewrite list_fmap_id].
  apply list_fmap_ext. intros i [id tx] Hl%list_elem_of_lookup_2.
  apply elem_of_map_to_list, Hk in Hl. cbn. by rewrite Hl.
Qed.

Lemma block_transactions_perm m : block_transactions m ≡ₚ (map_to_list m).*2.
Proof. apply sort_by_key_perm. Qed.

Lemma block_transactions_ids m :
  keyed_by_tx_id m → tx_id <$> block_transactions m ≡ₚ (map_to_list m).*1.
Proof.
  intros Hk. rewrite block_transactions_perm. rewrite <-(keyed_entries m Hk) at 2.
  by rewrite <-!list_fmap_compose.
Qed.

Lemma block_transactions_NoDup m : keyed_by_tx_id m → NoDup (tx_id <$> block_transactions m).
Proof. intros Hk. rewrite block_transactions_ids by done. apply NoDup_fst_map_to_list. Qed.

Lemma to_map_block_transactions m : keyed_by_tx_id m → to_map (block_transactions m) = m.
Proof.
  intros Hk. unfold to_map. rewrite <-(list_to_map_to_list m) at 2.
  apply list_to_map_proper.
  - rewrite <-list_fmap_compose. by apply block_transactions_NoDup.
  - rewrite block_transactions_perm. by rewrite keyed_entries.
Qed.

Lemma block_transactions_length m : length (block_transactions m) = size m.
Proof. rewrite block_transactions_perm, length_fmap. apply length_map_to_list. Qed.

Lemma to_map_snoc l tx :
  tx_id tx ∉ tx_id <$> l → to_map (l ++ [tx]) = <[tx_id tx := tx]> (to_map l).
Proof.
  intros Hn. unfold to_map. rewrite fmap_app. cbn.
  rewrite list_to_map_snoc; [done|]. by rewrite <-list_fmap_compose.
Qed.

Lemma to_map_size l : NoDup (tx_id <$> l) → size (to_map l) = length l.
Proof.
  intros Hn. unfold to_map. rewrite map_size_list_to_map.
  - by rewrite length_fmap.
  - by rewrite <-list_fmap_compose.
Qed.

(** The block's order is the same whatever order the map is visited in. *)
Lemma sorted_map_order {HO : HashOrder} {HL : HashOrderLaws} m :
  keyed_by_tx_id m → sort_by_key tx_id (map_order m).*2 = block_transactions m.
Proof.
  intros Hk. apply sort_by_key_canonical.
  - intros x y Hx Hy Hid. setoid_rewrite map_order_perm in Hx. setoid_rewrite map_order_perm in Hy.
    apply list_elem_of_fmap in Hx as ([i x'] & -> & Hx%elem_of_map_to_list).
    apply list_elem_of_fmap in Hy as ([j y'] & -> & Hy%elem_of_map_to_list). cbn in *.
    rewrite (Hk _ _ Hx), (Hk _ _ Hy) in Hid. subst j. congruence.
  - by rewrite map_order_perm.
Qed.
End keyed_lists.

Section mempool.
Context {BP : BuildProfile} {P : Platform} {HO : HashOrder} {HL : HashOrderLaws}.
Context `{!Serde (list SignedTransaction), !Serde BlockFile}.
Implicit Types (s : Storage) (k : BlockKeeper) (tx : SignedTransaction).

(** The block made of a full mempool. *)
Definition next_block s (m : gmap string SignedTransaction) : BlockFile :=
  BlockFile.create (block_transactions m) (last_commited_hash (storage_state s))
    (block_height (storage_state s) + 1).

(** The keeper after the block [b] was made of the transactions [m]. *)
Definition staged k (m : gmap string SignedTransaction) (b : BlockFile) : BlockKeeper :=
  k <| mempool := ∅ |> <| previous_hash := bf_hash b |>
    <| uncommited_blocks ::= <[bf_hash b := b]> |> <| pending_transactions ::= union m |>.

Lemma create_new_block_spec {E} s m :
  keyed_by_tx_id m → mempool (keeper s) = ∅ → block_height (storage_state s) + 1 < u32_modulus →
  create_new_block (E := E) m s =
    Ret (bf_hash (next_block s m)) (s <| keeper ::= λ k, staged k m (next_block s m) |>).
Proof.
  intros Hk Hm Hh. unfold create_new_block. cbv zeta.
  unfold bind at 1, gets. cbn beta iota.
  unfold bind at 1, add_u32, unwrap. rewrite checked_plus_exact by done.
  unfold ret at 1. cbn beta iota. rewrite sorted_map_order by done.
  unfold bind, update_keeper, modify, ret. cbn beta iota.
  destruct s as [[pa ms mp pe un ph] st d]. cbn in Hm. subst mp. done.
Qed.

Lemma add_transaction_cases {E} tx s :
  storage_wf s → block_height (storage_state s) + 1 < u32_modulus →
  let m := <[tx_id tx := tx]> (mempool (keeper s)) in
  add_transaction (E := E) tx s =
    if decide (mempool_size (keeper s) ≤ size m)%nat
    then Ret (NewBlockCreated (bf_hash (next_block s m)))
             (s <| keeper ::= λ k, staged k m (next_block s m) |>)
    else Ret AddedToMempool (s <| keeper ::= λ k, k <| mempool := m |> |>).
Proof.
  intros Hwf Hh m. unfold add_transaction, bind at 1, update_keeper, modify. cbn beta iota.
  unfold bind at 1, gets. cbn beta iota.
  change (mempool (keeper (s <| keeper ::= _ |>))) with m.
  change (mempool_size (keeper (s <| keeper ::= _ |>))) with (mempool_size (keeper s)).
  case_decide as Hfull.
  - unfold bind at 1. cbn beta iota. unfold bind at 1.
    rewrite create_new_block_spec; [done| |done|done].
    apply keyed_insert, Hwf.
  - done.
Qed.

(** A mempool that has just been emptied into a block was not full before
    its last transaction. *)
Lemma mempool_not_full_before tx s n :
  storage_wf s → (n < size (<[tx_id tx := tx]> (mempool (keeper s))))%nat →
  n = O ∨ (n < mempool_size (keeper s))%nat.
Proof.
  intros [_ _ _ [Hsz|Hsz]] Hn.
  - rewrite Hsz, insert_empty, map_size_singleton in Hn. left. lia.
  - right. rewrite map_size_insert in Hn. case_match; unfold id in *; lia.
Qed.

Lemma union_delete_pending m (pend : gmap string SignedTransaction) tx :
  keyed_by_tx_id m → tx ∈ block_transactions m → m ∪ delete (tx_id tx) pend = m ∪ pend.
Proof.
  intros Hk Hin. apply map_eq. intros i. rewrite !lookup_union.
  destruct (m !! i) eqn:Ei; [by rewrite !union_Some_l|]. rewrite !(left_id_L None union).
  rewrite lookup_delete_ne; [done|]. intros <-.
  rewrite block_transactions_perm in Hin. apply list_elem_of_fmap in Hin as ([j tx'] & -> & Hj).
  apply elem_of_map_to_list in Hj. cbn in Ei. rewrite (Hk _ _ Hj) in Ei. congruence.
Qed.

(** The states of the loop of [rollback_block] over the transactions
    [l1 ++ l2] of a block made of a full mempool [m], after the turns for
    [l1]. *)
Record returning m l1 l2 s : Prop := {
  ret_wf : storage_wf s;
  ret_height : block_height (storage_state s) + 1 < u32_modulus;
  ret_list : block_transactions m = l1 ++ l2;
  ret_mempool : mempool (keeper s) = to_map l1;
  ret_pending tx : tx ∈ l2 → pending_transactions (keeper s) !! tx_id tx = Some tx;
  ret_full : (mempool_size (keeper s) ≤ size m)%nat;
  ret_not_full n : (0 < n < size m)%nat → (n < mempool_size (keeper s))%nat;
}.

(** One turn is [add_transaction] on the store without the pending entry. *)
Lemma return_to_mempool_step {E} m l1 x l2 s :
  keyed_by_tx_id m → returning m l1 (x :: l2) s →
  let s1 := s <| keeper ::= λ k, k <| pending_transactions ::= delete (tx_id x) |> |> in
  let m1 := to_map (l1 ++ [x]) in
  return_to_mempool (E := E) x s =
    if decide (l2 = [])
    then Ret tt (s1 <| keeper ::= λ k, staged k m (next_block s m) |>)
    else Ret tt (s1 <| keeper ::= λ k, k <| mempool := m1 |> |>).
Proof.
  intros Hk [Hwf Hh Hbt Hmp Hpe Hfull Hnot] s1 m1.
  assert (HND : NoDup ((tx_id <$> l1) ++ tx_id x :: (tx_id <$> l2))).
  { rewrite <-fmap_cons, <-fmap_app, <-Hbt. by apply block_transactions_NoDup. }
  apply NoDup_app in HND as (HND1 & Hdisj & _).
  assert (Hx : tx_id x ∉ tx_id <$> l1) by (intros Hc; eapply Hdisj; [done|left]).
  assert (Hm1 : <[tx_id x := x]> (mempool (keeper s)) = m1) by (unfold m1; by rewrite Hmp, to_map_snoc).
  assert (Hsz : size m1 = S (length l1)).
  { unfold m1. rewrite to_map_size, length_app; [cbn; lia|]. rewrite fmap_app.
    apply NoDup_app. split_and!; [done| |apply NoDup_singleton].
    intros i Hi Hi'%list_elem_of_singleton. by subst. }
  assert (Hlen : size m = (length l1 + S (length l2))%nat).
  { by rewrite <-block_transactions_length, Hbt, length_app. }
  unfold return_to_mempool, bind at 1, gets. cbn beta iota. rewrite Hpe by left.
  unfold bind at 1, update_keeper, modify. cbn beta iota. fold s1.
  unfold bind at 1. rewrite add_transaction_cases; [|by apply wf_pending; [|apply keyed_delete, Hwf]|done].
  change (mempool (keeper s1)) with (mempool (keeper s)).
  change (mempool_size (keeper s1)) with (mempool_size (keeper s)). rewrite Hm1.
  destruct (decide (l2 = [])) as [->|Hne].
  - rewrite decide_True by (cbn in *; lia).
    assert (m1 = m) as -> by (unfold m1; rewrite <-Hbt; by apply to_map_block_transactions). done.
  - rewrite decide_False; [done|]. destruct l2 as [|y l2]; [done|].
    specialize (Hnot (S (length l1))). cbn in *. lia.
Qed.

Lemma return_all {E} m l1 l2 s :
  keyed_by_tx_id m → returning m l1 l2 s → l2 ≠ [] →
  for_each (E := E) l2 return_to_mempool s =
    Ret tt (s <| keeper ::= λ k, staged k m (next_block s m) |>).
Proof.
  intros Hk. revert l1 s. induction l2 as [|x l2 IH]; [done|]. intros l1 s Hr _.
  assert (Hx : x ∈ block_transactions m) by (rewrite (ret_list _ _ _ _ Hr), elem_of_app; right; left).
  cbn [for_each]. unfold bind at 1. rewrite (return_to_mempool_step m l1 x l2) by done. cbv zeta.
  destruct (decide (l2 = [])) as [->|Hne].
  - cbn [for_each]. unfold ret. f_equal. pose proof (union_delete_pending m (pending_transactions (keeper s)) x Hk Hx) as Hu.
    unfold staged. destruct s as [[pa ms mp pe un ph] st d]. cbn in *.
    unfold update_field. cbn. by rewrite Hu.
  - pose proof (return_to_mempool_wf (E := E) x s) as Hwf2.
    rewrite (return_to_mempool_step m l1 x l2) in Hwf2 by done. cbv zeta in Hwf2.
    rewrite decide_False in Hwf2 by done. specialize (Hwf2 _ (ret_wf _ _ _ _ Hr) eq_refl).
    rewrite (IH (l1 ++ [x])); [|split; [done|apply Hr| |done| |apply Hr|apply Hr]|done].
    + f_equal. pose proof (union_delete_pending m (pending_transactions (keeper s)) x Hk Hx) as Hu.
      unfold staged. destruct s as [[pa ms mp pe un ph] st d]. cbn in *.
      unfold update_field. cbn. by rewrite Hu.
    + by rewrite (ret_list _ _ _ _ Hr), <-app_assoc.
    + intros tx Hin. cbn. rewrite lookup_delete_ne; [apply Hr; by right|].
      intros Heq. pose proof (block_transactions_NoDup m Hk) as HND.
      rewrite (ret_list _ _ _ _ Hr), fmap_app in HND. apply NoDup_app in HND as (_ & _ & HND).
      cbn in HND. apply NoDup_cons in HND as [Hn _]. apply Hn. rewrite Heq.
      by apply list_elem_of_fmap_2.
Qed.
End mempool.
End Mempool.
