(* ===== verification/StorageTheorems.v ===== *)
(** * storage.rs: theorems

    The properties of the block store, over sequences of its operations where
    that is what they are about. *)

From S2P Require Import Prelude Platform Crypto Transactions Storage BlockNames KeeperFacts ChainFacts MempoolFacts.

Module StorageTheorems.
Import BlockKeeper KeeperFacts Chain Restart Mempool.

Section operations.
Context {BP : BuildProfile} {P : Platform} {HO : HashOrder}.
Context `{!Serde (list SignedTransaction), !Serde BlockFile}.
Implicit Types (s : Storage).

(** The calls a peer makes on its keeper. *)
Inductive keeper_op : Type :=
  | OpAddTransaction (tx : SignedTransaction)
  | OpAddExternalBlock (b : BlockFile)
  | OpCommitBlock (h : BlockHash)
  | OpRollbackBlock (h : BlockHash).

(** The store after a call, whatever it returned; [None] after a panic. *)
Definition run_op (o : keeper_op) s : option Storage :=
  match o with
  | OpAddTransaction tx => final_state (add_transaction (E := Empty_set) tx s)
  | OpAddExternalBlock b => final_state (add_external_block b s)
  | OpCommitBlock h => final_state (commit_block h s)
  | OpRollbackBlock h => final_state (rollback_block h s)
  end.

Fixpoint run_ops (ops : list keeper_op) s : option Storage :=
  match ops with
  | [] => Some s
  | o :: ops => run_op o s ≫= run_ops ops
  end.

Lemma run_ops_invariant (I : Storage → Prop) ops s s' :
  (∀ o s s', I s → run_op o s = Some s' → I s') →
  I s → run_ops ops s = Some s' → I s'.
Proof.
  intros Hop. revert s. induction ops as [|o ops IH]; intros s HI; cbn.
  - by intros [= <-].
  - destruct (run_op o s) as [s1|] eqn:E; [|done]. cbn. apply IH. eauto.
Qed.

Lemma run_op_wf o s s' : storage_wf s → run_op o s = Some s' → storage_wf s'.
Proof.
  destruct o as [tx|b|h|h]; cbn.
  - apply add_transaction_wf.
  - apply add_external_block_wf.
  - apply commit_block_wf.
  - apply rollback_block_wf.
Qed.

(** What only a commit changes: the files, the shared state, the path. *)
Definition same_disk s0 s : Prop :=
  disk s = disk s0 ∧ storage_state s = storage_state s0 ∧
  path_to_blocks (keeper s) = path_to_blocks (keeper s0) ∧
  mempool_size (keeper s) = mempool_size (keeper s0).

Lemma add_transaction_same_disk {E} s0 tx : preserves (same_disk s0) (add_transaction (E := E) tx).
Proof. unfold add_transaction, create_new_block, update_keeper, add_u32. cbv zeta. preserve; done. Qed.

Lemma add_external_block_same_disk s0 b : preserves (same_disk s0) (add_external_block b).
Proof. unfold add_external_block, take_from_mempool, update_keeper. preserve; done. Qed.

Lemma rollback_block_same_disk s0 h : preserves (same_disk s0) (rollback_block h).
Proof.
  unfold rollback_block, return_to_mempool, update_keeper. preserve; [done..|].
  apply add_transaction_same_disk.
Qed.

(** A call raises the height by at most one and leaves the files up to the
    current height alone. *)
Lemma run_op_committed o s s' :
  block_height (storage_state s) + 1 < u32_modulus → run_op o s = Some s' →
  block_height (storage_state s) ≤ block_height (storage_state s') ∧
  block_height (storage_state s') ≤ block_height (storage_state s) + 1 ∧
  ∀ i, i ≤ block_height (storage_state s) → stored s' i = stored s i.
Proof.
  intros Hh.
  assert (Hsame : same_disk s s' → block_height (storage_state s) ≤ block_height (storage_state s') ∧
    block_height (storage_state s') ≤ block_height (storage_state s) + 1 ∧
    ∀ i, i ≤ block_height (storage_state s) → stored s' i = stored s i).
  { intros (Hd & Hst & Hp & _). rewrite Hst. split_and!; [lia..|]. intros i _.
    unfold stored, BlockStorageView.get_block. by rewrite Hd, Hp. }
  destruct o as [tx|b|h|h]; cbn; intros Hrun.
  - apply Hsame. by eapply add_transaction_same_disk.
  - apply Hsame. by eapply add_external_block_same_disk.
  - pose proof (commit_block_cases h s Hh) as Hc.
    assert (Hframe : ∀ d, final_state (fs_write (commit_path s)
      (default [] (to_vec <$> (uncommited_blocks (keeper s) !! h))) (disk s)) = Some d →
      ∀ i k st, i ≤ block_height (storage_state s) → path_to_blocks k = path_to_blocks (keeper s) →
      stored (mkStorage k st d) i = stored s i).
    { intros d Hw i k st Hi Hk. unfold stored, BlockStorageView.get_block,
        BlockFile.read_from_disk_by_index, BlockFile.read_from_disk. cbn. rewrite Hk.
      assert (fs_read d (path_to_blocks (keeper s), block_filename_for_index i) =
              fs_read (disk s) (path_to_blocks (keeper s), block_filename_for_index i)) as ->; [|done].
      unfold fs_read. rewrite (fs_write_frame _ _ _ _ _ Hw).
      - by rewrite (fs_write_read_faults _ _ _ _ Hw).
      - intros [= Heq]. apply block_filename_inj in Heq. lia. }
    destruct (uncommited_blocks (keeper s) !! h) as [b|] eqn:Eb; cbn in Hframe.
    + destruct (fs_write _ _ _) as [[] d|e d|]; [|rewrite Hc in Hrun|done].
      * destruct Hc as [m Hc]. rewrite Hc in Hrun. injection Hrun as <-. cbn.
        split_and!; [lia..|]. intros i Hi. by apply Hframe.
      * injection Hrun as <-. cbn. split_and!; [lia..|]. intros i Hi. destruct s. by apply Hframe.
    + rewrite Hc in Hrun. injection Hrun as <-. split_and!; [lia..|done].
  - apply Hsame. by eapply rollback_block_same_disk.
Qed.

Lemma run_ops_committed ops s s' :
  block_height (storage_state s) + N.of_nat (length ops) < u32_modulus →
  run_ops ops s = Some s' →
  block_height (storage_state s) ≤ block_height (storage_state s') ∧
  ∀ i, i ≤ block_height (storage_state s) → stored s' i = stored s i.
Proof.
  revert s. induction ops as [|o ops IH]; intros s Hh; cbn.
  { intros [= <-]. done. }
  cbn in Hh. destruct (run_op o s) as [s1|] eqn:E; [|done]. cbn. intros Hr.
  destruct (run_op_committed o s s1) as (H1 & H2 & H3); [lia|done|].
  destruct (IH s1) as [H4 H5]; [lia|done|]. split; [lia|]. intros i Hi.
  rewrite H5, H3; [done|done|lia].
Qed.
(** What a failed commit leaves. *)
Lemma commit_block_Err h s e s' :
  block_height (storage_state s) + 1 < u32_modulus →
  commit_block h s = Err e s' →
  keeper s' = keeper s ∧ storage_state s' = storage_state s ∧
  (∀ i, i ≤ block_height (storage_state s) → stored s' i = stored s i).
Proof.
  intros Hh He. pose proof (run_op_committed (OpCommitBlock h) s s' Hh) as Hframe. cbn in Hframe.
  rewrite He in Hframe. destruct (Hframe eq_refl) as (_ & _ & Hst).
  pose proof (commit_block_cases h s Hh) as Hc. rewrite He in Hc.
  destruct (uncommited_blocks (keeper s) !! h); [destruct (fs_write _ _ _)|].
  - by destruct Hc.
  - injection Hc as _ ->. by split_and!.
  - done.
  - by injection Hc as _ ->.
Qed.

Lemma commit_block_read_faults h s s' :
  block_height (storage_state s) + 1 < u32_modulus →
  final_state (commit_block h s) = Some s' →
  path_to_blocks (keeper s') = path_to_blocks (keeper s) ∧
  read_faults (disk s') = read_faults (disk s).
Proof.
  intros Hh. pose proof (commit_block_cases h s Hh) as Hc.
  destruct (uncommited_blocks (keeper s) !! h) as [b|]; [|rewrite Hc; by intros [= <-]].
  pose proof (fs_write_read_faults (commit_path s) (to_vec b) (disk s)) as Hf.
  destruct (fs_write _ _ _) as [[] d|e d|]; [|rewrite Hc; intros [= <-]|done].
  - destruct Hc as [m ->]. intros [= <-]. split; [done|by apply Hf].
  - split; [done|by apply Hf].
Qed.
End operations.

Section theorems.
Context {BP : BuildProfile} {P : Platform} {HO : HashOrder}.
Context `{!Serde (list SignedTransaction), !Serde BlockFile}.
Implicit Types (s : Storage).

(** C24. Representation invariant: whatever sequence of calls is made, errors
    included, the mempool and the pending map stay keyed by transaction id,
    every staged block sits under its own hash and that hash is the hash of
    its contents, and the mempool never holds a full block. *)
Theorem keeper_invariant ops s s' : storage_wf s → run_ops ops s = Some s' → storage_wf s'.
Proof. apply run_ops_invariant, run_op_wf. Qed.

(** Committed blocks are immutable: no sequence of calls lowers the
    height or changes what reading a block at or below the current height
    returns, failed and partial writes included. *)
Theorem committed_blocks_immutable ops s s' i :
  block_height (storage_state s) + N.of_nat (length ops) < u32_modulus →
  run_ops ops s = Some s' → i ≤ block_height (storage_state s) →
  block_height (storage_state s) ≤ block_height (storage_state s') ∧ stored s' i = stored s i.
Proof. intros Hh Hr Hi. destruct (run_ops_committed _ _ _ Hh Hr). auto. Qed.

(** C27. [add_transaction]: below the configured size it stores the
    transaction in the mempool; at that size the whole mempool becomes a
    block on top of the committed tip, its transactions sorted by id, staged
    under its hash, with the mempool emptied and the transactions pending.
    The result mentions no iteration order: every peer with the same mempool
    builds the same block. *)
Theorem add_transaction_spec {HL : HashOrderLaws} {E} tx s :
  storage_wf s → block_height (storage_state s) + 1 < u32_modulus →
  let m := <[tx_id tx := tx]> (mempool (keeper s)) in
  let b := next_block s m in
  add_transaction (E := E) tx s =
    (if decide (mempool_size (keeper s) ≤ size m)%nat
     then Ret (NewBlockCreated (bf_hash b)) (s <| keeper ::= λ k, staged k m b |>)
     else Ret AddedToMempool (s <| keeper ::= λ k, k <| mempool := m |> |>)) ∧
  bf_transactions b ≡ₚ (map_to_list m).*2 ∧
  StronglySorted (key_le tx_id) (bf_transactions b).
Proof.
  intros Hwf Hh m b. split; [by apply add_transaction_cases|].
  split; [apply block_transactions_perm|apply sort_by_key_sorted].
Qed.

(** C25. Durability: after a successful commit of [h], the staged block with
    that hash is read back from disk at the new height, and again by the
    views, the shared state names it, it is no longer staged, and every other
    block file reads as before. *)
Theorem commit_block_durable {HS : SerdeLaws BlockFile} h s s' :
  block_height (storage_state s) + 1 < u32_modulus → storage_wf s →
  (∀ i, (path_to_blocks (keeper s), block_filename_for_index i) ∉ read_faults (disk s)) →
  commit_block h s = Ret tt s' →
  ∃ b, uncommited_blocks (keeper s) !! h = Some b ∧ bf_hash b = h ∧
    storage_state s' = mkBlockStorageState (block_height (storage_state s) + 1) h ∧
    read_block_by_index s' (block_height (storage_state s')) = Ok b ∧
    BlockStorageView.get_block s' (block_height (storage_state s')) = Ok b ∧
    uncommited_blocks (keeper s') !! h = None ∧
    (∀ i, i ≠ block_height (storage_state s') → stored s' i = stored s i).
Proof.
  intros Hh Hwf Hf (b & Eb & Hb & Hv & Hc)%commit_block_commits; [|done..].
  pose proof (stored_new _ _ _ Hc (Hf _)) as Hnew. exists b.
  pose proof (commits_state _ _ _ Hc) as Hst. rewrite Hst. cbn.
  split_and!; [done|done|by subst| |done| |].
  - unfold read_block_by_index. rewrite decide_True by done. done.
  - rewrite (commits_uncommited _ _ _ Hc), Hb. apply lookup_delete_eq.
  - intros i Hi. by apply (stored_frame _ _ _ _ Hc).
Qed.

(** A commit that fails is without effect on the keeper and on the shared
    state: the block stays staged and can be committed again, whether it was
    unknown or the disk refused the write. *)
Theorem commit_block_failure h s e s' :
  block_height (storage_state s) + 1 < u32_modulus →
  commit_block h s = Err e s' →
  keeper s' = keeper s ∧ storage_state s' = storage_state s ∧
  (∀ i, i ≤ block_height (storage_state s) → stored s' i = stored s i).
Proof. apply commit_block_Err. Qed.

(** C26. Committing a block that extends the tip keeps the chain: every block
    file verifies, carries its own height and names the hash of the block
    below it, the shared state is the hash of the top file, and the
    directory holds no other block files. *)
Theorem commit_block_chain {HS : SerdeLaws BlockFile} h s s' :
  block_height (storage_state s) + 1 < u32_modulus → storage_wf s →
  commit_path s ∉ read_faults (disk s) →
  (∀ b, uncommited_blocks (keeper s) !! h = Some b → extends_tip s b) →
  commit_block h s = Ret tt s' →
  chain_ok s → dir_ok s → chain_ok s' ∧ dir_ok s'.
Proof.
  intros Hh Hwf Hf Hext (b & Eb & Hb & Hv & Hc)%commit_block_commits Hok Hdir; [|done..].
  split; [by eapply commits_chain_ok; eauto|by eapply commits_dir_ok].
Qed.

(** The tip is not checked again when a block is committed: two blocks
    built on the same tip (as two full mempools before the first commit are)
    can both be committed, and then the files no longer form a chain. *)
Theorem commit_siblings_breaks_chain {HS : SerdeLaws BlockFile} h1 h2 b1 b2 s s1 s2 :
  block_height (storage_state s) + 2 < u32_modulus → storage_wf s →
  (∀ i, (path_to_blocks (keeper s), block_filename_for_index i) ∉ read_faults (disk s)) →
  uncommited_blocks (keeper s) !! h1 = Some b1 → extends_tip s b1 →
  uncommited_blocks (keeper s) !! h2 = Some b2 → extends_tip s b2 →
  h1 ≠ h2 → h1 ≠ last_commited_hash (storage_state s) →
  chain_ok s →
  commit_block h1 s = Ret tt s1 → commit_block h2 s1 = Ret tt s2 →
  chain_ok s1 ∧ ¬ chain_ok s2.
Proof.
  intros Hh Hwf Hf E1 Hx1 E2 Hx2 Hne Htip Hok C1 C2.
  pose proof (commit_block_wf h1 s s1 Hwf) as Hwf1. rewrite C1 in Hwf1.
  apply commit_block_commits in C1 as (b1' & E1' & Hb1 & Hv1 & C1); [|lia|done].
  assert (b1' = b1) as -> by congruence.
  assert (Hst : storage_state s1 = mkBlockStorageState (block_height (storage_state s) + 1) h1).
  { rewrite (commits_state _ _ _ C1). by subst. }
  assert (Hok1 : chain_ok s1) by (eapply commits_chain_ok; eauto). split; [done|].
  apply commit_block_commits in C2 as (b2' & E2' & Hb2 & Hv2 & C2); [|rewrite Hst; cbn; lia|auto].
  rewrite (commits_uncommited _ _ _ C1), lookup_delete_ne in E2' by congruence.
  assert (b2' = b2) as -> by congruence.
  eapply commits_sibling; [done| | |done].
  - unfold commit_path. rewrite (commits_path _ _ _ C1).
    rewrite (commits_disk _ _ _ C1). apply Hf.
  - rewrite Hst. cbn. destruct Hx2 as [_ ->]. congruence.
Qed.

(** What [new] finds on the disk of a keeper of fewer than 100000 blocks. *)
Lemma new_after {PL : PlatformLaws} {HL : HashOrderLaws} s size :
  readable s → chain_ok s → dir_ok s → block_height (storage_state s) < 100000 →
  ∃ s', new (path_to_blocks (keeper s)) size (disk s) = Some s' ∧
    storage_state s' = storage_state s ∧ disk s' = disk s ∧
    storage_wf s' ∧ mempool (keeper s') = ∅ ∧ uncommited_blocks (keeper s') = ∅.
Proof.
  intros Hr Hc Hd Hh.
  assert (Hempty : ∀ p h, keeper_wf (mkBlockKeeper p size ∅ ∅ ∅ h)).
  { intros p h. split; cbn; auto with rustchain. intros ??. by rewrite lookup_empty. }
  destruct (decide (block_height (storage_state s) = 0)) as [H0|H0].
  - rewrite new_empty by done. eexists. split; [done|]. cbn. split_and!; [done|done|by apply Hempty|done|done].
  - destruct (new_resumes s size (block_height (storage_state s))) as (b & Hb & ->);
      [done|done|done|lia|done|unfold u32_modulus; lia| |].
    + intros j _ Hj. by apply block_filename_le.
    + eexists. split; [done|]. cbn. split_and!; [|done|by apply Hempty|done|done].
      pose proof (chain_tip _ Hc) as Ht. unfold hash_at in Ht. rewrite decide_False in Ht by done.
      rewrite Hb in Ht. destruct (storage_state s); cbn in *. congruence.
Qed.

(** Restart: below 100000 blocks, [BlockKeeper::new] recovers from the
    directory the height and hash that the keeper which wrote it had. *)
Theorem restart_recovers {PL : PlatformLaws} {HL : HashOrderLaws} s size :
  readable s → chain_ok s → dir_ok s → block_height (storage_state s) < 100000 →
  ∃ s', new (path_to_blocks (keeper s)) size (disk s) = Some s' ∧
    storage_state s' = storage_state s ∧ disk s' = disk s ∧
    storage_wf s' ∧ mempool (keeper s') = ∅ ∧ uncommited_blocks (keeper s') = ∅.
Proof. apply new_after. Qed.

(** Beyond 99999 blocks the names no longer sort by height: a restart
    resumes at height 99999, and the next commit overwrites block 100000. *)
Theorem restart_beyond_99999 {PL : PlatformLaws} {HL : HashOrderLaws} s size :
  readable s → chain_ok s → dir_ok s →
  100000 ≤ block_height (storage_state s) → block_height (storage_state s) < 999990 →
  ∃ s', new (path_to_blocks (keeper s)) size (disk s) = Some s' ∧
    block_height (storage_state s') = 99999 ∧
    commit_path s' = (path_to_blocks (keeper s), block_filename_for_index 100000) ∧
    is_Some (file_at (disk s') (commit_path s')).
Proof.
  intros Hr Hc Hd Hlo Hhi.
  destruct (new_resumes s size 99999) as (b & Hb & ->); [done|done|done|lia|lia|done| |].
  - intros j Hj Hle. destruct (decide (j < 100000)).
    + apply block_filename_le; lia.
    + apply block_filename_six; lia.
  - eexists. split; [done|]. split; [done|]. split; [done|].
    assert (Hin : block_filename_for_index 100000 ∈ list_all_blocks (disk s) (path_to_blocks (keeper s))).
    { apply listed; [done..|]. exists 100000. split_and!; [lia|lia|done]. }
    apply elem_of_list_all_blocks in Hin as [Hin _]; [done|apply Hr].
Qed.

(** [rollback_block] does not undo the creation of a block: the
    transactions it returns fill the mempool again, which creates and stages
    the same block once more, so the store is left exactly as it was (and the
    new block's status is dropped, so nobody proposes it). *)
Theorem rollback_created_block_noop {HL : HashOrderLaws} {E} tx s h s1 :
  storage_wf s → block_height (storage_state s) + 1 < u32_modulus →
  add_transaction (E := E) tx s = Ret (NewBlockCreated h) s1 →
  rollback_block h s1 = Ret tt s1.
Proof.
  intros Hwf Hh Ha. pose proof (add_transaction_wf (E := E) tx s) as Hwf1. rewrite Ha in Hwf1.
  specialize (Hwf1 _ Hwf eq_refl).
  pose proof (λ n, mempool_not_full_before tx s n Hwf) as Hnot.
  rewrite add_transaction_cases in Ha by done. case_decide as Hfull; [|done]. injection Ha as <- <-.
  set (m := <[tx_id tx := tx]> (mempool (keeper s))) in *.
  assert (Hk : keyed_by_tx_id m) by apply keyed_insert, Hwf.
  unfold rollback_block, bind at 1, gets. cbn beta iota. cbn [keeper]. cbn.
  rewrite lookup_insert_eq. unfold bind at 1, update_keeper, modify. cbn beta iota.
  cbn [bf_transactions next_block BlockFile.create].
  rewrite (return_all m []); [|done|split; cbn|].
  - f_equal. destruct s as [[pa ms mp pe un ph] st d]. unfold staged, update_field. cbn.
    assert (m ∪ (m ∪ pe) = m ∪ pe) as Hu by (by rewrite (assoc_L (∪)), map_union_idemp).
    rewrite Hu. do 2 f_equal. unfold next_block. cbn.
    by rewrite insert_delete_eq, insert_insert_eq.
  - apply wf_delete_block. apply Hwf1.
  - done.
  - done.
  - done.
  - intros tx' Hin. rewrite block_transactions_perm in Hin.
    apply list_elem_of_fmap in Hin as ([i tx''] & -> & Hin%elem_of_map_to_list). cbn.
    rewrite (Hk _ _ Hin). by apply lookup_union_Some_l.
  - done.
  - intros n Hn. destruct (Hnot n); lia.
  - intros Hnil. apply (f_equal length) in Hnil. rewrite block_transactions_length in Hnil.
    cbn in Hnil. apply map_size_empty_inv in Hnil. by apply insert_non_empty in Hnil.
Qed.

Lemma find_predecessor_Some {T E} i l (s s' : T) b :
  0 < i → (∀ b, b ∈ l → bf_index b < u32_modulus) →
  find_predecessor (E := E) i l s = Ret (Some b) s' → s' = s ∧ b ∈ l ∧ bf_index b + 1 = i.
Proof.
  intros Hi. induction l as [|x l IH]; intros Hl; [done|]. cbn.
  intros (next & s1 & Hn & Hrest)%bind_Ret.
  assert (s1 = s ∧ (next = i → bf_index x + 1 = i)) as [-> Hnext].
  { unfold add_u32, unwrap, checked_plus in Hn.
    destruct (decide (bf_index x + 1 < u32_modulus)); cbn beta iota in Hn.
    { injection Hn as <- <-. done. }
    destruct overflow_checks; [done|]. cbn beta iota in Hn. injection Hn as <- <-. split; [done|].
    specialize (Hl x (list_elem_of_here _ _)).
    assert (bf_index x + 1 = u32_modulus) as -> by lia. rewrite N.Div0.mod_same. lia. }
  case_decide as Heq.
  - injection Hrest as <- <-. split_and!; [done|left|auto].
  - destruct IH as (? & ? & ?); [|done|]. { intros b' Hb'. apply Hl. by right. }
    split_and!; [done|by right|done].
Qed.

Lemma block_can_be_added_true {HL : HashOrderLaws} {E} b s s' :
  bf_index b < u32_modulus →
  (∀ h b, uncommited_blocks (keeper s) !! h = Some b → bf_index b < u32_modulus) →
  block_can_be_added (E := E) b s = Ret true s' →
  s' = s ∧ uncommited_blocks (keeper s) !! bf_hash b = None ∧
  (extends_tip s b ∨
   ∃ h p, uncommited_blocks (keeper s) !! h = Some p ∧
          bf_index p + 1 = bf_index b ∧ bf_previous_hash b = bf_hash p).
Proof.
  intros Hb Hall. unfold block_can_be_added. case_decide as H0; [done|].
  unfold bind at 1 2, gets. cbn beta iota. case_decide as Hin; [done|].
  unfold bind at 1, sub_u32, unwrap. rewrite checked_minus_exact by lia. cbn beta iota. unfold ret at 1.
  case_decide as Hh.
  - intros [= Htip%bool_decide_eq_true <-]. split_and!; [done|by apply eq_None_not_Some|].
    left. split; [lia|done].
  - intros (found & s1 & Hf & Hr)%bind_Ret. injection Hr as Hr <-.
    destruct found as [p|]; [|done]. apply bool_decide_eq_true in Hr.
    apply find_predecessor_Some in Hf as (-> & Hp & Hidx); [|lia|].
    + split_and!; [done|by apply eq_None_not_Some|]. right.
      apply list_elem_of_fmap in Hp as ([h p'] & -> & Hp).
      rewrite map_order_perm in Hp. apply elem_of_map_to_list in Hp. eauto.
    + intros p' Hp'. apply list_elem_of_fmap in Hp' as ([h p''] & -> & Hp').
      rewrite map_order_perm in Hp'. apply elem_of_map_to_list in Hp'. eauto.
Qed.

(** At the height above the tip the block has to name the tip. *)
Lemma block_can_be_added_at_tip {E} b s s' :
  bf_index b = block_height (storage_state s) + 1 →
  block_can_be_added (E := E) b s = Ret true s' → extends_tip s b.
Proof.
  intros Hi. unfold block_can_be_added. case_decide as H0; [done|].
  unfold bind at 1 2, gets. cbn beta iota. case_decide as Hin; [done|].
  unfold bind at 1, sub_u32, unwrap. rewrite checked_minus_exact by lia. cbn beta iota. unfold ret at 1.
  rewrite decide_True by lia. intros [= Ht%bool_decide_eq_true _]. by split.
Qed.

(** A block is admitted to staging only if it is not staged yet and it
    extends either the committed tip or a staged block of the height below. *)
Theorem block_can_be_added_sound {HL : HashOrderLaws} {E} b s s' :
  bf_index b < u32_modulus →
  (∀ h b, uncommited_blocks (keeper s) !! h = Some b → bf_index b < u32_modulus) →
  block_can_be_added (E := E) b s = Ret true s' →
  s' = s ∧ uncommited_blocks (keeper s) !! bf_hash b = None ∧
  (extends_tip s b ∨
   ∃ h p, uncommited_blocks (keeper s) !! h = Some p ∧
          bf_index p + 1 = bf_index b ∧ bf_previous_hash b = bf_hash p).
Proof. apply block_can_be_added_true. Qed.
End theorems.
End StorageTheorems.
