(* ===== verification/Refinement.v ===== *)
(** * The block store refines an append-only chain

    What the rest of the program may think of a [BlockKeeper]: a list of
    committed blocks, block [i] at height [i + 1], that only ever grows at its
    end, by a block that was staged and whose hash is right.  [represents]
    relates a store to the list it stands for; every call of the keeper, failed
    writes included, is a step of the list or no step. *)

From S2P Require Import Prelude Platform Crypto Transactions Storage BlockNames KeeperFacts ChainFacts StorageTheorems.

Module Refinement.
Import BlockKeeper KeeperFacts Chain StorageTheorems.

Section refinement.
Context {BP : BuildProfile} {P : Platform} {HO : HashOrder}.
Context `{!Serde (list SignedTransaction), !Serde BlockFile}.
Implicit Types (s : Storage) (l : list BlockFile).

(** ** The abstract machine *)

Inductive chain_step (staged : gmap BlockHash BlockFile) : list BlockFile → list BlockFile → Prop :=
  | chain_stutter l : chain_step staged l l
  | chain_append l h b :
      staged !! h = Some b → BlockFile.verify_block b = Ok tt → chain_step staged l (l ++ [b]).

(** ** The abstraction *)

Record represents s l : Prop := {
  rep_height : block_height (storage_state s) = N.of_nat (length l);
  rep_tip : last_commited_hash (storage_state s) = match last l with Some b => bf_hash b | None => EMPTY_HASH end;
  rep_blocks i b : l !! i = Some b → stored s (N.of_nat i + 1) = Ok b;
}.

(** No file of the store's directory is unreadable. *)
Definition no_read_faults s : Prop :=
  ∀ name, (path_to_blocks (keeper s), name) ∉ read_faults (disk s).

Lemma represents_frame s s' l :
  storage_state s' = storage_state s →
  (∀ i, i ≤ block_height (storage_state s) → stored s' i = stored s i) →
  represents s l → represents s' l.
Proof.
  intros Hst Hold [Hh Ht Hb]. split; [by rewrite Hst|by rewrite Hst|]. intros i b Hi.
  rewrite Hold; [by apply Hb|]. apply lookup_lt_Some in Hi. lia.
Qed.

Lemma represents_append {HS : SerdeLaws BlockFile} s b s' l :
  commits s b s' → commit_path s ∉ read_faults (disk s) → represents s l → represents s' (l ++ [b]).
Proof.
  intros Hc Hf [Hh Ht Hb]. split; rewrite ?(commits_state _ _ _ Hc); cbn.
  - rewrite length_app. cbn. lia.
  - by rewrite last_snoc.
  - intros i x Hi. destruct (decide (i = length l)) as [->|Hne].
    + rewrite lookup_app_r, Nat.sub_diag in Hi by done. injection Hi as <-.
      rewrite <-Hh. by eapply stored_new.
    + assert (i < length l)%nat.
      { apply lookup_lt_Some in Hi. rewrite length_app in Hi. cbn in Hi. lia. }
      rewrite lookup_app_l in Hi by done. rewrite (stored_frame _ _ _ _ Hc) by lia. by apply Hb.
Qed.

(** One call of the keeper. *)
Lemma run_op_refines {HS : SerdeLaws BlockFile} o s s' l :
  block_height (storage_state s) + 1 < u32_modulus → storage_wf s → no_read_faults s →
  run_op o s = Some s' → represents s l →
  ∃ l', chain_step (uncommited_blocks (keeper s)) l l' ∧ ((∀ h, o ≠ OpCommitBlock h) → l' = l) ∧
    represents s' l' ∧ no_read_faults s'.
Proof.
  intros Hh Hwf Hf Hrun Hrep.
  assert (Hsame : same_disk s s' →
    ∃ l', chain_step (uncommited_blocks (keeper s)) l l' ∧ ((∀ h, o ≠ OpCommitBlock h) → l' = l) ∧
      represents s' l' ∧ no_read_faults s').
  { intros (Hd & Hst & Hp & _). exists l. split_and!; [constructor|done| |].
    - apply (represents_frame s); [done| |done]. intros i _.
      unfold stored, BlockStorageView.get_block. by rewrite Hd, Hp.
    - intros name. rewrite Hd, Hp. apply Hf. }
  destruct o as [tx|b|h|h]; cbn in Hrun.
  - apply Hsame. by eapply add_transaction_same_disk.
  - apply Hsame. by eapply add_external_block_same_disk.
  - clear Hsame. destruct (commit_block_read_faults h s s' Hh Hrun) as [Hp Hr].
    assert (Hf' : no_read_faults s') by (intros name; rewrite Hp, Hr; apply Hf).
    destruct (commit_block h s) as [[] s1|e s1|] eqn:Hc; [..|done]; injection Hrun as ->.
    + apply commit_block_commits in Hc as (b & Eb & _ & Hv & Hc); [|done..].
      exists (l ++ [b]). split_and!; [by eapply chain_append|by intros Hno; destruct (Hno h)|by eapply represents_append; [done|apply Hf|done]|done].
    + apply commit_block_Err in Hc as (_ & Hst & Hold); [|done].
      exists l. split_and!; [constructor|done|by apply (represents_frame s)|done].
  - apply Hsame. by eapply rollback_block_same_disk.
Qed.

(** Runs, with the abstract list beside the store. *)
Inductive refined_run : Storage → list BlockFile → list keeper_op → Storage → list BlockFile → Prop :=
  | refined_nil s l : refined_run s l [] s l
  | refined_cons o ops s s1 s2 l l1 l2 :
      run_op o s = Some s1 → chain_step (uncommited_blocks (keeper s)) l l1 →
      ((∀ h, o ≠ OpCommitBlock h) → l1 = l) →
      refined_run s1 l1 ops s2 l2 → refined_run s l (o :: ops) s2 l2.

Lemma represents_unique s l1 l2 : represents s l1 → represents s l2 → l1 = l2.
Proof.
  intros [H1 _ B1] [H2 _ B2]. apply list_eq. intros i.
  assert (length l1 = length l2) by lia.
  destruct (l1 !! i) as [b1|] eqn:E1; destruct (l2 !! i) as [b2|] eqn:E2; [|..|done].
  - apply B1 in E1. apply B2 in E2. congruence.
  - apply lookup_lt_Some in E1. apply lookup_ge_None in E2. lia.
  - apply lookup_lt_Some in E2. apply lookup_ge_None in E1. lia.
Qed.

Lemma refined_prefix s l ops s' l' : refined_run s l ops s' l' → l `prefix_of` l'.
Proof.
  induction 1 as [|o ops s s1 s2 l l1 l2 _ Hstep _ _ IH]; [done|]. etrans; [|exact IH].
  destruct Hstep as [|l h b _ _]; [done|by apply prefix_app_r].
Qed.
End refinement.

Section theorems.
Context {BP : BuildProfile} {P : Platform} {HO : HashOrder}.
Context `{!Serde (list SignedTransaction), !Serde BlockFile}.

(** C17. The block store refines an append-only chain: along any sequence of
    calls, failed writes included, the store represents a list of blocks that
    each commit extends by one verified block that was staged, or not at all,
    and that no other call changes; the list is a function of the store. *)
Theorem store_refines_chain {HS : SerdeLaws BlockFile} ops (s s' : Storage) l :
  block_height (storage_state s) + N.of_nat (length ops) < u32_modulus →
  storage_wf s → no_read_faults s → run_ops ops s = Some s' → represents s l →
  ∃ l', refined_run s l ops s' l' ∧ represents s' l' ∧ l `prefix_of` l' ∧
    ∀ l'', represents s' l'' → l'' = l'.
Proof.
  intros Hh Hwf Hf Hrun Hrep.
  assert (H : ∃ l', refined_run s l ops s' l' ∧ represents s' l').
  { revert s l Hh Hwf Hf Hrun Hrep. induction ops as [|o ops IH]; intros s l Hh Hwf Hf Hrun Hrep; cbn in *.
    { injection Hrun as <-. exists l. split; [constructor|done]. }
    destruct (run_op o s) as [s1|] eqn:Eo; [|done]. cbn in Hrun.
    destruct (run_op_refines o s s1 l) as (l1 & Hstep & Hkeep & Hrep1 & Hf1); [lia|done..|].
    pose proof (run_op_committed o s s1 ltac:(lia) Eo) as (_ & Hup & _).
    destruct (IH s1 l1) as (l2 & Hr2 & Hrep2); [lia|by eapply run_op_wf|done..|].
    exists l2. split; [|done]. by econstructor. }
  destruct H as (l' & Hr & Hrep'). exists l'. split_and!; [done|done|by eapply refined_prefix|].
  intros l'' Hrep''. by eapply represents_unique.
Qed.
End theorems.
End Refinement.
