(* ===== verification/Messages.v ===== *)
(** * peer/messages.rs and the data of peer/consensus.rs

    Peer ids, the messages peers exchange, the entries of the Raft log, and the
    effects a consensus engine asks a peer to execute. *)

From S2P Require Import Prelude Platform Transactions Storage.

(** ** Peer ids *)

(** [struct PeerId(u32)] *)
Abbreviation PeerId := N (only parsing).

(** [std::num::IntErrorKind] as [str::parse] reports it at an unsigned width. *)
Inductive IntErrorKind : Type := Empty | InvalidDigit | PosOverflow.

Definition int_error_display (e : IntErrorKind) : string :=
  match e with
  | Empty => "cannot parse integer from empty string"
  | InvalidDigit => "invalid digit found in string"
  | PosOverflow => "number too large to fit in target type"
  end.

Fixpoint parse_int_digits (modulus : N) (s : string) (acc : N) : result N IntErrorKind :=
  match s with
  | EmptyString => Ok acc
  | String c s =>
      if is_ascii_digit c then
        let acc := 10 * acc + (Ascii.N_of_ascii c - 48) in
        if decide (acc < modulus) then parse_int_digits modulus s acc else Error PosOverflow
      else Error InvalidDigit
  end.

Definition parse_int (modulus : N) (s : string) : result N IntErrorKind :=
  match s with
  | EmptyString => Error Empty
  | String c rest =>
      if (Ascii.N_of_ascii c =? 43)%N (* '+' *)
      then match rest with EmptyString => Error InvalidDigit | _ => parse_int_digits modulus rest 0 end
      else parse_int_digits modulus s 0
  end.

(** [FromStr for PeerId] *)
Definition PeerId_from_str (s : string) : result PeerId string :=
  match parse_int u32_modulus s with
  | Ok n => Ok n
  | Error e => Error (int_error_display e)
  end.

(** [TryInto<u16> for PeerId] *)
Definition PeerId_try_into_u16 (id : PeerId) : result N string :=
  if decide (id < u16_modulus) then Ok id else Error ("PeerId is too big: " +:+ pretty id).

(** ** Raft log entries *)

Record RaftLogEntry : Type := mkRaftLogEntry {
  term : N;                (* u64 *)
  index : N;               (* u64 *)
  block_hash : BlockHash;
}.
#[export] Instance RaftLogEntry_eq_dec : EqDecision RaftLogEntry.
Proof. solve_decision. Defined.

Definition noop (term index : N) : RaftLogEntry := mkRaftLogEntry term index EMPTY_HASH.
Definition is_noop (e : RaftLogEntry) : bool := bool_decide (block_hash e = EMPTY_HASH).

Section messages.
Context {P : Platform}.

(** ** Messages *)

Record RaftReplicatedBlock : Type := mkRaftReplicatedBlock {
  rb_entry : RaftLogEntry;
  rb_block_file : bytes;
  rb_signature : Signature;
  rb_public_key : VerifyingKey;
}.

Inductive MessageBody : Type :=
  | ClientTransaction (client_tx : SignedTransaction)
  | Synchronization (verified_tx : VerifiedTransaction)
  | BlockProposal (block_hash : BlockHash) (block_file : bytes) (signature : Signature)
      (public_key : VerifyingKey)
  | BlockReject (block_hash : BlockHash)
  | BlockApproved (block_hash : BlockHash)
  | RaftRequestVote (term : N) (candidate_id : PeerId) (last_log_index last_log_term : N)
  | RaftRequestVoteResponse (term : N) (vote_granted : bool)
  | RaftAppendEntries (term : N) (leader_id : PeerId) (prev_log_index prev_log_term : N)
      (entries : list RaftReplicatedBlock) (leader_commit : N)
  | RaftAppendEntriesResponse (term : N) (success : bool) (match_index : N).

Record Message : Type := mkMessage {
  from : PeerId;
  to : PeerId;
  body : MessageBody;
}.

#[export] Instance RaftReplicatedBlock_eq_dec : EqDecision RaftReplicatedBlock.
Proof. solve_decision. Defined.
#[export] Instance MessageBody_eq_dec : EqDecision MessageBody.
Proof. solve_decision. Defined.
#[export] Instance Message_eq_dec : EqDecision Message.
Proof. solve_decision. Defined.

(** [Display for MessageBody] *)
Definition body_display (b : MessageBody) : string :=
  match b with
  | ClientTransaction _ => "ClientTransaction"
  | Synchronization _ => "Synchronization"
  | BlockProposal _ _ _ _ => "BlockProposal"
  | BlockReject _ => "BlockReject"
  | BlockApproved _ => "BlockApproved"
  | RaftRequestVote _ _ _ _ => "RaftRequestVote"
  | RaftRequestVoteResponse _ _ => "RaftRequestVoteResponse"
  | RaftAppendEntries _ _ _ _ _ _ => "RaftAppendEntries"
  | RaftAppendEntriesResponse _ _ _ => "RaftAppendEntriesResponse"
  end.

(** ** Effects *)

Inductive ConsensusEffect : Type :=
  | StageClientTransaction (client_tx : SignedTransaction)
  | StageRaftEntries (entries : list RaftLogEntry)
  | BroadcastClientTransaction (client_tx : SignedTransaction)
  | ProposeBlock (block_hash : BlockHash)
  | SendRaftAppendEntries (to : PeerId) (term prev_log_index prev_log_term : N)
      (entries : list RaftLogEntry) (leader_commit : N)
  | CommitBlock (block_hash : BlockHash)
  | RollbackBlock (block_hash : BlockHash)
  | Broadcast (body : MessageBody)
  | Send (to : PeerId) (body : MessageBody).

#[export] Instance ConsensusEffect_eq_dec : EqDecision ConsensusEffect.
Proof. solve_decision. Defined.
End messages.

Section peer_ids.
(** A peer id in the range of ports is its own port offset, any other is
    refused. *)
Lemma try_into_u16_bound id n : PeerId_try_into_u16 id = Ok n → n = id ∧ n < u16_modulus.
Proof. unfold PeerId_try_into_u16. case_decide; naive_solver. Qed.

Lemma parse_int_digits_bound m s acc n :
  acc < m → parse_int_digits m s acc = Ok n → n < m.
Proof.
  revert acc. induction s as [|c s IH]; intros acc Ha; cbn; [naive_solver|].
  destruct (is_ascii_digit c); [|done]. case_decide; [|done]. by apply IH.
Qed.

(** A parsed id fits the width. *)
Lemma PeerId_from_str_bound s n : PeerId_from_str s = Ok n → n < u32_modulus.
Proof.
  unfold PeerId_from_str, parse_int. destruct s as [|c s]; [done|]. repeat case_match; try done;
    intros [= <-]; by eapply parse_int_digits_bound; [|done].
Qed.
End peer_ids.
