(* ===== verification/RaftLogStore.v ===== *)
(** * peer/consensus/raft_log_store.rs: what survives a restart

    The log and the commit index, in a file or in memory. *)

From S2P Require Import Prelude Platform Transactions Storage Messages.

Definition RAFT_LOG_FILENAME : string := "raft_log.json".

Record RaftLogState : Type := mkRaftLogState {
  rls_log : list RaftLogEntry;
  rls_commit_index : option N;
}.

Record PersistedRaftLogState : Type := mkPersistedRaftLogState {
  persisted_log : list RaftLogEntry;
  persisted_commit_index : N;
}.

Record FileRaftLogStore : Type := mkFileRaftLogStore {
  store_path : FilePath;
}.

Record InMemoryRaftLogStore : Type := mkInMemoryRaftLogStore {
  mem_log : list RaftLogEntry;
  mem_commit_index : option N;
}.

Inductive AnyRaftLogStore : Type :=
  | File (store : FileRaftLogStore)
  | InMemory (store : InMemoryRaftLogStore).

(** [FileRaftLogStore::new] and [InMemoryRaftLogStore::new] *)
Definition FileRaftLogStore_new (peer_dir : string) : FileRaftLogStore :=
  mkFileRaftLogStore (peer_dir, RAFT_LOG_FILENAME).
Definition InMemoryRaftLogStore_new : InMemoryRaftLogStore := mkInMemoryRaftLogStore [] None.

Module RaftLogStore.
Section store.
Context {P : Platform} `{!Serde PersistedRaftLogState}.

Definition load_file (store : FileRaftLogStore) (d : Disk) : result RaftLogState string :=
  let path := store_path store in
  if path_exists d path then
    match fs_read d path with
    | Error e =>
        Error ("Failed to read Raft log " +:+ path_display path +:+ ": " +:+ io_error_display e)
    | Ok contents =>
        match from_slice contents with
        | Error e =>
            Error ("Failed to deserialize Raft log " +:+ path_display path +:+ ": " +:+ e)
        | Ok stored =>
            Ok (mkRaftLogState (persisted_log stored) (Some (persisted_commit_index stored)))
        end
    end
  else Ok (mkRaftLogState [] None).

Definition load_memory (store : InMemoryRaftLogStore) : result RaftLogState string :=
  Ok (mkRaftLogState (mem_log store) (mem_commit_index store)).

Definition load (store : AnyRaftLogStore) (d : Disk) : result RaftLogState string :=
  match store with
  | File store => load_file store d
  | InMemory store => load_memory store
  end.

(** The parent of the file is the directory of its path. *)
Definition save_file (store : FileRaftLogStore) (log : list RaftLogEntry) (commit_index : N) : M Disk string unit :=
  let path := store_path store in
  map_err (λ e, "Failed to create Raft log directory " +:+ path.1 +:+ ": " +:+ io_error_display e)
    (create_dir_all path.1) ;;;
  map_err (λ e, "Failed to write Raft log " +:+ path_display path +:+ ": " +:+ io_error_display e)
    (fs_write path (to_vec (mkPersistedRaftLogState log commit_index))).

(** It replaces what was saved before. *)
Definition save_memory (store : InMemoryRaftLogStore) (log : list RaftLogEntry) (commit_index : N) : InMemoryRaftLogStore :=
  mkInMemoryRaftLogStore log (Some commit_index).

Definition save (store : AnyRaftLogStore) (log : list RaftLogEntry) (commit_index : N) : M Disk string AnyRaftLogStore :=
  match store with
  | File store => save_file store log commit_index ;;; ret (File store)
  | InMemory store => ret (InMemory (save_memory store log commit_index))
  end.

(** What a successful save leaves is what a load returns. *)
Lemma save_load `{!SerdeLaws PersistedRaftLogState} store log ci d store' d' :
  save store log ci d = Ret store' d' →
  (∀ f, store = File f → store_path f ∉ read_faults d) →
  load store' d' = Ok (mkRaftLogState log (Some ci)).
Proof.
  destruct store as [f|m]; cbn; [|by intros [= <- <-]].
  intros ([] & d1 & Hs & [= <- <-])%bind_Ret Hf. specialize (Hf f eq_refl). cbn.
  unfold save_file in Hs. apply bind_Ret in Hs as ([] & d0 & Hc & Hw).
  assert (Hr : read_faults d0 = read_faults d).
  { revert Hc. unfold map_err, create_dir_all. case_decide; [done|].
    destruct (dirs d !! _); cbn; intros Hc; simplify_eq; done. }
  unfold map_err in Hw. destruct (fs_write _ _ d0) as [[] d2| |] eqn:Ew; [|done..].
  injection Hw as <-. apply fs_write_Ret in Ew as (_ & Hd & ->).
  pose proof (file_at_store_file_eq d0 (store_path f)
    (to_vec (mkPersistedRaftLogState log ci)) Hd) as Hat.
  unfold load_file, path_exists. rewrite Hat.
  rewrite (proj2 (fs_read_spec _ _ (to_vec (mkPersistedRaftLogState log ci)))).
  - by rewrite from_slice_to_vec.
  - split; [|done]. cbn. by rewrite Hr.
Qed.

Lemma save_no_panic store log ci d : save store log ci d ≠ Panic.
Proof.
  destruct store as [f|m]; [|done]. cbn. unfold bind, save_file, bind, map_err.
  destruct (create_dir_all _ d) eqn:E; [..|revert E; unfold create_dir_all; repeat case_match; done].
  - pose proof (fs_write_no_panic (store_path f) (to_vec (mkPersistedRaftLogState log ci)) s).
    by destruct (fs_write _ _ s).
  - done.
Qed.
End store.

#[global] Arguments save : simpl never.
End RaftLogStore.
