(* ===== verification/Raft.v ===== *)
(** * peer/consensus/raft.rs, raft/election.rs and raft/replication.rs

    [RaftConsensus], one definition per method.  A method that writes the log
    store does so on the disk, which the peer shares with its block keeper, so
    the handlers run on a consensus state with a disk ([RaftS]).  Time is an
    argument ([now], in nanoseconds), as in the code; a random draw is an
    argument of the methods that may take one. *)

From S2P Require Import Prelude Platform Crypto Transactions Storage Messages RaftLogStore.

(** ** Constants and data *)

Definition MAX_APPEND_ENTRIES : nat := 5.

Definition nanos_of_secs (n : N) : N := n * 1000000000.
Definition nanos_of_millis (n : N) : N := n * 1000000.

Definition DEFAULT_HEARTBEAT_INTERVAL : N := nanos_of_secs 5.
Definition DEFAULT_ELECTION_TIMEOUT : N := nanos_of_secs 10.
Definition DEFAULT_ELECTION_TIMEOUT_JITTER : N := nanos_of_secs 5.

(** [Instant::duration_since], which saturates. *)
Definition duration_since (now earlier : N) : N := now - earlier.

Inductive RaftRole : Type := Follower | Candidate | Leader.
#[export] Instance RaftRole_eq_dec : EqDecision RaftRole.
Proof. solve_decision. Defined.

Inductive VoteResponse : Type := Granted | Rejected.
#[export] Instance VoteResponse_eq_dec : EqDecision VoteResponse.
Proof. solve_decision. Defined.

Record AppendEntriesRequest `{Platform} : Type := mkAppendEntriesRequest {
  req_term : N;
  req_leader_id : PeerId;
  req_prev_log_index : N;
  req_prev_log_term : N;
  req_entries : list RaftReplicatedBlock;
  req_leader_commit : N;
  req_from : PeerId;
  req_now : N;
}.
Arguments mkAppendEntriesRequest {_}.

Record RaftConsensus `{Platform} : Type := mkRaftConsensus {
  peer_id : PeerId;
  participants : gset PeerId;
  current_term : N;
  voted_for : option PeerId;
  leader_id : option PeerId;
  role : RaftRole;
  votes_received : gset PeerId;
  heartbeat_interval : N;
  election_timeout_base : N;
  election_timeout_jitter : N;
  current_election_timeout : N;
  last_heartbeat_received_at : N;
  last_heartbeat_sent_at : option N;
  log : list RaftLogEntry;
  raft_log_store : AnyRaftLogStore;
  commit_index : N;
  match_indexes : gmap PeerId N;
  pending_blocks : gmap BlockHash BlockFile;
}.
Arguments mkRaftConsensus {_}.
#[export] Instance eta_raft `{Platform} : Settable RaftConsensus := λ r,
  mkRaftConsensus (peer_id r) (participants r) (current_term r) (voted_for r) (leader_id r)
    (role r) (votes_received r) (heartbeat_interval r) (election_timeout_base r)
    (election_timeout_jitter r) (current_election_timeout r) (last_heartbeat_received_at r)
    (last_heartbeat_sent_at r) (log r) (raft_log_store r) (commit_index r)
    (match_indexes r) (pending_blocks r).

(** A consensus state with the disk its log store works on. *)
Record RaftS `{Platform} : Type := mkRaftS {
  raft : RaftConsensus;
  raft_disk : Disk;
}.
Arguments mkRaftS {_}.
#[export] Instance eta_rafts `{Platform} : Settable RaftS := λ s, mkRaftS (raft s) (raft_disk s).

(** [ConsensusState::Raft] of peer/consensus.rs, with [RaftRoleState]. *)
Record RaftPublicState : Type := mkRaftPublicState {
  ps_role : RaftRole;
  ps_term : N;
  ps_leader_id : option PeerId;
  ps_commit_index : N;
  ps_last_log_index : N;
}.
#[export] Instance RaftPublicState_eq_dec : EqDecision RaftPublicState.
Proof. solve_decision. Defined.

Definition random_election_timeout `{Platform} (draw base jitter : N) : N :=
  if decide (jitter = 0) then base
  else
    let jitter_millis := jitter / 1000000 in
    let jitter := if decide (jitter_millis < u64_modulus) then jitter_millis else u64_modulus - 1 in
    base + nanos_of_millis (random_range draw 0 jitter).

Module RaftConsensus.

(** ** Reading the log *)

Section reading.
Context {P : Platform}.
Implicit Types (r : RaftConsensus).

Definition last_log_index r : N := match last (log r) with Some e => index e | None => 0 end.
Definition last_log_term r : N := match last (log r) with Some e => term e | None => 0 end.

(** [iter().find(..)] *)
Fixpoint find_entry (l : list RaftLogEntry) (i : N) : option RaftLogEntry :=
  match l with
  | [] => None
  | e :: l => if decide (index e = i) then Some e else find_entry l i
  end.
Definition log_entry r (i : N) : option RaftLogEntry := find_entry (log r) i.

Definition term_at r (i : N) : option N :=
  if decide (i = 0) then Some 0 else term <$> log_entry r i.

Definition max_option (l : list N) : option N :=
  match l with [] => None | x :: l => Some (foldr N.max x l) end.

Definition matching_index_for r (prev_log_index prev_log_term : N) (entries : list RaftLogEntry) : N :=
  let previous_match :=
    if decide (term_at r prev_log_index = Some prev_log_term) then prev_log_index else 0 in
  default previous_match
    (max_option (index <$> filter (λ e, term_at r (index e) = Some (term e)) entries)).

Definition majority r : nat := (size (participants r) / 2 + 1)%nat.

Definition candidate_log_is_up_to_date r (index term : N) : bool :=
  bool_decide (last_log_term r < term) ||
  (bool_decide (term = last_log_term r) && bool_decide (last_log_index r ≤ index)).

Definition leader_timed_out r (now : N) : bool :=
  bool_decide (current_election_timeout r ≤ duration_since now (last_heartbeat_received_at r)).

Definition heartbeat_due r (now : N) : bool :=
  match last_heartbeat_sent_at r with
  | None => true
  | Some last_sent_at => bool_decide (heartbeat_interval r ≤ duration_since now last_sent_at)
  end.

Definition ensure_no_uncommitted_block r : result unit string :=
  if existsb (λ e, bool_decide (commit_index r < index e) && negb (is_noop e)) (log r)
  then Error "Raft leader already has an uncommitted block"
  else Ok tt.

Definition append_entries_response r (to : PeerId) (success : bool) (match_index : N) : ConsensusEffect :=
  Send to (RaftAppendEntriesResponse (current_term r) success match_index).

Definition append_entries_effect_for r (peer : PeerId) : option ConsensusEffect :=
  let peer_match_index := default 0 (match_indexes r !! peer) in
  let prev_log_index := N.min peer_match_index (last_log_index r) in
  prev_log_term ← term_at r prev_log_index;
  let entries := take MAX_APPEND_ENTRIES (filter (λ e, prev_log_index < index e) (log r)) in
  Some (SendRaftAppendEntries peer (current_term r) prev_log_index prev_log_term entries
          (commit_index r)).

Definition append_entries_effects_for_followers {HO : HashOrder} r : list ConsensusEffect :=
  omap (append_entries_effect_for r) (filter (λ p, p ≠ peer_id r) (set_order (participants r))).

(** The [CommitBlock] effects for the entries above [from] up to the commit index. *)
Definition commit_effects r (from : N) : list ConsensusEffect :=
  (λ e, CommitBlock (block_hash e)) <$>
    filter (λ e, is_noop e = false)
      (filter (λ e, from < index e ∧ index e ≤ commit_index r) (log r)).

Definition state r : RaftPublicState :=
  mkRaftPublicState (role r) (current_term r) (leader_id r) (commit_index r) (last_log_index r).
End reading.

(** ** Construction *)

Section construction.
Context {P : Platform} `{!Serde PersistedRaftLogState}.

Definition new_with_log (draw now : N) (id : PeerId) (entries : list RaftLogEntry) (ci : N)
    (store : AnyRaftLogStore) : RaftConsensus :=
  {| peer_id := id;
     participants := {[ id ]};
     current_term := 0;
     voted_for := None;
     leader_id := None;
     role := Follower;
     votes_received := ∅;
     heartbeat_interval := DEFAULT_HEARTBEAT_INTERVAL;
     election_timeout_base := DEFAULT_ELECTION_TIMEOUT;
     election_timeout_jitter := DEFAULT_ELECTION_TIMEOUT_JITTER;
     current_election_timeout :=
       random_election_timeout draw DEFAULT_ELECTION_TIMEOUT DEFAULT_ELECTION_TIMEOUT_JITTER;
     last_heartbeat_received_at := now;
     last_heartbeat_sent_at := None;
     log := entries;
     raft_log_store := store;
     commit_index := N.min ci (match last entries with Some e => index e | None => 0 end);
     match_indexes := ∅;
     pending_blocks := ∅ |}.

Definition new_with_storage (draw now : N) (id : PeerId) (store : AnyRaftLogStore) (ci : N)
    (d : Disk) : result RaftConsensus string :=
  match RaftLogStore.load store d with
  | Error e => Error e
  | Ok persisted =>
      Ok (new_with_log draw now id (rls_log persisted) (default ci (rls_commit_index persisted)) store)
  end.

(** [RaftConsensus::new]: the in-memory store cannot fail to load. *)
Definition new (draw now : N) (id : PeerId) (d : Disk) : option RaftConsensus :=
  match new_with_storage draw now id (InMemory InMemoryRaftLogStore_new) 0 d with
  | Ok r => Some r
  | Error _ => None
  end.
End construction.

(** ** election.rs *)

Section election.
Context {BP : BuildProfile} {P : Platform}.

Definition RaftM := M RaftS.

Definition update {E} (f : RaftConsensus → RaftConsensus) : RaftM E unit :=
  modify (λ s, s <| raft ::= f |>).

Definition update_participants {E} (known_peers : list PeerId) : RaftM E unit :=
  let* r := gets raft in
  let members : gset PeerId := {[ peer_id r ]} ∪ list_to_set known_peers in
  update (λ r, r <| participants := members |>) ;;;
  update (λ r, r <| votes_received ::= filter (λ p, p ∈ members) |>) ;;;
  update (λ r, r <| match_indexes ::= filter (λ kv, kv.1 ∈ members) |>).

Definition step_down {E} (t : N) : RaftM E unit :=
  update (λ r, r <| current_term := t |> <| role := Follower |> <| voted_for := None |>
                 <| leader_id := None |> <| votes_received := ∅ |>).

Definition step_down_on_newer_term {E} (t : N) : RaftM E unit :=
  let* r := gets raft in
  if decide (current_term r < t) then step_down t else ret tt.

Definition become_leader_if_majority {E} : RaftM E bool :=
  let* r := gets raft in
  if decide (majority r ≤ size (votes_received r))%nat then
    update (λ r, r <| role := Leader |> <| leader_id := Some (peer_id r) |>
                   <| last_heartbeat_sent_at := None |>
                   <| match_indexes := set_to_map (λ p,
                        (p, if decide (p = peer_id r) then last_log_index r else 0))
                        (participants r) |>) ;;;
    ret true
  else ret false.

Definition start_election_at {E} (now : N) : RaftM E bool :=
  let* r := gets raft in
  let* t := add_u64 (current_term r) 1 in
  update (λ r, r <| current_term := t |> <| role := Candidate |>
                 <| voted_for := Some (peer_id r) |> <| leader_id := None |>
                 <| votes_received := {[ peer_id r ]} |>
                 <| last_heartbeat_received_at := now |> <| last_heartbeat_sent_at := None |>) ;;;
  become_leader_if_majority.

Definition request_vote {E} (t : N) (candidate : PeerId) (last_index last_term : N) : RaftM E VoteResponse :=
  let* r := gets raft in
  if decide (t < current_term r) then ret Rejected
  else
    (if decide (current_term r < t) then step_down t else ret tt) ;;;
    let* r := gets raft in
    if negb (candidate_log_is_up_to_date r last_index last_term) then ret Rejected
    else
      match voted_for r with
      | Some v =>
          if decide (v ≠ candidate) then ret Rejected
          else update (λ r, r <| voted_for := Some candidate |>) ;;; ret Granted
      | None => update (λ r, r <| voted_for := Some candidate |>) ;;; ret Granted
      end.

Definition receive_vote {E} (t : N) (voter : PeerId) (granted : bool) : RaftM E bool :=
  let* r := gets raft in
  if decide (current_term r < t) then step_down t ;;; ret false
  else if decide (role r ≠ Candidate ∨ t ≠ current_term r ∨ granted = false) then ret false
  else if decide (voter ∈ participants r) then
    update (λ r, r <| votes_received ::= union {[ voter ]} |>) ;;;
    become_leader_if_majority
  else ret false.

Definition reset_election_timeout {E} (draw : N) : RaftM E unit :=
  update (λ r, r <| current_election_timeout :=
    random_election_timeout draw (election_timeout_base r) (election_timeout_jitter r) |>).

Definition receive_append_entries_at {E} (draw t : N) (leader sender : PeerId) (now : N) : RaftM E bool :=
  let* r := gets raft in
  if decide (sender ≠ leader ∨ leader ∉ participants r) then ret false
  else if decide (t < current_term r) then ret false
  else
    (if decide (current_term r < t) then step_down t else ret tt) ;;;
    let* r := gets raft in
    if match leader_id r with Some l => bool_decide (l ≠ leader) | None => false end
       && negb (leader_timed_out r now)
    then ret false
    else
      let leader_changed := bool_decide (leader_id r ≠ Some leader) in
      update (λ r, r <| role := Follower |> <| leader_id := Some leader |>
                     <| votes_received := ∅ |> <| last_heartbeat_received_at := now |>) ;;;
      (if leader_changed then reset_election_timeout draw else ret tt) ;;;
      ret true.
End election.

(** ** replication.rs *)

Section replication.
Context {BP : BuildProfile} {P : Platform} {HO : HashOrder}.
Implicit Types (r : RaftConsensus).
Context `{!Serde PersistedRaftLogState, !Serde (list SignedTransaction), !Serde BlockFile}.

(** Storing the log and the commit index; the store lives in the state, so
    the in-memory store is updated there. *)
Definition persist_log : RaftM string unit := λ s,
  let r := raft s in
  match RaftLogStore.save (raft_log_store r) (log r) (commit_index r) (raft_disk s) with
  | Ret store d => Ret tt (mkRaftS (r <| raft_log_store := store |>) d)
  | Err e d => Err e (mkRaftS r d)
  | Panic => Panic
  end.

(** [iter().enumerate().all(..)]: the sum is evaluated for each entry up to
    the first that differs. *)
Fixpoint entries_are_contiguous_from {S E} (prev_log_index offset : N) (entries : list RaftLogEntry) : M S E bool :=
  match entries with
  | [] => ret true
  | entry :: entries =>
      let* i := add_u64 prev_log_index offset in
      let* i := add_u64 i 1 in
      if decide (index entry = i)
      then entries_are_contiguous_from prev_log_index (offset + 1) entries
      else ret false
  end.
Definition entries_are_contiguous_after {S E} (prev_log_index : N) (entries : list RaftLogEntry) : M S E bool :=
  entries_are_contiguous_from prev_log_index 0 entries.

(** The loop of [append_entries]; [None] is its early return, which keeps
    what earlier turns did to the log. *)
Fixpoint append_loop {E} (entries : list RaftLogEntry) (discarded : list BlockHash) : RaftM E (option (list BlockHash)) :=
  match entries with
  | [] => ret (Some discarded)
  | entry :: entries =>
      let* r := gets raft in
      match log_entry r (index entry) with
      | Some existing =>
          if decide (term existing ≠ term entry) then
            if decide (index entry ≤ commit_index r) then ret None
            else
              let* truncate_at := sub_u64 (index entry) 1 in
              let n := N.to_nat truncate_at in
              let discarded := discarded ++
                (block_hash <$> filter (λ e, is_noop e = false) (drop n (log r))) in
              update (λ r, r <| log ::= take n |>) ;;;
              update (λ r, r <| log ::= λ l, l ++ [entry] |>) ;;;
              append_loop entries discarded
          else append_loop entries discarded
      | None =>
          let* next := add_u64 (last_log_index r) 1 in
          if decide (index entry = next)
          then update (λ r, r <| log ::= λ l, l ++ [entry] |>) ;;; append_loop entries discarded
          else append_loop entries discarded
      end
  end.

Definition append_entries {E} (prev_log_index prev_log_term : N) (entries : list RaftLogEntry)
    (leader_commit : N) : RaftM E (option (list ConsensusEffect)) :=
  let* r := gets raft in
  if decide (term_at r prev_log_index ≠ Some prev_log_term) then ret None
  else
    let* contiguous := entries_are_contiguous_after prev_log_index entries in
    if negb contiguous then ret None
    else
      let previous_commit_index := commit_index r in
      let entries_to_stage :=
        filter (λ e, previous_commit_index < index e ∧ is_noop e = false) entries in
      let* discarded := append_loop entries [] in
      match discarded with
      | None => ret None
      | Some discarded_block_hashes =>
          update (λ r, r <| commit_index :=
            N.max (commit_index r) (N.min leader_commit (last_log_index r)) |>) ;;;
          let* r := gets raft in
          ret (Some (
            (RollbackBlock <$> discarded_block_hashes) ++
            (if decide (entries_to_stage = []) then [] else [StageRaftEntries entries_to_stage]) ++
            commit_effects r previous_commit_index))
      end.

(** The participants known to hold the log up to [i]. *)
Definition replicated_to r (i : N) : gset PeerId :=
  filter (λ p, Is_true match match_indexes r !! p with Some m => i <=? m | None => false end)
    (participants r).

(** An entry above the commit index, of this term, on a majority. *)
Definition committable r (e : RaftLogEntry) : bool :=
  negb (bool_decide (index e ≤ commit_index r)) && bool_decide (term e = current_term r) &&
  bool_decide (majority r ≤ size (replicated_to r (index e)))%nat.

Definition advance_commit_index {E} : RaftM E (list ConsensusEffect) :=
  let* r := gets raft in
  let previous_commit_index := commit_index r in
  match List.find (committable r) (rev (log r)) with
  | Some e => update (λ r, r <| commit_index := index e |>)
  | None => ret tt
  end ;;;
  let* r := gets raft in
  ret (commit_effects r previous_commit_index).

Definition append_local_entry (entry : RaftLogEntry) : RaftM string (list ConsensusEffect) :=
  update (λ r, r <| log ::= λ l, l ++ [entry] |>) ;;;
  update (λ r, r <| match_indexes ::= <[peer_id r := index entry]> |>) ;;;
  let* r := gets raft in
  let effects := append_entries_effects_for_followers r in
  let* committed := advance_commit_index in
  persist_log ;;;
  ret (effects ++ committed).

Definition append_local_block (h : BlockHash) : RaftM string (list ConsensusEffect) :=
  let* r := gets raft in
  of_result (ensure_no_uncommitted_block r) ;;;
  let* i := add_u64 (last_log_index r) 1 in
  append_local_entry (mkRaftLogEntry (current_term r) i h).

Definition append_leader_noop : RaftM string (list ConsensusEffect) :=
  let* r := gets raft in
  let* i := add_u64 (last_log_index r) 1 in
  append_local_entry (noop (current_term r) i).

Definition handle_leader_append_entries_response (t : N) (sender : PeerId) (success : bool)
    (match_index : N) : RaftM string (list ConsensusEffect) :=
  let* r := gets raft in
  if decide (current_term r < t) then step_down t ;;; ret []
  else if decide (t ≠ current_term r ∨ sender ∉ participants r) then ret []
  else if success then
    update (λ r, r <| match_indexes ::= λ m, <[sender := N.max (default 0 (m !! sender)) match_index]> m |>) ;;;
    let* effects := advance_commit_index in
    let* r' := gets raft in
    (if decide (commit_index r' ≠ commit_index r) then persist_log else ret tt) ;;;
    ret effects
  else
    let match_index := N.min match_index (last_log_index r) in
    update (λ r, r <| match_indexes ::= <[sender := match_index]> |>) ;;;
    let* r := gets raft in
    if decide (last_log_index r ≤ match_index) then ret []
    else ret (option_list (append_entries_effect_for r sender)).

(** [validate_replicated_entries] of raft.rs *)
Fixpoint validate_loop (entries : list RaftReplicatedBlock) (log_entries : list RaftLogEntry)
    (blocks : gmap BlockHash BlockFile) : result (list RaftLogEntry * gmap BlockHash BlockFile) string :=
  match entries with
  | [] => Ok (log_entries, blocks)
  | rb :: entries =>
      let entry := rb_entry rb in
      if is_noop entry then
        if decide (rb_block_file rb ≠ []) then
          Error ("Raft no-op entry at index " +:+ pretty (index entry) +:+ " contains a block payload")
        else
          match KeyManager.verify_message (rb_public_key rb) (rb_signature rb) (rb_block_file rb) with
          | Error e => Error e
          | Ok _ => validate_loop entries (log_entries ++ [entry]) blocks
          end
      else
        match BlockFile.verify_block_vec (block_hash entry) (rb_block_file rb) (rb_signature rb)
                (rb_public_key rb) with
        | Error e => Error (verification_error_display e)
        | Ok b => validate_loop entries (log_entries ++ [entry]) (<[block_hash entry := b]> blocks)
        end
  end.
Definition validate_replicated_entries (entries : list RaftReplicatedBlock) :=
  validate_loop entries [] ∅.

(** The validated blocks of the entries to stage move to [pending_blocks]. *)
Fixpoint take_staged (entries : list RaftLogEntry) (blocks pending : gmap BlockHash BlockFile) : gmap BlockHash BlockFile * gmap BlockHash BlockFile :=
  match entries with
  | [] => (blocks, pending)
  | entry :: entries =>
      if is_noop entry then take_staged entries blocks pending
      else
        match blocks !! block_hash entry with
        | Some b =>
            take_staged entries (delete (block_hash entry) blocks)
              (<[block_hash entry := b]> pending)
        | None => take_staged entries blocks pending
        end
  end.
Fixpoint remember_staged (effects : list ConsensusEffect) (blocks pending : gmap BlockHash BlockFile) : gmap BlockHash BlockFile :=
  match effects with
  | [] => pending
  | StageRaftEntries entries :: effects =>
      let '(blocks, pending) := take_staged entries blocks pending in
      remember_staged effects blocks pending
  | _ :: effects => remember_staged effects blocks pending
  end.

Definition handle_append_entries (draw : N) (req : AppendEntriesRequest) : RaftM string (list ConsensusEffect) :=
  let* accepted := receive_append_entries_at draw (req_term req) (req_leader_id req)
                     (req_from req) (req_now req) in
  let* r := gets raft in
  if negb accepted then
    ret [append_entries_response r (req_from req) false
           (matching_index_for r (req_prev_log_index req) (req_prev_log_term req) [])]
  else
    match validate_replicated_entries (req_entries req) with
    | Error _ =>
        ret [append_entries_response r (req_from req) false
               (matching_index_for r (req_prev_log_index req) (req_prev_log_term req) [])]
    | Ok (log_entries, blocks) =>
        let match_index :=
          matching_index_for r (req_prev_log_index req) (req_prev_log_term req) log_entries in
        let accepted_match_index :=
          match last log_entries with Some e => index e | None => req_prev_log_index req end in
        let log_changed := bool_decide (req_prev_log_index req < accepted_match_index) in
        let previous_commit_index := commit_index r in
        let* appended := append_entries (req_prev_log_index req) (req_prev_log_term req)
                           log_entries (req_leader_commit req) in
        match appended with
        | None =>
            let* r := gets raft in
            ret [append_entries_response r (req_from req) false match_index]
        | Some effects =>
            update (λ r, r <| pending_blocks ::= remember_staged effects blocks |>) ;;;
            let* r := gets raft in
            let effects := effects ++
              [append_entries_response r (req_from req) true accepted_match_index] in
            (if log_changed || bool_decide (commit_index r ≠ previous_commit_index)
             then persist_log else ret tt) ;;;
            ret effects
        end
    end.
End replication.

(** ** raft.rs: the handlers *)

Section handlers.
Context {BP : BuildProfile} {P : Platform} {HO : HashOrder}.
Context `{!Serde PersistedRaftLogState, !Serde (list SignedTransaction), !Serde BlockFile}.

Definition forward_client_transaction (client_tx : SignedTransaction) : RaftM string (list ConsensusEffect) :=
  let* r := gets raft in
  let* leader := ok_or "Raft leader is unknown" (leader_id r) in
  ret [Send leader (ClientTransaction client_tx)].

Definition on_client_transaction (client_tx : SignedTransaction) : RaftM string (list ConsensusEffect) :=
  let* r := gets raft in
  match role r with
  | Leader =>
      of_result (ensure_no_uncommitted_block r) ;;;
      ret [StageClientTransaction client_tx]
  | Follower | Candidate => forward_client_transaction client_tx
  end.

Definition on_block_created (h : BlockHash) : RaftM string (list ConsensusEffect) :=
  let* r := gets raft in
  match role r with
  | Leader => append_local_block h
  | Follower | Candidate => ret []
  end.

Definition on_tick (now : N) (known_peers : list PeerId) : RaftM string (list ConsensusEffect) :=
  update_participants known_peers ;;;
  let* r := gets raft in
  if decide (role r = Leader) then
    if heartbeat_due r now then
      update (λ r, r <| last_heartbeat_sent_at := Some now |>) ;;;
      let* r := gets raft in
      ret (append_entries_effects_for_followers r)
    else ret []
  else if decide (current_election_timeout r ≤ duration_since now (last_heartbeat_received_at r)) then
    let* became_leader := start_election_at now in
    let* r := gets raft in
    let effects := [Broadcast (RaftRequestVote (current_term r) (peer_id r)
                                 (last_log_index r) (last_log_term r))] in
    if became_leader : bool then
      let* more := append_leader_noop in
      ret (effects ++ more)
    else ret effects
  else ret [].

Definition on_request_vote (t : N) (candidate : PeerId) (last_index last_term : N) (sender : PeerId) : RaftM string (list ConsensusEffect) :=
  let* response := request_vote t candidate last_index last_term in
  let* r := gets raft in
  ret [Send sender (RaftRequestVoteResponse (current_term r) (bool_decide (response = Granted)))].

Definition on_request_vote_response (t : N) (voter : PeerId) (vote_granted : bool) : RaftM string (list ConsensusEffect) :=
  let* r := gets raft in
  if decide (role r = Candidate) then
    let* won := receive_vote t voter vote_granted in
    if won : bool then append_leader_noop else ret []
  else
    step_down_on_newer_term t ;;;
    ret [].

Definition on_append_entries (draw t : N) (leader : PeerId) (prev_log_index prev_log_term : N)
    (entries : list RaftReplicatedBlock) (leader_commit : N) (sender : PeerId) (now : N) : RaftM string (list ConsensusEffect) :=
  handle_append_entries draw (mkAppendEntriesRequest t leader prev_log_index prev_log_term
    entries leader_commit sender now).

Definition on_append_entries_response (t : N) (sender : PeerId) (success : bool) (match_index : N) : RaftM string (list ConsensusEffect) :=
  let* r := gets raft in
  if decide (role r = Leader)
  then handle_leader_append_entries_response t sender success match_index
  else
    step_down_on_newer_term t ;;;
    ret [].

Definition take_pending_block {E} (h : BlockHash) : RaftM E (option BlockFile) :=
  let* r := gets raft in
  update (λ r, r <| pending_blocks ::= delete h |>) ;;;
  ret (pending_blocks r !! h).
End handlers.

#[global] Arguments update_participants : simpl never.
#[global] Arguments step_down : simpl never.
#[global] Arguments step_down_on_newer_term : simpl never.
#[global] Arguments become_leader_if_majority : simpl never.
#[global] Arguments start_election_at : simpl never.
#[global] Arguments request_vote : simpl never.
#[global] Arguments receive_vote : simpl never.
#[global] Arguments receive_append_entries_at : simpl never.
#[global] Arguments persist_log : simpl never.
#[global] Arguments append_entries : simpl never.
#[global] Arguments advance_commit_index : simpl never.
#[global] Arguments append_local_entry : simpl never.
#[global] Arguments append_local_block : simpl never.
#[global] Arguments append_leader_noop : simpl never.
#[global] Arguments handle_leader_append_entries_response : simpl never.
#[global] Arguments handle_append_entries : simpl never.
#[global] Arguments on_client_transaction : simpl never.
#[global] Arguments on_block_created : simpl never.
#[global] Arguments on_tick : simpl never.
#[global] Arguments on_request_vote : simpl never.
#[global] Arguments on_request_vote_response : simpl never.
#[global] Arguments on_append_entries : simpl never.
#[global] Arguments on_append_entries_response : simpl never.
#[global] Arguments take_pending_block : simpl never.
End RaftConsensus.
