(* ===== verification/RaftFacts.v ===== *)
(** * The Raft log: contiguity, merging, the commit index

    [raft_wf] is the representation invariant of [RaftConsensus].  Its main
    part is that the entry of index [i] sits at position [i - 1] of the log,
    which turns the code's searches into lookups.  [merge] is the log that
    appending a leader's entries is meant to produce; [append_loop_spec]
    shows the code computes it and never reaches below the commit index. *)

From S2P Require Import Prelude Platform Transactions Storage Messages RaftLogStore Raft.

(** ** Contiguous logs *)

Definition contiguous (l : list RaftLogEntry) : Prop :=
  ∀ i e, l !! i = Some e → index e = N.of_nat i + 1.

(** Entries numbered from [p + 1] on. *)
Definition contiguous_after (p : N) (l : list RaftLogEntry) : Prop :=
  ∀ i e, l !! i = Some e → index e = p + N.of_nat i + 1.

Definition lookup_index (l : list RaftLogEntry) (i : N) : option RaftLogEntry :=
  if decide (i = 0) then None else l !! N.to_nat (i - 1).

Lemma contiguous_after_cons p e l :
  contiguous_after p (e :: l) ↔ index e = p + 1 ∧ contiguous_after (p + 1) l.
Proof.
  split.
  - intros H. split; [specialize (H O e eq_refl); lia|]. intros i x Hx.
    specialize (H (S i) x Hx). lia.
  - intros [He H] [|i] x; cbn; [intros [= <-]; lia|]. intros Hx. specialize (H i x Hx). lia.
Qed.

Lemma contiguous_app l1 l2 :
  contiguous l1 → contiguous_after (N.of_nat (length l1)) l2 → contiguous (l1 ++ l2).
Proof.
  intros H1 H2 i e. rewrite lookup_app_Some. intros [Hi|[Hl Hi]]; [auto|].
  specialize (H2 _ _ Hi). lia.
Qed.

Lemma contiguous_take n l : contiguous l → contiguous (take n l).
Proof. intros H i e. rewrite lookup_take_Some. intros [Hi _]. auto. Qed.

Lemma contiguous_snoc l e : contiguous l → index e = N.of_nat (length l) + 1 → contiguous (l ++ [e]).
Proof.
  intros Hl He. apply contiguous_app; [done|]. apply contiguous_after_cons. split; [done|].
  intros i x. by rewrite lookup_nil.
Qed.

Section log_lemmas.
Context {P : Platform}.
Implicit Types (r : RaftConsensus) (l : list RaftLogEntry).
Import RaftConsensus.

Lemma find_entry_after p l i :
  contiguous_after p l →
  find_entry l i = if decide (p < i) then l !! N.to_nat (i - p - 1) else None.
Proof.
  revert p. induction l as [|e l IH]; intros p; cbn.
  - intros _. by case_decide; rewrite ?lookup_nil.
  - intros [He Hl]%contiguous_after_cons. case_decide as Hi.
    + rewrite decide_True by lia. by replace (N.to_nat (i - p - 1)) with O by lia.
    + rewrite (IH (p + 1)) by done. repeat case_decide; try lia; [|done].
      replace (N.to_nat (i - p - 1)) with (S (N.to_nat (i - (p + 1) - 1))) by lia. done.
Qed.

Lemma contiguous_after_0 l : contiguous l → contiguous_after 0 l.
Proof. intros H i e Hi. specialize (H i e Hi). lia. Qed.

Lemma log_entry_lookup r i : contiguous (log r) → log_entry r i = lookup_index (log r) i.
Proof.
  intros H. unfold log_entry, lookup_index.
  rewrite (find_entry_after 0) by by apply contiguous_after_0.
  repeat case_decide; try lia; [|done]. f_equal. lia.
Qed.

Lemma last_log_index_length r : contiguous (log r) → last_log_index r = N.of_nat (length (log r)).
Proof.
  intros H. unfold last_log_index. rewrite last_lookup.
  destruct (log r !! pred (length (log r))) as [e|] eqn:E.
  - rewrite (H _ _ E). apply lookup_lt_Some in E. lia.
  - apply lookup_ge_None in E. destruct (log r); [done|cbn in E; lia].
Qed.

Lemma lookup_index_Some l i e : lookup_index l i = Some e → 0 < i ∧ i ≤ N.of_nat (length l).
Proof.
  unfold lookup_index. case_decide; [done|]. intros Hl%lookup_lt_Some. lia.
Qed.

Lemma lookup_index_None l i : lookup_index l i = None → i = 0 ∨ N.of_nat (length l) < i.
Proof.
  unfold lookup_index. case_decide; [tauto|]. intros Hl%lookup_ge_None. lia.
Qed.

Lemma lookup_index_take l i n :
  i ≤ N.of_nat n → lookup_index (take n l) i = lookup_index l i.
Proof.
  intros Hi. unfold lookup_index. case_decide; [done|]. apply lookup_take_lt. lia.
Qed.

Lemma lookup_index_app_l l1 l2 i :
  i ≤ N.of_nat (length l1) → lookup_index (l1 ++ l2) i = lookup_index l1 i.
Proof. intros Hi. unfold lookup_index. case_decide; [done|]. apply lookup_app_l. lia. Qed.

(** The entries above an index are the log without its first entries. *)
Lemma entries_above l p : contiguous l → filter (λ e, p < index e) l = drop (N.to_nat p) l.
Proof.
  intros Hl. rewrite <-(take_drop (N.to_nat p) l) at 1. rewrite filter_app.
  rewrite filter_drops, filter_keeps; [done|..].
  - apply Forall_lookup. intros i e. rewrite lookup_drop. intros Hi. specialize (Hl _ _ Hi). lia.
  - apply Forall_lookup. intros i e [Hi ?]%lookup_take_Some. specialize (Hl _ _ Hi). lia.
Qed.

(** ** The log after a leader's entries are appended *)

Fixpoint merge (l : list RaftLogEntry) (entries : list RaftLogEntry) : list RaftLogEntry :=
  match entries with
  | [] => l
  | e :: entries =>
      match lookup_index l (index e) with
      | Some x =>
          if decide (term x = term e) then merge l entries
          else merge (take (N.to_nat (index e - 1)) l ++ [e]) entries
      | None => merge (l ++ [e]) entries
      end
  end.

(** The entry of [entries] that disagrees first with the log. *)
Definition conflicts (l : list RaftLogEntry) (e : RaftLogEntry) : Prop :=
  ∃ x, lookup_index l (index e) = Some x ∧ term x ≠ term e.

Lemma merge_contiguous l entries p :
  contiguous l → contiguous_after p entries → p ≤ N.of_nat (length l) →
  contiguous (merge l entries).
Proof.
  revert l p. induction entries as [|e entries IH]; intros l p Hl He Hp; cbn; [done|].
  apply contiguous_after_cons in He as [Hi He].
  destruct (lookup_index l (index e)) as [x|] eqn:E.
  - pose proof (lookup_index_Some _ _ _ E) as [H0 Hle]. case_decide.
    + eapply IH; [done..|lia].
    + eapply IH; [|done|].
      * apply contiguous_snoc; [by apply contiguous_take|]. rewrite length_take. lia.
      * rewrite length_app, length_take. cbn. lia.
  - apply lookup_index_None in E. eapply IH; [|done|].
    + apply contiguous_snoc; [done|lia].
    + rewrite length_app. cbn. lia.
Qed.

Lemma merge_length l entries p :
  contiguous_after p entries → p ≤ N.of_nat (length l) →
  p + N.of_nat (length entries) ≤ N.of_nat (length (merge l entries)).
Proof.
  revert l p. induction entries as [|e entries IH]; intros l p He Hp; cbn; [lia|].
  apply contiguous_after_cons in He as [Hi He].
  destruct (lookup_index l (index e)) as [x|] eqn:E.
  - pose proof (lookup_index_Some _ _ _ E) as [H0 Hle]. case_decide.
    + specialize (IH l (p + 1) He). lia.
    + etrans; [|apply (IH _ (p + 1)); [done|]]; [lia|].
      rewrite length_app, length_take. cbn. lia.
  - apply lookup_index_None in E. etrans; [|apply (IH _ (p + 1)); [done|]]; [lia|].
    rewrite length_app. cbn. lia.
Qed.

(** Merging only replaces from the first conflict on. *)
Lemma merge_prefix l entries p n :
  contiguous_after p entries → p ≤ N.of_nat (length l) →
  n ≤ N.of_nat (length l) →
  (∀ e, e ∈ entries → index e ≤ n → ¬ conflicts l e) →
  take (N.to_nat n) (merge l entries) = take (N.to_nat n) l.
Proof.
  revert l p. induction entries as [|e entries IH]; intros l p He Hp Hn Hc; cbn; [done|].
  apply contiguous_after_cons in He as [Hi He].
  assert (Hstep : ∀ l', N.of_nat (length l) ≤ N.of_nat (length l') ∨ n ≤ N.of_nat (length l') →
    p + 1 ≤ N.of_nat (length l') → n ≤ N.of_nat (length l') →
    take (N.to_nat n) l' = take (N.to_nat n) l →
    take (N.to_nat n) (merge l' entries) = take (N.to_nat n) l).
  { intros l' _ Hp' Hn' Heq. rewrite (IH l' (p + 1)); [done..|].
    intros e' He' Hle (x & Hx & Hne). apply (Hc e'); [by right|done|]. exists x. split; [|done].
    rewrite <-(lookup_index_take l (index e') (N.to_nat n)) by lia.
    rewrite <-Heq. by rewrite lookup_index_take by lia. }
  destruct (lookup_index l (index e)) as [x|] eqn:E.
  - pose proof (lookup_index_Some _ _ _ E) as [H0 Hle]. case_decide as Ht.
    + apply Hstep; [by left|lia|done|done].
    + assert (n < index e).
      { destruct (decide (index e ≤ n)); [|lia]. exfalso. apply (Hc e); [left|done|].
        exists x. done. }
      apply Hstep; rewrite ?length_app, ?length_take; cbn; [right; lia|lia|lia|].
      rewrite take_app_le by (rewrite length_take; lia).
      rewrite take_take. f_equal. lia.
  - apply lookup_index_None in E. apply Hstep; rewrite ?length_app; cbn; [left; lia|lia|lia|].
    by rewrite take_app_le by lia.
Qed.

(** Afterwards the log agrees with the entries on their terms. *)
Lemma merge_agrees l entries p :
  contiguous_after p entries → p ≤ N.of_nat (length l) →
  ∀ e, e ∈ entries → ∃ x, lookup_index (merge l entries) (index e) = Some x ∧ term x = term e.
Proof.
  revert l p. induction entries as [|e entries IH]; intros l p He Hp e' Hin; [by apply not_elem_of_nil in Hin|].
  pose proof He as He0. apply contiguous_after_cons in He as [Hi He]. cbn.
  assert (Hstep : ∀ l', p + 1 ≤ N.of_nat (length l') →
    (∃ x, lookup_index l' (index e) = Some x ∧ term x = term e) →
    ∃ x, lookup_index (merge l' entries) (index e') = Some x ∧ term x = term e').
  { intros l' Hp' (x & Hx & Ht). apply elem_of_cons in Hin as [->|Hin]; [|by eapply IH].
    exists x. split; [|done]. rewrite <-Hx.
    pose proof (lookup_index_Some _ _ _ Hx) as [_ Hle].
    rewrite <-(lookup_index_take (merge l' entries) (index e) (N.to_nat (index e))) by lia.
    rewrite (merge_prefix l' entries (p + 1)); [by rewrite lookup_index_take by lia|done|done|done|].
    intros e'' [j Hj]%list_elem_of_lookup_1 Hle'. specialize (He j e'' Hj). lia. }
  destruct (lookup_index l (index e)) as [x|] eqn:E.
  - pose proof (lookup_index_Some _ _ _ E) as [H0 Hle]. case_decide as Ht.
    + apply Hstep; [lia|eauto].
    + apply Hstep; [rewrite length_app, length_take; cbn; lia|]. exists e. split; [|done].
      unfold lookup_index. rewrite decide_False by lia.
      rewrite lookup_app_r by (rewrite length_take; lia).
      rewrite length_take. replace (N.to_nat (index e - 1) - _)%nat with O by lia. done.
  - apply lookup_index_None in E. apply Hstep; [rewrite length_app; cbn; lia|]. exists e. split; [|done].
    unfold lookup_index. rewrite decide_False by lia. rewrite lookup_app_r by lia.
    replace (N.to_nat (index e - 1) - length l)%nat with O by lia. done.
Qed.
End log_lemmas.

(** ** The code computes [merge] *)

Section append_loop.
Context {BP : BuildProfile} {P : Platform}.
Implicit Types (r : RaftConsensus) (s : RaftS) (l : list RaftLogEntry).
Import RaftConsensus.

Definition with_log l s : RaftS := s <| raft ::= λ r, r <| log := l |> |>.

(** Replacing parts of the log twice is replacing it once. *)
Lemma with_log_twice l1 l2 s : with_log l2 (with_log l1 s) = with_log l2 s.
Proof. done. Qed.
Lemma with_log_same s : with_log (log (raft s)) s = s.
Proof. by destruct s as [[] ?]. Qed.

Lemma bind_update {E B} f (k : unit → RaftM E B) s :
  bind (update f) k s = k tt (s <| raft ::= f |>).
Proof. done. Qed.

(** The blocks of the entries a merge discards. *)
Fixpoint discarded l (entries : list RaftLogEntry) : list BlockHash :=
  match entries with
  | [] => []
  | e :: entries =>
      match lookup_index l (index e) with
      | Some x =>
          if decide (term x = term e) then discarded l entries
          else (block_hash <$> filter (λ e, is_noop e = false) (drop (N.to_nat (index e - 1)) l)) ++
               discarded (take (N.to_nat (index e - 1)) l ++ [e]) entries
      | None => discarded (l ++ [e]) entries
      end
  end.

(** The leader disagrees with what this peer has committed. *)
Definition conflicts_committed r (entries : list RaftLogEntry) : Prop :=
  ∃ e, e ∈ entries ∧ index e ≤ commit_index r ∧ conflicts (log r) e.

Definition u64_indexes l : Prop := Forall (λ e, index e < u64_modulus) l.

Lemma append_loop_refuses {E} entries ds p s :
  contiguous (log (raft s)) → contiguous_after p entries → p ≤ N.of_nat (length (log (raft s))) →
  commit_index (raft s) ≤ N.of_nat (length (log (raft s))) →
  conflicts_committed (raft s) entries →
  append_loop (E := E) entries ds s = Ret None s.
Proof.
  intros Hl. revert p. induction entries as [|e entries IH]; intros p He Hp Hci (e' & Hin & Hle & Hc).
  { by apply not_elem_of_nil in Hin. }
  pose proof He as He0. apply contiguous_after_cons in He as [Hi He]. cbn [append_loop].
  rewrite bind_gets, log_entry_lookup by done.
  destruct (lookup_index (log (raft s)) (index e)) as [x|] eqn:E1.
  - pose proof (lookup_index_Some _ _ _ E1) as [H0 Hx]. case_decide as Ht.
    + rewrite decide_True; [done|]. etrans; [|exact Hle].
      apply elem_of_cons in Hin as [->|[j Hj]%list_elem_of_lookup_1]; [done|].
      specialize (He j e' Hj). lia.
    + apply (IH (p + 1)); [done|lia|done|]. exists e'. split; [|done].
      apply elem_of_cons in Hin as [->|Hin]; [|done]. destruct Hc as (x' & Hx' & Hne).
      rewrite E1 in Hx'. injection Hx' as <-. done.
  - exfalso. apply lookup_index_None in E1. destruct Hc as (x & Hx & _).
    apply lookup_index_Some in Hx as [_ Hx].
    apply elem_of_cons in Hin as [->|[j Hj]%list_elem_of_lookup_1]; [lia|].
    specialize (He j e' Hj). lia.
Qed.

Lemma append_loop_merges {E} entries ds p s :
  contiguous (log (raft s)) → contiguous_after p entries → p ≤ N.of_nat (length (log (raft s))) →
  u64_indexes entries →
  ¬ conflicts_committed (raft s) entries →
  append_loop (E := E) entries ds s =
    Ret (Some (ds ++ discarded (log (raft s)) entries))
        (with_log (merge (log (raft s)) entries) s).
Proof.
  revert ds p s. induction entries as [|e entries IH]; intros ds p s Hl He Hp Hu Hn.
  { cbn. by rewrite app_nil_r, with_log_same. }
  pose proof He as He0. apply contiguous_after_cons in He as [Hi He]. cbn [append_loop discarded merge].
  apply Forall_cons in Hu as [Hue Hu].
  rewrite bind_gets, log_entry_lookup by done.
  destruct (lookup_index (log (raft s)) (index e)) as [x|] eqn:E1.
  - pose proof (lookup_index_Some _ _ _ E1) as [H0 Hx].
    destruct (decide (term x = term e)) as [Ht|Ht].
    + rewrite decide_False by tauto. apply (IH _ (p + 1)); [done|done|lia|done|].
      intros (e' & Hin & ?). apply Hn. exists e'. split; [by right|done].
    + rewrite decide_True by done.
      assert (Hgt : commit_index (raft s) < index e).
      { destruct (decide (index e ≤ commit_index (raft s))); [|lia]. exfalso. apply Hn.
        exists e. split_and!; [left|done|]. exists x. done. }
      rewrite decide_False by lia.
      rewrite bind_sub_u64 by lia. cbv zeta. rewrite !bind_update.
      set (l' := take (N.to_nat (index e - 1)) (log (raft s)) ++ [e]).
      change (append_loop entries ?d ?s') with (append_loop (E := E) entries d (with_log l' s)).
      assert (Hlen : N.of_nat (length l') = index e).
      { unfold l'. rewrite length_app, length_take. cbn. lia. }
      rewrite (IH _ (p + 1)); [|apply contiguous_snoc; [by apply contiguous_take|]|done| |done|].
      * rewrite with_log_twice, <-app_assoc. done.
      * rewrite length_take. lia.
      * change (log (raft (with_log l' s))) with l'. lia.
      * intros (e' & Hin & Hle & _). cbn in Hle.
        apply list_elem_of_lookup_1 in Hin as [j Hj]. specialize (He j e' Hj). lia.
  - apply lookup_index_None in E1.
    assert (Hie : index e = N.of_nat (length (log (raft s))) + 1) by lia.
    rewrite last_log_index_length, bind_add_u64, decide_True, bind_update by (done || lia).
    set (l' := log (raft s) ++ [e]).
    change (append_loop entries ?d ?s') with (append_loop (E := E) entries d (with_log l' s)).
    rewrite (IH _ (p + 1)); [|by apply contiguous_snoc|done| |done|].
    + by rewrite with_log_twice.
    + cbn. unfold l'. rewrite length_app. cbn. lia.
    + intros (e' & Hin & Hle & (x & Hx & Hne)). apply Hn. exists e'. split_and!; [by right|done|].
      cbn in Hx. unfold l' in Hx. exists x. split; [|done].
      apply lookup_index_Some in Hx as Hb. rewrite length_app in Hb. cbn in Hb.
      apply list_elem_of_lookup_1 in Hin as [j Hj]. specialize (He j e' Hj). lia.
Qed.

(** The decidable split of the two lemmas above. *)
Lemma conflicts_committed_dec r entries : {conflicts_committed r entries} + {¬ conflicts_committed r entries}.
Proof.
  destruct (decide (Exists (λ e, Is_true (bool_decide (index e ≤ commit_index r) &&
    match lookup_index (log r) (index e) with
    | Some x => negb (bool_decide (term x = term e))
    | None => false
    end)) entries)) as [H|H]; [left|right].
  - apply Exists_exists in H as (e & Hin & [Hle H]%andb_True). exists e.
    apply bool_decide_unpack in Hle. split_and!; [done..|].
    destruct (lookup_index _ _) as [x|] eqn:E; [|done]. exists x. split; [done|].
    apply negb_True in H. intros Ht. by apply H, bool_decide_pack.
  - intros (e & Hin & Hle & x & Hx & Hne). apply H, Exists_exists. exists e.
    split; [done|]. apply andb_True. split; [by apply bool_decide_pack|].
    rewrite Hx. apply negb_True. intros Ht. by apply bool_decide_unpack in Ht.
Qed.

Lemma contiguous_from_spec {T E} p off entries (s : T) :
  p + off + N.of_nat (length entries) < u64_modulus →
  ∃ b, entries_are_contiguous_from (E := E) p off entries s = Ret b s ∧
       (b = true ↔ contiguous_after (p + off) entries).
Proof.
  revert off. induction entries as [|e entries IH]; intros off Hu; cbn [entries_are_contiguous_from].
  - exists true. split; [done|]. split; [|done]. intros _ i e. by rewrite lookup_nil.
  - cbn in Hu. unfold bind, add_u64, unwrap. rewrite checked_plus_exact by lia. cbn beta iota.
    unfold ret at 1. rewrite checked_plus_exact by lia. cbn beta iota. unfold ret at 1.
    case_decide as Hi.
    + destruct (IH (off + 1)) as (b & -> & Hb); [lia|]. exists b. split; [done|].
      rewrite Hb, contiguous_after_cons. rewrite N.add_assoc. tauto.
    + exists false. split; [done|]. rewrite contiguous_after_cons. split; [done|]. tauto.
Qed.
End append_loop.
