(* ===== verification/RaftInvariant.v ===== *)
(** * The invariant of a Raft node and what every handler keeps

    [raft_wf] is the representation invariant; [evolves] is the relation
    between the states before and after a handler: the invariant is kept, the
    term does not go back, the vote of a term is not changed, the commit index
    does not go back and what is committed stays in the log.  It is a preorder,
    so the rules of [leads] carry it through the code. *)

From S2P Require Import Prelude Platform Crypto Transactions Storage Messages RaftLogStore Raft RaftFacts.

Section invariant.
Context {P : Platform}.
Implicit Types (r : RaftConsensus) (s : RaftS).
Import RaftConsensus.

Record raft_wf r : Prop := {
  wf_log : contiguous (log r);
  wf_commit : commit_index r ≤ N.of_nat (length (log r));
  wf_self : peer_id r ∈ participants r;
  wf_votes : votes_received r ⊆ participants r;
  wf_match : dom (match_indexes r) ⊆ participants r;
  wf_role : match role r with
            | Leader => leader_id r = Some (peer_id r) ∧ voted_for r = Some (peer_id r)
            | Candidate => voted_for r = Some (peer_id r)
            | Follower => True
            end;
}.

Record step_facts r r' : Prop := {
  sf_peer : peer_id r' = peer_id r;
  sf_term : current_term r ≤ current_term r';
  sf_vote c : current_term r' = current_term r → voted_for r = Some c → voted_for r' = Some c;
  sf_commit : commit_index r ≤ commit_index r';
  sf_prefix : take (N.to_nat (commit_index r)) (log r') = take (N.to_nat (commit_index r)) (log r);
}.

Definition evolves s s' : Prop :=
  raft_wf (raft s) → raft_wf (raft s') ∧ step_facts (raft s) (raft s').

Lemma step_facts_refl r : step_facts r r.
Proof. by split. Qed.

Lemma step_facts_trans r1 r2 r3 : step_facts r1 r2 → step_facts r2 r3 → step_facts r1 r3.
Proof.
  intros [P1 T1 V1 C1 L1] [P2 T2 V2 C2 L2]. split; [congruence|lia| |lia|].
  - intros c Ht Hv. apply V2; [lia|]. apply V1; [lia|done].
  - apply (f_equal (take (N.to_nat (commit_index r1)))) in L2.
    rewrite !take_take, !Nat.min_l in L2 by lia. congruence.
Qed.

#[export] Instance evolves_preorder : PreOrder evolves.
Proof.
  split.
  - intros s Hwf. split; [done|apply step_facts_refl].
  - intros s1 s2 s3 H1 H2 Hwf. destruct (H1 Hwf) as [Hwf2 F1]. destruct (H2 Hwf2) as [Hwf3 F2].
    split; [done|by eapply step_facts_trans].
Qed.

(** Operations that leave the log, the term and the commit index alone. *)
Definition same_log s s' : Prop :=
  log (raft s') = log (raft s) ∧ commit_index (raft s') = commit_index (raft s) ∧
  peer_id (raft s') = peer_id (raft s).
#[export] Instance same_log_preorder : PreOrder same_log.
Proof. split; [by intros s|]. unfold same_log. intros s1 s2 s3. intuition congruence. Qed.

Definition same_term s s' : Prop := current_term (raft s') = current_term (raft s).
#[export] Instance same_term_preorder : PreOrder same_term.
Proof. split; [by intros s|]. unfold same_term. intros s1 s2 s3. congruence. Qed.
End invariant.

Ltac evolve_fields :=
  match goal with
  | H : raft_wf _ |- raft_wf _ =>
      let W := fresh in pose proof H as W; destruct W; split; cbn in *
  | |- step_facts _ _ => split; cbn
  end.

Section operations.
Context {BP : BuildProfile} {P : Platform}.
Implicit Types (r : RaftConsensus) (s : RaftS).
Import RaftConsensus.

Lemma leads_update {E} (R : relation RaftS) `{!PreOrder R} s f :
  R s (s <| raft ::= f |>) → leads (E := E) R s (update f).
Proof. by intros ? s' [= <-]. Qed.

Lemma update_participants_evolves {E} s l : leads (E := E) evolves s (update_participants l).
Proof.
  unfold update_participants.
  intros s' [= <-] Hwf. split.
  - destruct Hwf as [Hl Hc Hs Hv Hm Hr]. split; cbn in *; [done|done|set_solver| | |done].
    + intros p [Hp _]%elem_of_filter. set_solver.
    + intros p [m Hp]%elem_of_dom. apply map_lookup_filter_Some in Hp as [_ Hp]. set_solver.
  - by split.
Qed.

(** The invariant may be used while following the code. *)
Lemma leads_wf {E A} s (m : RaftM E A) :
  (raft_wf (raft s) → leads evolves s m) → leads evolves s m.
Proof. intros H s' Hf Hwf. exact (H Hwf s' Hf Hwf). Qed.

Lemma step_down_evolves {E} s t :
  current_term (raft s) < t → leads (E := E) evolves s (step_down t).
Proof.
  intros Ht. apply leads_update; [apply _|]. intros Hwf. split.
  - destruct Hwf. by split; cbn.
  - split; cbn; [done|lia|lia|done|done].
Qed.

Lemma step_down_on_newer_term_evolves {E} s t : leads (E := E) evolves s (step_down_on_newer_term t).
Proof. unfold step_down_on_newer_term. lead. by apply step_down_evolves. Qed.

Lemma become_leader_evolves {E} s :
  voted_for (raft s) = Some (peer_id (raft s)) → leads (E := E) evolves s become_leader_if_majority.
Proof.
  intros Hv. unfold become_leader_if_majority. lead. apply leads_update; [apply _|].
  intros Hwf. split; [|by split]. destruct Hwf as [Hl Hc Hs Hvo Hm Hr].
  split; cbn; [done..| |done]. intros p Hp%elem_of_dom. destruct Hp as [m Hp].
  apply lookup_set_to_map in Hp as (q & Hq & [= <- _]); [done|]. by intros ???.
Qed.

Lemma start_election_evolves {E} s now :
  current_term (raft s) + 1 < u64_modulus → leads (E := E) evolves s (start_election_at now).
Proof.
  intros Ht. unfold start_election_at. lead_step. apply leads_bind; [apply _|lead|].
  intros t s1 [-> ->]%add_u64_Ret; [|done].
  apply leads_bind; [apply _|..].
  - apply leads_update; [apply _|]. intros Hwf. split.
    + destruct Hwf. split; cbn; [done..|set_solver|done|done].
    + split; cbn; [done|lia|lia|done|done].
  - intros [] s2 [= <-]. by apply become_leader_evolves.
Qed.

Lemma vote_evolves {E} s c :
  voted_for (raft s) = None ∨ voted_for (raft s) = Some c →
  leads (E := E) evolves s (update (λ r, r <| voted_for := Some c |>)).
Proof.
  intros Hv. apply leads_update; [apply _|]. intros Hwf. split.
  - destruct Hwf as [Hl Hc Hs Hvo Hm Hr]. split; cbn; try done.
    destruct (role (raft s)); [done|..]; destruct Hv; intuition congruence.
  - split; cbn; [done..| |done|done]. intros c' _ Hc'. destruct Hv; congruence.
Qed.

Lemma request_vote_evolves {E} s t c li lt : leads (E := E) evolves s (request_vote t c li lt).
Proof.
  unfold request_vote. lead; try by apply step_down_evolves.
  all: apply vote_evolves; first [by left|right].
  all: match goal with H : ¬ (_ ≠ _) |- _ => apply dec_stable in H end; congruence.
Qed.

Lemma receive_vote_evolves {E} s t v g : leads (E := E) evolves s (receive_vote t v g).
Proof.
  unfold receive_vote. lead; [by apply step_down_evolves|..].
  - apply leads_update; [apply _|]. intros Hwf. split; [|by split].
    destruct Hwf. split; cbn; [done..|set_solver|done|done].
  - apply leads_wf. intros Hwf. apply become_leader_evolves.
    match goal with H : update _ _ = _ |- _ => injection H as <- <- end.
    pose proof (wf_role _ Hwf) as Hr. cbn in Hr.
    destruct (decide (role (raft s) = Candidate)) as [Hc|]; [|tauto]. by rewrite Hc in Hr.
Qed.

Lemma receive_append_entries_at_evolves {E} s draw t l f now :
  leads (E := E) evolves s (receive_append_entries_at draw t l f now).
Proof.
  unfold receive_append_entries_at, reset_election_timeout.
  lead; [by apply step_down_evolves|..]; (apply leads_update; [apply _|]); intros Hwf;
    (split; [|by split]); destruct Hwf; split; cbn; first [done|set_solver].
Qed.

(** *** The log *)

Lemma term_at_bound r i t : contiguous (log r) → term_at r i = Some t → i ≤ N.of_nat (length (log r)).
Proof.
  intros Hl. unfold term_at. case_decide; [lia|]. rewrite log_entry_lookup by done.
  destruct (lookup_index _ _) eqn:El; [|done]. by apply lookup_index_Some in El as [_ ?].
Qed.

(** The state after a successful [append_entries]. *)
Definition appended r entries lc : RaftConsensus :=
  r <| log := merge (log r) entries |>
    <| commit_index := N.max (commit_index r) (N.min lc (N.of_nat (length (merge (log r) entries)))) |>.

Definition append_refused r prev pt entries : Prop :=
  term_at r prev ≠ Some pt ∨ ¬ contiguous_after prev entries ∨ conflicts_committed r entries.

Record append_accepted r prev pt entries : Prop := {
  aa_prev : term_at r prev = Some pt;
  aa_after : contiguous_after prev entries;
  aa_committed : ¬ conflicts_committed r entries;
}.

Definition append_effects r entries lc : list ConsensusEffect :=
  let staged := filter (λ e, commit_index r < index e ∧ is_noop e = false) entries in
  (RollbackBlock <$> discarded (log r) entries) ++
  (if decide (staged = []) then [] else [StageRaftEntries staged]) ++
  commit_effects (appended r entries lc) (commit_index r).

Lemma append_entries_cases {E} s prev pt entries lc :
  raft_wf (raft s) →
  N.of_nat (length (log (raft s))) + N.of_nat (length entries) < u64_modulus →
  (append_refused (raft s) prev pt entries ∧
   append_entries (E := E) prev pt entries lc s = Ret None s) ∨
  (append_accepted (raft s) prev pt entries ∧
   append_entries (E := E) prev pt entries lc s =
     Ret (Some (append_effects (raft s) entries lc))
         (mkRaftS (appended (raft s) entries lc) (raft_disk s))).
Proof.
  intros Hwf Hu. unfold append_entries, append_refused. rewrite bind_gets.
  destruct (decide (term_at (raft s) prev ≠ Some pt)) as [|Hprev%dec_stable]; [by left; auto|].
  pose proof (term_at_bound _ _ _ (wf_log _ Hwf) Hprev) as Hle.
  destruct (contiguous_from_spec (E := E) prev 0 entries s) as (b & Hb & Hc); [lia|].
  rewrite N.add_0_r in Hc. rewrite (bind_of _ _ _ _ _ Hb).
  destruct b; cbn [negb]; [|left; split; [|done]; right; left; by intros ?%Hc].
  assert (Hafter : contiguous_after prev entries) by by apply Hc.
  destruct (conflicts_committed_dec (raft s) entries) as [Hcc|Hcc].
  { left. split; [by auto|]. cbv zeta. erewrite bind_of; [|by eapply append_loop_refuses; [apply Hwf|done|done|apply Hwf|done]].
    done. }
  right. split; [done|]. cbv zeta. erewrite bind_of; [|eapply append_loop_merges; [apply Hwf|done|done| |done]].
  - cbv beta iota. rewrite bind_update, bind_gets.
    set (l := merge (log (raft s)) entries).
    assert (Hll : last_log_index (raft (with_log l s)) = N.of_nat (length l)).
    { apply last_log_index_length. cbn. eapply merge_contiguous; [apply Hwf|done|done]. }
    assert (Hst : (with_log l s) <| raft ::= λ r, r <| commit_index :=
        N.max (commit_index r) (N.min lc (last_log_index r)) |> |> =
      mkRaftS (appended (raft s) entries lc) (raft_disk s)).
    { unfold appended. fold l. rewrite <-Hll. reflexivity. }
    rewrite Hst. reflexivity.
  - apply Forall_forall. intros e [j Hj]%list_elem_of_lookup_1.
    rewrite (Hafter j e Hj). apply lookup_lt_Some in Hj. lia.
Qed.

(** Merging entries that agree with what is committed keeps it. *)
Lemma appended_facts r prev pt entries lc :
  raft_wf r → append_accepted r prev pt entries →
  raft_wf (appended r entries lc) ∧ step_facts r (appended r entries lc).
Proof.
  intros Hwf [Hprev Hafter Hn].
  pose proof (term_at_bound _ _ _ (wf_log _ Hwf) Hprev) as Hle.
  destruct Hwf as [Hl Hc Hs Hv Hm Hr].
  assert (Hkeep : take (N.to_nat (commit_index r)) (merge (log r) entries) =
                  take (N.to_nat (commit_index r)) (log r)).
  { eapply merge_prefix; [done..|]. intros e Hin Hi Hcf. apply Hn. by exists e. }
  assert (Hci : commit_index r ≤ N.of_nat (length (merge (log r) entries))).
  { apply (f_equal length) in Hkeep. rewrite !length_take in Hkeep. lia. }
  split; split; cbn; try done; [by eapply merge_contiguous|lia|lia].
Qed.

Lemma append_entries_evolves {E} s prev pt entries lc :
  N.of_nat (length (log (raft s))) + N.of_nat (length entries) < u64_modulus →
  leads (E := E) evolves s (append_entries prev pt entries lc).
Proof.
  intros Hu. apply leads_wf. intros Hwf s'.
  destruct (append_entries_cases (E := E) s prev pt entries lc Hwf Hu) as [[_ ->]|[Ha ->]];
    intros [= <-]; [reflexivity|]. intros _. by eapply appended_facts.
Qed.
End operations.

Section handlers.
Context {BP : BuildProfile} {P : Platform} {HO : HashOrder}.
Context `{!Serde PersistedRaftLogState, !Serde (list SignedTransaction), !Serde BlockFile}.
Implicit Types (r : RaftConsensus) (s : RaftS).
Import RaftConsensus.

(** An update of fields the invariant does not mention. *)
Lemma evolves_frame s s' :
  (raft_wf (raft s) → raft_wf (raft s')) →
  peer_id (raft s') = peer_id (raft s) → current_term (raft s') = current_term (raft s) →
  voted_for (raft s') = voted_for (raft s) → commit_index (raft s') = commit_index (raft s) →
  log (raft s') = log (raft s) → evolves s s'.
Proof. intros Hwf Hp Ht Hv Hc Hl H. split; [auto|]. split; rewrite ?Hv, ?Hc, ?Hl; done || lia. Qed.

Lemma persist_log_evolves s : leads evolves s persist_log.
Proof.
  intros s'. unfold persist_log.
  destruct (RaftLogStore.save _ _ _ _); intros [= <-]; apply evolves_frame; try done.
  intros []. by split.
Qed.

Lemma committable_find r e :
  List.find (committable r) (rev (log r)) = Some e →
  e ∈ log r ∧ commit_index r < index e ∧ term e = current_term r ∧
  (majority r ≤ size (replicated_to r (index e)))%nat.
Proof.
  intros [Hin Hc]%find_some. apply in_rev, list_elem_of_In in Hin. unfold committable in Hc.
  rewrite !andb_true_iff, negb_true_iff, bool_decide_eq_false, !bool_decide_eq_true in Hc.
  destruct Hc as [[? ?] ?]. split_and!; [done|lia|done|done].
Qed.

Lemma advance_commit_index_evolves {E} s : leads (E := E) evolves s advance_commit_index.
Proof.
  unfold advance_commit_index. lead. apply leads_update; [apply _|]. intros Hwf.
  match goal with H : List.find _ _ = Some _ |- _ => apply committable_find in H as (Hin & Hgt & _) end.
  apply list_elem_of_lookup_1 in Hin as [i Hi].
  pose proof (wf_log _ Hwf _ _ Hi) as Hidx. apply lookup_lt_Some in Hi.
  split.
  - destruct Hwf. split; cbn; try done. lia.
  - split; cbn; [done|lia|done|lia|done].
Qed.

Lemma append_local_entry_evolves s entry :
  (raft_wf (raft s) → index entry = N.of_nat (length (log (raft s))) + 1) →
  leads evolves s (append_local_entry entry).
Proof.
  intros Hi. unfold append_local_entry. lead;
    [..|by apply advance_commit_index_evolves|by apply persist_log_evolves].
  - apply leads_update; [apply _|]. intros Hwf. specialize (Hi Hwf). split.
    + destruct Hwf. split; cbn; try done; [by apply contiguous_snoc|].
      rewrite length_app. cbn. lia.
    + split; cbn; [done|lia|done|lia|].
      rewrite take_app_le; [done|]. pose proof (wf_commit _ Hwf). lia.
  - apply leads_update; [apply _|]. apply evolves_frame; try done. intros [].
    split; cbn; try done. rewrite dom_insert. set_solver.
Qed.

Definition log_room r : Prop := N.of_nat (length (log r)) + 1 < u64_modulus.

Lemma append_local_block_evolves s h : log_room (raft s) → leads evolves s (append_local_block h).
Proof.
  intros Hr. apply leads_wf. intros Hwf. pose proof (last_log_index_length _ (wf_log _ Hwf)) as Hl.
  unfold append_local_block. lead.
  match goal with H : of_result _ _ = _ |- _ => apply of_result_Ret in H as [_ ->] end.
  match goal with H : add_u64 _ _ _ = _ |- _ => rewrite Hl in H; apply add_u64_Ret in H as [-> ->]; [|done] end.
  by apply append_local_entry_evolves.
Qed.

Lemma append_leader_noop_evolves s : log_room (raft s) → leads evolves s append_leader_noop.
Proof.
  intros Hr. apply leads_wf. intros Hwf. pose proof (last_log_index_length _ (wf_log _ Hwf)) as Hl.
  unfold append_leader_noop. lead.
  match goal with H : add_u64 _ _ _ = _ |- _ => rewrite Hl in H; apply add_u64_Ret in H as [-> ->]; [|done] end.
  by apply append_local_entry_evolves.
Qed.

Lemma handle_leader_response_evolves s t f ok m :
  leads evolves s (handle_leader_append_entries_response t f ok m).
Proof.
  unfold handle_leader_append_entries_response.
  lead; first [by apply step_down_evolves|by apply advance_commit_index_evolves
              |by apply persist_log_evolves|idtac].
  all: apply leads_update; [apply _|]; apply evolves_frame; try done; intros [];
    split; cbn; try done; rewrite dom_insert; set_solver.
Qed.

Lemma take_pending_block_evolves {E} s h : leads (E := E) evolves s (take_pending_block h).
Proof.
  unfold take_pending_block. lead. apply leads_update; [apply _|]. apply evolves_frame; try done.
  intros []. by split.
Qed.

Definition entries_room (r : RaftConsensus) (entries : list RaftReplicatedBlock) : Prop :=
  N.of_nat (length (log r)) + N.of_nat (length entries) < u64_modulus.

Lemma validate_length rbs es bs :
  validate_replicated_entries rbs = Ok (es, bs) → es = rb_entry <$> rbs.
Proof.
  unfold validate_replicated_entries.
  assert (H : ∀ acc m es bs, validate_loop rbs acc m = Ok (es, bs) → es = acc ++ (rb_entry <$> rbs)).
  { induction rbs as [|rb rbs IH]; intros acc m es' bs'; cbn.
    - intros [= <- _]. by rewrite app_nil_r.
    - repeat case_match; intros Hv; try done; apply IH in Hv as ->; by rewrite <-app_assoc. }
  intros Hv. by apply H in Hv.
Qed.

Lemma receive_append_entries_at_log {E} s draw t l f now :
  leads (E := E) same_log s (receive_append_entries_at draw t l f now).
Proof.
  unfold receive_append_entries_at, reset_election_timeout, step_down. lead.
  all: by apply leads_update; [apply _|].
Qed.

Lemma handle_append_entries_evolves s draw req :
  entries_room (raft s) (req_entries req) → leads evolves s (handle_append_entries draw req).
Proof.
  intros Hroom. unfold handle_append_entries.
  apply leads_bind; [apply _|by apply receive_append_entries_at_evolves|].
  intros accepted s1 H1.
  pose proof (receive_append_entries_at_log (E := string) s draw (req_term req) (req_leader_id req)
    (req_from req) (req_now req) s1) as Hlog. rewrite H1 in Hlog. destruct (Hlog eq_refl) as [Hl _].
  clear Hlog. apply leads_gets. destruct (negb accepted); [lead|].
  destruct (validate_replicated_entries (req_entries req)) as [[es bs]|] eqn:Ev; [|lead].
  apply validate_length in Ev. cbv zeta. apply leads_bind; [apply _|..].
  { apply append_entries_evolves. rewrite Hl, Ev, length_fmap. done. }
  intros appended s2 _. lead; try by apply persist_log_evolves.
  apply leads_update; [apply _|]. apply evolves_frame; try done. intros []. by split.
Qed.
(** ** Events *)

(** The calls a peer makes on its Raft node. *)
Inductive raft_event : Type :=
  | EvClientTransaction (tx : SignedTransaction)
  | EvBlockCreated (h : BlockHash)
  | EvTick (now : N) (known_peers : list PeerId)
  | EvRequestVote (t : N) (candidate : PeerId) (last_index last_term : N) (sender : PeerId)
  | EvRequestVoteResponse (t : N) (voter : PeerId) (granted : bool)
  | EvAppendEntries (draw t : N) (leader : PeerId) (prev prev_term : N)
      (entries : list RaftReplicatedBlock) (leader_commit : N) (sender : PeerId) (now : N)
  | EvAppendEntriesResponse (t : N) (sender : PeerId) (success : bool) (match_index : N)
  | EvTakePending (h : BlockHash).

Definition run_event (ev : raft_event) : RaftM string (list ConsensusEffect) :=
  match ev with
  | EvClientTransaction tx => on_client_transaction tx
  | EvBlockCreated h => on_block_created h
  | EvTick now peers => on_tick now peers
  | EvRequestVote t c li lt f => on_request_vote t c li lt f
  | EvRequestVoteResponse t v g => on_request_vote_response t v g
  | EvAppendEntries draw t l p pt es lc f now => on_append_entries draw t l p pt es lc f now
  | EvAppendEntriesResponse t f ok m => on_append_entries_response t f ok m
  | EvTakePending h => let* _ := take_pending_block h in ret []
  end.

(** The counters of the event do not reach 2^64. *)
Definition event_fits (r : RaftConsensus) (ev : raft_event) : Prop :=
  log_room r ∧ current_term r + 1 < u64_modulus ∧
  match ev with EvAppendEntries _ _ _ _ _ es _ _ _ => entries_room r es | _ => True end.

Lemma become_leader_same {E} s :
  leads (E := E) same_log s become_leader_if_majority ∧
  leads (E := E) same_term s become_leader_if_majority.
Proof. unfold become_leader_if_majority. split; lead; by apply leads_update; [apply _|]. Qed.

Lemma start_election_log {E} s now : leads (E := E) same_log s (start_election_at now).
Proof.
  unfold start_election_at. lead; [by apply leads_update; [apply _|]|apply become_leader_same].
Qed.

Lemma receive_vote_log {E} s t v g : leads (E := E) same_log s (receive_vote t v g).
Proof.
  unfold receive_vote, step_down. lead; try by apply leads_update; [apply _|].
  apply become_leader_same.
Qed.

Lemma update_participants_same {E} s l :
  leads (E := E) same_log s (update_participants l) ∧ leads (E := E) same_term s (update_participants l).
Proof. unfold update_participants. split; lead; by apply leads_update; [apply _|]. Qed.

(** A relation a call keeps holds of the state it returns in. *)
Lemma leads_Ret {E A} (R : relation RaftS) s (m : RaftM E A) a s' : leads R s m → m s = Ret a s' → R s s'.
Proof. intros H Hm. apply H. by rewrite Hm. Qed.

Lemma on_tick_evolves s now peers :
  log_room (raft s) → current_term (raft s) + 1 < u64_modulus → leads evolves s (on_tick now peers).
Proof.
  intros Hr Ht. unfold on_tick.
  apply leads_bind; [apply _|by apply update_participants_evolves|]. intros [] s1 H1.
  destruct (update_participants_same (E := string) s peers) as [Hl Hst].
  pose proof (leads_Ret _ _ _ _ _ Hl H1) as (El & _ & _).
  pose proof (leads_Ret _ _ _ _ _ Hst H1) as Et.
  apply leads_gets. destruct (decide (role (raft s1) = Leader)).
  - lead. apply leads_update; [apply _|]. apply evolves_frame; try done. intros []. by split.
  - destruct (decide _); [|lead]. apply leads_bind; [apply _|..].
    + apply start_election_evolves. by rewrite Et.
    + intros won s2 H2. pose proof (leads_Ret _ _ _ _ _ (start_election_log s1 now) H2) as (El2 & _ & _).
      apply leads_gets. cbv zeta. destruct won; [|lead]. lead. apply append_leader_noop_evolves.
      unfold log_room. by rewrite El2, El.
Qed.

Lemma on_request_vote_response_evolves s t v g :
  log_room (raft s) → leads evolves s (on_request_vote_response t v g).
Proof.
  intros Hr. unfold on_request_vote_response. apply leads_gets.
  destruct (decide _); [|lead; by apply step_down_on_newer_term_evolves].
  apply leads_bind; [apply _|by apply receive_vote_evolves|]. intros won s1 H1.
  pose proof (leads_Ret _ _ _ _ _ (receive_vote_log s t v g) H1) as (El & _ & _).
  destruct won; [|lead]. apply append_leader_noop_evolves. unfold log_room. by rewrite El.
Qed.

Lemma run_event_evolves s ev : event_fits (raft s) ev → leads evolves s (run_event ev).
Proof.
  intros (Hroom & Hterm & Hev). destruct ev; cbn [run_event].
  - unfold on_client_transaction, forward_client_transaction. lead.
  - unfold on_block_created. lead. by apply append_local_block_evolves.
  - by apply on_tick_evolves.
  - unfold on_request_vote. lead. apply request_vote_evolves.
  - by apply on_request_vote_response_evolves.
  - by apply handle_append_entries_evolves.
  - unfold on_append_entries_response. lead;
      [by apply handle_leader_response_evolves|by apply step_down_on_newer_term_evolves].
  - lead. apply take_pending_block_evolves.
Qed.

(** Runs of a node: each event fits, errors leave the state they reached. *)
Inductive raft_run : RaftS → list raft_event → RaftS → Prop :=
  | run_nil s : raft_run s [] s
  | run_cons s ev s1 evs s2 :
      event_fits (raft s) ev → final_state (run_event ev s) = Some s1 →
      raft_run s1 evs s2 → raft_run s (ev :: evs) s2.

Lemma raft_run_evolves s evs s' : raft_run s evs s' → evolves s s'.
Proof.
  induction 1 as [|s ev s1 evs s2 Hf Hr _ IH]; [reflexivity|].
  transitivity s1; [|done]. by apply (run_event_evolves s ev Hf).
Qed.
End handlers.
