(* ===== verification/RaftTheorems.v ===== *)
(** * Raft: theorems about one node

    Voting, replication, committing and persistence of [RaftConsensus], over
    single calls and over runs of events. *)

From S2P Require Import Prelude Platform Crypto Transactions Storage Messages RaftLogStore Raft RaftFacts RaftInvariant.

Module RaftTheorems.
Import RaftConsensus.

(** ** Specifications of single calls *)

Section specs.
Context {BP : BuildProfile} {P : Platform} {HO : HashOrder}.
Context `{!Serde PersistedRaftLogState, !Serde (list SignedTransaction), !Serde BlockFile}.
Implicit Types (r : RaftConsensus) (s : RaftS).

Definition stepped_down r t : RaftConsensus :=
  r <| current_term := t |> <| role := Follower |> <| voted_for := None |>
    <| leader_id := None |> <| votes_received := ∅ |>.

(** The node at the term of a message that is not older. *)
Definition at_term r t : RaftConsensus :=
  if decide (current_term r < t) then stepped_down r t else r.

(** A log whose last entry has index [li] and term [lt] is at least as up to
    date as the node's: the last terms decide, and between equal terms the
    lengths. *)
Definition at_least_as_recent r li lt : Prop :=
  match last (log r) with
  | Some e => term e < lt ∨ (term e = lt ∧ index e ≤ li)
  | None => True
  end.

Definition vote_allowed r t c li lt : Prop :=
  current_term r ≤ t ∧ at_least_as_recent r li lt ∧
  (voted_for (at_term r t) = None ∨ voted_for (at_term r t) = Some c).

Lemma at_term_log r t : log (at_term r t) = log r.
Proof. unfold at_term. by case_decide. Qed.

Lemma up_to_date_log r r' li lt :
  log r' = log r → candidate_log_is_up_to_date r' li lt = candidate_log_is_up_to_date r li lt.
Proof. intros Hl. unfold candidate_log_is_up_to_date, last_log_term, last_log_index. by rewrite Hl. Qed.

Lemma up_to_date_iff r li lt : candidate_log_is_up_to_date r li lt = true ↔ at_least_as_recent r li lt.
Proof.
  unfold candidate_log_is_up_to_date, at_least_as_recent, last_log_term, last_log_index.
  rewrite orb_true_iff, andb_true_iff, !bool_decide_eq_true. destruct (last (log r)); [|lia]. intuition lia.
Qed.

Lemma step_to_term {E B} t s (k : unit → RaftM E B) :
  bind (if decide (current_term (raft s) < t) then step_down t else ret tt) k s =
  k tt (mkRaftS (at_term (raft s) t) (raft_disk s)).
Proof. unfold at_term. case_decide; [done|]. by destruct s. Qed.

Lemma request_vote_cases {E} t c li lt s :
  (vote_allowed (raft s) t c li lt ∧
   request_vote (E := E) t c li lt s =
     Ret Granted (mkRaftS ((at_term (raft s) t) <| voted_for := Some c |>) (raft_disk s))) ∨
  (¬ vote_allowed (raft s) t c li lt ∧
   request_vote (E := E) t c li lt s = Ret Rejected (mkRaftS (at_term (raft s) t) (raft_disk s))).
Proof.
  unfold request_vote, vote_allowed. rewrite bind_gets. destruct (decide (t < current_term (raft s))).
  { right. split; [lia|]. unfold at_term. rewrite decide_False by lia. by destruct s. }
  rewrite step_to_term, bind_gets. cbn [raft].
  rewrite (up_to_date_log (raft s) (at_term (raft s) t)) by apply at_term_log.
  pose proof (up_to_date_iff (raft s) li lt) as Hu.
  destruct (candidate_log_is_up_to_date (raft s) li lt) eqn:Eu; cbn [negb].
  2:{ right. split; [naive_solver|done]. }
  destruct (voted_for (at_term (raft s) t)) as [v|] eqn:Ev.
  - destruct (decide (v ≠ c)) as [Hne|Heq%dec_stable].
    + right. split; [|done]. intros (_ & _ & [?|[= ?]]); congruence.
    + left. subst v. split; [|done]. split_and!; [lia|by apply Hu|by right].
  - left. split; [|done]. split_and!; [lia|by apply Hu|by left].
Qed.
End specs.

Section theorems.
Context {BP : BuildProfile} {P : Platform} {HO : HashOrder}.
Context `{!Serde PersistedRaftLogState, !Serde (list SignedTransaction), !Serde BlockFile}.
Implicit Types (r : RaftConsensus) (s : RaftS).

(** C6. Representation invariant of a node: over every sequence of events,
    errors included, the log stays numbered 1, 2, 3, ..., the commit index
    stays within it, the votes counted and the match indexes belong to
    participants, and a candidate or leader has voted for itself. *)
Theorem raft_invariant s evs s' : raft_run s evs s' → raft_wf (raft s) → raft_wf (raft s').
Proof. intros Hr Hwf. by destruct (raft_run_evolves s evs s' Hr Hwf). Qed.

(** C5. What is committed stays: over every sequence of events the commit
    index never goes back and the entries up to it are never replaced. *)
Theorem committed_prefix_stable s evs s' :
  raft_run s evs s' → raft_wf (raft s) →
  commit_index (raft s) ≤ commit_index (raft s') ∧
  take (N.to_nat (commit_index (raft s))) (log (raft s')) =
  take (N.to_nat (commit_index (raft s))) (log (raft s)).
Proof. intros Hr Hwf. by destruct (raft_run_evolves s evs s' Hr Hwf) as [_ []]. Qed.

(** C10. The vote rule: a vote is granted exactly when the request's term is
    not older, the candidate's log is at least as up to date (the last terms
    decide, and between equal terms the lengths), and no other
    candidate has this node's vote in that term; a newer term is adopted
    whether or not the vote is granted, and nothing else changes. *)
Theorem request_vote_spec {E} t c li lt s a s' :
  request_vote (E := E) t c li lt s = Ret a s' →
  (a = Granted ↔ vote_allowed (raft s) t c li lt) ∧
  raft s' = (if decide (a = Granted)
             then (at_term (raft s) t) <| voted_for := Some c |>
             else at_term (raft s) t) ∧
  raft_disk s' = raft_disk s.
Proof.
  destruct (request_vote_cases (E := E) t c li lt s) as [[Hv ->]|[Hv ->]]; intros [= <- <-].
  - done.
  - split_and!; [|done|done]. split; [done|tauto].
Qed.

Lemma on_request_vote_granted t c li lt f s to' t' s' :
  on_request_vote t c li lt f s = Ret [Send to' (RaftRequestVoteResponse t' true)] s' →
  to' = f ∧ t' = t ∧ voted_for (raft s') = Some c ∧ current_term (raft s') = t ∧
  vote_allowed (raft s) t c li lt.
Proof.
  unfold on_request_vote. intros (a & s1 & Hv & Hr)%bind_Ret. rewrite bind_gets in Hr.
  injection Hr as <- <- Ha <-. apply bool_decide_eq_true in Ha as ->.
  destruct (request_vote_cases (E := string) t c li lt s) as [[Ha Hs]|[_ Hs]]; rewrite Hv in Hs; [|done].
  injection Hs as ->. cbn. split_and!; [done| |done| |done].
  - unfold at_term. case_decide; [done|]. destruct Ha. lia.
  - unfold at_term. case_decide; [done|]. destruct Ha. lia.
Qed.

(** One vote per term: if a node grants its vote in term [t] to [c1] and,
    after any events without a restart, in term [t] to [c2], then [c1 = c2]. *)
Theorem one_vote_per_term t c1 c2 li1 lt1 li2 lt2 f1 f2 to1 to2 t1 t2 s s1 evs s2 s3 :
  raft_wf (raft s) →
  on_request_vote t1 c1 li1 lt1 f1 s = Ret [Send to1 (RaftRequestVoteResponse t true)] s1 →
  raft_run s1 evs s2 →
  on_request_vote t2 c2 li2 lt2 f2 s2 = Ret [Send to2 (RaftRequestVoteResponse t true)] s3 →
  c1 = c2.
Proof.
  intros Hwf H1 Hrun H2.
  assert (Hwf1 : raft_wf (raft s1)).
  { pose proof (request_vote_evolves (E := string) s t1 c1 li1 lt1) as Hv. revert H1.
    unfold on_request_vote. intros (a & s1' & H1 & Hr)%bind_Ret.
    rewrite bind_gets in Hr. injection Hr as _ _ _ <-.
    by destruct (leads_Ret _ _ _ _ _ Hv H1 Hwf). }
  apply on_request_vote_granted in H1 as (_ & <- & Hv1 & Ht1 & _).
  apply on_request_vote_granted in H2 as (_ & <- & Hv2 & Ht2 & (Hle & _ & Hvote)).
  destruct (raft_run_evolves _ _ _ Hrun Hwf1) as [_ [_ Hterm Hkeep _ _]].
  assert (Heq : current_term (raft s2) = current_term (raft s1)) by lia.
  specialize (Hkeep c1 Heq Hv1). unfold at_term in Hvote. rewrite decide_False in Hvote by lia.
  rewrite Hkeep in Hvote. destruct Hvote; congruence.
Qed.

(** *** Replication *)

Lemma evolves_wf {E A} s (m : RaftM E A) a s' :
  leads evolves s m → m s = Ret a s' → raft_wf (raft s) → raft_wf (raft s').
Proof. intros Hl Hm Hwf. by destruct (leads_Ret _ _ _ _ _ Hl Hm Hwf). Qed.

Lemma persist_log_raft s a s' :
  persist_log s = Ret a s' → ∃ store, raft s' = (raft s) <| raft_log_store := store |>.
Proof.
  unfold persist_log. destruct (RaftLogStore.save _ _ _ _) as [store d| |]; [|done..].
  intros [= _ <-]. by exists store.
Qed.

Lemma last_index_after p es :
  contiguous_after p es →
  match last es with Some e => index e | None => p end = p + N.of_nat (length es).
Proof.
  intros H. rewrite last_lookup. destruct (es !! pred (length es)) as [e|] eqn:E.
  - rewrite (H _ _ E). apply lookup_lt_Some in E. lia.
  - apply lookup_ge_None in E. destruct es; [cbn; lia|cbn in E; lia].
Qed.

Lemma append_accepted_log r1 r2 prev pt es :
  log r1 = log r2 → commit_index r1 = commit_index r2 →
  append_accepted r1 prev pt es → append_accepted r2 prev pt es.
Proof.
  intros Hl Hc [Hp Ha Hn]. split; [|done|].
  - revert Hp. unfold term_at, log_entry. by rewrite Hl.
  - intros (e & ? & ? & x & Hx & ?). apply Hn. exists e. rewrite Hl, Hc. split_and!; [done..|]. by exists x.
Qed.

(** C7. AppendEntries: the follower either answers [false] with its log and
    commit index untouched, or its log matches the leader at the previous
    index, what it has committed does not conflict, and then its log is the
    old one merged with the entries: it agrees with every entry's term, and
    the acknowledgement, the last effect, claims exactly the entries sent. *)
Theorem append_entries_outcome draw req s effects s' :
  raft_wf (raft s) → entries_room (raft s) (req_entries req) →
  handle_append_entries draw req s = Ret effects s' →
  let es := rb_entry <$> req_entries req in
  let prev := req_prev_log_index req in
  (∃ m, effects = [append_entries_response (raft s') (req_from req) false m] ∧
        log (raft s') = log (raft s) ∧ commit_index (raft s') = commit_index (raft s)) ∨
  (append_accepted (raft s) prev (req_prev_log_term req) es ∧
   log (raft s') = merge (log (raft s)) es ∧
   commit_index (raft s') =
     N.max (commit_index (raft s)) (N.min (req_leader_commit req) (last_log_index (raft s'))) ∧
   (∀ e, e ∈ es → ∃ x, lookup_index (log (raft s')) (index e) = Some x ∧ term x = term e) ∧
   ∃ effects0, effects = effects0 ++
     [append_entries_response (raft s') (req_from req) true (prev + N.of_nat (length es))]).
Proof.
  intros Hwf Hroom Hrun es prev. pose proof (handle_append_entries_evolves s draw req Hroom) as Hev.
  assert (Hwf' : raft_wf (raft s')) by by eapply evolves_wf.
  unfold handle_append_entries in Hrun. apply bind_Ret in Hrun as (acc & s1 & H1 & Hrun).
  pose proof (leads_Ret _ _ _ _ _ (receive_append_entries_at_log s draw (req_term req)
    (req_leader_id req) (req_from req) (req_now req)) H1) as (El & Ec & _).
  pose proof (evolves_wf _ _ _ _ (receive_append_entries_at_evolves s draw (req_term req)
    (req_leader_id req) (req_from req) (req_now req)) H1 Hwf) as Hwf1.
  rewrite bind_gets in Hrun. destruct (negb acc).
  { injection Hrun as <- <-. left. eauto. }
  destruct (validate_replicated_entries _) as [[es' bs]|] eqn:Ev.
  2:{ injection Hrun as <- <-. left. eauto. }
  apply validate_length in Ev. fold es in Ev. subst es'. cbv zeta in Hrun.
  apply bind_Ret in Hrun as (o & s2 & H2 & Hrun).
  destruct (append_entries_cases (E := string) s1 prev (req_prev_log_term req) es
    (req_leader_commit req) Hwf1) as [[Hr H2']|[Ha H2']].
  { unfold es. by rewrite El, length_fmap. }
  - unfold prev in H2'. rewrite H2 in H2'. injection H2' as -> ->.
    rewrite bind_gets in Hrun. injection Hrun as <- <-. left. eauto.
  - unfold prev in H2'. rewrite H2 in H2'. injection H2' as -> ->. right.
    rewrite bind_update, bind_gets in Hrun. apply bind_Ret in Hrun as ([] & s3 & H3 & Hrun).
    injection Hrun as <- <-.
    assert (Hlast : last_log_index (raft s3) = N.of_nat (length (log (raft s3)))) by apply last_log_index_length, Hwf'.
    assert (Hraft : ∃ store pend, raft s3 = (appended (raft s1) es (req_leader_commit req))
      <| pending_blocks := pend |> <| raft_log_store := store |>).
    { set (pend := remember_staged (append_effects (raft s1) es (req_leader_commit req)) bs
        (pending_blocks (raft s1))).
      destruct (_ || _).
      - apply persist_log_raft in H3 as [store ->]. by exists store, pend.
      - injection H3 as <-. by exists (raft_log_store (raft s1)), pend. }
    destruct Hraft as (store & pend & Hraft).
    assert (Hl3 : log (raft s3) = merge (log (raft s)) es) by (rewrite Hraft, <-El; done).
    assert (Ha0 : append_accepted (raft s) prev (req_prev_log_term req) es) by (by eapply append_accepted_log).
    split_and!; [done|done| | |].
    + rewrite Hlast, Hl3, Hraft. cbn. by rewrite El, Ec.
    + intros e Hin. rewrite Hl3. eapply merge_agrees; [apply Ha0| |done].
      eapply term_at_bound; [apply Hwf|apply Ha0].
    + eexists. f_equal. rewrite <-(last_index_after prev es) by apply Ha0.
      unfold append_entries_response. by rewrite Hraft.
Qed.

(** C9. What a leader sends a follower: a message always exists, starts at an
    index the leader's log holds (with its term), and carries the next
    entries of the log, at most five, numbered without a gap, so they pass
    the follower's contiguity test. *)
Theorem leader_append_message r p :
  raft_wf r →
  let prev := N.min (default 0 (match_indexes r !! p)) (N.of_nat (length (log r))) in
  ∃ prev_term, term_at r prev = Some prev_term ∧
    append_entries_effect_for r p = Some (SendRaftAppendEntries p (current_term r) prev prev_term
      (take MAX_APPEND_ENTRIES (drop (N.to_nat prev) (log r))) (commit_index r)) ∧
    contiguous_after prev (take MAX_APPEND_ENTRIES (drop (N.to_nat prev) (log r))).
Proof.
  intros Hwf prev. pose proof (wf_log _ Hwf) as Hl. unfold append_entries_effect_for.
  rewrite last_log_index_length by done. fold prev.
  assert (Hprev : prev ≤ N.of_nat (length (log r))) by (unfold prev; lia).
  assert (Hterm : ∃ t, term_at r prev = Some t).
  { unfold term_at. case_decide; [eauto|]. rewrite log_entry_lookup by done.
    unfold lookup_index. rewrite decide_False by done.
    destruct (lookup_lt_is_Some_2 (log r) (N.to_nat (prev - 1))) as [e ->]; [lia|]. eauto. }
  destruct Hterm as [t Ht]. exists t. rewrite Ht. cbn.
  rewrite entries_above by done. split_and!; [done|done|].
  intros i e. rewrite lookup_take_Some, lookup_drop. intros [Hi _]. specialize (Hl _ _ Hi). lia.
Qed.

(** *** Committing *)

(** An entry a leader may commit: of its term, above the commit index, and
    held by more than half of the participants as far as it knows: by members
    with a match index at or above the entry. *)
Definition held_by_majority r (i : N) : Prop :=
  ∃ Q : gset PeerId, Q ⊆ participants r ∧ (size (participants r) < 2 * size Q)%nat ∧
    ∀ p, p ∈ Q → ∃ m, match_indexes r !! p = Some m ∧ i ≤ m.
Definition may_commit r (e : RaftLogEntry) : Prop :=
  e ∈ log r ∧ term e = current_term r ∧ commit_index r < index e ∧ held_by_majority r (index e).

Lemma elem_of_replicated_to r i p :
  p ∈ replicated_to r i ↔ p ∈ participants r ∧ ∃ m, match_indexes r !! p = Some m ∧ i ≤ m.
Proof.
  unfold replicated_to. rewrite elem_of_filter. destruct (match_indexes r !! p) as [m|]; cbn; [|naive_solver].
  rewrite Is_true_true, N.leb_le. naive_solver.
Qed.

Lemma majority_iff r i : (majority r ≤ size (replicated_to r i))%nat ↔ held_by_majority r i.
Proof.
  unfold majority. pose proof (Nat.div_mod_eq (size (participants r)) 2) as Hd.
  pose proof (Nat.mod_upper_bound (size (participants r)) 2) as Hm. split.
  - intros Hle. exists (replicated_to r i). split; [|split; [lia|]]; intros p Hp%elem_of_replicated_to; by destruct Hp.
  - intros (Q & Hsub & Hsize & HQ). assert (Hle : (size Q ≤ size (replicated_to r i))%nat); [|lia].
    apply subseteq_size. intros p Hp. apply elem_of_replicated_to. auto.
Qed.

Lemma committable_iff r e : committable r e = true ↔
  commit_index r < index e ∧ term e = current_term r ∧ held_by_majority r (index e).
Proof.
  unfold committable. rewrite !andb_true_iff, negb_true_iff, bool_decide_eq_false, !bool_decide_eq_true.
  rewrite N.nle_gt, majority_iff. tauto.
Qed.

(** C8. The commit rule of a leader: the commit index moves to the last entry
    of its current term that more than half of the participants (itself among
    them) are known to hold, a match index at or above it having been recorded
    for each, or stays if there is none above it; nothing else
    changes, and exactly the blocks between the old and the new index are
    committed, in log order, the no-ops skipped. *)
Theorem leader_commit_rule {E} s :
  raft_wf (raft s) →
  ∃ n, advance_commit_index (E := E) s =
      Ret ((λ e, CommitBlock (block_hash e)) <$> filter (λ e, is_noop e = false)
             (filter (λ e, commit_index (raft s) < index e ∧ index e ≤ n) (log (raft s))))
          (s <| raft ::= λ r, r <| commit_index := n |> |>) ∧
    (n = commit_index (raft s) ∨ ∃ e, may_commit (raft s) e ∧ index e = n) ∧
    ∀ e, may_commit (raft s) e → index e ≤ n.
Proof.
  intros Hwf. unfold advance_commit_index. rewrite bind_gets. cbv zeta.
  destruct (List.find _ _) as [e|] eqn:Ef.
  - apply find_rev_Some in Ef as (k & Hk & (? & ? & ?)%committable_iff & Hlast). exists (index e). split_and!.
    + by rewrite bind_update, bind_gets.
    + right. exists e. split; [|done]. split_and!; [by eapply list_elem_of_lookup_2|done..].
    + intros x ([j Hj]%list_elem_of_lookup_1 & Hx). rewrite (wf_log _ Hwf _ _ Hk), (wf_log _ Hwf _ _ Hj).
      assert (j ≤ k)%nat; [|lia]. eapply Hlast; [done|]. apply committable_iff. tauto.
  - exists (commit_index (raft s)). split_and!; [|by left|].
    + rewrite bind_ret_l, bind_gets. by destruct s as [[] ?].
    + intros x (Hx & Hc). apply (find_rev_None _ _ x) in Ef; [|done].
      exfalso. apply not_true_iff_false in Ef. apply Ef, committable_iff. tauto.
Qed.

(** A follower commits up to the leader's commit index or its own last
    entry, not up to the last entry the message vouches for: an entry above
    the previous index that the leader never checked, left over from an
    older term, is committed by a heartbeat. *)
Theorem heartbeat_commits_unchecked_suffix {E} prev pt lc s :
  raft_wf (raft s) → N.of_nat (length (log (raft s))) < u64_modulus →
  term_at (raft s) prev = Some pt → N.of_nat (length (log (raft s))) ≤ lc →
  append_entries (E := E) prev pt [] lc s =
    Ret (Some ((λ e, CommitBlock (block_hash e)) <$> filter (λ e, is_noop e = false)
                 (drop (N.to_nat (commit_index (raft s))) (log (raft s)))))
        (mkRaftS ((raft s) <| commit_index := N.of_nat (length (log (raft s))) |>) (raft_disk s)).
Proof.
  intros Hwf Hu Hp Hlc.
  destruct (append_entries_cases (E := E) s prev pt [] lc Hwf) as [[Hr _]|[_ ->]]; [cbn; lia|..].
  - exfalso. destruct Hr as [Hr|[Hr|(e & Hin & _)]]; [done| |by apply not_elem_of_nil in Hin].
    apply Hr. intros i e. by rewrite lookup_nil.
  - pose proof (wf_commit _ Hwf) as Hc. pose proof (wf_log _ Hwf) as Hl.
    assert (Happ : appended (raft s) [] lc = (raft s) <| commit_index := N.of_nat (length (log (raft s))) |>).
    { unfold appended. cbn. replace (N.max _ _) with (N.of_nat (length (log (raft s)))) by lia.
      by destruct (raft s). }
    rewrite Happ. do 2 f_equal. unfold append_effects, commit_effects. rewrite Happ. cbn.
    assert (Hrange : filter (λ e, commit_index (raft s) < index e ∧
        index e ≤ N.of_nat (length (log (raft s)))) (log (raft s)) =
      drop (N.to_nat (commit_index (raft s))) (log (raft s))); [|by rewrite Hrange].
    remember (N.of_nat (length (log (raft s)))) as n eqn:En.
    rewrite <-(take_drop (N.to_nat (commit_index (raft s))) (log (raft s))) at 1.
    rewrite filter_app, filter_drops, filter_keeps; [done|..]; apply Forall_lookup; intros i e.
    + rewrite lookup_drop. intros Hi. pose proof (lookup_lt_Some _ _ _ Hi). specialize (Hl _ _ Hi). lia.
    + intros [Hi ?]%lookup_take_Some. specialize (Hl _ _ Hi). lia.
Qed.

(** *** Persistence and restart *)

(** What a restart would load is the log and the commit index in memory. *)
Definition persisted s : Prop :=
  ∃ ci, RaftLogStore.load (raft_log_store (raft s)) (raft_disk s) = Ok (mkRaftLogState (log (raft s)) ci) ∧
        (ci = Some (commit_index (raft s)) ∨ (log (raft s) = [] ∧ commit_index (raft s) = 0)).

(** The store's file can be read. *)
Definition store_readable s : Prop :=
  ∀ f, raft_log_store (raft s) = File f → store_path f ∉ read_faults (raft_disk s).

Definition stored_ok s : Prop := store_readable s ∧ persisted s.

(** Calls that touch neither the log nor its store. *)
Definition same_store s s' : Prop :=
  log (raft s') = log (raft s) ∧ commit_index (raft s') = commit_index (raft s) ∧
  raft_log_store (raft s') = raft_log_store (raft s) ∧ raft_disk s' = raft_disk s.
#[local] Instance same_store_preorder : PreOrder same_store.
Proof. split; [by intros s|]. unfold same_store. intros s1 s2 s3. intuition congruence. Qed.

Lemma stored_ok_same s s' : same_store s s' → stored_ok s → stored_ok s'.
Proof.
  intros (Hl & Hc & Hs & Hd) [Hr Hp]. unfold stored_ok, store_readable, persisted.
  by rewrite Hl, Hc, Hs, Hd.
Qed.

Lemma persist_log_stored `{!SerdeLaws PersistedRaftLogState} s a s' :
  store_readable s → persist_log s = Ret a s' → stored_ok s'.
Proof.
  intros Hr. unfold persist_log.
  destruct (RaftLogStore.save _ _ _ _) as [store d| |] eqn:Es; [|done..]. intros [= _ <-]. split.
  - intros f Hf. cbn in *. destruct (raft_log_store (raft s)) as [f0|m] eqn:Ef; cbn in Es.
    + apply bind_Ret in Es as ([] & d1 & Hsave & [= <- <-]). injection Hf as <-.
      specialize (Hr f0 Ef). revert Hsave. unfold RaftLogStore.save_file, bind, map_err.
      unfold create_dir_all, fs_write. repeat case_match; intros; simplify_eq; done.
    + injection Es as <- _. done.
  - eexists. split; [|by left]. cbn. by eapply RaftLogStore.save_load.
Qed.

Lemma receive_append_entries_same {E} s draw t l f now :
  leads (E := E) same_store s (receive_append_entries_at draw t l f now).
Proof.
  unfold receive_append_entries_at, reset_election_timeout, step_down. lead.
  all: by apply leads_update; [apply _|].
Qed.

Lemma step_down_on_newer_same {E} s t : leads (E := E) same_store s (step_down_on_newer_term t).
Proof. unfold step_down_on_newer_term, step_down. lead. by apply leads_update; [apply _|]. Qed.

Lemma receive_vote_same {E} s t v g : leads (E := E) same_store s (receive_vote t v g).
Proof.
  unfold receive_vote, step_down, become_leader_if_majority. lead. all: by apply leads_update; [apply _|].
Qed.

Lemma election_same {E} s now : leads (E := E) same_store s (start_election_at now).
Proof. unfold start_election_at, become_leader_if_majority. lead. all: by apply leads_update; [apply _|]. Qed.

Lemma participants_same {E} s l : leads (E := E) same_store s (update_participants l).
Proof. unfold update_participants. lead. all: by apply leads_update; [apply _|]. Qed.

Lemma request_vote_same {E} s t c li lt : leads (E := E) same_store s (request_vote t c li lt).
Proof. unfold request_vote, step_down. lead. all: by apply leads_update; [apply _|]. Qed.

(** The part of a leader's calls before it persists keeps the store. *)
Lemma advance_readable {E} s : leads (E := E) (λ s s', store_readable s → store_readable s') s advance_commit_index.
Proof.
  assert (PreOrder (λ s s' : RaftS, store_readable s → store_readable s')) by (split; [by intros ?|intros ???; auto]).
  unfold advance_commit_index. lead. by apply leads_update; [done|].
Qed.

Lemma advance_frame {E} s effects s' :
  advance_commit_index (E := E) s = Ret effects s' →
  log (raft s') = log (raft s) ∧ raft_log_store (raft s') = raft_log_store (raft s) ∧
  raft_disk s' = raft_disk s.
Proof.
  unfold advance_commit_index. rewrite bind_gets. cbv zeta.
  destruct (List.find _ _); [rewrite bind_update|]; by intros [= _ <-].
Qed.

Lemma append_local_entry_stored `{!SerdeLaws PersistedRaftLogState} s entry effects s' :
  store_readable s → append_local_entry entry s = Ret effects s' → stored_ok s'.
Proof.
  intros Hr. unfold append_local_entry. rewrite !bind_update, bind_gets. cbv zeta.
  intros (committed & s1 & H1 & Hrun)%bind_Ret.
  apply bind_Ret in Hrun as ([] & s2 & H2 & [= _ <-]).
  eapply persist_log_stored; [|exact H2]. exact (leads_Ret _ _ _ _ _ (advance_readable _) H1 Hr).
Qed.
(** C40. A restart forgets the term and the vote: a node that granted its vote
    in term [t] to [c1] grants it, restarted from its store, in the same term
    to any other candidate whose log is as up to date. *)
Theorem restart_votes_twice draw now ci c1 c2 t li lt f1 f2 s s1 :
  stored_ok s → 0 < t →
  on_request_vote t c1 li lt f1 s = Ret [Send f1 (RaftRequestVoteResponse t true)] s1 →
  ∃ r, new_with_storage draw now (peer_id (raft s1)) (raft_log_store (raft s1)) ci (raft_disk s1) = Ok r ∧
  ∃ s2, on_request_vote t c2 li lt f2 (mkRaftS r (raft_disk s1)) =
        Ret [Send f2 (RaftRequestVoteResponse t true)] s2.
Proof.
  intros [_ (lci & Hp & _)] Ht Hv. unfold on_request_vote in Hv. apply bind_Ret in Hv as (a & s1' & Hv & Hr).
  rewrite bind_gets in Hr. injection Hr as _ Ha ->. apply bool_decide_eq_true in Ha as ->.
  destruct (request_vote_cases (E := string) t c1 li lt s) as [[Hok Hs]|[_ Hs]]; rewrite Hv in Hs; [|done].
  injection Hs as ->.
  assert (Hstore : raft_log_store ((at_term (raft s) t) <| voted_for := Some c1 |>) =
                   raft_log_store (raft s)) by (unfold at_term; by case_decide).
  unfold new_with_storage. cbn [raft raft_disk]. rewrite Hstore, Hp. eexists. split; [done|].
  match goal with |- ∃ s2, _ _ _ _ _ _ (mkRaftS ?r _) = _ => set (r0 := r) end.
  unfold on_request_vote.
  destruct (request_vote_cases (E := string) t c2 li lt (mkRaftS r0 (raft_disk s))) as [[_ Hs]|[Hn _]].
  - eexists. erewrite bind_of; [|exact Hs]. rewrite bind_gets. cbn [raft].
    assert (current_term ((at_term r0 t) <| voted_for := Some c2 |>) = t) as Hct.
    { unfold at_term. cbn. by rewrite decide_True. }
    rewrite Hct. by rewrite bool_decide_true.
  - exfalso. apply Hn. destruct Hok as (_ & Hu & _). split_and!; [cbn; lia| |].
    + unfold at_least_as_recent in *. exact Hu.
    + left. unfold at_term. cbn. by rewrite decide_True.
Qed.

Lemma append_leader_noop_stored `{!SerdeLaws PersistedRaftLogState} s effects s' :
  store_readable s → append_leader_noop s = Ret effects s' → stored_ok s'.
Proof.
  intros Hr. unfold append_leader_noop. rewrite bind_gets. intros (i & s1 & H1 & Hrun)%bind_Ret.
  assert (s1 = s) as ->.
  { unfold add_u64, checked_plus in H1. destruct (decide _); [by injection H1|].
    destruct overflow_checks; [done|by injection H1]. }
  by eapply append_local_entry_stored.
Qed.

Lemma on_tick_stored `{!SerdeLaws PersistedRaftLogState} now peers s effects s' :
  stored_ok s → on_tick now peers s = Ret effects s' → stored_ok s'.
Proof.
  intros Hst Hrun. unfold on_tick in Hrun. apply bind_Ret in Hrun as ([] & s1 & H1 & Hrun).
  apply (leads_Ret _ _ _ _ _ (participants_same s peers)) in H1.
  apply (stored_ok_same _ _ H1) in Hst. clear H1. rewrite bind_gets in Hrun.
  destruct (decide (role (raft s1) = Leader)).
  - destruct (heartbeat_due _ _); [rewrite bind_update, bind_gets in Hrun|]; injection Hrun as _ <-; done.
  - destruct (decide _); [|by injection Hrun as _ <-].
    apply bind_Ret in Hrun as (won & s2 & H2 & Hrun).
    apply (leads_Ret _ _ _ _ _ (election_same s1 now)) in H2.
    apply (stored_ok_same _ _ H2) in Hst. rewrite bind_gets in Hrun. cbv zeta in Hrun.
    destruct won; [|by injection Hrun as _ <-].
    apply bind_Ret in Hrun as (more & s3 & H3 & Hrun). injection Hrun as _ <-.
    eapply append_leader_noop_stored; [apply Hst|done].
Qed.

Lemma request_vote_response_stored `{!SerdeLaws PersistedRaftLogState} t v g s effects s' :
  stored_ok s → on_request_vote_response t v g s = Ret effects s' → stored_ok s'.
Proof.
  intros Hst Hrun. unfold on_request_vote_response in Hrun. rewrite bind_gets in Hrun.
  destruct (decide _).
  - apply bind_Ret in Hrun as (won & s1 & H1 & Hrun).
    apply (leads_Ret _ _ _ _ _ (receive_vote_same s t v g)) in H1.
    apply (stored_ok_same _ _ H1) in Hst.
    destruct won; [eapply append_leader_noop_stored; [apply Hst|done]|by injection Hrun as _ <-].
  - apply bind_Ret in Hrun as ([] & s1 & H1 & Hrun). injection Hrun as _ <-.
    eapply stored_ok_same, Hst. eapply leads_Ret, H1. apply step_down_on_newer_same.
Qed.

Lemma append_response_stored `{!SerdeLaws PersistedRaftLogState} t f ok m s effects s' :
  stored_ok s → on_append_entries_response t f ok m s = Ret effects s' → stored_ok s'.
Proof.
  intros Hst Hrun. unfold on_append_entries_response in Hrun. rewrite bind_gets in Hrun.
  destruct (decide (role (raft s) = Leader)).
  2:{ apply bind_Ret in Hrun as ([] & s1 & H1 & Hrun). injection Hrun as _ <-.
      eapply stored_ok_same, Hst. eapply leads_Ret, H1. apply step_down_on_newer_same. }
  unfold handle_leader_append_entries_response in Hrun. rewrite bind_gets in Hrun.
  destruct (decide (current_term (raft s) < t)); [by injection Hrun as _ <-|].
  destruct (decide _); [by injection Hrun as _ <-|]. destruct ok.
  - rewrite bind_update in Hrun. apply bind_Ret in Hrun as (effs & s1 & H1 & Hrun).
    pose proof (leads_Ret _ _ _ _ _ (advance_readable _) H1 (proj1 Hst)) as Hr1.
    rewrite bind_gets in Hrun. apply bind_Ret in Hrun as ([] & s2 & H2 & [= _ <-]).
    destruct (decide (commit_index (raft s1) ≠ commit_index (raft s))) as [|Heq%dec_stable];
      [by eapply persist_log_stored|]. injection H2 as <-.
    eapply stored_ok_same, Hst. apply advance_frame in H1 as (? & ? & ?). done.
  - cbv zeta in Hrun. rewrite bind_update, bind_gets in Hrun.
    destruct (decide _); injection Hrun as _ <-; done.
Qed.

Lemma append_entries_stored `{!SerdeLaws PersistedRaftLogState} draw req s effects s' :
  raft_wf (raft s) → entries_room (raft s) (req_entries req) → stored_ok s →
  handle_append_entries draw req s = Ret effects s' → stored_ok s'.
Proof.
  intros Hwf Hroom Hst Hrun. unfold handle_append_entries in Hrun.
  apply bind_Ret in Hrun as (acc & s1 & H1 & Hrun).
  pose proof (evolves_wf _ _ _ _ (receive_append_entries_at_evolves s draw (req_term req)
    (req_leader_id req) (req_from req) (req_now req)) H1 Hwf) as Hwf1.
  apply (leads_Ret _ _ _ _ _ (receive_append_entries_same s _ _ _ _ _)) in H1.
  apply (stored_ok_same _ _ H1) in Hst. destruct H1 as (El & _).
  rewrite bind_gets in Hrun. destruct (negb acc); [by injection Hrun as _ <-|].
  destruct (validate_replicated_entries _) as [[es bs]|] eqn:Ev; [|by injection Hrun as _ <-].
  apply validate_length in Ev. cbv zeta in Hrun. apply bind_Ret in Hrun as (o & s2 & H2 & Hrun).
  destruct (append_entries_cases (E := string) s1 (req_prev_log_index req) (req_prev_log_term req) es
    (req_leader_commit req) Hwf1) as [[Hr H2']|[Ha H2']];
    [by rewrite El, Ev, length_fmap|rewrite H2 in H2'; injection H2' as -> ->..].
  { rewrite bind_gets in Hrun. by injection Hrun as _ <-. }
  rewrite bind_update, bind_gets in Hrun. apply bind_Ret in Hrun as ([] & s3 & H3 & [= _ <-]).
  destruct (_ || _) eqn:Echanged; [eapply persist_log_stored, H3; exact (proj1 Hst)|].
  injection H3 as <-. apply orb_false_iff in Echanged as [Hn Hc].
  apply bool_decide_eq_false in Hn, Hc. apply dec_stable in Hc.
  pose proof (last_index_after _ _ (aa_after _ _ _ _ Ha)) as Hlast.
  assert (es = []) as ->.
  { destruct es as [|e es]; [done|]. exfalso. apply Hn. rewrite Hlast. cbn. lia. }
  eapply stored_ok_same, Hst. split_and!; [done|exact Hc|done|done].
Qed.

(** C11. Every handler that returns normally leaves the store with the log and
    the commit index in memory: what is acknowledged or sent is what a
    restart would load. *)
Theorem handlers_persist `{!SerdeLaws PersistedRaftLogState} ev s effects s' :
  raft_wf (raft s) → event_fits (raft s) ev → stored_ok s →
  run_event ev s = Ret effects s' → stored_ok s'.
Proof.
  intros Hwf Hfit Hst. pose proof Hst as [Hr _]. destruct ev; cbn [run_event]; intros Hrun.
  - eapply stored_ok_same, Hst. eapply leads_Ret, Hrun.
    unfold on_client_transaction, forward_client_transaction. lead.
  - unfold on_block_created in Hrun. rewrite bind_gets in Hrun.
    destruct (role (raft s)); [by injection Hrun as _ <-..|].
    unfold append_local_block in Hrun. rewrite bind_gets in Hrun.
    apply bind_Ret in Hrun as (? & s1 & H1 & Hrun). apply of_result_Ret in H1 as [_ ->].
    rewrite last_log_index_length in Hrun by apply Hwf. rewrite bind_add_u64 in Hrun by apply Hfit.
    by eapply append_local_entry_stored.
  - by eapply on_tick_stored.
  - unfold on_request_vote in Hrun. apply bind_Ret in Hrun as (? & s1 & H1 & [= _ <-]).
    eapply stored_ok_same, Hst. eapply leads_Ret, H1. apply request_vote_same.
  - by eapply request_vote_response_stored.
  - eapply append_entries_stored; [done| |done|exact Hrun]. apply Hfit.
  - by eapply append_response_stored.
  - eapply stored_ok_same, Hst. eapply leads_Ret, Hrun. unfold take_pending_block. lead.
    by apply leads_update; [apply _|].
Qed.

(** C12. Restart: a node rebuilt from a store that matches its memory has the
    same log and commit index, and is well formed. *)
Theorem restart_recovers_log draw now ci s :
  raft_wf (raft s) → stored_ok s →
  ∃ r, new_with_storage draw now (peer_id (raft s)) (raft_log_store (raft s)) ci (raft_disk s) = Ok r ∧
    raft_wf r ∧ log r = log (raft s) ∧ commit_index r = commit_index (raft s).
Proof.
  intros Hwf [_ (o & Hp & Hci)]. unfold new_with_storage. rewrite Hp. eexists. split; [done|].
  pose proof (wf_log _ Hwf) as Hl. pose proof (wf_commit _ Hwf) as Hc.
  pose proof (last_log_index_length _ Hl) as Hlast. unfold last_log_index in Hlast.
  assert (Hmin : N.min (default ci o) (N.of_nat (length (log (raft s)))) = commit_index (raft s)).
  { destruct Hci as [->|[Hnil ->]]; [cbn; lia|]. rewrite Hnil. cbn. lia. }
  split_and!; [split; cbn|..]; cbn; try done; try set_solver; rewrite Hlast, ?Hmin; done.
Qed.

(** *** Corner cases *)

(** A term of [u64::MAX] in one RequestVote is adopted, and the node's
    next election overflows: it panics in a build with overflow checks and
    otherwise restarts the terms at zero. *)
Theorem term_overflow t c li lt f now s :
  t = u64_modulus - 1 → current_term (raft s) < t →
  ∃ effects s1, on_request_vote t c li lt f s = Ret effects s1 ∧
    match start_election_at (E := string) now s1 with
    | Ret _ s2 => overflow_checks = false ∧ current_term (raft s2) = 0
    | Err _ _ => False
    | Panic => overflow_checks = true
    end.
Proof.
  intros -> Hlt. unfold on_request_vote.
  assert (Hs1 : ∃ a s1, request_vote (E := string) (u64_modulus - 1) c li lt s = Ret a s1 ∧
    current_term (raft s1) = u64_modulus - 1).
  { destruct (request_vote_cases (E := string) (u64_modulus - 1) c li lt s) as [[_ ->]|[_ ->]];
      do 2 eexists; (split; [done|]); cbn; unfold at_term; by rewrite decide_True. }
  destruct Hs1 as (a & s1 & Hv & Ht). do 2 eexists. split; [by erewrite bind_of|].
  unfold start_election_at. rewrite bind_gets. unfold add_u64, checked_plus. rewrite Ht.
  rewrite decide_False by done. destruct overflow_checks eqn:Eo; [done|].
  replace ((u64_modulus - 1 + 1) mod u64_modulus) with 0 by done.
  rewrite bind_unwrap_Some, bind_update. unfold become_leader_if_majority. rewrite bind_gets.
  by destruct (decide _).
Qed.

(** The in-memory store never fails, so neither does the leader's no-op. *)
Lemma append_leader_noop_memory s m :
  raft_log_store (raft s) = InMemory m → last_log_index (raft s) + 1 < u64_modulus →
  ∃ effects s', append_leader_noop s = Ret effects s' ∧ role (raft s') = role (raft s) ∧
    current_term (raft s') = current_term (raft s) ∧ leader_id (raft s') = leader_id (raft s).
Proof.
  intros Hs Hl. unfold append_leader_noop. rewrite bind_gets, bind_add_u64 by done.
  unfold append_local_entry. rewrite !bind_update, bind_gets. cbv zeta.
  set (s1 := (s <| raft ::= _ |>) <| raft ::= _ |>).
  assert (Ha : ∃ effects s2, advance_commit_index (E := string) s1 = Ret effects s2 ∧
    raft_log_store (raft s2) = InMemory m ∧ role (raft s2) = role (raft s) ∧
    current_term (raft s2) = current_term (raft s) ∧ leader_id (raft s2) = leader_id (raft s)).
  { unfold advance_commit_index. rewrite bind_gets. cbv zeta.
    destruct (List.find _ _); do 2 eexists; (split; [done|done]). }
  destruct Ha as (effects & s2 & Ha & Hs2 & Hr & Ht & Hid).
  rewrite (bind_of _ _ _ _ _ Ha). do 2 eexists. split; [|].
  - unfold persist_log, bind, RaftLogStore.save. rewrite Hs2. done.
  - done.
Qed.

(** Before discovery has named any peer, a node is its own majority: a
    new node whose first tick after the timeout sees no peers becomes leader
    of term 1, as does any other node in the same situation. *)
Theorem lone_node_elects_itself draw now0 now id d r :
  new draw now0 id d = Some r →
  now0 + current_election_timeout r ≤ now →
  ∃ effects s', on_tick now [] (mkRaftS r d) = Ret effects s' ∧
    role (raft s') = Leader ∧ current_term (raft s') = 1 ∧ leader_id (raft s') = Some id.
Proof.
  intros [= <-] Hnow. cbn in Hnow. unfold on_tick.
  match goal with |- context [mkRaftS ?r d] => set (r0 := r) end.
  assert (H1 : ∃ r1, update_participants (E := string) [] (mkRaftS r0 d) = Ret tt (mkRaftS r1 d) ∧
    participants r1 = {[ id ]} ∧ r1 = r0 <| participants := participants r1 |>
      <| votes_received := votes_received r1 |> <| match_indexes := match_indexes r1 |>).
  { set (members := {[ id ]} ∪ list_to_set (C := gset PeerId) []).
    exists (r0 <| participants := members |> <| votes_received ::= filter (λ p, p ∈ members) |>
      <| match_indexes ::= filter (λ kv, kv.1 ∈ members) |>).
    split; [reflexivity|]. split; [|reflexivity]. cbn. unfold members. cbn. set_solver. }
  destruct H1 as (r1 & H1 & Hp & Hr1). rewrite (bind_of _ _ _ _ _ H1), bind_gets. cbn [raft].
  assert (Hf : role r1 = Follower ∧ current_election_timeout r1 = current_election_timeout r0 ∧
    last_heartbeat_received_at r1 = now0 ∧ current_term r1 = 0 ∧ peer_id r1 = id ∧
    raft_log_store r1 = InMemory InMemoryRaftLogStore_new ∧ log r1 = []) by by rewrite Hr1.
  destruct Hf as (Hrole & Hto & Hhb & Ht & Hid & Hst & Hlog).
  rewrite decide_False by congruence. rewrite decide_True; [|rewrite Hto, Hhb; unfold duration_since; cbn; lia].
  set (s2 := mkRaftS (r1 <| current_term := 1 |> <| role := Leader |>
    <| voted_for := Some id |> <| leader_id := Some id |> <| votes_received := {[ id ]} |>
    <| last_heartbeat_received_at := now |> <| last_heartbeat_sent_at := None |>
    <| match_indexes := set_to_map (λ p, (p, if decide (p = id) then last_log_index r1 else 0)) (participants r1) |>) d).
  assert (H2 : start_election_at (E := string) now (mkRaftS r1 d) = Ret true s2).
  { unfold start_election_at. rewrite bind_gets. cbn [raft]. rewrite Ht, bind_add_u64, bind_update by done.
    unfold become_leader_if_majority. rewrite bind_gets. cbn [raft]. rewrite decide_True.
    - subst id. done.
    - unfold majority. cbn. rewrite Hp, Hid, !size_singleton. done. }
  rewrite (bind_of _ _ _ _ _ H2), bind_gets. cbv zeta iota.
  destruct (append_leader_noop_memory s2 InMemoryRaftLogStore_new) as (more & s3 & H3 & Hr3 & Ht3 & Hl3).
  { done. } { unfold last_log_index. cbn. by rewrite Hlog. }
  rewrite (bind_of _ _ _ _ _ H3). do 2 eexists. split; [done|]. by rewrite Hr3, Ht3, Hl3.
Qed.
End theorems.
End RaftTheorems.
