(* ===== verification/Voting.v ===== *)
(** * peer/consensus/voting.rs: one round of votes per block

    [VotingConsensus] counts the votes for one block; [handle_voting_vote]
    keeps one such count per block hash and turns a decision into effects. *)

From S2P Require Import Prelude Platform Transactions Storage Messages.

Inductive ConsensusOutcome : Type := Pending | Approved | Rejected.
#[export] Instance ConsensusOutcome_eq_dec : EqDecision ConsensusOutcome.
Proof. solve_decision. Defined.

Record VotingConsensus : Type := mkVotingConsensus {
  v_participants : gset PeerId;
  approvals : gset PeerId;
  rejections : gset PeerId;
  outcome : option ConsensusOutcome;
}.
#[export] Instance eta_voting : Settable VotingConsensus := λ v,
  mkVotingConsensus (v_participants v) (approvals v) (rejections v) (outcome v).

Abbreviation Votings := (gmap BlockHash VotingConsensus).

Module Voting.

Section counting.
Implicit Types (v : VotingConsensus).

Definition new (id : PeerId) (known_peers : list PeerId) : VotingConsensus :=
  mkVotingConsensus ({[ id ]} ∪ list_to_set known_peers) ∅ ∅ None.

Definition already_voted v (id : PeerId) : bool :=
  bool_decide (id ∈ approvals v) || bool_decide (id ∈ rejections v).

(** [total_peers] counts a set that holds the peer itself, so the
    subtraction does not underflow. *)
Definition evaluate_outcome (total_peers approvals rejections : nat) : ConsensusOutcome :=
  let f := ((total_peers - 1) / 3)%nat in
  if decide (2 * f + 1 ≤ approvals)%nat then Approved
  else if decide (f ≤ rejections)%nat then Rejected
  else Pending.

Definition make_vote {E} (id : PeerId) (approve : bool) : M VotingConsensus E ConsensusOutcome :=
  let* v := get in
  match outcome v with
  | Some o => ret o
  | None =>
      if decide (id ∉ v_participants v) then ret Pending
      else
        (if approve then modify (λ v, v <| approvals ::= union {[ id ]} |>)
         else modify (λ v, v <| rejections ::= union {[ id ]} |>)) ;;;
        let* v := get in
        let o := evaluate_outcome (size (v_participants v)) (size (approvals v)) (size (rejections v)) in
        (if decide (o ≠ Pending) then modify (λ v, v <| outcome := Some o |>) else ret tt) ;;;
        ret o
  end.
End counting.

Section handlers.
Context {P : Platform}.

Definition handle_voting_vote {E} (id : PeerId) (known_peers : list PeerId) (h : BlockHash)
    (sender : PeerId) (approve : bool) : M Votings E (list ConsensusEffect) :=
  (* entry(h).or_insert_with(..) *)
  modify (λ vs, match vs !! h with Some _ => vs | None => <[h := new id known_peers]> vs end) ;;;
  let* vs := get in
  let* consensus := unwrap (vs !! h) in
  if already_voted consensus sender || bool_decide (is_Some (outcome consensus)) then ret []
  else
    let* decided := zoom (λ _, consensus) (λ v vs, <[h := v]> vs) (make_vote sender approve) in
    ret match decided with
        | Approved => [CommitBlock h; Broadcast (BlockApproved h)]
        | Rejected => [RollbackBlock h; Broadcast (BlockReject h)]
        | Pending => []
        end.

Definition on_client_transaction (client_tx : SignedTransaction) : list ConsensusEffect :=
  [StageClientTransaction client_tx; BroadcastClientTransaction client_tx].

Definition on_block_created (h : BlockHash) : list ConsensusEffect := [ProposeBlock h].

Definition on_local_block_proposed {E} (id : PeerId) (h : BlockHash) (known_peers : list PeerId) : M Votings E (list ConsensusEffect) :=
  handle_voting_vote id known_peers h id true.

Definition on_block_proposal_validated {E} (id : PeerId) (h : BlockHash) (proposer : PeerId)
    (valid : bool) (known_peers : list PeerId) : M Votings E (list ConsensusEffect) :=
  let* effects := handle_voting_vote id known_peers h proposer true in
  if decide (effects = []) then
    let* more := handle_voting_vote id known_peers h id valid in
    ret (effects ++ more)
  else ret effects.

Definition on_block_vote {E} (id : PeerId) (h : BlockHash) (sender : PeerId) (approve : bool)
    (known_peers : list PeerId) : M Votings E (list ConsensusEffect) :=
  handle_voting_vote id known_peers h sender approve.
End handlers.
End Voting.

(** ** One block's count *)

Module VotingFacts.
Import Voting.
Section facts.
Context {P : Platform}.
Implicit Types (v : VotingConsensus) (vs : Votings).

Definition threshold v : nat := (2 * ((size (v_participants v) - 1) / 3) + 1)%nat.
Definition veto v : nat := ((size (v_participants v) - 1) / 3)%nat.

(** A peer is counted once, on one side; a decision is recorded as soon as
    the counts reach it, and not before. *)
Record voting_wf v : Prop := {
  vw_approvals : approvals v ⊆ v_participants v;
  vw_rejections : rejections v ⊆ v_participants v;
  vw_disjoint : approvals v ## rejections v;
  vw_nonempty : v_participants v ≠ ∅;
  vw_outcome : match outcome v with
               | None => approvals v ∪ rejections v = ∅ ∨
                   (size (approvals v) < threshold v ∧ size (rejections v) < veto v)%nat
               | Some Approved => (threshold v ≤ size (approvals v))%nat
               | Some Rejected => (size (approvals v) < threshold v ∧ veto v ≤ size (rejections v))%nat
               | Some Pending => False
               end;
}.

Definition votings_wf vs : Prop := ∀ h v, vs !! h = Some v → voting_wf v.

Lemma new_wf id peers : voting_wf (new id peers).
Proof. split; cbn; [set_solver..|]. left. set_solver. Qed.

(** The state after a counted vote. *)
Definition counted v (id : PeerId) (approve : bool) : VotingConsensus :=
  if approve then v <| approvals ::= union {[ id ]} |> else v <| rejections ::= union {[ id ]} |>.

Definition verdict v : ConsensusOutcome :=
  evaluate_outcome (size (v_participants v)) (size (approvals v)) (size (rejections v)).

Definition decided v : VotingConsensus :=
  if decide (verdict v ≠ Pending) then v <| outcome := Some (verdict v) |> else v.

Lemma make_vote_counts {E} id approve v :
  outcome v = None → id ∈ v_participants v →
  make_vote (E := E) id approve v =
    Ret (verdict (counted v id approve)) (decided (counted v id approve)).
Proof.
  intros Ho Hid. unfold make_vote, bind, get. rewrite Ho, decide_False by tauto.
  unfold counted, decided, verdict. by destruct approve; cbn; case_decide.
Qed.

Lemma make_vote_ignored {E} id approve v :
  id ∉ v_participants v ∨ is_Some (outcome v) →
  make_vote (E := E) id approve v = Ret (default Pending (outcome v)) v.
Proof.
  unfold make_vote, bind, get. intros [Hid|[o ->]]; [|done].
  destruct (outcome v); [done|]. by rewrite decide_True.
Qed.

Lemma verdict_spec v :
  match verdict v with
  | Approved => (threshold v ≤ size (approvals v))%nat
  | Rejected => (size (approvals v) < threshold v ∧ veto v ≤ size (rejections v))%nat
  | Pending => (size (approvals v) < threshold v ∧ size (rejections v) < veto v)%nat
  end.
Proof. unfold verdict, evaluate_outcome, threshold, veto. repeat case_decide; lia. Qed.

Lemma counted_wf v id approve :
  voting_wf v → outcome v = None → id ∈ v_participants v → already_voted v id = false →
  voting_wf (decided (counted v id approve)).
Proof.
  intros [Ha Hr Hd Hn _] Ho Hid Hv. unfold already_voted in Hv.
  apply orb_false_iff in Hv as [Hva Hvr]. apply bool_decide_eq_false in Hva, Hvr.
  pose proof (verdict_spec (counted v id approve)) as Hspec. unfold decided.
  destruct approve; cbn in *.
  - case_decide as Hp; (split; cbn; [set_solver..|]).
    + destruct (verdict _); [done|exact Hspec..].
    + rewrite Hp in Hspec. rewrite Ho. by right.
  - case_decide as Hp; (split; cbn; [set_solver..|]).
    + destruct (verdict _); [done|exact Hspec..].
    + rewrite Hp in Hspec. rewrite Ho. by right.
Qed.

(** The count a vote is added to. *)
Definition round id peers h vs : VotingConsensus := default (new id peers) (vs !! h).

Lemma handle_cases {E} id peers h sender approve vs :
  handle_voting_vote (E := E) id peers h sender approve vs =
    let v := round id peers h vs in
    if already_voted v sender || bool_decide (is_Some (outcome v)) then Ret [] (<[h := v]> vs)
    else if decide (sender ∈ v_participants v) then
      Ret match verdict (counted v sender approve) with
          | Approved => [CommitBlock h; Broadcast (BlockApproved h)]
          | Rejected => [RollbackBlock h; Broadcast (BlockReject h)]
          | Pending => []
          end (<[h := decided (counted v sender approve)]> vs)
    else Ret [] (<[h := v]> vs).
Proof.
  unfold handle_voting_vote. rewrite bind_modify. cbv zeta.
  set (vs1 := match vs !! h with Some _ => vs | None => <[h := new id peers]> vs end).
  assert (Hvs : vs1 = <[h := round id peers h vs]> vs).
  { unfold vs1, round. destruct (vs !! h) as [v|] eqn:E1; [|done]. cbn. by rewrite insert_id. }
  rewrite Hvs. clear vs1 Hvs. set (v := round id peers h vs).
  unfold bind at 1, get. cbn beta iota. rewrite lookup_insert_eq, bind_unwrap_Some.
  destruct (already_voted v sender || bool_decide (is_Some (outcome v))) eqn:E1; [done|].
  apply orb_false_iff in E1 as [Hv Ho]. apply bool_decide_eq_false, eq_None_not_Some in Ho.
  unfold bind, zoom. destruct (decide (sender ∈ v_participants v)).
  - rewrite make_vote_counts by done. by rewrite insert_insert_eq.
  - rewrite make_vote_ignored by by left. rewrite Ho. cbn. by rewrite insert_insert_eq.
Qed.

Lemma round_wf id peers h vs : votings_wf vs → voting_wf (round id peers h vs).
Proof.
  intros Hwf. unfold round. destruct (vs !! h) as [v|] eqn:E1; [by eapply Hwf|apply new_wf].
Qed.

Lemma handle_wf {E} id peers h sender approve :
  preserves votings_wf (handle_voting_vote (E := E) id peers h sender approve).
Proof.
  intros vs vs' Hwf. rewrite handle_cases. cbv zeta.
  pose proof (round_wf id peers h vs Hwf) as Hr. set (v := round id peers h vs) in *.
  destruct (already_voted v sender || _) eqn:E1.
  { intros [= <-] h' v'. rewrite lookup_insert. case_decide; [by intros [= <-]|apply Hwf]. }
  apply orb_false_iff in E1 as [Hv Ho]. apply bool_decide_eq_false, eq_None_not_Some in Ho.
  destruct (decide _); intros [= <-] h' v'; rewrite lookup_insert; case_decide;
    try apply Hwf; intros [= <-]; [|done]. by apply counted_wf.
Qed.
End facts.
End VotingFacts.
