(* ===== verification/VotingTheorems.v ===== *)
(** * Voting: theorems

    The rounds of [handle_voting_vote] over sequences of votes. *)

From S2P Require Import Prelude Platform Transactions Storage Messages Voting.

Module VotingTheorems.
Import Voting VotingFacts.
Section theorems.
Context {P : Platform}.
Implicit Types (v : VotingConsensus) (vs : Votings).

(** A vote as the engine receives it, with the peers known at the time. *)
Record vote : Type := mkVote {
  vote_hash : BlockHash;
  vote_from : PeerId;
  vote_approve : bool;
  vote_peers : list PeerId;
}.

(** The effects of a sequence of votes at peer [id], in order. *)
Fixpoint run_votes {E} (id : PeerId) (votes : list vote) : M Votings E (list ConsensusEffect) :=
  match votes with
  | [] => ret []
  | x :: votes =>
      let* effects := handle_voting_vote id (vote_peers x) (vote_hash x) (vote_from x) (vote_approve x) in
      let* more := run_votes id votes in
      ret (effects ++ more)
  end.

(** The decisions on [h] among the effects. *)
Definition decisions (h : BlockHash) (effects : list ConsensusEffect) : list ConsensusEffect :=
  filter (λ e, e = CommitBlock h ∨ e = RollbackBlock h) effects.

Lemma decisions_app h l1 l2 : decisions h (l1 ++ l2) = decisions h l1 ++ decisions h l2.
Proof. apply filter_app. Qed.

Lemma handle_total {E} id peers h f a vs :
  ∃ effects vs', handle_voting_vote (E := E) id peers h f a vs = Ret effects vs'.
Proof. rewrite handle_cases. cbv zeta. repeat case_match; eauto. Qed.

(** A call on another block leaves this block's round alone. *)
Lemma handle_other {E} id peers h h' f a vs effects vs' :
  handle_voting_vote (E := E) id peers h' f a vs = Ret effects vs' → h' ≠ h →
  vs' !! h = vs !! h ∧ decisions h effects = [].
Proof.
  rewrite handle_cases. cbv zeta. intros H Hne.
  assert (Hd : ∀ e e', (e = CommitBlock h' ∧ e' = BlockApproved h') ∨ (e = RollbackBlock h' ∧ e' = BlockReject h') →
    decisions h [e; Broadcast e'] = []).
  { intros e e' He. unfold decisions. rewrite !filter_cons_False; [done|..]; destruct He as [[-> ->]|[-> ->]];
      intros [|]; congruence. }
  revert H. destruct (already_voted _ _ || _);
    [|destruct (decide _); [destruct (verdict _)|]]; intros [= <- <-];
    rewrite ?lookup_insert_ne by done; (split; [done|]); try done; apply Hd; tauto.
Qed.

(** A decided round stays as it is and decides nothing more. *)
Lemma handle_decided {E} id peers h f a vs effects vs' v o :
  handle_voting_vote (E := E) id peers h f a vs = Ret effects vs' →
  vs !! h = Some v → outcome v = Some o → vs' !! h = Some v ∧ effects = [].
Proof.
  rewrite handle_cases. unfold round. intros H Hv Ho. rewrite Hv in H. cbn in H.
  rewrite Ho, orb_true_r in H. injection H as <- <-. by rewrite lookup_insert_eq.
Qed.

(** An undecided round decides at most once, and records the decision. *)
Lemma handle_decides {E} id peers h f a vs effects vs' :
  handle_voting_vote (E := E) id peers h f a vs = Ret effects vs' →
  decisions h effects = [] ∨
  ((decisions h effects = [CommitBlock h] ∨ decisions h effects = [RollbackBlock h]) ∧
   ∃ v o, vs' !! h = Some v ∧ outcome v = Some o).
Proof.
  rewrite handle_cases. cbv zeta. destruct (already_voted _ _ || _); [intros [= <- <-]; by left|].
  destruct (decide _); [|intros [= <- <-]; by left].
  set (v := counted _ _ _). destruct (verdict v) eqn:Ev; intros [= <- <-]; [by left|right..].
  - split; [left; unfold decisions; rewrite filter_cons_True, filter_cons_False; naive_solver|].
    exists (decided v), Approved. rewrite lookup_insert_eq. split; [done|].
    unfold decided. by rewrite Ev, decide_True.
  - split; [right; unfold decisions; rewrite filter_cons_True, filter_cons_False; naive_solver|].
    exists (decided v), Rejected. rewrite lookup_insert_eq. split; [done|].
    unfold decided. by rewrite Ev, decide_True.
Qed.

Lemma run_decided {E} id votes h vs effects vs' v o :
  run_votes (E := E) id votes vs = Ret effects vs' →
  vs !! h = Some v → outcome v = Some o → decisions h effects = [].
Proof.
  revert vs effects. induction votes as [|x votes IH]; intros vs effects; cbn [run_votes].
  { by intros [= <- <-]. }
  intros (eff & vs1 & H1 & H2)%bind_Ret Hv Ho. apply bind_Ret in H2 as (more & vs2 & H2 & [= <- <-]).
  rewrite decisions_app. destruct (decide (vote_hash x = h)) as [<-|Hne].
  - destruct (handle_decided _ _ _ _ _ _ _ _ _ _ H1 Hv Ho) as [Hv1 ->]. by rewrite (IH _ _ H2 Hv1 Ho).
  - destruct (handle_other _ _ _ _ _ _ _ _ _ H1 Hne) as [Hv1 ->]. rewrite <-Hv1 in Hv.
    by rewrite (IH _ _ H2 Hv Ho).
Qed.

(** C32. A block is decided at most once: whatever votes arrive, in whatever
    order, repeated or from strangers, the engine asks for at most one commit
    or rollback of each block. *)
Theorem voting_decides_once {E} id votes h vs effects vs' :
  run_votes (E := E) id votes vs = Ret effects vs' → (length (decisions h effects) ≤ 1)%nat.
Proof.
  revert vs effects. induction votes as [|x votes IH]; intros vs effects; cbn [run_votes].
  { intros [= <- <-]. cbn. lia. }
  intros (eff & vs1 & H1 & H2)%bind_Ret. apply bind_Ret in H2 as (more & vs2 & H2 & [= <- <-]).
  rewrite decisions_app, length_app. specialize (IH _ _ H2).
  destruct (decide (vote_hash x = h)) as [<-|Hne].
  - destruct (handle_decides _ _ _ _ _ _ _ _ H1) as [->|[Hd (v & o & Hv & Ho)]]; [done|].
    rewrite (run_decided _ _ _ _ _ _ _ _ H2 Hv Ho). by destruct Hd as [->| ->].
  - destruct (handle_other _ _ _ _ _ _ _ _ _ H1 Hne) as [_ ->]. done.
Qed.

(** The round a vote is for; a new one is of the peers known at the time. *)
Definition open_round id peers h vs : VotingConsensus :=
  match vs !! h with
  | Some v => v
  | None => mkVotingConsensus ({[ id ]} ∪ list_to_set peers) ∅ ∅ None
  end.

(** Whose vote counts: a participant's first, in a round without a decision. *)
Definition counts v (sender : PeerId) : Prop :=
  sender ∈ v_participants v ∧ sender ∉ approvals v ∧ sender ∉ rejections v ∧ outcome v = None.

(** What a counted vote leaves and asks for. *)
Record vote_counted v (sender : PeerId) (approve : bool) h v' (effects : list ConsensusEffect) : Prop := {
  vc_approvals : approvals v' = (if approve then {[ sender ]} ∪ approvals v else approvals v);
  vc_rejections : rejections v' = (if approve then rejections v else {[ sender ]} ∪ rejections v);
  vc_decision :
    (effects = [CommitBlock h; Broadcast (BlockApproved h)] ∧ outcome v' = Some Approved ∧
       (threshold v ≤ size (approvals v'))%nat) ∨
    (effects = [RollbackBlock h; Broadcast (BlockReject h)] ∧ outcome v' = Some Rejected ∧
       (size (approvals v') < threshold v ∧ veto v ≤ size (rejections v'))%nat) ∨
    (effects = [] ∧ outcome v' = None ∧ (size (approvals v') < threshold v ∧ size (rejections v') < veto v)%nat);
}.

Lemma handle_spec {E} id peers h sender approve vs effects vs' :
  handle_voting_vote (E := E) id peers h sender approve vs = Ret effects vs' →
  let v := open_round id peers h vs in
  ∃ v', vs' = <[h := v']> vs ∧ v_participants v' = v_participants v ∧
    (counts v sender → vote_counted v sender approve h v' effects) ∧
    (¬ counts v sender → v' = v ∧ effects = []).
Proof.
  intros Hrun v. rewrite handle_cases in Hrun. cbv zeta in Hrun.
  assert (Hround : round id peers h vs = v) by (unfold v, open_round, round; by destruct (vs !! h)).
  rewrite Hround in Hrun. unfold counts, already_voted in *.
  destruct (bool_decide _ || bool_decide _ || bool_decide _) eqn:Ev.
  { injection Hrun as <- <-. exists v. split_and!; [done..| |done]. intros (_ & Ha & Hr & Ho).
    by rewrite bool_decide_eq_false_2, bool_decide_eq_false_2, bool_decide_eq_false_2 in Ev
      by (done || (rewrite Ho; by intros [])). }
  apply orb_false_iff in Ev as [[Ha%bool_decide_eq_false Hr%bool_decide_eq_false]%orb_false_iff
    Ho%bool_decide_eq_false%eq_None_not_Some].
  destruct (decide (sender ∈ v_participants v)) as [Hin|Hni]; injection Hrun as <- <-.
  - exists (decided (counted v sender approve)). pose proof (verdict_spec (counted v sender approve)) as Hspec.
    assert (Hp : v_participants (counted v sender approve) = v_participants v) by by destruct approve.
    assert (Ho' : outcome (counted v sender approve) = None) by by destruct approve.
    assert (Hca : approvals (counted v sender approve) = (if approve then {[ sender ]} ∪ approvals v else approvals v))
      by by destruct approve.
    assert (Hcr : rejections (counted v sender approve) = (if approve then rejections v else {[ sender ]} ∪ rejections v))
      by by destruct approve.
    unfold decided, threshold, veto in *. rewrite Hp in Hspec. split_and!; [done|by case_decide| |tauto].
    intros _. destruct (verdict _) eqn:E1; case_decide; try done;
      (split; [exact Hca|exact Hcr|]); cbn; rewrite <-?Hcr in *; tauto.
  - exists v. split_and!; [done..|tauto|done].
Qed.

(** C33. What a vote does: the rounds stay well formed; a vote that counts (a
    participant's first in an undecided round) is put on record on its side,
    and then a commit is asked for and recorded exactly if there are at least
    2f+1 approvals, otherwise a rollback exactly if there are at least f
    rejections, f being a third of the others, and otherwise nothing is asked
    for and the round stays open; a vote that does not count changes and asks
    for nothing; other rounds are left alone. *)
Theorem voting_decision_justified {E} id peers h sender approve vs effects vs' :
  votings_wf vs →
  handle_voting_vote (E := E) id peers h sender approve vs = Ret effects vs' →
  let v := open_round id peers h vs in
  votings_wf vs' ∧ (∀ h', h' ≠ h → vs' !! h' = vs !! h') ∧
  ∃ v', vs' !! h = Some v' ∧ v_participants v' = v_participants v ∧
    (counts v sender → vote_counted v sender approve h v' effects) ∧
    (¬ counts v sender → v' = v ∧ effects = []).
Proof.
  intros Hwf Hrun v. split; [|split].
  - eapply (handle_wf (E := E)); [exact Hwf|]. by rewrite Hrun.
  - destruct (handle_spec _ _ _ _ _ _ _ _ Hrun) as (v' & -> & _). intros h' Hne. by apply lookup_insert_ne.
  - destruct (handle_spec _ _ _ _ _ _ _ _ Hrun) as (v' & -> & H). exists v'. by rewrite lookup_insert_eq.
Qed.

(** With up to three participants f is zero: the first counted vote alone
    decides, an approval commits the block and a rejection rolls it back. *)
Theorem first_vote_decides_small {E} id peers h sender approve vs :
  vs !! h = None → (size ({[ id ]} ∪ list_to_set peers : gset PeerId) ≤ 3)%nat →
  sender ∈ id :: peers →
  ∃ vs', handle_voting_vote (E := E) id peers h sender approve vs =
    Ret (if approve then [CommitBlock h; Broadcast (BlockApproved h)]
         else [RollbackBlock h; Broadcast (BlockReject h)]) vs'.
Proof.
  intros Hvs Hsz Hin. rewrite handle_cases. unfold round. rewrite Hvs. cbn -[size].
  rewrite decide_True by (rewrite elem_of_cons in Hin; set_solver).
  eexists. f_equal. unfold verdict, evaluate_outcome.
  assert (Hf : ((size ({[ id ]} ∪ list_to_set peers : gset PeerId) - 1) / 3 = 0)%nat).
  { apply Nat.div_small. lia. }
  destruct approve; cbn -[size Nat.div]; rewrite Hf, ?size_empty; [|done].
  rewrite decide_True; [done|]. rewrite (union_empty_r_L {[ sender ]}), size_singleton. lia.
Qed.

(** One vote on a round in a given state, for evaluating examples. *)
Definition vote_result h v (f : PeerId) (a : bool) : list ConsensusEffect * VotingConsensus :=
  if already_voted v f || bool_decide (is_Some (outcome v)) then ([], v)
  else if decide (f ∈ v_participants v) then
    (match verdict (counted v f a) with
     | Approved => [CommitBlock h; Broadcast (BlockApproved h)]
     | Rejected => [RollbackBlock h; Broadcast (BlockReject h)]
     | Pending => []
     end, decided (counted v f a))
  else ([], v).

Lemma handle_result {E} id peers h f a vs v effects v' :
  default (new id peers) (vs !! h) = v → vote_result h v f a = (effects, v') →
  handle_voting_vote (E := E) id peers h f a vs = Ret effects (<[h := v']> vs).
Proof.
  intros Hv. rewrite handle_cases. unfold round. rewrite Hv. unfold vote_result. cbv zeta.
  repeat case_match; by intros [= <- <-].
Qed.

Lemma run_votes_cons {E} id x votes vs effects v' :
  vote_result (vote_hash x) (default (new id (vote_peers x)) (vs !! vote_hash x))
    (vote_from x) (vote_approve x) = (effects, v') →
  run_votes (E := E) id (x :: votes) vs =
    bind (run_votes id votes) (λ more, ret (effects ++ more)) (<[vote_hash x := v']> vs).
Proof. intros H. cbn [run_votes]. unfold bind at 1. by erewrite handle_result. Qed.

#[local] Ltac run_examples :=
  repeat (erewrite run_votes_cons;
    [unfold bind at 1|cbn [vote_hash vote_from vote_approve vote_peers];
      rewrite ?lookup_empty, ?lookup_insert_ne, ?lookup_insert_eq by done; vm_compute; reflexivity]);
  reflexivity.

(** The outcome depends on the order of the votes: with four participants
    the same three approvals and one rejection commit the block if the
    rejection comes last and roll it back if it comes first. *)
Theorem vote_order_decides {E} h :
  let peers := [2; 3; 4] in
  let yes x := mkVote h x true peers in let no x := mkVote h x false peers in
  (∃ vs', run_votes (E := E) 1 [yes 1; yes 2; yes 3; no 4] ∅ =
          Ret [CommitBlock h; Broadcast (BlockApproved h)] vs') ∧
  (∃ vs', run_votes (E := E) 1 [no 4; yes 1; yes 2; yes 3] ∅ =
          Ret [RollbackBlock h; Broadcast (BlockReject h)] vs').
Proof.
  intros peers yes no. split; eexists; run_examples.
Qed.

(** Who voted for [h] in a sequence of votes. *)
Definition approvers (h : BlockHash) (votes : list vote) : gset PeerId :=
  list_to_set (vote_from <$> filter (λ x, vote_hash x = h ∧ vote_approve x = true) votes).

Lemma elem_of_approvers h votes q :
  q ∈ approvers h votes ↔ ∃ x, x ∈ votes ∧ vote_hash x = h ∧ vote_approve x = true ∧ vote_from x = q.
Proof.
  unfold approvers. rewrite elem_of_list_to_set, list_elem_of_fmap. split.
  - intros (x & -> & [[? ?] ?]%list_elem_of_filter). eauto.
  - intros (x & ? & ? & ? & <-). exists x. split; [done|]. by apply list_elem_of_filter.
Qed.

(** A node whose rounds are of [members] and rest on the votes cast so far. *)
Definition backed (members : gset PeerId) (past : list vote) vs : Prop :=
  ∀ h v, vs !! h = Some v → v_participants v = members ∧ approvals v ⊆ approvers h past.

Lemma handle_backed {E} id members past x vs effects vs' :
  {[ id ]} ∪ list_to_set (vote_peers x) = members → votings_wf vs → backed members past vs →
  handle_voting_vote (E := E) id (vote_peers x) (vote_hash x) (vote_from x) (vote_approve x) vs = Ret effects vs' →
  votings_wf vs' ∧ backed members (past ++ [x]) vs' ∧
  ∀ h, CommitBlock h ∈ effects → ∃ Q, Q ⊆ members ∧ Q ⊆ approvers h (past ++ [x]) ∧
    (2 * ((size members - 1) / 3) + 1 ≤ size Q)%nat.
Proof.
  intros Hm Hwf Hb Hrun.
  assert (Hwf' : votings_wf vs') by (eapply (handle_wf (E := E)); [exact Hwf|by rewrite Hrun]). split; [done|].
  destruct (handle_spec _ _ _ _ _ _ _ _ Hrun) as (v' & -> & Hp & Hc & Hn).
  set (v := open_round id (vote_peers x) (vote_hash x) vs) in *.
  assert (Hv : v_participants v = members ∧ approvals v ⊆ approvers (vote_hash x) past).
  { unfold v, open_round. destruct (vs !! vote_hash x) as [w|] eqn:E1; [by apply Hb|]. cbn. split; [done|set_solver]. }
  assert (Hmono : ∀ h, approvers h past ⊆ approvers h (past ++ [x])).
  { intros h q (y & Hy & Hq)%elem_of_approvers. apply elem_of_approvers. exists y. split; [|done].
    apply elem_of_app. by left. }
  assert (Hv' : approvals v' ⊆ approvers (vote_hash x) (past ++ [x]) ∧
    ∀ h, CommitBlock h ∈ effects → h = vote_hash x ∧ (threshold v ≤ size (approvals v'))%nat).
  { destruct (decide (counts v (vote_from x))) as [Hy|Hy].
    - destruct (Hc Hy) as [Ha _ Hd]. split.
      + rewrite Ha. destruct (vote_approve x) eqn:Ex; [|set_solver]. apply union_subseteq. split; [|set_solver].
        apply singleton_subseteq_l, elem_of_approvers. exists x. split; [|done]. apply elem_of_app. right. by left.
      + intros h. destruct Hd as [(-> & _ & Ht)|[(-> & _)|(-> & _)]];
          intros Hin; repeat apply elem_of_cons in Hin as [Hin|Hin]; try done; try by apply not_elem_of_nil in Hin.
        injection Hin as ->. done.
    - destruct (Hn Hy) as [-> ->]. split; [set_solver|]. intros h Hin. by apply not_elem_of_nil in Hin. }
  destruct Hv' as [Hsub Hd]. split.
  - intros h w [[<- <-]|[_ Hw]]%lookup_insert_Some; [split; [by rewrite Hp; apply Hv|done]|].
    destruct (Hb h w Hw) as [H1 H2]. split; [done|]. specialize (Hmono h). set_solver.
  - intros h [-> Ht]%Hd. exists (approvals v'). pose proof (Hwf' (vote_hash x) v' (lookup_insert_eq _ _ _)) as Hw.
    split_and!; [|done|].
    + pose proof (vw_approvals _ Hw) as Ha. by rewrite Hp, (proj1 Hv) in Ha.
    + unfold threshold in Ht. by rewrite (proj1 Hv) in Ht.
Qed.

(** A commit has a quorum of votes behind it. *)
Lemma commit_has_quorum {E} id members votes h :
  (∀ x, x ∈ votes → {[ id ]} ∪ list_to_set (vote_peers x) = members) →
  ∀ past vs effects vs', votings_wf vs → backed members past vs →
  run_votes (E := E) id votes vs = Ret effects vs' → CommitBlock h ∈ effects →
  ∃ Q, Q ⊆ members ∧ Q ⊆ approvers h (past ++ votes) ∧ (2 * ((size members - 1) / 3) + 1 ≤ size Q)%nat.
Proof.
  intros Hm. induction votes as [|x votes IH]; intros past vs effects vs' Hwf Hb; cbn [run_votes].
  { intros [= <- _] Hin. by apply not_elem_of_nil in Hin. }
  intros (eff & vs1 & H1 & (more & vs2 & H2 & [= <- <-])%bind_Ret)%bind_Ret Hin.
  destruct (handle_backed (E := E) id members past x vs eff vs1) as (Hwf1 & Hb1 & Hq); [apply Hm; by left|done..|].
  apply elem_of_app in Hin as [Hin|Hin].
  - destruct (Hq h Hin) as (Q & HQ1 & HQ2 & HQ3). exists Q. split_and!; [done| |done].
    etrans; [exact HQ2|]. intros q (y & Hy & Hq')%elem_of_approvers. apply elem_of_approvers. exists y.
    split; [|done]. set_solver.
  - destruct (IH (λ y Hy, Hm y (list_elem_of_further _ _ _ Hy)) (past ++ [x]) vs1 more vs2 Hwf1 Hb1 H2 Hin) as (Q & HQ).
    exists Q. by rewrite <-app_assoc in HQ.
Qed.

(** C34. Two conflicting commits need f+1 peers that vote for both blocks: if
    the engines of two peers of the same 3f+1 participants, each from the start
    and over any sequence of votes, ask for the commits of two blocks, then there
    are at least f+1 peers in whose name an approval of the first block came to
    the one and an approval of the second to the other; so if at most f peers
    approve of two conflicting blocks, no two such are committed. *)
Theorem approval_quorums_intersect {E} (members : gset PeerId) f id1 id2 votes1 votes2 h1 h2 effects1 effects2 vs1 vs2 :
  size members = (3 * f + 1)%nat →
  (∀ x, x ∈ votes1 → {[ id1 ]} ∪ list_to_set (vote_peers x) = members) →
  (∀ x, x ∈ votes2 → {[ id2 ]} ∪ list_to_set (vote_peers x) = members) →
  run_votes (E := E) id1 votes1 ∅ = Ret effects1 vs1 → run_votes (E := E) id2 votes2 ∅ = Ret effects2 vs2 →
  CommitBlock h1 ∈ effects1 → CommitBlock h2 ∈ effects2 →
  (f + 1 ≤ size (approvers h1 votes1 ∩ approvers h2 votes2))%nat.
Proof.
  intros Hn Hm1 Hm2 Hr1 Hr2 Hc1 Hc2.
  assert (H0 : votings_wf ∅ ∧ backed members [] ∅) by (split; intros h v; by rewrite lookup_empty). destruct H0 as [Hw Hb].
  destruct (commit_has_quorum (E := E) id1 members votes1 h1 Hm1 [] ∅ effects1 vs1 Hw Hb Hr1 Hc1) as (Q1 & S1 & A1 & N1).
  destruct (commit_has_quorum (E := E) id2 members votes2 h2 Hm2 [] ∅ effects2 vs2 Hw Hb Hr2 Hc2) as (Q2 & S2 & A2 & N2).
  rewrite Hn in N1, N2. replace ((3 * f + 1 - 1) / 3)%nat with f in * by (rewrite Nat.add_sub, Nat.mul_comm, Nat.div_mul; lia).
  pose proof (subsets_overlap Q1 Q2 members S1 S2) as Ho.
  assert (Hle : (size (Q1 ∩ Q2) ≤ size (approvers h1 votes1 ∩ approvers h2 votes2))%nat) by (apply subseteq_size; set_solver).
  lia.
Qed.

(** With six participants they need not meet at all: two different blocks
    are each committed on the approvals of disjoint halves. *)
Theorem six_peers_disjoint_quorums {E} (h1 h2 : BlockHash) :
  h1 ≠ h2 →
  let peers := [1; 2; 3; 4; 5; 6] in
  let yes h x := mkVote h x true peers in
  ∃ vs', run_votes (E := E) 1 [yes h1 1; yes h1 2; yes h1 3; yes h2 4; yes h2 5; yes h2 6] ∅ =
    Ret [CommitBlock h1; Broadcast (BlockApproved h1); CommitBlock h2; Broadcast (BlockApproved h2)] vs'.
Proof.
  intros Hne peers yes. eexists. run_examples.
Qed.

(** With four or more participants a valid proposal is never decided: the
    proposer counts one vote, a validating peer two, and neither sends
    anything, so no peer ever learns of another's approval. *)
Theorem valid_proposal_stalls {E} id proposer peers h vs :
  (4 ≤ size ({[ id ]} ∪ list_to_set peers : gset PeerId))%nat → vs !! h = None →
  (∃ vs', on_local_block_proposed (E := E) id h peers vs = Ret [] vs') ∧
  (∃ vs', on_block_proposal_validated (E := E) id h proposer true peers vs = Ret [] vs').
Proof.
  intros Hsz Hvs.
  assert (Hf : (1 ≤ (size ({[ id ]} ∪ list_to_set peers : gset PeerId) - 1) / 3)%nat).
  { apply Nat.div_le_lower_bound; lia. }
  assert (Hpend : ∀ v, v_participants v = {[ id ]} ∪ list_to_set peers →
    (size (approvals v) ≤ 2)%nat → rejections v = ∅ → verdict v = Pending).
  { intros v Hp Ha Hr. unfold verdict, evaluate_outcome. rewrite Hp, Hr, size_empty.
    rewrite !decide_False by lia. done. }
  assert (H1 : ∀ f, handle_voting_vote (E := E) id peers h f true vs =
    Ret [] (<[h := if decide (f ∈ ({[ id ]} ∪ list_to_set peers : gset PeerId))
                   then counted (new id peers) f true else new id peers]> vs)).
  { intros f. rewrite handle_cases. unfold round. rewrite Hvs. cbn -[size]. case_decide; [|done].
    unfold decided. rewrite Hpend; [done|done| |done].
    cbn. rewrite (union_empty_r_L {[ f ]}), size_singleton. lia. }
  split.
  - eexists. apply H1.
  - unfold on_block_proposal_validated. rewrite (bind_of _ _ _ _ _ (H1 proposer)), decide_True by done.
    unfold bind. rewrite handle_cases. unfold round. rewrite lookup_insert_eq. cbn [default].
    cbv zeta. destruct (already_voted _ _ || _); [by eexists|].
    destruct (decide _); [|by eexists]. rewrite Hpend; [by eexists|..].
    + by case_decide.
    + case_decide; cbn.
      * rewrite size_union_alt, size_singleton.
        pose proof (subseteq_size (({[ proposer ]} ∪ ∅) ∖ {[ id ]}) ({[ proposer ]} : gset PeerId)) as Hs.
        rewrite size_singleton in Hs. specialize (Hs ltac:(set_solver)). lia.
      * rewrite (union_empty_r_L {[ id ]}), size_singleton. lia.
    + by case_decide.
Qed.

(** With up to three participants a peer approves what it could not
    validate: the proposer's own vote decides, so the peer that found the
    block invalid asks for its commit and broadcasts its approval. *)
Theorem invalid_proposal_approved {E} id proposer peers h vs :
  (size ({[ id ]} ∪ list_to_set peers : gset PeerId) ≤ 3)%nat → vs !! h = None →
  proposer ∈ peers →
  ∃ vs', on_block_proposal_validated (E := E) id h proposer false peers vs =
    Ret [CommitBlock h; Broadcast (BlockApproved h)] vs'.
Proof.
  intros Hsz Hvs Hin. unfold on_block_proposal_validated.
  assert (H1 : ∃ vs', handle_voting_vote (E := E) id peers h proposer true vs =
    Ret [CommitBlock h; Broadcast (BlockApproved h)] vs').
  { rewrite handle_cases. unfold round. rewrite Hvs. cbn -[size].
    rewrite decide_True by set_solver. eexists. f_equal. unfold verdict, evaluate_outcome.
    cbn -[size Nat.div]. rewrite Nat.div_small by lia.
    rewrite decide_True; [done|]. rewrite (union_empty_r_L {[ proposer ]}), size_singleton. lia. }
  destruct H1 as [vs' H1]. rewrite (bind_of _ _ _ _ _ H1). by eexists.
Qed.
End theorems.
End VotingTheorems.
