(* ===== verification/Consensus.v ===== *)
(** * peer/consensus.rs: the two engines behind one interface

    [ConsensusEngine] dispatches every call to the voting rounds or to the Raft
    node.  Raft writes its log store, so the methods run on an engine with the
    disk it works on. *)

From S2P Require Import Prelude Platform Transactions Storage Messages RaftLogStore Raft Voting.

Inductive ConsensusEngine `{Platform} : Type :=
  | EngineVoting (id : PeerId) (votings : Votings)
  | EngineRaft (raft : RaftConsensus).

Inductive ConsensusState : Type :=
  | StateVoting
  | StateRaft (s : RaftPublicState).
#[export] Instance ConsensusState_eq_dec : EqDecision ConsensusState.
Proof. solve_decision. Defined.

Record EngineS `{Platform} : Type := mkEngineS {
  engine : ConsensusEngine;
  engine_disk : Disk;
}.
Arguments mkEngineS {_}.

Module ConsensusEngine.
Section engine.
Context {BP : BuildProfile} {P : Platform} {HO : HashOrder}.
Context `{!Serde PersistedRaftLogState, !Serde (list SignedTransaction), !Serde BlockFile}.

Definition EngineM := M EngineS.

(** Running a method of the variant. *)
Definition with_votings {E A} (id : PeerId) (votings : Votings) (m : M Votings E A) : EngineM E A := λ s,
  match m votings with
  | Ret a votings => Ret a (mkEngineS (EngineVoting id votings) (engine_disk s))
  | Err e votings => Err e (mkEngineS (EngineVoting id votings) (engine_disk s))
  | Panic => Panic
  end.
Definition with_raft {E A} (r : RaftConsensus) (m : M RaftS E A) : EngineM E A := λ s,
  match m (mkRaftS r (engine_disk s)) with
  | Ret a s' => Ret a (mkEngineS (EngineRaft (raft s')) (raft_disk s'))
  | Err e s' => Err e (mkEngineS (EngineRaft (raft s')) (raft_disk s'))
  | Panic => Panic
  end.

Definition new_voting (id : PeerId) : ConsensusEngine := EngineVoting id ∅.

Definition new_raft (draw now : N) (id : PeerId) (d : Disk) : option ConsensusEngine :=
  EngineRaft <$> RaftConsensus.new draw now id d.

Definition new_raft_with_storage (draw now : N) (id : PeerId) (store : AnyRaftLogStore)
    (ci : N) (d : Disk) : result ConsensusEngine string :=
  match RaftConsensus.new_with_storage draw now id store ci d with
  | Ok r => Ok (EngineRaft r)
  | Error e => Error e
  end.

Definition requires_tick (c : ConsensusEngine) : bool :=
  match c with EngineVoting _ _ => false | EngineRaft _ => true end.

Definition state (c : ConsensusEngine) : ConsensusState :=
  match c with
  | EngineVoting _ _ => StateVoting
  | EngineRaft r => StateRaft (RaftConsensus.state r)
  end.

Definition on_client_transaction (client_tx : SignedTransaction) : EngineM string (list ConsensusEffect) :=
  let* c := gets engine in
  match c with
  | EngineVoting _ _ => ret (Voting.on_client_transaction client_tx)
  | EngineRaft r => with_raft r (RaftConsensus.on_client_transaction client_tx)
  end.

Definition on_block_created (h : BlockHash) : EngineM string (list ConsensusEffect) :=
  let* c := gets engine in
  match c with
  | EngineVoting _ _ => ret (Voting.on_block_created h)
  | EngineRaft r => with_raft r (RaftConsensus.on_block_created h)
  end.

Definition on_local_block_proposed (h : BlockHash) (known_peers : list PeerId) : EngineM string (list ConsensusEffect) :=
  let* c := gets engine in
  match c with
  | EngineVoting id votings =>
      with_votings id votings (Voting.on_local_block_proposed id h known_peers)
  | EngineRaft _ => ret []
  end.

Definition on_block_proposal_validated (h : BlockHash) (proposer : PeerId) (valid : bool)
    (known_peers : list PeerId) : EngineM string (list ConsensusEffect) :=
  let* c := gets engine in
  match c with
  | EngineVoting id votings =>
      with_votings id votings (Voting.on_block_proposal_validated id h proposer valid known_peers)
  | EngineRaft _ => ret []
  end.

Definition on_block_vote (h : BlockHash) (sender : PeerId) (approve : bool)
    (known_peers : list PeerId) : EngineM string (list ConsensusEffect) :=
  let* c := gets engine in
  match c with
  | EngineVoting id votings =>
      with_votings id votings (Voting.on_block_vote id h sender approve known_peers)
  | EngineRaft _ => ret []
  end.

(** A handler only Raft has. *)
Definition raft_only (m : M RaftS string (list ConsensusEffect)) : EngineM string (list ConsensusEffect) :=
  let* c := gets engine in
  match c with
  | EngineVoting _ _ => ret []
  | EngineRaft r => with_raft r m
  end.

Definition on_tick (now : N) (known_peers : list PeerId) : EngineM string (list ConsensusEffect) :=
  raft_only (RaftConsensus.on_tick now known_peers).

Definition on_request_vote (t : N) (candidate : PeerId) (last_index last_term : N) (sender : PeerId) : EngineM string (list ConsensusEffect) :=
  raft_only (RaftConsensus.on_request_vote t candidate last_index last_term sender).

Definition on_request_vote_response (t : N) (voter : PeerId) (granted : bool) : EngineM string (list ConsensusEffect) :=
  raft_only (RaftConsensus.on_request_vote_response t voter granted).

Definition on_append_entries (draw t : N) (leader : PeerId) (prev_index prev_term : N)
    (entries : list RaftReplicatedBlock) (leader_commit : N) (sender : PeerId) (now : N) : EngineM string (list ConsensusEffect) :=
  raft_only (RaftConsensus.on_append_entries draw t leader prev_index prev_term entries
               leader_commit sender now).

Definition on_append_entries_response (t : N) (sender : PeerId) (success : bool) (match_index : N) : EngineM string (list ConsensusEffect) :=
  raft_only (RaftConsensus.on_append_entries_response t sender success match_index).

Definition take_pending_raft_block {E} (h : BlockHash) : EngineM E (option BlockFile) :=
  let* c := gets engine in
  match c with
  | EngineVoting _ _ => ret None
  | EngineRaft r => with_raft r (RaftConsensus.take_pending_block h)
  end.

Definition on_message (draw : N) (sender : PeerId) (body : MessageBody) (now : N) : EngineM string (list ConsensusEffect) :=
  match body with
  | RaftRequestVote t candidate last_index last_term =>
      on_request_vote t candidate last_index last_term sender
  | RaftRequestVoteResponse t granted => on_request_vote_response t sender granted
  | RaftAppendEntries t leader prev_index prev_term entries leader_commit =>
      on_append_entries draw t leader prev_index prev_term entries leader_commit sender now
  | RaftAppendEntriesResponse t success match_index =>
      on_append_entries_response t sender success match_index
  | other => throw (body_display other +:+ " must be validated by Peer before reaching consensus")
  end.
End engine.

#[global] Arguments on_client_transaction : simpl never.
#[global] Arguments on_block_created : simpl never.
#[global] Arguments on_local_block_proposed : simpl never.
#[global] Arguments on_block_proposal_validated : simpl never.
#[global] Arguments on_block_vote : simpl never.
#[global] Arguments on_tick : simpl never.
#[global] Arguments on_message : simpl never.
#[global] Arguments take_pending_raft_block : simpl never.
End ConsensusEngine.
