(* ===== verification/Network.v ===== *)
(** * network: the interface peers use, and its two implementations

    [NetworkInterface] is the trait of network/mod.rs as far as a peer calls it
    synchronously.  Its implementations are [LocalNetwork] (in-process
    channels, network/local_network.rs) and [RestNetwork] (spawned HTTP
    requests, network/rest_network.rs); a request that was spawned is recorded
    in an outbox, since the code neither awaits nor inspects it.  The awaiting
    calls ([send_and_wait], [send_to_all]) are modelled with the answers of the
    peers as an argument. *)

From S2P Require Import Prelude Platform Transactions Storage Messages.

(** ** network/mod.rs *)

(** [SocketAddr], which the code only stores, compares and prints. *)
Record SocketAddr : Type := mkSocketAddr { ip : N; port : N }.
#[export] Instance SocketAddr_eq_dec : EqDecision SocketAddr.
Proof. solve_decision. Defined.

Record RegisterRequest : Type := mkRegisterRequest {
  rr_peer_id : PeerId;
  rr_addr : SocketAddr;
}.

Record PeerWithAddr : Type := mkPeerWithAddr {
  pa_peer_id : PeerId;
  pa_addr : SocketAddr;
}.

Inductive Method : Type := GET | POST.
#[export] Instance Method_eq_dec : EqDecision Method.
Proof. solve_decision. Defined.

Definition REGISTER_PATH : string := "/register".
Definition GET_PEERS_PATH : string := "/peers".
Definition HANDLE_PEER_MESSAGE_PATH : string := "/handle".
Definition LATEST_BLOCK_STATE_PATH : string := "/block/state/latest".

Inductive NetworkMessage `{Platform} : Type :=
  | GetLatestBlockState
  | GetBlockState (index : N)
  | GetBlock (index : N)
  | PeerMessage (m : Message)
  | Register (r : RegisterRequest)
  | GetPeers.

Module NetworkMessage.
Section network_message.
Context {P : Platform} `{!Serde Message, !Serde RegisterRequest}.

Definition path (m : NetworkMessage) : string :=
  match m with
  | GetLatestBlockState => LATEST_BLOCK_STATE_PATH
  | GetBlockState idx => "/block/state/" +:+ pretty idx
  | GetBlock idx => "/block/" +:+ pretty idx
  | PeerMessage _ => HANDLE_PEER_MESSAGE_PATH
  | Register _ => REGISTER_PATH
  | GetPeers => GET_PEERS_PATH
  end.

Definition method (m : NetworkMessage) : Method :=
  match m with
  | GetLatestBlockState | GetBlockState _ | GetBlock _ | GetPeers => GET
  | PeerMessage _ | Register _ => POST
  end.

(** Every message of the last case of the code is a GET. *)
Definition body (m : NetworkMessage) : bytes :=
  match m with
  | PeerMessage message => to_vec message
  | Register req => to_vec req
  | GetPeers => []
  | GetLatestBlockState | GetBlockState _ | GetBlock _ => []
  end.
End network_message.
End NetworkMessage.

(** [From<&HashMap<PeerId, SocketAddr>> for PeersResponse] *)
Definition PeersResponse_from `{HashOrder} (peers : gmap PeerId SocketAddr) : list PeerWithAddr :=
  (λ '(id, addr), mkPeerWithAddr id addr) <$> map_order peers.

(** ** The interface *)

Class NetworkInterface `{Platform} (Net : Type) : Type := {
  known_peers : Net → list PeerId;
  send_peer_message : ∀ {E}, Message → M Net E unit;
  broadcast_peer_message : ∀ {E}, MessageBody → PeerId → M Net E unit;
  receive_client_message : N → MessageBody → M Net string unit;
  on_message_received : Message → M Net string unit;
}.

(** What a peer relies on: sending relates the network to one in which it knows
    the same peers; an implementation says what else it keeps. *)
Class NetworkLaws `{Platform} (Net : Type) `{!NetworkInterface Net} : Type := {
  sending : relation Net;
  #[global] sending_preorder :: PreOrder sending;
  send_leads {E} m n : leads (E := E) sending n (send_peer_message m);
  broadcast_leads {E} b f n : leads (E := E) sending n (broadcast_peer_message b f);
  sending_peers n n' : sending n n' → known_peers n' = known_peers n;
}.

(** ** local_network.rs *)

(** A bounded channel of [tokio::sync::mpsc], as its sender sees it. *)
Record Channel `{Platform} : Type := mkChannel {
  queue : list Message;
  capacity : nat;
  closed : bool;
}.
Arguments mkChannel {_}.

Definition try_send `{Platform} (c : Channel) (m : Message) : result Channel string :=
  if closed c then Error "channel closed"
  else if decide (capacity c ≤ length (queue c))%nat then Error "no available capacity"
  else Ok (mkChannel (queue c ++ [m]) (capacity c) (closed c)).

Record LocalNetwork `{Platform} : Type := mkLocalNetwork {
  senders : gmap PeerId Channel;
  ln_known_peers : list PeerId;
  block_storage_views : gmap PeerId Storage;
  broadcasted_messages : list MessageBody;
}.
Arguments mkLocalNetwork {_}.
#[export] Instance eta_local `{Platform} : Settable LocalNetwork := λ n,
  mkLocalNetwork (senders n) (ln_known_peers n) (block_storage_views n) (broadcasted_messages n).

(** A request answered in process. *)
Inductive LocalResponse `{Platform} : Type :=
  | LocalState (s : BlockStorageState)
  | LocalBlock (b : BlockFile).

Module LocalNetwork.
Section local.
Context {P : Platform} {HO : HashOrder}.
Context `{!Serde BlockFile}.
(* [keys().choose(..)], as a function of the draw *)
Context (choose : N → list PeerId → option PeerId).

Definition add_peer (id : PeerId) (sender : Channel) (n : LocalNetwork) : LocalNetwork :=
  n <| ln_known_peers ::= λ l, l ++ [id] |> <| senders ::= <[id := sender]> |>.

Definition add_known_peer (id : PeerId) (n : LocalNetwork) : LocalNetwork :=
  n <| ln_known_peers ::= λ l, l ++ [id] |>.

Definition add_block_storage_view (id : PeerId) (view : Storage) (n : LocalNetwork) : LocalNetwork :=
  n <| ln_known_peers ::= λ l, l ++ [id] |> <| block_storage_views ::= <[id := view]> |>.

(** A full or closed channel is a panic of [unwrap]. *)
Definition send {E} (m : Message) : M LocalNetwork E unit :=
  let* n := get in
  match senders n !! to m with
  | Some sender =>
      match try_send sender m with
      | Ok sender => modify (λ n, n <| senders ::= <[to m := sender]> |>)
      | Error _ => panic
      end
  | None => ret tt
  end.

Definition broadcast {E} (message_body : MessageBody) (sender : PeerId) : M LocalNetwork E unit :=
  modify (λ n, n <| broadcasted_messages ::= λ l, l ++ [message_body] |>) ;;;
  let* n := get in
  for_each (map_order (senders n)).*1 (λ to,
    if decide (to ≠ sender) then send (mkMessage sender to message_body) else ret tt).

Definition receive_client (draw : N) (message_body : MessageBody) : M LocalNetwork string unit :=
  let* n := get in
  let* to := ok_or "Warning: No peers to send message to" (choose draw (map_order (senders n)).*1) in
  send (mkMessage 0 to message_body).

(** The channel is looked up under the sender of the message. *)
Definition message_received (m : Message) : M LocalNetwork string unit :=
  let* n := get in
  let* sender := unwrap (senders n !! from m) in
  let* sender := of_result (try_send sender m) in
  modify (λ n, n <| senders ::= <[from m := sender]> |>).

#[export] Instance interface : NetworkInterface LocalNetwork := {|
  known_peers := ln_known_peers;
  send_peer_message E := send;
  broadcast_peer_message E := broadcast;
  receive_client_message := receive_client;
  on_message_received := message_received;
|}.

(** [send_and_wait]; the response goes through JSON unchanged. *)
Definition send_and_wait (n : LocalNetwork) (id : PeerId) (message_body : NetworkMessage) : result LocalResponse string :=
  match block_storage_views n !! id with
  | None => Error "Peer storage view not found"
  | Some view =>
      match message_body with
      | GetLatestBlockState => Ok (LocalState (BlockStorageView.get_latest_state view))
      | GetBlockState idx =>
          match BlockStorageView.get_block view idx with
          | Ok b => Ok (LocalState (state_of_block b))
          | Error e => Error e
          end
      | GetBlock idx =>
          match BlockStorageView.get_block view idx with
          | Ok b => Ok (LocalBlock b)
          | Error e => Error e
          end
      | _ => Error "Unsupported local network request"
      end
  end.
End local.
End LocalNetwork.

(** ** rest_network.rs *)

Definition NETWORK_CHECK_TRIES : nat := 5.

Record RestNetwork `{Platform} : Type := mkRestNetwork {
  rn_peer_id : PeerId;
  rn_known_peers : gmap PeerId SocketAddr;
  peer_sender : Channel;
  outbox : list (SocketAddr * Message);   (* spawned requests, in order *)
}.
Arguments mkRestNetwork {_}.
#[export] Instance eta_rest `{Platform} : Settable RestNetwork := λ n,
  mkRestNetwork (rn_peer_id n) (rn_known_peers n) (peer_sender n) (outbox n).

Module RestNetwork.
Section rest.
Context {P : Platform} {HO : HashOrder}.

Definition new (id : PeerId) (sender : Channel) : RestNetwork := mkRestNetwork id ∅ sender [].

Definition spawn {E} (addr : SocketAddr) (m : Message) : M RestNetwork E unit :=
  modify (λ n, n <| outbox ::= λ l, l ++ [(addr, m)] |>).

Definition send {E} (m : Message) : M RestNetwork E unit :=
  let* n := get in
  match rn_known_peers n !! to m with
  | Some addr => spawn addr m
  | None => ret tt
  end.

Definition broadcast {E} (message_body : MessageBody) (sender : PeerId) : M RestNetwork E unit :=
  let* n := get in
  for_each (map_order (rn_known_peers n)) (λ '(id, addr),
    if decide (id ≠ sender) then spawn addr (mkMessage sender id message_body) else ret tt).

Definition message_received (m : Message) : M RestNetwork string unit :=
  let* n := get in
  let* sender := of_result (try_send (peer_sender n) m) in
  modify (λ n, n <| peer_sender := sender |>).

Definition receive_client (draw : N) (message_body : MessageBody) : M RestNetwork string unit :=
  let* n := get in
  message_received (mkMessage 0 (rn_peer_id n) message_body).

#[export] Instance interface : NetworkInterface RestNetwork := {|
  known_peers n := (map_order (rn_known_peers n)).*1;
  send_peer_message E := send;
  broadcast_peer_message E := broadcast;
  receive_client_message := receive_client;
  on_message_received := message_received;
|}.

(** [update_peers], on the answer of the discovery server. *)
Definition update_peers (answer : result (list PeerWithAddr) string) : M RestNetwork string unit :=
  let* peers := of_result answer in
  modify (λ n, n <| rn_known_peers := ∅ |>) ;;;
  for_each peers (λ peer,
    let* n := get in
    if decide (pa_peer_id peer ≠ rn_peer_id n)
    then modify (λ n, n <| rn_known_peers ::= <[pa_peer_id peer := pa_addr peer]> |>)
    else ret tt).

(** One turn of the loop of [run]: the count of failed checks and whether
    the waiters still have to be notified. *)
Definition run_turn (answer : result (list PeerWithAddr) string) (failed_checks : nat) (notify_waiters : bool) :
    M RestNetwork string (nat * bool) :=
  if decide (NETWORK_CHECK_TRIES ≤ failed_checks)%nat then
    throw "Failed to register with discovery server too many times. Exiting."
  else
    let* r := try_ (update_peers answer) in
    ret match r with
        | Ok _ => (O, false)
        | Error _ => (S failed_checks, notify_waiters)
        end.

(** The turns for the answers of a list (an error may be of the registration
    or of the peer query). *)
Fixpoint run_turns (answers : list (result (list PeerWithAddr) string)) (failed_checks : nat) (notify_waiters : bool) :
    M RestNetwork string (nat * bool) :=
  match answers with
  | [] => ret (failed_checks, notify_waiters)
  | answer :: answers =>
      let* '(failed_checks, notify_waiters) := run_turn answer failed_checks notify_waiters in
      run_turns answers failed_checks notify_waiters
  end.

(** [send_to_all]: which peers are asked, up to the first unknown one, and
    the results, given what each asked peer answers. *)
Fixpoint asked (n : RestNetwork) (peer_ids : list PeerId) : list PeerId * option PeerId :=
  match peer_ids with
  | [] => ([], None)
  | id :: peer_ids =>
      match rn_known_peers n !! id with
      | None => ([], Some id)     (* break *)
      | Some _ => let '(ids, unknown) := asked n peer_ids in (id :: ids, unknown)
      end
  end.

(** One turn of the loop over the handles.  An answer is what [send_message]
    and [deserialize_resp] give for a peer; the latter panics ([None]) on a
    response whose body cannot be read, and with it the task that awaits the
    answers. *)
Definition await_handle {T} (answer : PeerId → option (result T string))
    (results : option (gmap PeerId (result T string))) (id : PeerId) : option (gmap PeerId (result T string)) :=
  results ← results;
  result ← answer id;
  Some (<[id := result]> results).

Definition send_to_all {T} (n : RestNetwork) (answer : PeerId → option (result T string)) (peer_ids : list PeerId) :
    option (gmap PeerId (result T string)) :=
  let '(ids, unknown) := asked n peer_ids in
  let results := match unknown with
                 | Some id => {[ id := Error "Peer not found" ]}
                 | None => ∅
                 end in
  foldl (await_handle answer) (Some results) ids.

Definition send_and_wait {T} (n : RestNetwork) (answer : PeerId → option (result T string)) (id : PeerId) :
    option (result T string) :=
  match rn_known_peers n !! id with
  | Some _ => answer id
  | None => Some (Error "Peer not found")
  end.
End rest.
End RestNetwork.
