(* ===== verification/Effects.v ===== *)
(** * peer/effects.rs: executing what consensus asks for

    [PeerEffects] owns the ledger, the block store, the signing key and the
    network handle.  The methods that also take the consensus engine run on the
    whole [Peer] of peer.rs, which holds both. *)

From S2P Require Import Prelude Platform Crypto Transactions Storage Messages RaftLogStore Raft Voting Consensus Network.

Record PeerEffects `{Platform} {Net : Type} : Type := mkPeerEffects {
  pe_peer_id : PeerId;
  transaction_processor : TransactionProcessor;
  block_keeper : Storage;                (* with the shared cell and the disk *)
  signing_key : SigningKey;
  pe_public_key : VerifyingKey;
  network : Net;
  last_completed_block : BlockHash;
}.
Arguments PeerEffects {_} Net.
Arguments mkPeerEffects {_ _}.
#[export] Instance eta_effects `{Platform} {Net} : Settable (PeerEffects Net) := λ e,
  mkPeerEffects (pe_peer_id e) (transaction_processor e) (block_keeper e) (signing_key e)
    (pe_public_key e) (network e) (last_completed_block e).

(** [struct Peer]; [consensus_state] is the value in the watch channel. *)
Record Peer `{Platform} {Net : Type} : Type := mkPeer {
  id : PeerId;
  consensus : ConsensusEngine;
  consensus_state : ConsensusState;
  effects : PeerEffects Net;
}.
Arguments Peer {_} Net.
Arguments mkPeer {_ _}.
#[export] Instance eta_peer `{Platform} {Net} : Settable (Peer Net) := λ p,
  mkPeer (id p) (consensus p) (consensus_state p) (effects p).

Module PeerEffects.
Section effects.
Context {BP : BuildProfile} {P : Platform} {HO : HashOrder}.
Context `{!Serde PersistedRaftLogState, !Serde (list SignedTransaction), !Serde BlockFile}.
Context `{!Serde Transaction, !Serde SignedTransaction}.
Context {Net : Type} `{!NetworkInterface Net}.

Definition EffectsM := M (PeerEffects Net).
Definition PeerM := M (Peer Net).

Definition new (id : PeerId) (net : Net) (keeper : Storage) (key : SigningKey) : PeerEffects Net :=
  {| pe_peer_id := id;
     transaction_processor := TransactionProcessor_default;
     block_keeper := keeper;
     signing_key := key;
     pe_public_key := verifying_key_from key;
     network := net;
     last_completed_block := EMPTY_HASH |}.

(** Calls of the components a peer owns. *)
Definition on_keeper {E A} (m : M Storage E A) : EffectsM E A :=
  zoom block_keeper (λ k e, e <| block_keeper := k |>) m.
Definition on_ledger {E A} (m : M TransactionProcessor E A) : EffectsM E A :=
  zoom transaction_processor (λ t e, e <| transaction_processor := t |>) m.
Definition on_network {E A} (m : M Net E A) : EffectsM E A :=
  zoom network (λ n e, e <| network := n |>) m.
Definition on_effects {E A} (m : EffectsM E A) : PeerM E A :=
  zoom effects (λ e p, p <| effects := e |>) m.

(** The engine shares the disk with the keeper. *)
Definition on_consensus {E A} (m : M EngineS E A) : PeerM E A :=
  zoom (λ p, mkEngineS (consensus p) (disk (block_keeper (effects p))))
       (λ s p, p <| consensus := engine s |>
                 <| effects ::= λ e, e <| block_keeper ::= λ k, k <| disk := engine_disk s |> |> |>) m.

Definition known_peers (e : PeerEffects Net) : list PeerId := Network.known_peers (network e).

(** A failed transaction is logged and skipped. *)
Definition apply_block_transactions {E} (block_file : BlockFile) : EffectsM E unit :=
  for_each (bf_transactions block_file) (λ tx,
    let* _ := on_ledger (try_ (TransactionProcessor.process_transaction tx)) in
    ret tt).

Definition stage_external_block (block_file : BlockFile) : EffectsM string bool :=
  let* ok := on_keeper (BlockKeeper.block_can_be_added block_file) in
  if negb ok then ret false
  else
    apply_block_transactions block_file ;;;
    map_err verification_error_display (on_keeper (BlockKeeper.add_external_block block_file)) ;;;
    ret true.

Definition apply_synchronized_block (block_file : BlockFile) : EffectsM string unit :=
  let* ok := on_keeper (BlockKeeper.block_can_be_added block_file) in
  if negb ok then
    throw ("Synchronized block " +:+ hash_display (bf_hash block_file)
             +:+ " does not extend the local chain")
  else
    let block_hash := bf_hash block_file in
    apply_block_transactions block_file ;;;
    map_err verification_error_display (on_keeper (BlockKeeper.add_external_block block_file)) ;;;
    on_keeper (BlockKeeper.commit_block block_hash) ;;;
    modify (λ e, e <| last_completed_block := block_hash |>).

Definition ensure_uncommitted_block (e : PeerEffects Net) (h : BlockHash) : result unit string :=
  match BlockKeeper.get_uncommited_block (keeper (block_keeper e)) h with
  | Some _ => Ok tt
  | None => Error ("Block $" +:+ hash_display h +:+ " is not found")
  end.

Definition stage_client_transaction (client_tx : SignedTransaction) : EffectsM string BlockStatus :=
  of_result (SignedTransaction_verify client_tx) ;;;
  map_err validation_error_display
    (on_ledger (TransactionProcessor.process_transaction client_tx)) ;;;
  on_keeper (BlockKeeper.add_transaction client_tx).

Definition broadcast_client_transaction (client_tx : SignedTransaction) : EffectsM string unit :=
  let* e := get in
  let verified_tx := VerifiedTransaction_new client_tx (signing_key e) in
  on_network (broadcast_peer_message (Synchronization verified_tx) (pe_peer_id e)).

Fixpoint stage_raft_entries (entries : list RaftLogEntry) : PeerM string unit :=
  match entries with
  | [] => ret tt
  | entry :: entries =>
      if is_noop entry then stage_raft_entries entries
      else
        let* pending_block := on_consensus (ConsensusEngine.take_pending_raft_block (block_hash entry)) in
        let* p := get in
        match BlockKeeper.get_uncommited_block (keeper (block_keeper (effects p))) (block_hash entry) with
        | Some _ => stage_raft_entries entries
        | None =>
            match pending_block with
            | None =>
                throw ("Validated Raft block " +:+ hash_display (block_hash entry)
                         +:+ " for log index " +:+ pretty (index entry) +:+ " is not found")
            | Some block_file =>
                let* ok := on_effects (on_keeper (BlockKeeper.block_can_be_added block_file)) in
                if negb ok then
                  throw ("Raft block " +:+ hash_display (block_hash entry) +:+ " at log index "
                           +:+ pretty (index entry) +:+ " failed the chain-linkage check")
                else
                  on_effects (apply_block_transactions block_file) ;;;
                  on_effects (map_err verification_error_display
                    (on_keeper (BlockKeeper.add_external_block block_file))) ;;;
                  stage_raft_entries entries
            end
        end
  end.

Definition broadcast_block_proposal (h : BlockHash) : EffectsM string (option (list PeerId)) :=
  let* e := get in
  let peers := known_peers e in
  if decide (peers = []) then
    on_keeper (BlockKeeper.commit_block h) ;;;
    ret None
  else
    match BlockKeeper.get_uncommited_block (keeper (block_keeper e)) h with
    | Some block_file =>
        let block_as_bytes := to_vec block_file in
        let signature := ecdsa_sign (signing_key e) block_as_bytes in
        on_network (broadcast_peer_message
          (BlockProposal h block_as_bytes signature (pe_public_key e)) (pe_peer_id e))
    | None => ret tt
    end ;;;
    ret (Some peers).

(** The loop of [send_raft_append_entries]. *)
Fixpoint replicated_entries (e : PeerEffects Net) (entries : list RaftLogEntry) : result (list RaftReplicatedBlock) string :=
  match entries with
  | [] => Ok []
  | entry :: entries =>
      let block_as_bytes :=
        if is_noop entry then Ok []
        else
          match BlockKeeper.get_uncommited_block (keeper (block_keeper e)) (block_hash entry) with
          | Some block_file => Ok (to_vec block_file)
          | None =>
              match BlockKeeper.read_block_by_hash (block_keeper e) (block_hash entry) with
              | Ok block_file => Ok (to_vec block_file)
              | Error err => Error err
              end
          end in
      match block_as_bytes with
      | Error err => Error err
      | Ok block_as_bytes =>
          let rb := mkRaftReplicatedBlock entry block_as_bytes
                      (ecdsa_sign (signing_key e) block_as_bytes) (pe_public_key e) in
          match replicated_entries e entries with
          | Ok rbs => Ok (rb :: rbs)
          | Error err => Error err
          end
      end
  end.

Definition send_raft_append_entries (to : PeerId) (t prev_log_index prev_log_term : N)
    (entries : list RaftLogEntry) (leader_commit : N) : EffectsM string unit :=
  let* e := get in
  let* rbs := of_result (replicated_entries e entries) in
  on_network (send_peer_message (mkMessage (pe_peer_id e) to
    (RaftAppendEntries t (pe_peer_id e) prev_log_index prev_log_term rbs leader_commit))).

(** [execute_effect]; it returns the effects it would push on the queue,
    which the code does as its last step. *)
Definition execute_effect (effect : ConsensusEffect) : PeerM string (list ConsensusEffect) :=
  match effect with
  | StageClientTransaction client_tx =>
      let* status := on_effects (stage_client_transaction client_tx) in
      match status with
      | NewBlockCreated h => on_consensus (ConsensusEngine.on_block_created h)
      | AddedToMempool => ret []
      end
  | StageRaftEntries entries => stage_raft_entries entries ;;; ret []
  | BroadcastClientTransaction client_tx =>
      on_effects (broadcast_client_transaction client_tx) ;;; ret []
  | ProposeBlock h =>
      let* peers := on_effects (broadcast_block_proposal h) in
      match peers with
      | Some peers => on_consensus (ConsensusEngine.on_local_block_proposed h peers)
      | None => ret []
      end
  | SendRaftAppendEntries to t prev_index prev_term entries leader_commit =>
      on_effects (send_raft_append_entries to t prev_index prev_term entries leader_commit) ;;;
      ret []
  | CommitBlock h =>
      on_effects (on_keeper (BlockKeeper.commit_block h)) ;;;
      on_effects (modify (λ e, e <| last_completed_block := h |>)) ;;;
      ret []
  | RollbackBlock h =>
      let* p := get in
      match BlockKeeper.get_uncommited_block (keeper (block_keeper (effects p))) h with
      | Some block_file =>
          on_effects (on_ledger (TransactionProcessor.rollback_transactions (bf_transactions block_file))) ;;;
          on_effects (on_keeper (BlockKeeper.rollback_block h))
      | None => ret tt
      end ;;;
      on_effects (modify (λ e, e <| last_completed_block := h |>)) ;;;
      ret []
  | Broadcast message_body =>
      let* p := get in
      on_effects (on_network (broadcast_peer_message message_body (pe_peer_id (effects p)))) ;;;
      ret []
  | Send to message_body =>
      let* p := get in
      on_effects (on_network (send_peer_message
        (mkMessage (pe_peer_id (effects p)) to message_body))) ;;;
      ret []
  end.

(** The [while let] loop of [execute_all] over the queue; [None] when the
    fuel runs out. *)
Fixpoint queue_loop {E} (fuel : nat) (queue : list ConsensusEffect) (errors : list string) : PeerM E (option (list string)) :=
  match fuel with
  | O => ret None
  | S fuel =>
      match queue with
      | [] => ret (Some errors)
      | effect :: queue =>
          let* r := try_ (execute_effect effect) in
          match r with
          | Ok more => queue_loop fuel (queue ++ more) errors
          | Error e => queue_loop fuel queue (errors ++ [e])
          end
      end
  end.

(** The same loop by generations: the queue is first in, first out, so the
    effects pushed while one generation runs are the next one. *)
Fixpoint run_generation {E} (queue : list ConsensusEffect) (next : list ConsensusEffect)
    (errors : list string) : PeerM E (list ConsensusEffect * list string) :=
  match queue with
  | [] => ret (next, errors)
  | effect :: queue =>
      let* r := try_ (execute_effect effect) in
      match r with
      | Ok more => run_generation queue (next ++ more) errors
      | Error e => run_generation queue next (errors ++ [e])
      end
  end.

Fixpoint generations {E} (n : nat) (queue : list ConsensusEffect) (errors : list string) : PeerM E (list ConsensusEffect * list string) :=
  match n with
  | O => ret (queue, errors)
  | S n =>
      let* '(next, errors) := run_generation queue [] errors in
      generations n next errors
  end.

Definition join_errors (errors : list string) : string := String.concat "; " errors.

(** [execute_all]: staging a transaction can create a block, whose proposal
    can decide it, and nothing more follows, so three generations drain the
    queue (the theorem [execute_all_drains]). *)
Definition execute_all (queue : list ConsensusEffect) : PeerM string unit :=
  let* '(_, errors) := generations 3 queue [] in
  if decide (errors = []) then ret tt else throw (join_errors errors).
End effects.

#[global] Arguments stage_external_block : simpl never.
#[global] Arguments apply_synchronized_block : simpl never.
#[global] Arguments stage_client_transaction : simpl never.
#[global] Arguments broadcast_client_transaction : simpl never.
#[global] Arguments broadcast_block_proposal : simpl never.
#[global] Arguments send_raft_append_entries : simpl never.
#[global] Arguments execute_effect : simpl never.
#[global] Arguments execute_all : simpl never.
End PeerEffects.
