(* ===== verification/PeerNode.v ===== *)
(** * peer.rs: a peer's message loop

    [Peer.handle_message] and [Peer.handle_tick], with the validation a peer
    does before consensus sees a message.  The clock reading and the random
    draw a handler may make are arguments. *)

From S2P Require Import Prelude Platform Crypto Transactions Storage Messages RaftLogStore Raft Voting Consensus Network Effects.

(** What the HTTP server shows of a peer. *)
Record PeerState : Type := mkPeerState {
  ps_peer_id : PeerId;
  ps_known_peers : list PeerId;
  ps_block : BlockStorageState;
  ps_consensus : ConsensusState;
}.

Module Peer.
Import PeerEffects.
Section peer.
Context {BP : BuildProfile} {P : Platform} {HO : HashOrder}.
Context `{!Serde PersistedRaftLogState, !Serde (list SignedTransaction), !Serde BlockFile}.
Context `{!Serde Transaction, !Serde SignedTransaction}.
Context {Net : Type} `{!NetworkInterface Net}.

Definition new (pid : PeerId) (net : Net) (engine : ConsensusEngine) (keeper : Storage) (key : SigningKey) : Peer Net :=
  {| id := pid;
     consensus := engine;
     consensus_state := ConsensusEngine.state engine;
     effects := PeerEffects.new pid net keeper key |}.

(** [PeerStateView::get_state]: the view shares the storage cell and the
    watch channel with the peer. *)
Definition get_state (p : Peer Net) (peers : list PeerId) : PeerState :=
  {| ps_peer_id := id p;
     ps_known_peers := peers;
     ps_block := BlockStorageView.get_latest_state (block_keeper (effects p));
     ps_consensus := consensus_state p |}.

Definition apply_synchronized_block (block_file : BlockFile) : PeerM (Net := Net) string unit :=
  on_effects (PeerEffects.apply_synchronized_block block_file).

(** The new state is published only if every effect succeeded. *)
Definition execute_consensus_effects (queue : list ConsensusEffect) : PeerM (Net := Net) string unit :=
  execute_all queue ;;;
  modify (λ p, p <| consensus_state := ConsensusEngine.state (consensus p) |>).

Definition process_client_transaction (client_tx : SignedTransaction) : PeerM (Net := Net) string unit :=
  of_result (SignedTransaction_verify client_tx) ;;;
  let* queue := on_consensus (ConsensusEngine.on_client_transaction client_tx) in
  execute_consensus_effects queue.

Definition synchronize_transaction (verified_tx : VerifiedTransaction) : PeerM (Net := Net) string unit :=
  of_result (VerifiedTransaction_verify verified_tx) ;;;
  let* status := on_effects (stage_client_transaction (client_tx verified_tx)) in
  match status with
  | NewBlockCreated h =>
      let* queue := on_consensus (ConsensusEngine.on_block_created h) in
      execute_consensus_effects queue
  | AddedToMempool => ret tt
  end.

Definition process_block_proposal (h : BlockHash) (block_file : bytes) (sig : Signature)
    (key : VerifyingKey) (sender : PeerId) : PeerM (Net := Net) string unit :=
  let* p := get in
  if decide (last_completed_block (effects p) = h) then ret tt
  else
    let* valid :=
      match BlockFile.verify_block_vec h block_file sig key with
      | Ok b => on_effects (stage_external_block b)
      | Error _ => ret false
      end in
    let* p := get in
    let* queue := on_consensus (ConsensusEngine.on_block_proposal_validated h sender valid
                                  (PeerEffects.known_peers (effects p))) in
    execute_consensus_effects queue.

Definition process_block_vote (h : BlockHash) (sender : PeerId) (approve : bool) : PeerM (Net := Net) string unit :=
  let* p := get in
  if decide (last_completed_block (effects p) ≠ h) then
    of_result (ensure_uncommitted_block (effects p) h) ;;;
    let* queue := on_consensus (ConsensusEngine.on_block_vote h sender approve
                                  (PeerEffects.known_peers (effects p))) in
    execute_consensus_effects queue
  else ret tt.

Definition make_vote (h : BlockHash) (sender : PeerId) (approve : bool) : PeerM (Net := Net) string unit :=
  let* p := get in
  let* queue := on_consensus (ConsensusEngine.on_block_vote h sender approve
                                (PeerEffects.known_peers (effects p))) in
  execute_consensus_effects queue.

Definition dispatch_to_consensus (draw now : N) (sender : PeerId) (b : MessageBody) : PeerM (Net := Net) string unit :=
  let* queue := on_consensus (ConsensusEngine.on_message draw sender b now) in
  execute_consensus_effects queue.

(** The result of processing a message; [handle_message] only prints it. *)
Definition process_message (draw now : N) (m : Message) : PeerM (Net := Net) string unit :=
  match body m with
  | ClientTransaction client_tx => process_client_transaction client_tx
  | Synchronization verified_tx => synchronize_transaction verified_tx
  | BlockProposal h block_file sig key => process_block_proposal h block_file sig key (from m)
  | BlockApproved h => process_block_vote h (from m) true
  | BlockReject h => process_block_vote h (from m) false
  | b => dispatch_to_consensus draw now (from m) b
  end.

Definition handle_message {E} (draw now : N) (m : Message) : PeerM (Net := Net) E unit :=
  let* _ := try_ (process_message draw now m) in
  ret tt.

Definition handle_tick (now : N) : PeerM (Net := Net) string unit :=
  let* p := get in
  let* queue := on_consensus (ConsensusEngine.on_tick now (PeerEffects.known_peers (effects p))) in
  execute_consensus_effects queue.
End peer.

#[global] Arguments execute_consensus_effects : simpl never.
#[global] Arguments process_client_transaction : simpl never.
#[global] Arguments synchronize_transaction : simpl never.
#[global] Arguments process_block_proposal : simpl never.
#[global] Arguments process_block_vote : simpl never.
#[global] Arguments dispatch_to_consensus : simpl never.
#[global] Arguments handle_message : simpl never.
#[global] Arguments handle_tick : simpl never.
End Peer.
