(* ===== verification/PeerTheorems.v ===== *)
(** * Peers: theorems about executing effects

    The effect queue always drains, and what a peer answers and publishes. *)

From S2P Require Import Prelude Platform Crypto Transactions Storage Messages RaftLogStore Raft Voting VotingTheorems Consensus Network Effects PeerNode KeeperFacts ChainFacts StorageTheorems TransactionsFacts.

Module PeerFacts.
Import PeerEffects.
Section facts.
Context {BP : BuildProfile} {P : Platform} {HO : HashOrder}.
Context `{!Serde PersistedRaftLogState, !Serde (list SignedTransaction), !Serde BlockFile}.
Context `{!Serde Transaction, !Serde SignedTransaction}.
Context {Net : Type} `{!NetworkInterface Net}.
Implicit Types (p : Peer Net).

(** How many generations of effects an effect can start. *)
Definition rank (e : ConsensusEffect) : nat :=
  match e with
  | StageClientTransaction _ => 2
  | ProposeBlock _ => 1
  | _ => 0
  end.

Definition ranked (n : nat) (l : list ConsensusEffect) : Prop := Forall (λ e, rank e < n)%nat l.

(** A zoomed call that returns is a call that returns. *)
Lemma zoom_Ret {S T E A} (proj : S → T) upd (m : M T E A) s a s' :
  zoom proj upd m s = Ret a s' → ∃ t, m (proj s) = Ret a t ∧ s' = upd t s.
Proof. unfold zoom. destruct (m (proj s)); [|done..]. intros [= <- <-]. eauto. Qed.

Lemma ranked_app n l1 l2 : ranked n l1 → ranked n l2 → ranked n (l1 ++ l2).
Proof. intros. by apply Forall_app. Qed.

Lemma commit_effects_ranked r i : ranked 1 (RaftConsensus.commit_effects r i).
Proof. apply Forall_fmap, Forall_forall. intros e _. cbn. lia. Qed.

Lemma append_entries_effects_ranked r : ranked 1 (RaftConsensus.append_entries_effects_for_followers r).
Proof.
  apply Forall_forall. intros e He. unfold RaftConsensus.append_entries_effects_for_followers in He.
  apply list_elem_of_omap in He as (q & _ & Hq). unfold RaftConsensus.append_entries_effect_for in Hq.
  apply bind_Some in Hq as (t & _ & [= <-]). cbn. lia.
Qed.

Lemma append_local_entry_ranked e s effects s' :
  RaftConsensus.append_local_entry e s = Ret effects s' → ranked 1 effects.
Proof.
  unfold RaftConsensus.append_local_entry, RaftConsensus.update. rewrite !bind_modify, bind_gets. cbv zeta.
  intros (c & s1 & Hc & H)%bind_Ret. apply bind_Ret in H as (? & s2 & _ & [= <- _]).
  apply ranked_app; [apply append_entries_effects_ranked|].
  unfold RaftConsensus.advance_commit_index in Hc. rewrite bind_gets in Hc. cbv zeta in Hc.
  apply bind_Ret in Hc as (? & s3 & _ & Hc). rewrite bind_gets in Hc. injection Hc as <- _.
  apply commit_effects_ranked.
Qed.

Lemma on_block_created_ranked h s effects s' :
  ConsensusEngine.on_block_created h s = Ret effects s' → ranked 2 effects.
Proof.
  unfold ConsensusEngine.on_block_created. rewrite bind_gets. destruct (engine s) as [vid vs|r].
  - intros [= <- _]. repeat constructor.
  - unfold ConsensusEngine.with_raft. destruct (RaftConsensus.on_block_created h _) as [a s1| |] eqn:E; [|done..].
    intros [= <- _]. unfold RaftConsensus.on_block_created in E. rewrite bind_gets in E.
    destruct (role _); [injection E as <- _; constructor|injection E as <- _; constructor|].
    unfold RaftConsensus.append_local_block in E. rewrite bind_gets in E.
    apply bind_Ret in E as (? & ? & _ & E). apply bind_Ret in E as (? & ? & _ & E).
    apply append_local_entry_ranked in E. eapply Forall_impl; [exact E|]. cbn. lia.
Qed.

Lemma on_local_block_proposed_ranked h peers s effects s' :
  ConsensusEngine.on_local_block_proposed h peers s = Ret effects s' → ranked 1 effects.
Proof.
  unfold ConsensusEngine.on_local_block_proposed. rewrite bind_gets. destruct (engine s) as [vid vs|r].
  - unfold ConsensusEngine.with_votings, Voting.on_local_block_proposed.
    rewrite VotingFacts.handle_cases. cbv zeta. repeat case_match; intros; simplify_eq; repeat constructor.
  - intros [= <- _]. constructor.
Qed.

(** What an effect pushes is of a lower rank. *)
Lemma execute_effect_ranked e p more p' :
  execute_effect e p = Ret more p' → ranked (rank e) more.
Proof.
  unfold execute_effect. destruct e; cbn [rank].
  - intros (st & p1 & _ & H)%bind_Ret. destruct st; [by injection H as <- _; constructor|].
    apply zoom_Ret in H as (t & H & _). by eapply on_block_created_ranked.
  - intros (? & ? & _ & [= <- _])%bind_Ret. constructor.
  - intros (? & ? & _ & [= <- _])%bind_Ret. constructor.
  - intros (o & p1 & _ & H)%bind_Ret. destruct o; [|by injection H as <- _; constructor].
    apply zoom_Ret in H as (t & H & _). by eapply on_local_block_proposed_ranked.
  - intros (? & ? & _ & [= <- _])%bind_Ret. constructor.
  - intros (? & ? & _ & H)%bind_Ret. apply bind_Ret in H as (? & ? & _ & [= <- _]). constructor.
  - intros (? & ? & _ & H)%bind_Ret. apply bind_Ret in H as (? & ? & _ & H).
    apply bind_Ret in H as (? & ? & _ & [= <- _]). constructor.
  - intros (? & ? & _ & H)%bind_Ret. apply bind_Ret in H as (? & ? & _ & [= <- _]). constructor.
  - intros (? & ? & _ & H)%bind_Ret. apply bind_Ret in H as (? & ? & _ & [= <- _]). constructor.
Qed.

Lemma run_generation_ranked {E} n queue next errors p next' errors' p' :
  ranked (S n) queue → ranked n next →
  run_generation (E := E) queue next errors p = Ret (next', errors') p' → ranked n next'.
Proof.
  revert next errors p. induction queue as [|e queue IH]; intros next errors p Hq Hn; cbn [run_generation].
  { by intros [= <- _ _]. }
  apply Forall_cons in Hq as [He Hq]. intros (r & p1 & H1 & H2)%bind_Ret.
  unfold try_ in H1. destruct (execute_effect e p) as [more p2|err p2|] eqn:Ee; [..|done]; injection H1 as <- <-.
  - eapply IH; [done| |exact H2]. apply ranked_app; [done|].
    apply execute_effect_ranked in Ee. eapply Forall_impl; [exact Ee|]. cbn. lia.
  - by eapply IH; [..|exact H2].
Qed.

(** A generation is a prefix of the queue's loop. *)
Lemma queue_loop_generation {E} queue next errors k p :
  queue_loop (E := E) (length queue + k) (queue ++ next) errors p =
  bind (run_generation queue next errors) (λ '(next, errors), queue_loop k next errors) p.
Proof.
  revert next errors p. induction queue as [|e queue IH]; intros next errors p; cbn [run_generation length app Nat.add].
  { done. }
  cbn [queue_loop]. rewrite bind_assoc. unfold bind at 1 2. cbv beta.
  unfold try_. destruct (execute_effect e p) as [more p2|err p2|]; [..|done].
  - rewrite <-app_assoc. apply IH.
  - apply IH.
Qed.

(** With [n] generations left the rank is below [n]. *)
Lemma generations_drain {E} n queue errors p :
  ranked n queue →
  ∃ fuel0, ∀ fuel, (fuel0 ≤ fuel)%nat →
    match generations (E := E) n queue errors p with
    | Ret (rest, errors') p' => rest = [] ∧ queue_loop (E := E) fuel queue errors p = Ret (Some errors') p'
    | Err e p' => queue_loop (E := E) fuel queue errors p = Err e p'
    | Panic => queue_loop (E := E) fuel queue errors p = Panic
    end.
Proof.
  revert queue errors p. induction n as [|n IH]; intros queue errors p Hq.
  - assert (queue = []) as ->. { destruct Hq as [|e l He _]; [done|lia]. }
    exists 1%nat. intros [|fuel] Hf; [lia|]. done.
  - cbn [generations]. unfold bind at 1.
    pose proof (queue_loop_generation (E := E) queue [] errors) as Hloop. rewrite app_nil_r in Hloop.
    destruct (run_generation (E := E) queue [] errors p) as [[next errors1] p1|e p1|] eqn:E1.
    + destruct (IH next errors1 p1) as [f0 Hf0].
      { eapply run_generation_ranked; [exact Hq|constructor|exact E1]. }
      exists (length queue + f0)%nat. intros fuel Hf.
      replace fuel with (length queue + (fuel - length queue))%nat by lia.
      assert (Hstep : queue_loop (E := E) (length queue + (fuel - length queue)) queue errors p =
                      queue_loop (fuel - length queue) next errors1 p1).
      { rewrite Hloop. unfold bind. by rewrite E1. }
      rewrite Hstep. apply Hf0. lia.
    + exists (length queue)%nat. intros fuel Hf.
      replace fuel with (length queue + (fuel - length queue))%nat by lia.
      rewrite Hloop. unfold bind. by rewrite E1.
    + exists (length queue)%nat. intros fuel Hf.
      replace fuel with (length queue + (fuel - length queue))%nat by lia.
      rewrite Hloop. unfold bind. by rewrite E1.
Qed.

Lemma rank_bound queue : ranked 3 queue.
Proof. apply Forall_forall. intros [] _; cbn; lia. Qed.
End facts.
End PeerFacts.

Module PeerTheorems.
Import PeerEffects Peer PeerFacts.

Section execution.
Context {BP : BuildProfile} {P : Platform} {HO : HashOrder}.
Context `{!Serde PersistedRaftLogState, !Serde (list SignedTransaction), !Serde BlockFile}.
Context `{!Serde Transaction, !Serde SignedTransaction}.
Context {Net : Type} `{!NetworkInterface Net}.
Implicit Types (p : Peer Net) (e : PeerEffects Net).

Lemma run_generation_no_error {E} queue next errors p err p' :
  run_generation (E := E) queue next errors p ≠ Err err p'.
Proof.
  revert next errors p. induction queue as [|e queue IH]; intros next errors p; cbn [run_generation]; [done|].
  unfold bind, try_. destruct (execute_effect e p); [apply IH|apply IH|done].
Qed.

Lemma generations_no_error {E} n queue errors p err p' : generations (E := E) n queue errors p ≠ Err err p'.
Proof.
  revert queue errors p. induction n as [|n IH]; intros queue errors p; cbn [generations]; [done|].
  unfold bind. pose proof (run_generation_no_error (E := E) queue [] errors p).
  destruct (run_generation _ _ _ _) as [[next errors1] p1| |]; [apply IH|by edestruct H|done].
Qed.

(** What executing a queue means: first in, first out, what an effect pushes
    goes to the end, and an effect that fails is reported and the next one is
    executed nevertheless. *)
Inductive executes : list ConsensusEffect → Peer Net → list string → Peer Net → Prop :=
  | executes_done p : executes [] p [] p
  | executes_ok x queue p more p1 errors p' :
      execute_effect x p = Ret more p1 → executes (queue ++ more) p1 errors p' →
      executes (x :: queue) p errors p'
  | executes_err x queue p err p1 errors p' :
      execute_effect x p = Err err p1 → executes queue p1 errors p' →
      executes (x :: queue) p (err :: errors) p'.

(** An effect of the queue panics, after those before it were executed. *)
Inductive panics : list ConsensusEffect → Peer Net → Prop :=
  | panics_here x queue p : execute_effect x p = Panic → panics (x :: queue) p
  | panics_ok x queue p more p1 :
      execute_effect x p = Ret more p1 → panics (queue ++ more) p1 → panics (x :: queue) p
  | panics_err x queue p err p1 :
      execute_effect x p = Err err p1 → panics queue p1 → panics (x :: queue) p.

Lemma queue_loop_executes {E} fuel queue errors p :
  match queue_loop (E := E) fuel queue errors p with
  | Ret (Some errors') p' => ∃ new, errors' = errors ++ new ∧ executes queue p new p'
  | Ret None _ => True
  | Err _ _ => False
  | Panic => panics queue p
  end.
Proof.
  revert queue errors p. induction fuel as [|fuel IH]; intros queue errors p; cbn [queue_loop]; [done|].
  destruct queue as [|x queue]; [exists []; by rewrite app_nil_r; split; [|constructor]|].
  unfold bind, try_. destruct (execute_effect x p) as [more p1|err p1|] eqn:Ex; [..|by constructor].
  - specialize (IH (queue ++ more) errors p1). destruct (queue_loop fuel _ errors p1) as [[errors'|] p'|e p'|]; try done.
    + destruct IH as (new & -> & Hnew). exists new. split; [done|by econstructor].
    + by econstructor.
  - specialize (IH queue (errors ++ [err]) p1). destruct (queue_loop fuel _ _ p1) as [[errors'|] p'|e p'|]; try done.
    + destruct IH as (new & -> & Hnew). exists (err :: new). split; [by rewrite <-app_assoc|by econstructor].
    + by econstructor.
Qed.

(** Three generations are a run of the queue to its end. *)
Lemma generations_execute {E} queue p :
  match generations (E := E) 3 queue [] p with
  | Ret (_, errors) p' => executes queue p errors p'
  | Err _ _ => False
  | Panic => panics queue p
  end.
Proof.
  destruct (generations_drain (E := E) 3 queue [] p (rank_bound queue)) as [fuel Hf].
  specialize (Hf fuel (le_n _)). pose proof (queue_loop_executes (E := E) fuel queue [] p) as Hl.
  pose proof (generations_no_error (E := E) 3 queue [] p) as Hne.
  destruct (generations 3 queue [] p) as [[rest errors] p1|err p1|].
  - destruct Hf as [_ Hf]. rewrite Hf in Hl. by destruct Hl as (new & -> & Hx).
  - by edestruct Hne.
  - by rewrite Hf in Hl.
Qed.

(** C31. The effect queue drains: for every batch of effects the loop of
    [execute_all] ends, having executed every effect, those pushed meanwhile
    included, first in, first out, also after one has failed; it reports
    exactly the errors of those that failed, in their order, and succeeds if
    there are none.  It panics if an effect does. *)
Theorem execute_all_drains queue p :
  (∃ errors p', executes queue p errors p' ∧
     execute_all queue p = if decide (errors = []) then Ret tt p' else Err (join_errors errors) p') ∨
  (panics queue p ∧ execute_all queue p = Panic).
Proof.
  unfold execute_all, bind. pose proof (generations_execute (E := string) queue p) as Hx.
  destruct (generations 3 queue [] p) as [[rest errors] p1|err p1|]; [|done|by right].
  left. exists errors, p1. split; [done|]. by destruct (decide (errors = [])).
Qed.

(** Executing effects does not publish anything. *)
Definition same_published p p' : Prop := consensus_state p' = consensus_state p.
#[local] Instance same_published_preorder : PreOrder same_published.
Proof. split; [by intros p|]. unfold same_published. intros p1 p2 p3. congruence. Qed.

Lemma on_effects_published {E A} p (m : EffectsM (Net := Net) E A) : leads same_published p (on_effects m).
Proof. by apply leads_zoom. Qed.
Lemma on_consensus_published {E A} p (m : M EngineS E A) : leads (E := E) same_published p (on_consensus m).
Proof. by apply leads_zoom. Qed.

Lemma stage_raft_entries_published entries p : leads same_published p (stage_raft_entries entries).
Proof.
  revert p. induction entries as [|entry entries IH]; intros p; cbn [stage_raft_entries]; [lead|].
  lead; first [apply IH|apply on_effects_published|apply on_consensus_published].
Qed.

Lemma execute_effect_published (x : ConsensusEffect) p : leads same_published p (execute_effect x).
Proof.
  unfold execute_effect. destruct x; lead;
    first [apply on_effects_published|apply on_consensus_published|apply stage_raft_entries_published].
Qed.

Lemma generations_published {E} n queue errors p : leads (E := E) same_published p (generations n queue errors).
Proof.
  assert (Hgen : ∀ queue next errors p, leads (E := E) same_published p (run_generation queue next errors)).
  { intros q. induction q as [|e q IH]; intros next errs p0; cbn [run_generation]; lead.
    - apply execute_effect_published.
    - apply IH.
    - apply IH. }
  revert queue errors p. induction n as [|n IH]; intros queue errors p; cbn [generations]; lead;
    [apply Hgen|apply IH].
Qed.

(** The state shown to clients: a batch of effects that succeeds publishes
    the engine's state; one with any error leaves the old state published,
    whatever the engine did. *)
Theorem consensus_state_published queue p :
  match execute_consensus_effects queue p with
  | Ret _ p' => consensus_state p' = ConsensusEngine.state (consensus p')
  | Err _ p' => consensus_state p' = consensus_state p
  | Panic => True
  end.
Proof.
  unfold execute_consensus_effects, execute_all, bind.
  pose proof (generations_published (E := string) 3 queue [] p) as Hl. unfold leads in Hl.
  destruct (generations 3 queue [] p) as [[rest errors] p1|err p1|]; cbn in *; [|by apply Hl|done].
  case_decide; [done|]. cbn. by apply Hl.
Qed.
End execution.

Section staging.
Context {BP : BuildProfile} {P : Platform} {HO : HashOrder} {HL : HashOrderLaws}.
Context `{!Serde PersistedRaftLogState, !Serde (list SignedTransaction), !Serde BlockFile}.
Context `{!Serde Transaction, !Serde SignedTransaction}.
Context {Net : Type} `{!NetworkInterface Net}.
Implicit Types (p : Peer Net) (e : PeerEffects Net).

(** Applying a block's transactions touches the ledger only. *)
Definition same_but_ledger e e' : Prop :=
  e' = e <| transaction_processor := transaction_processor e' |>.
#[local] Instance same_but_ledger_preorder : PreOrder same_but_ledger.
Proof.
  split; [by intros []|]. unfold same_but_ledger. intros e1 e2 e3 H1 H2. rewrite H2, H1. done.
Qed.

Lemma apply_block_transactions_frame {E} b e : leads (E := E) same_but_ledger e (apply_block_transactions b).
Proof.
  unfold apply_block_transactions. revert e. induction (bf_transactions b) as [|tx txs IH]; intros e;
    cbn [for_each]; lead; [by apply leads_zoom|apply IH].
Qed.

(** Staging an external block touches the mempool, the pending map and the
    staged blocks only. *)
Definition staging_frame s s' : Prop :=
  storage_state s' = storage_state s ∧ disk s' = disk s ∧
  uncommited_blocks (keeper s') = uncommited_blocks (keeper s).
#[local] Instance staging_frame_preorder : PreOrder staging_frame.
Proof. split; [by intros s|]. unfold staging_frame. intros s1 s2 s3. intuition congruence. Qed.

Lemma add_external_block_Ret b s s' :
  BlockKeeper.add_external_block b s = Ret tt s' →
  BlockFile.verify_block b = Ok tt ∧ storage_state s' = storage_state s ∧ disk s' = disk s ∧
  uncommited_blocks (keeper s') = <[bf_hash b := b]> (uncommited_blocks (keeper s)).
Proof.
  unfold BlockKeeper.add_external_block. intros ([] & s1 & H1 & H2)%bind_Ret.
  apply of_result_Ret in H1 as [Hv ->]. apply bind_Ret in H2 as ([] & s2 & H2 & [= <-]).
  assert (Hl : ∀ txs s, leads (E := BlockVerificationError) staging_frame s
    (for_each txs BlockKeeper.take_from_mempool)).
  { induction txs as [|tx txs IH]; intros s0; cbn [for_each]; lead; [|apply IH].
    unfold BlockKeeper.take_from_mempool, BlockKeeper.update_keeper. lead; done. }
  specialize (Hl (bf_transactions b) s s2). rewrite H2 in Hl. destruct (Hl eq_refl) as (Hst & Hd & Hu).
  split_and!; [done|done|done|]. cbn. by rewrite Hu.
Qed.

(** A block is staged only if its hash is that of its contents and it extends
    the committed tip or a staged block; then it is staged under its hash and
    nothing is committed or written. *)
Lemma staged_block_checked b e e' :
  bf_index b < u32_modulus →
  (∀ h b, uncommited_blocks (keeper (block_keeper e)) !! h = Some b → bf_index b < u32_modulus) →
  stage_external_block b e = Ret true e' →
  BlockFile.verify_block b = Ok tt ∧
  (Chain.extends_tip (block_keeper e) b ∨
   ∃ h b', uncommited_blocks (keeper (block_keeper e)) !! h = Some b' ∧
           bf_index b' + 1 = bf_index b ∧ bf_previous_hash b = bf_hash b') ∧
  uncommited_blocks (keeper (block_keeper e')) =
    <[bf_hash b := b]> (uncommited_blocks (keeper (block_keeper e))) ∧
  storage_state (block_keeper e') = storage_state (block_keeper e) ∧
  disk (block_keeper e') = disk (block_keeper e).
Proof.
  intros Hb Hall. unfold stage_external_block. intros (ok & e1 & H1 & H2)%bind_Ret.
  apply zoom_Ret in H1 as (k & H1 & ->). destruct ok; [|done]. cbn [negb] in H2.
  apply StorageTheorems.block_can_be_added_true in H1 as (-> & _ & Hlink); [|done|done].
  apply bind_Ret in H2 as ([] & e2 & H2 & H3).
  pose proof (apply_block_transactions_frame (E := string) b (e <| block_keeper := block_keeper e |>)) as Hf.
  specialize (Hf e2). rewrite H2 in Hf. specialize (Hf eq_refl).
  assert (Hk : block_keeper e2 = block_keeper e) by (by rewrite Hf).
  apply bind_Ret in H3 as ([] & e3 & H3 & [= <-]). unfold map_err in H3.
  destruct (on_keeper _ e2) as [[] e4| |] eqn:E4; [|done..]. injection H3 as <-.
  apply zoom_Ret in E4 as (k & H4 & ->). rewrite Hk in H4.
  apply add_external_block_Ret in H4 as (Hv & Hst & Hd & Hu). by split_and!.
Qed.

(** *** The peer's own approval *)

(** The engine's count for [h] holds an approval of [id]. *)
Definition approved_by (id : PeerId) (h : BlockHash) (vs : Votings) : Prop :=
  ∃ v, vs !! h = Some v ∧ id ∈ approvals v.

Lemma vote_keeps_approval {E} id self peers h sender approve vs effects vs' :
  Voting.handle_voting_vote (E := E) self peers h sender approve vs = Ret effects vs' →
  sender ≠ id ∨ approve = false → approved_by id h vs' → approved_by id h vs.
Proof.
  intros (v' & -> & _ & Hc & Hn)%VotingTheorems.handle_spec Hid (w & Hw & Hin).
  rewrite lookup_insert_eq in Hw. injection Hw as <-.
  assert (Hv : id ∈ approvals (VotingTheorems.open_round self peers h vs)).
  { destruct (decide (VotingTheorems.counts (VotingTheorems.open_round self peers h vs) sender)) as [H1|H1].
    - destruct (Hc H1) as [Ha _ _]. rewrite Ha in Hin. destruct approve; [|done]. set_solver.
    - destruct (Hn H1) as [-> _]. done. }
  unfold VotingTheorems.open_round in Hv. destruct (vs !! h) as [v|] eqn:E1; [by exists v|]. cbn in Hv. set_solver.
Qed.

(** The effects a vote may ask for do not come back to the engine. *)
Definition passive (x : ConsensusEffect) : Prop :=
  match x with CommitBlock _ | RollbackBlock _ | Broadcast _ => True | _ => False end.

Definition same_engine p p' : Prop := consensus p' = consensus p.
#[local] Instance same_engine_preorder : PreOrder same_engine.
Proof. split; [by intros p|]. unfold same_engine. intros p1 p2 p3. congruence. Qed.

Lemma on_effects_engine {E A} p (m : EffectsM (Net := Net) E A) : leads same_engine p (on_effects m).
Proof. by apply leads_zoom. Qed.

Lemma execute_passive x p :
  passive x → leads same_engine p (execute_effect x) ∧ ∀ more p', execute_effect x p = Ret more p' → more = [].
Proof.
  destruct x; try done; intros _; (split; [unfold execute_effect; lead; apply on_effects_engine|]); intros more p' Hr.
  - by apply bind_Ret in Hr as (? & ? & _ & (? & ? & _ & [= <- _])%bind_Ret).
  - by apply bind_Ret in Hr as (? & ? & _ & (? & ? & _ & (? & ? & _ & [= <- _])%bind_Ret)%bind_Ret).
  - by apply bind_Ret in Hr as (? & ? & _ & (? & ? & _ & [= <- _])%bind_Ret).
Qed.

Lemma executes_passive queue p errors p' :
  executes queue p errors p' → Forall passive queue → same_engine p p'.
Proof.
  induction 1 as [p|x queue p more p1 errors p' Hx _ IH|x queue p err p1 errors p' Hx _ IH]; [done|..];
    intros [Hp Hq]%Forall_cons; destruct (execute_passive x p Hp) as [Hs Hm].
  - pose proof (Hm _ _ Hx) as ->. rewrite app_nil_r in *. etrans; [apply Hs; by rewrite Hx|by apply IH].
  - etrans; [apply Hs; by rewrite Hx|by apply IH].
Qed.

Lemma execute_consensus_passive queue p :
  Forall passive queue → leads same_engine p (Peer.execute_consensus_effects queue).
Proof.
  intros Hq. unfold Peer.execute_consensus_effects. lead; [|done]. intros p' Hf. unfold execute_all, bind in Hf.
  pose proof (generations_execute (E := string) queue p) as Hx.
  destruct (generations 3 queue [] p) as [[rest errors] p1|err p1|]; [|done|done].
  assert (p1 = p') as -> by by revert Hf; case_decide; intros [= <-]. by eapply executes_passive.
Qed.

(** What the engine makes of a proposal that was found invalid. *)
Lemma invalid_proposal_keeps_approval id h sender peers s s' effects vs :
  engine s = EngineVoting id vs → sender ≠ id →
  ConsensusEngine.on_block_proposal_validated h sender false peers s = Ret effects s' →
  Forall passive effects ∧ ∃ vs', engine s' = EngineVoting id vs' ∧ (approved_by id h vs' → approved_by id h vs).
Proof.
  intros Hs Hne. unfold ConsensusEngine.on_block_proposal_validated. rewrite bind_gets, Hs.
  unfold ConsensusEngine.with_votings, Voting.on_block_proposal_validated.
  destruct (bind _ _ vs) as [e vs'|x vs'|] eqn:Hv; [|done..]. intros [= <- <-].
  apply bind_Ret in Hv as (e1 & vs1 & H1 & H2).
  assert (Hp : ∀ f a w w' es, Voting.handle_voting_vote (E := string) id peers h f a w = Ret es w' → Forall passive es).
  { intros f a w w' es. rewrite VotingFacts.handle_cases. cbv zeta.
    repeat case_match; intros [= <- _]; repeat constructor. }
  case_decide.
  - apply bind_Ret in H2 as (e2 & vs2 & H2 & [= <- <-]). split; [apply Forall_app; eauto|]. exists vs2. split; [done|].
    intros Ha. eapply vote_keeps_approval in Ha; [|exact H2|by right]. eapply vote_keeps_approval; [exact H1|by left|done].
  - injection H2 as <- <-. split; [by eauto|]. exists vs1. split; [done|].
    intros Ha. eapply vote_keeps_approval; [exact H1|by left|done].
Qed.

Lemma on_proposal_no_error h sender valid peers s x s' :
  ConsensusEngine.on_block_proposal_validated h sender valid peers s ≠ Err x s'.
Proof.
  unfold ConsensusEngine.on_block_proposal_validated. rewrite bind_gets. destruct (engine s) as [id vs|r]; [|done].
  unfold ConsensusEngine.with_votings, Voting.on_block_proposal_validated.
  destruct (VotingTheorems.handle_total (E := string) id peers h sender true vs) as (e1 & vs1 & H1).
  rewrite (bind_of _ _ _ _ _ H1). case_decide; [|done].
  destruct (VotingTheorems.handle_total (E := string) id peers h id valid vs1) as (e2 & vs2 & H2).
  by rewrite (bind_of _ _ _ _ _ H2).
Qed.

(** So a peer that found it invalid does not count its own approval. *)
Lemma invalid_proposal_unapproved h sender p p1 p' id vs vs' :
  same_engine p p1 → consensus p = EngineVoting id vs → consensus p' = EngineVoting id vs' → sender ≠ id →
  final_state ((let* p := get in
    let* queue := on_consensus (ConsensusEngine.on_block_proposal_validated h sender false
                                  (PeerEffects.known_peers (effects p))) in
    Peer.execute_consensus_effects queue) p1) = Some p' →
  approved_by id h vs' → approved_by id h vs.
Proof.
  intros Hp1 Hc Hc' Hne Hrun. unfold bind at 1, get at 1 in Hrun.
  apply bind_final in Hrun as [(queue & p2 & H1 & H2)|[x H1]]; unfold on_consensus, zoom in H1;
    destruct (ConsensusEngine.on_block_proposal_validated _ _ _ _ _) as [es s'|y s'|] eqn:Hv; try done;
    [|by apply on_proposal_no_error in Hv].
  injection H1 as <- <-. eapply invalid_proposal_keeps_approval in Hv as (Hp & vs1 & Hs & Ha);
    [|cbn; rewrite Hp1; exact Hc|done].
  apply (execute_consensus_passive _ _ Hp) in H2. unfold same_engine in H2. rewrite Hc' in H2. cbn in H2.
  rewrite Hs in H2. by injection H2 as ->.
Qed.

(** C28. A peer counts its own approval of a proposed block only if it has
    checked it: if after a proposal (of another peer) its count for the block
    holds its own approval, and before it did not, then the message was signed
    with the key it came with, the block in it has the proposed hash, which is
    that of its contents, and extends the committed tip or a staged block; and
    by staging it the peer put it under its hash and committed or wrote
    nothing. *)
Theorem own_approval_checked h f sig key sender p p' id vs vs' :
  (∀ b, BlockFile.verify_block_vec h f sig key = Ok b → bf_index b < u32_modulus) →
  (∀ h b, uncommited_blocks (keeper (block_keeper (effects p))) !! h = Some b → bf_index b < u32_modulus) →
  sender ≠ id → consensus p = EngineVoting id vs → consensus p' = EngineVoting id vs' →
  final_state (Peer.process_block_proposal h f sig key sender p) = Some p' →
  ¬ approved_by id h vs → approved_by id h vs' →
  ∃ b e, KeyManager.verify_message key sig f = Ok tt ∧ bf_hash b = h ∧ BlockFile.verify_block b = Ok tt ∧
    (Chain.extends_tip (block_keeper (effects p)) b ∨
     ∃ h b', uncommited_blocks (keeper (block_keeper (effects p))) !! h = Some b' ∧
             bf_index b' + 1 = bf_index b ∧ bf_previous_hash b = bf_hash b') ∧
    stage_external_block b (effects p) = Ret true e ∧
    uncommited_blocks (keeper (block_keeper e)) = <[h := b]> (uncommited_blocks (keeper (block_keeper (effects p)))) ∧
    storage_state (block_keeper e) = storage_state (block_keeper (effects p)) ∧
    disk (block_keeper e) = disk (block_keeper (effects p)).
Proof.
  intros Hu Hall Hne Hc Hc' Hf Hbefore Hafter. unfold Peer.process_block_proposal in Hf.
  unfold bind at 1, get at 1 in Hf. case_decide as Hlast.
  { injection Hf as <-. rewrite Hc in Hc'. injection Hc' as <-. done. }
  assert (Hsame : same_engine p p' → False).
  { unfold same_engine. rewrite Hc, Hc'. by intros [= ->]. }
  destruct (BlockFile.verify_block_vec h f sig key) as [b|x] eqn:Hvec.
  2:{ rewrite bind_ret_l in Hf. exfalso. apply Hbefore. by eapply (invalid_proposal_unapproved h sender p p). }
  apply bind_final in Hf as [(valid & p1 & H1 & H2)|[x H1]].
  2:{ exfalso. apply Hsame. eapply on_effects_engine. by rewrite H1. }
  assert (Hp1 : same_engine p p1) by (eapply on_effects_engine; by rewrite H1).
  destruct valid; [|exfalso; apply Hbefore; by eapply (invalid_proposal_unapproved h sender p p1)].
  apply zoom_Ret in H1 as (e & He & _).
  destruct (staged_block_checked b (effects p) e (Hu b eq_refl) Hall He) as (Hv & Hlink & Hst & Hstate & Hd).
  unfold BlockFile.verify_block_vec in Hvec. destruct (KeyManager.verify_message key sig f) as [[]|] eqn:Hsig; [|done].
  destruct (BlockFile.try_from f) as [b1|]; [|done]. case_decide as Hhash; [done|].
  assert (b1 = b) as -> by by destruct (BlockFile.verify_block b1); [injection Hvec|].
  exists b, e. subst h. by split_and!.
Qed.

(** A synchronized block is applied to the ledger before it is checked: if
    it seems to extend the chain but its hash is not that of its contents,
    the call fails and the block store is as it was, yet a deposit it carried,
    signed by anybody or by nobody, has been credited. *)
Theorem unverified_block_applied b e err tx amount a :
  BlockKeeper.block_can_be_added (E := string) b (block_keeper e) = Ret true (block_keeper e) →
  BlockFile.verify_block b = Error err →
  bf_transactions b = [tx] → operation (transaction tx) = AddCoin amount a →
  tx_id tx ∉ applied_transactions (transaction_processor e) →
  accounts (transaction_processor e) !! KeyManager.to_string_hex (public_key tx) = None →
  ∃ e1, PeerEffects.apply_synchronized_block b e = Err (verification_error_display err) e1 ∧
    block_keeper e1 = block_keeper e ∧
    accounts (transaction_processor e1) !! KeyManager.to_string_hex (public_key tx) =
      Some (mkAccount a amount).
Proof.
  intros Hadd Hv Htx Hop Hfresh Hacc.
  set (p1 := mkTransactionProcessor
    (<[KeyManager.to_string_hex (public_key tx) := mkAccount a amount]> (accounts (transaction_processor e)))
    ({[ tx_id tx ]} ∪ applied_transactions (transaction_processor e))).
  assert (Hproc : TransactionProcessor.process_transaction tx (transaction_processor e) = Ret tt p1).
  { rewrite Ledger.process_fresh by done. unfold Ledger.run_operation, TransactionProcessor.add_coin, bind, get.
    rewrite Hop, Hacc. done. }
  exists (e <| transaction_processor := p1 |>).
  split_and!; [|done|apply lookup_insert_eq].
  unfold PeerEffects.apply_synchronized_block.
  assert (H1 : on_keeper (E := string) (BlockKeeper.block_can_be_added b) e = Ret true e).
  { unfold on_keeper, zoom. rewrite Hadd. by destruct e. }
  rewrite (bind_of _ _ _ _ _ H1). cbn [negb]. cbv zeta.
  assert (H2 : apply_block_transactions (E := string) b e = Ret tt (e <| transaction_processor := p1 |>)).
  { unfold apply_block_transactions. rewrite Htx. cbn [for_each].
    unfold bind, on_ledger, zoom, try_. by rewrite Hproc. }
  rewrite (bind_of _ _ _ _ _ H2).
  unfold bind at 1, map_err, on_keeper, zoom, BlockKeeper.add_external_block, bind at 1.
  rewrite Hv. by destruct e.
Qed.
End staging.

Section acknowledging.
Context {BP : BuildProfile} {P : Platform} {HO : HashOrder}.
Context `{!Serde PersistedRaftLogState, !Serde (list SignedTransaction), !Serde BlockFile}.
Context `{!Serde Transaction, !Serde SignedTransaction}.
#[local] Existing Instance RestNetwork.interface.
Implicit Types (p : Peer RestNetwork).

Definition same_network p p' : Prop :=
  network (effects p') = network (effects p) ∧ pe_peer_id (effects p') = pe_peer_id (effects p).
#[local] Instance same_network_preorder : PreOrder same_network.
Proof. split; [by intros p|]. unfold same_network. intros p1 p2 p3. intuition congruence. Qed.

Lemma on_effects_keeper_network {E A} p (m : M Storage E A) :
  leads same_network p (on_effects (on_keeper m)).
Proof.
  intros p'. unfold on_effects, on_keeper, zoom. destruct (m _); cbn; by intros [= <-].
Qed.

Lemma apply_block_network {E} p b : leads (E := E) same_network p (on_effects (apply_block_transactions b)).
Proof.
  intros p'. unfold on_effects, zoom. pose proof (apply_block_transactions_frame (E := E) b (effects p)) as Hf.
  unfold leads, same_but_ledger in Hf.
  destruct (apply_block_transactions b (effects p)) as [a e|err e|]; cbn in *; [..|done];
    intros [= <-]; specialize (Hf _ eq_refl); split; cbn; by rewrite Hf.
Qed.

Lemma add_external_network p b :
  leads same_network p (on_effects (map_err verification_error_display
    (on_keeper (BlockKeeper.add_external_block b)))).
Proof.
  intros p'. unfold on_effects, on_keeper, map_err, zoom. destruct (BlockKeeper.add_external_block _ _); cbn; by intros [= <-].
Qed.

Lemma stage_raft_entries_network entries p : leads same_network p (stage_raft_entries entries).
Proof.
  revert p. induction entries as [|entry entries IH]; intros p; cbn [stage_raft_entries]; [lead|].
  lead; first [apply IH|apply on_effects_keeper_network|apply apply_block_network
              |apply add_external_network|by apply leads_zoom].
Qed.

(** The acknowledgement does not depend on staging: a Raft follower whose
    staging of the entries fails still sends the success response that
    follows it in the batch, since every effect is attempted. *)
Theorem ack_despite_failed_staging entries leader ack addr p err p1 :
  stage_raft_entries entries p = Err err p1 →
  rn_known_peers (network (effects p)) !! leader = Some addr →
  ∃ p2, execute_all [StageRaftEntries entries; Send leader ack] p = Err err p2 ∧
    outbox (network (effects p2)) = outbox (network (effects p)) ++
      [(addr, mkMessage (pe_peer_id (effects p)) leader ack)].
Proof.
  intros Hs Hk. pose proof (stage_raft_entries_network entries p p1) as Hn. rewrite Hs in Hn.
  destruct (Hn eq_refl) as [Hnet Hid].
  assert (H1 : execute_effect (StageRaftEntries entries) p = Err err p1).
  { unfold execute_effect, bind. by rewrite Hs. }
  set (p2 := p1 <| effects ::= λ e, e <| network ::= λ n, n <| outbox ::= λ l, l ++
    [(addr, mkMessage (pe_peer_id (effects p)) leader ack)] |> |> |>).
  assert (H2 : execute_effect (Send leader ack) p1 = Ret [] p2).
  { unfold execute_effect, bind, get, on_effects, on_network, zoom. cbn [send_peer_message RestNetwork.interface].
    unfold RestNetwork.send, bind, get. cbn [to]. rewrite Hnet, Hk. unfold p2. rewrite Hid.
    unfold RestNetwork.spawn, modify, ret. unfold update_field. cbn. by rewrite Hnet. }
  exists p2. split; [|unfold p2; cbn; by rewrite Hnet].
  unfold execute_all, bind at 1. cbn [generations run_generation].
  unfold bind, try_. rewrite H1, H2. cbn. done.
Qed.
End acknowledging.
End PeerTheorems.
