(* ===== verification/LogSteps.v ===== *)
(** * What one event does to the log, the role and the messages of a node

    Three facts about [run_event], used by the invariants over a cluster:
    [roles] says when a node can lead or stand for election after the event;
    [log_change] says that the log is the old one, or the old one with an entry
    of a leader's own term, or the old one merged with the entries of an
    AppendEntries message; [replicates] says that what a node sends to be
    appended is a part of its log, and that only a leader sends it. *)

From S2P Require Import Prelude Platform Crypto Transactions Storage Messages RaftLogStore Raft RaftFacts RaftInvariant RaftTheorems.

Module LogSteps.
Import RaftConsensus.

(** ** Roles *)
Section roles.
Context {P : Platform}.

(** A leader led before in the same term, or stood for election in it, or the
    term is new; a candidate stood before in the same term or the term is new. *)
Record roles (s s' : RaftS) : Prop := {
  ro_term : current_term (raft s) ≤ current_term (raft s');
  ro_leader : role (raft s') = Leader →
    (role (raft s) ≠ Follower ∧ current_term (raft s') = current_term (raft s)) ∨
    current_term (raft s) < current_term (raft s');
  ro_candidate : role (raft s') = Candidate →
    (role (raft s) = Candidate ∧ current_term (raft s') = current_term (raft s)) ∨
    current_term (raft s) < current_term (raft s');
}.

#[export] Instance roles_preorder : PreOrder roles.
Proof.
  split.
  - intros s. split; [lia| |]; intros Hr; left; by rewrite Hr.
  - intros s1 s2 s3 [T1 L1 C1] [T2 L2 C2]. split; [lia| |].
    + intros H3. destruct (L2 H3) as [[H2 E2]|]; [|right; lia].
      destruct (role (raft s2)); [done|..].
      * destruct (C1 eq_refl) as [[H1 E1]|]; [|right; lia]. left. rewrite H1. split; [done|lia].
      * destruct (L1 eq_refl) as [[H1 E1]|]; [|right; lia]. left. split; [done|lia].
    + intros H3. destruct (C2 H3) as [[H2 E2]|]; [|right; lia].
      destruct (C1 H2) as [[H1 E1]|]; [left; split; [done|lia]|right; lia].
Qed.
End roles.

Section steps.
Context {BP : BuildProfile} {P : Platform} {HO : HashOrder}.
Context `{!Serde PersistedRaftLogState, !Serde (list SignedTransaction), !Serde BlockFile}.
Implicit Types (r : RaftConsensus) (s : RaftS) (e : RaftLogEntry) (es : list RaftLogEntry).

(** Updates that leave the role and the term alone, or make a follower. *)
Lemma roles_frame s s' :
  role (raft s') = role (raft s) → current_term (raft s') = current_term (raft s) → roles s s'.
Proof. intros Hr Ht. split; [lia|rewrite Hr, Ht..]; intros ->; by left. Qed.

Lemma roles_follower s s' :
  role (raft s') = Follower → current_term (raft s) ≤ current_term (raft s') → roles s s'.
Proof. intros Hr Ht. split; [done|by rewrite Hr..]. Qed.

Lemma step_down_roles {E} s t : current_term (raft s) < t → leads (E := E) roles s (step_down t).
Proof. intros Ht. apply leads_update; [apply _|]. apply roles_follower; cbn; [done|lia]. Qed.

Lemma step_down_newer_roles {E} s t : leads (E := E) roles s (step_down_on_newer_term t).
Proof. unfold step_down_on_newer_term. lead. by apply step_down_roles. Qed.

Lemma become_leader_roles {E} s : role (raft s) = Candidate → leads (E := E) roles s become_leader_if_majority.
Proof.
  intros Hc. unfold become_leader_if_majority. lead. apply leads_update; [apply _|].
  split; cbn; [lia| |done]. intros _. left. by rewrite Hc.
Qed.

Lemma start_election_roles {E} s now :
  current_term (raft s) + 1 < u64_modulus → leads (E := E) roles s (start_election_at now).
Proof.
  intros Ht. unfold start_election_at. lead_step. apply leads_bind; [apply _|lead|].
  intros t s1 [-> ->]%add_u64_Ret; [|done]. apply leads_bind; [apply _|..].
  - apply leads_update; [apply _|]. split; cbn; [lia|done|]. right. lia.
  - intros [] s2 [= <-]. by apply become_leader_roles.
Qed.

Lemma update_participants_roles {E} s l : leads (E := E) roles s (update_participants l).
Proof. intros s' [= <-]. by apply roles_frame. Qed.

Lemma request_vote_roles {E} s t c li lt : leads (E := E) roles s (request_vote t c li lt).
Proof.
  unfold request_vote. lead; try by apply step_down_roles.
  all: apply leads_update; [apply _|]; by apply roles_frame.
Qed.

Lemma receive_vote_roles {E} s t v g : leads (E := E) roles s (receive_vote t v g).
Proof.
  unfold receive_vote. lead; [by apply step_down_roles|..].
  - apply leads_update; [apply _|]. by apply roles_frame.
  - apply become_leader_roles. match goal with H : update _ _ = _ |- _ => injection H as <- <- end.
    cbn. destruct (decide (role (raft s) = Candidate)); tauto.
Qed.

Lemma receive_append_roles {E} s draw t l f now :
  leads (E := E) roles s (receive_append_entries_at draw t l f now).
Proof.
  unfold receive_append_entries_at, reset_election_timeout. lead; [by apply step_down_roles|..].
  - apply leads_update; [apply _|]. by apply roles_follower.
  - apply leads_update; [apply _|]. by apply roles_frame.
Qed.

(** What replication leaves alone: term, role and vote. *)
Definition same_role s s' : Prop :=
  role (raft s') = role (raft s) ∧ current_term (raft s') = current_term (raft s) ∧
  voted_for (raft s') = voted_for (raft s).
#[local] Instance same_role_preorder : PreOrder same_role.
Proof. split; [by intros s|]. unfold same_role. intros s1 s2 s3. intuition congruence. Qed.

Lemma leads_roles {E A} s (m : RaftM E A) : leads same_role s m → leads roles s m.
Proof. intros H s' Hs. destruct (H s' Hs) as (? & ? & _). by apply roles_frame. Qed.

Ltac same_role_updates := lead; try (apply leads_update; [apply _|]; by split).

Lemma persist_log_role s : leads same_role s persist_log.
Proof. intros s'. unfold persist_log. destruct (RaftLogStore.save _ _ _ _); by intros [= <-]. Qed.

Lemma advance_role {E} s : leads (E := E) same_role s advance_commit_index.
Proof. unfold advance_commit_index. same_role_updates. Qed.

Lemma append_local_entry_role s e : leads same_role s (append_local_entry e).
Proof. unfold append_local_entry. same_role_updates; [apply advance_role|apply persist_log_role]. Qed.

Lemma append_leader_noop_role s : leads same_role s append_leader_noop.
Proof. unfold append_leader_noop. lead. apply append_local_entry_role. Qed.

Lemma append_entries_role {E} s p pt es lc : leads (E := E) same_role s (append_entries p pt es lc).
Proof.
  assert (Hc : ∀ es off s, leads (E := E) same_role s (entries_are_contiguous_from p off es)).
  { induction es0 as [|e es0 IH]; intros off s0; cbn [entries_are_contiguous_from]; lead. apply IH. }
  assert (Ha : ∀ es ds s, leads (E := E) same_role s (append_loop es ds)).
  { induction es0 as [|e es0 IH]; intros ds s0; cbn [append_loop]; same_role_updates; apply IH. }
  unfold append_entries, entries_are_contiguous_after. same_role_updates; [apply Hc|apply Ha].
Qed.

Lemma handle_append_roles s draw req : leads roles s (handle_append_entries draw req).
Proof.
  unfold handle_append_entries. apply leads_bind; [apply _|apply receive_append_roles|].
  intros accepted s1 _. apply leads_roles. same_role_updates; [apply append_entries_role|apply persist_log_role].
Qed.

Lemma leader_response_roles s t f ok m : leads roles s (handle_leader_append_entries_response t f ok m).
Proof.
  unfold handle_leader_append_entries_response. apply leads_gets.
  destruct (decide _); [lead; by apply step_down_roles|]. apply leads_roles.
  same_role_updates; [apply advance_role|apply persist_log_role].
Qed.

Lemma on_tick_roles s now peers :
  current_term (raft s) + 1 < u64_modulus → leads roles s (on_tick now peers).
Proof.
  intros Ht. unfold on_tick. apply leads_bind; [apply _|apply update_participants_roles|].
  intros [] s1 H1. pose proof (leads_Ret _ _ _ _ _ (proj2 (update_participants_same s peers)) H1) as Et.
  lead.
  - apply leads_update; [apply _|]. by apply roles_frame.
  - apply start_election_roles. by rewrite Et.
  - apply leads_roles, append_leader_noop_role.
Qed.

Lemma run_event_roles s ev : event_fits (raft s) ev → leads roles s (run_event ev).
Proof.
  intros (_ & Ht & _). destruct ev; cbn [run_event].
  - unfold on_client_transaction, forward_client_transaction. lead.
  - unfold on_block_created, append_local_block. lead. apply leads_roles, append_local_entry_role.
  - by apply on_tick_roles.
  - unfold on_request_vote. lead. apply request_vote_roles.
  - unfold on_request_vote_response. lead; [apply receive_vote_roles| |apply step_down_newer_roles].
    apply leads_roles, append_leader_noop_role.
  - apply handle_append_roles.
  - unfold on_append_entries_response. lead; [apply leader_response_roles|apply step_down_newer_roles].
  - unfold take_pending_block. lead. apply leads_update; [apply _|]. by apply roles_frame.
Qed.
(** ** The log *)

Lemma become_leader_won {E} s s' :
  become_leader_if_majority (E := E) s = Ret true s' → role (raft s') = Leader ∧ log (raft s') = log (raft s).
Proof. unfold become_leader_if_majority. rewrite bind_gets. case_decide; [by intros [= <-]|done]. Qed.

Lemma start_election_won {E} s now s' :
  start_election_at (E := E) now s = Ret true s' → role (raft s') = Leader.
Proof.
  unfold start_election_at. rewrite bind_gets. intros (t & s1 & _ & H)%bind_Ret.
  rewrite bind_update in H. by apply become_leader_won in H as [? _].
Qed.

Lemma receive_vote_won {E} s t v g s' : receive_vote (E := E) t v g s = Ret true s' → role (raft s') = Leader.
Proof.
  unfold receive_vote. rewrite bind_gets. repeat case_decide; try done.
  rewrite bind_update. by intros [? _]%become_leader_won.
Qed.

Lemma receive_append_accepted {E} s draw t l f now s' :
  receive_append_entries_at (E := E) draw t l f now s = Ret true s' → role (raft s') = Follower.
Proof.
  unfold receive_append_entries_at, reset_election_timeout. rewrite bind_gets. repeat (case_decide; [done|]).
  intros (? & s1 & _ & Hr)%bind_Ret. rewrite bind_gets in Hr.
  destruct (match leader_id (raft s1) with Some _ => _ | None => _ end && _); [done|].
  cbv zeta in Hr. rewrite bind_update in Hr. destruct (bool_decide _); by injection Hr as <-.
Qed.

(** The log, the role and the term, which persisting and committing keep. *)
Definition same_core s s' : Prop :=
  log (raft s') = log (raft s) ∧ role (raft s') = role (raft s) ∧
  current_term (raft s') = current_term (raft s) ∧ commit_index (raft s) ≤ commit_index (raft s').
#[local] Instance same_core_preorder : PreOrder same_core.
Proof. split; [by intros s|]. unfold same_core. intros s1 s2 s3. intuition (congruence || lia). Qed.

Lemma persist_log_core s : leads same_core s persist_log.
Proof. intros s'. unfold persist_log. destruct (RaftLogStore.save _ _ _ _); by intros [= <-]. Qed.

Lemma advance_core {E} s : leads (E := E) same_core s advance_commit_index.
Proof.
  unfold advance_commit_index. lead. apply leads_update; [apply _|]. split_and!; [done..|].
  match goal with H : List.find _ _ = Some _ |- _ => apply committable_find in H as (_ & H & _) end. cbn. lia.
Qed.

Lemma append_local_entry_core s e s' :
  final_state (append_local_entry e s) = Some s' →
  log (raft s') = log (raft s) ++ [e] ∧ role (raft s') = role (raft s) ∧
  current_term (raft s') = current_term (raft s).
Proof.
  unfold append_local_entry. rewrite !bind_update, bind_gets. cbv zeta.
  set (s1 := (s <| raft ::= _ |>) <| raft ::= _ |>). intros H.
  assert (Hc : same_core s1 s'); [|by destruct Hc as (-> & -> & -> & _)].
  revert H. apply leads_bind; [apply _|apply advance_core|]. intros c s2 _.
  lead. apply persist_log_core.
Qed.

Lemma append_leader_noop_core s s' :
  final_state (append_leader_noop s) = Some s' →
  ∃ e, log (raft s') = log (raft s) ++ [e] ∧ term e = current_term (raft s') ∧
    role (raft s') = role (raft s) ∧ current_term (raft s') = current_term (raft s).
Proof.
  unfold append_leader_noop. rewrite bind_gets. unfold add_u64.
  destruct (checked_plus _ _ _) as [i|]; [|done]. rewrite bind_unwrap_Some.
  intros (Hl & Hr & Ht)%append_local_entry_core. exists (noop (current_term (raft s)) i).
  by rewrite Ht.
Qed.

Inductive log_change (ev : raft_event) s s' : Prop :=
  | lc_same : log (raft s') = log (raft s) → log_change ev s s'
  | lc_led e :
      role (raft s') = Leader → log (raft s') = log (raft s) ++ [e] →
      term e = current_term (raft s') → log_change ev s s'
  | lc_merged draw t l p pt rbs lc f now :
      ev = EvAppendEntries draw t l p pt rbs lc f now → role (raft s') = Follower →
      append_accepted (raft s) p pt (rb_entry <$> rbs) →
      log (raft s') = merge (log (raft s)) (rb_entry <$> rbs) → log_change ev s s'.

Definition same_entries s s' : Prop := log (raft s') = log (raft s).
#[local] Instance same_entries_preorder : PreOrder same_entries.
Proof. split; [by intros s|]. unfold same_entries. intros s1 s2 s3. congruence. Qed.

Lemma lc_leads {A} ev s (m : RaftM string A) s' :
  leads same_entries s m → final_state (m s) = Some s' → log_change ev s s'.
Proof. intros H Hf. apply lc_same. by apply H. Qed.

(** The no-op of a node that has just won. *)
Lemma lc_noop ev s s1 s' :
  role (raft s1) = Leader → log (raft s1) = log (raft s) →
  final_state (append_leader_noop s1) = Some s' → log_change ev s s'.
Proof.
  intros Hr Hl (e & Hl' & Ht & Hr' & _)%append_leader_noop_core.
  apply (lc_led ev s s' e); congruence.
Qed.

Lemma on_tick_log s now peers s' :
  final_state (on_tick now peers s) = Some s' → log_change (EvTick now peers) s s'.
Proof.
  unfold on_tick. intros [(a & s1 & H1 & H)|[err H1]]%bind_final; [|done].
  pose proof (leads_Ret _ _ _ _ _ (proj1 (update_participants_same s peers)) H1) as (El & _ & _).
  rewrite bind_gets in H. destruct (decide _).
  { destruct (heartbeat_due _ _); [rewrite bind_update, bind_gets in H|]; injection H as <-; by apply lc_same. }
  destruct (decide _); [|injection H as <-; by apply lc_same].
  apply bind_final in H as [(won & s2 & H2 & H)|[err H2]].
  - pose proof (leads_Ret _ _ _ _ _ (start_election_log s1 now) H2) as (El2 & _ & _).
    rewrite bind_gets in H. cbv zeta in H. destruct won; [|injection H as <-; apply lc_same; congruence].
    apply bind_final in H as [(more & s3 & H3 & [= <-])|[err H3]];
      (eapply (lc_noop _ s s2); [by eapply start_election_won|congruence|by rewrite H3]).
  - apply lc_same. destruct (start_election_log (E := string) s1 now s') as (El2 & _ & _); [by rewrite H2|]. congruence.
Qed.

Lemma vote_response_log s t v g s' :
  final_state (on_request_vote_response t v g s) = Some s' → log_change (EvRequestVoteResponse t v g) s s'.
Proof.
  unfold on_request_vote_response. rewrite bind_gets. destruct (decide _).
  2:{ apply lc_leads. unfold step_down_on_newer_term, step_down. lead. by apply leads_update; [apply _|]. }
  intros [(won & s1 & H1 & H)|[err H1]]%bind_final.
  - pose proof (leads_Ret _ _ _ _ _ (receive_vote_log s t v g) H1) as (El & _ & _).
    destruct won; [|injection H as <-; by apply lc_same].
    eapply (lc_noop _ s s1); [by eapply receive_vote_won|done|done].
  - apply lc_same. destruct (receive_vote_log (E := string) s t v g s') as (El & _ & _); [by rewrite H1|]. done.
Qed.

Lemma handle_append_log s draw t l p pt rbs lc f now s' :
  raft_wf (raft s) → entries_room (raft s) rbs →
  final_state (on_append_entries draw t l p pt rbs lc f now s) = Some s' →
  log_change (EvAppendEntries draw t l p pt rbs lc f now) s s'.
Proof.
  intros Hwf Hroom. unfold on_append_entries, handle_append_entries. cbn [req_term req_leader_id req_from req_now
    req_entries req_prev_log_index req_prev_log_term req_leader_commit].
  intros [(acc & s1 & H1 & H)|[err H1]]%bind_final.
  2:{ apply lc_same. destruct (receive_append_entries_at_log (E := string) s draw t l f now s') as (El & _ & _);
      [by rewrite H1|]. done. }
  pose proof (leads_Ret _ _ _ _ _ (receive_append_entries_at_log s draw t l f now) H1) as (El & Ec & _).
  pose proof (RaftTheorems.evolves_wf _ _ _ _ (receive_append_entries_at_evolves s draw t l f now) H1 Hwf) as Hwf1.
  rewrite bind_gets in H. destruct acc; cbn [negb] in H; [|injection H as <-; by apply lc_same].
  destruct (validate_replicated_entries rbs) as [[es bs]|] eqn:Ev; [|injection H as <-; by apply lc_same].
  apply validate_length in Ev as ->. cbv zeta in H.
  apply receive_append_accepted in H1 as Hrole.
  destruct (append_entries_cases (E := string) s1 p pt (rb_entry <$> rbs) lc Hwf1) as [[_ H2]|[Ha H2]].
  { rewrite El, length_fmap. done. }
  - rewrite (bind_of _ _ _ _ _ H2), bind_gets in H. injection H as <-. by apply lc_same.
  - rewrite (bind_of _ _ _ _ _ H2), bind_update, bind_gets in H.
    match type of H with final_state (bind ?m ?k ?s2) = _ => assert (Hc : same_core s2 s') end.
    { revert H. apply leads_bind; [apply _| |intros; lead]. destruct (_ || _); [apply persist_log_core|lead]. }
    destruct Hc as (Hl & Hr & _). eapply lc_merged; [done| | |].
    + by rewrite Hr.
    + by eapply RaftTheorems.append_accepted_log.
    + rewrite Hl. cbn. by rewrite El.
Qed.

Lemma run_event_log_change s ev s' :
  raft_wf (raft s) → event_fits (raft s) ev → final_state (run_event ev s) = Some s' → log_change ev s s'.
Proof.
  intros Hwf (_ & _ & Hev). destruct ev; cbn [run_event].
  - apply lc_leads. unfold on_client_transaction, forward_client_transaction. lead.
  - unfold on_block_created. rewrite bind_gets. destruct (role (raft s)) eqn:Hr; [by intros [= <-]; apply lc_same..|].
    unfold append_local_block. rewrite bind_gets. destruct (ensure_no_uncommitted_block _); [|by intros [= <-]; apply lc_same].
    unfold of_result. rewrite bind_ret_l. unfold add_u64. destruct (checked_plus _ _ _); [|done].
    rewrite bind_unwrap_Some. intros (Hl & Hr' & Ht)%append_local_entry_core.
    eapply lc_led; [|done|]; [congruence|by rewrite Ht].
  - apply on_tick_log.
  - apply lc_leads. unfold on_request_vote, request_vote, step_down. lead; by apply leads_update; [apply _|].
  - apply vote_response_log.
  - by apply handle_append_log.
  - apply lc_leads. unfold on_append_entries_response, handle_leader_append_entries_response,
      step_down_on_newer_term, step_down, advance_commit_index. lead; try by apply leads_update; [apply _|].
    all: intros ? Hp; by destruct (persist_log_core _ _ Hp).
  - apply lc_leads. unfold take_pending_block. lead. by apply leads_update; [apply _|].
Qed.
(** ** What is sent to be appended *)

Definition append_body (b : MessageBody) : bool :=
  match b with RaftAppendEntries _ _ _ _ _ _ => true | _ => false end.

(** Only a leader sends entries; they follow, in its log, an entry of the
    term the message names, and what the message calls committed is. *)
Definition replicates r (e : ConsensusEffect) : Prop :=
  match e with
  | SendRaftAppendEntries _ t p pt es lc =>
      role r = Leader ∧ t = current_term r ∧ term_at r p = Some pt ∧
      es `prefix_of` drop (N.to_nat p) (log r) ∧ lc ≤ commit_index r
  | Send _ b | Broadcast b => append_body b = false
  | _ => True
  end.

Lemma replicates_core s s' (e : ConsensusEffect) : same_core s s' → replicates (raft s) e → replicates (raft s') e.
Proof.
  intros (Hl & Hr & Ht & Hc). destruct e; cbn; try done. intros (? & ? & Hp & ? & ?).
  rewrite Hr, Ht, Hl. split_and!; [done|done| |done|lia]. revert Hp. unfold term_at, log_entry. by rewrite Hl.
Qed.

Lemma commit_effects_replicate r r' n : Forall (replicates r) (commit_effects r' n).
Proof. by apply Forall_fmap, Forall_forall. Qed.

Lemma effect_for_replicates r p (e : ConsensusEffect) :
  contiguous (log r) → role r = Leader → append_entries_effect_for r p = Some e → replicates r e.
Proof.
  intros Hl Hr (t & Ht & [= <-])%bind_Some. split_and!; [done|done|done| |done].
  rewrite entries_above by done. apply prefix_take.
Qed.

Lemma followers_effects_replicate r :
  contiguous (log r) → role r = Leader → Forall (replicates r) (append_entries_effects_for_followers r).
Proof.
  intros Hl Hr. apply Forall_forall. intros e (q & _ & Hq)%list_elem_of_omap. by eapply effect_for_replicates.
Qed.

Lemma advance_replicates {E} s effects s' r :
  advance_commit_index (E := E) s = Ret effects s' → Forall (replicates r) effects.
Proof.
  unfold advance_commit_index. rewrite bind_gets. cbv zeta. intros (? & s1 & _ & H)%bind_Ret.
  rewrite bind_gets in H. injection H as <- _. apply commit_effects_replicate.
Qed.

Lemma append_local_entry_replicates e s effects s' :
  contiguous (log (raft s) ++ [e]) → role (raft s) = Leader →
  append_local_entry e s = Ret effects s' → Forall (replicates (raft s')) effects.
Proof.
  intros Hl Hr. unfold append_local_entry. rewrite !bind_update, bind_gets. cbv zeta.
  set (s1 := (s <| raft ::= _ |>) <| raft ::= _ |>).
  intros (c & s2 & Hc & H)%bind_Ret. apply bind_Ret in H as ([] & s3 & H3 & [= <- <-]).
  assert (Hcore : same_core s1 s3).
  { transitivity s2; [exact (leads_Ret _ _ _ _ _ (advance_core s1) Hc)|
                      exact (leads_Ret _ _ _ _ _ (persist_log_core s2) H3)]. }
  apply Forall_app. split; [|by eapply advance_replicates].
  eapply Forall_impl; [by apply (followers_effects_replicate (raft s1))|].
  intros x. by apply replicates_core.
Qed.

Lemma append_leader_noop_replicates s effects s' :
  raft_wf (raft s) → log_room (raft s) → role (raft s) = Leader →
  append_leader_noop s = Ret effects s' → Forall (replicates (raft s')) effects.
Proof.
  intros Hwf Hroom Hr. unfold append_leader_noop.
  rewrite bind_gets, last_log_index_length, bind_add_u64 by (done || apply Hwf).
  apply append_local_entry_replicates; [|done]. apply contiguous_snoc; [apply Hwf|done].
Qed.

Lemma on_block_created_replicates h s effects s' :
  raft_wf (raft s) → log_room (raft s) →
  on_block_created h s = Ret effects s' → Forall (replicates (raft s')) effects.
Proof.
  intros Hwf Hroom. unfold on_block_created. rewrite bind_gets.
  destruct (role (raft s)) eqn:Hr; [intros [= <- <-]; constructor..|].
  unfold append_local_block. rewrite bind_gets. intros (? & s1 & [_ ->]%of_result_Ret & H)%bind_Ret.
  rewrite last_log_index_length, bind_add_u64 in H by (done || apply Hwf). revert H.
  apply append_local_entry_replicates; [|done]. apply contiguous_snoc; [apply Hwf|done].
Qed.

Lemma append_entries_replicates {E} p pt es lc s effects s' r :
  append_entries (E := E) p pt es lc s = Ret (Some effects) s' → Forall (replicates r) effects.
Proof.
  unfold append_entries. rewrite bind_gets. destruct (decide _); [done|].
  intros (b & s1 & _ & H)%bind_Ret. destruct (negb b); [done|].
  apply bind_Ret in H as (ds & s2 & _ & H). destruct ds as [ds|]; [|done].
  rewrite bind_update, bind_gets in H. injection H as <- _.
  repeat apply Forall_app_2; [by apply Forall_fmap, Forall_forall| |apply commit_effects_replicate].
  case_decide; repeat constructor.
Qed.

Lemma handle_append_replicates draw req s effects s' :
  handle_append_entries draw req s = Ret effects s' → Forall (replicates (raft s')) effects.
Proof.
  unfold handle_append_entries. intros (acc & s1 & _ & H)%bind_Ret. rewrite bind_gets in H.
  destruct (negb acc); [injection H as <- _; by repeat constructor|].
  destruct (validate_replicated_entries _) as [[es bs]|]; [|injection H as <- _; by repeat constructor].
  cbv zeta in H. apply bind_Ret in H as (o & s2 & Ho & H). destruct o as [effs|].
  - rewrite bind_update, bind_gets in H. apply bind_Ret in H as (? & s3 & _ & [= <- _]).
    apply Forall_app_2; [by eapply append_entries_replicates|by repeat constructor].
  - rewrite bind_gets in H. injection H as <- _. by repeat constructor.
Qed.

Lemma leader_response_replicates t f ok m s effects s' :
  raft_wf (raft s) → role (raft s) = Leader →
  handle_leader_append_entries_response t f ok m s = Ret effects s' → Forall (replicates (raft s')) effects.
Proof.
  intros Hwf Hr. unfold handle_leader_append_entries_response. rewrite bind_gets.
  destruct (decide _); [by intros (? & ? & _ & [= <- _])%bind_Ret|].
  destruct (decide _); [by intros [= <- _]|]. destruct ok.
  - rewrite bind_update. intros (effs & s1 & H1 & H)%bind_Ret. rewrite bind_gets in H.
    apply bind_Ret in H as (? & ? & _ & [= <- _]). by eapply advance_replicates.
  - cbv zeta. rewrite bind_update, bind_gets. destruct (decide _); [by intros [= <- _]|].
    intros [= <- <-]. destruct (append_entries_effect_for _ _) as [e|] eqn:He; [|constructor].
    cbn. constructor; [|constructor]. by eapply effect_for_replicates in He; [|apply Hwf|].
Qed.

Lemma on_tick_replicates now peers s effects s' :
  raft_wf (raft s) → log_room (raft s) → current_term (raft s) + 1 < u64_modulus →
  on_tick now peers s = Ret effects s' → Forall (replicates (raft s')) effects.
Proof.
  intros Hwf Hroom Ht. unfold on_tick. intros ([] & s1 & H1 & H)%bind_Ret.
  pose proof (RaftTheorems.evolves_wf _ _ _ _ (update_participants_evolves s peers) H1 Hwf) as Hwf1.
  destruct (update_participants_same (E := string) s peers) as [Hl Hst].
  pose proof (leads_Ret _ _ _ _ _ Hl H1) as (El & _). pose proof (leads_Ret _ _ _ _ _ Hst H1) as Et.
  rewrite bind_gets in H. destruct (decide _) as [Hr|].
  { destruct (heartbeat_due _ _); [rewrite bind_update, bind_gets in H|]; injection H as <- <-; [|constructor].
    by apply followers_effects_replicate; [apply Hwf1|]. }
  destruct (decide _); [|injection H as <- _; constructor].
  apply bind_Ret in H as (won & s2 & H2 & H).
  assert (Hwf2 : raft_wf (raft s2)).
  { eapply RaftTheorems.evolves_wf; [|exact H2|done]. apply start_election_evolves. by rewrite Et. }
  pose proof (leads_Ret _ _ _ _ _ (start_election_log s1 now) H2) as (El2 & _).
  rewrite bind_gets in H. cbv zeta in H. destruct won; [|injection H as <- _; by repeat constructor].
  apply bind_Ret in H as (more & s3 & H3 & [= <- <-]). constructor; [done|].
  eapply append_leader_noop_replicates; [exact Hwf2| |by eapply start_election_won|exact H3].
  unfold log_room. by rewrite El2, El.
Qed.

Lemma vote_response_replicates t v g s effects s' :
  raft_wf (raft s) → log_room (raft s) →
  on_request_vote_response t v g s = Ret effects s' → Forall (replicates (raft s')) effects.
Proof.
  intros Hwf Hroom. unfold on_request_vote_response. rewrite bind_gets.
  destruct (decide _); [|intros (? & ? & _ & [= <- _])%bind_Ret; constructor].
  intros (won & s1 & H1 & H)%bind_Ret. destruct won; [|injection H as <- _; constructor].
  pose proof (leads_Ret _ _ _ _ _ (receive_vote_log s t v g) H1) as (El & _).
  eapply append_leader_noop_replicates; [|unfold log_room; by rewrite El|by eapply receive_vote_won|exact H].
  eapply RaftTheorems.evolves_wf; [|exact H1|done]. apply receive_vote_evolves.
Qed.

Lemma run_event_replicates s ev effects s' :
  raft_wf (raft s) → event_fits (raft s) ev →
  run_event ev s = Ret effects s' → Forall (replicates (raft s')) effects.
Proof.
  intros Hwf (Hroom & Ht & _). destruct ev; cbn [run_event].
  - unfold on_client_transaction, forward_client_transaction. rewrite bind_gets.
    destruct (role (raft s)); [rewrite bind_gets..|];
      intros (? & ? & _ & [= <- _])%bind_Ret; by repeat constructor.
  - by apply on_block_created_replicates.
  - by apply on_tick_replicates.
  - unfold on_request_vote. intros (? & ? & _ & H)%bind_Ret. rewrite bind_gets in H.
    injection H as <- _. by repeat constructor.
  - by apply vote_response_replicates.
  - apply handle_append_replicates.
  - unfold on_append_entries_response. rewrite bind_gets. destruct (decide _).
    + by apply leader_response_replicates.
    + intros (? & ? & _ & [= <- _])%bind_Ret. constructor.
  - intros (? & ? & _ & [= <- _])%bind_Ret. constructor.
Qed.
End steps.
End LogSteps.
