(* ===== verification/RaftCommits.v ===== *)
(** * The blocks a Raft node commits, in order

    [committed r] are the hashes of the blocks a node has committed, in log
    order.  In a build with overflow checks every event extends that list, and
    the blocks it adds are exactly the ones the returned effects ask the peer to
    commit.  (A counter that would overflow is a panic there, so no bound on the
    counters is assumed.) *)

From S2P Require Import Prelude Platform Crypto Transactions Storage Messages RaftLogStore Raft RaftFacts RaftInvariant RaftTheorems LogSteps.

(** ** The invariant of a node in a checked build *)

Module CheckedRaft.
Import RaftConsensus RaftTheorems.
Section checked.
Context {BP : BuildProfile} {P : Platform} {HO : HashOrder}.
Context `{!Serde PersistedRaftLogState, !Serde (list SignedTransaction), !Serde BlockFile}.
Context (OC : overflow_checks = true).
Implicit Types (r : RaftConsensus) (s : RaftS).

Lemma add_u64_checked {T E} a b n (s s' : T) :
  add_u64 (E := E) a b s = Ret n s' → n = a + b ∧ a + b < u64_modulus ∧ s' = s.
Proof.
  unfold add_u64. destruct (checked_plus _ _ _) as [c|] eqn:Hc; [|done].
  destruct (checked_plus_checked _ _ _ _ OC Hc) as [-> ?]. by intros [= <- <-].
Qed.

Lemma append_local_block_evolves_checked s h : leads evolves s (append_local_block h).
Proof.
  apply leads_wf. intros Hwf. unfold append_local_block. lead.
  match goal with H : of_result _ _ = _ |- _ => apply of_result_Ret in H as [_ ->] end.
  match goal with H : add_u64 _ _ _ = _ |- _ => apply add_u64_checked in H as (-> & _ & ->) end.
  apply append_local_entry_evolves. intros _. by rewrite last_log_index_length by apply Hwf.
Qed.

Lemma append_leader_noop_evolves_checked s : leads evolves s append_leader_noop.
Proof.
  apply leads_wf. intros Hwf. unfold append_leader_noop. lead.
  match goal with H : add_u64 _ _ _ = _ |- _ => apply add_u64_checked in H as (-> & _ & ->) end.
  apply append_local_entry_evolves. intros _. cbn. by rewrite last_log_index_length by apply Hwf.
Qed.

Lemma start_election_evolves_checked {E} s now : leads (E := E) evolves s (start_election_at now).
Proof.
  destruct (decide (current_term (raft s) + 1 < u64_modulus)) as [Ht|Ht]; [by apply start_election_evolves|].
  unfold start_election_at. apply leads_gets. intros s' Hf. exfalso. revert Hf.
  unfold bind at 1, add_u64, unwrap, checked_plus. by rewrite decide_False, OC.
Qed.

(** *** AppendEntries *)

Lemma contiguous_from_checked {T E} p off entries (s : T) b (s' : T) :
  entries_are_contiguous_from (E := E) p off entries s = Ret b s' →
  s' = s ∧ (b = true ↔ contiguous_after (p + off) entries) ∧ (b = true → u64_indexes entries).
Proof.
  revert off. induction entries as [|e entries IH]; intros off; cbn [entries_are_contiguous_from].
  - intros [= <- <-]. split; [done|]. split; [|by constructor]. split; [|done].
    intros _ i e. by rewrite lookup_nil.
  - intros (i & s1 & (-> & _ & ->)%add_u64_checked & H)%bind_Ret.
    apply bind_Ret in H as (j & s1 & (-> & Hj & ->)%add_u64_checked & H). rewrite contiguous_after_cons.
    case_decide as Hi.
    + apply IH in H as (-> & Hb & Hu). split; [done|]. split; [rewrite Hb, N.add_assoc; tauto|].
      intros Ht. constructor; [lia|by apply Hu].
    + injection H as <- <-. split; [done|]. split; [|done]. split; [done|]. tauto.
Qed.

Lemma append_entries_cases_checked {E} s prev pt entries lc o s' :
  raft_wf (raft s) → append_entries (E := E) prev pt entries lc s = Ret o s' →
  (append_refused (raft s) prev pt entries ∧ o = None ∧ s' = s) ∨
  (append_accepted (raft s) prev pt entries ∧ o = Some (append_effects (raft s) entries lc) ∧
   s' = mkRaftS (appended (raft s) entries lc) (raft_disk s)).
Proof.
  intros Hwf. unfold append_entries, append_refused. rewrite bind_gets.
  destruct (decide (term_at (raft s) prev ≠ Some pt)) as [|Hprev%dec_stable]; [intros [= <- <-]; by left; auto|].
  pose proof (term_at_bound _ _ _ (wf_log _ Hwf) Hprev) as Hle.
  intros (b & s1 & (-> & Hc & Hu)%contiguous_from_checked & H)%bind_Ret. rewrite N.add_0_r in Hc.
  destruct b; cbn [negb] in H; [|injection H as <- <-; left; split; [|done]; right; left; by intros ?%Hc].
  assert (Hafter : contiguous_after prev entries) by by apply Hc. specialize (Hu eq_refl). cbv zeta in H.
  destruct (conflicts_committed_dec (raft s) entries) as [Hcc|Hcc].
  { left. erewrite bind_of in H; [|by eapply append_loop_refuses; [apply Hwf|done|done|apply Hwf|done]].
    injection H as <- <-. split; [by auto|done]. }
  right. split; [done|]. erewrite bind_of in H; [|eapply append_loop_merges; [apply Hwf|done..]].
  cbv beta iota in H. rewrite bind_update, bind_gets in H. injection H as <- <-.
  assert (Hll : last_log_index (raft (with_log (merge (log (raft s)) entries) s)) =
    N.of_nat (length (merge (log (raft s)) entries))).
  { apply last_log_index_length. cbn. eapply merge_contiguous; [apply Hwf|done|done]. }
  assert (Hst : (with_log (merge (log (raft s)) entries) s) <| raft ::= λ r, r <| commit_index :=
      N.max (commit_index r) (N.min lc (last_log_index r)) |> |> =
    mkRaftS (appended (raft s) entries lc) (raft_disk s)).
  { unfold appended. rewrite <-Hll. reflexivity. }
  pose proof (f_equal raft Hst) as Hr. cbn [raft] in Hr. unfold append_effects. rewrite <-Hr. by split.
Qed.

(** It answers or panics. *)
Lemma append_loop_no_error {E} es ds s x s' : append_loop (E := E) es ds s ≠ Err x s'.
Proof.
  revert ds s. induction es as [|e es IH]; intros ds s; cbn [append_loop]; [done|]. rewrite bind_gets.
  destruct (log_entry _ _).
  - case_decide; [|apply IH]. case_decide; [done|]. unfold sub_u64. destruct (checked_minus _ _ _); [|done].
    rewrite bind_unwrap_Some. cbv zeta. rewrite !bind_update. apply IH.
  - unfold add_u64. destruct (checked_plus _ _ _); [|done]. rewrite bind_unwrap_Some.
    case_decide; [rewrite bind_update|]; apply IH.
Qed.

Lemma append_entries_no_error {E} prev pt entries lc s x s' : append_entries (E := E) prev pt entries lc s ≠ Err x s'.
Proof.
  unfold append_entries. rewrite bind_gets. case_decide; [done|]. cbv zeta.
  assert (Hc : ∀ p off es, entries_are_contiguous_from (E := E) p off es s ≠ Err x s').
  { intros p off es. revert off. induction es as [|e es IH]; intros off; cbn [entries_are_contiguous_from]; [done|].
    unfold add_u64. destruct (checked_plus _ _ _); [|done]. rewrite bind_unwrap_Some.
    destruct (checked_plus _ _ _); [|done]. rewrite bind_unwrap_Some. case_decide; [apply IH|done]. }
  intros [Ha|(b & s1 & _ & Ha)]%bind_Err; [by apply Hc in Ha|]. destruct (negb b); [done|]. cbv zeta in Ha.
  apply bind_Err in Ha as [Ha|([hs|] & s2 & _ & Ha)]; [by apply append_loop_no_error in Ha| |done].
  rewrite bind_update in Ha. done.
Qed.

Lemma append_entries_evolves_checked {E} s prev pt entries lc :
  leads (E := E) evolves s (append_entries prev pt entries lc).
Proof.
  apply leads_wf. intros Hwf s' Hf.
  destruct (append_entries prev pt entries lc s) as [o s1|e s1|] eqn:Ha; cbn in Hf; [..|done]; injection Hf as ->.
  - apply append_entries_cases_checked in Ha as [(_ & _ & ->)|(Ha & _ & ->)]; [reflexivity| |done].
    intros _. by eapply appended_facts.
  - by apply append_entries_no_error in Ha.
Qed.

Lemma handle_append_entries_evolves_checked s draw req : leads evolves s (handle_append_entries draw req).
Proof.
  unfold handle_append_entries. lead;
    first [apply receive_append_entries_at_evolves|apply append_entries_evolves_checked|apply persist_log_evolves|idtac].
  all: apply leads_update; [apply _|]; apply evolves_frame; try done; intros []; by split.
Qed.

(** *** Every event *)

Lemma on_tick_evolves_checked s now peers : leads evolves s (on_tick now peers).
Proof.
  unfold on_tick. lead;
    first [apply update_participants_evolves|apply start_election_evolves_checked|apply append_leader_noop_evolves_checked|idtac].
  apply leads_update; [apply _|]. apply evolves_frame; try done. intros []. by split.
Qed.

Lemma run_event_evolves_checked s ev : leads evolves s (run_event ev).
Proof.
  destruct ev; cbn [run_event].
  - unfold on_client_transaction, forward_client_transaction. lead.
  - unfold on_block_created. lead. apply append_local_block_evolves_checked.
  - apply on_tick_evolves_checked.
  - unfold on_request_vote. lead. apply request_vote_evolves.
  - unfold on_request_vote_response. lead;
      first [apply receive_vote_evolves|apply append_leader_noop_evolves_checked|apply step_down_on_newer_term_evolves].
  - apply handle_append_entries_evolves_checked.
  - unfold on_append_entries_response. lead;
      [by apply handle_leader_response_evolves|by apply step_down_on_newer_term_evolves].
  - lead. apply take_pending_block_evolves.
Qed.
End checked.
End CheckedRaft.

(** ** What is committed *)

Module Committed.
Import RaftConsensus RaftTheorems CheckedRaft.

Section lists.
Context {P : Platform}.
Implicit Types (r : RaftConsensus) (l : list ConsensusEffect).

(** The committed blocks, in log order; a no-op has none. *)
Definition committed r : list BlockHash :=
  block_hash <$> filter (λ e, is_noop e = false) (take (N.to_nat (commit_index r)) (log r)).

(** The blocks a list of effects may commit, in its order: those it commits,
    and a proposal, which a peer without others commits at once. *)
Definition commits l : list BlockHash :=
  omap (λ e, match e with CommitBlock h | ProposeBlock h => Some h | _ => None end) l.

Lemma commits_app l1 l2 : commits (l1 ++ l2) = commits l1 ++ commits l2.
Proof. apply omap_app. Qed.

Lemma commits_none l :
  Forall (λ e, match e with CommitBlock _ | ProposeBlock _ => False | _ => True end) l → commits l = [].
Proof. induction 1 as [|[] l He _ IH]; done. Qed.

(** The entries between two indexes. *)
Lemma entries_between (l : list RaftLogEntry) n m :
  contiguous l → filter (λ e, n < index e ∧ index e ≤ m) l = drop (N.to_nat n) (take (N.to_nat m) l).
Proof.
  intros Hl. rewrite <-(take_drop (N.to_nat m) l) at 1. rewrite <-(take_drop (N.to_nat n) (take (N.to_nat m) l)) at 1.
  rewrite !filter_app, filter_drops, filter_keeps, filter_drops; [by rewrite app_nil_r|..]; apply Forall_lookup; intros i e.
  - rewrite lookup_drop. intros Hi. specialize (Hl _ _ Hi). lia.
  - rewrite lookup_drop. intros [Hi ?]%lookup_take_Some. specialize (Hl _ _ Hi). lia.
  - intros [[Hi ?]%lookup_take_Some ?]%lookup_take_Some. specialize (Hl _ _ Hi). lia.
Qed.

Lemma commits_commit_effects r n :
  commits (commit_effects r n) =
    block_hash <$> filter (λ e, is_noop e = false) (filter (λ e, n < index e ∧ index e ≤ commit_index r) (log r)).
Proof.
  unfold commit_effects. generalize (filter (λ e, is_noop e = false) (filter (λ e, n < index e ∧ index e ≤ commit_index r) (log r))).
  intros l. induction l as [|e l IH]; [done|]. cbn. by f_equal.
Qed.

(** A node whose commit index moves commits what lies between. *)
Lemma committed_extends r r' :
  raft_wf r' → commit_index r ≤ commit_index r' →
  take (N.to_nat (commit_index r)) (log r') = take (N.to_nat (commit_index r)) (log r) →
  committed r' = committed r ++ commits (commit_effects r' (commit_index r)).
Proof.
  intros Hwf Hle Hl. rewrite commits_commit_effects, entries_between by apply Hwf. unfold committed.
  rewrite <-Hl, <-fmap_app, <-filter_app. do 2 f_equal.
  rewrite <-(take_drop (N.to_nat (commit_index r)) (take (N.to_nat (commit_index r')) (log r'))) at 1.
  by rewrite take_take, Nat.min_l by lia.
Qed.

Lemma no_new_commits r : commits (commit_effects r (commit_index r)) = [].
Proof.
  rewrite commits_commit_effects, (filter_drops (λ e, commit_index r < index e ∧ index e ≤ commit_index r)); [done|].
  apply Forall_forall. intros e _ [? ?]. lia.
Qed.
End lists.

(** *** The effects of an event name the blocks it commits *)
Section announced.
Context {BP : BuildProfile} {P : Platform} {HO : HashOrder}.
Context `{!Serde PersistedRaftLogState, !Serde (list SignedTransaction), !Serde BlockFile}.
Implicit Types (r : RaftConsensus) (s : RaftS).

Definition announces {E} s (m : RaftM E (list ConsensusEffect)) : Prop := ∀ effects s',
  m s = Ret effects s' → commits effects = commits (commit_effects (raft s') (commit_index (raft s))).

(** Nothing is committed and nothing is announced. *)
Lemma announces_none s effects s' :
  commits effects = [] → commit_index (raft s') = commit_index (raft s) →
  commits effects = commits (commit_effects (raft s') (commit_index (raft s))).
Proof. intros -> <-. by rewrite no_new_commits. Qed.

Lemma follower_effects_commit_nothing r : commits (append_entries_effects_for_followers r) = [].
Proof.
  apply commits_none, Forall_forall. intros e He. unfold append_entries_effects_for_followers in He.
  apply list_elem_of_omap in He as (q & _ & Hq). unfold append_entries_effect_for in Hq.
  by apply bind_Some in Hq as (t & _ & [= <-]).
Qed.

Lemma advance_announces {E} s : announces (E := E) s advance_commit_index.
Proof.
  intros effects s'. unfold advance_commit_index. rewrite bind_gets. cbv zeta.
  intros ([] & s1 & Hr1 & Hrun)%bind_Ret. rewrite bind_gets in Hrun. by injection Hrun as <- <-.
Qed.

Lemma commit_effects_frame r r' n :
  log r' = log r → commit_index r' = commit_index r → commit_effects r' n = commit_effects r n.
Proof. intros Hl Hc. unfold commit_effects. by rewrite Hl, Hc. Qed.

Lemma append_local_entry_announces s e : announces s (append_local_entry e).
Proof.
  intros effects s'. unfold append_local_entry. rewrite !bind_update, bind_gets. cbv zeta.
  intros (new & s1 & Hr1 & Hrun)%bind_Ret. apply bind_Ret in Hrun as ([] & s2 & Hr2 & [= <- <-]).
  apply persist_log_raft in Hr2 as [store Hr2]. rewrite commits_app, follower_effects_commit_nothing.
  apply advance_announces in Hr1. rewrite (commit_effects_frame (raft s1)) by by rewrite Hr2. exact Hr1.
Qed.

Lemma append_leader_noop_announces s : announces s append_leader_noop.
Proof.
  intros effects s'. unfold append_leader_noop. rewrite bind_gets.
  intros (i & s1 & Hr1 & Hrun)%bind_Ret. unfold add_u64 in Hr1.
  assert (s1 = s) as -> by by destruct (checked_plus _ _ _); [injection Hr1 as _ <-|].
  by apply append_local_entry_announces in Hrun.
Qed.

Lemma on_block_created_announces s h : announces s (on_block_created h).
Proof.
  intros effects s'. unfold on_block_created. rewrite bind_gets.
  destruct (role (raft s)); [intros [= <- <-]; by apply announces_none..|].
  unfold append_local_block. rewrite bind_gets. intros ([] & s1 & Hr1 & Hrun)%bind_Ret.
  apply of_result_Ret in Hr1 as [_ ->]. apply bind_Ret in Hrun as (i & s1 & Hr1 & Hrun). unfold add_u64 in Hr1.
  assert (s1 = s) as -> by by destruct (checked_plus _ _ _); [injection Hr1 as _ <-|].
  by apply append_local_entry_announces in Hrun.
Qed.

Lemma on_tick_announces s now peers : announces s (on_tick now peers).
Proof.
  intros effects s'. unfold on_tick. intros ([] & s1 & Hr1 & Hrun)%bind_Ret.
  pose proof (leads_Ret _ _ _ _ _ (proj1 (update_participants_same s peers)) Hr1) as (_ & Ec & _).
  rewrite bind_gets in Hrun. rewrite <-Ec. case_decide.
  { destruct (heartbeat_due _ _); [rewrite bind_update, bind_gets in Hrun|]; injection Hrun as <- <-;
      (apply announces_none; [|done]); [apply follower_effects_commit_nothing|done]. }
  case_decide; [|injection Hrun as <- <-; by apply announces_none].
  apply bind_Ret in Hrun as (won & s2 & Hr2 & Hrun). rewrite bind_gets in Hrun. cbv zeta in Hrun.
  pose proof (leads_Ret _ _ _ _ _ (start_election_log s1 now) Hr2) as (_ & Ec2 & _).
  rewrite <-Ec2. destruct won; [|injection Hrun as <- <-; by apply announces_none].
  apply bind_Ret in Hrun as (more & s3 & Hr3 & [= <- <-]). by apply append_leader_noop_announces in Hr3.
Qed.

Lemma on_request_vote_response_announces s t v g : announces s (on_request_vote_response t v g).
Proof.
  intros effects s'. unfold on_request_vote_response. rewrite bind_gets. case_decide.
  - intros (won & s1 & Hr1 & Hrun)%bind_Ret.
    pose proof (leads_Ret _ _ _ _ _ (receive_vote_log s t v g) Hr1) as (_ & Ec & _). rewrite <-Ec.
    destruct won; [by apply append_leader_noop_announces in Hrun|]. injection Hrun as <- <-. by apply announces_none.
  - intros ([] & s1 & Hr1 & [= <- <-])%bind_Ret. apply announces_none; [done|]. revert Hr1.
    unfold step_down_on_newer_term. rewrite bind_gets. case_decide; by intros [= <-].
Qed.

Lemma on_append_entries_response_announces s t f ok m : announces s (on_append_entries_response t f ok m).
Proof.
  intros effects s'. unfold on_append_entries_response. rewrite bind_gets. case_decide.
  2:{ intros ([] & s1 & Hr1 & [= <- <-])%bind_Ret. apply announces_none; [done|]. revert Hr1.
      unfold step_down_on_newer_term. rewrite bind_gets. case_decide; by intros [= <-]. }
  unfold handle_leader_append_entries_response. rewrite bind_gets.
  case_decide; [unfold step_down; rewrite bind_update; intros [= <- <-]; by apply announces_none|].
  case_decide; [intros [= <- <-]; by apply announces_none|]. destruct ok.
  - rewrite bind_update. intros (new & s1 & Hr1 & Hrun)%bind_Ret. rewrite bind_gets in Hrun.
    apply bind_Ret in Hrun as ([] & s2 & Hr2 & [= <- <-]). apply advance_announces in Hr1. rewrite Hr1.
    case_decide; [|by injection Hr2 as <-]. apply persist_log_raft in Hr2 as [store Hr2].
    rewrite (commit_effects_frame (raft s1) (raft s2)); [done|by rewrite Hr2..].
  - cbv zeta. rewrite bind_update, bind_gets. case_decide; intros [= <- <-]; (apply announces_none; [|done]); [done|].
    unfold append_entries_effect_for. by destruct (term_at _ _).
Qed.

Lemma append_effects_commits r entries lc :
  commits (append_effects r entries lc) = commits (commit_effects (appended r entries lc) (commit_index r)).
Proof.
  unfold append_effects. rewrite !commits_app, (commits_none (RollbackBlock <$> _)).
  - cbv zeta. by case_decide.
  - apply Forall_fmap, Forall_forall. by intros.
Qed.

Lemma on_append_entries_announces (OC : overflow_checks = true) s draw t l p pt es lc f now :
  raft_wf (raft s) → announces s (on_append_entries draw t l p pt es lc f now).
Proof.
  intros Hwf effects s'. unfold on_append_entries, handle_append_entries. cbn [req_term req_leader_id req_from req_now req_entries
    req_prev_log_index req_prev_log_term req_leader_commit]. intros (accepted & s1 & Hr1 & Hrun)%bind_Ret.
  pose proof (leads_Ret _ _ _ _ _ (receive_append_entries_at_log s draw t l f now) Hr1) as (_ & Ec & _).
  pose proof (evolves_wf _ _ _ _ (receive_append_entries_at_evolves s draw t l f now) Hr1 Hwf) as Hwf1.
  rewrite <-Ec. rewrite bind_gets in Hrun. destruct (negb accepted); [injection Hrun as <- <-; by apply announces_none|].
  destruct (validate_replicated_entries es) as [[log_entries blocks]|]; [|injection Hrun as <- <-; by apply announces_none].
  cbv zeta in Hrun. apply bind_Ret in Hrun as (appended & s2 & Hr2 & Hrun).
  apply (append_entries_cases_checked OC) in Hr2 as [(_ & -> & ->)|(_ & -> & ->)]; [..|done].
  { rewrite bind_gets in Hrun. injection Hrun as <- <-. by apply announces_none. }
  rewrite bind_update, bind_gets in Hrun. apply bind_Ret in Hrun as ([] & s3 & Hr3 & [= <- <-]).
  rewrite commits_app, app_nil_r, append_effects_commits.
  rewrite (commit_effects_frame (RaftInvariant.appended (raft s1) log_entries lc) (raft s3)); [done|..];
    (destruct (_ || _); [apply persist_log_raft in Hr3 as [store ->]; done|by injection Hr3 as <-]).
Qed.

Lemma run_event_announces (OC : overflow_checks = true) s ev : raft_wf (raft s) → announces s (run_event ev).
Proof.
  intros Hwf. destruct ev; cbn [run_event].
  - intros effects s'. unfold on_client_transaction, forward_client_transaction. rewrite bind_gets.
    destruct (role (raft s)).
    1,2: rewrite bind_gets; intros (leader & s1 & Hr1 & [= <- <-])%bind_Ret; unfold ok_or in Hr1;
      (destruct (leader_id _); [|done]); injection Hr1 as _ <-; by apply announces_none.
    intros ([] & s1 & Hr1 & [= <- <-])%bind_Ret. apply of_result_Ret in Hr1 as [_ ->]. by apply announces_none.
  - apply on_block_created_announces.
  - apply on_tick_announces.
  - intros effects s'. unfold on_request_vote. intros (response & s1 & Hr1 & Hrun)%bind_Ret. rewrite bind_gets in Hrun.
    injection Hrun as <- <-. apply announces_none; [done|]. revert Hr1. unfold request_vote, step_down. rewrite bind_gets.
    repeat (case_decide || case_match || rewrite bind_update || rewrite bind_gets || rewrite bind_ret_l); by intros [= _ <-].
  - apply on_request_vote_response_announces.
  - by apply on_append_entries_announces.
  - apply on_append_entries_response_announces.
  - intros effects s' (b & s1 & Hr1 & [= <- <-])%bind_Ret. apply announces_none; [done|]. revert Hr1.
    unfold take_pending_block. rewrite bind_gets, bind_update. by intros [= _ <-].
Qed.

(** What an event commits: if it returns, exactly what its effects name. *)
Lemma run_event_commits (OC : overflow_checks = true) s ev s' :
  raft_wf (raft s) → final_state (run_event ev s) = Some s' →
  raft_wf (raft s') ∧ ∃ new, committed (raft s') = committed (raft s) ++ new ∧
    ∀ effects, run_event ev s = Ret effects s' → commits effects = new.
Proof.
  intros Hwf Hf. destruct (run_event_evolves_checked OC s ev s' Hf Hwf) as [Hwf' Hs]. split; [done|].
  exists (commits (commit_effects (raft s') (commit_index (raft s)))).
  split; [by apply committed_extends; [|apply Hs..]|].
  intros effects He. by apply (run_event_announces OC s ev Hwf).
Qed.
End announced.
End Committed.
