(* ===== verification/Cluster.v ===== *)
(** * A cluster of Raft nodes

    Nodes exchange messages through a set of messages that were ever sent, so
    messages may be delayed, reordered, duplicated and lost.  Membership is
    fixed and known to every node; nodes do not restart.  Under these
    assumptions at most one leader is elected per term ([Election]); the theorems
    about restarts and about nodes without known peers, in RaftTheorems.v, show
    that the code needs both. *)

From S2P Require Import Prelude Platform Crypto Transactions Storage Messages RaftLogStore Raft RaftFacts RaftInvariant RaftTheorems.

Record Cluster `{Platform} : Type := mkCluster {
  nodes : gmap PeerId RaftS;
  sent : list Message;
}.
Arguments mkCluster {_}.

Module Cluster.
Import RaftConsensus.
Section cluster.
Context {BP : BuildProfile} {P : Platform} {HO : HashOrder}.
Context `{!Serde PersistedRaftLogState, !Serde (list SignedTransaction), !Serde BlockFile}.
Context (members : gset PeerId).

(** The event a delivered message is for a node; the clock and the draw are
    arbitrary. *)
Inductive delivers (m : Message) : raft_event → Prop :=
  | del_request t c li lt :
      body m = RaftRequestVote t c li lt → delivers m (EvRequestVote t c li lt (from m))
  | del_response t g :
      body m = RaftRequestVoteResponse t g → delivers m (EvRequestVoteResponse t (from m) g)
  | del_append draw now t l p pt es lc :
      body m = RaftAppendEntries t l p pt es lc →
      delivers m (EvAppendEntries draw t l p pt es lc (from m) now)
  | del_append_response t ok i :
      body m = RaftAppendEntriesResponse t ok i →
      delivers m (EvAppendEntriesResponse t (from m) ok i).

(** What may happen at node [i]: a delivery, a tick with the fixed
    membership, or a call of the peer's own. *)
Inductive enabled (c : Cluster) (i : PeerId) : raft_event → Prop :=
  | en_deliver m ev : m ∈ sent c → to m = i → delivers m ev → enabled c i ev
  | en_tick now peers : {[ i ]} ∪ list_to_set peers = members → enabled c i (EvTick now peers)
  | en_transaction tx : enabled c i (EvClientTransaction tx)
  | en_block h : enabled c i (EvBlockCreated h)
  | en_pending h : enabled c i (EvTakePending h).

(** The messages a peer sends for the effects of node [i]: a broadcast goes
    to every other member, the payloads of AppendEntries are the peer's. *)
Inductive sends (i : PeerId) : ConsensusEffect → Message → Prop :=
  | snd_send dst b : sends i (Send dst b) (mkMessage i dst b)
  | snd_broadcast dst b : dst ∈ members → dst ≠ i → sends i (Broadcast b) (mkMessage i dst b)
  | snd_append dst t p pt es lc rbs :
      rb_entry <$> rbs = es →
      sends i (SendRaftAppendEntries dst t p pt es lc)
        (mkMessage i dst (RaftAppendEntries t i p pt rbs lc)).

Definition sent_for (i : PeerId) (effects : list ConsensusEffect) (ms : list Message) : Prop :=
  Forall (λ m, ∃ e, e ∈ effects ∧ sends i e m) ms.

Inductive cluster_step (c : Cluster) : Cluster → Prop :=
  | step_ok i s ev effects s' ms :
      nodes c !! i = Some s → enabled c i ev → event_fits (raft s) ev →
      run_event ev s = Ret effects s' → sent_for i effects ms →
      cluster_step c (mkCluster (<[i := s']> (nodes c)) (ms ++ sent c))
  | step_err i s ev err s' :
      nodes c !! i = Some s → enabled c i ev → event_fits (raft s) ev →
      run_event ev s = Err err s' →
      cluster_step c (mkCluster (<[i := s']> (nodes c)) (sent c)).

(** Every member as [RaftConsensus::new_with_log] builds it, no message sent. *)
Definition initial (c : Cluster) : Prop :=
  sent c = [] ∧ dom (nodes c) = members ∧
  ∀ i s, nodes c !! i = Some s → ∃ draw now entries ci store,
    contiguous entries ∧ raft s = new_with_log draw now i entries ci store.

Definition reachable (c : Cluster) : Prop := ∃ c0, initial c0 ∧ rtc cluster_step c0 c.
End cluster.
End Cluster.

(** ** Election safety *)

Module Election.
Import RaftConsensus Cluster.
Section node.
Context {BP : BuildProfile} {P : Platform} {HO : HashOrder}.
Context `{!Serde PersistedRaftLogState, !Serde (list SignedTransaction), !Serde BlockFile}.
Context (members : gset PeerId) (i : PeerId) (Hi : i ∈ members).
(* [cast v t c]: [v] has voted for [c] in term [t] *)
Context (cast : PeerId → N → PeerId → Prop).
Implicit Types (s : RaftS).

(** A candidate or leader counts votes that were cast for it in its term, and
    a leader has a majority of the members. *)
Definition node_inv s : Prop :=
  let r := raft s in
  peer_id r = i ∧
  (role r ≠ Follower → participants r = members ∧ votes_received r ⊆ members ∧
     ∀ v, v ∈ votes_received r → v = i ∨ cast v (current_term r) i) ∧
  (role r = Leader → (majority r ≤ size (votes_received r))%nat).

Definition keeps_inv s s' : Prop := node_inv s → node_inv s'.
#[local] Instance keeps_inv_preorder : PreOrder keeps_inv.
Proof. split; [by intros s Hs|]. unfold keeps_inv. intros s1 s2 s3. auto. Qed.

Lemma leads_inv {E A} s (m : RaftM E A) : (node_inv s → leads keeps_inv s m) → leads keeps_inv s m.
Proof. intros H s' Hf Hinv. exact (H Hinv s' Hf Hinv). Qed.

(** Updates that do not touch what the invariant reads. *)
Lemma keeps_frame s s' :
  peer_id (raft s') = peer_id (raft s) → role (raft s') = role (raft s) →
  participants (raft s') = participants (raft s) → votes_received (raft s') = votes_received (raft s) →
  current_term (raft s') = current_term (raft s) → keeps_inv s s'.
Proof.
  intros Hp Hr Hpa Hv Ht. unfold keeps_inv, node_inv, majority. by rewrite Hp, Hr, Hpa, Hv, Ht.
Qed.

(** Becoming a follower needs no votes. *)
Lemma keeps_follower s s' :
  peer_id (raft s') = peer_id (raft s) → role (raft s') = Follower → keeps_inv s s'.
Proof. intros Hp Hr (Hid & _). unfold node_inv. rewrite Hp, Hr. split_and!; done. Qed.

Lemma step_down_keeps {E} s t : leads (E := E) keeps_inv s (step_down t).
Proof. apply leads_update; [apply _|]. by apply keeps_follower. Qed.

Lemma become_leader_keeps {E} s : role (raft s) = Candidate → leads (E := E) keeps_inv s become_leader_if_majority.
Proof.
  intros Hc. unfold become_leader_if_majority. lead. apply leads_update; [apply _|].
  intros (Hid & Hv & _). split_and!; cbn; [done| |done].
  intros _. apply Hv. by rewrite Hc.
Qed.

Lemma update_participants_keeps {E} s l :
  {[ i ]} ∪ list_to_set l = members → leads (E := E) keeps_inv s (update_participants l).
Proof.
  intros Hm. apply leads_inv. intros Hinv. pose proof Hinv as (Hid & Hv & Hl).
  unfold update_participants. apply leads_gets. rewrite Hid, Hm. cbv zeta.
  intros s' [= <-] _. split_and!; cbn; [done| |].
  - intros Hr. destruct (Hv Hr) as (Hp & Hsub & Hcast). split_and!; [done|set_solver|].
    intros v [_ Hin]%elem_of_filter. auto.
  - intros Hr. destruct (Hv ltac:(by rewrite Hr)) as (Hp & Hsub & _).
    assert (Hf : filter (λ p, p ∈ members) (votes_received (raft s)) = votes_received (raft s)).
    { apply set_eq. intros v. rewrite elem_of_filter. set_solver. }
    rewrite Hf. specialize (Hl Hr). unfold majority in *. cbn. by rewrite Hp in Hl.
Qed.

Lemma start_election_keeps {E} s now :
  participants (raft s) = members → leads (E := E) keeps_inv s (start_election_at now).
Proof.
  intros Hp. unfold start_election_at. lead.
  - apply leads_update; [apply _|].
    match goal with H : add_u64 _ _ _ = _ |- _ => unfold add_u64 in H;
      destruct (checked_plus _ _ _); [injection H as <- <-|done] end.
    intros (Hid & _). split_and!; cbn; [done| |done]. intros _.
    split_and!; [done|set_solver|]. intros v Hv. left. set_solver.
  - apply become_leader_keeps. match goal with H : update _ _ = _ |- _ => by injection H as <- <- end.
Qed.

Lemma request_vote_keeps {E} s t c li lt : leads (E := E) keeps_inv s (request_vote t c li lt).
Proof.
  unfold request_vote. lead; try apply step_down_keeps; (apply leads_update; [apply _|]); by apply keeps_frame.
Qed.

Lemma receive_vote_keeps {E} s t v g :
  (g = true → cast v t i) → leads (E := E) keeps_inv s (receive_vote t v g).
Proof.
  intros Hcast. apply leads_inv. intros (Hid & Hvotes & Hl). unfold receive_vote. lead; try apply step_down_keeps.
  - assert (role (raft s) = Candidate) as Hc by (destruct (decide (role (raft s) = Candidate)); tauto).
    assert (t = current_term (raft s)) as -> by (destruct (decide (t = current_term (raft s))); tauto).
    assert (g = true) as -> by (destruct g; tauto).
    apply leads_update; [apply _|]. intros _. split_and!; cbn; [done| |congruence].
    intros Hr. destruct (Hvotes Hr) as (Hp & Hsub & Hall). split_and!; [done|set_solver|].
    intros v' [->%elem_of_singleton|Hin]%elem_of_union; [right; auto|auto].
  - apply become_leader_keeps. match goal with H : update _ _ = _ |- _ => injection H as <- <- end.
    cbn. destruct (decide (role (raft s) = Candidate)); tauto.
Qed.

Lemma receive_append_keeps {E} s draw t l f now :
  leads (E := E) keeps_inv s (receive_append_entries_at draw t l f now).
Proof.
  unfold receive_append_entries_at, reset_election_timeout. lead; try apply step_down_keeps.
  - apply leads_update; [apply _|]. by apply keeps_follower.
  - apply leads_update; [apply _|]. by apply keeps_frame.
Qed.

Lemma persist_log_keeps s : leads keeps_inv s persist_log.
Proof.
  intros s'. unfold persist_log. destruct (RaftLogStore.save _ _ _ _); intros [= <-]; by apply keeps_frame.
Qed.

Lemma advance_keeps {E} s : leads (E := E) keeps_inv s advance_commit_index.
Proof. unfold advance_commit_index. lead. apply leads_update; [apply _|]. by apply keeps_frame. Qed.

Lemma append_local_entry_keeps s e : leads keeps_inv s (append_local_entry e).
Proof.
  unfold append_local_entry. lead; try apply advance_keeps; try apply persist_log_keeps;
    (apply leads_update; [apply _|]); by apply keeps_frame.
Qed.

Lemma append_leader_noop_keeps s : leads keeps_inv s append_leader_noop.
Proof. unfold append_leader_noop. lead. apply append_local_entry_keeps. Qed.

Lemma append_entries_keeps {E} s p pt es lc : leads (E := E) keeps_inv s (append_entries p pt es lc).
Proof.
  unfold append_entries, entries_are_contiguous_after. 
  assert (Hc : ∀ es off s, leads (E := E) keeps_inv s (entries_are_contiguous_from p off es)).
  { induction es0 as [|e es0 IH]; intros off s0; cbn [entries_are_contiguous_from]; lead. apply IH. }
  assert (Ha : ∀ es ds s, leads (E := E) keeps_inv s (append_loop es ds)).
  { induction es0 as [|e es0 IH]; intros ds s0; cbn [append_loop]; lead; try apply IH;
      (apply leads_update; [apply _|]); by apply keeps_frame. }
  lead; try apply Hc; try apply Ha. apply leads_update; [apply _|]. by apply keeps_frame.
Qed.

Lemma handle_append_keeps s draw req : leads keeps_inv s (handle_append_entries draw req).
Proof.
  unfold handle_append_entries. lead; try apply receive_append_keeps; try apply append_entries_keeps;
    try apply persist_log_keeps. apply leads_update; [apply _|]. by apply keeps_frame.
Qed.

Lemma leader_response_keeps s t f ok m : leads keeps_inv s (handle_leader_append_entries_response t f ok m).
Proof.
  unfold handle_leader_append_entries_response.
  lead; try apply step_down_keeps; try apply advance_keeps; try apply persist_log_keeps;
    (apply leads_update; [apply _|]); by apply keeps_frame.
Qed.

(** Every event of the node keeps the invariant, if a granted vote it is told
    of was cast and ticks see the members. *)
Lemma run_event_keeps s ev :
  (∀ now peers, ev = EvTick now peers → {[ i ]} ∪ list_to_set peers = members) →
  (∀ t v, ev = EvRequestVoteResponse t v true → cast v t i) →
  leads keeps_inv s (run_event ev).
Proof.
  intros Htick Hvote. destruct ev; cbn [run_event].
  - unfold on_client_transaction, forward_client_transaction. lead.
  - unfold on_block_created, append_local_block. lead. apply append_local_entry_keeps.
  - unfold on_tick. apply leads_bind; [apply _|by eapply update_participants_keeps, Htick|].
    intros [] s1 H1. lead; try apply append_leader_noop_keeps.
    + apply leads_update; [apply _|]. by apply keeps_frame.
    + apply leads_inv. intros (Hid & _). apply start_election_keeps.
      unfold update_participants in H1. rewrite bind_gets in H1. cbv zeta in H1. injection H1 as <-.
      cbn in Hid |- *. rewrite Hid. by eapply Htick.
  - unfold on_request_vote. lead. apply request_vote_keeps.
  - unfold on_request_vote_response, step_down_on_newer_term. lead; try apply append_leader_noop_keeps;
      try apply step_down_keeps. apply receive_vote_keeps. intros ->. by eapply Hvote.
  - apply handle_append_keeps.
  - unfold on_append_entries_response, step_down_on_newer_term. lead; try apply leader_response_keeps.
    apply step_down_keeps.
  - unfold take_pending_block. lead. apply leads_update; [apply _|]. by apply keeps_frame.
Qed.
End node.

(** *** The votes and answers in the effects *)

Section votes.
Context {BP : BuildProfile} {P : Platform} {HO : HashOrder}.
Context `{!Serde PersistedRaftLogState, !Serde (list SignedTransaction), !Serde BlockFile}.

Definition quiet_body (b : MessageBody) : bool :=
  match b with
  | RaftRequestVote _ _ _ _ | RaftRequestVoteResponse _ _ | RaftAppendEntriesResponse _ _ _ => false
  | _ => true
  end.

(** Effects that carry no vote, no request for one and no answer to
    AppendEntries. *)
Definition quiet (e : ConsensusEffect) : Prop :=
  match e with
  | Send _ b | Broadcast b => quiet_body b = true
  | _ => True
  end.

Lemma commit_effects_quiet r n : Forall quiet (commit_effects r n).
Proof. by apply Forall_fmap, Forall_forall. Qed.

Lemma append_effects_quiet r : Forall quiet (append_entries_effects_for_followers r).
Proof.
  apply Forall_forall. intros e (q & _ & Hq)%list_elem_of_omap.
  unfold append_entries_effect_for in Hq. by apply bind_Some in Hq as (t & _ & [= <-]).
Qed.

Lemma advance_quiet {E} s effects s' :
  advance_commit_index (E := E) s = Ret effects s' → Forall quiet effects.
Proof.
  unfold advance_commit_index. rewrite bind_gets. cbv zeta. intros (? & s1 & _ & H)%bind_Ret.
  rewrite bind_gets in H. injection H as <- _. apply commit_effects_quiet.
Qed.

Lemma append_local_entry_quiet e s effects s' : append_local_entry e s = Ret effects s' → Forall quiet effects.
Proof.
  unfold append_local_entry. rewrite !bind_update, bind_gets. cbv zeta.
  intros (c & s1 & Hc & H)%bind_Ret. apply bind_Ret in H as (? & s2 & _ & [= <- _]).
  apply Forall_app. split; [apply append_effects_quiet|by eapply advance_quiet].
Qed.

Lemma append_leader_noop_quiet s effects s' : append_leader_noop s = Ret effects s' → Forall quiet effects.
Proof.
  unfold append_leader_noop. rewrite bind_gets. intros (? & ? & _ & H)%bind_Ret.
  by eapply append_local_entry_quiet.
Qed.

Lemma append_entries_quiet {E} p pt es lc s effects s' :
  append_entries (E := E) p pt es lc s = Ret (Some effects) s' → Forall quiet effects.
Proof.
  unfold append_entries. rewrite bind_gets. destruct (decide _); [done|].
  intros (b & s1 & _ & H)%bind_Ret. destruct (negb b); [done|].
  apply bind_Ret in H as (ds & s2 & _ & H). destruct ds as [ds|]; [|done].
  rewrite bind_update, bind_gets in H. injection H as <- _.
  repeat apply Forall_app_2; [by apply Forall_fmap, Forall_forall| |apply commit_effects_quiet].
  case_decide; repeat constructor.
Qed.

Definition answers (f : PeerId) (e : ConsensusEffect) : Prop :=
  ∃ t ok m, e = Send f (RaftAppendEntriesResponse t ok m).

Lemma append_response_answers r f ok m : Forall (λ e, quiet e ∨ answers f e) [append_entries_response r f ok m].
Proof. apply Forall_singleton. right. unfold answers, append_entries_response. eauto. Qed.

Lemma handle_append_quiet draw req s effects s' :
  handle_append_entries draw req s = Ret effects s' → Forall (λ e, quiet e ∨ answers (req_from req) e) effects.
Proof.
  unfold handle_append_entries. intros (acc & s1 & _ & H)%bind_Ret. rewrite bind_gets in H.
  destruct (negb acc); [injection H as <- _; apply append_response_answers|].
  destruct (validate_replicated_entries _) as [[es bs]|]; [|injection H as <- _; apply append_response_answers].
  cbv zeta in H. apply bind_Ret in H as (o & s2 & Ho & H). destruct o as [effs|].
  - rewrite bind_update, bind_gets in H. apply bind_Ret in H as (? & s3 & _ & [= <- _]).
    apply Forall_app_2; [|apply append_response_answers].
    eapply Forall_impl; [by eapply append_entries_quiet|by left].
  - rewrite bind_gets in H. injection H as <- _. apply append_response_answers.
Qed.

Lemma leader_response_quiet t f ok m s effects s' :
  handle_leader_append_entries_response t f ok m s = Ret effects s' → Forall quiet effects.
Proof.
  unfold handle_leader_append_entries_response. rewrite bind_gets.
  destruct (decide _); [by intros (? & ? & _ & [= <- _])%bind_Ret|].
  destruct (decide _); [by intros [= <- _]|]. destruct ok.
  - rewrite bind_update. intros (effs & s1 & H1 & H)%bind_Ret. rewrite bind_gets in H.
    apply bind_Ret in H as (? & ? & _ & [= <- _]). by eapply advance_quiet.
  - cbv zeta. rewrite bind_update, bind_gets. destruct (decide _); [by intros [= <- _]|].
    intros [= <- _]. unfold append_entries_effect_for.
    destruct (term_at _ _); cbn; repeat constructor.
Qed.

(** A granted vote is the answer to a request, an answer to AppendEntries that
    to such a message; a request for votes is of this node, at a tick. *)
Lemma vote_effects ev s effects s' e :
  run_event ev s = Ret effects s' → e ∈ effects →
  quiet e ∨
  (∃ t0 c li lt f t g, ev = EvRequestVote t0 c li lt f ∧
     e = Send f (RaftRequestVoteResponse t g) ∧ effects = [e]) ∨
  (∃ now peers t li lt, ev = EvTick now peers ∧ e = Broadcast (RaftRequestVote t (peer_id (raft s)) li lt)) ∨
  (∃ draw t l p pt es lc f now, ev = EvAppendEntries draw t l p pt es lc f now ∧ answers f e).
Proof.
  intros Hrun Hin. assert (Hq : Forall quiet effects → quiet e) by (rewrite Forall_forall; auto).
  destruct ev; cbn [run_event] in Hrun.
  - left. apply Hq. revert Hrun. unfold on_client_transaction, forward_client_transaction.
    rewrite bind_gets. destruct (role (raft s)).
    + rewrite bind_gets. intros (? & ? & _ & [= <- _])%bind_Ret. by repeat constructor.
    + rewrite bind_gets. intros (? & ? & _ & [= <- _])%bind_Ret. by repeat constructor.
    + intros (? & ? & _ & [= <- _])%bind_Ret. by repeat constructor.
  - left. apply Hq. revert Hrun. unfold on_block_created, append_local_block. rewrite bind_gets.
    destruct (role (raft s)); [by intros [= <- _]..|]. rewrite bind_gets.
    intros (? & ? & _ & H)%bind_Ret. apply bind_Ret in H as (? & ? & _ & H).
    by eapply append_local_entry_quiet.
  - unfold on_tick in Hrun. apply bind_Ret in Hrun as ([] & s1 & H1 & Hrun).
    assert (Hid : peer_id (raft s1) = peer_id (raft s)).
    { unfold update_participants in H1. rewrite bind_gets in H1. cbv zeta in H1. by injection H1 as <-. }
    rewrite bind_gets in Hrun. destruct (decide _).
    { destruct (heartbeat_due _ _); [rewrite bind_update, bind_gets in Hrun|]; injection Hrun as <- _;
        left; apply Hq; [apply append_effects_quiet|constructor]. }
    destruct (decide _); [|injection Hrun as <- _; by apply not_elem_of_nil in Hin].
    apply bind_Ret in Hrun as (won & s2 & H2 & Hrun).
    pose proof (leads_Ret _ _ _ _ _ (start_election_log s1 now) H2) as (_ & _ & Hid2).
    rewrite bind_gets in Hrun. cbv zeta in Hrun.
    assert (Hcase : ∃ more, effects = Broadcast (RaftRequestVote (current_term (raft s2)) (peer_id (raft s2))
      (last_log_index (raft s2)) (last_log_term (raft s2))) :: more ∧ Forall quiet more).
    { destruct won; [|injection Hrun as <- _; by eexists].
      apply bind_Ret in Hrun as (more & s3 & H3 & [= <- _]). eexists. split; [done|].
      by eapply append_leader_noop_quiet. }
    destruct Hcase as (more & -> & Hmore). apply elem_of_cons in Hin as [->|Hin].
    + right; right; left. rewrite Hid2, Hid. eauto 10.
    + left. rewrite Forall_forall in Hmore. auto.
  - right; left. unfold on_request_vote in Hrun. apply bind_Ret in Hrun as (a & s1 & _ & Hrun).
    rewrite bind_gets in Hrun. injection Hrun as <- _. apply list_elem_of_singleton in Hin as ->. eauto 15.
  - left. apply Hq. revert Hrun. unfold on_request_vote_response. rewrite bind_gets.
    destruct (decide _); [|by intros (? & ? & _ & [= <- _])%bind_Ret].
    intros (won & s1 & _ & H)%bind_Ret. destruct won; [by eapply append_leader_noop_quiet|by injection H as <- _].
  - apply handle_append_quiet in Hrun. rewrite Forall_forall in Hrun.
    destruct (Hrun e Hin) as [?|?]; [by left|]. do 3 right. eauto 12.
  - left. apply Hq. revert Hrun. unfold on_append_entries_response. rewrite bind_gets.
    destruct (decide _); [by apply leader_response_quiet|by intros (? & ? & _ & [= <- _])%bind_Ret].
  - apply bind_Ret in Hrun as (? & ? & _ & [= <- _]). by apply not_elem_of_nil in Hin.
Qed.
End votes.

(** *** The invariant of a cluster *)

Section safety.
Context {BP : BuildProfile} {P : Platform} {HO : HashOrder}.
Context `{!Serde PersistedRaftLogState, !Serde (list SignedTransaction), !Serde BlockFile}.
Context (members : gset PeerId).
Implicit Types (c : Cluster) (cast : PeerId → N → PeerId → Prop).

Lemma majorities_meet (Q1 Q2 : gset PeerId) :
  Q1 ⊆ members → Q2 ⊆ members →
  (size members / 2 + 1 ≤ size Q1)%nat → (size members / 2 + 1 ≤ size Q2)%nat →
  ∃ v, v ∈ Q1 ∧ v ∈ Q2.
Proof.
  intros H1 H2 M1 M2. pose proof (subsets_overlap Q1 Q2 members H1 H2) as Hs.
  pose proof (Nat.div_mod_eq (size members) 2). pose proof (Nat.mod_upper_bound (size members) 2).
  destruct (decide (Q1 ∩ Q2 = ∅)) as [He|Hne%set_choose_L].
  - rewrite He, size_empty in Hs. lia.
  - destruct Hne as [v Hv]. exists v. set_solver.
Qed.

(** Node [i]'s own votes are the ones it remembers. *)
Record own_votes cast (i : PeerId) (r : RaftConsensus) : Prop := {
  ov_cast v : voted_for r = Some v → cast i (current_term r) v;
  ov_past t v : cast i t v → t ≤ current_term r ∧ (t = current_term r → voted_for r = Some v);
}.

Definition message_inv cast (m : Message) : Prop :=
  match body m with
  | RaftRequestVote _ v _ _ => from m = v
  | RaftRequestVoteResponse t true => cast (from m) t (to m)
  | _ => True
  end.

Record cluster_inv c cast : Prop := {
  ci_members : dom (nodes c) = members;
  ci_unique v t x y : cast v t x → cast v t y → x = y;
  ci_wf i s : nodes c !! i = Some s → raft_wf (raft s);
  ci_node i s : nodes c !! i = Some s → node_inv members i cast s;
  ci_own i s : nodes c !! i = Some s → own_votes cast i (raft s);
  ci_sent m : m ∈ sent c → message_inv cast m;
}.

(** The votes after node [i] reached [r]. *)
Definition recast cast (i : PeerId) (r : RaftConsensus) : PeerId → N → PeerId → Prop :=
  λ v t x, cast v t x ∨ (v = i ∧ t = current_term r ∧ voted_for r = Some x).

Lemma node_inv_mono i (cast cast' : PeerId → N → PeerId → Prop) s :
  (∀ v t x, cast v t x → cast' v t x) → node_inv members i cast s → node_inv members i cast' s.
Proof. intros Hm (Hid & Hv & Hl). split_and!; [done| |done]. intros Hr. naive_solver. Qed.

Lemma initial_inv c : initial members c → cluster_inv c (λ _ _ _, False).
Proof.
  intros (Hs & Hd & Hn). split; [done|done|..].
  - intros i s (draw & now & es & ci & st & Hc & ->)%Hn.
    assert (Hlast : match last es with Some e => index e | None => 0 end = N.of_nat (length es)).
    { pose proof (last_log_index_length (new_with_log draw now i es ci st) Hc) as Hl. done. }
    split; cbn; try done; try set_solver. rewrite Hlast. lia.
  - intros i s (draw & now & es & ci & st & Hc & Hr)%Hn. unfold node_inv. rewrite Hr.
    split_and!; done.
  - intros i s (draw & now & es & ci & st & Hc & ->)%Hn. split; [done|by intros ???].
  - rewrite Hs. intros m Hm. by apply not_elem_of_nil in Hm.
Qed.

(** A node's event, seen from the cluster. *)
Lemma node_step c cast i s ev s' :
  cluster_inv c cast → nodes c !! i = Some s → enabled members c i ev → event_fits (raft s) ev →
  final_state (run_event ev s) = Some s' →
  raft_wf (raft s') ∧ step_facts (raft s) (raft s') ∧ node_inv members i cast s'.
Proof.
  intros Hinv Hi Hen Hfit Hrun. pose proof (ci_wf _ _ Hinv _ _ Hi) as Hwf.
  destruct (run_event_evolves s ev Hfit s' Hrun Hwf) as [Hwf' Hf]. split_and!; [done|done|].
  assert (Hm : i ∈ members) by (rewrite <-(ci_members _ _ Hinv); by apply elem_of_dom_2 in Hi).
  apply (run_event_keeps members i Hm cast s ev) with (s' := s');
    [| |done|by apply (ci_node _ _ Hinv)].
  - intros now peers ->. inversion Hen as [m ev' Hin Hto Hdel|? ? Hp|?|?|?]; subst; [inversion Hdel|done].
  - intros t v ->. inversion Hen as [m ev' Hin Hto Hdel|?|?|?|?]; subst.
    inversion Hdel as [?|t' g Hb|?|?]; subst.
    pose proof (ci_sent _ _ Hinv m Hin) as Hmsg. unfold message_inv in Hmsg. by rewrite Hb in Hmsg.
Qed.

Lemma inv_after c cast i s s' ms :
  cluster_inv c cast → nodes c !! i = Some s →
  raft_wf (raft s') → step_facts (raft s) (raft s') → node_inv members i cast s' →
  (∀ m, m ∈ ms → message_inv (recast cast i (raft s')) m) →
  cluster_inv (mkCluster (<[i := s']> (nodes c)) (ms ++ sent c)) (recast cast i (raft s')).
Proof.
  intros Hinv Hi Hwf' Hf Hnode Hms. pose proof (ci_own _ _ Hinv _ _ Hi) as Hown.
  assert (Hmono : ∀ v t x, cast v t x → recast cast i (raft s') v t x) by (by left).
  assert (Hpast : ∀ t x, cast i t x → t ≤ current_term (raft s') ∧
    (t = current_term (raft s') → voted_for (raft s') = Some x)).
  { intros t x Hc. destruct (ov_past _ _ _ Hown t x Hc) as [Hle Heq].
    pose proof (sf_term _ _ Hf). split; [lia|]. intros ->.
    apply (sf_vote _ _ Hf); [lia|]. apply Heq. lia. }
  split; cbn.
  - rewrite dom_insert_L, <-(ci_members _ _ Hinv). apply elem_of_dom_2 in Hi. set_solver.
  - intros v t x y [Hx|(-> & -> & Hx)] [Hy|(Hv & Ht & Hy)].
    + by eapply (ci_unique _ _ Hinv).
    + subst. destruct (Hpast _ _ Hx) as [_ Hvote]. specialize (Hvote eq_refl). congruence.
    + destruct (Hpast _ _ Hy) as [_ Hvote]. specialize (Hvote eq_refl). congruence.
    + congruence.
  - intros j s''. rewrite lookup_insert. case_decide; [by intros [= <-]|apply (ci_wf _ _ Hinv)].
  - intros j s''. rewrite lookup_insert. case_decide as Hij; [subst j; intros [= <-]|intros Hj].
    + by eapply node_inv_mono.
    + eapply node_inv_mono; [done|]. by apply (ci_node _ _ Hinv).
  - intros j s''. rewrite lookup_insert. case_decide as Hij; [subst j; intros [= <-]|intros Hj].
    + split; [by right|]. intros t x [Hc|(_ & -> & Hx)]; [by apply Hpast|done].
    + pose proof (ci_own _ _ Hinv _ _ Hj) as [Hc Hp]. split; [left; auto|].
      intros t x [Hx|(-> & _)]; [by apply Hp|done].
  - intros m [Hm|Hm]%elem_of_app; [by apply Hms|].
    pose proof (ci_sent _ _ Hinv m Hm) as Hmsg. unfold message_inv in *.
    destruct (body m) as [| | | | | |? []| |]; auto.
Qed.

Lemma sent_inv c cast i s ev effects s' ms :
  cluster_inv c cast → nodes c !! i = Some s → enabled members c i ev →
  run_event ev s = Ret effects s' → sent_for members i effects ms →
  ∀ m, m ∈ ms → message_inv (recast cast i (raft s')) m.
Proof.
  intros Hinv Hi Hen Hrun Hsent m Hm. unfold sent_for in Hsent. rewrite Forall_forall in Hsent.
  destruct (Hsent m Hm) as (e & He & Hs).
  destruct (ci_node _ _ Hinv _ _ Hi) as [Hid _].
  destruct (vote_effects ev s effects s' e Hrun He) as [Hq|[(t0 & x & li & lt & f & t & g & -> & -> & ->)|[(? & ? & t & li & lt & _ & ->)|
      (? & ? & ? & ? & ? & ? & ? & f & ? & _ & (? & ? & ? & ->))]]].
  - inversion Hs; subst; cbn in *; unfold message_inv; cbn; try done; by destruct b.
  - inversion Hs as [dst b| |]; subst. unfold message_inv. cbn. destruct g; [|done].
    cbn in Hrun. apply RaftTheorems.on_request_vote_granted in Hrun as (_ & -> & Hv & Ht & _).
    inversion Hen as [m' ev' Hin Hto Hdel|?|?|?|?]; subst. inversion Hdel as [t' c' li' lt' Hb| | |]; subst.
    pose proof (ci_sent _ _ Hinv m' Hin) as Hmsg. unfold message_inv in Hmsg. rewrite Hb in Hmsg.
    right. rewrite Hmsg. split_and!; done.
  - inversion Hs; subst. unfold message_inv. cbn. done.
  - inversion Hs; subst. done.
Qed.

Lemma step_inv c c' cast :
  cluster_inv c cast → cluster_step members c c' → ∃ cast', cluster_inv c' cast'.
Proof.
  intros Hinv [i s ev effects s' ms Hi Hen Hfit Hrun Hsent|i s ev err s' Hi Hen Hfit Hrun].
  - destruct (node_step c cast i s ev s' Hinv Hi Hen Hfit) as (Hwf & Hf & Hn); [by rewrite Hrun|].
    exists (recast cast i (raft s')). eapply inv_after; eauto. by eapply sent_inv.
  - destruct (node_step c cast i s ev s' Hinv Hi Hen Hfit) as (Hwf & Hf & Hn); [by rewrite Hrun|].
    exists (recast cast i (raft s')).
    apply (inv_after c cast i s s' []); auto. intros m Hm. by apply not_elem_of_nil in Hm.
Qed.

Lemma reachable_inv c : reachable members c → ∃ cast, cluster_inv c cast.
Proof.
  intros (c0 & H0 & Hsteps). apply initial_inv in H0.
  assert (H : ∃ cast, cluster_inv c0 cast) by eauto. clear H0.
  induction Hsteps as [|c1 c2 c3 Hstep _ IH]; [done|]. apply IH.
  destruct H as [cast H]. by eapply step_inv.
Qed.

(** The votes of a leader were cast for it in its term. *)
Lemma leader_votes c cast i s :
  cluster_inv c cast → nodes c !! i = Some s → role (raft s) = Leader →
  votes_received (raft s) ⊆ members ∧ (size members / 2 + 1 ≤ size (votes_received (raft s)))%nat ∧
  ∀ v, v ∈ votes_received (raft s) → cast v (current_term (raft s)) i.
Proof.
  intros Hinv Hi Hr. destruct (ci_node _ _ Hinv _ _ Hi) as (Hid & Hv & Hl).
  destruct Hv as (Hp & Hsub & Hcast); [by rewrite Hr|]. specialize (Hl Hr). unfold majority in Hl.
  rewrite Hp in Hl. split_and!; [done|done|]. intros v Hin. destruct (Hcast v Hin) as [->|?]; [|done].
  apply (ov_cast _ _ _ (ci_own _ _ Hinv _ _ Hi)).
  pose proof (wf_role _ (ci_wf _ _ Hinv _ _ Hi)) as Hw. rewrite Hr, Hid in Hw. apply Hw.
Qed.
End safety.

Section theorem.
Context {BP : BuildProfile} {P : Platform} {HO : HashOrder}.
Context `{!Serde PersistedRaftLogState, !Serde (list SignedTransaction), !Serde BlockFile}.

(** C1. Election safety: in every reachable state of a cluster with a fixed
    membership and no restarts, whatever messages are delayed, reordered,
    duplicated or lost and whatever calls fail, two leaders of the same term
    are the same node. *)
Theorem election_safety (members : gset PeerId) c i j si sj :
  reachable members c →
  nodes c !! i = Some si → nodes c !! j = Some sj →
  role (raft si) = Leader → role (raft sj) = Leader →
  current_term (raft si) = current_term (raft sj) → i = j.
Proof.
  intros Hreach Hi Hj Hri Hrj Ht. destruct (reachable_inv members c Hreach) as [cast Hinv].
  destruct (leader_votes members c cast i si Hinv Hi Hri) as (Si & Mi & Ci).
  destruct (leader_votes members c cast j sj Hinv Hj Hrj) as (Sj & Mj & Cj).
  destruct (majorities_meet _ _ _ Si Sj Mi Mj) as (v & Hvi & Hvj).
  eapply (ci_unique _ _ _ Hinv); [exact (Ci v Hvi)|]. rewrite Ht. exact (Cj v Hvj).
Qed.
End theorem.
End Election.
