(* ===== verification/LogMatching.v ===== *)
(** * Log matching in a cluster

    In a cluster whose logs were empty at the start, two logs that hold an
    entry of the same term at the same index agree on everything up to it.

    The proof follows a history of each term: [hist t] is the log of the leader
    of term [t], as long as it has become.  A log is [traced] when each of its
    prefixes is a prefix of the history of the term of its last entry, and an
    AppendEntries message of term [t] carries a part of [hist t]; then merging a
    message into a log gives the old log or a prefix of that history. *)

From S2P Require Import Prelude Platform Crypto Transactions Storage Messages RaftLogStore Raft RaftFacts RaftInvariant RaftTheorems LogSteps Cluster.

Module LogMatching.
Import RaftConsensus LogSteps Cluster Election.

(** ** Histories *)
Section histories.
Implicit Types (l g : list RaftLogEntry) (hist : N → list RaftLogEntry).

Definition term_in l (i : N) : option N := if decide (i = 0) then Some 0 else term <$> lookup_index l i.

Definition traced hist l : Prop := ∀ k e, l !! k = Some e → take (S k) l = take (S k) (hist (term e)).

(** Histories only grow. *)
Definition extends hist hist' : Prop := ∀ t, hist t `prefix_of` hist' t.

Lemma take_prefix l g n : l `prefix_of` g → (n ≤ length l)%nat → take n g = take n l.
Proof. intros [k ->] Hn. by rewrite take_app_le. Qed.

Lemma traced_extends hist hist' l : extends hist hist' → traced hist l → traced hist' l.
Proof.
  intros Hx Hl k e Hk. rewrite (Hl k e Hk). symmetry. apply take_prefix; [done|].
  pose proof (f_equal length (Hl k e Hk)) as Hlen. rewrite !length_take in Hlen.
  apply lookup_lt_Some in Hk. lia.
Qed.

Lemma traced_take hist l n : traced hist l → traced hist (take n l).
Proof.
  intros Hl k e [Hk Hn]%lookup_take_Some. rewrite take_take, Nat.min_l by lia. by apply Hl.
Qed.

Lemma traced_snoc hist l e : traced hist l → hist (term e) = l ++ [e] → traced hist (l ++ [e]).
Proof.
  intros Hl He k x Hk. apply lookup_app_Some in Hk as [Hk|[Hle Hk]].
  - rewrite take_app_le by (apply lookup_lt_Some in Hk; lia). by apply Hl.
  - apply list_lookup_singleton_Some in Hk as [Hk <-]. rewrite He. done.
Qed.

Lemma term_in_prefix l g i t : l `prefix_of` g → term_in l i = Some t → term_in g i = Some t.
Proof.
  intros [k ->]. unfold term_in, lookup_index. case_decide; [done|].
  intros (e & He & ->)%fmap_Some. by rewrite (lookup_app_l_Some _ _ _ _ He).
Qed.

Lemma term_in_log `{Platform} r i : contiguous (log r) → term_at r i = term_in (log r) i.
Proof. intros Hl. unfold term_at, term_in. case_decide; [done|]. by rewrite log_entry_lookup. Qed.

(** Two traced logs with the same term at an index agree up to it. *)
Lemma traced_agree hist l g p t :
  traced hist l → traced hist g → term_in l p = Some t → term_in g p = Some t →
  take (N.to_nat p) l = take (N.to_nat p) g ∧ (N.to_nat p ≤ length l)%nat.
Proof.
  intros Hl Hg. unfold term_in, lookup_index. case_decide as Hp; [by subst; split; [|lia]|].
  intros (e1 & H1 & E1)%fmap_Some (e2 & H2 & E2)%fmap_Some.
  apply lookup_lt_Some in H1 as Hlt. split; [|lia].
  replace (N.to_nat p) with (S (N.to_nat (p - 1))) by lia.
  rewrite (Hl _ _ H1), (Hg _ _ H2). congruence.
Qed.

Lemma merge_history hist g es p l :
  traced hist g → contiguous g → traced hist l → (N.to_nat p ≤ length l)%nat →
  take (N.to_nat p) l = take (N.to_nat p) g → es `prefix_of` drop (N.to_nat p) g →
  merge l es = l ∨ ∃ n, merge l es = take n g.
Proof.
  intros Hg Hc. revert p l. induction es as [|e es IH]; intros p l Hl Hp Heq Hes; [by left|].
  assert (He : g !! N.to_nat p = Some e).
  { destruct Hes as [k Hk]. pose proof (f_equal (.!! O) Hk) as H0. rewrite lookup_drop in H0.
    by rewrite Nat.add_0_r in H0. }
  assert (Hrest : es `prefix_of` drop (N.to_nat (p + 1)) g).
  { destruct Hes as [k Hk]. exists k. apply (f_equal tail) in Hk. cbn in Hk. rewrite <-Hk.
    replace (N.to_nat (p + 1)) with (S (N.to_nat p)) by lia. by rewrite (drop_S _ _ _ He). }
  assert (Hi : index e = p + 1) by (rewrite (Hc _ _ He); lia).
  assert (Hnext : take (N.to_nat p) g ++ [e] = take (N.to_nat (p + 1)) g).
  { replace (N.to_nat (p + 1)) with (S (N.to_nat p)) by lia. by rewrite (take_S_r _ _ _ He). }
  assert (Hgl : (N.to_nat (p + 1) ≤ length g)%nat) by (apply lookup_lt_Some in He; lia).
  assert (Hcut : ∀ l', l' = take (N.to_nat (p + 1)) g → ∃ n, merge l' es = take n g).
  { intros l' ->. destruct (IH (p + 1) (take (N.to_nat (p + 1)) g)) as [->|?]; [..|by eauto|done].
    - by apply traced_take.
    - rewrite length_take. lia.
    - by rewrite take_take, Nat.min_id.
    - done. }
  cbn. unfold lookup_index. rewrite decide_False, Hi by lia. rewrite N.add_sub.
  destruct (l !! N.to_nat p) as [x|] eqn:Hx.
  - case_decide as Ht.
    + apply (IH (p + 1)); [done|apply lookup_lt_Some in Hx; lia| |done].
      replace (N.to_nat (p + 1)) with (S (N.to_nat p)) by lia.
      rewrite (Hl _ _ Hx), (Hg _ _ He). congruence.
    + right. apply Hcut. by rewrite Heq.
  - right. apply Hcut. rewrite <-Hnext, <-Heq. apply lookup_ge_None in Hx. by rewrite take_ge.
Qed.
End histories.

(** ** The invariant *)
Section invariant.
Context {BP : BuildProfile} {P : Platform} {HO : HashOrder}.
Context `{!Serde PersistedRaftLogState, !Serde (list SignedTransaction), !Serde BlockFile}.
Context (members : gset PeerId).
Implicit Types (c : Cluster) (cast : PeerId → N → PeerId → Prop).
Implicit Types (won : N → PeerId → Prop) (hist : N → list RaftLogEntry).

Definition chosen cast t i : Prop :=
  ∃ Q : gset PeerId, Q ⊆ members ∧ (size members / 2 + 1 ≤ size Q)%nat ∧ ∀ v, v ∈ Q → cast v t i.

(** An AppendEntries message carries a part of the history of its term. *)
Definition message_traced hist (m : Message) : Prop :=
  match body m with
  | RaftAppendEntries t _ p pt rbs _ =>
      term_in (hist t) p = Some pt ∧ (rb_entry <$> rbs) `prefix_of` drop (N.to_nat p) (hist t)
  | _ => True
  end.

Record match_inv c cast won hist : Prop := {
  mi_cluster : cluster_inv members c cast;
  mi_chosen t i : won t i → chosen cast t i;
  mi_member t i : won t i → i ∈ members;
  mi_leader i s : nodes c !! i = Some s → role (raft s) = Leader →
    won (current_term (raft s)) i ∧ log (raft s) = hist (current_term (raft s));
  mi_spent t i s : won t i → nodes c !! i = Some s →
    t ≤ current_term (raft s) ∧ (role (raft s) = Candidate → t < current_term (raft s));
  mi_unwon t : hist t = [] ∨ ∃ i, won t i;
  mi_logs i s : nodes c !! i = Some s → traced hist (log (raft s));
  mi_hist t : traced hist (hist t) ∧ contiguous (hist t);
  mi_sent m : m ∈ sent c → message_traced hist m;
}.

(** Every member starts with an empty log. *)
Definition fresh_start c : Prop :=
  initial members c ∧ ∀ i s, nodes c !! i = Some s → log (raft s) = [].
Definition reachable_fresh c : Prop := ∃ c0, fresh_start c0 ∧ rtc (cluster_step members) c0 c.

Lemma fresh_inv c : fresh_start c → match_inv c (λ _ _ _, False) (λ _ _, False) (λ _, []).
Proof.
  intros [Hinit Hempty]. split; try done.
  - by apply initial_inv.
  - destruct Hinit as (_ & _ & Hn). intros i s Hi. destruct (Hn i s Hi) as (? & ? & ? & ? & ? & ? & ->). done.
  - by left.
  - intros i s Hi. rewrite (Hempty i s Hi). intros k e Hk. by rewrite lookup_nil in Hk.
  - destruct Hinit as (-> & _). intros m Hm. by apply not_elem_of_nil in Hm.
Qed.

(** The history and the winners after node [i] reached [r]. *)
Definition retraced hist (r : RaftConsensus) : N → list RaftLogEntry :=
  λ t, if decide (role r = Leader ∧ t = current_term r) then log r else hist t.
Definition rewon won (i : PeerId) (r : RaftConsensus) : N → PeerId → Prop :=
  λ t j, won t j ∨ (role r = Leader ∧ t = current_term r ∧ j = i).

Lemma message_extends hist hist' m : extends hist hist' → message_traced hist m → message_traced hist' m.
Proof.
  intros Hx. unfold message_traced. destruct (body m) as [| | | | | | |t l p pt rbs lc|]; try done.
  intros [Hp [k Hk]]. split; [exact (term_in_prefix _ _ _ _ (Hx _) Hp)|]. destruct (Hx t) as [k' ->].
  destruct (decide (N.to_nat p ≤ length (hist t))%nat).
  - exists (k ++ k'). rewrite drop_app_le by done. by rewrite Hk, app_assoc.
  - rewrite drop_ge in Hk by lia. symmetry in Hk. apply app_nil in Hk as [-> ->]. apply prefix_nil.
Qed.

(** A node that leads and did not lead in this term before is the first
    to win it. *)
Lemma first_winner c c' cast cast' won hist i s s' :
  match_inv c cast won hist → cluster_inv members c' cast' →
  (∀ v t x, cast v t x → cast' v t x) →
  nodes c !! i = Some s → nodes c' !! i = Some s' → roles s s' →
  role (raft s') = Leader →
  (role (raft s) = Leader ∧ current_term (raft s') = current_term (raft s)) ∨
  (∀ j, ¬ won (current_term (raft s')) j).
Proof.
  intros Hinv Hinv' Hmono Hi Hi' Hroles Hl.
  destruct (decide (role (raft s) = Leader ∧ current_term (raft s') = current_term (raft s))) as [|Hnew]; [by left|].
  right. intros j Hj. destruct (mi_chosen _ _ _ _ Hinv _ _ Hj) as (Q & SQ & MQ & CQ).
  destruct (leader_votes members c' cast' i s' Hinv' Hi' Hl) as (SV & MV & CV).
  destruct (majorities_meet members _ _ SQ SV MQ MV) as (v & HvQ & HvV).
  assert (j = i) as ->.
  { eapply (ci_unique _ _ _ Hinv'); [by apply Hmono, CQ|by apply CV]. }
  destruct (mi_spent _ _ _ _ Hinv _ _ _ Hj Hi) as [Hle Hc].
  destruct (ro_leader _ _ Hroles Hl) as [[Hr Ht]|]; [|lia].
  destruct (role (raft s)) eqn:Er; [done| |].
  - specialize (Hc eq_refl). lia.
  - apply Hnew. done.
Qed.

Lemma traced_merged hist l p pt rbs t i lc m :
  traced hist (hist t) → contiguous (hist t) → traced hist l → message_traced hist m →
  body m = RaftAppendEntries t i p pt rbs lc → term_in l p = Some pt →
  traced hist (merge l (rb_entry <$> rbs)).
Proof.
  intros Hg Hc Hl Hm Hb Hp. unfold message_traced in Hm. rewrite Hb in Hm. destruct Hm as [Hgp Hes].
  destruct (traced_agree hist l (hist t) p pt Hl Hg Hp Hgp) as [Heq Hlen].
  destruct (merge_history hist (hist t) (rb_entry <$> rbs) p l) as [->|[n ->]]; try done.
  by apply traced_take.
Qed.

(** A node's log stays traced, and its history only grows. *)
Lemma log_traced c c' cast cast' won hist i s ev s' :
  match_inv c cast won hist → cluster_inv members c' cast' →
  (∀ v t x, cast v t x → cast' v t x) →
  nodes c !! i = Some s → nodes c' !! i = Some s' → enabled members c i ev →
  roles s s' → log_change ev s s' →
  extends hist (retraced hist (raft s')) ∧ traced (retraced hist (raft s')) (log (raft s')).
Proof.
  intros Hinv Hinv' Hmono Hi Hi' Hen Hroles Hchange.
  pose proof (mi_logs _ _ _ _ Hinv _ _ Hi) as Hl.
  assert (Hkeep : role (raft s') = Leader → hist (current_term (raft s')) `prefix_of` log (raft s) ∨
    hist (current_term (raft s')) = []).
  { intros Hr. destruct (first_winner _ _ _ _ _ _ _ _ _ Hinv Hinv' Hmono Hi Hi' Hroles Hr) as [[Hr0 ->]|Hno].
    - left. by rewrite <-(proj2 (mi_leader _ _ _ _ Hinv _ _ Hi Hr0)).
    - right. by destruct (mi_unwon _ _ _ _ Hinv (current_term (raft s'))) as [|[j Hj]]; [|destruct (Hno j)]. }
  assert (Hx : ∀ l, log (raft s') = log (raft s) ++ l → extends hist (retraced hist (raft s'))).
  { intros l El t. unfold retraced. case_decide as Hd; [|done]. destruct Hd as [Hr ->]. rewrite El.
    destruct (Hkeep Hr) as [Hpre| ->]; [by apply prefix_app_r|apply prefix_nil]. }
  destruct Hchange as [El|e Hr El Ht|draw t l p pt rbs lc f now -> Hr Ha El].
  - assert (Hx' : extends hist (retraced hist (raft s'))) by (apply (Hx []); by rewrite app_nil_r).
    split; [done|]. rewrite El. by eapply traced_extends.
  - assert (Hx' := Hx [e] El). split; [done|]. rewrite El. apply traced_snoc; [by eapply traced_extends|].
    unfold retraced. by rewrite decide_True.
  - assert (Heq : ∀ t, retraced hist (raft s') t = hist t).
    { intros t'. unfold retraced. rewrite decide_False; [done|]. rewrite Hr. by intros []. }
    assert (Hx' : extends hist (retraced hist (raft s'))) by (intros t'; by rewrite Heq).
    split; [done|]. apply (traced_extends _ _ _ Hx'). rewrite El.
    inversion Hen as [m ev' Hin Hto Hdel|?|?|?|?]; subst. inversion Hdel as [|? ?|? ? ? ? ? ? ? ? Hb|]; subst.
    destruct (mi_hist _ _ _ _ Hinv t) as [Hg Hc]. eapply traced_merged; [exact Hg|done|done| |exact Hb|].
    + by apply (mi_sent _ _ _ _ Hinv).
    + rewrite <-term_in_log; [apply Ha|]. apply (wf_log _ (ci_wf _ _ _ (mi_cluster _ _ _ _ Hinv) _ _ Hi)).
Qed.
(** No other node has won the term of a node that leads after its event. *)
Lemma sole_winner c c' cast cast' won hist i j s s' :
  match_inv c cast won hist → cluster_inv members c' cast' →
  (∀ v t x, cast v t x → cast' v t x) →
  nodes c !! i = Some s → nodes c' !! i = Some s' → roles s s' →
  role (raft s') = Leader → won (current_term (raft s')) j → j = i.
Proof.
  intros Hinv Hinv' Hmono Hi Hi' Hroles Hr Hj.
  destruct (first_winner _ _ _ _ _ _ _ _ _ Hinv Hinv' Hmono Hi Hi' Hroles Hr) as [[Hr0 Ht]|Hno]; [|by destruct (Hno j)].
  rewrite Ht in Hj. destruct (mi_leader _ _ _ _ Hinv _ _ Hi Hr0) as [Hw _].
  destruct (mi_chosen _ _ _ _ Hinv _ _ Hj) as (Q1 & S1 & M1 & C1).
  destruct (mi_chosen _ _ _ _ Hinv _ _ Hw) as (Q2 & S2 & M2 & C2).
  destruct (majorities_meet members _ _ S1 S2 M1 M2) as (v & V1 & V2).
  by eapply (ci_unique _ _ _ (mi_cluster _ _ _ _ Hinv)); [apply C1|apply C2].
Qed.

Lemma match_after c cast won hist i s ev s' ms :
  let c' := mkCluster (<[i := s']> (nodes c)) (ms ++ sent c) in
  let cast' := recast cast i (raft s') in
  match_inv c cast won hist → cluster_inv members c' cast' →
  nodes c !! i = Some s → enabled members c i ev → roles s s' → log_change ev s s' →
  (∀ m, m ∈ ms → message_traced (retraced hist (raft s')) m) →
  match_inv c' cast' (rewon won i (raft s')) (retraced hist (raft s')).
Proof.
  intros c' cast' Hinv Hinv' Hi Hen Hroles Hchange Hms.
  assert (Hi' : nodes c' !! i = Some s') by apply lookup_insert_eq.
  assert (Hother : ∀ j sj, nodes c' !! j = Some sj → (j = i ∧ sj = s') ∨ (j ≠ i ∧ nodes c !! j = Some sj)).
  { intros j sj. cbn. rewrite lookup_insert. case_decide; [intros [= <-]; by left|by right]. }
  assert (Hmono : ∀ v t x, cast v t x → cast' v t x) by by left.
  assert (Him : i ∈ members) by (rewrite <-(ci_members _ _ _ Hinv'); by apply elem_of_dom_2 in Hi').
  destruct (log_traced _ _ _ _ _ _ _ _ _ _ Hinv Hinv' Hmono Hi Hi' Hen Hroles Hchange) as [Hx Htr].
  assert (Hwf : raft_wf (raft s')) by by eapply (ci_wf _ _ _ Hinv').
  split; [done|..].
  - intros t j [Hj|(Hr & -> & ->)].
    + destruct (mi_chosen _ _ _ _ Hinv _ _ Hj) as (Q & ? & ? & ?). exists Q. split_and!; auto.
    + destruct (leader_votes members c' cast' i s' Hinv' Hi' Hr) as (? & ? & ?). eexists. eauto.
  - intros t j [Hj|(_ & _ & ->)]; [by eapply mi_member|done].
  - intros j sj Hj Hr. destruct (Hother j sj Hj) as [[-> ->]|[Hne Hj0]].
    + split; [right; done|]. unfold retraced. by rewrite decide_True.
    + destruct (mi_leader _ _ _ _ Hinv _ _ Hj0 Hr) as [Hw Hl]. split; [by left|].
      unfold retraced. rewrite decide_False; [done|]. intros [Hr' Ht]. apply Hne.
      rewrite Ht in Hw. by eapply sole_winner.
  - intros t j sj Hw Hj. destruct (Hother j sj Hj) as [[-> ->]|[Hne Hj0]].
    + destruct Hw as [Hw|(Hr & -> & _)]; [|split; [lia|by rewrite Hr]].
      destruct (mi_spent _ _ _ _ Hinv _ _ _ Hw Hi) as [Hle Hc]. pose proof (ro_term _ _ Hroles).
      split; [lia|]. intros Hr. destruct (ro_candidate _ _ Hroles Hr) as [[Hr0 ->]|]; [auto|lia].
    + destruct Hw as [Hw|(_ & _ & ->)]; [by eapply mi_spent|done].
  - intros t. unfold retraced. case_decide as Hd.
    + destruct Hd as [Hr ->]. right. exists i. by right.
    + destruct (mi_unwon _ _ _ _ Hinv t) as [|[j Hj]]; [by left|right]. exists j. by left.
  - intros j sj Hj. destruct (Hother j sj Hj) as [[-> ->]|[Hne Hj0]]; [done|].
    eapply traced_extends; [done|]. by eapply mi_logs.
  - intros t. unfold retraced at 2 3. case_decide; [split; [done|apply Hwf]|].
    destruct (mi_hist _ _ _ _ Hinv t). split; [by eapply traced_extends|done].
  - intros m [Hm|Hm]%elem_of_app; [by apply Hms|].
    eapply message_extends; [done|]. by apply (mi_sent _ _ _ _ Hinv).
Qed.

Lemma sent_traced i s ev effects s' ms hist :
  raft_wf (raft s) → raft_wf (raft s') → event_fits (raft s) ev →
  run_event ev s = Ret effects s' → sent_for members i effects ms →
  ∀ m, m ∈ ms → message_traced (retraced hist (raft s')) m.
Proof.
  intros Hwf Hwf' Hfit Hrun Hsent m Hm. unfold sent_for in Hsent. rewrite Forall_forall in Hsent.
  destruct (Hsent m Hm) as (e & He & Hs).
  pose proof (run_event_replicates s ev effects s' Hwf Hfit Hrun) as Hr. rewrite Forall_forall in Hr.
  specialize (Hr e He). unfold message_traced.
  inversion Hs as [dst b|dst b Hd Hne|dst t p pt es lc rbs Hes]; subst; cbn in *.
  - by destruct b.
  - by destruct b.
  - destruct Hr as (Hl & -> & Hp & Hpre & _). unfold retraced. rewrite decide_True by done.
    rewrite <-term_in_log by apply Hwf'. done.
Qed.

Lemma step_matched c c' cast won hist :
  match_inv c cast won hist → cluster_step members c c' →
  ∃ cast' won' hist', match_inv c' cast' won' hist'.
Proof.
  intros Hinv Hstep. pose proof (mi_cluster _ _ _ _ Hinv) as Hc.
  destruct Hstep as [i s ev effects s' ms Hi Hen Hfit Hrun Hsent|i s ev err s' Hi Hen Hfit Hrun].
  all: assert (Hf : final_state (run_event ev s) = Some s') by (by rewrite Hrun).
  all: destruct (node_step members c cast i s ev s' Hc Hi Hen Hfit Hf) as (Hwf & Hsf & Hn).
  all: pose proof (ci_wf _ _ _ Hc _ _ Hi) as Hwf0.
  all: pose proof (run_event_roles s ev Hfit s' Hf) as Hroles.
  all: pose proof (run_event_log_change s ev s' Hwf0 Hfit Hf) as Hchange.
  all: eexists _, _, _.
  - eapply (match_after c cast won hist i s ev s' ms); [done| |done..|].
    + eapply inv_after; eauto. by eapply sent_inv.
    + by eapply sent_traced.
  - eapply (match_after c cast won hist i s ev s' []); [done| |done..|].
    + eapply inv_after; eauto. intros m Hm. by apply not_elem_of_nil in Hm.
    + intros m Hm. by apply not_elem_of_nil in Hm.
Qed.

Lemma reachable_matched c : reachable_fresh c → ∃ cast won hist, match_inv c cast won hist.
Proof.
  intros (c0 & H0 & Hsteps). apply fresh_inv in H0.
  assert (H : ∃ cast won hist, match_inv c0 cast won hist) by eauto. clear H0.
  induction Hsteps as [|c1 c2 c3 Hstep _ IH]; [done|]. apply IH.
  destruct H as (cast & won & hist & H). by eapply step_matched.
Qed.
End invariant.

Section theorem.
Context {BP : BuildProfile} {P : Platform} {HO : HashOrder}.
Context `{!Serde PersistedRaftLogState, !Serde (list SignedTransaction), !Serde BlockFile}.

(** C4. Log matching: in every reachable state of a cluster that started with
    empty logs, whatever is delayed, reordered, duplicated or lost, two logs
    that hold an entry of the same term at the same index are equal up to it. *)
Theorem log_matching (members : gset PeerId) c i j si sj k ei ej :
  reachable_fresh members c →
  nodes c !! i = Some si → nodes c !! j = Some sj →
  log (raft si) !! k = Some ei → log (raft sj) !! k = Some ej →
  term ei = term ej → take (S k) (log (raft si)) = take (S k) (log (raft sj)).
Proof.
  intros Hreach Hi Hj Hei Hej Ht. destruct (reachable_matched members c Hreach) as (cast & won & hist & Hinv).
  rewrite (mi_logs _ _ _ _ _ Hinv _ _ Hi _ _ Hei), (mi_logs _ _ _ _ _ Hinv _ _ Hj _ _ Hej). congruence.
Qed.
End theorem.
End LogMatching.
