(* ===== verification/SafetySteps.v ===== *)
(** * What one event does to votes, matches and the commit index

    More facts about [run_event] for the invariant of ClusterSafety.v: where a
    vote comes from ([run_event_vote]), where a leader's match indexes come
    from ([run_event_match]), what moves the commit index
    ([run_event_commit]), what a request for votes and an answer to
    AppendEntries say ([vote_request_says], [handle_append_says]). *)

From S2P Require Import Prelude Platform Crypto Transactions Storage Messages RaftLogStore Raft RaftFacts RaftInvariant RaftTheorems LogSteps Cluster.

Module SafetySteps.
Import RaftConsensus LogSteps Election.

Section steps.
Context {BP : BuildProfile} {P : Platform} {HO : HashOrder}.
Context `{!Serde PersistedRaftLogState, !Serde (list SignedTransaction), !Serde BlockFile}.
Implicit Types (r : RaftConsensus) (s : RaftS) (es : list RaftLogEntry).

(** ** Elections *)

(** A node that starts an election is in the next term, votes for itself and
    stands or already leads. *)
Lemma start_election_stands {E} now s s' :
  current_term (raft s) + 1 < u64_modulus → final_state (start_election_at (E := E) now s) = Some s' →
  current_term (raft s') = current_term (raft s) + 1 ∧ voted_for (raft s') = Some (peer_id (raft s)) ∧
  role (raft s') ≠ Follower ∧ commit_index (raft s') = commit_index (raft s).
Proof.
  intros Ht. unfold start_election_at. rewrite bind_gets, bind_add_u64 by done. cbv zeta. rewrite bind_update.
  unfold become_leader_if_majority. rewrite bind_gets.
  destruct (decide _); [rewrite bind_update|]; intros [= <-]; by split_and!.
Qed.

(** ** Votes *)

Definition votes_kept s s' : Prop :=
  voted_for (raft s') = None ∨
  (voted_for (raft s') = voted_for (raft s) ∧ current_term (raft s') = current_term (raft s)).
#[local] Instance votes_kept_preorder : PreOrder votes_kept.
Proof.
  split; [by right|]. unfold votes_kept. intros s1 s2 s3 H1 [?|[H2 T2]]; [by left|].
  destruct H1 as [?|[H1 T1]]; [left|right]; [congruence|split; congruence].
Qed.

Lemma leads_votes {E A} s (m : RaftM E A) : leads same_role s m → leads votes_kept s m.
Proof. intros H s' Hs. destruct (H s' Hs) as (_ & ? & ?). by right. Qed.

Lemma frame_votes {E} s f :
  voted_for (f (raft s)) = voted_for (raft s) → current_term (f (raft s)) = current_term (raft s) →
  leads (E := E) votes_kept s (update f).
Proof. intros Hv Ht. apply leads_update; [apply _|]. by right. Qed.

Ltac frame_votes_updates := lead; try (apply frame_votes; done).

Lemma step_down_votes {E} s t : leads (E := E) votes_kept s (step_down t).
Proof. apply leads_update; [apply _|]. by left. Qed.

Lemma receive_vote_votes {E} s t v g : leads (E := E) votes_kept s (receive_vote t v g).
Proof.
  unfold receive_vote, become_leader_if_majority. frame_votes_updates. apply step_down_votes.
Qed.

Lemma receive_append_votes {E} s draw t l f now :
  leads (E := E) votes_kept s (receive_append_entries_at draw t l f now).
Proof.
  unfold receive_append_entries_at, reset_election_timeout. frame_votes_updates. apply step_down_votes.
Qed.

Lemma handle_append_votes s draw req : leads votes_kept s (handle_append_entries draw req).
Proof.
  unfold handle_append_entries. frame_votes_updates; [apply receive_append_votes|..].
  - apply leads_votes, append_entries_role.
  - apply leads_votes, persist_log_role.
Qed.

Lemma leader_response_votes s t f ok m : leads votes_kept s (handle_leader_append_entries_response t f ok m).
Proof.
  unfold handle_leader_append_entries_response. frame_votes_updates; [apply step_down_votes|..].
  - apply leads_votes, advance_role.
  - apply leads_votes, persist_log_role.
Qed.

Lemma update_participants_frame {E} l s a s' :
  update_participants (E := E) l s = Ret a s' →
  current_term (raft s') = current_term (raft s) ∧ voted_for (raft s') = voted_for (raft s) ∧
  role (raft s') = role (raft s) ∧ peer_id (raft s') = peer_id (raft s) ∧ log (raft s') = log (raft s) ∧
  commit_index (raft s') = commit_index (raft s) ∧ match_indexes (raft s') ⊆ match_indexes (raft s).
Proof.
  unfold update_participants. rewrite bind_gets. cbv zeta. intros [= _ <-]. split_and!; try done.
  apply map_filter_subseteq.
Qed.

(** A tick that reaches the election. *)
Lemma on_tick_cases now peers s s' :
  current_term (raft s) + 1 < u64_modulus → final_state (on_tick now peers s) = Some s' →
  ∃ s1, update_participants (E := string) peers s = Ret tt s1 ∧
  ((same_role s1 s' ∧ same_core s1 s' ∧ commit_index (raft s') = commit_index (raft s1) ∧
    match_indexes (raft s') = match_indexes (raft s1)) ∨
   ∃ s2 won, start_election_at (E := string) now s1 = Ret won s2 ∧
     if won : bool then final_state (append_leader_noop s2) = Some s' else s' = s2).
Proof.
  intros Ht. unfold on_tick. intros [([] & s1 & H1 & H)|[err H1]]%bind_final; [|done].
  exists s1. split; [done|]. rewrite bind_gets in H. destruct (decide _).
  { left. destruct (heartbeat_due _ _); [rewrite bind_update, bind_gets in H|]; by injection H as <-. }
  destruct (decide _); [|left; by injection H as <-]. right.
  apply bind_final in H as [(won & s2 & H2 & H)|[err H2]].
  - exists s2, won. split; [done|]. rewrite bind_gets in H. cbv zeta in H.
    destruct won; [|by injection H as <-].
    apply bind_final in H as [(more & s3 & H3 & [= <-])|[err H3]]; by rewrite H3.
  - exfalso. revert H2. unfold start_election_at. rewrite bind_gets.
    apply update_participants_frame in H1 as (E1 & _). rewrite bind_add_u64 by (by rewrite E1). cbv zeta.
    rewrite bind_update. unfold become_leader_if_majority. rewrite bind_gets. by destruct (decide _).
Qed.

Lemma run_event_votes s ev :
  match ev with EvTick _ _ | EvRequestVote _ _ _ _ _ => True | _ => leads votes_kept s (run_event ev) end.
Proof.
  destruct ev; cbn [run_event]; try done.
  - unfold on_client_transaction, forward_client_transaction. lead.
  - unfold on_block_created, append_local_block. lead. apply leads_votes, append_local_entry_role.
  - unfold on_request_vote_response, step_down_on_newer_term. lead;
      [apply receive_vote_votes|apply leads_votes, append_leader_noop_role|apply step_down_votes].
  - apply handle_append_votes.
  - unfold on_append_entries_response, step_down_on_newer_term. lead;
      [apply leader_response_votes|apply step_down_votes].
  - unfold take_pending_block. lead. by apply frame_votes.
Qed.

(** Where a vote comes from: it was there, the node stood for election, or a
    candidate with a log not behind its own asked for it. *)
Lemma run_event_vote s ev s' c :
  event_fits (raft s) ev → final_state (run_event ev s) = Some s' → voted_for (raft s') = Some c →
  (voted_for (raft s) = Some c ∧ current_term (raft s') = current_term (raft s)) ∨
  (c = peer_id (raft s) ∧ current_term (raft s) < current_term (raft s') ∧ role (raft s') ≠ Follower) ∨
  (∃ t li lt f, ev = EvRequestVote t c li lt f ∧ current_term (raft s') = t ∧
     candidate_log_is_up_to_date (raft s) li lt = true).
Proof.
  intros (_ & Ht & _) Hrun Hv. pose proof (run_event_votes s ev) as Hkept.
  assert (Hsame : votes_kept s s' → voted_for (raft s) = Some c ∧ current_term (raft s') = current_term (raft s)).
  { intros [?|[? ?]]; [congruence|split; congruence]. }
  destruct ev; try (left; by apply Hsame, Hkept); clear Hkept Hsame; cbn [run_event] in Hrun.
  - destruct (on_tick_cases now known_peers s s' Ht Hrun) as (s1 & H1 & Hcase).
    apply update_participants_frame in H1 as (E1 & E2 & _ & E3 & _).
    destruct Hcase as [((_ & E4 & E5) & _)|(s2 & won & H2 & H)]; [left; split; congruence|].
    right; left. destruct (start_election_stands (E := string) now s1 s2) as (T2 & V2 & R2 & _);
      [by rewrite E1|by rewrite H2|].
    assert (Hs : same_role s2 s') by (destruct won; [by apply append_leader_noop_role|by subst]).
    destruct Hs as (R3 & T3 & V3). split_and!; [congruence|lia|congruence].
  - unfold on_request_vote in Hrun. apply bind_final in Hrun as [(a & s1 & H1 & H)|[err H1]];
      destruct (RaftTheorems.request_vote_cases (E := string) t candidate last_index last_term s) as [[Hok H2]|[_ H2]];
      rewrite H1 in H2; try done; injection H2 as -> ->; rewrite bind_gets in H; injection H as <-; cbn in Hv |- *.
    + injection Hv as <-. right; right. destruct Hok as (Hle & Hup%RaftTheorems.up_to_date_iff & _).
      do 4 eexists. split; [done|]. split; [|done]. unfold RaftTheorems.at_term. case_decide; [done|lia].
    + left. unfold RaftTheorems.at_term in *. by case_decide.
Qed.

(** ** Match indexes *)

(** The match index of another node is 0, or it was this leader's. *)
Definition match_kept s s' : Prop :=
  peer_id (raft s') = peer_id (raft s) ∧
  (role (raft s') = Leader → ∀ p m, p ≠ peer_id (raft s) → match_indexes (raft s') !! p = Some m →
     m = 0 ∨ (role (raft s) = Leader ∧ current_term (raft s') = current_term (raft s) ∧
              match_indexes (raft s) !! p = Some m)).
#[local] Instance match_kept_preorder : PreOrder match_kept.
Proof.
  split; [by split; auto|]. intros s1 s2 s3 [P1 H1] [P2 H2]. split; [congruence|].
  intros Hr p m Hp Hm. rewrite <-P1 in Hp. destruct (H2 Hr p m Hp Hm) as [?|(R & T & M)]; [by left|].
  rewrite P1 in Hp. destruct (H1 R p m Hp M) as [?|(? & ? & ?)]; [by left|right]. split_and!; [done|congruence|done].
Qed.

Lemma frame_match s s' :
  peer_id (raft s') = peer_id (raft s) →
  (role (raft s') = Leader → role (raft s) = Leader ∧ current_term (raft s') = current_term (raft s) ∧
     ∀ p m, p ≠ peer_id (raft s) → match_indexes (raft s') !! p = Some m → match_indexes (raft s) !! p = Some m) →
  match_kept s s'.
Proof.
  intros Hp H. split; [done|]. intros Hr p m Hne Hm. destruct (H Hr) as (R & T & M). right. auto.
Qed.

Ltac frame_match_updates := lead; try (apply leads_update; [apply _|]; apply frame_match; done).

Lemma step_down_match {E} s t : leads (E := E) match_kept s (step_down t).
Proof. apply leads_update; [apply _|]. by apply frame_match. Qed.

Lemma become_leader_match {E} s : leads (E := E) match_kept s become_leader_if_majority.
Proof.
  unfold become_leader_if_majority. lead. apply leads_update; [apply _|]. split; [done|].
  intros _ p m Hp Hm. cbn in Hm. apply lookup_set_to_map in Hm as (q & Hq & [= <- <-]); [|by intros ???].
  left. by rewrite decide_False.
Qed.

Lemma update_participants_match {E} s l : leads (E := E) match_kept s (update_participants l).
Proof.
  unfold update_participants. intros s' [= <-]. apply frame_match; [done|]. cbn. intros Hr.
  split_and!; [done|done|]. intros p m _ [Hm _]%map_lookup_filter_Some. done.
Qed.

Lemma start_election_match {E} s now : leads (E := E) match_kept s (start_election_at now).
Proof. unfold start_election_at. frame_match_updates. apply become_leader_match. Qed.

Lemma request_vote_match {E} s t c li lt : leads (E := E) match_kept s (request_vote t c li lt).
Proof. unfold request_vote. frame_match_updates. Qed.

Lemma receive_vote_match {E} s t v g : leads (E := E) match_kept s (receive_vote t v g).
Proof. unfold receive_vote. frame_match_updates. apply become_leader_match. Qed.

Lemma receive_append_match {E} s draw t l f now :
  leads (E := E) match_kept s (receive_append_entries_at draw t l f now).
Proof.
  unfold receive_append_entries_at, reset_election_timeout. frame_match_updates.
Qed.

Lemma persist_log_match s : leads match_kept s persist_log.
Proof.
  intros s'. unfold persist_log. destruct (RaftLogStore.save _ _ _ _); intros [= <-]; by apply frame_match.
Qed.

Lemma advance_match {E} s : leads (E := E) match_kept s advance_commit_index.
Proof. unfold advance_commit_index. frame_match_updates. Qed.

Lemma append_local_entry_match s e : leads match_kept s (append_local_entry e).
Proof.
  unfold append_local_entry. frame_match_updates; [|apply advance_match|apply persist_log_match].
  apply leads_update; [apply _|]. apply frame_match; [done|]. cbn. intros Hr. split_and!; [done|done|].
  intros p m Hp. by rewrite lookup_insert_ne.
Qed.

Lemma append_leader_noop_match s : leads match_kept s append_leader_noop.
Proof. unfold append_leader_noop. lead. apply append_local_entry_match. Qed.

Lemma append_entries_match {E} s p pt es lc : leads (E := E) match_kept s (append_entries p pt es lc).
Proof.
  assert (Hc : ∀ es off s, leads (E := E) match_kept s (entries_are_contiguous_from p off es)).
  { induction es0 as [|e es0 IH]; intros off s0; cbn [entries_are_contiguous_from]; lead. apply IH. }
  assert (Ha : ∀ es ds s, leads (E := E) match_kept s (append_loop es ds)).
  { induction es0 as [|e es0 IH]; intros ds s0; cbn [append_loop]; frame_match_updates; apply IH. }
  unfold append_entries, entries_are_contiguous_after. frame_match_updates; [apply Hc|apply Ha].
Qed.

Lemma run_event_matches s ev :
  match ev with EvAppendEntriesResponse _ _ _ _ => True | _ => leads match_kept s (run_event ev) end.
Proof.
  destruct ev; cbn [run_event]; try done.
  - unfold on_client_transaction, forward_client_transaction. lead.
  - unfold on_block_created, append_local_block. lead. apply append_local_entry_match.
  - unfold on_tick. frame_match_updates;
      [apply update_participants_match|apply start_election_match|apply append_leader_noop_match].
  - unfold on_request_vote. lead. apply request_vote_match.
  - unfold on_request_vote_response, step_down_on_newer_term. lead;
      [apply receive_vote_match|apply append_leader_noop_match|apply step_down_match].
  - unfold on_append_entries, handle_append_entries. frame_match_updates;
      [apply receive_append_match|apply append_entries_match|apply persist_log_match].
  - unfold take_pending_block. frame_match_updates.
Qed.

(** Where a leader's match index comes from: an answer, otherwise. *)
Lemma run_event_match s ev s' p m :
  final_state (run_event ev s) = Some s' → role (raft s') = Leader →
  p ≠ peer_id (raft s) → match_indexes (raft s') !! p = Some m →
  m = 0 ∨
  (role (raft s) = Leader ∧ current_term (raft s') = current_term (raft s) ∧ match_indexes (raft s) !! p = Some m) ∨
  (role (raft s) = Leader ∧ current_term (raft s') = current_term (raft s) ∧
   ∃ ok m0, ev = EvAppendEntriesResponse (current_term (raft s)) p ok m0 ∧ m ≤ m0).
Proof.
  intros Hrun Hr Hp Hm. pose proof (run_event_matches s ev) as Hkept.
  assert (Hsame : match_kept s s' → m = 0 ∨ (role (raft s) = Leader ∧
    current_term (raft s') = current_term (raft s) ∧ match_indexes (raft s) !! p = Some m)).
  { intros [_ H]. exact (H Hr p m Hp Hm). }
  destruct ev as [| | | | | |t f ok m0|]; try (destruct (Hsame (Hkept s' Hrun)); tauto). clear Hkept.
  cbn [run_event] in Hrun. unfold on_append_entries_response in Hrun. rewrite bind_gets in Hrun.
  destruct (decide (role (raft s) = Leader)) as [Hl|].
  2:{ destruct Hsame; [|tauto..]. revert Hrun.
      enough (leads (E := string) match_kept s (step_down_on_newer_term t ;;; ret ([] : list ConsensusEffect))) as H by apply H.
      unfold step_down_on_newer_term. lead. apply step_down_match. }
  unfold handle_leader_append_entries_response in Hrun. rewrite bind_gets in Hrun.
  destruct (decide _); [by injection Hrun as <-|]. destruct (decide _) as [|Hn]; [injection Hrun as <-; tauto|].
  assert (t = current_term (raft s)) as -> by (destruct (decide (t = current_term (raft s))); tauto).
  assert (Hcase : ∀ s1, current_term (raft s1) = current_term (raft s) →
    peer_id (raft s1) = peer_id (raft s) →
    (∀ x, match_indexes (raft s1) !! p = Some x → (match_indexes (raft s) !! p = Some x ∨ (p = f ∧ x ≤ m0))) →
    match_kept s1 s' → role (raft s) = Leader → m = 0 ∨ (role (raft s) = Leader ∧
      current_term (raft s') = current_term (raft s) ∧ match_indexes (raft s) !! p = Some m) ∨
    (role (raft s) = Leader ∧ current_term (raft s') = current_term (raft s) ∧
     ∃ ok' m0', EvAppendEntriesResponse (current_term (raft s)) f ok m0 =
       EvAppendEntriesResponse (current_term (raft s)) p ok' m0' ∧ m ≤ m0')).
  { intros s1 T1 P1 Hx [_ H] _. rewrite P1 in H. destruct (H Hr p m Hp Hm) as [?|(_ & T & M)]; [by left|].
    destruct (Hx m M) as [?|[-> ?]]; [right; left; split_and!; [done|congruence|done]|].
    right; right. split_and!; [done|congruence|]. by exists ok, m0. }
  destruct ok.
  - rewrite bind_update in Hrun.
    match type of Hrun with final_state (bind _ _ ?s1) = _ => apply (Hcase s1); [done|done| | |done] end.
    + cbn. intros x. destruct (decide (p = f)) as [->|]; [|rewrite lookup_insert_ne by done; by left].
      rewrite lookup_insert_eq. intros [= <-].
      destruct (match_indexes (raft s) !! f) as [y|]; cbn; [|right; split; [done|lia]].
      destruct (decide (m0 ≤ y)); [left; f_equal; lia|right; split; [done|lia]].
    + revert Hrun. apply leads_bind; [apply _|apply advance_match|]. intros effs s2 _. lead. apply persist_log_match.
  - cbv zeta in Hrun. rewrite bind_update, bind_gets in Hrun.
    eapply (Hcase (s <| raft ::= λ r, r <| match_indexes ::= <[f := N.min m0 (last_log_index (raft s))]> |> |>));
      [done|done| | |done].
    + cbn. intros x. destruct (decide (p = f)) as [->|]; [|rewrite lookup_insert_ne by done; by left].
      rewrite lookup_insert_eq. intros [= <-]. right. split; [done|lia].
    + destruct (decide _); by injection Hrun as <-.
Qed.

(** ** The commit index *)

(** The commit index is that of an entry of the term that a majority holds,
    going by the match indexes. *)
Definition majority_holds r : Prop :=
  ∃ e, e ∈ log r ∧ term e = current_term r ∧ index e = commit_index r ∧
    (majority r ≤ size (replicated_to r (index e)))%nat.

Definition commit_moved s s' : Prop :=
  commit_index (raft s') = commit_index (raft s) ∨ (role (raft s') = role (raft s) ∧ majority_holds (raft s')).

Lemma commit_moved_persist s s1 s' :
  commit_moved s s1 → final_state (persist_log s1) = Some s' → commit_moved s s'.
Proof.
  intros Hc. unfold persist_log. destruct (RaftLogStore.save _ _ _ _); intros [= <-]; exact Hc.
Qed.

Lemma advance_commit {E} s effects s' :
  advance_commit_index (E := E) s = Ret effects s' → commit_moved s s'.
Proof.
  unfold advance_commit_index. rewrite bind_gets. cbv zeta.
  destruct (List.find (committable (raft s)) (rev (log (raft s)))) as [e|] eqn:Hf.
  - rewrite bind_update, bind_gets. intros [= _ <-]. apply committable_find in Hf as (Hin & _ & Ht & Hm).
    right. split; [done|]. by exists e.
  - rewrite bind_ret_l, bind_gets. intros [= _ <-]. by left.
Qed.

Lemma append_local_entry_commit e s s' :
  final_state (append_local_entry e s) = Some s' → commit_moved s s'.
Proof.
  unfold append_local_entry. rewrite !bind_update, bind_gets. cbv zeta.
  intros [(c & s2 & Hc & H)|[err Hc]]%bind_final.
  - apply advance_commit in Hc. apply bind_final in H as [([] & s3 & H3 & [= <-])|[err H3]];
      (eapply commit_moved_persist; [exact Hc|by rewrite H3]).
  - exfalso. revert Hc. unfold advance_commit_index. rewrite bind_gets. cbv zeta.
    by destruct (List.find _ _).
Qed.

Lemma append_leader_noop_commit s s' : final_state (append_leader_noop s) = Some s' → commit_moved s s'.
Proof.
  unfold append_leader_noop. rewrite bind_gets. unfold add_u64.
  destruct (checked_plus _ _ _) as [i|]; [|done]. rewrite bind_unwrap_Some. apply append_local_entry_commit.
Qed.

Lemma leader_response_commit t f ok m s s' :
  final_state (handle_leader_append_entries_response t f ok m s) = Some s' → commit_moved s s'.
Proof.
  unfold handle_leader_append_entries_response. rewrite bind_gets.
  destruct (decide _); [intros [= <-]; by left|]. destruct (decide _); [intros [= <-]; by left|]. destruct ok.
  - rewrite bind_update. intros [(c & s2 & Hc & H)|[err Hc]]%bind_final.
    + apply advance_commit in Hc. rewrite bind_gets in H.
      apply bind_final in H as [([] & s3 & H3 & [= <-])|[err H3]].
      * destruct (decide _); [eapply commit_moved_persist; [exact Hc|by rewrite H3]|by injection H3 as <-].
      * destruct (decide _); [eapply commit_moved_persist; [exact Hc|by rewrite H3]|done].
    + exfalso. revert Hc. unfold advance_commit_index. rewrite bind_gets. cbv zeta.
      by destruct (List.find _ _).
  - cbv zeta. rewrite bind_update, bind_gets. destruct (decide _); intros [= <-]; by left.
Qed.

Lemma run_event_commit s ev s' :
  event_fits (raft s) ev → final_state (run_event ev s) = Some s' →
  match ev with
  | EvAppendEntries _ _ _ _ _ _ _ _ _ => True
  | _ => commit_index (raft s') = commit_index (raft s) ∨ (role (raft s') = Leader ∧ majority_holds (raft s'))
  end.
Proof.
  intros (_ & Ht & _) Hrun.
  assert (Hsame : leads same_log s (run_event ev) → commit_index (raft s') = commit_index (raft s) ∨
    (role (raft s') = Leader ∧ majority_holds (raft s'))).
  { intros H. destruct (H s' Hrun) as (_ & ? & _). by left. }
  assert (Hled : ∀ s1, commit_index (raft s1) = commit_index (raft s) → role (raft s1) = Leader →
    commit_moved s1 s' → commit_index (raft s') = commit_index (raft s) ∨ (role (raft s') = Leader ∧ majority_holds (raft s'))).
  { intros s1 E1 Hr [?|[R ?]]; [left; congruence|right; split; congruence]. }
  destruct ev; cbn [run_event] in Hrun, Hsame; try done.
  - apply Hsame. unfold on_client_transaction, forward_client_transaction. lead.
  - unfold on_block_created in Hrun. rewrite bind_gets in Hrun.
    destruct (role (raft s)) eqn:Hr; [injection Hrun as <-; by left..|].
    unfold append_local_block in Hrun. rewrite bind_gets in Hrun.
    destruct (ensure_no_uncommitted_block _); [|injection Hrun as <-; by left].
    unfold of_result in Hrun. rewrite bind_ret_l in Hrun. unfold add_u64 in Hrun.
    destruct (checked_plus _ _ _); [|done]. rewrite bind_unwrap_Some in Hrun.
    apply (Hled s); [done|done|]. by apply append_local_entry_commit in Hrun.
  - destruct (on_tick_cases now known_peers s s' Ht Hrun) as (s1 & H1 & Hcase).
    apply update_participants_frame in H1 as (E1 & _ & _ & _ & _ & E2 & _).
    destruct Hcase as [(_ & _ & E3 & _)|(s2 & won & H2 & H)]; [left; congruence|].
    destruct (start_election_stands (E := string) now s1 s2) as (_ & _ & _ & E3); [by rewrite E1|by rewrite H2|].
    destruct won; [|subst; left; congruence].
    apply (Hled s2); [congruence|by eapply start_election_won|by apply append_leader_noop_commit].
  - apply Hsame. unfold on_request_vote, request_vote, step_down. lead; by apply leads_update; [apply _|].
  - unfold on_request_vote_response in Hrun. rewrite bind_gets in Hrun. destruct (decide _).
    + apply bind_final in Hrun as [(won & s2 & H2 & H)|[err H2]].
      * pose proof (leads_Ret _ _ _ _ _ (receive_vote_log s t voter granted) H2) as (_ & E2 & _).
        destruct won; [|injection H as <-; by left].
        apply (Hled s2); [congruence|by eapply receive_vote_won|by apply append_leader_noop_commit].
      * left. destruct (receive_vote_log (E := string) s t voter granted s') as (_ & E2 & _); [by rewrite H2|done].
    + left. revert Hrun. unfold step_down_on_newer_term. rewrite bind_assoc, bind_gets.
      destruct (decide _); by intros [= <-].
  - unfold on_append_entries_response in Hrun. rewrite bind_gets in Hrun. destruct (decide (role (raft s) = Leader)) as [Hr|].
    + apply (Hled s); [done|done|by eapply leader_response_commit].
    + left. revert Hrun. unfold step_down_on_newer_term. rewrite bind_assoc, bind_gets.
      destruct (decide _); by intros [= <-].
  - apply Hsame. unfold take_pending_block. lead. by apply leads_update; [apply _|].
Qed.

(** ** AppendEntries *)

Definition refused s s' : Prop :=
  log (raft s') = log (raft s) ∧ commit_index (raft s') = commit_index (raft s).

Record accepted s s' (t p pt : N) es (lc : N) : Prop := {
  ac_checks : append_accepted (raft s) p pt es;
  ac_role : role (raft s') = Follower;
  ac_term : current_term (raft s') = t;
  ac_log : log (raft s') = merge (log (raft s)) es;
  ac_commit : commit_index (raft s') =
    N.max (commit_index (raft s)) (N.min lc (N.of_nat (length (merge (log (raft s)) es))));
}.

(** Receiving returns, in the old term or in the message's. *)
Lemma receive_append_returns {E} draw t l f now s :
  match receive_append_entries_at (E := E) draw t l f now s with
  | Ret acc s' =>
      (current_term (raft s') = current_term (raft s) ∨ current_term (raft s') = t) ∧
      (acc = true → role (raft s') = Follower ∧ current_term (raft s') = t)
  | _ => False
  end.
Proof.
  unfold receive_append_entries_at, reset_election_timeout. rewrite bind_gets.
  destruct (decide _); [by split; [left|]|]. destruct (decide _) as [|Hle]; [by split; [left|]|].
  rewrite RaftTheorems.step_to_term, bind_gets. cbn [raft].
  assert (Ht : current_term (RaftTheorems.at_term (raft s) t) = t).
  { unfold RaftTheorems.at_term. case_decide; [done|lia]. }
  destruct (_ && _); [by split; [right|]|]. cbv zeta. rewrite bind_update.
  destruct (bool_decide _); [rewrite bind_update|rewrite bind_ret_l]; by split; [right|].
Qed.

Lemma matching_index_log r1 r2 p pt es :
  log r1 = log r2 → matching_index_for r1 p pt es = matching_index_for r2 p pt es.
Proof.
  intros Hl. assert (Ht : ∀ i, term_at r1 i = term_at r2 i) by (intros i; unfold term_at, log_entry; by rewrite Hl).
  unfold matching_index_for. rewrite Ht. do 3 f_equal. apply list_filter_iff. intros e. by rewrite Ht.
Qed.

(** The index a rejection names. *)
Lemma matching_index_cases r p pt es :
  matching_index_for r p pt es = 0 ∨
  (matching_index_for r p pt es = p ∧ term_at r p = Some pt) ∨
  ∃ e, e ∈ es ∧ matching_index_for r p pt es = index e ∧ term_at r (index e) = Some (term e).
Proof.
  unfold matching_index_for. destruct (max_option _) as [x|] eqn:Hx; cbn.
  - right; right. unfold max_option in Hx.
    assert (Hin : x ∈ index <$> filter (λ e, term_at r (index e) = Some (term e)) es).
    { destruct (index <$> _) as [|y l]; [done|]. injection Hx as <-. clear. induction l as [|z l IH]; cbn; [left|].
      destruct (N.max_spec_le z (foldr N.max y l)) as [[_ ->]|[_ ->]]; [|right; left].
      apply elem_of_cons in IH as [->|IH]; [left|by do 2 right]. }
    apply list_elem_of_fmap in Hin as (e & -> & He). apply list_elem_of_filter in He as [? ?]. eauto.
  - case_decide; [right; left; by split|by left].
Qed.

(** Persisting, or not, changes the store only. *)
Lemma persist_if_frame {A} (b : bool) (x : A) s s' :
  final_state (bind (if b then persist_log else ret tt) (λ _, ret x) s) = Some s' →
  ∃ store, raft s' = (raft s) <| raft_log_store := store |>.
Proof.
  destruct b.
  - unfold bind, persist_log. destruct (RaftLogStore.save _ _ _ _); intros [= <-]; eauto.
    exists (raft_log_store (raft s)). by destruct (raft s).
  - rewrite bind_ret_l. intros [= <-]. exists (raft_log_store (raft s)). by destruct (raft s).
Qed.

(** The answer to AppendEntries, and what it stands for. *)
Lemma handle_append_says draw t l p pt rbs lc f now s s' :
  let es := rb_entry <$> rbs in
  let run := on_append_entries draw t l p pt rbs lc f now s in
  raft_wf (raft s) → entries_room (raft s) rbs → final_state run = Some s' →
  (current_term (raft s') = current_term (raft s) ∨ current_term (raft s') = t) ∧
  ((refused s s' ∧ ∀ effects, run = Ret effects s' → ∃ es0, (es0 = [] ∨ es0 = es) ∧
      effects = [append_entries_response (raft s') f false (matching_index_for (raft s) p pt es0)]) ∨
   (accepted s s' t p pt es lc ∧ ∀ effects, run = Ret effects s' → ∃ effects0, Forall quiet effects0 ∧
      effects = effects0 ++ [append_entries_response (raft s') f true (p + N.of_nat (length es))])).
Proof.
  intros es run Hwf Hroom. unfold run, on_append_entries, handle_append_entries. cbn [req_term req_leader_id req_from
    req_now req_entries req_prev_log_index req_prev_log_term req_leader_commit].
  pose proof (receive_append_returns (E := string) draw t l f now s) as Hreceive.
  intros [(acc & s1 & H1 & H)|[err H1]]%bind_final; rewrite H1 in Hreceive; [|done].
  destruct Hreceive as [Hterm Hacc]. rewrite (bind_of _ _ _ _ _ H1).
  pose proof (leads_Ret _ _ _ _ _ (receive_append_entries_at_log s draw t l f now) H1) as (El & Ec & _).
  pose proof (RaftTheorems.evolves_wf _ _ _ _ (receive_append_entries_at_evolves s draw t l f now) H1 Hwf) as Hwf1.
  pose proof (λ es0, matching_index_log (raft s1) (raft s) p pt es0 El) as Em.
  rewrite bind_gets in H |- *. destruct acc; cbn [negb] in H |- *.
  2:{ injection H as <-. split; [done|left]. split; [done|]. intros effects [= <-]. exists []. rewrite Em. auto. }
  destruct (validate_replicated_entries rbs) as [[es' bs]|] eqn:Ev.
  2:{ injection H as <-. split; [done|left]. split; [done|]. intros effects [= <-]. exists []. rewrite Em. auto. }
  apply validate_length in Ev as ->. fold es in H |- *. cbv zeta in H |- *.
  destruct (append_entries_cases (E := string) s1 p pt es lc Hwf1) as [[_ H2]|[Ha H2]].
  { unfold es. rewrite El, length_fmap. done. }
  - rewrite (bind_of _ _ _ _ _ H2), bind_gets in H |- *. injection H as <-. split; [done|left]. split; [done|].
    intros effects [= <-]. exists es. rewrite Em. auto.
  - rewrite (bind_of _ _ _ _ _ H2), bind_update, bind_gets in H |- *. cbv beta zeta in H |- *.
    destruct (Hacc eq_refl) as [Hrole Ht].
    apply (RaftTheorems.append_accepted_log _ (raft s)) in Ha as Ha0; [|done..].
    apply persist_if_frame in H as Hs.
    assert (Hf : role (raft s') = Follower ∧ current_term (raft s') = t ∧ log (raft s') = merge (log (raft s1)) es ∧
      commit_index (raft s') = N.max (commit_index (raft s1)) (N.min lc (N.of_nat (length (merge (log (raft s1)) es))))).
    { destruct Hs as [store ->]. by split_and!. }
    destruct Hf as (Hrole' & Ht' & Hl' & Hc'). rewrite El in Hl'. rewrite El, Ec in Hc'.
    split; [by right|right; split; [by split|]]. 
    intros effects ([] & s3 & _ & [= <- Hs3])%bind_Ret. exists (append_effects (raft s1) es lc). split.
    + by apply (append_entries_quiet (E := string) p pt es lc s1 _ _ H2).
    + rewrite RaftTheorems.last_index_after by apply Ha. unfold append_entries_response. by rewrite Ht', <-Ht.
Qed.

(** ** Requests for votes *)

(** A request for votes is sent when the node enters the term it names, and
    tells the log the node then has. *)
Lemma vote_request_says s ev effects s' t c li lt :
  event_fits (raft s) ev → run_event ev s = Ret effects s' →
  Broadcast (RaftRequestVote t c li lt) ∈ effects →
  t = current_term (raft s') ∧ current_term (raft s) < t ∧ role (raft s') ≠ Follower ∧
  li = last_log_index (raft s) ∧ lt = last_log_term (raft s).
Proof.
  intros (_ & Ht & _) Hrun Hin.
  destruct (vote_effects ev s effects s' _ Hrun Hin) as [Hq|[(? & ? & ? & ? & ? & ? & ? & _ & [=] & _)|
    [(now & peers & ? & ? & ? & -> & _)|(? & ? & ? & ? & ? & ? & ? & ? & ? & _ & (? & ? & ? & [=]))]]]; [done|].
  cbn [run_event] in Hrun. unfold on_tick in Hrun. apply bind_Ret in Hrun as ([] & s1 & H1 & Hrun).
  apply update_participants_frame in H1 as (E1 & _ & _ & _ & El & _).
  rewrite bind_gets in Hrun. destruct (decide _).
  { exfalso. destruct (heartbeat_due _ _); [rewrite bind_update, bind_gets in Hrun|]; injection Hrun as <- _;
      [|by apply not_elem_of_nil in Hin].
    pose proof (append_effects_quiet (raft (s1 <| raft ::= λ r, r <| last_heartbeat_sent_at := Some now |> |>))) as Hq.
    rewrite Forall_forall in Hq. by specialize (Hq _ Hin). }
  destruct (decide _); [|injection Hrun as <- _; by apply not_elem_of_nil in Hin].
  apply bind_Ret in Hrun as (won & s2 & H2 & Hrun).
  pose proof (leads_Ret _ _ _ _ _ (start_election_log s1 now) H2) as (El2 & _ & _).
  destruct (start_election_stands (E := string) now s1 s2) as (T2 & _ & R2 & _); [by rewrite E1|by rewrite H2|].
  rewrite bind_gets in Hrun. cbv zeta in Hrun.
  assert (Hlast : last_log_index (raft s2) = last_log_index (raft s) ∧ last_log_term (raft s2) = last_log_term (raft s)).
  { unfold last_log_index, last_log_term. by rewrite El2, El. }
  assert (Hcase : ∃ more, effects = Broadcast (RaftRequestVote (current_term (raft s2)) (peer_id (raft s2))
    (last_log_index (raft s2)) (last_log_term (raft s2))) :: more ∧ Forall quiet more ∧ same_role s2 s').
  { destruct won; [|injection Hrun as <- <-; by eexists].
    apply bind_Ret in Hrun as (more & s3 & H3 & [= <- <-]). eexists. split; [done|].
    split; [by eapply append_leader_noop_quiet|]. exact (leads_Ret _ _ _ _ _ (append_leader_noop_role s2) H3). }
  destruct Hcase as (more & -> & Hmore & (R3 & T3 & _)). apply elem_of_cons in Hin as [Hin|Hin].
  - injection Hin as -> -> -> ->. destruct Hlast as [-> ->]. split_and!; [done|lia|congruence|done|done].
  - rewrite Forall_forall in Hmore. by specialize (Hmore _ Hin).
Qed.

(** An answer to AppendEntries is the one [handle_append_says] describes. *)
Lemma answer_sent ev s effects s' d t ok m :
  run_event ev s = Ret effects s' → Send d (RaftAppendEntriesResponse t ok m) ∈ effects →
  ∃ draw t0 l p pt rbs lc now, ev = EvAppendEntries draw t0 l p pt rbs lc d now.
Proof.
  intros Hrun Hin.
  destruct (vote_effects ev s effects s' _ Hrun Hin) as [Hq|[(? & ? & ? & ? & ? & ? & ? & _ & [=] & _)|
    [(? & ? & ? & ? & ? & _ & [=])|(? & ? & ? & ? & ? & ? & ? & ? & ? & -> & (? & ? & ? & [= -> -> -> ->]))]]];
    [done|]. eauto 10.
Qed.
End steps.
End SafetySteps.
