(* ===== verification/ClusterSafety.v ===== *)
(** * Safety of committed entries in a cluster

    Raft promises that a committed entry is in the log of every later leader and
    that no two nodes commit different entries at one index.  The code breaks
    both (ClusterExamples.v), in two ways: it takes the rejection of an old
    AppendEntries request for a statement about its present log, and it commits
    what the request did not vouch for.  Here both promises are proved of every
    execution in which neither happens ([vouched_for]): no AppendEntries request
    is delivered to a node of a later term, and none moves a follower's commit
    index beyond the last entry it vouches for.  Messages may still be delayed,
    reordered, duplicated and lost.

    The proof extends the histories of LogMatching.v by the logs of candidates
    when they stood for election ([bid]) and by the prefixes of a term's history
    that each node held while it was in the term ([acked]). *)

From S2P Require Import Prelude Platform Crypto Transactions Storage Messages RaftLogStore Raft RaftFacts RaftInvariant RaftTheorems LogSteps Cluster LogMatching SafetySteps.

Module ClusterSafety.
Import RaftConsensus LogSteps Cluster Election LogMatching SafetySteps.

(** ** Logs that share a prefix *)
Section logs.
Implicit Types (l g h : list RaftLogEntry) (hist : N → list RaftLogEntry).

(** [l] holds the first [n] entries of [g]. *)
Definition holds (n : nat) l g : Prop := take n l = take n g ∧ (n ≤ length g)%nat.

#[export] Instance holds_dec n l g : Decision (holds n l g).
Proof. unfold holds. apply _. Defined.

Lemma holds_length n l g : holds n l g → (n ≤ length l)%nat.
Proof. intros [H Hn]. apply (f_equal length) in H. rewrite !length_take in H. lia. Qed.

Lemma holds_refl n l : (n ≤ length l)%nat → holds n l l.
Proof. by split. Qed.

Lemma holds_sym n l g : holds n l g → holds n g l.
Proof. intros H. pose proof (holds_length _ _ _ H). destruct H. by split. Qed.

Lemma holds_trans n l g h : holds n l g → holds n g h → holds n l h.
Proof. intros [H1 _] [H2 ?]. split; [congruence|done]. Qed.

Lemma holds_le m n l g : (m ≤ n)%nat → holds n l g → holds m l g.
Proof.
  intros Hm [H Hn]. split; [|lia]. apply (f_equal (take m)) in H. by rewrite !take_take, !Nat.min_l in H by lia.
Qed.

Lemma holds_prefix n l l' g : holds n l g → l `prefix_of` l' → holds n l' g.
Proof.
  intros H Hp. pose proof (holds_length _ _ _ H). destruct H as [H ?].
  split; [|done]. rewrite <-H. by apply take_prefix.
Qed.

Lemma holds_lookup n l g k : holds n l g → (k < n)%nat → l !! k = g !! k.
Proof. intros [H _] Hk. rewrite <-(lookup_take_lt l n k), <-(lookup_take_lt g n k) by done. by rewrite H. Qed.

(** A traced log holds the history of the term of each of its entries. *)
Lemma traced_holds hist l k e : traced hist l → l !! k = Some e → holds (S k) l (hist (term e)).
Proof.
  intros Hl Hk. specialize (Hl k e Hk). split; [done|]. apply (f_equal length) in Hl.
  rewrite !length_take in Hl. apply lookup_lt_Some in Hk. lia.
Qed.

Lemma traced_holds_term hist l g p t :
  traced hist l → traced hist g → term_in l p = Some t → term_in g p = Some t → holds (N.to_nat p) l g.
Proof.
  intros Hl Hg H1 H2. destruct (traced_agree hist l g p t) as [H Hn]; [done..|].
  split; [done|]. apply (f_equal length) in H. rewrite !length_take in H. lia.
Qed.

Definition last_term l : N := match last l with Some e => term e | None => 0 end.

Lemma last_term_traced hist l :
  traced hist l → l ≠ [] → ∃ k e, length l = S k ∧ l !! k = Some e ∧ last_term l = term e ∧
    holds (S k) l (hist (last_term l)).
Proof.
  intros Hl Hne. destruct (length l) as [|k] eqn:El; [by apply nil_length_inv in El|].
  destruct (lookup_lt_is_Some_2 l k) as [e He]; [lia|].
  assert (Hlast : last_term l = term e) by (unfold last_term; rewrite last_lookup, El; cbn; by rewrite He).
  exists k, e. split_and!; [done..|]. rewrite Hlast. by apply traced_holds.
Qed.

(** The entry at [n] of the history of [t] is of term [t]. *)
Definition marked hist (t : N) (n : nat) : Prop := ∃ k e, n = S k ∧ hist t !! k = Some e ∧ term e = t.

(** A log that is at least as up to date as one that holds a marked prefix
    holds it too, or a leader in between did not. *)
Lemma up_to_date_holds hist t n l b u :
  (∀ t k e, hist t !! k = Some e → term e ≤ t) →
  traced hist l → traced hist b → marked hist t n → holds n l (hist t) →
  (∀ k e, b !! k = Some e → term e < u) →
  last_term l < last_term b ∨ (last_term b = last_term l ∧ (length l ≤ length b)%nat) →
  holds n b (hist t) ∨ ∃ t', t < t' ∧ t' < u ∧ hist t' ≠ [] ∧ ¬ holds n (hist t') (hist t).
Proof.
  intros Hbound Hl Hb (k & e & -> & He & Ht) Hh Hu Hup.
  pose proof (holds_length _ _ _ Hh) as Hlen.
  destruct (last_term_traced hist l Hl) as (kl & el & Ekl & _ & _ & Hhl); [by intros ->; cbn in Hlen; lia|].
  assert (Hge : t ≤ last_term l).
  { rewrite <-Ht. apply (Hbound _ k). rewrite <-(holds_lookup _ _ _ k Hhl) by lia.
    by rewrite (holds_lookup _ _ _ k Hh) by lia. }
  assert (Hne : b ≠ []).
  { intros ->. destruct Hup as [Hup|[_ Hup]]; [unfold last_term in Hup at 2; cbn in Hup; lia|cbn in Hup; lia]. }
  destruct (last_term_traced hist b Hb Hne) as (kb & eb & Ekb & Hkb & Etb & Hhb).
  destruct Hup as [Hlt|[Heq Hle]].
  - destruct (decide (holds (S k) (hist (last_term b)) (hist t))) as [Hd|Hd].
    + left. eapply holds_trans; [|exact Hd]. eapply holds_le; [|exact Hhb].
      destruct (decide (S k ≤ S kb)%nat); [done|exfalso].
      assert (Hx : hist t !! kb = Some eb).
      { rewrite <-(holds_lookup _ _ _ kb Hd) by lia. by rewrite <-(holds_lookup _ _ _ kb Hhb) by lia. }
      apply Hbound in Hx. lia.
    + right. exists (last_term b). split_and!; [lia|rewrite Etb; by eapply Hu| |done].
      intros Hnil. destruct Hhb as [_ Hhb]. rewrite Hnil in Hhb. cbn in Hhb. lia.
  - left. rewrite Heq in Hhb. eapply holds_trans; [eapply holds_le; [|exact Hhb]; lia|].
    eapply holds_trans; [|exact Hh]. apply holds_sym. eapply holds_le; [|exact Hhl]. lia.
Qed.

(** Merging part of a history keeps what the log shares with it and adds the
    part. *)
Lemma merge_keeps n l g es p :
  contiguous g → holds n l g → (N.to_nat p ≤ length l)%nat → es `prefix_of` drop (N.to_nat p) g →
  holds n (merge l es) g.
Proof.
  intros Hg Hh Hp [rest Hes]. pose proof (holds_length _ _ _ Hh) as Hn.
  assert (Hat : ∀ j e, es !! j = Some e → g !! (N.to_nat p + j)%nat = Some e).
  { intros j e Hj. rewrite <-lookup_drop, Hes. by apply lookup_app_l_Some. }
  assert (Hm : take (N.to_nat (N.of_nat n)) (merge l es) = take (N.to_nat (N.of_nat n)) l).
  { apply (merge_prefix l es p); [|lia..|].
    - intros j e Hj. rewrite (Hg _ _ (Hat j e Hj)). lia.
    - intros e [j Hj]%list_elem_of_lookup_1 Hle (x & Hx & Hne). apply Hat in Hj as Hgj. apply Hne.
      pose proof (Hg _ _ Hgj) as Hi. unfold lookup_index in Hx. rewrite decide_False in Hx by lia.
      replace (N.to_nat (index e - 1)) with (N.to_nat p + j)%nat in Hx by lia.
      rewrite (holds_lookup _ _ _ _ Hh) in Hx by lia. congruence. }
  rewrite Nat2N.id in Hm. destruct Hh as [Hh ?]. split; [congruence|done].
Qed.

Lemma merge_holds hist l g es p :
  traced hist g → traced hist (merge l es) → contiguous g → holds (N.to_nat p) l g →
  es `prefix_of` drop (N.to_nat p) g →
  holds (N.to_nat p + length es) (merge l es) g.
Proof.
  intros Hg Hm Hc Hh Hpre. pose proof (holds_length _ _ _ Hh) as Hlen.
  destruct (length es) as [|k] eqn:El.
  { apply nil_length_inv in El as ->. by rewrite Nat.add_0_r. }
  pose proof Hpre as [rest Hes].
  assert (Hat : ∀ j e, es !! j = Some e → g !! (N.to_nat p + j)%nat = Some e).
  { intros j e Hj. rewrite <-lookup_drop, Hes. by apply lookup_app_l_Some. }
  destruct (lookup_lt_is_Some_2 es k) as [e He]; [lia|]. apply Hat in He as Hge.
  assert (Hafter : contiguous_after p es).
  { intros j x Hj. rewrite (Hc _ _ (Hat j x Hj)). lia. }
  destruct (merge_agrees l es p Hafter ltac:(lia) e) as (x & Hx & Ht); [by eapply list_elem_of_lookup_2|].
  replace (N.to_nat p + S k)%nat with (N.to_nat (index e)) by (rewrite (Hc _ _ Hge); lia).
  apply (traced_holds_term hist _ _ _ (term e)); [done|done|..]; unfold term_in;
    rewrite decide_False by (rewrite (Hc _ _ Hge); lia).
  - by rewrite Hx, <-Ht.
  - unfold lookup_index. rewrite decide_False by (rewrite (Hc _ _ Hge); lia). rewrite (Hc _ _ Hge).
    replace (N.to_nat _) with (N.to_nat p + k)%nat by lia. by rewrite Hge.
Qed.
End logs.

(** ** Executions in which AppendEntries requests vouch for what they do *)

(** The condition on an AppendEntries request that comes to a node: its term
    is not older than the node's, and the commit index it lets the node move to
    is not beyond the last entry it vouches for (nor is the one the node has
    already). *)
Definition vouched_for `{Platform} (r : RaftConsensus) (ev : raft_event) : Prop :=
  match ev with
  | EvAppendEntries _ t _ p _ rbs lc _ _ =>
      current_term r ≤ t ∧
      N.min lc (N.of_nat (length (merge (log r) (rb_entry <$> rbs)))) ≤
        N.max (commit_index r) (p + N.of_nat (length rbs))
  | _ => True
  end.

Section order.
Context {BP : BuildProfile} {P : Platform} {HO : HashOrder}.
Context `{!Serde PersistedRaftLogState, !Serde (list SignedTransaction), !Serde BlockFile}.
Context (members : gset PeerId).

(** [cluster_step], for events that satisfy a condition on the node they
    come to. *)
Inductive step_where (allowed : RaftConsensus → raft_event → Prop) (c : Cluster) : Cluster → Prop :=
  | where_ok i s ev effects s' ms :
      nodes c !! i = Some s → enabled members c i ev → event_fits (raft s) ev → allowed (raft s) ev →
      run_event ev s = Ret effects s' → sent_for members i effects ms →
      step_where allowed c (mkCluster (<[i := s']> (nodes c)) (ms ++ sent c))
  | where_err i s ev err s' :
      nodes c !! i = Some s → enabled members c i ev → event_fits (raft s) ev → allowed (raft s) ev →
      run_event ev s = Err err s' →
      step_where allowed c (mkCluster (<[i := s']> (nodes c)) (sent c)).

Lemma step_where_step allowed c c' : step_where allowed c c' → cluster_step members c c'.
Proof. intros []; [by eapply step_ok|by eapply step_err]. Qed.

Definition reachable_where allowed (c : Cluster) : Prop :=
  ∃ c0, fresh_start members c0 ∧ rtc (step_where allowed) c0 c.
Definition reachable_vouched : Cluster → Prop := reachable_where vouched_for.

Lemma where_reachable allowed c : reachable_where allowed c → reachable_fresh members c.
Proof.
  intros (c0 & H0 & H). exists c0. split; [done|].
  eapply rtc_subrel; [|exact H]. intros c1 c2. apply step_where_step.
Qed.
End order.

(** ** The invariant *)

(** What the proof remembers of an execution: the votes cast, the winners, the
    histories, the logs at candidacy, and who held how much of a term's history
    while in that term. *)
Record Ghost : Type := mkGhost {
  cast : PeerId → N → PeerId → Prop;
  won : N → PeerId → Prop;
  hist : N → list RaftLogEntry;
  bid : N → PeerId → list RaftLogEntry;
  acked : PeerId → N → nat → Prop;
}.

Section invariant.
Context {BP : BuildProfile} {P : Platform} {HO : HashOrder}.
Context `{!Serde PersistedRaftLogState, !Serde (list SignedTransaction), !Serde BlockFile}.
Context (members : gset PeerId).
Implicit Types (c : Cluster) (G : Ghost) (t u : N) (n : nat) (v x i j : PeerId) (s : RaftS).

(** A leader between [t] and [u] was elected without the first [n] entries of
    [t]'s history. *)
Definition lost G t n u : Prop :=
  ∃ t' j, t < t' ∧ t' < u ∧ won G t' j ∧ ¬ holds n (bid G t' j) (hist G t).

Definition majority_of (Q : gset PeerId) : Prop := Q ⊆ members ∧ (size members / 2 + 1 ≤ size Q)%nat.

(** A majority held them in term [t]: with a marked [n], they are committed. *)
Definition agreed G t n : Prop := ∃ Q, majority_of Q ∧ ∀ v, v ∈ Q → acked G v t n.

(** The first [n] entries of [l] were committed in a term up to [u]. *)
Definition supported G l u (n : N) : Prop :=
  n = 0 ∨ ∃ t k, t ≤ u ∧ (N.to_nat n ≤ k)%nat ∧ marked (hist G) t k ∧ agreed G t k ∧
    holds (N.to_nat n) l (hist G t).

Definition in_term c i t : Prop := ∀ s, nodes c !! i = Some s → t ≤ current_term (raft s).

Definition message_safe c G (m : Message) : Prop :=
  match body m with
  | RaftRequestVote t x li lt =>
      in_term c x t ∧ li = N.of_nat (length (bid G t x)) ∧ lt = last_term (bid G t x)
  | RaftAppendEntries t _ _ _ _ lc => in_term c (from m) t ∧ supported G (hist G t) t lc
  | RaftAppendEntriesResponse t _ k =>
      k = 0 ∨ acked G (from m) t (N.to_nat k) ∨ in_term c (to m) (t + 1)
  | _ => True
  end.

Record safe_inv c G : Prop := {
  si_match : match_inv members c (cast G) (won G) (hist G);
  si_hist t k e : hist G t !! k = Some e → term e ≤ t;
  si_log i s k e : nodes c !! i = Some s → log (raft s) !! k = Some e → term e ≤ current_term (raft s);
  si_bid t i : traced (hist G) (bid G t i);
  si_bid_term t i k e : bid G t i !! k = Some e → term e < t;
  si_bid_won t i : won G t i → bid G t i `prefix_of` hist G t;
  si_bid_stands i s : nodes c !! i = Some s → role (raft s) = Candidate →
    log (raft s) = bid G (current_term (raft s)) i;
  si_down v t n m : acked G v t n → (m ≤ n)%nat → acked G v t m;
  si_length v t n : acked G v t n → (n ≤ length (hist G t))%nat;
  si_kept i s t n : nodes c !! i = Some s → acked G i t n →
    t ≤ current_term (raft s) ∧
    (marked (hist G) t n → holds n (log (raft s)) (hist G t) ∨ lost G t n (current_term (raft s) + 1));
  si_asked v u x : cast G v u x → in_term c x u;
  si_cast v u x t n : cast G v u x → (∀ j, ¬ won G u j) → acked G v t n → marked (hist G) t n → t < u →
    holds n (bid G u x) (hist G t) ∨ lost G t n u;
  si_won u x : won G u x → ∃ Q, majority_of Q ∧ ∀ v, v ∈ Q → cast G v u x ∧
    ∀ t n, acked G v t n → marked (hist G) t n → t < u → holds n (bid G u x) (hist G t) ∨ lost G t n u;
  si_matched i s p m : nodes c !! i = Some s → role (raft s) = Leader → p ≠ i →
    match_indexes (raft s) !! p = Some m → m = 0 ∨ acked G p (current_term (raft s)) (N.to_nat m);
  si_commit i s : nodes c !! i = Some s →
    supported G (log (raft s)) (current_term (raft s)) (commit_index (raft s));
  si_sent m : m ∈ sent c → message_safe c G m;
}.

(** Every leader of a later term was elected with what is committed. *)
Lemma leaders_complete c G t n u x :
  safe_inv c G → marked (hist G) t n → agreed G t n → won G u x → t < u → holds n (bid G u x) (hist G t).
Proof.
  intros Hinv Hm (Q1 & [S1 M1] & A1). revert x.
  induction u as [u IH] using (well_founded_induction N.lt_wf_0). intros x Hw Ht.
  destruct (si_won _ _ Hinv _ _ Hw) as (Q2 & [S2 M2] & A2).
  destruct (majorities_meet members Q1 Q2 S1 S2 M1 M2) as (v & V1 & V2).
  destruct (proj2 (A2 v V2) t n (A1 v V1) Hm Ht) as [|(t' & j & H1 & H2 & Hj & Hn)]; [done|].
  exfalso. by apply Hn, IH.
Qed.

Lemma supported_le G l u (m n : N) : m ≤ n → supported G l u n → supported G l u m.
Proof.
  intros Hm [->|(t & k & Ht & Hk & Hmark & Ha & Hh)]; [left; lia|].
  right. exists t, k. split_and!; [done|lia|done|done|]. eapply holds_le; [|done]. lia.
Qed.

Lemma fresh_safe c : fresh_start members c →
  safe_inv c (mkGhost (λ _ _ _, False) (λ _ _, False) (λ _, []) (λ _ _, []) (λ _ _ _, False)).
Proof.
  intros Hf. pose proof (fresh_inv members c Hf) as Hmatch. destruct Hf as [(Hs & _ & Hn) Hempty].
  split; cbn; try done.
  - intros i s k e Hi Hk. by rewrite (Hempty i s Hi), lookup_nil in Hk.
  - intros i s Hi. by rewrite (Hempty i s Hi).
  - intros i s p m Hi Hr. destruct (Hn i s Hi) as (? & ? & ? & ? & ? & _ & E). by rewrite E in Hr.
  - intros i s Hi. left. destruct (Hn i s Hi) as (? & ? & es & ci & ? & _ & E).
    pose proof (Hempty i s Hi) as El. rewrite E in El |- *. cbn in El |- *. rewrite El. cbn. lia.
  - rewrite Hs. intros m Hm. by apply not_elem_of_nil in Hm.
Qed.

(** A delivered message was sent. *)
Lemma delivered c i ev :
  enabled members c i ev →
  match ev with
  | EvRequestVote t x li lt f => ∃ m, m ∈ sent c ∧ to m = i ∧ from m = f ∧ body m = RaftRequestVote t x li lt
  | EvAppendEntries _ t l p pt rbs lc f _ =>
      ∃ m, m ∈ sent c ∧ to m = i ∧ from m = f ∧ body m = RaftAppendEntries t l p pt rbs lc
  | EvAppendEntriesResponse t f ok k =>
      ∃ m, m ∈ sent c ∧ to m = i ∧ from m = f ∧ body m = RaftAppendEntriesResponse t ok k
  | _ => True
  end.
Proof. intros [m ev' Hin Hto Hdel|?|?|?|?]; [|done..]. destruct Hdel; eauto. Qed.

(** ** One event *)

(** The logs at candidacy after node [i] went from [s] to [s']. *)
Definition rebid G i s s' : N → PeerId → list RaftLogEntry := λ t x,
  if decide (x = i ∧ t = current_term (raft s') ∧ current_term (raft s) < t ∧ role (raft s') ≠ Follower)
  then log (raft s) else bid G t x.
(** Whatever it then holds of its term's history. *)
Definition reacked G i s' : PeerId → N → nat → Prop := λ v t n,
  acked G v t n ∨
  (v = i ∧ t = current_term (raft s') ∧ holds n (log (raft s')) (retraced (hist G) (raft s') t)).
Definition after_ghost G i s s' : Ghost :=
  mkGhost (recast (cast G) i (raft s')) (rewon (won G) i (raft s')) (retraced (hist G) (raft s'))
    (rebid G i s s') (reacked G i s').
Definition after_cluster c i s' (ms : list Message) : Cluster := mkCluster (<[i := s']> (nodes c)) (ms ++ sent c).

Section step.
Context (c : Cluster) (G : Ghost) (i : PeerId) (s : RaftS) (ev : raft_event) (s' : RaftS) (ms : list Message).
Notation c' := (after_cluster c i s' ms).
Notation G' := (after_ghost G i s s').
Context (Hinv : safe_inv c G) (Hi : nodes c !! i = Some s) (Hen : enabled members c i ev).
Context (Hfit : event_fits (raft s) ev) (Hord : vouched_for (raft s) ev).
Context (Hrun : final_state (run_event ev s) = Some s').
Context (Hmatch' : match_inv members c' (cast G') (won G') (hist G')).

Let Hmatch : match_inv members c (cast G) (won G) (hist G) := si_match _ _ Hinv.
Let Hc : cluster_inv members c (cast G) := mi_cluster _ _ _ _ _ Hmatch.
Let Hc' : cluster_inv members c' (cast G') := mi_cluster _ _ _ _ _ Hmatch'.

Lemma after_i : nodes c' !! i = Some s'.
Proof. apply lookup_insert_eq. Qed.

Lemma after_other j sj : nodes c' !! j = Some sj → (j = i ∧ sj = s') ∨ (j ≠ i ∧ nodes c !! j = Some sj).
Proof. cbn. rewrite lookup_insert. case_decide; [intros [= <-]; by left|by right]. Qed.

Lemma before_wf : raft_wf (raft s).
Proof. by eapply (ci_wf _ _ _ Hc). Qed.
Lemma after_wf : raft_wf (raft s').
Proof. by eapply (ci_wf _ _ _ Hc'), after_i. Qed.
Lemma event_facts : step_facts (raft s) (raft s').
Proof. by destruct (node_step members c (cast G) i s ev s' Hc Hi Hen Hfit Hrun) as (_ & ? & _). Qed.
Lemma event_roles : roles s s'.
Proof. exact (run_event_roles s ev Hfit s' Hrun). Qed.
Lemma event_log : log_change ev s s'.
Proof. exact (run_event_log_change s ev s' before_wf Hfit Hrun). Qed.
Lemma event_term : current_term (raft s) ≤ current_term (raft s').
Proof. apply (ro_term _ _ event_roles). Qed.

Lemma in_term_after x t : in_term c x t → in_term c' x t.
Proof.
  intros H sx [[-> ->]|[_ Hx]]%after_other; [|by apply H]. pose proof event_term. specialize (H s Hi). lia.
Qed.

Lemma cast_after v t x : cast G v t x → cast G' v t x.
Proof. by left. Qed.
Lemma won_after t x : won G t x → won G' t x.
Proof. by left. Qed.
Lemma acked_after v t n : acked G v t n → acked G' v t n.
Proof. by left. Qed.

Lemma hist_after : extends (hist G) (hist G').
Proof.
  by destruct (log_traced members c c' (cast G) (cast G') (won G) (hist G) i s ev s' Hmatch Hc' cast_after Hi
    after_i Hen event_roles event_log).
Qed.

Lemma length_after t : (length (hist G t) ≤ length (hist G' t))%nat.
Proof. apply prefix_length, hist_after. Qed.

Lemma holds_after n l t : holds n l (hist G t) → holds n l (hist G' t).
Proof. intros H. apply holds_sym. eapply holds_prefix; [by apply holds_sym|apply hist_after]. Qed.

Lemma holds_before n l t : (n ≤ length (hist G t))%nat → holds n l (hist G' t) → holds n l (hist G t).
Proof.
  intros Hn H. eapply holds_trans; [exact H|]. apply holds_sym, holds_after. by apply holds_refl.
Qed.

Lemma marked_after t n : marked (hist G) t n → marked (hist G') t n.
Proof. intros (k & e & -> & Hk & Ht). exists k, e. split_and!; [done| |done]. by eapply prefix_lookup_Some, hist_after. Qed.

Lemma marked_before t n : (n ≤ length (hist G t))%nat → marked (hist G') t n → marked (hist G) t n.
Proof.
  intros Hn (k & e & -> & Hk & Ht). exists k, e. split_and!; [done| |done].
  destruct (lookup_lt_is_Some_2 (hist G t) k) as [x Hx]; [lia|].
  pose proof (prefix_lookup_Some _ _ _ _ Hx (hist_after t)) as Hx'. congruence.
Qed.

Lemma bid_in_term t x : in_term c x t → bid G' t x = bid G t x.
Proof.
  intros H. cbn. unfold rebid. rewrite decide_False; [done|]. intros (-> & _ & Hlt & _). specialize (H s Hi). lia.
Qed.

Lemma won_in_term t x : won G t x → in_term c x t.
Proof. intros Hw sx Hx. by destruct (mi_spent _ _ _ _ _ Hmatch _ _ _ Hw Hx). Qed.

Lemma lost_after t n u u' : (n ≤ length (hist G t))%nat → u ≤ u' → lost G t n u → lost G' t n u'.
Proof.
  intros Hn Hu (t' & j & H1 & H2 & Hj & Hh). exists t', j. split_and!; [done|lia|by apply won_after|].
  rewrite (bid_in_term t' j) by by apply won_in_term. intros H. by apply Hh, holds_before.
Qed.

(** What was known of a log at candidacy, or of a node's log. *)
Lemma known_after t n u u' l :
  (n ≤ length (hist G t))%nat → u ≤ u' →
  holds n l (hist G t) ∨ lost G t n u → holds n l (hist G' t) ∨ lost G' t n u'.
Proof. intros Hn Hu [H|H]; [left; by apply holds_after|right; by eapply lost_after]. Qed.

Lemma agreed_after t n : agreed G t n → agreed G' t n.
Proof. intros (Q & HQ & Ha). exists Q. split; [done|]. intros v Hv. by apply acked_after, Ha. Qed.

Lemma supported_after l l' u u' m :
  u ≤ u' → take (N.to_nat m) l' = take (N.to_nat m) l → supported G l u m → supported G' l' u' m.
Proof.
  intros Hu Hl [->|(t & k & Ht & Hk & Hm & Ha & Hh)]; [by left|]. right. exists t, k.
  split_and!; [lia|done|by apply marked_after|by apply agreed_after|]. apply holds_after.
  destruct Hh as [Hh ?]. split; [congruence|done].
Qed.

(** *** An AppendEntries message *)

Record append_facts (t p pt : N) (es : list RaftLogEntry) (lc : N) (f : PeerId) : Prop := {
  af_sender : in_term c f t;
  af_term : current_term (raft s) ≤ t;
  af_previous : term_in (hist G t) p = Some pt;
  af_entries : es `prefix_of` drop (N.to_nat p) (hist G t);
  af_commit : supported G (hist G t) t lc;
  af_vouched : N.min lc (N.of_nat (length (merge (log (raft s)) es))) ≤
    N.max (commit_index (raft s)) (p + N.of_nat (length es));
  af_outcome : refused s s' ∨ accepted s s' t p pt es lc;
}.

Lemma append_event draw t l p pt rbs lc f now :
  ev = EvAppendEntries draw t l p pt rbs lc f now → append_facts t p pt (rb_entry <$> rbs) lc f.
Proof.
  intros Hev. pose proof (delivered c i ev Hen) as Hm. rewrite Hev in Hm. destruct Hm as (m & Hin & _ & <- & Hb).
  pose proof (mi_sent _ _ _ _ _ Hmatch m Hin) as Htr. unfold message_traced in Htr. rewrite Hb in Htr.
  pose proof (si_sent _ _ Hinv m Hin) as Hsafe. unfold message_safe in Hsafe. rewrite Hb in Hsafe.
  destruct Hfit as (_ & _ & Hroom). rewrite Hev in Hroom. pose proof Hord as Ho. rewrite Hev in Ho.
  destruct Ho as [Hterm Hv]. destruct Htr as [Hp Hes], Hsafe as [Hfrom Hlc].
  split; [done..| |].
  - rewrite length_fmap. exact Hv.
  - assert (Hr : final_state (on_append_entries draw t l p pt rbs lc (from m) now s) = Some s') by (by rewrite Hev in Hrun).
    destruct (handle_append_says draw t l p pt rbs lc (from m) now s s' before_wf Hroom Hr) as [_ [[? _]|[? _]]]; auto.
Qed.

Lemma before_traced : traced (hist G) (log (raft s)).
Proof. by eapply (mi_logs _ _ _ _ _ Hmatch). Qed.
Lemma hist_traced t : traced (hist G) (hist G t) ∧ contiguous (hist G t).
Proof. apply (mi_hist _ _ _ _ _ Hmatch). Qed.

Lemma accepted_holds t p pt es lc f :
  append_facts t p pt es lc f → accepted s s' t p pt es lc →
  holds (N.to_nat p) (log (raft s)) (hist G t) ∧ holds (N.to_nat p + length es) (log (raft s')) (hist G t) ∧
  (log (raft s') = log (raft s) ∨ ∃ n, log (raft s') = take n (hist G t)).
Proof.
  intros Haf Hac. destruct (hist_traced t) as [Ht Hcont].
  assert (Hp : holds (N.to_nat p) (log (raft s)) (hist G t)).
  { apply (traced_holds_term (hist G) _ _ p pt); [apply before_traced|done| |apply Haf].
    rewrite <-term_in_log by apply before_wf. apply (ac_checks _ _ _ _ _ _ _ Hac). }
  pose proof (holds_length _ _ _ Hp) as Hlen. pose proof (af_entries _ _ _ _ _ _ Haf) as Hes.
  assert (Hm : merge (log (raft s)) es = log (raft s) ∨ ∃ n, merge (log (raft s)) es = take n (hist G t)).
  { apply (merge_history (hist G) _ _ p); [done|done|apply before_traced|done|apply Hp|done]. }
  rewrite (ac_log _ _ _ _ _ _ _ Hac). split_and!; [done| |done].
  apply (merge_holds (hist G)); [done| |done..].
  destruct Hm as [->|[n ->]]; [apply before_traced|by apply traced_take].
Qed.

(** *** The log *)

(** Entries of a term's history that a node has it keeps, or a later leader
    came without them. *)
Lemma event_keeps t n :
  t ≤ current_term (raft s) → (n ≤ length (hist G t))%nat → holds n (log (raft s)) (hist G t) →
  holds n (log (raft s')) (hist G t) ∨ lost G t n (current_term (raft s') + 1).
Proof.
  intros Ht Hn Hh.
  destruct event_log as [->|e _ -> _|draw t2 l p pt rbs lc f now Hev Hr _ _]; [by left|left|].
  { eapply holds_prefix; [done|]. by apply prefix_app_r. }
  pose proof (append_event _ _ _ _ _ _ _ _ _ Hev) as Haf.
  destruct (af_outcome _ _ _ _ _ _ Haf) as [[-> _]|Hac]; [by left|].
  destruct (accepted_holds _ _ _ _ _ _ Haf Hac) as (Hp & _ & _). pose proof (holds_length _ _ _ Hp).
  rewrite (ac_log _ _ _ _ _ _ _ Hac), (ac_term _ _ _ _ _ _ _ Hac).
  destruct (decide (holds n (hist G t2) (hist G t))) as [Hd|Hd].
  - left. eapply holds_trans; [|exact Hd]. eapply merge_keeps; [apply hist_traced| |done|apply Haf].
    eapply holds_trans; [exact Hh|]. by apply holds_sym.
  - pose proof (af_term _ _ _ _ _ _ Haf) as Hle.
    assert (t < t2). { destruct (decide (t = t2)) as [->|]; [|lia]. exfalso. by apply Hd, holds_refl. }
    destruct (mi_unwon _ _ _ _ _ Hmatch t2) as [Hnil|[j Hj]].
    + left. pose proof (af_entries _ _ _ _ _ _ Haf) as Hes. rewrite Hnil in Hes.
      rewrite drop_nil in Hes. apply prefix_nil_inv in Hes. by rewrite Hes.
    + right. exists t2, j. split_and!; [done|lia|done|]. intros Hb. apply Hd.
      eapply holds_prefix; [exact Hb|]. by apply (si_bid_won _ _ Hinv).
Qed.

Lemma after_log k e : log (raft s') !! k = Some e → term e ≤ current_term (raft s').
Proof.
  pose proof event_term as Ht. intros Hk.
  assert (Hold : log (raft s) !! k = Some e → term e ≤ current_term (raft s')).
  { intros H. pose proof (si_log _ _ Hinv _ _ _ _ Hi H). lia. }
  destruct event_log as [El|x _ El Hx|draw t2 l p pt rbs lc f now Hev Hr _ _].
  - rewrite El in Hk. auto.
  - rewrite El in Hk. apply lookup_app_Some in Hk as [Hk|[_ Hk]]; [auto|].
    apply list_lookup_singleton_Some in Hk as [_ <-]. lia.
  - pose proof (append_event _ _ _ _ _ _ _ _ _ Hev) as Haf.
    destruct (af_outcome _ _ _ _ _ _ Haf) as [[El _]|Hac]; [rewrite El in Hk; auto|].
    destruct (accepted_holds _ _ _ _ _ _ Haf Hac) as (_ & _ & [El|[n El]]); rewrite El in Hk; [auto|].
    apply lookup_take_Some in Hk as [Hk _]. rewrite (ac_term _ _ _ _ _ _ _ Hac). by eapply (si_hist _ _ Hinv).
Qed.

(** *** Histories and candidacies *)

Lemma leads_history : role (raft s') = Leader → log (raft s') = hist G' (current_term (raft s')).
Proof. intros Hr. by destruct (mi_leader _ _ _ _ _ Hmatch' _ _ after_i Hr). Qed.

Lemma after_hist t k e : hist G' t !! k = Some e → term e ≤ t.
Proof.
  cbn. unfold retraced. case_decide as Hd; [|apply (si_hist _ _ Hinv)]. destruct Hd as [_ ->]. apply after_log.
Qed.

Lemma after_bid t x : traced (hist G') (bid G' t x).
Proof.
  eapply traced_extends; [apply hist_after|]. cbn. unfold rebid.
  case_decide; [apply before_traced|apply (si_bid _ _ Hinv)].
Qed.

Lemma after_bid_term t x k e : bid G' t x !! k = Some e → term e < t.
Proof.
  cbn. unfold rebid. case_decide as Hd; [|apply (si_bid_term _ _ Hinv)].
  intros Hk. pose proof (si_log _ _ Hinv _ _ _ _ Hi Hk). lia.
Qed.

(** A node that stands or leads after the event appended to its log at most. *)
Lemma event_appends : role (raft s') ≠ Follower → log (raft s) `prefix_of` log (raft s').
Proof.
  intros Hr. destruct event_log as [->|e _ -> _|draw t2 l p pt rbs lc f now _ Hf _ _]; [done| |done].
  by apply prefix_app_r.
Qed.

Lemma new_bid t : current_term (raft s) < t → t = current_term (raft s') → role (raft s') ≠ Follower →
  bid G' t i = log (raft s).
Proof. intros H1 H2 H3. cbn. unfold rebid. by rewrite decide_True. Qed.

Lemma after_bid_won t x : won G' t x → bid G' t x `prefix_of` hist G' t.
Proof.
  intros [Hw|(Hr & -> & ->)].
  - rewrite (bid_in_term t x) by by apply won_in_term. etrans; [by apply (si_bid_won _ _ Hinv)|apply hist_after].
  - rewrite <-leads_history by done. assert (Hnf : role (raft s') ≠ Follower) by by rewrite Hr.
    destruct (ro_leader _ _ event_roles Hr) as [[Hr0 Ht]|Hlt].
    + rewrite bid_in_term by (intros s0 Hs0; rewrite Hi in Hs0; injection Hs0 as <-; lia).
      etrans; [|by apply event_appends]. rewrite Ht. destruct (role (raft s)) eqn:Er; [done| |].
      * by rewrite (si_bid_stands _ _ Hinv _ _ Hi Er).
      * destruct (mi_leader _ _ _ _ _ Hmatch _ _ Hi Er) as [Hw ->]. by apply (si_bid_won _ _ Hinv).
    + rewrite new_bid by done. by apply event_appends.
Qed.

Lemma after_stands j sj : nodes c' !! j = Some sj → role (raft sj) = Candidate →
  log (raft sj) = bid G' (current_term (raft sj)) j.
Proof.
  intros [[-> ->]|[_ Hj]]%after_other Hr.
  - assert (El : log (raft s') = log (raft s)).
    { destruct event_log as [->|e Hr' _ _|draw t2 l p pt rbs lc f now _ Hr' _ _]; [done|congruence..]. }
    rewrite El. destruct (ro_candidate _ _ event_roles Hr) as [[Hr0 Ht]|Hlt].
    + rewrite Ht, bid_in_term; [by apply (si_bid_stands _ _ Hinv)|]. intros s0 Hs0. rewrite Hi in Hs0. by injection Hs0 as <-.
    + symmetry. apply new_bid; [done|done|by rewrite Hr].
  - rewrite bid_in_term by (intros s0 Hs0; rewrite Hj in Hs0; injection Hs0 as <-; lia).
    by apply (si_bid_stands _ _ Hinv).
Qed.

(** *** What nodes hold *)

Lemma after_down v t n m : acked G' v t n → (m ≤ n)%nat → acked G' v t m.
Proof.
  intros [Ha|(-> & -> & Ha)] Hm; [left; by eapply (si_down _ _ Hinv)|right]. split_and!; [done..|]. by eapply holds_le.
Qed.

Lemma after_length v t n : acked G' v t n → (n ≤ length (hist G' t))%nat.
Proof.
  intros [Ha|(-> & -> & [_ Ha])]; [|done]. pose proof (si_length _ _ Hinv _ _ _ Ha). pose proof (length_after t). lia.
Qed.

Lemma after_kept j sj t n : nodes c' !! j = Some sj → acked G' j t n →
  t ≤ current_term (raft sj) ∧
  (marked (hist G') t n → holds n (log (raft sj)) (hist G' t) ∨ lost G' t n (current_term (raft sj) + 1)).
Proof.
  intros [[-> ->]|[Hne Hj]]%after_other [Ha|(Hv & -> & Hh)]; [| | |done].
  - destruct (si_kept _ _ Hinv _ _ _ _ Hi Ha) as [Ht Hk]. pose proof event_term as Hle.
    pose proof (si_length _ _ Hinv _ _ _ Ha) as Hn. split; [lia|]. intros Hm.
    apply (known_after _ _ (current_term (raft s') + 1)); [done|lia|].
    destruct Hk as [Hh|(t' & x & H1 & H2 & ? & ?)]; [by apply marked_before|by apply event_keeps|].
    right. exists t', x. split_and!; [done|lia|done|done].
  - split; [lia|]. intros _. by left.
  - destruct (si_kept _ _ Hinv _ _ _ _ Hj Ha) as [Ht Hk]. pose proof (si_length _ _ Hinv _ _ _ Ha) as Hn.
    split; [done|]. intros Hm. eapply known_after; [done|reflexivity|]. apply Hk. by apply marked_before.
Qed.

(** *** Votes *)

(** A new vote is the node's own, or an answer to a request. *)
Lemma new_cast v u x : cast G' v u x →
  cast G v u x ∨
  (v = i ∧ u = current_term (raft s') ∧ x = i ∧ current_term (raft s) < u ∧ role (raft s') ≠ Follower) ∨
  (v = i ∧ u = current_term (raft s') ∧ in_term c x u ∧
   ∃ li lt, candidate_log_is_up_to_date (raft s) li lt = true ∧
     li = N.of_nat (length (bid G u x)) ∧ lt = last_term (bid G u x)).
Proof.
  intros [Hcast|(-> & -> & Hv)]; [by left|].
  destruct (run_event_vote s ev s' x Hfit Hrun Hv) as [[Hv0 Ht]|[(-> & Hlt & Hr)|(t & li & lt & f & Hev & Ht & Hup)]].
  - left. rewrite Ht. by apply (ov_cast _ _ _ (ci_own _ _ _ Hc _ _ Hi)).
  - right; left. destruct (ci_node _ _ _ Hc _ _ Hi) as [Hid _]. by rewrite Hid.
  - right; right. pose proof (delivered c i ev Hen) as Hm. rewrite Hev in Hm. destruct Hm as (m & Hin & _ & _ & Hb).
    pose proof (si_sent _ _ Hinv m Hin) as Hsafe. unfold message_safe in Hsafe. rewrite Hb in Hsafe.
    destruct Hsafe as (Hx & Hli & Hlt). rewrite Ht. split_and!; [done..|]. by exists li, lt.
Qed.

Lemma after_asked v u x : cast G' v u x → in_term c' x u.
Proof.
  intros [Hcast|[(_ & -> & -> & _)|(_ & _ & Hx & _)]]%new_cast.
  - apply in_term_after. by eapply (si_asked _ _ Hinv).
  - intros sx Hx. rewrite after_i in Hx. by injection Hx as <-.
  - by apply in_term_after.
Qed.

(** A node votes in no term it has left. *)
Lemma past_votes u x : cast G' i u x → u ≤ current_term (raft s').
Proof. intros H. by destruct (ov_past _ _ _ (ci_own _ _ _ Hc' _ _ after_i) _ _ H). Qed.

Lemma up_to_date_terms li lt b :
  candidate_log_is_up_to_date (raft s) li lt = true → li = N.of_nat (length b) → lt = last_term b →
  last_term (log (raft s)) < last_term b ∨
  (last_term b = last_term (log (raft s)) ∧ (length (log (raft s)) ≤ length b)%nat).
Proof.
  intros Hup -> ->. unfold candidate_log_is_up_to_date in Hup.
  apply orb_true_iff in Hup as [Hup|[Ht Hup]%andb_true_iff]; apply bool_decide_eq_true in Hup.
  - by left.
  - apply bool_decide_eq_true in Ht. right. split; [done|].
    rewrite last_log_index_length in Hup by apply before_wf. lia.
Qed.

(** A vote before the term is won: the candidate has what the voter held. *)
Lemma vote_transfers v u x t n :
  cast G' v u x → (∀ j, ¬ won G u j) → acked G' v t n → marked (hist G') t n → t < u →
  holds n (bid G' u x) (hist G' t) ∨ lost G' t n u.
Proof.
  intros Hcast Hno Ha Hm Hlt.
  assert (Hold : acked G v t n).
  { destruct Ha as [Ha|(Hv & -> & _)]; [done|]. subst v. apply past_votes in Hcast. lia. }
  pose proof (si_length _ _ Hinv _ _ _ Hold) as Hn. apply marked_before in Hm; [|done].
  destruct (new_cast v u x Hcast) as [Hc0|[(Hv & Hu & Hx & Hlt' & Hr)|(Hv & Hu & Hx & li & lt & Hup & Hli & Hllt)]].
  - rewrite (bid_in_term u x) by by eapply (si_asked _ _ Hinv).
    eapply known_after; [done|reflexivity|]. by eapply (si_cast _ _ Hinv).
  - subst v x. rewrite new_bid by done.
    destruct (si_kept _ _ Hinv _ _ _ _ Hi Hold) as [_ Hk].
    apply (known_after _ _ (current_term (raft s) + 1)); [done|lia|by apply Hk].
  - subst v. rewrite (bid_in_term u x) by done. eapply known_after; [done|reflexivity|].
    destruct (si_kept _ _ Hinv _ _ _ _ Hi Hold) as [_ Hk].
    destruct (Hk Hm) as [Hh|(t' & j & H1 & H2 & Hj & Hb)].
    + destruct (up_to_date_holds (hist G) t n (log (raft s)) (bid G u x) u) as [?|(t' & H1 & H2 & Hne & Hb)];
        [apply (si_hist _ _ Hinv)|apply before_traced|apply (si_bid _ _ Hinv)|done|done
        |apply (si_bid_term _ _ Hinv)|by eapply up_to_date_terms|by left|].
      right. destruct (mi_unwon _ _ _ _ _ Hmatch t') as [|[j Hj]]; [done|].
      exists t', j. split_and!; [done..|]. intros Hh'. apply Hb. eapply holds_prefix; [done|]. by apply (si_bid_won _ _ Hinv).
    + right. exists t', j. pose proof event_term. assert (t' ≠ u) by (intros ->; by apply (Hno j)).
      split_and!; [done|lia|done|done].
Qed.

Lemma after_cast' v u x t n :
  cast G' v u x → (∀ j, ¬ won G' u j) → acked G' v t n → marked (hist G') t n → t < u →
  holds n (bid G' u x) (hist G' t) ∨ lost G' t n u.
Proof. intros Hcast Hno. apply vote_transfers; [done|]. intros j Hj. by apply (Hno j), won_after. Qed.

Lemma after_won' u x : won G' u x → ∃ Q, majority_of Q ∧ ∀ v, v ∈ Q → cast G' v u x ∧
  ∀ t n, acked G' v t n → marked (hist G') t n → t < u → holds n (bid G' u x) (hist G' t) ∨ lost G' t n u.
Proof.
  assert (Hold : won G u x → ∃ Q, majority_of Q ∧ ∀ v, v ∈ Q → cast G' v u x ∧
    ∀ t n, acked G' v t n → marked (hist G') t n → t < u → holds n (bid G' u x) (hist G' t) ∨ lost G' t n u).
  { intros Hw. destruct (si_won _ _ Hinv _ _ Hw) as (Q & HQ & Hv). exists Q. split; [done|]. intros v Hin.
    destruct (Hv v Hin) as [Hcast Hk]. split; [by apply cast_after|]. intros t n Ha Hm Hlt.
    rewrite (bid_in_term u x) by by apply won_in_term.
    destruct Ha as [Ha|(-> & -> & _)]; [|apply cast_after, past_votes in Hcast; lia].
    pose proof (si_length _ _ Hinv _ _ _ Ha). eapply known_after; [done|reflexivity|].
    apply Hk; [done|by apply marked_before|done]. }
  intros [Hw|(Hr & -> & ->)]; [by apply Hold|].
  destruct (first_winner members c c' (cast G) (cast G') (won G) (hist G) i s s' Hmatch Hc' cast_after Hi
    after_i event_roles Hr) as [[Hr0 Ht]|Hno].
  - apply Hold. rewrite Ht. by destruct (mi_leader _ _ _ _ _ Hmatch _ _ Hi Hr0).
  - destruct (leader_votes members c' (cast G') i s' Hc' after_i Hr) as (SV & MV & CV).
    eexists. split; [by split|]. intros v Hin. split; [by apply CV|]. intros t n Ha Hm Hlt.
    eapply vote_transfers; [by apply CV|done..].
Qed.

(** *** Committing *)

Lemma acked_now n : holds n (log (raft s')) (hist G' (current_term (raft s'))) → acked G' i (current_term (raft s')) n.
Proof. intros H. by right. Qed.

Lemma after_matched j sj p m : nodes c' !! j = Some sj → role (raft sj) = Leader → p ≠ j →
  match_indexes (raft sj) !! p = Some m → m = 0 ∨ acked G' p (current_term (raft sj)) (N.to_nat m).
Proof.
  destruct (ci_node _ _ _ Hc _ _ Hi) as [Hid _].
  intros [[-> ->]|[_ Hj]]%after_other Hr Hp Hm.
  - destruct (run_event_match s ev s' p m Hrun Hr) as [?|[(Hr0 & Ht & Hm0)|(Hr0 & Ht & ok & m0 & Hev & Hle)]];
      [by rewrite Hid|done|by left|..]; rewrite Ht.
    + destruct (si_matched _ _ Hinv _ _ _ _ Hi Hr0 Hp Hm0) as [?|?]; [by left|right; by apply acked_after].
    + pose proof (delivered c i ev Hen) as Hd. rewrite Hev in Hd. destruct Hd as (ms0 & Hin & Hto & Hfrom & Hb).
      pose proof (si_sent _ _ Hinv _ Hin) as Hsafe. unfold message_safe in Hsafe. rewrite Hb, Hto, Hfrom in Hsafe.
      destruct Hsafe as [->|[Ha|Hx]]; [left; lia| |specialize (Hx s Hi); lia].
      right. apply acked_after. eapply (si_down _ _ Hinv); [done|lia].
  - destruct (si_matched _ _ Hinv _ _ _ _ Hj Hr Hp Hm) as [?|?]; [by left|right; by apply acked_after].
Qed.

(** A leader's majority holds what it commits. *)
Lemma majority_supports : role (raft s') = Leader → majority_holds (raft s') →
  supported G' (log (raft s')) (current_term (raft s')) (commit_index (raft s')).
Proof.
  intros Hr (e & Hin & Ht & Hidx & Hmaj). pose proof (leads_history Hr) as El.
  apply list_elem_of_lookup_1 in Hin as [k Hk]. pose proof (wf_log _ after_wf _ _ Hk) as Hki.
  assert (Hlen : (S k ≤ length (log (raft s')))%nat) by (apply lookup_lt_Some in Hk; lia).
  destruct (ci_node _ _ _ Hc' _ _ after_i) as (Hid & Hpart & _). destruct Hpart as (Hp & _); [by rewrite Hr|].
  right. exists (current_term (raft s')), (S k). split_and!; [done|lia| | |].
  - exists k, e. by rewrite <-El.
  - exists (replicated_to (raft s') (index e)). split.
    + unfold majority in Hmaj. rewrite Hp in Hmaj. split; [|done]. unfold replicated_to. rewrite Hp. set_solver.
    + intros v [Hv _]%elem_of_filter.
      destruct (match_indexes (raft s') !! v) as [m|] eqn:Hm; [|done]. apply Is_true_true, N.leb_le in Hv.
      destruct (decide (v = i)) as [->|Hne].
      * apply acked_now. rewrite <-El. by apply holds_refl.
      * destruct (after_matched i s' v m after_i Hr Hne Hm) as [?|?]; [lia|]. eapply after_down; [done|lia].
  - rewrite <-El. apply holds_refl. lia.
Qed.

Lemma after_commit j sj : nodes c' !! j = Some sj →
  supported G' (log (raft sj)) (current_term (raft sj)) (commit_index (raft sj)).
Proof.
  pose proof event_term as Hterm.
  assert (Hkeep : commit_index (raft s') = commit_index (raft s) →
    supported G' (log (raft s')) (current_term (raft s')) (commit_index (raft s'))).
  { intros ->. apply (supported_after (log (raft s)) _ (current_term (raft s))); [done|apply (sf_prefix _ _ event_facts)|].
    exact (si_commit _ _ Hinv _ _ Hi). }
  intros [[-> ->]|[_ Hj]]%after_other.
  2:{ eapply supported_after; [reflexivity|reflexivity|]. exact (si_commit _ _ Hinv _ _ Hj). }
  assert (Hcase : (∃ draw t l p pt rbs lc f now, ev = EvAppendEntries draw t l p pt rbs lc f now) ∨
    commit_index (raft s') = commit_index (raft s) ∨ (role (raft s') = Leader ∧ majority_holds (raft s'))).
  { pose proof (run_event_commit s ev s' Hfit Hrun) as Hmove. clear -Hmove. destruct ev; eauto 12. }
  destruct Hcase as [(draw & t & l & p & pt & rbs & lc & f & now & Hev)|[?|[? ?]]];
    [|by apply Hkeep|by apply majority_supports].
  pose proof (append_event _ _ _ _ _ _ _ _ _ Hev) as Haf.
  destruct (af_outcome _ _ _ _ _ _ Haf) as [[_ ?]|Hac]; [by apply Hkeep|].
  pose proof (ac_commit _ _ _ _ _ _ _ Hac) as Hci. pose proof (af_vouched _ _ _ _ _ _ Haf) as Hv.
  destruct (accepted_holds _ _ _ _ _ _ Haf Hac) as (_ & Hh & _). rewrite (ac_term _ _ _ _ _ _ _ Hac) in *.
  destruct (decide (commit_index (raft s') = commit_index (raft s))) as [?|Hne]; [by apply Hkeep|].
  apply (supported_after (hist G t) _ t t); [reflexivity| |].
  - apply (holds_le (N.to_nat (commit_index (raft s')))) in Hh; [apply Hh|lia].
  - eapply supported_le; [|apply Haf]. lia.
Qed.

(** *** Messages *)

Lemma message_after m : message_safe c G m → message_safe c' G' m.
Proof.
  unfold message_safe. destruct (body m); try done.
  - intros (Hx & Hli & Hlt). rewrite (bid_in_term _ _ Hx). split_and!; [by apply in_term_after|done|done].
  - intros [Hf Hs]. split; [by apply in_term_after|].
    destruct Hs as [->|Hs]; [by left|]. eapply supported_after; [reflexivity| |by right].
    destruct Hs as (t & k & _ & Hk & _ & _ & Hh). pose proof (holds_length _ _ _ Hh).
    apply take_prefix; [apply hist_after|done].
  - intros [?|[?|?]]; [by left|right; left; by apply acked_after|right; right; by apply in_term_after].
Qed.

(** The index a rejection names is one up to which the node holds the history
    of the request's term. *)
Lemma matching_index_holds t p pt es0 es lc f :
  append_facts t p pt es lc f → es0 = [] ∨ es0 = es →
  matching_index_for (raft s) p pt es0 = 0 ∨
  holds (N.to_nat (matching_index_for (raft s) p pt es0)) (log (raft s)) (hist G t).
Proof.
  intros Haf Hes0. pose proof (hist_traced t) as [Htr Hcont].
  assert (Hat : ∀ k x, term_at (raft s) k = Some x → term_in (hist G t) k = Some x →
    holds (N.to_nat k) (log (raft s)) (hist G t)).
  { intros k x H1 H2. apply (traced_holds_term (hist G) _ _ k x); [apply before_traced|done| |done].
    by rewrite <-term_in_log by apply before_wf. }
  destruct (matching_index_cases (raft s) p pt es0) as [?|[[-> Hp]|(e & Hin & -> & He)]]; [by left|right..].
  - eapply Hat; [exact Hp|apply Haf].
  - eapply Hat; [exact He|]. destruct Hes0 as [->| ->]; [by apply not_elem_of_nil in Hin|].
    apply list_elem_of_lookup_1 in Hin as [j Hj]. destruct (af_entries _ _ _ _ _ _ Haf) as [rest Hes].
    assert (Hx : hist G t !! (N.to_nat p + j)%nat = Some e).
    { rewrite <-lookup_drop, Hes. by apply lookup_app_l_Some. }
    pose proof (Hcont _ _ Hx) as Hidx. unfold term_in, lookup_index. rewrite !decide_False by lia.
    replace (N.to_nat (index e - 1)) with (N.to_nat p + j)%nat by lia. by rewrite Hx.
Qed.

(** An answer says what the node holds. *)
Lemma answer_safe effects f t ok k :
  run_event ev s = Ret effects s' → Send f (RaftAppendEntriesResponse t ok k) ∈ effects →
  k = 0 ∨ acked G' i t (N.to_nat k) ∨ in_term c' f (t + 1).
Proof.
  intros Hret Hin. destruct (answer_sent ev s effects s' f t ok k Hret Hin) as (draw & t0 & l & p & pt & rbs & lc & now & Hev).
  pose proof (append_event _ _ _ _ _ _ _ _ _ Hev) as Haf.
  assert (Hret' : on_append_entries draw t0 l p pt rbs lc f now s = Ret effects s') by (by rewrite Hev in Hret).
  destruct Hfit as (_ & _ & Hroom). rewrite Hev in Hroom.
  destruct (handle_append_says draw t0 l p pt rbs lc f now s s' before_wf Hroom) as [Ht Hcase]; [by rewrite Hret'|].
  destruct Hcase as [[[El _] Hrefuse]|[Hac Haccept]].
  - destruct (Hrefuse effects Hret') as (es0 & Hes0 & ->). apply list_elem_of_singleton in Hin as [= -> _ ->].
    destruct (decide (current_term (raft s') = t0)) as [Heq|Hne].
    + destruct (matching_index_holds _ _ _ _ _ _ _ Haf Hes0) as [->|Hh]; [by left|].
      right; left. apply acked_now. rewrite El, Heq. by apply holds_after.
    + right; right. intros sf Hf. pose proof (in_term_after _ _ (af_sender _ _ _ _ _ _ Haf) sf Hf).
      pose proof (af_term _ _ _ _ _ _ Haf). destruct Ht as [Ht|]; [|done]. lia.
  - destruct (Haccept effects Hret') as (effects0 & Hq & ->). apply elem_of_app in Hin as [Hin|Hin].
    { rewrite Forall_forall in Hq. by specialize (Hq _ Hin). }
    apply list_elem_of_singleton in Hin as [= -> _ ->]. right; left.
    destruct (accepted_holds _ _ _ _ _ _ Haf Hac) as (_ & Hh & _). apply acked_now.
    rewrite (ac_term _ _ _ _ _ _ _ Hac). apply holds_after.
    replace (N.to_nat (p + _)) with (N.to_nat p + length (rb_entry <$> rbs))%nat by lia. done.
Qed.

(** What the node sends is safe. *)
Lemma effect_safe effects e m :
  run_event ev s = Ret effects s' → e ∈ effects → sends members i e m → message_safe c' G' m.
Proof.
  intros Hret Hin Hs. unfold message_safe.
  pose proof (vote_effects ev s effects s' e Hret Hin) as Hkind.
  pose proof (run_event_replicates s ev effects s' before_wf Hfit Hret) as Hrep.
  rewrite Forall_forall in Hrep. specialize (Hrep e Hin).
  assert (Hself : in_term c' i (current_term (raft s'))).
  { intros si Hsi. rewrite after_i in Hsi. by injection Hsi as <-. }
  destruct Hs as [dst b|dst b Hd Hne|dst t p pt es lc rbs Hes]; cbn in Hrep |- *.
  - destruct b as [| | | | |t x li lt| | |t ok k]; try done; [|by eapply answer_safe].
    exfalso. destruct Hkind as [?|[(? & ? & ? & ? & ? & ? & ? & _ & [=] & _)|
      [(? & ? & ? & ? & ? & _ & [=])|(? & ? & ? & ? & ? & ? & ? & ? & ? & _ & (? & ? & ? & [=]))]]]. done.
  - destruct b as [| | | | |t x li lt| | |t ok k]; try done.
    + destruct (vote_request_says s ev effects s' t x li lt Hfit Hret Hin) as (-> & Hlt & Hr & -> & ->).
      assert (x = i) as ->.
      { destruct (ci_node _ _ _ Hc _ _ Hi) as [Hid _].
        destruct Hkind as [?|[(? & ? & ? & ? & ? & ? & ? & _ & [=] & _)|
          [(? & ? & ? & ? & ? & _ & [= _ Hx _ _])|(? & ? & ? & ? & ? & ? & ? & ? & ? & _ & (? & ? & ? & [=]))]]]; [done|].
        congruence. }
      split; [done|]. change (rebid G i s s') with (bid G'). rewrite new_bid by done.
      split; [apply last_log_index_length, before_wf|done].
    + exfalso. destruct Hkind as [?|[(? & ? & ? & ? & ? & ? & ? & _ & [=] & _)|
        [(? & ? & ? & ? & ? & _ & [=])|(? & ? & ? & ? & ? & ? & ? & ? & ? & _ & (? & ? & ? & [=]))]]]. done.
  - destruct Hrep as (Hr & -> & _ & _ & Hlc). split; [done|].
    change (retraced (hist G) (raft s')) with (hist G'). rewrite <-leads_history by done.
    eapply supported_le; [exact Hlc|]. by apply (after_commit i), after_i.
Qed.

Lemma safe_after :
  (∀ m, m ∈ ms → message_safe c' G' m) → safe_inv c' G'.
Proof.
  intros Hms. split; [exact Hmatch'|..].
  - apply after_hist.
  - intros j sj k e [[-> ->]|[_ Hj]]%after_other Hk; [by eapply after_log|by eapply (si_log _ _ Hinv)].
  - apply after_bid.
  - apply after_bid_term.
  - apply after_bid_won.
  - apply after_stands.
  - apply after_down.
  - apply after_length.
  - apply after_kept.
  - apply after_asked.
  - apply after_cast'.
  - apply after_won'.
  - apply after_matched.
  - apply after_commit.
  - intros m [Hm|Hm]%elem_of_app; [by apply Hms|]. by apply message_after, (si_sent _ _ Hinv).
Qed.
End step.

(** ** Executions *)

Lemma node_safe c G i s ev s' ms :
  safe_inv c G → nodes c !! i = Some s → enabled members c i ev → event_fits (raft s) ev →
  vouched_for (raft s) ev → final_state (run_event ev s) = Some s' →
  (∀ m, m ∈ ms → ∃ effects e, run_event ev s = Ret effects s' ∧ e ∈ effects ∧ sends members i e m) →
  safe_inv (after_cluster c i s' ms) (after_ghost G i s s').
Proof.
  intros Hinv Hi Hen Hfit Hord Hf Hms. pose proof (si_match _ _ Hinv) as Hmatch.
  pose proof (mi_cluster _ _ _ _ _ Hmatch) as Hc.
  destruct (node_step members c (cast G) i s ev s' Hc Hi Hen Hfit Hf) as (Hwf & Hsf & Hn).
  pose proof (ci_wf _ _ _ Hc _ _ Hi) as Hwf0.
  assert (Hmatch' : match_inv members (after_cluster c i s' ms) (cast (after_ghost G i s s'))
    (won (after_ghost G i s s')) (hist (after_ghost G i s s'))).
  { apply (match_after members c (cast G) (won G) (hist G) i s ev s' ms); [done| |done|done|..].
    - eapply inv_after; [done..|]. intros m (effects & e & Hret & He & Hs)%Hms.
      eapply (sent_inv members c (cast G) i s ev effects s' [m]); [done..| |by left].
      apply Forall_singleton. by exists e.
    - exact (run_event_roles s ev Hfit s' Hf).
    - exact (run_event_log_change s ev s' Hwf0 Hfit Hf).
    - intros m (effects & e & Hret & He & Hs)%Hms.
      eapply (sent_traced members i s ev effects s' [m]); [done..| |by left]. apply Forall_singleton. by exists e. }
  apply (safe_after c G i s ev s' ms); [done..|]. intros m (effects & e & Hret & He & Hs)%Hms.
  by eapply effect_safe.
Qed.

Lemma step_safe c c' G : safe_inv c G → step_where members vouched_for c c' → ∃ G', safe_inv c' G'.
Proof.
  intros Hinv [i s ev effects s' ms Hi Hen Hfit Hord Hrun Hsent|i s ev err s' Hi Hen Hfit Hord Hrun].
  - exists (after_ghost G i s s'). eapply (node_safe c G i s ev s' ms); [done..|by rewrite Hrun|].
    intros m Hm. unfold sent_for in Hsent. rewrite Forall_forall in Hsent.
    destruct (Hsent m Hm) as (e & ? & ?). by exists effects, e.
  - exists (after_ghost G i s s'). eapply (node_safe c G i s ev s' []); [done..|by rewrite Hrun|].
    intros m Hm. by apply not_elem_of_nil in Hm.
Qed.

Lemma reachable_safe c : reachable_vouched members c → ∃ G, safe_inv c G.
Proof.
  intros (c0 & H0 & Hsteps). apply fresh_safe in H0.
  assert (H : ∃ G, safe_inv c0 G) by eauto. clear H0.
  induction Hsteps as [|c1 c2 c3 Hstep _ IH]; [done|]. apply IH. destruct H as (G & H). by eapply step_safe.
Qed.

(** The history of a later term holds what is committed. *)
Lemma history_complete c G t k u :
  safe_inv c G → marked (hist G) t k → agreed G t k → t ≤ u → (∃ x, won G u x) → holds k (hist G u) (hist G t).
Proof.
  intros Hinv Hm Ha Hle [x Hw]. destruct (decide (t = u)) as [->|].
  - apply holds_refl. destruct Hm as (k' & e & -> & Hk%lookup_lt_Some & _). lia.
  - eapply holds_prefix; [|by apply (si_bid_won _ _ Hinv)].
    apply (leaders_complete c); [done..|lia].
Qed.

Lemma leader_holds c G l u (n : N) j sj :
  safe_inv c G → supported G l u n → nodes c !! j = Some sj →
  role (raft sj) = Leader → u ≤ current_term (raft sj) →
  take (N.to_nat n) (log (raft sj)) = take (N.to_nat n) l.
Proof.
  intros Hinv [->|(t & k & Hle & Hk & Hm & Ha & [Hh _])] Hj Hr Ht; [done|].
  destruct (mi_leader _ _ _ _ _ (si_match _ _ Hinv) _ _ Hj Hr) as [Hw ->]. rewrite Hh.
  assert (H : holds k (hist G (current_term (raft sj))) (hist G t)) by (eapply history_complete; [done..|lia|eauto]).
  by apply (holds_le (N.to_nat n)) in H as [H _].
Qed.

Lemma committed_agree c G l1 u1 l2 u2 (n : N) :
  safe_inv c G → supported G l1 u1 n → supported G l2 u2 n → take (N.to_nat n) l1 = take (N.to_nat n) l2.
Proof.
  intros Hinv [->|(t1 & k1 & _ & Hk1 & Hm1 & Ha1 & [Hh1 _])]; [done|].
  intros [->|(t2 & k2 & _ & Hk2 & Hm2 & Ha2 & [Hh2 _])]; [done|].
  assert (Hwon : ∀ t k, marked (hist G) t k → ∃ x, won G t x).
  { intros t k (k' & e & -> & Hk & _). destruct (mi_unwon _ _ _ _ _ (si_match _ _ Hinv) t) as [E|]; [|done].
    by rewrite E, lookup_nil in Hk. }
  rewrite Hh1, Hh2. destruct (N.le_ge_cases t1 t2) as [Ht|Ht].
  - pose proof (history_complete c G t1 k1 t2 Hinv Hm1 Ha1 Ht (Hwon _ _ Hm2)) as H.
    by apply (holds_le (N.to_nat n)) in H as [H _].
  - pose proof (history_complete c G t2 k2 t1 Hinv Hm2 Ha2 Ht (Hwon _ _ Hm1)) as H.
    by apply (holds_le (N.to_nat n)) in H as [H _].
Qed.
End invariant.

Section theorems.
Context {BP : BuildProfile} {P : Platform} {HO : HashOrder}.
Context `{!Serde PersistedRaftLogState, !Serde (list SignedTransaction), !Serde BlockFile}.

(** C3. Leader completeness, in a cluster of fixed members that starts fresh, whose
    nodes do not restart, and in whose execution every AppendEntries request is
    vouched for: none is delivered to a node of a later term, and none lets a
    node commit beyond the last entry it vouches for (heartbeats, which carry
    few entries or none, included).  In every state of such an execution,
    whatever else is delayed, reordered, duplicated or lost, a leader has in its
    log everything that any node of the same or an earlier term has committed,
    at the same indexes.  (Messages delivered in the order they were sent need
    not satisfy the second condition: [ClusterExamples.heartbeat_diverges].) *)
Theorem leader_completeness (members : gset PeerId) c i j si sj :
  reachable_vouched members c →
  nodes c !! i = Some si → nodes c !! j = Some sj →
  role (raft sj) = Leader → current_term (raft si) ≤ current_term (raft sj) →
  take (N.to_nat (commit_index (raft si))) (log (raft si)) `prefix_of` log (raft sj).
Proof.
  intros Hreach Hi Hj Hr Ht. destruct (reachable_safe members c Hreach) as [G Hinv].
  pose proof (si_commit _ _ _ Hinv _ _ Hi) as Hs.
  rewrite <-(leader_holds members c G _ _ _ j sj Hinv Hs) by done. apply prefix_take.
Qed.

(** C2. State machine safety, under the same conditions: in a cluster of fixed
    members that starts fresh and without restarts, in whose execution no
    AppendEntries request is delivered to a node of a later term and none lets a
    node commit beyond the last entry it vouches for, two nodes that have both
    committed an index have committed the same entry, whatever messages are
    delayed, reordered, duplicated or lost.  (Without the second condition it
    fails, even for messages delivered in the order they were sent:
    [ClusterExamples.heartbeat_diverges].) *)
Theorem state_machine_safety (members : gset PeerId) c i j si sj k :
  reachable_vouched members c →
  nodes c !! i = Some si → nodes c !! j = Some sj →
  k ≤ commit_index (raft si) → k ≤ commit_index (raft sj) →
  lookup_index (log (raft si)) k = lookup_index (log (raft sj)) k.
Proof.
  intros Hreach Hi Hj Hki Hkj. destruct (reachable_safe members c Hreach) as [G Hinv].
  pose proof (si_commit _ _ _ Hinv _ _ Hi) as Hsi. pose proof (si_commit _ _ _ Hinv _ _ Hj) as Hsj.
  apply (supported_le _ _ _ _ k) in Hsi; [|done]. apply (supported_le _ _ _ _ k) in Hsj; [|done].
  pose proof (committed_agree members c G _ _ _ _ k Hinv Hsi Hsj) as H.
  rewrite <-(lookup_index_take _ k (N.to_nat k)), <-(lookup_index_take (log (raft sj)) k (N.to_nat k)) by lia.
  by rewrite H.
Qed.
End theorems.
End ClusterSafety.
