(* ===== verification/ClusterRun.v ===== *)
(** * Executing a cluster

    The step relation of Cluster.v, as a function of a schedule: which node
    ticks, which of the messages sent is delivered, which node's block keeper
    reports a block.  [run_schedule_sound] makes a schedule that computes a
    proof of reachability, which is how ClusterExamples.v exhibits executions. *)

From S2P Require Import Prelude Platform Crypto Transactions Storage Messages RaftLogStore Raft RaftFacts RaftInvariant Cluster LogMatching ClusterSafety.

Module ClusterRun.
Import RaftConsensus Cluster ClusterSafety.

Section run.
Context {BP : BuildProfile} {P : Platform} {HO : HashOrder}.
Context `{!Serde PersistedRaftLogState, !Serde (list SignedTransaction), !Serde BlockFile}.
Context (members : gset PeerId).
(* the events a schedule may use, decided *)
Context (allowed : RaftConsensus → raft_event → Prop) (admits : RaftConsensus → raft_event → bool).
Context (admits_sound : ∀ r ev, admits r ev = true → allowed r ev).
(* the payload a peer attaches to an entry it sends *)
Context (attach : RaftLogEntry → RaftReplicatedBlock) (attach_entry : ∀ e, rb_entry (attach e) = e).

Inductive move : Type :=
  | Tick (i : PeerId) (now : N)
  | Created (i : PeerId) (h : BlockHash)
  | Deliver (a b : PeerId) (k : nat) (now : N).   (* from [a] to [b], the latest but [k] *)

Definition event_of (now : N) (m : Message) : option raft_event :=
  match body m with
  | RaftRequestVote t c li lt => Some (EvRequestVote t c li lt (from m))
  | RaftRequestVoteResponse t g => Some (EvRequestVoteResponse t (from m) g)
  | RaftAppendEntries t l p pt es lc => Some (EvAppendEntries 0 t l p pt es lc (from m) now)
  | RaftAppendEntriesResponse t ok i => Some (EvAppendEntriesResponse t (from m) ok i)
  | _ => None
  end.

Lemma event_of_delivers now m ev : event_of now m = Some ev → delivers m ev.
Proof. unfold event_of. destruct (body m) eqn:Hb; intros [= <-]; by econstructor. Qed.

(** The messages for an effect. *)
Definition messages_of (i : PeerId) (e : ConsensusEffect) : list Message :=
  match e with
  | Send dst b => [mkMessage i dst b]
  | Broadcast b => (λ dst, mkMessage i dst b) <$> elements (members ∖ {[ i ]})
  | SendRaftAppendEntries dst t p pt es lc =>
      [mkMessage i dst (RaftAppendEntries t i p pt (attach <$> es) lc)]
  | _ => []
  end.
Definition emit (i : PeerId) (effects : list ConsensusEffect) : list Message :=
  effects ≫= messages_of i.

Lemma messages_of_sends i e m : m ∈ messages_of i e → sends members i e m.
Proof.
  destruct e; cbn; intros Hm; try (by apply not_elem_of_nil in Hm).
  - apply list_elem_of_singleton in Hm as ->. constructor.
    rewrite <-list_fmap_compose. rewrite (list_fmap_ext _ id); [by rewrite list_fmap_id|].
    intros k e _. apply attach_entry.
  - apply list_elem_of_fmap in Hm as (dst & -> & Hd). apply elem_of_elements in Hd.
    constructor; set_solver.
  - apply list_elem_of_singleton in Hm as ->. constructor.
Qed.

Lemma emit_sent i effects : sent_for members i effects (emit i effects).
Proof.
  apply Forall_forall. intros m (e & Hm & He)%list_elem_of_bind. exists e.
  split; [done|]. by apply messages_of_sends.
Qed.

Definition fits (r : RaftConsensus) (ev : raft_event) : bool :=
  (N.of_nat (length (log r)) + 1 <? u64_modulus) && (current_term r + 1 <? u64_modulus) &&
  match ev with
  | EvAppendEntries _ _ _ _ _ es _ _ _ => N.of_nat (length (log r)) + N.of_nat (length es) <? u64_modulus
  | _ => true
  end.

Lemma fits_sound r ev : fits r ev = true → event_fits r ev.
Proof.
  unfold fits. intros [[H1%N.ltb_lt H2%N.ltb_lt]%andb_true_iff H3]%andb_true_iff.
  split_and!; [done|done|]. destruct ev; try done. by apply N.ltb_lt in H3.
Qed.

(** One event at a node. *)
Definition act (i : PeerId) (ev : raft_event) (c : Cluster) : option Cluster :=
  s ← nodes c !! i;
  if fits (raft s) ev && admits (raft s) ev then
    match run_event ev s with
    | Ret effects s' => Some (mkCluster (<[i := s']> (nodes c)) (emit i effects ++ sent c))
    | Err _ s' => Some (mkCluster (<[i := s']> (nodes c)) (sent c))
    | Panic => None
    end
  else None.

Definition exec (mv : move) (c : Cluster) : option Cluster :=
  match mv with
  | Tick i now => if decide (i ∈ members) then act i (EvTick now (elements (members ∖ {[ i ]}))) c else None
  | Created i h => act i (EvBlockCreated h) c
  | Deliver a b k now =>
      m ← filter (λ m, from m = a ∧ to m = b) (sent c) !! k;
      ev ← event_of now m;
      act b ev c
  end.

Fixpoint run_schedule (mvs : list move) (c : Cluster) : option Cluster :=
  match mvs with
  | [] => Some c
  | mv :: mvs => c ← exec mv c; run_schedule mvs c
  end.

Lemma act_sound i ev c c' :
  enabled members c i ev → act i ev c = Some c' → step_where members allowed c c'.
Proof.
  intros Hen. unfold act. intros (s & Hi & H)%bind_Some.
  destruct (fits (raft s) ev && admits (raft s) ev) eqn:Hf; [|done]. apply andb_true_iff in Hf as [Hf%fits_sound Ha].
  apply admits_sound in Ha.
  destruct (run_event ev s) as [effects s'|err s'|] eqn:Hr; [| |done]; injection H as <-.
  - eapply where_ok; [done..|]. apply emit_sent.
  - by eapply where_err.
Qed.

Lemma exec_sound mv c c' : exec mv c = Some c' → step_where members allowed c c'.
Proof.
  destruct mv as [i now|i h|a b k now]; cbn.
  - case_decide as Hi; [|done]. apply act_sound, en_tick. rewrite list_to_set_elements_L.
    apply set_eq. intros x. destruct (decide (x = i)); set_solver.
  - apply act_sound, en_block.
  - intros (m & Hm%list_elem_of_lookup_2 & (ev & Hev & H)%bind_Some)%bind_Some.
    apply list_elem_of_filter in Hm as [[Ha Hb] Hm]. revert H. apply act_sound.
    eapply en_deliver; [exact Hm|done|by eapply event_of_delivers].
Qed.

Lemma run_schedule_sound mvs c c' : run_schedule mvs c = Some c' → rtc (step_where members allowed) c c'.
Proof.
  revert c. induction mvs as [|mv mvs IH]; intros c; cbn; [by intros [= <-]|].
  intros (c1 & H1%exec_sound & H)%bind_Some. eapply rtc_l; [done|]. by apply IH.
Qed.
End run.

(** ** Which schedules *)
Section schedules.
Context `{P : Platform}.

Definition anything (r : RaftConsensus) (ev : raft_event) : bool := true.
Definition vouches (r : RaftConsensus) (ev : raft_event) : bool :=
  match ev with
  | EvAppendEntries _ t _ p _ rbs lc _ _ =>
      (current_term r <=? t) &&
      (N.min lc (N.of_nat (length (merge (log r) (rb_entry <$> rbs)))) <=?
        N.max (commit_index r) (p + N.of_nat (length rbs)))
  | _ => true
  end.

Lemma anything_sound r ev : anything r ev = true → (λ _ _, True) r ev.
Proof. done. Qed.

Lemma vouches_sound r ev : vouches r ev = true → vouched_for r ev.
Proof.
  destruct ev; try done. intros [H1%N.leb_le H2%N.leb_le]%andb_true_iff. by split.
Qed.
End schedules.
End ClusterRun.
