(* ===== verification/Synchronization.v ===== *)
(** * synchronization.rs: fetching the blocks a voting peer missed

    The network changes while a synchronization awaits answers (the discovery
    task replaces the known peers, peers commit blocks), so the network is a
    function from the number of the await to what it is then ([env]); the
    thread generator's draws are indexed the same way.  The caller's
    [apply_block] closure runs on the caller's state. *)

From S2P Require Import Prelude Platform Transactions Storage Messages Raft Network.

Inductive SyncState : Type := SUCCESS | FAIL.
#[export] Instance SyncState_eq_dec : EqDecision SyncState.
Proof. solve_decision. Defined.

(** ** Requests: the awaiting half of the trait [NetworkInterface] *)

Class RequestInterface `{Platform} (Net : Type) `{!NetworkInterface Net} : Type := {
  (* send_and_wait_for_all::<BlockStorageState>; [None] is a panic *)
  request_states : Net → NetworkMessage → list PeerId → option (gmap PeerId (result BlockStorageState string));
  (* send_and_wait::<BlockFile>; [None] is a panic *)
  request_block : Net → PeerId → NetworkMessage → option (result BlockFile string);
}.

(** Only the peers asked are in the answer. *)
Class RequestLaws `{Platform} (Net : Type) `{!NetworkInterface Net, !RequestInterface Net} : Prop :=
  request_states_asked : ∀ n m ids answers,
    request_states n m ids = Some answers → dom answers ⊆ (list_to_set ids : gset PeerId).

(** [rng.random_range(0..n)], which panics on an empty range. *)
Definition random_index `{Platform} {S E} (draw n : N) : M S E N :=
  if decide (n = 0) then panic else ret (random_range draw 0 (n - 1)).

(** ** [PeersStates] *)

Module PeersStates.
Section peers_states.
Context {HO : HashOrder}.

Definition get_peers_for_index (states : gmap PeerId BlockStorageState) (index : N) : list PeerId :=
  (filter (λ '(_, state), index ≤ block_height state) (map_order states)).*1.

Definition get_max_index (states : gmap PeerId BlockStorageState) : N :=
  default 0 (RaftConsensus.max_option (block_height <$> (map_order states).*2)).
End peers_states.
End PeersStates.

(** [states.windows(2).all(|w| w[0] == w[1])] *)
Fixpoint block_states_match (states : list BlockStorageState) : bool :=
  match states with
  | a :: (b :: _) as rest => bool_decide (a = b) && block_states_match rest
  | _ => true
  end.

(** ** [Synchronization] *)

Module Synchronization.
Section synchronization.
Context {BP : BuildProfile} {P : Platform} {HO : HashOrder}.
Context {Net : Type} `{!NetworkInterface Net, !RequestInterface Net}.
Context (env : nat → Net) (draws : nat → N).

Definition ok_states (answers : list (result BlockStorageState string)) : list BlockStorageState :=
  omap (λ r, match r with Ok state => Some state | Error _ => None end) answers.

Definition reported_states (answers : gmap PeerId (result BlockStorageState string)) : gmap PeerId BlockStorageState :=
  omap (λ r, match r with Ok state => Some state | Error _ => None end) answers.

(** [None] is a panic of the request. *)
Definition get_latest_indexes (n : Net) : option (gmap PeerId BlockStorageState) :=
  reported_states <$> request_states n GetLatestBlockState (known_peers n).

(** The [k]-th call: it awaits twice and draws twice. *)
Definition get_block_file {S E} (k : nat) (idx : N) (states : gmap PeerId BlockStorageState) : M S E (option BlockFile) :=
  let n := env (2 * k + 1) in
  let peers := known_peers n in
  let number_of_peers := Nat.min (length peers) 3 in
  let peers_to_request :=
    choose_multiple (draws (2 * k)) (PeersStates.get_peers_for_index states idx) number_of_peers in
  let* answers := unwrap (request_states n (GetBlockState idx) peers_to_request) in
  let results := ok_states (map_order answers).*2 in
  let all_match := block_states_match results in
  if decide (length results = number_of_peers ∧ all_match = true) then
    let* i := random_index (draws (2 * k + 1)) (N.of_nat number_of_peers) in
    let* random_peer := unwrap (peers_to_request !! N.to_nat i) in
    let* res := unwrap (request_block (env (2 * k + 2)) random_peer (GetBlock idx)) in
    ret match res with
        | Ok block_file => Some block_file
        | Error _ => None
        end
  else ret None.

Section loop.
Context {S : Type} (apply_block : BlockFile → M S string unit).

(** The [loop]; [None] when the fuel runs out. *)
Fixpoint sync_loop {E} (fuel k : nat) (states : gmap PeerId BlockStorageState) (idx : N) (errors_count : nat) :
    M S E (option SyncState) :=
  match fuel with
  | O => ret None
  | Datatypes.S fuel =>
      if decide (PeersStates.get_max_index states < idx) then ret (Some SUCCESS)
      else if decide (errors_count = 3%nat) then ret (Some FAIL)
      else
        let* block := get_block_file k idx states in
        let* applied :=
          match block with
          | Some block_file => let* r := try_ (apply_block block_file) in ret (is_ok r)
          | None => ret false
          end in
        if applied then
          let* idx := add_u32 idx 1 in
          sync_loop fuel (Datatypes.S k) states idx errors_count
        else sync_loop fuel (Datatypes.S k) states idx (Datatypes.S errors_count)
  end.

(** Fuel for the missing blocks, the three errors and the last turn. *)
Definition sync_fuel (max idx : N) (errors_count : nat) : nat :=
  N.to_nat (max + 1 - idx) + (3 - errors_count) + 1.

Definition check_and_retrieve_missing_blocks {E} (peer_height : N) : M S E (option SyncState) :=
  let* states := unwrap (get_latest_indexes (env 0)) in
  let max := PeersStates.get_max_index states in
  if decide (peer_height = max) then ret (Some SUCCESS)
  else
    let* idx := add_u32 peer_height 1 in
    sync_loop (sync_fuel max idx 0) 0 states idx 0.
End loop.
End synchronization.
End Synchronization.

(** ** The two networks answering requests *)

Section local_requests.
Context {P : Platform} {HO : HashOrder} `{!Serde BlockFile}.
Context (choose : N → list PeerId → option PeerId).
(* what serde reports of a response of another shape *)
Context (shape_error : string).
#[local] Existing Instance LocalNetwork.interface.

Definition as_state (r : result LocalResponse string) : result BlockStorageState string :=
  match r with
  | Ok (LocalState s) => Ok s
  | Ok (LocalBlock _) => Error shape_error
  | Error e => Error e
  end.
Definition as_block (r : result LocalResponse string) : result BlockFile string :=
  match r with
  | Ok (LocalBlock b) => Ok b
  | Ok (LocalState _) => Error shape_error
  | Error e => Error e
  end.

#[export] Instance local_requests : @RequestInterface P LocalNetwork (LocalNetwork.interface choose) := {|
  request_states n m ids :=
    Some (foldl (λ results id, <[id := as_state (LocalNetwork.send_and_wait n id m)]> results) ∅ ids);
  request_block n id m := Some (as_block (LocalNetwork.send_and_wait n id m));
|}.
End local_requests.

(** A REST network together with what its peers would answer; [None] is a
    response whose body cannot be read. *)
Record RestMoment `{Platform} : Type := mkRestMoment {
  rest : RestNetwork;
  answer_state : NetworkMessage → PeerId → option (result BlockStorageState string);
  answer_block : NetworkMessage → PeerId → option (result BlockFile string);
}.
Arguments mkRestMoment {_}.
#[export] Instance eta_moment `{Platform} : Settable RestMoment := λ n,
  mkRestMoment (rest n) (answer_state n) (answer_block n).

Section rest_requests.
Context {P : Platform} {HO : HashOrder}.

Definition on_rest {E A} (m : M RestNetwork E A) : M RestMoment E A :=
  zoom rest (λ r n, n <| rest := r |>) m.

#[export] Instance moment_interface : NetworkInterface RestMoment := {|
  known_peers n := (map_order (rn_known_peers (rest n))).*1;
  send_peer_message E m := on_rest (RestNetwork.send m);
  broadcast_peer_message E b f := on_rest (RestNetwork.broadcast b f);
  receive_client_message d b := on_rest (RestNetwork.receive_client d b);
  on_message_received m := on_rest (RestNetwork.message_received m);
|}.

#[export] Instance rest_requests : RequestInterface RestMoment := {|
  request_states n m ids := RestNetwork.send_to_all (rest n) (answer_state n m) ids;
  request_block n id m := RestNetwork.send_and_wait (rest n) (answer_block n m) id;
|}.
End rest_requests.
