(* ===== verification/SyncTheorems.v ===== *)
(** * Synchronization: theorems

    A synchronization always ends, raises the caller's height one block at a
    time, and fetches a block only when enough peers agree on it. *)

From S2P Require Import Prelude Platform Crypto Transactions Storage Messages RaftLogStore Raft Voting Consensus Network Effects PeerNode KeeperFacts ChainFacts StorageTheorems PeerTheorems Synchronization.

Module SyncFacts.
Import Synchronization.
Section facts.
Context {BP : BuildProfile} {P : Platform} {PL : PlatformLaws} {HO : HashOrder} {HL : HashOrderLaws}.
Context {Net : Type} `{!NetworkInterface Net, !RequestInterface Net, !RequestLaws Net}.
Context (env : nat → Net) (draws : nat → N).
Implicit Types (states : gmap PeerId BlockStorageState).

(** Some answer that is awaited has a body that cannot be read. *)
Definition unreadable : Prop :=
  (∃ k m ids, request_states (env k) m ids = None) ∨ (∃ k m id, request_block (env k) id m = None).

(** The largest height the peers report at a moment, if their answers can be
    read. *)
Definition reported_height (n : Net) : N := default 0 (PeersStates.get_max_index <$> get_latest_indexes n).

Lemma foldr_max_bound x l y : y ∈ x :: l → y ≤ foldr N.max x l.
Proof.
  intros [->|Hy]%elem_of_cons; induction l as [|z l IH]; cbn; try lia.
  - by apply elem_of_nil in Hy.
  - apply elem_of_cons in Hy as [->|Hy]; [lia|]. specialize (IH Hy). lia.
Qed.

Lemma get_max_index_bound states id st :
  states !! id = Some st → block_height st ≤ PeersStates.get_max_index states.
Proof.
  intros Hl. unfold PeersStates.get_max_index.
  assert (Hin : block_height st ∈ block_height <$> (map_order states).*2).
  { apply list_elem_of_fmap_2, (list_elem_of_fmap_2' snd _ (id, st)); [|done].
    rewrite map_order_perm. by apply elem_of_map_to_list. }
  destruct (block_height <$> (map_order states).*2) as [|x l]; [by apply not_elem_of_nil in Hin|].
  by apply foldr_max_bound.
Qed.

Lemma elem_of_peers_for_index states idx id :
  id ∈ PeersStates.get_peers_for_index states idx →
  ∃ st, states !! id = Some st ∧ idx ≤ block_height st.
Proof.
  unfold PeersStates.get_peers_for_index. intros ([id' st] & -> & [Hle Hin]%list_elem_of_filter)%list_elem_of_fmap.
  exists st. split; [|done]. rewrite map_order_perm in Hin. by apply elem_of_map_to_list in Hin.
Qed.

Lemma peers_for_index_NoDup states idx : NoDup (PeersStates.get_peers_for_index states idx).
Proof.
  unfold PeersStates.get_peers_for_index.
  apply (sublist_NoDup _ ((map_order states).*1)).
  - rewrite map_order_perm. apply NoDup_fst_map_to_list.
  - apply fmap_sublist. (* filter is a sublist *)
    apply sublist_filter.
Qed.

Lemma block_states_match_all l x y : block_states_match l = true → x ∈ l → y ∈ l → x = y.
Proof.
  assert (H : ∀ a l, block_states_match (a :: l) = true → Forall (λ b, a = b) l).
  { intros a l'. revert a. induction l' as [|b l' IH]; intros a; [by constructor|]. cbn [block_states_match].
    intros [->%bool_decide_eq_true Hr]%andb_true_iff. constructor; [done|]. by apply IH. }
  destruct l as [|a l]; [intros _ Hx; by apply not_elem_of_nil in Hx|].
  intros Hm%H. rewrite Forall_forall in Hm.
  intros [->|Hx]%elem_of_cons [->|Hy]%elem_of_cons; auto.
  - symmetry. auto.
  - rewrite <-(Hm x Hx). auto.
Qed.

Lemma ok_states_length l : (length (ok_states l) ≤ length l)%nat.
Proof. unfold ok_states. induction l as [|[st|e] l IH]; cbn in *; lia. Qed.

Lemma ok_states_full l : length (ok_states l) = length l → ∀ r, r ∈ l → ∃ st, r = Ok st ∧ st ∈ ok_states l.
Proof.
  induction l as [|[st|e] l IH]; intros Hl r Hr; [by apply not_elem_of_nil in Hr|cbn in Hl|].
  - apply elem_of_cons in Hr as [->|Hr]; [exists st; split; [done|by left]|].
    injection Hl as Hl. destruct (IH Hl r Hr) as (st' & -> & ?). exists st'. split; [done|by right].
  - pose proof (ok_states_length l). unfold ok_states in *. cbn in *. lia.
Qed.

(** If every peer asked has to answer and all answers agree, they all gave
    the same state. *)
Lemma answers_agree (answers : gmap PeerId (result BlockStorageState string)) (ids : list PeerId) n :
  dom answers ⊆ (list_to_set ids : gset PeerId) → NoDup ids → (length ids ≤ n)%nat → n ≠ O →
  length (ok_states (map_order answers).*2) = n →
  block_states_match (ok_states (map_order answers).*2) = true →
  length ids = n ∧ ∃ agreed, ∀ id, id ∈ ids → answers !! id = Some (Ok agreed).
Proof.
  intros Hdom Hnd Hle Hn Hlen Hmatch.
  pose proof (ok_states_length (map_order answers).*2) as Hok.
  assert (Hsz : length (map_order answers).*2 = size answers).
  { rewrite length_fmap, map_order_perm. by rewrite length_map_to_list. }
  assert (Hset : size (list_to_set ids : gset PeerId) = length ids) by by apply size_list_to_set.
  pose proof (subseteq_size _ _ Hdom) as Hsub. rewrite size_dom in Hsub.
  split; [lia|].
  assert (Heq : dom answers ≡ (list_to_set ids : gset PeerId)).
  { apply set_subseteq_size_equiv; [done|]. rewrite size_dom. lia. }
  assert (Hall : ∀ id, id ∈ ids → ∃ st, answers !! id = Some (Ok st) ∧ st ∈ ok_states (map_order answers).*2).
  { intros id Hid. assert (Hd : id ∈ dom answers) by (rewrite Heq; by apply elem_of_list_to_set).
    apply elem_of_dom in Hd as [r Hr].
    destruct (ok_states_full (map_order answers).*2 ltac:(lia) r) as (st & -> & Hin); [|eauto].
    apply (list_elem_of_fmap_2' snd _ (id, r)); [|done]. rewrite map_order_perm. by apply elem_of_map_to_list. }
  destruct ids as [|id0 ids]; [cbn in *; lia|].
  destruct (Hall id0) as (agreed & _ & Ha); [by left|]. exists agreed. intros id Hid.
  destruct (Hall id Hid) as (st & Hst & Hin). rewrite Hst.
  by rewrite (block_states_match_all _ st agreed Hmatch Hin Ha).
Qed.

(** The peers asked for a block: distinct, few, and all of them have it. *)
Lemma requested_peers draw states idx n :
  let ids := choose_multiple draw (PeersStates.get_peers_for_index states idx) n in
  NoDup ids ∧ (length ids ≤ n)%nat ∧
  ∀ id, id ∈ ids → ∃ st, states !! id = Some st ∧ idx ≤ block_height st.
Proof.
  intros ids. pose proof (choose_multiple_sub _ draw (PeersStates.get_peers_for_index states idx) n) as Hsub.
  split_and!.
  - apply submseteq_Permutation in Hsub as [rest Hp]. pose proof (peers_for_index_NoDup states idx) as Hnd.
    rewrite Hp in Hnd. by apply NoDup_app in Hnd as [? _].
  - unfold ids. rewrite choose_multiple_length. lia.
  - intros id Hid. apply elem_of_peers_for_index. by eapply elem_of_submseteq.
Qed.

Lemma get_block_file_cases {S E} k idx states (s : S) :
  let n := env (2 * k + 1) in
  let number := Nat.min (length (known_peers n)) 3 in
  let ids := choose_multiple (draws (2 * k)) (PeersStates.get_peers_for_index states idx) number in
  ((known_peers n = [] ∨ unreadable) ∧ get_block_file (E := E) env draws k idx states s = Panic) ∨
  (known_peers n ≠ [] ∧ get_block_file (E := E) env draws k idx states s = Ret None s) ∨
  (∃ p b answers, known_peers n ≠ [] ∧ length ids = number ∧ p ∈ ids ∧
    request_states n (GetBlockState idx) ids = Some answers ∧
    (∃ agreed, ∀ id, id ∈ ids → answers !! id = Some (Ok agreed)) ∧
    request_block (env (2 * k + 2)) p (GetBlock idx) = Some (Ok b) ∧
    get_block_file (E := E) env draws k idx states s = Ret (Some b) s).
Proof.
  intros n number ids. unfold get_block_file. fold n. cbv zeta. fold number. fold ids.
  destruct (requested_peers (draws (2 * k)) states idx number) as (Hnd & Hle & _). fold ids in Hnd, Hle.
  destruct (request_states n (GetBlockState idx) ids) as [answers|] eqn:Hreq.
  2:{ left. split; [|done]. right. left. eauto. }
  rewrite bind_unwrap_Some. pose proof (request_states_asked n (GetBlockState idx) ids answers Hreq) as Hdom.
  destruct (decide (known_peers n = [])) as [Hk|Hk].
  - left. split; [by left|]. assert (Hz : number = O) by (unfold number; by rewrite Hk).
    assert (Hids : ids = []) by (destruct ids; [done|cbn in *; lia]).
    assert (Hans : answers = ∅).
    { apply dom_empty_inv_L. rewrite Hids in Hdom. set_solver. }
    assert (Hm : map_order (∅ : gmap PeerId (result BlockStorageState string)) = []).
    { apply Permutation_nil. rewrite map_order_perm. by rewrite map_to_list_empty. }
    rewrite Hans, Hm. cbn. rewrite decide_True by (by rewrite Hz). unfold random_index, bind. by rewrite Hz.
  - assert (Hn0 : number ≠ O).
    { unfold number. destruct (known_peers n); [done|cbn; lia]. }
    case_decide as Hc; [|by right; left].
    destruct Hc as [Hlen Hmatch].
    destruct (answers_agree answers ids number) as [Hl Hagreed]; try done.
    unfold random_index. rewrite decide_False by lia.
    pose proof (random_range_bounds (draws (2 * k + 1)) 0 (N.of_nat number - 1) ltac:(lia)) as Hr.
    destruct (lookup_lt_is_Some_2 ids (N.to_nat (random_range (draws (2 * k + 1)) 0 (N.of_nat number - 1)))) as [p Hp]; [lia|].
    rewrite !bind_ret_l, Hp, !bind_unwrap_Some.
    destruct (request_block _ p _) as [[b|err]|] eqn:Hb.
    + right; right. exists p, b, answers. split_and!; try done. { by apply list_elem_of_lookup_2 in Hp. }
    + by right; left.
    + left. split; [|done]. right. right. eauto.
Qed.

(** Whatever it does, it leaves the caller's state alone. *)
Lemma get_block_file_state {S E} k idx states (s : S) :
  get_block_file (E := E) env draws k idx states s = Panic ∨
  ∃ o, get_block_file (E := E) env draws k idx states s = Ret o s.
Proof. destruct (get_block_file_cases (E := E) k idx states s) as [[_ H]|[[_ H]|(? & ? & ? & _ & _ & _ & _ & _ & _ & H)]]; eauto. Qed.
End facts.
End SyncFacts.

Module SyncLoop.
Import Synchronization SyncFacts.
Section loop.
Context {BP : BuildProfile} {P : Platform} {PL : PlatformLaws} {HO : HashOrder} {HL : HashOrderLaws}.
Context {Net : Type} `{!NetworkInterface Net, !RequestInterface Net, !RequestLaws Net}.
Context (env : nat → Net) (draws : nat → N).
Context {T : Type} (apply_block : BlockFile → M T string unit).

(** A block some peer serves under index [idx] during the synchronization. *)
Definition served (idx : N) (b : BlockFile) : Prop :=
  ∃ k id, request_block (env (2 * k + 2)) id (GetBlock idx) = Some (Ok b).

(** An invariant indexed by the next block to fetch: applying a served block
    advances it, a refused block leaves it where it is. *)
Context (I : N → T → Prop) (max : N) (Hmax : max + 1 < u32_modulus).
Context (Hok : ∀ idx b s s', idx ≤ max → I idx s → served idx b → apply_block b s = Ret tt s' → I (idx + 1) s').
Context (Herr : ∀ idx b s e s', idx ≤ max → I idx s → served idx b → apply_block b s = Err e s' → I idx s').

(** What a synchronization panics on: having lost all its peers, an answer
    that cannot be read, or a block the closure panics on. *)
Definition panics_for_cause : Prop :=
  (∃ k, known_peers (env (2 * k + 1)) = []) ∨ unreadable env ∨
  (∃ idx b s, idx ≤ max ∧ I idx s ∧ served idx b ∧ apply_block b s = Panic).

Definition loop_post {E} (idx : N) (o : Prelude.outcome T (option SyncState) E) : Prop :=
  match o with
  | Ret (Some SUCCESS) s' => I (N.max idx (max + 1)) s'
  | Ret (Some FAIL) s' => ∃ idx', idx ≤ idx' ∧ idx' ≤ max ∧ I idx' s'
  | Ret None _ | Err _ _ => False
  | Panic => panics_for_cause
  end.

Lemma loop_post_weaken {E} idx (o : Prelude.outcome T (option SyncState) E) :
  idx ≤ max → loop_post (idx + 1) o → loop_post idx o.
Proof.
  intros Hle. unfold loop_post. destruct o as [[[]|] s'| |]; try done.
  - assert (N.max (idx + 1) (max + 1) = N.max idx (max + 1)) as -> by lia. done.
  - intros (idx' & ? & ? & ?). exists idx'. split_and!; [lia|done|done].
Qed.

Lemma sync_loop_spec {E} fuel k states idx errors s :
  PeersStates.get_max_index states = max →
  (errors ≤ 3)%nat → (sync_fuel max idx errors ≤ fuel)%nat → I idx s →
  loop_post idx (sync_loop (E := E) env draws apply_block fuel k states idx errors s).
Proof.
  intros Hm. revert k idx errors s. induction fuel as [|fuel IH]; intros k idx errors s He Hf HI.
  { unfold sync_fuel in Hf. lia. }
  cbn [sync_loop]. rewrite Hm. destruct (decide (max < idx)) as [Hdone|Hmore].
  { cbn. by assert (N.max idx (max + 1) = idx) as -> by lia. }
  destruct (decide (errors = 3%nat)) as [->|Hne].
  { cbn. exists idx. split_and!; [lia|lia|done]. }
  assert (Hretry : ∀ s', I idx s' → loop_post idx (sync_loop (E := E) env draws apply_block fuel
    (S k) states idx (S errors) s')).
  { intros s' HI'. apply IH; [lia| |done]. unfold sync_fuel in *. lia. }
  unfold bind at 1.
  destruct (get_block_file_cases env draws (E := E) k idx states s)
    as [[[Hk|Hu] ->]|[[_ ->]|(id & b & answers & _ & _ & _ & _ & _ & Hb & ->)]].
  - left. by exists k.
  - by right; left.
  - unfold bind at 1, ret at 1. by apply Hretry.
  - assert (Hs : served idx b) by by exists k, id.
    unfold bind at 1 2, try_ at 1. destruct (apply_block b s) as [[] s'|e s'|] eqn:Ea.
    + unfold ret at 1. cbn [is_ok]. unfold bind at 1, add_u32. rewrite checked_plus_exact by lia.
      unfold unwrap, ret at 1. apply loop_post_weaken; [lia|].
      apply IH; [done| |by eapply Hok; eauto; lia]. unfold sync_fuel in *. lia.
    + unfold ret at 1. cbn [is_ok]. apply Hretry. eapply Herr; eauto. lia.
    + right; right. exists idx, b, s. split_and!; [lia|done..].
Qed.

(** The whole call, from a caller at height [h]. *)
Definition sync_post {E} (h : N) (o : Prelude.outcome T (option SyncState) E) : Prop :=
  match o with
  | Ret (Some SUCCESS) s' => I (N.max h max + 1) s'
  | Ret (Some FAIL) s' => ∃ idx, h + 1 ≤ idx ∧ idx ≤ max ∧ I idx s'
  | Ret None _ | Err _ _ => False
  | Panic => panics_for_cause
  end.

Lemma check_and_retrieve_spec {E} h s :
  reported_height (env 0) = max →
  h + 1 < u32_modulus → I (h + 1) s →
  sync_post h (check_and_retrieve_missing_blocks (E := E) env draws apply_block h s).
Proof.
  unfold reported_height. intros Hm Hh HI. unfold check_and_retrieve_missing_blocks.
  destruct (get_latest_indexes (env 0)) as [states|] eqn:Hl.
  2:{ right; left; left. unfold get_latest_indexes in Hl. apply fmap_None in Hl. eauto. }
  rewrite bind_unwrap_Some. cbv zeta. cbn in Hm. rewrite Hm.
  destruct (decide (h = max)) as [->|Hne]; [cbn; by rewrite N.max_id|].
  unfold bind at 1, add_u32. rewrite checked_plus_exact by done. unfold unwrap, ret at 1.
  pose proof (sync_loop_spec (E := E) (sync_fuel max (h + 1) 0) 0 _ (h + 1) 0 s Hm ltac:(lia) ltac:(lia) HI) as Hloop.
  unfold loop_post, sync_post in *. destruct (sync_loop _ _ _ _ _ _ _ _ _) as [[[]|] s'| |]; try done.
  assert (N.max h max + 1 = N.max (h + 1) (max + 1)) as -> by lia. done.
Qed.
End loop.
End SyncLoop.

(** ** Applying a synchronized block *)

Module Synchronized.
Import PeerEffects KeeperFacts Chain.
Section apply.
Context {BP : BuildProfile} {P : Platform} {HO : HashOrder} {HL : HashOrderLaws}.
Context `{!Serde PersistedRaftLogState, !Serde (list SignedTransaction), !Serde BlockFile}.
Context `{!Serde Transaction, !Serde SignedTransaction}.
Context {Net : Type} `{!NetworkInterface Net}.
Implicit Types (e : PeerEffects Net) (p : Peer Net) (s : Storage) (b : BlockFile).

Lemma block_can_be_added_state {E} b s : leads (E := E) eq s (BlockKeeper.block_can_be_added b).
Proof.
  assert (Hf : ∀ i l s, leads (E := E) eq s (BlockKeeper.find_predecessor i l)).
  { intros i l. induction l as [|x l IH]; intros s0; cbn [BlockKeeper.find_predecessor]; unfold add_u32; lead.
    apply IH. }
  unfold BlockKeeper.block_can_be_added, sub_u32. lead. apply Hf.
Qed.

(** The stages of the call: the guard, the ledger, staging, the commit. *)
Lemma apply_synchronized_cases b e :
  match BlockKeeper.block_can_be_added (E := string) b (block_keeper e) with
  | Ret true _ =>
      match PeerEffects.apply_synchronized_block b e with
      | Ret _ e' => ∃ s1, BlockKeeper.add_external_block b (block_keeper e) = Ret tt s1 ∧
          BlockKeeper.commit_block (bf_hash b) s1 = Ret tt (block_keeper e')
      | Err _ e' => (∃ x, BlockKeeper.add_external_block b (block_keeper e) = Err x (block_keeper e')) ∨
          ∃ s1 x, BlockKeeper.add_external_block b (block_keeper e) = Ret tt s1 ∧
            BlockKeeper.commit_block (bf_hash b) s1 = Err x (block_keeper e')
      | Panic => True
      end
  | Ret false _ => ∃ x, PeerEffects.apply_synchronized_block b e = Err x e
  | Err x _ => PeerEffects.apply_synchronized_block b e = Err x e
  | Panic => PeerEffects.apply_synchronized_block b e = Panic
  end.
Proof.
  pose proof (block_can_be_added_state (E := string) b (block_keeper e)) as Hadd. unfold leads in Hadd.
  assert (He : e <| block_keeper := block_keeper e |> = e) by by destruct e.
  assert (H1 : on_keeper (E := string) (BlockKeeper.block_can_be_added b) e =
    match BlockKeeper.block_can_be_added b (block_keeper e) with
    | Ret ok _ => Ret ok e | Err x _ => Err x e | Panic => Panic end).
  { unfold on_keeper, zoom. destruct (BlockKeeper.block_can_be_added b (block_keeper e)); cbn in Hadd; [..|done];
      by rewrite <-(Hadd _ eq_refl), He. }
  destruct (BlockKeeper.block_can_be_added b (block_keeper e)) as [ok s|x s|];
    [|unfold PeerEffects.apply_synchronized_block, bind; by rewrite H1..].
  destruct ok; unfold PeerEffects.apply_synchronized_block; rewrite (bind_of _ _ _ _ _ H1); cbn [negb];
    [|by eexists].
  cbv zeta. unfold bind at 1.
  pose proof (PeerTheorems.apply_block_transactions_frame (E := string) b e) as Hf. unfold leads in Hf.
  assert (Hnoerr : ∀ x e', apply_block_transactions (E := string) b e ≠ Err x e').
  { unfold apply_block_transactions. generalize e as e0. clear.
    induction (bf_transactions b) as [|tx txs IH]; intros e0 x e'; cbn [for_each]; [done|].
    unfold bind at 1 2, on_ledger, zoom, try_. destruct (TransactionProcessor.process_transaction _ _); [apply IH..|done]. }
  destruct (apply_block_transactions b e) as [[] e1|x e1|] eqn:E2; [|by destruct (Hnoerr x e1)|done].
  assert (Hk : block_keeper e1 = block_keeper e) by (by rewrite (Hf _ eq_refl)).
  unfold bind at 1, map_err, on_keeper, zoom. rewrite Hk.
  destruct (BlockKeeper.add_external_block b (block_keeper e)) as [[] s1|x s1|] eqn:E3;
    [|left; by eexists|done].
  unfold bind at 1. cbn [block_keeper update_field].
  destruct (BlockKeeper.commit_block (bf_hash b) _) as [[] s2|x s2|] eqn:E4; cbn in E4; [..|done].
  - exists s1. split; [done|]. cbn. exact E4.
  - right. exists s1, x. split; [done|]. exact E4.
Qed.
End apply.
End Synchronized.

Module SyncTheorems.
Import Synchronization SyncFacts SyncLoop Synchronized KeeperFacts Chain.

Section requests.
Context {BP : BuildProfile} {P : Platform} {PL : PlatformLaws} {HO : HashOrder} {HL : HashOrderLaws}.
Context {Net : Type} `{!NetworkInterface Net, !RequestInterface Net, !RequestLaws Net}.

(** What a fetched block has behind it: as many peers as are known, up to
    three, all of them distinct, of a reported height that reaches the
    block, and in agreement about its state; the block itself is what one of
    them answers, and nothing compares it with the agreed state. *)
Theorem fetched_block_agreed (env : nat → Net) draws k idx states {S E} (s s' : S) b :
  get_block_file (E := E) env draws k idx states s = Ret (Some b) s' →
  ∃ peers agreed source,
    NoDup peers ∧ length peers = Nat.min (length (known_peers (env (2 * k + 1)%nat))) 3 ∧
    (∀ id, id ∈ peers → (∃ st, states !! id = Some st ∧ idx ≤ block_height st) ∧
      ∃ answers, request_states (env (2 * k + 1)%nat) (GetBlockState idx) peers = Some answers ∧
        answers !! id = Some (Ok agreed)) ∧
    source ∈ peers ∧ request_block (env (2 * k + 2)%nat) source (GetBlock idx) = Some (Ok b) ∧ s' = s.
Proof.
  destruct (get_block_file_cases env draws (E := E) k idx states s)
    as [[_ ->]|[[_ ->]|(p & b' & answers & _ & Hlen & Hp & Hreq & (agreed & Hagreed) & Hb & ->)]]; [done..|].
  intros [= <- <-].
  destruct (requested_peers (draws (2 * k)%nat) states idx
    (Nat.min (length (known_peers (env (2 * k + 1)%nat))) 3)) as (Hnd & _ & Hin).
  eexists _, agreed, p. split_and!; [exact Hnd|done| |done|done|done]. intros id Hid. split; eauto.
Qed.

(** A synchronization that has lost all its peers panics: with nobody to
    ask, the empty answers agree and the random choice among no peer is
    taken. *)
Theorem sync_without_peers_panics (env : nat → Net) draws {S E} (apply_block : BlockFile → M S string unit) h (s : S) :
  h < reported_height (env O) → reported_height (env O) < u32_modulus →
  known_peers (env 1%nat) = [] →
  check_and_retrieve_missing_blocks (E := E) env draws apply_block h s = Panic.
Proof.
  unfold reported_height. intros Hlt Hmax Hk. unfold check_and_retrieve_missing_blocks.
  destruct (get_latest_indexes (env O)) as [states|]; [|done]. cbn in Hlt, Hmax.
  rewrite bind_unwrap_Some. cbv zeta. rewrite decide_False by lia.
  unfold bind at 1, add_u32. rewrite checked_plus_exact by lia. unfold unwrap, ret at 1.
  unfold sync_fuel. rewrite Nat.add_1_r. cbn [sync_loop]. rewrite decide_False by lia.
  rewrite (decide_False (P := 0%nat = 3%nat)) by done. unfold bind at 1.
  destruct (get_block_file_cases env draws (E := E) 0 (h + 1) states s)
    as [[_ ->]|[[Hne _]|(? & ? & ? & Hne & _)]]; done.
Qed.
End requests.

Section peers.
Context {BP : BuildProfile} {P : Platform} {PL : PlatformLaws} {HO : HashOrder} {HL : HashOrderLaws}.
Context `{!Serde PersistedRaftLogState, !Serde (list SignedTransaction), !Serde BlockFile}.
Context `{!Serde Transaction, !Serde SignedTransaction}.
(* the peer's network, and the one that answers *)
Context {Net : Type} `{!NetworkInterface Net}.
Context {Env : Type} `{!NetworkInterface Env, !RequestInterface Env, !RequestLaws Env}.
Implicit Types (p : Peer Net).

Definition peer_storage p : Storage := block_keeper (effects p).
Definition peer_height p : N := block_height (storage_state (peer_storage p)).

(** A served block that is applied is committed at the next height. *)
Lemma apply_ok_commits b p p' :
  Peer.apply_synchronized_block b p = Ret tt p' →
  ∃ s1, BlockKeeper.block_can_be_added (E := string) b (peer_storage p) = Ret true (peer_storage p) ∧
    BlockKeeper.add_external_block b (peer_storage p) = Ret tt s1 ∧
    BlockKeeper.commit_block (bf_hash b) s1 = Ret tt (peer_storage p').
Proof.
  unfold Peer.apply_synchronized_block, PeerEffects.on_effects. intros (e' & He & ->)%PeerFacts.zoom_Ret.
  pose proof (apply_synchronized_cases b (effects p)) as Hc. rewrite He in Hc.
  pose proof (block_can_be_added_state (E := string) b (peer_storage p)) as Hs. unfold leads in Hs.
  unfold peer_storage in *. destruct (BlockKeeper.block_can_be_added b _) as [[] s|x s|]; cbn in Hs;
    [|by destruct Hc|done|done].
  destruct Hc as (s1 & H1 & H2). exists s1. rewrite <-(Hs _ eq_refl). done.
Qed.

Lemma apply_ok_height b p p' :
  peer_height p + 1 < u32_modulus → storage_wf (peer_storage p) →
  Peer.apply_synchronized_block b p = Ret tt p' →
  peer_height p' = peer_height p + 1 ∧ storage_wf (peer_storage p').
Proof.
  intros Hh Hwf (s1 & _ & Ha & Hc)%apply_ok_commits.
  pose proof (add_external_block_wf b _ s1 Hwf) as Hwf1. rewrite Ha in Hwf1. specialize (Hwf1 eq_refl).
  pose proof (commit_block_wf (bf_hash b) s1 (peer_storage p') Hwf1) as Hwf2. rewrite Hc in Hwf2.
  apply PeerTheorems.add_external_block_Ret in Ha as (_ & Hst & _).
  apply commit_block_Ret in Hc as (b' & m & _ & _ & Heq); [|by rewrite Hst].
  split; [|by apply Hwf2]. unfold peer_height. rewrite Heq. cbn. by rewrite Hst.
Qed.

(** One that is refused leaves the height and the files below it alone. *)
Lemma apply_err_storage b p x p' :
  peer_height p + 1 < u32_modulus → storage_wf (peer_storage p) →
  Peer.apply_synchronized_block b p = Err x p' →
  storage_state (peer_storage p') = storage_state (peer_storage p) ∧ storage_wf (peer_storage p') ∧
  (∀ i, i ≤ peer_height p → stored (peer_storage p') i = stored (peer_storage p) i) ∧
  path_to_blocks (keeper (peer_storage p')) = path_to_blocks (keeper (peer_storage p)) ∧
  read_faults (disk (peer_storage p')) = read_faults (disk (peer_storage p)).
Proof.
  intros Hh Hwf. unfold Peer.apply_synchronized_block, PeerEffects.on_effects, zoom.
  pose proof (apply_synchronized_cases b (effects p)) as Hc. unfold peer_height, peer_storage in *.
  destruct (BlockKeeper.block_can_be_added _ _) as [[] s|y s|].
  2:{ destruct Hc as [y ->]. intros [= _ <-]. by split_and!. }
  2:{ rewrite Hc. intros [= _ <-]. by split_and!. }
  2:{ by rewrite Hc. }
  destruct (PeerEffects.apply_synchronized_block b (effects p)) as [a e'|y e'|]; [done| |done].
  intros [= _ <-]. cbn [effects update_field].
  assert (Hstage : ∀ s1, final_state (BlockKeeper.add_external_block b (block_keeper (effects p))) = Some s1 →
    storage_wf s1 ∧ StorageTheorems.same_disk (block_keeper (effects p)) s1).
  { intros s1 Hs. split; [by eapply add_external_block_wf|].
    by eapply StorageTheorems.add_external_block_same_disk. }
  destruct Hc as [[z Ha]|(s1 & z & Ha & Hcommit)]; rewrite Ha in Hstage; destruct (Hstage _ eq_refl) as [Hwf1 (Hd & Hst & Hp & _)].
  - split_and!; [done|done| |done|by cbn; rewrite Hd]. intros i _.
    unfold stored, BlockStorageView.get_block. cbn. by rewrite Hd, Hp.
  - pose proof (commit_block_wf (bf_hash b) s1 (block_keeper e') Hwf1) as Hwf2. rewrite Hcommit in Hwf2.
    pose proof (StorageTheorems.commit_block_read_faults (bf_hash b) s1 (block_keeper e')) as Hrf.
    rewrite Hcommit, Hst in Hrf. destruct (Hrf Hh eq_refl) as [Hp2 Hr2].
    apply StorageTheorems.commit_block_Err in Hcommit as (Hk & Hst2 & Hold); [|by rewrite Hst].
    split_and!; [by rewrite <-Hst|by apply Hwf2| |by rewrite <-Hp|by cbn; rewrite Hr2, Hd].
    intros i Hi. cbn. rewrite Hold by (by rewrite Hst).
    unfold stored, BlockStorageView.get_block. by rewrite Hd, Hp.
Qed.

(** C29. A synchronization ends, and what its result says is so: [SUCCESS]
    leaves the peer at the largest height its peers reported (or at its own,
    if that is larger), [FAIL] short of it, never below where it started; it
    panics only when all known peers are gone, when the body of an answer
    cannot be read, or on a served block. *)
Theorem sync_reaches_height (env : nat → Env) draws {E} p :
  let h := peer_height p in
  let max := reported_height (env O) in
  h + 1 < u32_modulus → max + 1 < u32_modulus → storage_wf (peer_storage p) →
  match check_and_retrieve_missing_blocks (E := E) env draws Peer.apply_synchronized_block h p with
  | Ret (Some SUCCESS) p' => peer_height p' = N.max h max
  | Ret (Some FAIL) p' => h ≤ peer_height p' ∧ peer_height p' < max
  | Ret None _ | Err _ _ => False
  | Panic => (∃ k, known_peers (env (2 * k + 1)%nat) = []) ∨ unreadable env ∨
      ∃ idx b p', served env idx b ∧ peer_height p' + 1 = idx ∧ Peer.apply_synchronized_block b p' = Panic
  end.
Proof.
  intros h max Hh Hmax Hwf.
  assert (Hspec : sync_post env Peer.apply_synchronized_block
    (λ idx p, peer_height p + 1 = idx ∧ storage_wf (peer_storage p)) max h
    (check_and_retrieve_missing_blocks (E := E) env draws Peer.apply_synchronized_block h p)).
  { apply check_and_retrieve_spec; [done| | |done|done|done].
    - intros idx b q q' Hle [<- Hq] _ Ha. apply apply_ok_height in Ha; [intuition lia|lia|done].
    - intros idx b q x q' Hle [<- Hq] _ Ha. apply apply_err_storage in Ha as (Hst & Hwf' & _); [|lia|done].
      split; [unfold peer_height; by rewrite Hst|done]. }
  unfold sync_post in Hspec. destruct (check_and_retrieve_missing_blocks _ _ _ _ _) as [[[]|] p'| |]; try done.
  - destruct Hspec as [Hspec _]. lia.
  - destruct Hspec as (idx & ? & ? & <- & _). lia.
  - destruct Hspec as [Hk|[Hu|(idx & b & p' & _ & [Hi _] & Hs & Ha)]]; [by left|by right; left|right; right].
    by exists idx, b, p'.
Qed.

(** What a peer's chain has to be for the next block to be fetched. *)
Record sync_inv (idx : N) p : Prop := {
  si_height : peer_height p + 1 = idx;
  si_wf : storage_wf (peer_storage p);
  si_chain : chain_ok (peer_storage p);
  si_read i : (path_to_blocks (keeper (peer_storage p)), block_filename_for_index i)
                ∉ read_faults (disk (peer_storage p));
}.

Lemma apply_ok_sync_inv {HS : SerdeLaws BlockFile} idx b p p' :
  idx < u32_modulus → bf_index b = idx → sync_inv idx p →
  Peer.apply_synchronized_block b p = Ret tt p' → sync_inv (idx + 1) p'.
Proof.
  intros Hm Hb [<- Hwf Hchain Hread] Ha. pose proof (apply_ok_height b p p' Hm Hwf Ha) as [Hh' Hwf'].
  destruct (apply_ok_commits b p p' Ha) as (s1 & Hadd & Hext & Hc).
  apply StorageTheorems.block_can_be_added_at_tip in Hadd; [|done].
  pose proof (add_external_block_wf b _ s1 Hwf) as Hwf1. rewrite Hext in Hwf1. specialize (Hwf1 eq_refl).
  pose proof (StorageTheorems.add_external_block_same_disk (peer_storage p) b (peer_storage p) s1) as Hsame.
  rewrite Hext in Hsame. destruct Hsame as (Hd & Hst & Hp & _); [done|done|].
  apply PeerTheorems.add_external_block_Ret in Hext as (Hv & _ & _ & Hu).
  apply commit_block_commits in Hc as (b' & Eb & _ & Hv' & Hc); [|by rewrite Hst|done].
  rewrite Hu, lookup_insert_eq in Eb. injection Eb as <-.
  split; [lia|done| |].
  - apply (commits_chain_ok _ _ _ Hc); [|done| |].
    + unfold commit_path. rewrite Hd, Hp. apply Hread.
    + unfold extends_tip. by rewrite Hst.
    + apply (chain_ok_frame (peer_storage p)); [done| |done]. intros i _.
      unfold stored, BlockStorageView.get_block. by rewrite Hd, Hp.
  - intros i. rewrite (commits_path _ _ _ Hc), (commits_disk _ _ _ Hc), Hp. cbn. rewrite Hd. apply Hread.
Qed.

Lemma apply_err_sync_inv idx b p x p' :
  idx < u32_modulus → sync_inv idx p →
  Peer.apply_synchronized_block b p = Err x p' → sync_inv idx p'.
Proof.
  intros Hm [<- Hwf Hchain Hread] Ha. apply apply_err_storage in Ha as (Hst & Hwf' & Hold & Hp & Hr); [|done|done].
  split; [unfold peer_height; by rewrite Hst|done| |].
  - by apply (chain_ok_frame (peer_storage p)).
  - intros i. rewrite Hp, Hr. apply Hread.
Qed.

(** C30. Synchronization keeps the chain: if the peers serve under an index
    blocks that carry this index, then whatever else the blocks contain and
    however the call ends, the files of the peer are a hash-linked chain of
    verified blocks up to its height. *)
Theorem sync_keeps_chain {HS : SerdeLaws BlockFile} (env : nat → Env) draws {E} p p' :
  let max := reported_height (env O) in
  peer_height p + 1 < u32_modulus → max + 1 < u32_modulus →
  sync_inv (peer_height p + 1) p →
  (∀ idx b, served env idx b → bf_index b = idx) →
  final_state (check_and_retrieve_missing_blocks (E := E) env draws Peer.apply_synchronized_block
                 (peer_height p) p) = Some p' →
  chain_ok (peer_storage p') ∧ storage_wf (peer_storage p').
Proof.
  intros max Hh Hmax Hinv Hserved Hf.
  assert (Hspec : sync_post env Peer.apply_synchronized_block sync_inv max (peer_height p)
    (check_and_retrieve_missing_blocks (E := E) env draws Peer.apply_synchronized_block (peer_height p) p)).
  { apply check_and_retrieve_spec; [done| | |done|done|done].
    - intros idx b q q' Hle Hq Hs. apply apply_ok_sync_inv; [lia|by apply Hserved|done].
    - intros idx b q x q' Hle Hq _. apply apply_err_sync_inv; [lia|done]. }
  unfold sync_post in Hspec. destruct (check_and_retrieve_missing_blocks _ _ _ _ _) as [[[]|] q| |]; try done;
    injection Hf as <-.
  - split; by eapply si_chain + eapply si_wf.
  - destruct Hspec as (idx & _ & _ & Hq). split; by eapply si_chain + eapply si_wf.
Qed.

(** A block that is staged is refused whenever it is served, whatever else
    holds: the linkage check answers no to a block it has already.  A peer that
    staged a proposal and missed its decision never gets that block by
    synchronizing. *)
Lemma staged_block_refused b p :
  bf_index b ≠ 0 → is_Some (uncommited_blocks (keeper (peer_storage p)) !! bf_hash b) →
  ∃ y, Peer.apply_synchronized_block b p = Err y p.
Proof.
  intros Hidx Hstaged.
  assert (Hno : BlockKeeper.block_can_be_added (E := string) b (peer_storage p) = Ret false (peer_storage p)).
  { unfold BlockKeeper.block_can_be_added. rewrite decide_False by done.
    rewrite !bind_gets, decide_True by done. done. }
  pose proof (apply_synchronized_cases b (effects p)) as Hc. unfold peer_storage in *. rewrite Hno in Hc.
  destruct Hc as [y Hy]. exists y. unfold Peer.apply_synchronized_block, PeerEffects.on_effects, zoom.
  rewrite Hy. by destruct p.
Qed.

(** A synchronized block whose write fails stays staged, and from then on
    the peer refuses it: every later attempt to apply the same block fails
    the linkage check, whatever the disk does. *)
Theorem failed_write_blocks_resync b p x p' s1 :
  peer_height p + 1 < u32_modulus → bf_index b ≠ 0 →
  BlockKeeper.block_can_be_added (E := string) b (peer_storage p) = Ret true (peer_storage p) →
  BlockKeeper.add_external_block b (peer_storage p) = Ret tt s1 →
  Peer.apply_synchronized_block b p = Err x p' →
  ∃ y, Peer.apply_synchronized_block b p' = Err y p'.
Proof.
  intros Hh Hidx Hadd Hext Ha.
  assert (Hstaged : is_Some (uncommited_blocks (keeper (peer_storage p')) !! bf_hash b)); [|by apply staged_block_refused].
  { unfold Peer.apply_synchronized_block, PeerEffects.on_effects, zoom in Ha.
    pose proof (apply_synchronized_cases b (effects p)) as Hc. unfold peer_storage in *. rewrite Hadd in Hc.
    destruct (PeerEffects.apply_synchronized_block b (effects p)) as [a e'|y e'|]; [done| |done].
    injection Ha as _ <-. rewrite Hext in Hc. destruct Hc as [[z ?]|(s2 & z & [= <-] & Hcommit)]; [done|].
    apply PeerTheorems.add_external_block_Ret in Hext as (_ & Hst & _ & Hu).
    apply StorageTheorems.commit_block_Err in Hcommit as (Hk & _); [|by rewrite Hst].
    cbn. rewrite Hk, Hu, lookup_insert_eq. eauto. }
Qed.
End peers.
End SyncTheorems.
