(* ===== verification/HonestSync.v ===== *)
(** * Synchronization with honest peers

    If all peers serve one chain that continues the caller's, then a
    synchronization is more than safe: it succeeds.  The loop takes the missing
    blocks one after the other, every fetch is agreed on, and every block is
    applied and committed. *)

From S2P Require Import Prelude Platform Crypto Transactions TransactionsFacts Storage Messages RaftLogStore Raft Voting Consensus Network Effects PeerNode KeeperFacts ChainFacts StorageTheorems PeerTheorems Synchronization SyncTheorems.

(** ** Fetching *)

Module Agreement.
Import Synchronization SyncFacts.
Section answers.
Context {BP : BuildProfile} {P : Platform} {PL : PlatformLaws} {HO : HashOrder} {HL : HashOrderLaws}.
Implicit Types (states : gmap PeerId BlockStorageState).

Lemma ok_states_replicate n st : ok_states (replicate n (Ok st)) = replicate n st.
Proof. unfold ok_states. induction n as [|n IH]; [done|]. cbn in *. by rewrite IH. Qed.

Lemma block_states_match_replicate n st : block_states_match (replicate n st) = true.
Proof.
  induction n as [|[|n] IH]; [done..|]. cbn [replicate block_states_match] in *.
  by rewrite bool_decide_eq_true_2, IH.
Qed.

(** The answers of peers that all report the state [st]. *)
Lemma answers_of_agreeing (answers : gmap PeerId (result BlockStorageState string)) (ids : list PeerId) st :
  dom answers ⊆ (list_to_set ids : gset PeerId) → NoDup ids →
  (∀ id, id ∈ ids → answers !! id = Some (Ok st)) →
  ok_states (map_order answers).*2 = replicate (length ids) st.
Proof.
  intros Hdom Hnd Hall.
  assert (Hsize : size answers = length ids).
  { rewrite <-(size_dom (D := gset PeerId)). replace (dom answers) with (list_to_set ids : gset PeerId); [by apply size_list_to_set|].
    apply set_eq. intros id. split; [|apply Hdom].
    intros Hid%elem_of_list_to_set. apply elem_of_dom. eauto. }
  assert (Hrep : (map_order answers).*2 = replicate (length ids) (Ok st)).
  { symmetry. apply replicate_as_elem_of. split.
    - by rewrite length_fmap, map_order_perm, length_map_to_list.
    - intros r ([id r'] & -> & Hin)%list_elem_of_fmap. rewrite map_order_perm in Hin.
      apply elem_of_map_to_list in Hin. cbn.
      assert (Hid : id ∈ ids). { apply (elem_of_list_to_set (C := gset PeerId)), Hdom, elem_of_dom. eauto. }
      apply Hall in Hid. congruence. }
  by rewrite Hrep, ok_states_replicate.
Qed.

(** Everybody in [states] has block [idx]. *)
Lemma everybody_can_be_asked states idx :
  (∀ id st, states !! id = Some st → idx ≤ block_height st) →
  length (PeersStates.get_peers_for_index states idx) = size states.
Proof.
  intros Hall. unfold PeersStates.get_peers_for_index. rewrite filter_keeps.
  - by rewrite length_fmap, map_order_perm, length_map_to_list.
  - apply Forall_forall. intros [id st] Hin. rewrite map_order_perm in Hin.
    apply elem_of_map_to_list in Hin. by apply Hall in Hin.
Qed.

Lemma max_index_of_agreeing states h id :
  is_Some (states !! id) → (∀ id st, states !! id = Some st → block_height st = h) →
  PeersStates.get_max_index states = h.
Proof.
  intros [st Hst] Hall. pose proof (get_max_index_bound states id st Hst) as Hle.
  rewrite (Hall _ _ Hst) in Hle. apply N.le_antisymm; [|done].
  unfold PeersStates.get_max_index.
  assert (Hf : Forall (λ y, y = h) (block_height <$> (map_order states).*2)).
  { apply Forall_fmap, Forall_fmap, Forall_forall. intros [id' st'] Hin. rewrite map_order_perm in Hin.
    apply elem_of_map_to_list in Hin. cbn. by apply (Hall id'). }
  destruct (block_height <$> (map_order states).*2) as [|x l]; [cbn; lia|]. cbn.
  apply Forall_cons in Hf as [-> Hf]. clear Hle.
  induction Hf as [|y l -> _ IH]; cbn; lia.
Qed.
End answers.

Section fetch.
Context {BP : BuildProfile} {P : Platform} {PL : PlatformLaws} {HO : HashOrder} {HL : HashOrderLaws}.
Context {Net : Type} `{!NetworkInterface Net, !RequestInterface Net, !RequestLaws Net}.
Context (env : nat → Net) (draws : nat → N).

(** A fetch from peers that agree yields the block they serve, whoever is
    asked. *)
Lemma get_block_file_agreed {S E} k idx states st b (s : S) :
  known_peers (env (2 * k + 1)%nat) ≠ [] →
  (length (known_peers (env (2 * k + 1)%nat)) ≤ size states)%nat →
  (∀ id st, states !! id = Some st → idx ≤ block_height st) →
  (∀ ids, (∀ id, id ∈ ids → is_Some (states !! id)) →
     ∃ answers, request_states (env (2 * k + 1)%nat) (GetBlockState idx) ids = Some answers ∧
       ∀ id, id ∈ ids → answers !! id = Some (Ok st)) →
  (∀ id, is_Some (states !! id) → request_block (env (2 * k + 2)%nat) id (GetBlock idx) = Some (Ok b)) →
  get_block_file (E := E) env draws k idx states s = Ret (Some b) s.
Proof.
  intros Hne Hsize Hheight Hstates Hblock. unfold get_block_file. cbv zeta.
  set (number := Nat.min (length (known_peers (env (2 * k + 1)%nat))) 3).
  set (ids := choose_multiple (draws (2 * k)%nat) (PeersStates.get_peers_for_index states idx) number).
  destruct (requested_peers (draws (2 * k)%nat) states idx number) as (Hnd & _ & Hin).
  fold ids in Hnd, Hin.
  assert (Hin' : ∀ id, id ∈ ids → is_Some (states !! id)) by (intros id (? & ? & _)%Hin; eauto).
  assert (Hlen : length ids = number).
  { unfold ids. rewrite choose_multiple_length, everybody_can_be_asked by done. unfold number. lia. }
  assert (Hn0 : number ≠ O) by (unfold number; destruct (known_peers (env (2 * k + 1)%nat)); [done|cbn; lia]).
  destruct (Hstates ids Hin') as (answers & Hreq & Hans). rewrite Hreq, bind_unwrap_Some.
  rewrite (answers_of_agreeing answers ids st); [|by eapply request_states_asked|done|done].
  rewrite decide_True by (split; [by rewrite length_replicate|apply block_states_match_replicate]).
  unfold random_index. rewrite decide_False by lia. rewrite bind_ret_l.
  pose proof (random_range_bounds (draws (2 * k + 1)%nat) 0 (N.of_nat number - 1) ltac:(lia)) as Hr.
  destruct (lookup_lt_is_Some_2 ids (N.to_nat (random_range (draws (2 * k + 1)%nat) 0 (N.of_nat number - 1))))
    as [id Hid]; [lia|].
  rewrite Hid, bind_unwrap_Some, Hblock; [by rewrite bind_unwrap_Some|]. by eapply Hin', list_elem_of_lookup_2.
Qed.

(** If every missing block is fetched and the closure accepts them one after
    the other, the loop takes exactly them and succeeds. *)
Lemma sync_loop_fetches {T E} (apply_block : BlockFile → M T string unit) fuel states missing :
  ∀ k idx (s s' : T),
  (∀ j b, missing !! j = Some b → ∀ k' (t : T),
     get_block_file (E := E) env draws k' (idx + N.of_nat j) states t = Ret (Some b) t) →
  PeersStates.get_max_index states + 1 = idx + N.of_nat (length missing) →
  PeersStates.get_max_index states + 1 < u32_modulus → (length missing < fuel)%nat →
  for_each missing apply_block s = Ret tt s' →
  sync_loop (E := E) env draws apply_block fuel k states idx 0 s = Ret (Some SUCCESS) s'.
Proof.
  revert missing. induction fuel as [|fuel IH]; [lia|].
  intros [|b missing] k idx s s' Hfetch Hmax Hm Hfuel; cbn [for_each length sync_loop] in *.
  { intros [= <-]. by rewrite decide_True by lia. }
  intros ([] & s1 & Hb & Hrest)%bind_Ret. rewrite decide_False by lia. rewrite decide_False by done.
  pose proof (Hfetch O b eq_refl k s) as H0. rewrite N.add_0_r in H0. rewrite (bind_of _ _ _ _ _ H0).
  unfold bind at 1 2, try_ at 1. rewrite Hb. unfold ret at 1. cbn [is_ok].
  unfold bind at 1, add_u32. rewrite checked_plus_exact by lia. unfold unwrap, ret at 1.
  apply (IH missing); [|lia|done|lia|done].
  intros j b' Hj k' t. replace (idx + 1 + N.of_nat j) with (idx + N.of_nat (S j)) by lia. by apply Hfetch.
Qed.
End fetch.
End Agreement.

(** ** Applying *)

Module Continuation.
Import SyncTheorems Synchronized KeeperFacts Chain TransactionProcessor Ledger Rollback.

(** The blocks [bs] continue a chain of the given height and tip. *)
Fixpoint continues `{Platform} `{!Serde (list SignedTransaction)} (height : N) (hash : BlockHash) (bs : list BlockFile) : Prop :=
  match bs with
  | [] => True
  | b :: bs => bf_index b = height + 1 ∧ bf_previous_hash b = hash ∧
      BlockFile.verify_block b = Ok tt ∧ continues (height + 1) (bf_hash b) bs
  end.

Section ledger.
Context {BP : BuildProfile} {P : Platform}.
Implicit Types (t : TransactionProcessor) (txs : list SignedTransaction).

(** Everything these transactions may mint fits the balances. *)
Definition supply_fits txs t : Prop := ∀ a, supply a t + minted_all a txs < u32_modulus.

Lemma minted_all_app a txs txs' : minted_all a (txs ++ txs') = minted_all a txs + minted_all a txs'.
Proof. unfold minted_all. induction txs as [|tx txs IH]; cbn; [done|]. rewrite IH. lia. Qed.

(** A transaction that is accepted or skipped mints at most its amount. *)
Lemma process_tolerated tx t :
  (∀ a, supply a t + minted a tx < u32_modulus) →
  ∃ r t', try_ (F := Empty_set) (process_transaction tx) t = Ret r t' ∧
    ∀ a, supply a t' ≤ supply a t + minted a tx.
Proof.
  intros Hfit. unfold try_. destruct (decide (tx_id tx ∈ applied_transactions t)) as [Hin|Hnew].
  { rewrite process_applied by done. eexists _, _. split; [done|]. intros a. lia. }
  destruct (LedgerTheorems.process_transaction_decides tx t Hnew) as [[Hacc ->]|[_ [e He]]]; [apply Hfit|..].
  - eexists _, _. split; [done|]. intros a. unfold supply. cbn. by rewrite total_exact_accounts.
  - pose proof (LedgerTheorems.process_transaction_at_most_once tx t) as H. rewrite He in *.
    eexists _, _. split; [done|]. intros a. lia.
Qed.
End ledger.

Section peers.
Context {BP : BuildProfile} {P : Platform} {PL : PlatformLaws} {HO : HashOrder} {HL : HashOrderLaws}.
Context `{!Serde PersistedRaftLogState, !Serde (list SignedTransaction), !Serde BlockFile}.
Context `{!Serde Transaction, !Serde SignedTransaction, !SerdeLaws BlockFile}.
Context {Net : Type} `{!NetworkInterface Net}.
Implicit Types (p : Peer Net) (e : PeerEffects Net) (bs : list BlockFile).

Lemma apply_block_total {E} b e :
  supply_fits (bf_transactions b) (transaction_processor e) →
  ∃ e', PeerEffects.apply_block_transactions (E := E) b e = Ret tt e' ∧ block_keeper e' = block_keeper e ∧
    ∀ a, supply a (transaction_processor e') ≤ supply a (transaction_processor e) + minted_all a (bf_transactions b).
Proof.
  unfold PeerEffects.apply_block_transactions. revert e. induction (bf_transactions b) as [|tx txs IH]; intros e Hfit.
  { exists e. split_and!; [done..|]. intros a. cbn. lia. }
  cbn [for_each]. change (minted_all ?a (tx :: txs)) with (minted a tx + minted_all a txs) in *.
  destruct (process_tolerated tx (transaction_processor e)) as (r & t' & Ht & Hs).
  { intros a. specialize (Hfit a). change (minted_all a (tx :: txs)) with (minted a tx + minted_all a txs) in Hfit. lia. }
  assert (H1 : (let* _ := PeerEffects.on_ledger (E := E) (try_ (process_transaction tx)) in ret tt) e =
    Ret tt (e <| transaction_processor := t' |>)).
  { revert Ht. unfold bind, PeerEffects.on_ledger, zoom, try_. destruct (process_transaction tx _); by intros [= _ <-]. }
  rewrite (bind_of _ _ _ _ _ H1).
  destruct (IH (e <| transaction_processor := t' |>)) as (e' & He & Hk & Hs').
  { intros a. specialize (Hfit a); specialize (Hs a). cbn.
    change (minted_all a (tx :: txs)) with (minted a tx + minted_all a txs) in Hfit. lia. }
  exists e'. split_and!; [done..|]. intros a. specialize (Hs' a); specialize (Hs a). cbn in Hs'.
  change (minted_all a (tx :: txs)) with (minted a tx + minted_all a txs). lia.
Qed.

(** A peer that is able to take the blocks [bs]: they continue its chain, none
    of them is staged, its disk takes and gives back files, and the supply
    stays within the balances. *)
Record ready_for p bs : Prop := {
  rf_height : peer_height p + N.of_nat (length bs) + 1 < u32_modulus;
  rf_continues : continues (peer_height p) (last_commited_hash (storage_state (peer_storage p))) bs;
  rf_wf : storage_wf (peer_storage p);
  rf_unstaged b : b ∈ bs → uncommited_blocks (keeper (peer_storage p)) !! bf_hash b = None;
  rf_dir : is_Some (dirs (disk (peer_storage p)) !! path_to_blocks (keeper (peer_storage p)));
  rf_write i : write_faults (disk (peer_storage p)) !!
    (path_to_blocks (keeper (peer_storage p)), block_filename_for_index i) = None;
  rf_read i : (path_to_blocks (keeper (peer_storage p)), block_filename_for_index i)
    ∉ read_faults (disk (peer_storage p));
  rf_supply : supply_fits (bs ≫= bf_transactions) (transaction_processor (effects p));
}.

Lemma can_be_added_at_tip {E} b s :
  bf_index b = block_height (storage_state s) + 1 → bf_previous_hash b = last_commited_hash (storage_state s) →
  uncommited_blocks (keeper s) !! bf_hash b = None →
  BlockKeeper.block_can_be_added (E := E) b s = Ret true s.
Proof.
  intros Hi Hp Hu. unfold BlockKeeper.block_can_be_added. rewrite decide_False by lia. rewrite !bind_gets.
  rewrite decide_False by (rewrite Hu; by intros [? ?]). unfold bind at 1, sub_u32, unwrap.
  rewrite checked_minus_exact by lia. unfold ret at 1. rewrite decide_True by lia. by rewrite bool_decide_eq_true_2.
Qed.

(** Staging a verified block that is in place always works. *)
Lemma add_external_total b s :
  BlockFile.verify_block b = Ok tt →
  ∃ s', BlockKeeper.add_external_block b s = Ret tt s'.
Proof.
  intros Hv. unfold BlockKeeper.add_external_block. rewrite Hv. unfold of_result. rewrite bind_ret_l.
  assert (Ht : Prelude.total (E := BlockVerificationError) (for_each (bf_transactions b) BlockKeeper.take_from_mempool)).
  { apply for_each_total. intros tx s0. unfold BlockKeeper.take_from_mempool. rewrite bind_gets.
    destruct (mempool (keeper s0) !! tx_id tx); by eexists _, _. }
  destruct (Ht s) as ([] & s1 & H1). rewrite (bind_of _ _ _ _ _ H1). by eexists.
Qed.

Lemma commit_staged_total h b s :
  block_height (storage_state s) + 1 < u32_modulus → uncommited_blocks (keeper s) !! h = Some b →
  write_faults (disk s) !! commit_path s = None → is_Some (dirs (disk s) !! path_to_blocks (keeper s)) →
  ∃ s', BlockKeeper.commit_block h s = Ret tt s'.
Proof.
  intros Hh Hb Hw Hd. pose proof (commit_block_cases h s Hh) as H. rewrite Hb in H.
  rewrite (proj2 (fs_write_Ret (commit_path s) (to_vec b) (disk s) _)) in H by (by split_and!).
  destruct H as [m ->]. by eexists.
Qed.

(** The first of the missing blocks is applied, and then the peer is able to
    take the others. *)
Lemma apply_next b bs p :
  ready_for p (b :: bs) →
  ∃ p', Peer.apply_synchronized_block b p = Ret tt p' ∧ ready_for p' bs ∧
    peer_height p' = peer_height p + 1 ∧
    stored (peer_storage p') (peer_height p + 1) = Ok b ∧
    ∀ i, i ≤ peer_height p → stored (peer_storage p') i = stored (peer_storage p) i.
Proof.
  intros [Hh (Hi & Hprev & Hv & Hcont) Hwf Hun Hdir Hwr Hrd Hsup]. cbn [length] in Hh.
  change ((b :: bs) ≫= bf_transactions) with (bf_transactions b ++ (bs ≫= bf_transactions)) in Hsup.
  assert (Hfit : ∀ a, supply a (transaction_processor (effects p)) + minted_all a (bf_transactions b) +
    minted_all a (bs ≫= bf_transactions) < u32_modulus).
  { intros a. specialize (Hsup a). rewrite minted_all_app in Hsup. lia. }
  pose proof (can_be_added_at_tip (E := string) b (peer_storage p) Hi Hprev (Hun b (list_elem_of_here _ _))) as Hadd.
  destruct (apply_block_total (E := string) b (effects p)) as (e2 & H2 & Hk2 & Hs2); [intros a; specialize (Hfit a); lia|].
  destruct (add_external_total b (peer_storage p) Hv) as (s3 & H3).
  destruct (PeerTheorems.add_external_block_Ret b _ _ H3) as (_ & Hst3 & Hd3 & Hu3).
  destruct (StorageTheorems.add_external_block_same_disk (peer_storage p) b (peer_storage p) s3) as (_ & _ & Hp3 & _);
    [done|by rewrite H3|].
  pose proof (add_external_block_wf b _ s3 Hwf) as Hwf3. rewrite H3 in Hwf3. specialize (Hwf3 eq_refl).
  destruct (commit_staged_total (bf_hash b) b s3) as (s4 & H4).
  { rewrite Hst3. unfold peer_height in Hh. lia. }
  { by rewrite Hu3, lookup_insert_eq. }
  { unfold commit_path. rewrite Hd3, Hp3. apply Hwr. }
  { by rewrite Hd3, Hp3. }
  set (p' := p <| effects := (e2 <| block_keeper := s4 |>) <| last_completed_block := bf_hash b |> |>).
  assert (Hrun : Peer.apply_synchronized_block b p = Ret tt p').
  { unfold Peer.apply_synchronized_block, PeerEffects.on_effects, zoom.
    unfold PeerEffects.apply_synchronized_block.
    assert (H1 : PeerEffects.on_keeper (E := string) (BlockKeeper.block_can_be_added b) (effects p) = Ret true (effects p)).
    { unfold PeerEffects.on_keeper, zoom. unfold peer_storage in Hadd. rewrite Hadd. by destruct (effects p). }
    rewrite (bind_of _ _ _ _ _ H1). cbn [negb]. cbv zeta. rewrite (bind_of _ _ _ _ _ H2).
    unfold bind, map_err, PeerEffects.on_keeper, zoom. rewrite Hk2. unfold peer_storage in H3. rewrite H3.
    cbn [block_keeper update_field]. rewrite H4. done. }
  exists p'. split; [exact Hrun|].
  apply commit_block_commits in H4 as (b' & Eb & _ & _ & Hc); [|rewrite Hst3; unfold peer_height in Hh; lia|done].
  rewrite Hu3, lookup_insert_eq in Eb. injection Eb as <-.
  pose proof (apply_ok_height b p p' ltac:(unfold peer_height in *; lia) Hwf Hrun) as [Hh' Hwf'].
  assert (Hs' : peer_storage p' = s4) by done.
  assert (Hpath : path_to_blocks (keeper s4) = path_to_blocks (keeper (peer_storage p))).
  { by rewrite (commits_path _ _ _ Hc). }
  assert (Hstate : storage_state s4 = mkBlockStorageState (peer_height p + 1) (bf_hash b)).
  { by rewrite (commits_state _ _ _ Hc), Hst3. }
  assert (Hdisk : disk s4 = store_file (disk (peer_storage p)) (commit_path s3) (to_vec b)).
  { by rewrite (commits_disk _ _ _ Hc), Hd3. }
  assert (Hold : ∀ i, i ≠ peer_height p + 1 → stored s4 i = stored (peer_storage p) i).
  { intros i Hne. rewrite (stored_frame _ _ _ _ Hc) by (rewrite Hst3; done).
    unfold stored, BlockStorageView.get_block. by rewrite Hd3, Hp3. }
  split_and!; [|done| |intros i Hle; rewrite Hs'; apply Hold; lia].
  - split; rewrite ?Hh', ?Hs', ?Hpath, ?Hdisk, ?Hstate; cbn [last_commited_hash].
    + lia.
    + done.
    + done.
    + intros b' Hb'. rewrite (commits_uncommited _ _ _ Hc), Hu3, delete_insert_eq, lookup_delete.
      case_decide; [done|]. apply Hun. by right.
    + by apply store_file_dir.
    + done.
    + done.
    + intros a. cbn. specialize (Hfit a); specialize (Hs2 a). lia.
  - rewrite Hs'. pose proof (stored_new _ _ _ Hc) as Hn. rewrite Hst3 in Hn. apply Hn.
    unfold commit_path. rewrite Hd3, Hp3. apply Hrd.
Qed.

(** All missing blocks are applied, and read back from the disk. *)
Lemma apply_missing bs p :
  ready_for p bs →
  ∃ p', for_each bs Peer.apply_synchronized_block p = Ret tt p' ∧
    peer_height p' = peer_height p + N.of_nat (length bs) ∧
    (∀ j b, bs !! j = Some b → stored (peer_storage p') (peer_height p + 1 + N.of_nat j) = Ok b) ∧
    ∀ i, i ≤ peer_height p → stored (peer_storage p') i = stored (peer_storage p) i.
Proof.
  revert p. induction bs as [|b bs IH]; intros p Hr.
  { exists p. cbn. split_and!; [done|lia| |done]. intros j b. by rewrite lookup_nil. }
  destruct (apply_next b bs p Hr) as (p1 & H1 & Hr1 & Hh1 & Hb1 & Hold1).
  destruct (IH p1 Hr1) as (p' & H & Hh & Hnew & Hold). exists p'. cbn [for_each length].
  split_and!; [by rewrite (bind_of _ _ _ _ _ H1)|lia|..].
  - intros [|j] b'; cbn [lookup list_lookup].
    + intros [= <-]. rewrite N.add_0_r. by rewrite Hold by lia.
    + intros Hj. replace (peer_height p + 1 + N.of_nat (S j)) with (peer_height p1 + 1 + N.of_nat j) by lia.
      by apply Hnew.
  - intros i Hi. rewrite Hold by lia. by apply Hold1.
Qed.
End peers.
End Continuation.

(** ** The whole call *)

Module HonestSync.
Import Synchronization SyncFacts SyncTheorems Agreement Continuation.
Section peers.
Context {BP : BuildProfile} {P : Platform} {PL : PlatformLaws} {HO : HashOrder} {HL : HashOrderLaws}.
Context `{!Serde PersistedRaftLogState, !Serde (list SignedTransaction), !Serde BlockFile}.
Context `{!Serde Transaction, !Serde SignedTransaction, !SerdeLaws BlockFile}.
Context {Net : Type} `{!NetworkInterface Net}.
Context {Env : Type} `{!NetworkInterface Env, !RequestInterface Env, !RequestLaws Env}.
Implicit Types (p : Peer Net).

(** The peers of a network agree on block [idx]: whoever of [reported] is
    asked for its state or for itself gives the same. *)
Record agree_on (env : nat → Env) (reported : gmap PeerId BlockStorageState) (idx : N) (b : BlockFile) : Prop := {
  ag_known k : known_peers (env (2 * k + 1)%nat) ≠ [] ∧
    (length (known_peers (env (2 * k + 1)%nat)) ≤ size reported)%nat;
  ag_states k ids : (∀ id, id ∈ ids → is_Some (reported !! id)) →
    ∃ answers, request_states (env (2 * k + 1)%nat) (GetBlockState idx) ids = Some answers ∧
      ∀ id, id ∈ ids → answers !! id = Some (Ok (state_of_block b));
  ag_block k id : is_Some (reported !! id) →
    request_block (env (2 * k + 2)%nat) id (GetBlock idx) = Some (Ok b);
}.

Lemma sync_succeeds (env : nat → Env) draws {E} p missing reported :
  get_latest_indexes (env O) = Some reported →
  reported ≠ ∅ →
  (∀ id st, reported !! id = Some st → block_height st = peer_height p + N.of_nat (length missing)) →
  (∀ j b, missing !! j = Some b → agree_on env reported (peer_height p + 1 + N.of_nat j) b) →
  ready_for p missing →
  ∃ p', check_and_retrieve_missing_blocks (E := E) env draws Peer.apply_synchronized_block (peer_height p) p =
      Ret (Some SUCCESS) p' ∧
    for_each missing Peer.apply_synchronized_block p = Ret tt p'.
Proof.
  intros Hreported Hne Hheight Hagree Hready.
  destruct (apply_missing missing p Hready) as (p' & Hrun & _). exists p'. split; [|exact Hrun].
  pose proof (rf_height _ _ Hready) as Hm.
  assert (Hmax : PeersStates.get_max_index reported = peer_height p + N.of_nat (length missing)).
  { apply map_choose in Hne as (id & st & Hid). by eapply max_index_of_agreeing; [eexists|]. }
  unfold check_and_retrieve_missing_blocks. rewrite Hreported, bind_unwrap_Some. cbv zeta. rewrite Hmax.
  case_decide as Hdone.
  { destruct missing; [|cbn [length] in Hdone; lia]. cbn in Hrun. by injection Hrun as <-. }
  unfold bind at 1, add_u32. rewrite checked_plus_exact by lia. unfold unwrap, ret at 1.
  apply sync_loop_fetches with (missing := missing); [|lia|lia| |exact Hrun].
  - intros j b Hj k t. destruct (Hagree j b Hj) as [Hknown Hst Hb].
    apply lookup_lt_Some in Hj as Hlt. destruct (Hknown k).
    apply (get_block_file_agreed env draws k _ reported (state_of_block b)); try done.
    + intros id st Hid. rewrite (Hheight _ _ Hid). lia.
    + apply Hst.
    + apply Hb.
  - unfold sync_fuel. lia.
Qed.
End peers.
End HonestSync.
