(* ===== verification/Replay.v ===== *)
(** * Replaying the stored blocks

    [read_state] against what the ledger of a peer is: on a store that holds
    the blocks [l], reading the directory and replaying the files is processing
    the transactions of [l] in order; and for a peer that got its blocks by
    synchronization the ledger this gives is the peer's own. *)

From S2P Require Import Prelude Platform Crypto Transactions Storage BlockNames KeeperFacts ChainFacts StorageTheorems Refinement Messages RaftLogStore Raft Voting Consensus Network Effects PeerNode PeerTheorems Synchronization SyncTheorems.

Module Replay.
Import KeeperFacts Chain Restart Refinement SyncFacts SyncTheorems.

(** ** Listing a chain *)
Section listing.
Context {P : Platform} {PL : PlatformLaws} {HO : HashOrder} {HL : HashOrderLaws}.
Context `{!Serde (list SignedTransaction), !Serde BlockFile}.
Implicit Types (s : Storage) (l : list BlockFile).

Definition chain_names (n : nat) : list string :=
  (λ i, block_filename_for_index (N.of_nat i)) <$> seq 1 n.

Lemma chain_names_nodup n : NoDup (chain_names n).
Proof.
  apply NoDup_fmap_2; [|apply NoDup_seq]. intros i j H%block_filename_inj. lia.
Qed.

Lemma chain_names_sorted n : N.of_nat n < 100000 → StronglySorted string_le (chain_names n).
Proof.
  intros Hn. unfold chain_names. assert (H : ∀ k m, N.of_nat (k + m) ≤ 100000 →
    StronglySorted string_le ((λ i, block_filename_for_index (N.of_nat i)) <$> seq k m)).
  { intros k m. revert k. induction m as [|m IH]; intros k Hk; [constructor|].
    cbn. constructor; [apply IH; lia|]. apply Forall_fmap, Forall_forall. intros i Hi%elem_of_seq.
    apply block_filename_le; lia. }
  apply H. lia.
Qed.

Lemma list_all_blocks_nodup d dir : NoDup (list_all_blocks d dir).
Proof.
  unfold list_all_blocks, read_dir. case_decide; [constructor|].
  destruct (dirs d !! dir) as [files|]; [|constructor].
  rewrite push_all_perm, app_nil_r. apply NoDup_filter. rewrite map_order_perm. apply NoDup_fst_map_to_list.
Qed.

(** The directory of a chain lists its files in the order of their heights. *)
Lemma listing_chain s l :
  path_to_blocks (keeper s) ∉ dir_faults (disk s) → represents s l → dir_ok s → N.of_nat (length l) < 100000 →
  list_all_blocks (disk s) (path_to_blocks (keeper s)) = chain_names (length l).
Proof.
  intros Hf Hrep Hdir Hl. apply (StronglySorted_unique string_le).
  - apply list_all_blocks_sorted.
  - by apply chain_names_sorted.
  - apply NoDup_Permutation; [apply list_all_blocks_nodup|apply chain_names_nodup|]. intros name.
    rewrite elem_of_list_all_blocks by done. unfold chain_names. rewrite list_elem_of_fmap. split.
    + intros [Hn Hp]. destruct (Hdir name Hn Hp) as (i & Hpos & Hle & ->).
      rewrite (rep_height _ _ Hrep) in Hle. exists (N.to_nat i). rewrite N2Nat.id. split; [done|].
      apply elem_of_seq. lia.
    + intros (i & -> & Hi%elem_of_seq). rewrite block_filename_pattern. split; [|eauto].
      destruct (lookup_lt_is_Some_2 l (i - 1)) as [b Hb]; [lia|].
      pose proof (rep_blocks _ _ Hrep _ _ Hb) as Hs. unfold stored, BlockStorageView.get_block,
        BlockFile.read_from_disk_by_index, BlockFile.read_from_disk, fs_read in Hs.
      replace (N.of_nat (i - 1) + 1) with (N.of_nat i) in Hs by lia.
      case_decide; [done|]. destruct (file_at _ _); [eauto|done].
Qed.
End listing.

(** ** Replaying *)
Section replay.
Context {BP : BuildProfile} {P : Platform} {PL : PlatformLaws} {HO : HashOrder} {HL : HashOrderLaws}.
Context `{!Serde (list SignedTransaction), !Serde BlockFile}.
Implicit Types (s : Storage) (l : list BlockFile) (t : TransactionProcessor).

(** Transactions one after the other: the first failure ends it, or failures
    are skipped, as applying a block does. *)
Definition strictly (tx : SignedTransaction) : M TransactionProcessor string unit :=
  map_err validation_error_display (TransactionProcessor.process_transaction tx).
Definition tolerantly {E} (tx : SignedTransaction) : M TransactionProcessor E unit :=
  let* _ := try_ (TransactionProcessor.process_transaction tx) in ret tt.

Lemma strict_is_tolerant {E} txs t t' :
  for_each txs strictly t = Ret tt t' → for_each txs (tolerantly (E := E)) t = Ret tt t'.
Proof.
  revert t. induction txs as [|tx txs IH]; intros t; cbn [for_each]; [by intros [= ->]|].
  unfold bind at 1 2, strictly at 1, tolerantly at 1, map_err, bind at 1, try_.
  destruct (TransactionProcessor.process_transaction tx t) as [[] t1|e t1|]; [|done..].
  unfold ret. apply IH.
Qed.

Lemma bind_cong {S E A B} (m1 m2 : M S E A) (k1 k2 : A → M S E B) (x : S) :
  m1 x = m2 x → (∀ a y, k1 a y = k2 a y) → bind m1 k1 x = bind m2 k2 x.
Proof. unfold bind. intros -> Hk. by destruct (m2 x). Qed.

(** The files of a chain, from the [k]-th block on. *)
Lemma replay_files s l l0 l1 t :
  represents s l → l = l0 ++ l1 →
  for_each ((λ i, block_filename_for_index (N.of_nat i)) <$> seq (S (length l0)) (length l1)) (λ block_name,
    let* transactions := of_result (BlockKeeper.read_transactions_from_disk s block_name) in
    for_each transactions strictly) t =
  for_each l1 (λ b, for_each (bf_transactions b) strictly) t.
Proof.
  intros Hrep. revert l0 t. induction l1 as [|b l1 IH]; intros l0 t Hl; [done|].
  assert (Hb : stored s (N.of_nat (length l0) + 1) = Ok b).
  { apply (rep_blocks _ _ Hrep). by rewrite Hl, lookup_app_r, Nat.sub_diag. }
  cbn [length seq fmap list_fmap for_each]. apply bind_cong.
  - unfold BlockKeeper.read_transactions_from_disk. unfold stored, BlockStorageView.get_block,
      BlockFile.read_from_disk_by_index in Hb.
    replace (N.of_nat (S (length l0))) with (N.of_nat (length l0) + 1) by lia. by rewrite Hb.
  - intros [] t1. specialize (IH (l0 ++ [b]) t1). rewrite length_app, Nat.add_1_r in IH.
    apply IH. by rewrite Hl, <-app_assoc.
Qed.

Lemma replay_chain s l t :
  path_to_blocks (keeper s) ∉ dir_faults (disk s) → represents s l → dir_ok s →
  N.of_nat (length l) < 100000 →
  read_state s t = for_each (l ≫= bf_transactions) strictly t.
Proof.
  intros Hf Hrep Hdir Hl. unfold read_state. rewrite (listing_chain s l) by done.
  rewrite for_each_bind. by apply (replay_files s l [] l).
Qed.
End replay.

(** ** The ledger of a synchronized peer *)
Section peers.
Context {BP : BuildProfile} {P : Platform} {PL : PlatformLaws} {HO : HashOrder} {HL : HashOrderLaws}.
Context `{!Serde PersistedRaftLogState, !Serde (list SignedTransaction), !Serde BlockFile}.
Context `{!Serde Transaction, !Serde SignedTransaction, !SerdeLaws BlockFile}.
Context {Net : Type} `{!NetworkInterface Net}.
Implicit Types (p : Peer Net) (e : PeerEffects Net) (bs l : list BlockFile).

Definition ledger_of p : TransactionProcessor := transaction_processor (effects p).

Lemma apply_transactions_ledger {E} b e e' :
  PeerEffects.apply_block_transactions (E := E) b e = Ret tt e' →
  for_each (bf_transactions b) (tolerantly (E := E)) (transaction_processor e) = Ret tt (transaction_processor e').
Proof.
  unfold PeerEffects.apply_block_transactions. revert e.
  induction (bf_transactions b) as [|tx txs IH]; intros e; cbn [for_each]; [by intros [= ->]|].
  intros ([] & e1 & H1 & H)%bind_Ret. rewrite (bind_of _ _ _ tt (transaction_processor e1)); [by apply IH|].
  revert H1. unfold tolerantly, PeerEffects.on_ledger, zoom, bind, try_.
  destruct (TransactionProcessor.process_transaction tx _); by intros [= <-].
Qed.

Lemma apply_synchronized_ledger b p p' :
  Peer.apply_synchronized_block b p = Ret tt p' →
  for_each (bf_transactions b) (tolerantly (E := string)) (ledger_of p) = Ret tt (ledger_of p').
Proof.
  unfold Peer.apply_synchronized_block, PeerEffects.on_effects. intros (e' & He & ->)%PeerFacts.zoom_Ret.
  unfold ledger_of. cbn [effects update_field]. revert He. unfold PeerEffects.apply_synchronized_block.
  intros (ok & e1 & H1 & He)%bind_Ret.
  assert (Hl : ∀ {A E} (m : M Storage E A) e a e', PeerEffects.on_keeper m e = Ret a e' →
    transaction_processor e' = transaction_processor e).
  { intros A E m e0 a e2. unfold PeerEffects.on_keeper, zoom. destruct (m _); intros [= _ <-]. done. }
  apply Hl in H1. destruct ok; [|done]. cbn [negb] in He.
  apply bind_Ret in He as ([] & e2 & H2 & He). apply apply_transactions_ledger in H2. rewrite H1 in H2.
  apply bind_Ret in He as ([] & e3 & H3 & He). apply bind_Ret in He as ([] & e4 & H4 & [= <-]).
  apply Hl in H4. cbn. rewrite H4.
  assert (H3' : transaction_processor e3 = transaction_processor e2); [|by rewrite H3'].
  revert H3. unfold map_err, PeerEffects.on_keeper, zoom. destruct (BlockKeeper.add_external_block b _) as [[]| |]; intros [= <-]; done.
Qed.

(** What a store has to be for its blocks to be replayed. *)
Record replayable (s : Storage) l : Prop := {
  rp_represents : represents s l;
  rp_dir : dir_ok s;
  rp_wf : storage_wf s;
  rp_list : path_to_blocks (keeper s) ∉ dir_faults (disk s);
  rp_read name : (path_to_blocks (keeper s), name) ∉ read_faults (disk s);
}.

Lemma apply_ok_replayable b p p' l :
  peer_height p + 1 < u32_modulus → replayable (peer_storage p) l →
  Peer.apply_synchronized_block b p = Ret tt p' → replayable (peer_storage p') (l ++ [b]).
Proof.
  intros Hm [Hrep Hdir Hwf Hlist Hread] Ha. pose proof (apply_ok_height b p p' Hm Hwf Ha) as [_ Hwf'].
  destruct (apply_ok_commits b p p' Ha) as (s1 & _ & Hext & Hc).
  pose proof (add_external_block_wf b _ s1 Hwf) as Hwf1. rewrite Hext in Hwf1. specialize (Hwf1 eq_refl).
  pose proof (StorageTheorems.add_external_block_same_disk (peer_storage p) b (peer_storage p) s1) as Hsame.
  rewrite Hext in Hsame. destruct Hsame as (Hd & Hst & Hp & _); [done|done|].
  apply PeerTheorems.add_external_block_Ret in Hext as (_ & _ & _ & Hu).
  apply commit_block_commits in Hc as (b' & Eb & _ & _ & Hc); [|by rewrite Hst|done].
  rewrite Hu, lookup_insert_eq in Eb. injection Eb as <-.
  assert (Hs1 : ∀ i, stored s1 i = stored (peer_storage p) i).
  { intros i. unfold stored, BlockStorageView.get_block. by rewrite Hd, Hp. }
  split; [| |done|..].
  - apply (represents_append _ _ _ _ Hc); [rewrite Hd; unfold commit_path; rewrite Hp; apply Hread|].
    by apply (represents_frame (peer_storage p)).
  - apply (commits_dir_ok _ _ _ Hc). intros name. rewrite Hd, Hp, Hst. apply Hdir.
  - rewrite (commits_path _ _ _ Hc), (commits_disk _ _ _ Hc), Hp. cbn. by rewrite Hd.
  - intros name. rewrite (commits_path _ _ _ Hc), (commits_disk _ _ _ Hc), Hp. cbn. by rewrite Hd.
Qed.

Lemma apply_all_replayable bs p p' l :
  N.of_nat (length l + length bs) < 100000 → replayable (peer_storage p) l →
  for_each bs Peer.apply_synchronized_block p = Ret tt p' →
  replayable (peer_storage p') (l ++ bs) ∧
  for_each (bs ≫= bf_transactions) (tolerantly (E := string)) (ledger_of p) = Ret tt (ledger_of p').
Proof.
  revert p l. induction bs as [|b bs IH]; intros p l Hl Hr; cbn [for_each].
  - intros [= <-]. by rewrite app_nil_r.
  - intros ([] & p1 & H1 & H)%bind_Ret. cbn [length] in Hl.
    assert (Hh : peer_height p + 1 < u32_modulus).
    { unfold peer_height. rewrite (rep_height _ _ (rp_represents _ _ Hr)). unfold u32_modulus. lia. }
    destruct (IH p1 (l ++ [b])) as [Hr' Hledger]; [rewrite length_app; cbn; lia|by eapply apply_ok_replayable|done|].
    rewrite <-app_assoc in Hr'. split; [done|].
    change ((b :: bs) ≫= bf_transactions) with (bf_transactions b ++ (bs ≫= bf_transactions)).
    rewrite for_each_app. erewrite bind_of; [exact Hledger|]. by apply apply_synchronized_ledger.
Qed.

(** C19. Replaying the stored blocks is equivalent to having applied them.  Take a
    peer that started empty, with a directory of readable files that is its
    own, and then applied the blocks [bs] with [apply_synchronized_block], every
    call succeeding (a refused block would still change the ledger,
    [PeerTheorems.unverified_block_applied]), and fewer than 100000 of them
    (file names sort as numbers up to there).  Then [read_state] on its store
    processes exactly the transactions of these blocks in their order, and if it
    succeeds the ledger it builds is the peer's own. *)
Theorem replay_restores_ledger bs p p' :
  replayable (peer_storage p) [] → ledger_of p = TransactionProcessor_default →
  for_each bs Peer.apply_synchronized_block p = Ret tt p' → N.of_nat (length bs) < 100000 →
  read_state (peer_storage p') TransactionProcessor_default =
    for_each (bs ≫= bf_transactions) strictly TransactionProcessor_default ∧
  ∀ t, read_state (peer_storage p') TransactionProcessor_default = Ret tt t → t = ledger_of p'.
Proof.
  intros Hr Hl Hrun Hlen. destruct (apply_all_replayable bs p p' [] Hlen Hr Hrun) as [[Hrep Hdir _ Hlist _] Hledger].
  assert (Heq : read_state (peer_storage p') TransactionProcessor_default =
    for_each (bs ≫= bf_transactions) strictly TransactionProcessor_default) by by apply replay_chain.
  split; [done|]. intros t Ht. rewrite Heq in Ht. apply (strict_is_tolerant (E := string)) in Ht.
  rewrite <-Hl, Hledger in Ht. by injection Ht.
Qed.

(** Where they differ: a block with a transaction that fails is applied
    without it, and the replay ends there. *)
Theorem replay_stops_at_skipped bs p p' before tx after t1 x t2 :
  replayable (peer_storage p) [] → ledger_of p = TransactionProcessor_default →
  for_each bs Peer.apply_synchronized_block p = Ret tt p' → N.of_nat (length bs) < 100000 →
  bs ≫= bf_transactions = before ++ tx :: after →
  for_each before strictly TransactionProcessor_default = Ret tt t1 →
  TransactionProcessor.process_transaction tx t1 = Err x t2 →
  read_state (peer_storage p') TransactionProcessor_default = Err (validation_error_display x) t2.
Proof.
  intros Hr Hl Hrun Hlen Htxs Hbefore Hx.
  destruct (apply_all_replayable bs p p' [] Hlen Hr Hrun) as [[Hrep Hdir _ Hlist _] _].
  rewrite (replay_chain _ _ _ Hlist Hrep Hdir Hlen). cbn [app]. rewrite Htxs, for_each_app.
  rewrite (bind_of _ _ _ _ _ Hbefore). cbn [for_each]. unfold bind, strictly, map_err. by rewrite Hx.
Qed.
End peers.
End Replay.
