(* ===== verification/NetworkTheorems.v ===== *)
(** * The networks: theorems and laws

    The two networks satisfy what peers and synchronization rely on
    ([NetworkLaws], [RequestLaws]); what each operation does to the peers a
    node knows and to the requests it sends. *)

From S2P Require Import Prelude Platform Transactions Storage Messages Network Synchronization.

Module NetworkFacts.
Section facts.
Context {P : Platform} {HO : HashOrder} {HL : HashOrderLaws}.
Implicit Types (n : RestNetwork).

(** What spawning requests changes. *)
Definition sends n n' : Prop := ∃ l, n' = n <| outbox ::= λ o, o ++ l |>.
#[export] Instance sends_preorder : PreOrder sends.
Proof.
  split.
  - intros [id kp ps o]. exists []. unfold update_field. cbn. by rewrite app_nil_r.
  - intros n1 n2 n3 [l1 ->] [l2 ->]. exists (l1 ++ l2). unfold update_field. cbn. by rewrite app_assoc.
Qed.

Lemma spawn_sends {E} a m n : leads (E := E) sends n (RestNetwork.spawn a m).
Proof. apply leads_modify. by eexists. Qed.

Lemma for_each_leads {S E A} (R : relation S) `{!PreOrder R} (l : list A) (f : A → M S E unit) s :
  (∀ x s, leads R s (f x)) → leads R s (for_each l f).
Proof. intros Hf. revert s. induction l as [|x l IH]; intros s; cbn [for_each]; lead; auto. Qed.

Lemma send_sends {E} m n : leads (E := E) sends n (RestNetwork.send m).
Proof. unfold RestNetwork.send. lead. apply spawn_sends. Qed.
Lemma broadcast_sends {E} b f n : leads (E := E) sends n (RestNetwork.broadcast b f).
Proof.
  unfold RestNetwork.broadcast. apply leads_get. apply for_each_leads; [apply _|]. intros [id a] n'.
  lead. apply spawn_sends.
Qed.

(** Sending over REST fills the outbox and changes nothing else. *)
#[export] Instance rest_laws : @NetworkLaws P RestNetwork RestNetwork.interface.
Proof.
  unshelve refine {| sending := sends |}.
  - intros E. apply send_sends.
  - intros E. apply broadcast_sends.
  - by intros n n' [l ->].
Defined.

Definition local_known (n n' : LocalNetwork) : Prop := ln_known_peers n' = ln_known_peers n.
#[export] Instance local_known_preorder : PreOrder local_known.
Proof. split; [by intros n|]. unfold local_known. intros n1 n2 n3. congruence. Qed.

Lemma local_send_known {E} m (n : LocalNetwork) : leads (E := E) local_known n (LocalNetwork.send m).
Proof. unfold LocalNetwork.send. lead. done. Qed.

Lemma local_broadcast_known {E} b f (n : LocalNetwork) : leads (E := E) local_known n (LocalNetwork.broadcast b f).
Proof.
  unfold LocalNetwork.broadcast. apply leads_bind; [apply _|by apply leads_modify|]. intros [] n1 _.
  apply leads_get, for_each_leads; [apply _|]. intros id n2. lead. apply local_send_known.
Qed.

#[export] Instance local_laws choose : @NetworkLaws P LocalNetwork (LocalNetwork.interface choose).
Proof.
  unshelve refine {| sending := local_known |}.
  - intros E. apply local_send_known.
  - intros E. apply local_broadcast_known.
  - by intros n n' H.
Defined.

(** *** Requests *)

Lemma foldl_insert_dom {T} (f : PeerId → T) ids (m : gmap PeerId T) :
  dom (foldl (λ m id, <[id := f id]> m) m ids) = dom m ∪ list_to_set ids.
Proof.
  revert m. induction ids as [|id ids IH]; intros m; cbn; [set_solver|]. rewrite IH, dom_insert_L. set_solver.
Qed.

Lemma asked_split n ids :
  ∃ rest, ids = (RestNetwork.asked n ids).1 ++ rest ∧
    (RestNetwork.asked n ids).2 = head rest ∧
    (∀ id, head rest = Some id → rn_known_peers n !! id = None) ∧
    (∀ id, id ∈ (RestNetwork.asked n ids).1 → is_Some (rn_known_peers n !! id)).
Proof.
  induction ids as [|id ids (rest & H1 & H2 & H3 & H4)]; cbn.
  - exists []. split_and!; try done. intros id Hid. by apply not_elem_of_nil in Hid.
  - destruct (rn_known_peers n !! id) eqn:E.
    + destruct (RestNetwork.asked n ids) as [l u]. cbn in *. exists rest. subst. split_and!; try done.
      intros id' [->|Hin]%elem_of_cons; eauto.
    + exists (id :: ids). cbn. split_and!; [done|done|congruence|].
      intros id' Hid. by apply not_elem_of_nil in Hid.
Qed.

(** The loop that awaits the answers. *)
Lemma await_panicked {T} (answer : PeerId → option (result T string)) ids :
  foldl (RestNetwork.await_handle answer) None ids = None.
Proof. by induction ids. Qed.

Lemma await_answers {T} (answer : PeerId → option (result T string)) ids m :
  match foldl (RestNetwork.await_handle answer) (Some m) ids with
  | Some results => ∀ id, results !! id = if decide (id ∈ ids) then answer id else m !! id
  | None => ∃ id, id ∈ ids ∧ answer id = None
  end.
Proof.
  revert m. induction ids as [|i ids IH]; intros m; cbn [foldl].
  { intros id. rewrite decide_False; [done|apply not_elem_of_nil]. }
  unfold RestNetwork.await_handle at 2. destruct (answer i) as [r|] eqn:Hi; cbn [mbind option_bind].
  2:{ rewrite await_panicked. exists i. split; [by left|done]. }
  specialize (IH (<[i := r]> m)). destruct (foldl _ _ ids) as [results|].
  - intros id. rewrite IH, lookup_insert. destruct (decide (id ∈ ids)) as [Hin|Hni].
    { by rewrite decide_True by by right. }
    destruct (decide (i = id)) as [->|Hne]; [by rewrite decide_True by left|].
    rewrite decide_False; [done|]. by intros [->|?]%elem_of_cons.
  - destruct IH as (id & ? & ?). exists id. split; [by right|done].
Qed.

(** What [send_to_all] returns, when all the answers it awaits can be read. *)
Lemma send_to_all_answers {T} n (answer : PeerId → option (result T string)) ids :
  match RestNetwork.send_to_all n answer ids with
  | Some results => ∀ id, results !! id =
      if decide (id ∈ (RestNetwork.asked n ids).1) then answer id
      else if decide ((RestNetwork.asked n ids).2 = Some id) then Some (Error "Peer not found") else None
  | None => ∃ id, id ∈ (RestNetwork.asked n ids).1 ∧ answer id = None
  end.
Proof.
  unfold RestNetwork.send_to_all. destruct (RestNetwork.asked n ids) as [l u]. cbn.
  pose proof (await_answers answer l match u with Some id => {[ id := Error "Peer not found" ]} | None => ∅ end) as H.
  destruct (foldl _ _ l) as [results|]; [|done]. intros id. rewrite H. destruct (decide (id ∈ l)); [done|].
  destruct u as [x|]; case_decide as Hx; simplify_eq.
  - by rewrite lookup_singleton_eq.
  - rewrite lookup_singleton_ne; [done|congruence].
  - done.
Qed.

#[export] Instance rest_request_laws : RequestLaws RestMoment.
Proof.
  intros n m ids answers Hs. cbn in Hs. pose proof (send_to_all_answers (rest n) (answer_state n m) ids) as H.
  rewrite Hs in H. destruct (asked_split (rest n) ids) as (r & H1 & H2 & _). intros id [a Ha]%elem_of_dom.
  rewrite H in Ha. apply elem_of_list_to_set. rewrite H1. apply elem_of_app. case_decide; [by left|].
  case_decide as Hu; [|done]. right. rewrite H2 in Hu. destruct r; [done|]. injection Hu as ->. by left.
Qed.

#[export] Instance local_request_laws `{!Serde BlockFile} choose err :
  @RequestLaws P LocalNetwork (LocalNetwork.interface choose) (local_requests choose err).
Proof. intros n m ids answers [= <-]. rewrite foldl_insert_dom. set_solver. Qed.
End facts.
End NetworkFacts.

Module NetworkTheorems.
Import NetworkFacts.
Section theorems.
Context {P : Platform} {HO : HashOrder} {HL : HashOrderLaws}.
Implicit Types (n : RestNetwork).

(** Entries of a list of peers, a later one replacing an earlier one. *)
Fixpoint last_addr (id : PeerId) (peers : list PeerWithAddr) : option SocketAddr :=
  match peers with
  | [] => None
  | p :: peers =>
      match last_addr id peers with
      | Some a => Some a
      | None => if decide (pa_peer_id p = id) then Some (pa_addr p) else None
      end
  end.

(** The loop of [update_peers]. *)
Lemma update_loop {E} peers n :
  ∃ n', for_each (E := E) peers (λ peer,
    let* n := get in
    if decide (pa_peer_id peer ≠ rn_peer_id n)
    then modify (λ n, n <| rn_known_peers ::= <[pa_peer_id peer := pa_addr peer]> |>)
    else ret tt) n = Ret tt n' ∧ rn_peer_id n' = rn_peer_id n ∧ outbox n' = outbox n ∧
    peer_sender n' = peer_sender n ∧
    ∀ id, rn_known_peers n' !! id =
      if decide (id = rn_peer_id n) then rn_known_peers n !! id
      else match last_addr id peers with Some a => Some a | None => rn_known_peers n !! id end.
Proof.
  revert n. induction peers as [|p peers IH]; intros n; cbn [for_each].
  { exists n. split_and!; try done. intros id. cbn. by case_decide. }
  unfold bind at 1 2, get at 1. case_decide as Hp.
  - destruct (IH (n <| rn_known_peers ::= <[pa_peer_id p := pa_addr p]> |>)) as (n' & H1 & H2 & H3 & H4 & H5).
    exists n'. split_and!; try done. intros id. rewrite H5. cbn. destruct (decide (id = rn_peer_id n)) as [->|].
    + by rewrite lookup_insert_ne.
    + destruct (last_addr id peers); [done|]. case_decide as Hid; [subst; by rewrite lookup_insert_eq|].
      by rewrite lookup_insert_ne.
  - destruct (IH n) as (n' & H1 & H2 & H3 & H4 & H5).
    exists n'. split_and!; try done. intros id. rewrite H5. cbn. case_decide as Hid; [done|].
    destruct (last_addr id peers); [done|]. rewrite decide_False; [done|congruence].
Qed.

(** [update_peers]: a failed query changes nothing; a successful one
    replaces the known peers by exactly the peers of the answer other than
    the node itself, with the address last given. *)
Theorem update_peers_spec answer n :
  match answer with
  | Error e => RestNetwork.update_peers answer n = Err e n
  | Ok peers => ∃ n', RestNetwork.update_peers answer n = Ret tt n' ∧
      (∀ id, rn_known_peers n' !! id = if decide (id = rn_peer_id n) then None else last_addr id peers) ∧
      outbox n' = outbox n ∧ peer_sender n' = peer_sender n
  end.
Proof.
  destruct answer as [peers|e]; [|done]. unfold RestNetwork.update_peers.
  unfold bind at 1, of_result, ret at 1. rewrite bind_modify.
  destruct (update_loop (E := string) peers (n <| rn_known_peers := ∅ |>)) as (n' & H1 & H2 & H3 & H4 & H5).
  exists n'. split_and!; [done| |done|done]. intros id. rewrite H5. cbn. case_decide; [apply lookup_empty|].
  destruct (last_addr id peers); [done|apply lookup_empty].
Qed.

(** The discovery task gives up only after five failures in a row: if it
    stops, five consecutive attempts before failed. *)
Theorem run_stops_after_five answers notify n e n' :
  RestNetwork.run_turns answers 0 notify n = Err e n' →
  ∃ before five after, answers = before ++ five ++ after ∧ length five = NETWORK_CHECK_TRIES ∧
    Forall (λ a, is_ok a = false) five ∧ after ≠ [].
Proof.
  assert (H : ∀ answers failed notify n, (failed ≤ NETWORK_CHECK_TRIES)%nat →
    RestNetwork.run_turns answers failed notify n = Err e n' →
    (∃ five after, answers = five ++ after ∧ (failed + length five = NETWORK_CHECK_TRIES)%nat ∧
      Forall (λ a, is_ok a = false) five ∧ after ≠ []) ∨
    ∃ before five after, answers = before ++ five ++ after ∧ length five = NETWORK_CHECK_TRIES ∧
      Forall (λ a, is_ok a = false) five ∧ after ≠ []).
  2:{ intros Hr. apply H in Hr as [(five & after & ?)|?]; [exists [], five, after; done|done|lia]. }
  clear. intros answers. induction answers as [|a answers IH]; intros failed notify n Hf; cbn [RestNetwork.run_turns]; [done|].
  unfold bind at 1, RestNetwork.run_turn. case_decide as Hlim.
  { intros _. left. exists [], (a :: answers). split_and!; [done|cbn; lia|constructor|done]. }
  unfold bind at 1, try_. pose proof (update_peers_spec a n) as Hu.
  destruct a as [peers|err].
  - destruct Hu as (n1 & -> & _). unfold ret at 1. intros Hr. right.
    apply IH in Hr as [(five & after & -> & Hl & Hall & Hne)|(before & five & after & -> & Hrest)]; [..|lia].
    + exists [Ok peers], five, after. done.
    + exists (Ok peers :: before), five, after. done.
  - rewrite Hu. unfold ret at 1. intros Hr.
    apply IH in Hr as [(five & after & -> & Hl & Hall & Hne)|(before & five & after & -> & Hrest)]; [..|lia].
    + left. exists (Error err :: five), after. split_and!; [done|cbn; lia|by constructor|done].
    + right. exists (Error err :: before), five, after. done.
Qed.

(** [broadcast_peer_message] over REST: one request for each known peer
    other than the sender, at its address, in some order, and nothing
    else. *)
Theorem broadcast_reaches_all {E} b sender n :
  ∃ requests, RestNetwork.broadcast (E := E) b sender n = Ret tt (n <| outbox ::= λ o, o ++ requests |>) ∧
    requests ≡ₚ (λ '(id, addr), (addr, mkMessage sender id b)) <$>
      filter (λ '(id, _), id ≠ sender) (map_to_list (rn_known_peers n)).
Proof.
  set (req := λ '(id, addr), (addr, mkMessage sender id b)).
  exists (req <$> filter (λ '(id, _), id ≠ sender) (map_order (rn_known_peers n))). split.
  - unfold RestNetwork.broadcast, bind at 1, get. generalize (map_order (rn_known_peers n)) as l.
    intros l. revert n. induction l as [|[id addr] l IH]; intros n; cbn [for_each].
    + cbn. destruct n as [i k s o]. unfold update_field. cbn. by rewrite app_nil_r.
    + unfold bind at 1. rewrite filter_cons. case_decide as Hid; cbn in Hid.
      * rewrite decide_True by done. unfold RestNetwork.spawn, modify. rewrite IH. cbn. unfold update_field. cbn.
        by rewrite <-app_assoc.
      * rewrite decide_False by tauto. unfold ret. by rewrite IH.
  - by rewrite map_order_perm.
Qed.

(** [send_to_all] stops at the first peer it does not know: that peer gets
    an error, the peers before it are asked, and the peers after it are
    absent from the results, known or not. *)
Theorem send_to_all_stops {T} n (answer : PeerId → option (result T string)) before unknown after results id :
  Forall (λ id, is_Some (rn_known_peers n !! id)) before →
  rn_known_peers n !! unknown = None →
  RestNetwork.send_to_all n answer (before ++ unknown :: after) = Some results →
  results !! id = if decide (id ∈ before) then answer id
    else if decide (id = unknown) then Some (Error "Peer not found") else None.
Proof.
  intros Hb Hu Hs.
  assert (Ha : RestNetwork.asked n (before ++ unknown :: after) = (before, Some unknown)).
  { clear Hs. induction Hb as [|x before [a Hx] _ IH]; cbn; [by rewrite Hu|]. by rewrite Hx, IH. }
  pose proof (send_to_all_answers n answer (before ++ unknown :: after)) as H. rewrite Hs, Ha in H.
  rewrite H. cbn. destruct (decide (id ∈ before)); [done|]. do 2 case_decide; congruence.
Qed.

(** The in-process network hands a received message back to its sender:
    [on_message_received] looks the channel up under [message.from], so the
    addressee's channel does not change. *)
Theorem local_message_returns_to_sender choose (n n' : LocalNetwork) m c :
  from m ≠ to m → senders n !! from m = Some c →
  @on_message_received P LocalNetwork (LocalNetwork.interface choose) m n = Ret tt n' →
  senders n' !! to m = senders n !! to m ∧
  ∃ c', senders n' !! from m = Some c' ∧ queue c' = queue c ++ [m].
Proof.
  intros Hne Hc. cbn. unfold LocalNetwork.message_received, bind, get, unwrap. rewrite Hc. unfold ret, of_result.
  unfold try_send. destruct (closed c); [done|]. destruct (decide _); [done|].
  intros [= <-]. cbn. split; [by rewrite lookup_insert_ne|].
  rewrite lookup_insert_eq. by eexists.
Qed.
End theorems.
End NetworkTheorems.
