(* ===== verification/Discovery.v ===== *)
(** * bin/discovery.rs: the discovery server

    [AppState] sits behind an [RwLock].  [register_peer] holds the write lock
    for its whole body; [get_peers] filters under the read lock, releases it,
    and takes the write lock to store what it had filtered.  The steps between
    two acquisitions are atomic, so a run of the server is a sequence of
    [DiscoveryStep]s of any number of requests in flight. *)

From S2P Require Import Prelude Platform Messages Raft Network.

Definition KEEP_ALIVE : N := nanos_of_secs 20.

Record AppState : Type := mkAppState { known_peers : gmap PeerId (SocketAddr * N) }.
#[export] Instance eta_app : Settable AppState := λ s, mkAppState (known_peers s).

Module Discovery.
Section handlers.
Context {HO : HashOrder}.

(** [Instant::now()] is an argument; [elapsed] saturates. *)
Definition register_peer {E} (now : N) (peer_request : RegisterRequest) : M AppState E string :=
  modify (λ s, s <| known_peers ::= <[rr_peer_id peer_request := (rr_addr peer_request, now)]> |>) ;;;
  ret "Ok".

Definition fresh (now : N) (peer : PeerId * (SocketAddr * N)) : Prop :=
  duration_since now peer.2.2 < KEEP_ALIVE.
#[export] Instance fresh_dec now peer : Decision (fresh now peer).
Proof. unfold fresh. apply _. Defined.

(** The part of [get_peers] under the read lock: the filtered peers, and
    whether the write lock is taken next. *)
Definition filtered (now : N) (s : AppState) : gmap PeerId (SocketAddr * N) :=
  filter (fresh now) (known_peers s).
Definition must_write (now : N) (s : AppState) : bool :=
  bool_decide (size (filtered now s) ≠ size (known_peers s)).

(** The part under the write lock. *)
Definition write_filtered {E} (f : gmap PeerId (SocketAddr * N)) : M AppState E unit :=
  modify (λ s, s <| known_peers := f |>).

Definition peers_response (f : gmap PeerId (SocketAddr * N)) : list PeerWithAddr :=
  PeersResponse_from (fst <$> f).

(** The handler with nothing in between. *)
Definition get_peers {E} (now : N) : M AppState E (list PeerWithAddr) :=
  let* s := get in
  let f := filtered now s in
  (if must_write now s then write_filtered f else ret tt) ;;;
  ret (peers_response f).

(** ** Concurrent requests *)

(** The server: its state and the maps that handlers have filtered and are
    about to write. *)
Record Server : Type := mkServer {
  app : AppState;
  pending_writes : list (gmap PeerId (SocketAddr * N));
}.

Inductive DiscoveryStep : Server → Server → Prop :=
  | step_register now req s w s' :
      register_peer (E := Empty_set) now req s = Ret "Ok" s' →
      DiscoveryStep (mkServer s w) (mkServer s' w)
  | step_filter now s w :
      must_write now s = true →
      DiscoveryStep (mkServer s w) (mkServer s (filtered now s :: w))
  | step_answer now s w :
      must_write now s = false →
      DiscoveryStep (mkServer s w) (mkServer s w)
  | step_write f s w1 w2 s' :
      write_filtered (E := Empty_set) f s = Ret tt s' →
      DiscoveryStep (mkServer s (w1 ++ f :: w2)) (mkServer s' (w1 ++ w2)).

Definition run : Server → Server → Prop := rtc DiscoveryStep.
End handlers.
End Discovery.
