(* ===== verification/DiscoveryTheorems.v ===== *)
(** * The discovery server: theorems *)

From S2P Require Import Prelude Platform Messages Raft Network Discovery.

Module DiscoveryTheorems.
Import Discovery.
Section theorems.
Context {HO : HashOrder} {HL : HashOrderLaws}.
Implicit Types (s : AppState).

Lemma peers_response_iff (f : gmap PeerId (SocketAddr * N)) id addr :
  mkPeerWithAddr id addr ∈ peers_response f ↔ ∃ t, f !! id = Some (addr, t).
Proof.
  unfold peers_response, PeersResponse_from. rewrite list_elem_of_fmap. split.
  - intros ([id' addr'] & [= <- <-] & Hin). rewrite map_order_perm in Hin. apply elem_of_map_to_list in Hin.
    rewrite lookup_fmap in Hin. apply fmap_Some in Hin as ([a t] & Hf & Ha). cbn in Ha. subst. eauto.
  - intros [t Hf]. exists (id, addr). split; [done|]. rewrite map_order_perm. apply elem_of_map_to_list.
    by rewrite lookup_fmap, Hf.
Qed.

Lemma filtered_all now s : must_write now s = false → filtered now s = known_peers s.
Proof.
  unfold must_write. intros Hs%bool_decide_eq_false%dec_stable.
  apply map_subseteq_size_eq; [apply map_filter_subseteq|]. lia.
Qed.

Lemma peers_response_ids (f : gmap PeerId (SocketAddr * N)) : NoDup (pa_peer_id <$> peers_response f).
Proof.
  unfold peers_response, PeersResponse_from. rewrite <-list_fmap_compose.
  erewrite (list_fmap_ext _ fst) by (by intros ? [] ?).
  rewrite map_order_perm. apply NoDup_fst_map_to_list.
Qed.

(** The whole call: the answer is read off what was filtered, and what was
    filtered is kept, written or not. *)
Lemma get_peers_run {E} now s :
  get_peers (E := E) now s =
    Ret (peers_response (filtered now s)) (s <| known_peers := filtered now s |>).
Proof.
  unfold get_peers, bind at 1, get. cbv zeta. unfold bind. destruct (must_write now s) eqn:Hw; [done|].
  apply filtered_all in Hw. rewrite Hw. by destruct s.
Qed.

(** [get_peers], uninterrupted: it answers exactly the peers whose last
    registration is less than 20 seconds old, each once and with the address
    of that registration, and these are the peers it keeps. *)
Theorem get_peers_spec now s :
  ∃ peers s', get_peers (E := Empty_set) now s = Ret peers s' ∧
    (∀ id addr, mkPeerWithAddr id addr ∈ peers ↔
       ∃ t, known_peers s !! id = Some (addr, t) ∧ now - t < KEEP_ALIVE) ∧
    NoDup (pa_peer_id <$> peers) ∧
    known_peers s' = filtered now s.
Proof.
  exists (peers_response (filtered now s)), (s <| known_peers := filtered now s |>). split_and!.
  - apply get_peers_run.
  - intros id addr. rewrite peers_response_iff. unfold filtered.
    split; intros [t Ht]; exists t; [by apply map_lookup_filter_Some in Ht|by apply map_lookup_filter_Some].
  - apply peers_response_ids.
  - done.
Qed.

(** A registration can be lost: a peer that registers between the two
    locks of a [get_peers] which found some other peer stale is dropped from
    the table when that request writes back what it had filtered, although
    the registration answered Ok and is as fresh as can be. *)
Theorem registration_lost now req stale s w :
  rr_peer_id req ≠ stale →
  (∃ addr t, known_peers s !! stale = Some (addr, t) ∧ KEEP_ALIVE ≤ now - t) →
  known_peers s !! rr_peer_id req = None →
  ∃ s' s'', register_peer (E := Empty_set) now req s = Ret "Ok" s' ∧
    known_peers s' !! rr_peer_id req = Some (rr_addr req, now) ∧
    run (mkServer s w) (mkServer s' (filtered now s :: w)) ∧
    run (mkServer s' (filtered now s :: w)) (mkServer s'' w) ∧
    known_peers s'' !! rr_peer_id req = None.
Proof.
  intros Hne (addr & t & Hst & Hold) Hnew.
  assert (Hw : must_write now s = true).
  { unfold must_write. apply bool_decide_eq_true. intros Heq.
    assert (Hall : filtered now s = known_peers s).
    { apply map_subseteq_size_eq; [apply map_filter_subseteq|]. lia. }
    rewrite <-Hall in Hst. apply map_lookup_filter_Some in Hst as [_ Hf].
    unfold fresh, duration_since in Hf. cbn in Hf. lia. }
  eexists _, (mkAppState (filtered now s)). split_and!; [done| | | |].
  - cbn. apply lookup_insert_eq.
  - eapply rtc_l; [by apply step_filter|]. apply rtc_once. by eapply step_register.
  - apply rtc_once. by apply (step_write (filtered now s) _ [] w).
  - cbn. unfold filtered. apply map_lookup_filter_None. by left.
Qed.
End theorems.
End DiscoveryTheorems.
