(* ===== verification/Server.v ===== *)
(** * server.rs: the HTTP handlers of a peer

    A handler runs on the network handle and the read-only views it shares with
    the peer; routing, JSON extraction and the sockets are axum's.  A handler's
    [Result] becomes the status and the body of the response. *)

From S2P Require Import Prelude Platform Crypto Transactions Storage Messages Consensus Network Effects PeerNode.

Inductive StatusCode : Type := NOT_FOUND | INTERNAL_SERVER_ERROR.
#[export] Instance StatusCode_eq_dec : EqDecision StatusCode.
Proof. solve_decision. Defined.

Definition TEST_CLIENT_DIR : string := "data/test_clients/".

(** [str::starts_with] *)
Fixpoint starts_with (s prefix : string) {struct prefix} : bool :=
  match prefix, s with
  | EmptyString, _ => true
  | String c prefix, String d s => bool_decide (c = d) && starts_with s prefix
  | String _ _, EmptyString => false
  end.

(** [Path::join]: an absolute path replaces the directory. *)
Definition path_join (dir name : string) : string :=
  if starts_with name "/" then name
  else if starts_with (String.rev dir) "/" then dir +:+ name
  else dir +:+ "/" +:+ name.

(** The value of a header: absent, not text, or text. *)
Inductive HeaderValue : Type := Missing | NotText | Text (s : string).

(** [ServerState]: the network, and the storage and consensus state that the
    views read. *)
Record ServerState `{Platform} {Net : Type} : Type := mkServerState {
  ss_network : Net;
  latest_storage_view : Storage;
  state_peer_id : PeerId;
  state_consensus : ConsensusState;
}.
Arguments ServerState {_} Net.
Arguments mkServerState {_ _}.

Module Server.
Section handlers.
Context {P : Platform} {HO : HashOrder}.
Context `{!Serde Transaction, !Serde BlockFile}.
Context {Net : Type} `{!NetworkInterface Net}.

(** The error is the response's text, as the success is. *)
Definition accept {E} (draw : N) (tx : SignedTransaction) : M Net E string :=
  let* r := try_ (receive_client_message draw (ClientTransaction tx)) in
  ret match r with Ok _ => "Transaction processed" | Error e => e end.

Definition handle_client_transaction {E} (draw : N) (tx : SignedTransaction) : M Net E string :=
  accept draw tx.

(** Runs on the network and the disk the test keys are on. *)
Definition handle_test_transaction {E} (draw key_draw : N) (client_id : HeaderValue) (tx : Transaction) : M (Net * Disk) E string :=
  match client_id with
  | Missing => ret "client_id is not specified but required"
  | NotText => ret "Invalid client_id header value"
  | Text id =>
      let* key := zoom snd (λ d s, (s.1, d))
                    (KeyManager.get_or_create_key key_draw (path_join TEST_CLIENT_DIR id)) in
      zoom fst (λ n s, (n, s.2)) (accept draw (SignedTransaction_new tx key))
  end.

(** [expect]: a message that cannot be queued is a panic of the handler. *)
Definition hande_peer_message {E} (message : Message) : M Net E unit :=
  let* r := try_ (on_message_received message) in
  match r with Ok _ => ret tt | Error _ => panic end.

Definition block_read_response (error : string) : StatusCode * string :=
  if starts_with error "Block file not found" then (NOT_FOUND, error)
  else (INTERNAL_SERVER_ERROR, error).

Definition get_block_state (view : Storage) (block_index : N) : result BlockStorageState (StatusCode * string) :=
  match BlockStorageView.get_block view block_index with
  | Ok block => Ok (state_of_block block)
  | Error e => Error (block_read_response e)
  end.

Definition get_latest_storage_state (view : Storage) : BlockStorageState :=
  BlockStorageView.get_latest_state view.

Definition get_peer_state (s : ServerState Net) : PeerState :=
  {| ps_peer_id := state_peer_id s;
     ps_known_peers := Network.known_peers (ss_network s);
     ps_block := BlockStorageView.get_latest_state (latest_storage_view s);
     ps_consensus := state_consensus s |}.

Definition get_block (view : Storage) (block_index : N) : result BlockFile (StatusCode * string) :=
  match BlockStorageView.get_block view block_index with
  | Ok block => Ok block
  | Error e => Error (block_read_response e)
  end.
End handlers.

#[global] Arguments handle_test_transaction : simpl never.
End Server.
