(* ===== verification/Runtime.v ===== *)
(** * peer_runtime.rs and config.rs: starting a peer and its event loop

    [PeerConfig::from_env] reads the environment; [start_peer] is [run_peer] up
    to the spawned tasks, on the disk; [handle_event] is one turn of the
    [select!] loop; the tasks together are Process.v.  Parsing of IP addresses
    and name resolution are arguments (the standard library's and the
    resolver's). *)

From S2P Require Import Prelude Platform Crypto Transactions Storage Messages RaftLogStore Raft Voting Consensus Network Effects PeerNode Synchronization.

(** ** config.rs *)

Definition PEER_ID_ENV_VAR : string := "PEER_ID".
Definition CONSENSUS_MODE_ENV_VAR : string := "CONSENSUS_MODE".
Definition PEER_BIND_HOST_ENV_VAR : string := "PEER_BIND_HOST".
Definition PEER_ADVERTISE_HOST_ENV_VAR : string := "PEER_ADVERTISE_HOST".
Definition DEFAULT_CHANNEL_SIZE : nat := 1000.
Definition DEFAULT_PATH_TO_BLOCKS : string := "data".
Definition DEFAULT_MEMPOOL_SIZE : nat := 5.
Definition DEFAULT_BASE_PORT : N := 3000.
Definition DEFAULT_LOCAL_HOST : string := "127.0.0.1".

(** ** [ConsensusMode] *)

Inductive ConsensusMode : Type := ModeVoting | ModeRaft.
#[export] Instance ConsensusMode_eq_dec : EqDecision ConsensusMode.
Proof. solve_decision. Defined.

Definition to_ascii_lowercase_char (c : Ascii.ascii) : Ascii.ascii :=
  let n := Ascii.N_of_ascii c in
  if (65 <=? n) && (n <=? 90) then Ascii.ascii_of_N (n + 32) else c.
Fixpoint to_ascii_lowercase (s : string) : string :=
  match s with
  | EmptyString => EmptyString
  | String c s => String (to_ascii_lowercase_char c) (to_ascii_lowercase s)
  end.

(** [FromStr for ConsensusMode] *)
Definition ConsensusMode_from_str (value : string) : result ConsensusMode string :=
  let v := to_ascii_lowercase value in
  if decide (v = "voting") then Ok ModeVoting
  else if decide (v = "raft") then Ok ModeRaft
  else Error (CONSENSUS_MODE_ENV_VAR +:+ " must be either 'voting' or 'raft'").

(** ** [PeerConfig] *)

Record PeerConfig : Type := mkPeerConfig {
  pc_peer_id : PeerId;
  listening_addr : SocketAddr;
  advertised_addr : SocketAddr;
  channel_size : nat;
  consensus_mode : ConsensusMode;
}.

Section from_env.
Context {BP : BuildProfile}.
(* [str::parse::<IpAddr>] and [(host, port).to_socket_addrs()] *)
Context (parse_ip : string → option N).
Context (resolve : string → N → result (list SocketAddr) string).

(** The environment is the state, which is only read. *)
Definition from_env : M (gmap string string) string PeerConfig :=
  let* env := get in
  let* id := ok_or "PEER_ID must be specified" (env !! PEER_ID_ENV_VAR) in
  let* id := ok_or "Peer Id must be a number"
               (match PeerId_from_str id with Ok n => Some n | Error _ => None end) in
  let* mode := of_result (ConsensusMode_from_str (default "raft" (env !! CONSENSUS_MODE_ENV_VAR))) in
  let* port_offset := of_result (PeerId_try_into_u16 id) in
  let* port := add_u16 DEFAULT_BASE_PORT port_offset in
  let* bind_ip := ok_or (PEER_BIND_HOST_ENV_VAR +:+ " must be an IP address")
                    (parse_ip (default DEFAULT_LOCAL_HOST (env !! PEER_BIND_HOST_ENV_VAR))) in
  let listening := mkSocketAddr bind_ip port in
  let* advertised :=
    match env !! PEER_ADVERTISE_HOST_ENV_VAR with
    | Some host =>
        match resolve host port with
        | Error e => throw ("Failed to resolve " +:+ PEER_ADVERTISE_HOST_ENV_VAR +:+ ": " +:+ e)
        | Ok addrs => ok_or (PEER_ADVERTISE_HOST_ENV_VAR +:+ " resolved to no addresses") (head addrs)
        end
    | None => ret listening
    end in
  ret {| pc_peer_id := id;
         listening_addr := listening;
         advertised_addr := advertised;
         channel_size := DEFAULT_CHANNEL_SIZE;
         consensus_mode := mode |}.
End from_env.

(** ** [run_peer] *)

Section runtime.
Context {BP : BuildProfile} {P : Platform} {HO : HashOrder}.
Context `{!Serde PersistedRaftLogState, !Serde (list SignedTransaction), !Serde BlockFile}.
Context `{!Serde Transaction, !Serde SignedTransaction}.
#[local] Existing Instance RestNetwork.interface.

Definition peer_dir (id : PeerId) : string :=
  DEFAULT_PATH_TO_BLOCKS +:+ "/" +:+ ("peer_" +:+ pretty id).

(** The height of the block store is what a missing log file stands for. *)
Definition create_raft_consensus (draw now : N) (id : PeerId) (dir : string) (s : Storage) : result ConsensusEngine string :=
  ConsensusEngine.new_raft_with_storage draw now id (File (FileRaftLogStore_new dir))
    (block_height (storage_state s)) (disk s).

(** [run_peer] up to the loop; [key_draw] and [draw] are what the generator
    draws for a new key and for the election timeout. *)
Definition start_peer (key_draw draw now : N) (c : PeerConfig) : M Disk string (Peer RestNetwork) :=
  let network := RestNetwork.new (pc_peer_id c) (mkChannel [] (channel_size c) false) in
  let dir := peer_dir (pc_peer_id c) in
  let* d := get in
  let* s := unwrap (BlockKeeper.new dir DEFAULT_MEMPOOL_SIZE d) in
  let* key := KeyManager.get_or_create_key key_draw dir in
  let* d := get in
  let s := s <| disk := d |> in
  let* engine :=
    match consensus_mode c with
    | ModeVoting => ret (ConsensusEngine.new_voting (pc_peer_id c))
    | ModeRaft => of_result (create_raft_consensus draw now (pc_peer_id c) dir s)
    end in
  ret (Peer.new (pc_peer_id c) network engine s key).

(** What wakes the loop: a message (or the end of the channel) or a tick. *)
Inductive Event : Type :=
  | EvMessage (draw now : N)
  | EvSyncTick (env : nat → RestMoment) (draws : nat → N)
  | EvConsensusTick (now : N).

(** [receiver.recv()]: the oldest message of the channel; [None] while it is
    still waiting, [Some None] once the channel is closed. *)
Definition recv {E} : M (Peer RestNetwork) E (option (option Message)) :=
  let* p := get in
  let channel := peer_sender (network (effects p)) in
  match queue channel with
  | [] => ret (if closed channel then Some None else None)
  | m :: rest =>
      modify (λ p, p <| effects ::= λ e, e <| network ::= λ n,
        n <| peer_sender := mkChannel rest (capacity channel) (closed channel) |> |> |>) ;;;
      ret (Some (Some m))
  end.

(** A turn of the loop.  An error is the one that ends it; a failed tick and
    the result of a synchronization are dropped. *)
Definition handle_event (c : PeerConfig) (ev : Event) : M (Peer RestNetwork) string unit :=
  match ev with
  | EvMessage draw now =>
      let* received := recv in
      match received with
      | Some message =>
          let* message := ok_or "Channel is closed" message in
          Peer.handle_message draw now message
      | None => ret tt
      end
  | EvSyncTick env draws =>
      match consensus_mode c with
      | ModeVoting =>
          let* p := get in
          let peer_height := block_height (storage_state (block_keeper (effects p))) in
          let* _ := Synchronization.check_and_retrieve_missing_blocks env draws
                      Peer.apply_synchronized_block peer_height in
          ret tt
      | ModeRaft => ret tt
      end
  | EvConsensusTick now =>
      let* p := get in
      if ConsensusEngine.requires_tick (consensus p) then
        let* _ := try_ (Peer.handle_tick now) in ret tt
      else ret tt
  end.
End runtime.
