(* ===== verification/Http.v ===== *)
(** * The HTTP layer: requests, routes and the discovery client

    The request a [NetworkMessage] becomes (rest_network.rs and
    discovery_client.rs), the route tables of the two servers (server.rs and
    bin/discovery.rs), the handlers behind them, and the discovery client.
    reqwest is the [transport] that carries a request; axum's path matcher is
    [match_path], with the laws of [PathMatchLaws]; the response to a body that
    axum's [Json] or [Path] extractor refuses is [rejection]. *)

From S2P Require Import Prelude Platform Crypto Transactions Storage Messages RaftLogStore Raft Voting Consensus Network Effects PeerNode Synchronization Server Discovery Runtime.

(** ** Requests and responses *)

Record HttpRequest : Type := mkHttpRequest {
  rq_method : Method;
  rq_url : string;
  rq_body : option bytes;      (* with the content type application/json *)
}.
Record HttpResponse : Type := mkHttpResponse {
  rs_status : N;
  rs_body : bytes;
}.

Section requests.
Context {P : Platform} `{!Serde Message, !Serde RegisterRequest}.

(** The request both clients build: a GET has no body. *)
Definition build_request (base_url : string) (m : NetworkMessage) : HttpRequest :=
  mkHttpRequest (NetworkMessage.method m) (base_url +:+ NetworkMessage.path m)
    (if decide (NetworkMessage.method m ≠ GET) then Some (NetworkMessage.body m) else None).

(** [format!("http://{to}")]; the printing of an address is the standard
    library's. *)
Definition http_url (show_addr : SocketAddr → string) (to : SocketAddr) : string := "http://" +:+ show_addr to.
End requests.

(** What [builder.send().await] gives when it succeeds: the head of a response
    has come, and reading its body gives all of it or reqwest's error (the
    connection may be lost, or the time run out, in between). *)
Inductive Received : Type :=
  | Whole (response : HttpResponse)
  | CutShort (e : string).

(** [deserialize_resp] of rest_network.rs: the status is not looked at.  [None]
    is the panic of [resp.text().await.unwrap()]. *)
Definition deserialize_resp `{Serde T} (resp : Received) : option (result T string) :=
  match resp with
  | Whole response => Some (from_slice (rs_body response))
  | CutShort _ => None
  end.

(** ** Routes *)

(** axum's matcher: the route of a table that a path takes, and the path's
    parameters. *)
Class PathMatch : Type := match_path : list string → string → option (string * list string).

Definition slash : Ascii.ascii := Ascii.ascii_of_N 47.
Definition brace : Ascii.ascii := Ascii.ascii_of_N 123.
Fixpoint has_char (c : Ascii.ascii) (s : string) : bool :=
  match s with
  | EmptyString => false
  | String d s => bool_decide (c = d) || has_char c s
  end.

(** A literal route is taken by its own path; a route that ends in one
    parameter by the paths that continue its literal part with one segment. *)
Class PathMatchLaws `{PathMatch} : Prop := {
  match_literal ps p : p ∈ ps → has_char brace p = false → match_path ps p = Some (p, []);
  match_parameter ps dir name segment :
    (dir +:+ "/{" +:+ name) ∈ ps → has_char brace dir = false →
    (∀ name', (dir +:+ "/{" +:+ name') ∈ ps → name' = name) →
    segment ≠ "" → has_char slash segment = false → has_char brace segment = false →
    (dir +:+ "/" +:+ segment) ∉ ps →
    match_path ps (dir +:+ "/" +:+ segment) = Some (dir +:+ "/{" +:+ name, [segment]);
}.

Inductive Routed (H : Type) : Type :=
  | Handler (h : H) (params : list string)
  | MethodNotAllowed
  | NoRoute.
Arguments Handler {H}. Arguments MethodNotAllowed {H}. Arguments NoRoute {H}.

Definition Routes (H : Type) : Type := list (string * (Method * H)).

Fixpoint find_route {H} (table : Routes H) (p : string) : option (Method * H) :=
  match table with
  | [] => None
  | (q, h) :: table => if decide (q = p) then Some h else find_route table p
  end.

Definition route `{PathMatch} {H} (table : Routes H) (method : Method) (path : string) : Routed H :=
  match match_path table.*1 path with
  | None => NoRoute
  | Some (p, params) =>
      match find_route table p with
      | Some (m, h) => if decide (m = method) then Handler h params else MethodNotAllowed
      | None => NoRoute
      end
  end.

Definition TRANSACTIONS_PATH : string := "/transactions".
Definition TEST_TRANSACTIONS_PATH : string := "/test/transactions".
Definition PEER_STATE_PATH : string := "/peer/state".

(** The handlers of [run_server], and its [Router]. *)
Inductive PeerEndpoint : Type :=
  | EpClientTransaction | EpTestTransaction | EpPeerMessage
  | EpLatestState | EpPeerState | EpBlockState | EpBlock.

Definition peer_routes : Routes PeerEndpoint :=
  [(TRANSACTIONS_PATH, (POST, EpClientTransaction));
   (TEST_TRANSACTIONS_PATH, (POST, EpTestTransaction));
   (HANDLE_PEER_MESSAGE_PATH, (POST, EpPeerMessage));
   (LATEST_BLOCK_STATE_PATH, (GET, EpLatestState));
   (PEER_STATE_PATH, (GET, EpPeerState));
   ("/block/state/{block_index}", (GET, EpBlockState));
   ("/block/{block_index}", (GET, EpBlock))].

Inductive DiscoveryEndpoint : Type := EpRegister | EpGetPeers.

(** The [Router] of the discovery server's [main]. *)
Definition discovery_routes : Routes DiscoveryEndpoint :=
  [(REGISTER_PATH, (POST, EpRegister)); (GET_PEERS_PATH, (GET, EpGetPeers))].

(** ** Serving a request *)

Definition text_response (status : N) (text : string) : HttpResponse :=
  mkHttpResponse status (String.list_byte_of_string text).
Definition json_response `{Serde T} (x : T) : HttpResponse := mkHttpResponse 200 (to_vec x).
Definition status_code (c : StatusCode) : N := match c with NOT_FOUND => 404 | INTERNAL_SERVER_ERROR => 500 end.

Section serve.
Context {P : Platform} {HO : HashOrder} {PM : PathMatch}.
Context (rejection : HttpResponse).

(** The [Json] and [Path] extractors, for bodies within axum's default limit of
    2 MB. *)
Definition json_body `{Serde T} {S E} (body : option bytes) (k : T → M S E HttpResponse) : M S E HttpResponse :=
  match body with
  | Some b => match from_slice b with Ok x => k x | Error _ => ret rejection end
  | None => ret rejection
  end.
Definition path_u32 {S E} (params : list string) (k : N → M S E HttpResponse) : M S E HttpResponse :=
  match params with
  | [segment] => match parse_int u32_modulus segment with Ok i => k i | Error _ => ret rejection end
  | _ => ret rejection
  end.
Definition json_result `{Serde T} (r : result T (StatusCode * string)) : HttpResponse :=
  match r with
  | Ok x => json_response x
  | Error (code, text) => text_response (status_code code) text
  end.

Section peer.
Context `{!Serde Transaction, !Serde SignedTransaction, !Serde BlockFile}.
Context `{!Serde Message, !Serde BlockStorageState, !Serde PeerState}.
Context {Net : Type} `{!NetworkInterface Net}.

(** The server of a peer: the views are read, the network and the disk of
    the test clients' keys change. *)
Definition serve_peer {E} (draw key_draw : N) (client_id : HeaderValue) (view : Storage) (id : PeerId)
    (consensus : ConsensusState) (method : Method) (path : string) (body : option bytes) :
    M (Net * Disk) E HttpResponse :=
  match route peer_routes method path with
  | NoRoute => ret (mkHttpResponse 404 [])
  | MethodNotAllowed => ret (mkHttpResponse 405 [])
  | Handler EpClientTransaction _ =>
      json_body body (λ tx,
        let* text := zoom fst (λ n s, (n, s.2)) (Server.handle_client_transaction draw tx) in
        ret (text_response 200 text))
  | Handler EpTestTransaction _ =>
      json_body body (λ tx,
        let* text := Server.handle_test_transaction draw key_draw client_id tx in
        ret (text_response 200 text))
  | Handler EpPeerMessage _ =>
      json_body body (λ m,
        zoom fst (λ n s, (n, s.2)) (Server.hande_peer_message m) ;;;
        ret (mkHttpResponse 200 []))
  | Handler EpLatestState _ => ret (json_response (Server.get_latest_storage_state view))
  | Handler EpPeerState _ =>
      let* s := get in
      ret (json_response (Server.get_peer_state (mkServerState s.1 view id consensus)))
  | Handler EpBlockState params => path_u32 params (λ i, ret (json_result (Server.get_block_state view i)))
  | Handler EpBlock params => path_u32 params (λ i, ret (json_result (Server.get_block view i)))
  end.
End peer.

(** [PeersResponse] *)
Record PeersResponse : Type := mkPeersResponse { pr_peers : list PeerWithAddr }.

Section discovery.
Context `{!Serde RegisterRequest, !Serde PeersResponse}.

(** The discovery server, one request at a time. *)
Definition serve_discovery {E} (now : N) (method : Method) (path : string) (body : option bytes) : M AppState E HttpResponse :=
  match route discovery_routes method path with
  | NoRoute => ret (mkHttpResponse 404 [])
  | MethodNotAllowed => ret (mkHttpResponse 405 [])
  | Handler EpRegister _ =>
      json_body body (λ req, let* text := Discovery.register_peer now req in ret (text_response 200 text))
  | Handler EpGetPeers _ =>
      let* peers := Discovery.get_peers now in
      ret (mkHttpResponse 200 (to_vec (mkPeersResponse peers)))
  end.
End discovery.
End serve.

(** ** network/discovery_client.rs *)

Definition DISCOVERY_HOST_ENV_VAR : string := "DISCOVERY_HOST".
Definition DISCOVERY_BIND_HOST_ENV_VAR : string := "DISCOVERY_BIND_HOST".
Definition DISCOVERY_PORT_ENV_VAR : string := "DISCOVERY_PORT".

Record HttpDiscoveryClient : Type := mkHttpDiscoveryClient { discovery_base_url : string }.

(** [.ok().and_then(|p| p.parse().ok()).unwrap_or(BASE_PORT)] *)
Definition discovery_port (env : gmap string string) : N :=
  match env !! DISCOVERY_PORT_ENV_VAR with
  | Some p => match parse_int u16_modulus p with Ok n => n | Error _ => DEFAULT_BASE_PORT end
  | None => DEFAULT_BASE_PORT
  end.

Module HttpDiscoveryClient.
Section client.
Context {P : Platform} `{!Serde Message, !Serde RegisterRequest, !Serde PeersResponse}.

Definition from_env (env : gmap string string) : HttpDiscoveryClient :=
  let discovery_host := default DEFAULT_LOCAL_HOST (env !! DISCOVERY_HOST_ENV_VAR) in
  mkHttpDiscoveryClient ("http://" +:+ discovery_host +:+ ":" +:+ pretty (discovery_port env)).

Definition new (show_addr : SocketAddr → string) (discovery_addr : SocketAddr) : HttpDiscoveryClient :=
  mkHttpDiscoveryClient (http_url show_addr discovery_addr).

(* what the world does with a request, and the error text if it fails *)
Context {S : Type} (transport : HttpRequest → M S string Received).

(** [result.json()]: a body that cannot be read is an error here. *)
Definition json `{Serde T} (resp : Received) : result T string :=
  match resp with
  | Whole response => from_slice (rs_body response)
  | CutShort e => Error e
  end.

Definition send_message (c : HttpDiscoveryClient) (m : NetworkMessage) : M S string Received :=
  transport (build_request (discovery_base_url c) m).

(** The response of the server is dropped. *)
Definition register (c : HttpDiscoveryClient) (id : PeerId) (addr : SocketAddr) : M S string unit :=
  send_message c (Register (mkRegisterRequest id addr)) ;;; ret tt.

Definition peers (c : HttpDiscoveryClient) : M S string (list PeerWithAddr) :=
  let* response := send_message c GetPeers in
  let* peers := of_result (json response) in
  ret (pr_peers peers).
End client.
End HttpDiscoveryClient.

(** ** The discovery loop of rest_network.rs with its client *)

Section check.
Context {P : Platform} {HO : HashOrder} `{!Serde Message, !Serde RegisterRequest, !Serde PeersResponse}.
Context {S : Type} (transport : HttpRequest → M S string Received).

(** The [async] block: register, then ask for the peers. *)
Definition discover (c : HttpDiscoveryClient) (id : PeerId) (addr : SocketAddr) : M S string (list PeerWithAddr) :=
  HttpDiscoveryClient.register transport c id addr ;;; HttpDiscoveryClient.peers transport c.

(** One turn of [run], on the network and the world. *)
Definition check (c : HttpDiscoveryClient) (addr : SocketAddr) (failed_checks : nat) (notify_waiters : bool) :
    M (RestNetwork * S) string (nat * bool) :=
  let* s := get in
  if decide (NETWORK_CHECK_TRIES ≤ failed_checks)%nat then
    throw "Failed to register with discovery server too many times. Exiting."
  else
    let* answer := try_ (zoom snd (λ w s, (s.1, w)) (discover c (rn_peer_id s.1) addr)) in
    zoom fst (λ n s, (n, s.2)) (RestNetwork.run_turn answer failed_checks notify_waiters).
End check.

(** ** [peers_ready]

    A [Notify] of tokio, as [run] and [wait_for_readiness] use it:
    [notify_waiters] wakes the [Notified] futures that exist and leaves nothing
    for one that is created later. *)
Module Readiness.
Record Ready : Type := mkReady {
  waiting : bool;          (* [wait_for_readiness] has created its future *)
  awake : bool;
  notify_waiters : bool;   (* of [run] *)
}.

Definition initial : Ready := mkReady false false true.

(** A turn of [run] whose check succeeded. *)
Definition turn_succeeded (r : Ready) : Ready :=
  if notify_waiters r then mkReady (waiting r) (awake r || waiting r) false else r.

(** The call of [run_peer]. *)
Definition wait_for_readiness (r : Ready) : Ready := mkReady true (awake r) (notify_waiters r).
End Readiness.

(** ** Requests between peers *)

Section requests_between_peers.
Context {P : Platform} {HO : HashOrder} `{!Serde Message, !Serde RegisterRequest}.
Context (show_addr : SocketAddr → string) (transport : HttpRequest → result Received string).

(** [send_message] and [deserialize_resp], for a request that is awaited;
    [None] is the panic of the latter. *)
Definition rest_answer `{!Serde T} (to : SocketAddr) (m : NetworkMessage) : option (result T string) :=
  match transport (build_request (http_url show_addr to) m) with
  | Ok response => deserialize_resp response
  | Error e => Some (Error e)
  end.

Context `{!Serde BlockStorageState, !Serde BlockFile}.

(** What the peers of a network answer over HTTP. *)
Definition http_moment (n : RestNetwork) : RestMoment :=
  let ask {T} `{Serde T} m id : option (result T string) :=
    match rn_known_peers n !! id with
    | Some addr => rest_answer addr m
    | None => Some (Error "Peer not found")
    end in
  mkRestMoment n (λ m id, ask m id) (λ m id, ask m id).
End requests_between_peers.

(** ** [DiscoveryConfig] *)

Record DiscoveryConfig : Type := mkDiscoveryConfig { dc_listening_addr : SocketAddr }.

Definition DiscoveryConfig_from_env (parse_ip : string → option N) : M (gmap string string) string DiscoveryConfig :=
  let* env := get in
  let port := discovery_port env in
  let bind_host := default DEFAULT_LOCAL_HOST (env !! DISCOVERY_BIND_HOST_ENV_VAR) in
  let* bind_ip := ok_or (DISCOVERY_BIND_HOST_ENV_VAR +:+ " must be an IP address") (parse_ip bind_host) in
  ret (mkDiscoveryConfig (mkSocketAddr bind_ip port)).
