(* ===== verification/Process.v ===== *)
(** * peer_runtime.rs: the tasks of a running peer

    [run_peer] runs three tasks over handles they share: the network's task
    ([RestNetwork::run]) keeps the known peers up to date, the HTTP server
    answers requests, and the main task waits for the first peers and then
    loops.  [act] is one turn of one task; the tasks interleave in any order, so
    a running peer is a transition system, [process_step].

    A turn of the loop that awaits (a synchronization) is one step: what the
    other tasks do meanwhile is append to the channel, which it does not read,
    and replace the known peers, which its argument [env] accounts for.

    A run ends when [run_peer] returns or when a turn of its loop panics, which
    ends the program ([process_exit]): no step follows, and what the turn did
    before it panicked is not described. *)

From S2P Require Import Prelude Platform Crypto Transactions Storage Messages RaftLogStore Raft Voting Consensus Network Effects PeerNode Synchronization Server Runtime Http.

Record Process `{Platform} : Type := mkProcess {
  main_peer : Peer RestNetwork;      (* with the network, the disk and the views all tasks share *)
  checks_failed : nat;               (* [failed_checks] of the network's task *)
  network_stopped : bool;            (* that task has returned *)
  peers_ready : Readiness.Ready;
  run_result : option (result unit string);   (* what [run_peer] has returned *)
}.
Arguments mkProcess {_}.
#[export] Instance eta_process `{Platform} : Settable Process := λ s,
  mkProcess (main_peer s) (checks_failed s) (network_stopped s) (peers_ready s) (run_result s).

(** A turn of a task, with what comes from outside: the answers of the
    discovery server, an event of the loop, or an HTTP request. *)
Inductive Action `{Platform} : Type :=
  | DiscoveryTick (transport : HttpRequest → result Received string)
  | WaitForPeers
  | LoopTurn (ev : Event)
  | Request (draw key_draw : N) (client_id : HeaderValue) (method : Method) (path : string) (body : option bytes).

Module Process.
Section process.
Context {BP : BuildProfile} {P : Platform} {HO : HashOrder} {PM : PathMatch}.
Context `{!Serde PersistedRaftLogState, !Serde (list SignedTransaction), !Serde BlockFile}.
Context `{!Serde Transaction, !Serde SignedTransaction}.
Context `{!Serde Message, !Serde BlockStorageState, !Serde PeerState}.
Context `{!Serde RegisterRequest, !Serde PeersResponse}.
#[local] Existing Instance RestNetwork.interface.
Context (rejection : HttpResponse) (client : HttpDiscoveryClient) (c : PeerConfig).

(** The state when the tasks have been spawned. *)
Definition run_peer (key_draw draw now : N) : M Disk string Process :=
  let* p := start_peer key_draw draw now c in
  ret (mkProcess p 0 false Readiness.initial None).

(** The network and the disk, which the server's handlers work on. *)
Definition network_of (s : Process) : RestNetwork := network (effects (main_peer s)).
Definition disk_of (s : Process) : Disk := disk (block_keeper (effects (main_peer s))).
Definition set_network (n : RestNetwork) (s : Process) : Process :=
  s <| main_peer ::= λ p, p <| effects ::= λ e, e <| network := n |> |> |>.
Definition set_disk (d : Disk) (s : Process) : Process :=
  s <| main_peer ::= λ p, p <| effects ::= λ e, e <| block_keeper ::= λ k, k <| disk := d |> |> |> |>.

(** A turn of [RestNetwork::run]; it notifies the waiting main task if the
    check succeeded. *)
Definition discovery_tick {E} (transport : HttpRequest → result Received string) : M Process E unit :=
  let* s := get in
  if network_stopped s then ret tt
  else
    let* checked := try_ (zoom (λ s, (network_of s, tt)) (λ n s, set_network n.1 s)
      (check (λ r, of_result (transport r)) client (advertised_addr c) (checks_failed s)
         (Readiness.notify_waiters (peers_ready s)))) in
    match checked with
    | Ok (failed, notify) =>
        modify (λ s, s <| checks_failed := failed |>
          <| peers_ready ::= if notify then Datatypes.id else Readiness.turn_succeeded |>)
    | Error _ => modify (λ s, s <| network_stopped := true |>)
    end.

Definition wait_for_peers {E} : M Process E unit :=
  let* s := get in
  if Readiness.waiting (peers_ready s) then ret tt
  else modify (λ s, s <| peers_ready ::= Readiness.wait_for_readiness |>).

Definition loop_turn {E} (ev : Event) : M Process E unit :=
  let* s := get in
  if Readiness.awake (peers_ready s) then
    let* handled := try_ (zoom main_peer (λ p s, s <| main_peer := p |>) (handle_event c ev)) in
    match handled with
    | Ok _ => ret tt
    | Error e => modify (λ s, s <| run_result := Some (Error e) |>)
    end
  else ret tt.

Definition request {E} (draw key_draw : N) (client_id : HeaderValue) (method : Method) (path : string) (body : option bytes) :
    M Process E HttpResponse :=
  let* s := get in
  zoom (λ s, (network_of s, disk_of s)) (λ n s, set_disk n.2 (set_network n.1 s))
    (serve_peer rejection draw key_draw client_id (block_keeper (effects (main_peer s))) (id (main_peer s))
       (consensus_state (main_peer s)) method path body).

(** A turn; nothing runs any more once [run_peer] has returned.  An answer to a
    request is the result. *)
Definition act {E} (a : Action) : M Process E (option HttpResponse) :=
  let* s := get in
  match run_result s with
  | Some _ => ret None
  | None =>
      match a with
      | DiscoveryTick transport => discovery_tick transport ;;; ret None
      | WaitForPeers => wait_for_peers ;;; ret None
      | LoopTurn ev => loop_turn ev ;;; ret None
      | Request draw key_draw client_id method path body =>
          let* response := request draw key_draw client_id method path body in
          ret (Some response)
      end
  end.

(** The key file a request of a test client may be about. *)
Definition test_key_file (client_id : HeaderValue) : option FilePath :=
  match client_id with
  | Text id => Some (path_join TEST_CLIENT_DIR id, KEY_FILE_NAME)
  | Missing | NotText => None
  end.

(** A step of the process.  A handler that panics ends its request and no more:
    the disk may then have a part of the key file it was writing. *)
Inductive process_step : Process → Process → Prop :=
  | step_act a s r s' : act (E := Empty_set) a s = Ret r s' → process_step s s'
  | step_handler_panicked draw key_draw client_id method path body s d' :
      run_result s = None →
      request (E := Empty_set) draw key_draw client_id method path body s = Panic →
      writes_only (test_key_file client_id) (disk_of s) d' →
      process_step s (set_disk d' s).

(** How a run ends.  A panic of the main task unwinds [run_peer] and the [main]
    that awaits it; a panic of any other task ends that task alone. *)
Inductive Exit : Type :=
  | Returned (r : result unit string)
  | Panicked (ev : Event).

Inductive process_exit (s : Process) : Exit → Prop :=
  | exit_returned r : run_result s = Some r → process_exit s (Returned r)
  | exit_panicked ev : act (E := Empty_set) (LoopTurn ev) s = Panic → process_exit s (Panicked ev).

(** A run with its turns; [None] is a request whose handler panicked. *)
Inductive trace : list (option Action) → Process → Process → Prop :=
  | trace_end s : trace [] s s
  | trace_act a l s r s1 s2 : act (E := Empty_set) a s = Ret r s1 → trace l s1 s2 → trace (Some a :: l) s s2
  | trace_handler_panicked draw key_draw client_id method path body l s d1 s2 :
      run_result s = None →
      request (E := Empty_set) draw key_draw client_id method path body s = Panic →
      writes_only (test_key_file client_id) (disk_of s) d1 →
      trace l (set_disk d1 s) s2 → trace (None :: l) s s2.

(** A schedule: actions one after the other, with the answers. *)
Fixpoint acts {E} (l : list Action) : M Process E (list HttpResponse) :=
  match l with
  | [] => ret []
  | a :: l =>
      let* r := act a in
      let* rs := acts l in
      ret (option_list r ++ rs)
  end.
End process.
End Process.
