(* ===== verification/History.v ===== *)
(** * The committed history of a whole peer

    Every handler of a peer, whatever it is given and however it ends, leaves
    the committed blocks of the peer alone and never lowers its height: the
    statement about the block store lifted over the Raft log on the same disk,
    the effect queue, the message loop and synchronization.  And a turn of the
    loop takes at most the first message of the channel; otherwise it only uses
    the network to send. *)

From S2P Require Import Prelude Platform Crypto Transactions Storage Messages RaftLogStore Raft RaftInvariant Voting Consensus Network Effects PeerNode KeeperFacts ChainFacts BlockNames StorageTheorems PeerTheorems Synchronization SyncTheorems NetworkTheorems Runtime.

(** ** Raft writes its own file only *)

Module RaftFiles.
Import RaftConsensus.
Section files.
Context {BP : BuildProfile} {P : Platform} {HO : HashOrder}.
Context `{!Serde PersistedRaftLogState, !Serde (list SignedTransaction), !Serde BlockFile}.
Implicit Types (s : RaftS).

(** The file a log store writes. *)
Definition store_file_path (st : AnyRaftLogStore) : option FilePath :=
  match st with File f => Some (store_path f) | InMemory _ => None end.

Definition own_file s s' : Prop :=
  store_file_path (raft_log_store (raft s')) = store_file_path (raft_log_store (raft s)) ∧
  writes_only (store_file_path (raft_log_store (raft s))) (raft_disk s) (raft_disk s').
#[export] Instance own_file_preorder : PreOrder own_file.
Proof.
  split; [by intros s|]. intros s1 s2 s3 (H1 & H2 & H3) (H4 & H5 & H6). split; [congruence|].
  split; [congruence|]. intros q Hq. rewrite H6 by congruence. auto.
Qed.

Lemma update_own_file {E} s f :
  raft_log_store (f (raft s)) = raft_log_store (raft s) → leads (E := E) own_file s (update f).
Proof. intros H. apply leads_modify. split; [cbn; by rewrite H|by split]. Qed.

Lemma create_dir_files dir d d' :
  final_state (create_dir_all dir d) = Some d' → writes_only None d d'.
Proof.
  unfold create_dir_all. case_decide; [by intros [= <-]|]. destruct (dirs d !! dir) eqn:E; intros [= <-]; [done|].
  split; [done|]. intros [dir' name] _. unfold file_at. cbn. destruct (decide (dir = dir')) as [->|].
  - by rewrite lookup_insert_eq, E.
  - by rewrite lookup_insert_ne.
Qed.

Lemma save_writes_only st l ci d :
  match RaftLogStore.save st l ci d with
  | Ret st' d' => store_file_path st' = store_file_path st ∧ writes_only (store_file_path st) d d'
  | Err _ d' => writes_only (store_file_path st) d d'
  | Panic => True
  end.
Proof.
  destruct st as [f|m]; [|done]. unfold RaftLogStore.save, RaftLogStore.save_file.
  assert (Hw : ∀ d1, writes_only None d d1 → ∀ d2, final_state (fs_write (store_path f)
    (to_vec (mkPersistedRaftLogState l ci)) d1) = Some d2 → writes_only (Some (store_path f)) d d2).
  { intros d1 [Hr Hf] d2 H2. split; [by rewrite (fs_write_read_faults _ _ _ _ H2)|]. intros q Hq.
    rewrite (fs_write_frame _ _ _ _ _ H2) by congruence. by apply Hf. }
  assert (Hn : ∀ d1, writes_only None d d1 → writes_only (Some (store_path f)) d d1).
  { intros d1 [Hr Hf]. split; [done|]. intros q _. by apply Hf. }
  pose proof (create_dir_files (store_path f).1 d) as Hc. unfold bind, map_err.
  destruct (create_dir_all _ d) as [[] d1|e d1|]; [|by apply Hn, Hc|done].
  specialize (Hw d1 (Hc d1 eq_refl)).
  destruct (fs_write _ _ d1) as [[] d2|e d2|]; [split; [done|]|..]; try done; by apply Hw.
Qed.

Lemma persist_log_own_file s : leads own_file s persist_log.
Proof.
  intros s'. unfold persist_log.
  pose proof (save_writes_only (raft_log_store (raft s)) (log (raft s)) (commit_index (raft s)) (raft_disk s)) as H.
  destruct (RaftLogStore.save _ _ _ _) as [st d|e d|]; cbn; [..|done]; intros [= <-].
  - destruct H as [H1 H2]. by split.
  - by split.
Qed.

Ltac own := lead; try (by apply update_own_file); try apply persist_log_own_file.

Lemma become_leader_own_file {E} s : leads (E := E) own_file s become_leader_if_majority.
Proof. unfold become_leader_if_majority. own. Qed.

Lemma on_client_transaction_own_file s tx : leads own_file s (on_client_transaction tx).
Proof. unfold on_client_transaction, ensure_no_uncommitted_block, forward_client_transaction. own. Qed.

Lemma append_local_entry_own_file s e : leads own_file s (append_local_entry e).
Proof. unfold append_local_entry, advance_commit_index. own. Qed.

Lemma on_block_created_own_file s h : leads own_file s (on_block_created h).
Proof.
  unfold on_block_created, append_local_block, ensure_no_uncommitted_block. own. apply append_local_entry_own_file.
Qed.

Lemma append_leader_noop_own_file s : leads own_file s append_leader_noop.
Proof. unfold append_leader_noop. own. apply append_local_entry_own_file. Qed.

Lemma on_tick_own_file s now peers : leads own_file s (on_tick now peers).
Proof.
  unfold on_tick, update_participants, start_election_at. own.
  all: first [apply become_leader_own_file|apply append_leader_noop_own_file].
Qed.

Lemma on_request_vote_own_file s t c li lt f : leads own_file s (on_request_vote t c li lt f).
Proof. unfold on_request_vote, request_vote, step_down_on_newer_term, step_down. own. Qed.

Lemma on_request_vote_response_own_file s t v g : leads own_file s (on_request_vote_response t v g).
Proof.
  unfold on_request_vote_response, receive_vote, step_down_on_newer_term, step_down. own.
  all: first [apply become_leader_own_file|apply append_leader_noop_own_file].
Qed.

Lemma append_loop_own_file {E} s es ds : leads (E := E) own_file s (append_loop es ds).
Proof. revert s ds. induction es as [|e es IH]; intros s ds; cbn [append_loop]; own; apply IH. Qed.

Lemma entries_contiguous_own_file {E} s p o es : leads (E := E) own_file s (entries_are_contiguous_from p o es).
Proof. revert s o. induction es as [|e es IH]; intros s o; cbn [entries_are_contiguous_from]; own; apply IH. Qed.

Lemma append_entries_own_file {E} s p pt es lc : leads (E := E) own_file s (append_entries p pt es lc).
Proof.
  unfold append_entries, entries_are_contiguous_after. own;
    first [apply append_loop_own_file|apply entries_contiguous_own_file].
Qed.

Lemma on_append_entries_own_file s draw t l p pt es lc f now :
  leads own_file s (on_append_entries draw t l p pt es lc f now).
Proof.
  unfold on_append_entries, handle_append_entries, receive_append_entries_at, step_down, reset_election_timeout. own.
  all: apply append_entries_own_file.
Qed.

Lemma on_append_entries_response_own_file s t f ok m : leads own_file s (on_append_entries_response t f ok m).
Proof.
  unfold on_append_entries_response, handle_leader_append_entries_response, step_down_on_newer_term, step_down,
    advance_commit_index. own.
Qed.

Lemma take_pending_block_own_file {E} s h : leads (E := E) own_file s (take_pending_block h).
Proof. unfold take_pending_block. own. Qed.
End files.
End RaftFiles.

(** ** The block store *)

Module StoreHistory.
Import BlockKeeper KeeperFacts Chain RaftFiles.
Section store.
Context {BP : BuildProfile} {P : Platform} {HO : HashOrder}.
Context `{!Serde (list SignedTransaction), !Serde BlockFile}.
(* the dev profile: a height that would overflow is a panic *)
Context (OC : overflow_checks = true).
Implicit Types (s : Storage).

Record history s s' : Prop := {
  hi_path : path_to_blocks (keeper s') = path_to_blocks (keeper s);
  hi_height : block_height (storage_state s) ≤ block_height (storage_state s');
  hi_stored i : i ≤ block_height (storage_state s) → stored s' i = stored s i;
  hi_wf : storage_wf s → storage_wf s';
  hi_faults : read_faults (disk s') = read_faults (disk s);
}.
#[export] Instance history_preorder : PreOrder history.
Proof.
  split; [by intros s|]. intros s1 s2 s3 [P1 H1 S1 W1 F1] [P2 H2 S2 W2 F2].
  split; [congruence|lia| |auto|congruence]. intros i Hi. rewrite S2 by lia. auto.
Qed.

Lemma preserves_history {E A} (m : M Storage E A) s :
  (∀ s0, preserves (StorageTheorems.same_disk s0) m) → preserves storage_wf m → leads history s m.
Proof.
  intros Hm Hw s' Hf. destruct (Hm s s s') as (Hd & Hst & Hp & _); [done|done|].
  split; [done|by rewrite Hst| |intros Hs; by eapply Hw|by rewrite Hd]. intros i _.
  unfold stored, BlockStorageView.get_block. by rewrite Hd, Hp.
Qed.

Lemma add_transaction_history {E} tx s : leads (E := E) history s (add_transaction tx).
Proof. apply preserves_history; [intros s0; apply StorageTheorems.add_transaction_same_disk|apply add_transaction_wf]. Qed.
Lemma add_external_block_history b s : leads history s (add_external_block b).
Proof. apply preserves_history; [intros s0; apply StorageTheorems.add_external_block_same_disk|apply add_external_block_wf]. Qed.
Lemma rollback_block_history h s : leads history s (rollback_block h).
Proof. apply preserves_history; [intros s0; apply StorageTheorems.rollback_block_same_disk|apply rollback_block_wf]. Qed.
Lemma block_can_be_added_history {E} b s : leads (E := E) history s (block_can_be_added b).
Proof. intros s' Hf. by rewrite <-(Synchronized.block_can_be_added_state b s s' Hf). Qed.

Lemma commit_block_history h s : leads history s (commit_block h).
Proof.
  intros s' Hf. destruct (decide (block_height (storage_state s) + 1 < u32_modulus)) as [Hh|Hh].
  - destruct (StorageTheorems.run_op_committed (StorageTheorems.OpCommitBlock h) s s' Hh Hf) as (H1 & _ & H3).
    destruct (StorageTheorems.commit_block_read_faults h s s' Hh Hf) as [Hp Hr].
    split; [done..| |done]. intros Hw. by eapply commit_block_wf.
  - revert Hf. unfold commit_block. rewrite bind_gets. destruct (uncommited_blocks (keeper s) !! h); [|by intros [= <-]].
    rewrite bind_gets. unfold bind at 1, add_u32, checked_plus. rewrite decide_False by done. by rewrite OC.
Qed.

(** Raft's writes, on the disk the store is on. *)
Lemma writes_only_history log s d :
  writes_only log (disk s) d →
  (∀ i, log ≠ Some (path_to_blocks (keeper s), block_filename_for_index i)) →
  history s (s <| disk := d |>).
Proof.
  intros [Hr Hf] Hlog. split; [done|done| |done|done]. intros i _.
  unfold stored, BlockStorageView.get_block, BlockFile.read_from_disk_by_index, BlockFile.read_from_disk, fs_read. cbn.
  by rewrite Hr, Hf by apply Hlog.
Qed.
End store.
End StoreHistory.

(** ** The engine, the effects and the peer *)

Module PeerHistory.
Import PeerEffects KeeperFacts Chain RaftFiles StoreHistory.
Section peer.
Context {BP : BuildProfile} {P : Platform} {HO : HashOrder}.
Context `{!Serde PersistedRaftLogState, !Serde (list SignedTransaction), !Serde BlockFile}.
Context `{!Serde Transaction, !Serde SignedTransaction}.
Context {Net : Type} `{!NetworkInterface Net, !NetworkLaws Net}.
Context (OC : overflow_checks = true).
Implicit Types (p : Peer Net) (e : PeerEffects Net).

Definition engine_log (c : ConsensusEngine) : option FilePath :=
  match c with
  | EngineVoting _ _ => None
  | EngineRaft r => store_file_path (raft_log_store r)
  end.

Definition engine_files (s s' : EngineS) : Prop :=
  engine_log (engine s') = engine_log (engine s) ∧
  writes_only (engine_log (engine s)) (engine_disk s) (engine_disk s').
#[local] Instance engine_files_preorder : PreOrder engine_files.
Proof.
  split; [by intros s|]. intros s1 s2 s3 (H1 & H2 & H3) (H4 & H5 & H6). split; [congruence|].
  split; [congruence|]. intros q Hq. rewrite H6 by congruence. auto.
Qed.

Lemma with_raft_files {E A} r (m : M RaftS E A) s :
  engine s = EngineRaft r → leads own_file (mkRaftS r (engine_disk s)) m →
  leads engine_files s (ConsensusEngine.with_raft r m).
Proof.
  intros He Hm s'. unfold ConsensusEngine.with_raft, leads, engine_files in *. rewrite He.
  destruct (m _) as [a s1|x s1|]; cbn in *; [..|done]; intros [= <-]; by destruct (Hm _ eq_refl).
Qed.

Lemma with_votings_files {E A} i v (m : M Votings E A) j w s :
  engine s = EngineVoting j w → leads engine_files s (ConsensusEngine.with_votings i v m).
Proof.
  intros He s'. unfold ConsensusEngine.with_votings, engine_files. rewrite He.
  destruct (m v); cbn; by intros [= <-].
Qed.

Ltac by_engine :=
  apply leads_gets; destruct (engine _) eqn:?;
  first [by lead|by eapply with_votings_files|eapply with_raft_files; [done|]].

Lemma on_client_transaction_files tx s : leads engine_files s (ConsensusEngine.on_client_transaction tx).
Proof. unfold ConsensusEngine.on_client_transaction. by_engine. apply on_client_transaction_own_file. Qed.
Lemma on_block_created_files h s : leads engine_files s (ConsensusEngine.on_block_created h).
Proof. unfold ConsensusEngine.on_block_created. by_engine. apply on_block_created_own_file. Qed.
Lemma on_local_block_proposed_files h l s : leads engine_files s (ConsensusEngine.on_local_block_proposed h l).
Proof. unfold ConsensusEngine.on_local_block_proposed. by_engine. Qed.
Lemma on_block_proposal_validated_files h f v l s :
  leads engine_files s (ConsensusEngine.on_block_proposal_validated h f v l).
Proof. unfold ConsensusEngine.on_block_proposal_validated. by_engine. Qed.
Lemma on_block_vote_files h f a l s : leads engine_files s (ConsensusEngine.on_block_vote h f a l).
Proof. unfold ConsensusEngine.on_block_vote. by_engine. Qed.
Lemma on_tick_files now l s : leads engine_files s (ConsensusEngine.on_tick now l).
Proof. unfold ConsensusEngine.on_tick, ConsensusEngine.raft_only. by_engine. apply on_tick_own_file. Qed.
Lemma take_pending_files {E} h s : leads (E := E) engine_files s (ConsensusEngine.take_pending_raft_block h).
Proof. unfold ConsensusEngine.take_pending_raft_block. by_engine. apply take_pending_block_own_file. Qed.
Lemma on_message_files draw f b now s : leads engine_files s (ConsensusEngine.on_message draw f b now).
Proof.
  unfold ConsensusEngine.on_message, ConsensusEngine.on_request_vote, ConsensusEngine.on_request_vote_response,
    ConsensusEngine.on_append_entries, ConsensusEngine.on_append_entries_response, ConsensusEngine.raft_only.
  destruct b; try by lead.
  all: by_engine.
  - apply on_request_vote_own_file.
  - apply on_request_vote_response_own_file.
  - apply on_append_entries_own_file.
  - apply on_append_entries_response_own_file.
Qed.

(** *** The effects *)

(** The store keeps its history, and the network is only used to send. *)
Definition effects_history e e' : Prop :=
  history (block_keeper e) (block_keeper e') ∧ sending (network e) (network e').
#[local] Instance effects_history_preorder : PreOrder effects_history.
Proof.
  split; [by intros e|]. intros e1 e2 e3 [H1 N1] [H2 N2]. split; by etrans.
Qed.

Lemma on_keeper_history {E A} (m : M Storage E A) e :
  leads history (block_keeper e) m → leads effects_history e (on_keeper m).
Proof.
  intros Hm e'. unfold on_keeper, zoom, leads in *. destruct (m _); cbn in *; [..|done]; intros [= <-];
    (split; [by apply Hm|reflexivity]).
Qed.
Lemma on_ledger_history {E A} (m : M TransactionProcessor E A) e : leads effects_history e (on_ledger m).
Proof. apply leads_zoom. by intros t. Qed.
Lemma on_network_history {E A} (m : M Net E A) e :
  leads sending (network e) m → leads effects_history e (on_network m).
Proof.
  intros Hm e'. unfold on_network, zoom, leads in *. destruct (m _); cbn in *; [..|done]; intros [= <-];
    (split; [reflexivity|by apply Hm]).
Qed.
Lemma modify_history {E} f e :
  block_keeper (f e) = block_keeper e → network (f e) = network e → leads (E := E) effects_history e (modify f).
Proof. intros Hk Hn. apply leads_modify. unfold effects_history. by rewrite Hk, Hn. Qed.

Ltac store := lead; try apply leads_map_err;
  first [apply on_ledger_history|apply on_network_history; first [apply send_leads|apply broadcast_leads]|by apply modify_history
        |apply on_keeper_history;
          first [apply add_transaction_history|apply add_external_block_history|apply rollback_block_history
                |apply block_can_be_added_history|by apply commit_block_history]
        |split; cbn; reflexivity
        |idtac].

Lemma apply_block_history {E} b e : leads (E := E) effects_history e (apply_block_transactions b).
Proof.
  unfold apply_block_transactions. revert e. induction (bf_transactions b) as [|tx txs IH]; intros e;
    cbn [for_each]; store. apply IH.
Qed.
Lemma stage_external_history b e : leads effects_history e (stage_external_block b).
Proof. unfold stage_external_block. store. apply apply_block_history. Qed.
Lemma apply_synchronized_history b e : leads effects_history e (PeerEffects.apply_synchronized_block b).
Proof. unfold PeerEffects.apply_synchronized_block. store. apply apply_block_history. Qed.
Lemma stage_client_history tx e : leads effects_history e (stage_client_transaction tx).
Proof. unfold stage_client_transaction. store. Qed.
Lemma broadcast_client_history tx e : leads effects_history e (broadcast_client_transaction tx).
Proof. unfold broadcast_client_transaction. store. Qed.
Lemma broadcast_proposal_history h e : leads effects_history e (broadcast_block_proposal h).
Proof. unfold broadcast_block_proposal. store. Qed.
Lemma send_append_history to t pi pt es lc e : leads effects_history e (send_raft_append_entries to t pi pt es lc).
Proof. unfold send_raft_append_entries. store. Qed.

(** *** The peer *)

Definition store_of p : Storage := block_keeper (effects p).

(** Raft's log file is not named like a block file. *)
Definition safe_log p : Prop :=
  ∀ i, engine_log (consensus p) ≠ Some (path_to_blocks (keeper (store_of p)), block_filename_for_index i).

Definition keeps_history p p' : Prop :=
  (safe_log p → safe_log p' ∧ history (store_of p) (store_of p')) ∧
  sending (network (effects p)) (network (effects p')).
#[export] Instance keeps_history_preorder : PreOrder keeps_history.
Proof.
  split; [by intros p|]. intros p1 p2 p3 [H12 N12] [H23 N23]. split; [|by etrans].
  intros H1. destruct (H12 H1) as [H2 Hh]. destruct (H23 H2) as [H3 Hh']. split; [done|]. by etrans.
Qed.

Lemma on_effects_keeps {E A} (m : EffectsM (Net := Net) E A) p :
  leads effects_history (effects p) m → leads keeps_history p (on_effects m).
Proof.
  intros Hm p'. unfold on_effects, zoom, leads in *.
  assert (Hk : ∀ e', effects_history (effects p) e' → keeps_history p (p <| effects := e' |>)).
  { intros e' [He Hn]. split; [|exact Hn]. intros Hs. split; [|exact He].
    intros i. unfold store_of. cbn. rewrite (hi_path _ _ He). apply Hs. }
  destruct (m _); cbn in *; [..|done]; intros [= <-]; by apply Hk, Hm.
Qed.

Lemma on_consensus_keeps {E A} (m : M EngineS E A) p :
  (∀ s, leads engine_files s m) → leads keeps_history p (on_consensus m).
Proof.
  intros Hm p'. unfold on_consensus, zoom, leads in *.
  assert (Hk : ∀ s', engine_files (mkEngineS (consensus p) (disk (block_keeper (effects p)))) s' →
    keeps_history p (p <| consensus := engine s' |>
      <| effects ::= λ e, e <| block_keeper ::= λ k, k <| disk := engine_disk s' |> |> |>)).
  { intros s' [He Hw]. split; [|by cbn]. intros Hs. split.
    - intros i. cbn. rewrite He. apply Hs.
    - apply (writes_only_history _ _ _ Hw). apply Hs. }
  specialize (Hm (mkEngineS (consensus p) (disk (block_keeper (effects p))))).
  destruct (m _); cbn in *; [..|done]; intros [= <-]; by apply Hk, Hm.
Qed.

Ltac keep := lead;
  first [apply on_effects_keeps;
           first [apply apply_block_history|apply stage_external_history|apply apply_synchronized_history
                 |apply stage_client_history|apply broadcast_client_history|apply broadcast_proposal_history
                 |apply send_append_history|by store]
        |apply on_consensus_keeps; intros ?;
           first [apply on_client_transaction_files|apply on_block_created_files|apply on_local_block_proposed_files
                 |apply on_block_proposal_validated_files|apply on_block_vote_files|apply on_tick_files
                 |apply take_pending_files|apply on_message_files]
        |idtac].

Lemma stage_raft_entries_keeps entries p : leads keeps_history p (stage_raft_entries entries).
Proof. revert p. induction entries as [|entry entries IH]; intros p; cbn [stage_raft_entries]; keep; apply IH. Qed.

Lemma execute_effect_keeps (x : ConsensusEffect) p : leads keeps_history p (execute_effect x).
Proof. unfold execute_effect. destruct x; keep. apply stage_raft_entries_keeps. Qed.

Lemma run_generation_keeps {E} queue next errors p :
  leads (E := E) keeps_history p (run_generation queue next errors).
Proof.
  revert next errors p. induction queue as [|x queue IH]; intros next errors p; cbn [run_generation]; lead;
    first [apply execute_effect_keeps|apply IH].
Qed.

Lemma execute_all_keeps queue p : leads keeps_history p (execute_all queue).
Proof.
  assert (Hg : ∀ E n queue errors p, leads (E := E) keeps_history p (generations n queue errors)).
  { intros E n. induction n as [|n IH]; intros q errs p0; cbn [generations]; lead;
      [apply run_generation_keeps|apply IH]. }
  unfold execute_all. lead. apply Hg.
Qed.

Lemma execute_consensus_effects_keeps queue p : leads keeps_history p (Peer.execute_consensus_effects queue).
Proof.
  unfold Peer.execute_consensus_effects. lead; [apply execute_all_keeps|]. by split.
Qed.

Lemma process_message_keeps draw now m p : leads keeps_history p (Peer.process_message draw now m).
Proof.
  unfold Peer.process_message, Peer.process_client_transaction, Peer.synchronize_transaction,
    Peer.process_block_proposal, Peer.process_block_vote, Peer.dispatch_to_consensus.
  destruct (body m); keep; apply execute_consensus_effects_keeps.
Qed.

Lemma handle_message_keeps {E} draw now m p : leads (E := E) keeps_history p (Peer.handle_message draw now m).
Proof. unfold Peer.handle_message. lead. apply process_message_keeps. Qed.

Lemma handle_tick_keeps now p : leads keeps_history p (Peer.handle_tick now).
Proof. unfold Peer.handle_tick. keep. apply execute_consensus_effects_keeps. Qed.

Lemma apply_synchronized_keeps b p : leads keeps_history p (Peer.apply_synchronized_block b).
Proof. unfold Peer.apply_synchronized_block. keep. Qed.

(** Synchronization applies blocks and nothing else. *)
Lemma sync_keeps {Net'} `{!NetworkInterface Net', !RequestInterface Net'} {E} (env : nat → Net') draws h p :
  leads (E := E) keeps_history p
    (Synchronization.check_and_retrieve_missing_blocks env draws Peer.apply_synchronized_block h).
Proof.
  assert (Hl : ∀ fuel k states idx errors p, leads (E := E) keeps_history p
    (Synchronization.sync_loop env draws Peer.apply_synchronized_block fuel k states idx errors)).
  { intros fuel. induction fuel as [|fuel IH]; intros k states idx errors p0; cbn [Synchronization.sync_loop];
      unfold Synchronization.get_block_file, random_index, add_u32; lead; try apply IH.
    apply apply_synchronized_keeps. }
  unfold Synchronization.check_and_retrieve_missing_blocks, add_u32. lead. apply Hl.
Qed.
End peer.
End PeerHistory.

(** ** The event loop *)

Module LoopHistory.
Import KeeperFacts Chain RaftFiles StoreHistory PeerHistory NetworkFacts.
Section loop.
Context {BP : BuildProfile} {P : Platform} {HO : HashOrder}.
Context `{!Serde PersistedRaftLogState, !Serde (list SignedTransaction), !Serde BlockFile}.
Context `{!Serde Transaction, !Serde SignedTransaction}.
#[local] Existing Instance RestNetwork.interface.
#[local] Existing Instance rest_laws.
Implicit Types (p : Peer RestNetwork).

(** What [recv] leaves, and what it takes. *)
Definition channel_of p : Channel := peer_sender (network (effects p)).
Definition received p : option Message := head (queue (channel_of p)).
Definition take_message p : Peer RestNetwork :=
  p <| effects ::= λ e, e <| network ::= λ n,
    n <| peer_sender ::= λ c, mkChannel (tail (queue c)) (capacity c) (closed c) |> |> |>.

Definition takes_message (ev : Event) : bool := match ev with EvMessage _ _ => true | _ => false end.

(** A turn takes the first message, if it is one for that, and after that only
    sends. *)
Lemma handle_event_keeps c ev p p' :
  overflow_checks = true → final_state (handle_event c ev p) = Some p' →
  keeps_history (if takes_message ev then take_message p else p) p'.
Proof.
  intros OC. destruct ev as [draw now|env draws|now]; cbn [takes_message].
  - unfold handle_event, recv. rewrite bind_assoc. unfold bind at 1, get, take_message.
    destruct (queue (peer_sender (network (effects p)))) as [|m q] eqn:Hq.
    + assert (Hp : p <| effects ::= λ e, e <| network ::= λ n, n <| peer_sender ::=
        λ c, mkChannel (tail (queue c)) (capacity c) (closed c) |> |> |> = p).
      { destruct p as [i co cs e]. destruct e as [i2 t bk sk pk n l]. destruct n as [i3 kp ch o]. destruct ch. cbn in *. by subst. }
      rewrite Hp. destruct (closed _); by intros [= <-].
    + rewrite bind_assoc, bind_modify, bind_ret_l. unfold ok_or. rewrite bind_ret_l.
      intros Hf. apply (handle_message_keeps OC) in Hf. unfold update_field in *. cbn in *. by rewrite Hq.
  - revert p'. change (leads keeps_history p (handle_event c (EvSyncTick env draws))).
    unfold handle_event. lead. by apply sync_keeps.
  - revert p'. change (leads keeps_history p (handle_event c (EvConsensusTick now))).
    unfold handle_event. lead. by apply handle_tick_keeps.
Qed.
End loop.
End LoopHistory.
