(* ===== verification/RuntimeTheorems.v ===== *)
(** * Starting a peer, its configuration and its HTTP answers: theorems *)

From S2P Require Import Prelude Platform Crypto Transactions Storage BlockNames KeeperFacts ChainFacts StorageTheorems Messages RaftLogStore Raft Voting Consensus Network Effects PeerNode Synchronization Runtime Server RaftInvariant PeerTheorems SyncTheorems History.

Module ServerTheorems.
Import Server KeeperFacts Chain.
Section answers.
Context {P : Platform} {HO : HashOrder}.
Context `{!Serde (list SignedTransaction), !Serde BlockFile}.
Implicit Types (view : Storage).

(** What the server says of a block, by what is on its disk. *)
Definition block_path view (i : N) : FilePath := (path_to_blocks (keeper view), block_filename_for_index i).

(** [GET /block/{i}]: 404 exactly when there is no such file to read, 500
    when the file cannot be read or decoded, and otherwise the block that
    was decoded; and [GET /block/state/{i}] answers the state of that block
    or the same error. *)
Theorem get_block_statuses view i :
  match fs_read (disk view) (block_path view i) with
  | Error NotFound => ∃ text, get_block view i = Error (NOT_FOUND, text)
  | Error OtherIo => ∃ text, get_block view i = Error (INTERNAL_SERVER_ERROR, text)
  | Ok contents =>
      match from_slice contents with
      | Error _ => ∃ text, get_block view i = Error (INTERNAL_SERVER_ERROR, text)
      | Ok b => get_block view i = Ok b
      end
  end ∧
  get_block_state view i =
    match get_block view i with Ok b => Ok (state_of_block b) | Error e => Error e end.
Proof.
  split.
  - unfold get_block, BlockStorageView.get_block, BlockFile.read_from_disk_by_index, BlockFile.read_from_disk, block_path.
    destruct (fs_read _ _) as [contents|[]]; [destruct (from_slice contents); [done|]|..]; by eexists.
  - unfold get_block_state, get_block. by destruct (BlockStorageView.get_block view i).
Qed.

(** The server of a peer whose chain is intact serves that chain: every
    height up to the latest state is answered with a verified block of that
    height that names its predecessor's hash, and the latest state is the
    state of the block at its height. *)
Theorem server_serves_chain view i :
  chain_ok view → 0 < i → i ≤ block_height (get_latest_storage_state view) →
  ∃ b, get_block view i = Ok b ∧ linked view i b ∧
    get_block_state view i = Ok (mkBlockStorageState i (bf_hash b)) ∧
    (i = block_height (get_latest_storage_state view) →
     get_block_state view i = Ok (get_latest_storage_state view)).
Proof.
  intros [Htip Hall] Hpos Hle. destruct (Hall i Hpos Hle) as (b & Hb & Hl). exists b.
  assert (Hs : get_block_state view i = Ok (mkBlockStorageState i (bf_hash b))).
  { unfold get_block_state. unfold stored in Hb. rewrite Hb. unfold state_of_block. by destruct Hl as [-> _]. }
  split_and!; [by unfold get_block, stored in *; rewrite Hb|done|done|].
  intros Hi. rewrite Hs. unfold get_latest_storage_state, BlockStorageView.get_latest_state in *.
  unfold hash_at in Htip. rewrite decide_False in Htip by lia. rewrite <-Hi, Hb in Htip.
  destruct (storage_state view); cbn in *. congruence.
Qed.
End answers.

Section test_clients.
Context {P : Platform} {PL : PlatformLaws} {HO : HashOrder} `{!Serde Transaction, !Serde BlockFile}.
#[local] Existing Instance RestNetwork.interface.

(** The [client_id] header is joined to the key directory unchecked: an
    absolute one names any directory, so a test transaction can be signed
    with the private key of the peer itself, and is queued for it. *)
Theorem test_client_signs_with_any_key {E} draw key_draw rest tx (n : RestNetwork) (d : Disk) key :
  let dir := "/" +:+ rest in
  is_Some (dirs d !! dir) → dir ∉ dir_faults d →
  fs_read d (dir, KEY_FILE_NAME) = Ok (signing_key_to_bytes key) →
  closed (peer_sender n) = false → (length (queue (peer_sender n)) < capacity (peer_sender n))%nat →
  ∃ n', handle_test_transaction (E := E) draw key_draw (Text dir) tx (n, d) =
      Ret "Transaction processed" (n', d) ∧
    queue (peer_sender n') = queue (peer_sender n) ++
      [mkMessage 0 (rn_peer_id n) (ClientTransaction (SignedTransaction_new tx key))].
Proof.
  intros dir Hdir Hf Hkey Hc Hcap.
  assert (Hk : KeyManager.get_or_create_key (E := E) key_draw (path_join TEST_CLIENT_DIR dir) d = Ret key d).
  { change (path_join TEST_CLIENT_DIR dir) with dir.
    destruct (create_dir_all_spec dir d Hf) as (d1 & H1 & _ & _ & Hd1). rewrite (Hd1 Hdir) in H1.
    unfold KeyManager.get_or_create_key, bind, try_, get. rewrite H1, Hkey, decide_True by apply signing_key_length.
    by rewrite signing_key_roundtrip. }
  assert (Hsend : ∀ m, try_send (peer_sender n) m =
    Ok (mkChannel (queue (peer_sender n) ++ [m]) (capacity (peer_sender n)) (closed (peer_sender n)))).
  { intros m. unfold try_send. rewrite Hc, decide_False by lia. done. }
  eexists. split.
  - unfold handle_test_transaction, bind at 1, zoom at 1. cbn [snd fst]. rewrite Hk.
    unfold zoom. cbn [fst]. unfold accept. unfold bind at 1, try_. cbn [receive_client_message RestNetwork.interface].
    unfold RestNetwork.receive_client, RestNetwork.message_received, bind, get. rewrite Hsend.
    unfold of_result, ret, modify. reflexivity.
  - cbn. by rewrite Hc || done.
Qed.
End test_clients.
End ServerTheorems.

Module RuntimeFacts.
Import KeeperFacts Chain RaftFiles StoreHistory PeerHistory.
Section facts.
Context {BP : BuildProfile} {P : Platform} {HO : HashOrder}.
Context `{!Serde PersistedRaftLogState, !Serde (list SignedTransaction), !Serde BlockFile}.
Context `{!Serde Transaction, !Serde SignedTransaction}.

(** A block file's name starts with a digit, the names of the other two
    files of a peer's directory do not. *)
Lemma block_filename_head i : ∃ c rest, block_filename_for_index i = String c rest ∧ is_ascii_digit c = true.
Proof.
  rewrite block_filename_digits. pose proof (block_digits_nonempty i) as Hne.
  pose proof (parse_digits_all _ _ _ (parse_block_digits i)) as Hd.
  destruct (block_digits i) as [|c rest]; [done|]. exists c, (rest +:+ ".block"). split; [done|].
  unfold all_digits in Hd. cbn in Hd. by apply andb_true_iff in Hd as [? _].
Qed.

Lemma block_filename_not_key i : block_filename_for_index i ≠ KEY_FILE_NAME.
Proof. destruct (block_filename_head i) as (c & rest & -> & Hc). intros [= -> _]. done. Qed.
Lemma block_filename_not_log i : block_filename_for_index i ≠ RAFT_LOG_FILENAME.
Proof. destruct (block_filename_head i) as (c & rest & -> & Hc). intros [= -> _]. done. Qed.

Lemma get_or_create_key_writes {E} draw dir d k d' :
  KeyManager.get_or_create_key (E := E) draw dir d = Ret k d' → writes_only (Some (dir, KEY_FILE_NAME)) d d'.
Proof.
  unfold KeyManager.get_or_create_key, bind, try_, get. intros Hk.
  pose proof (create_dir_files dir d) as Hc. destruct (create_dir_all dir d) as [[] d1|e d1|]; [|done|done].
  destruct (Hc d1 eq_refl) as [Hr Hf].
  assert (Hd1 : writes_only (Some (dir, KEY_FILE_NAME)) d d1) by (split; [done|]; intros q _; by apply Hf).
  destruct (fs_read d1 (dir, KEY_FILE_NAME)).
  - case_decide; [|done]. destruct (signing_key_from_bytes _); [|done]. by injection Hk as _ <-.
  - pose proof (fs_write_frame (dir, KEY_FILE_NAME) (signing_key_to_bytes (KeyManager.create_key draw)) d1) as Hw.
    pose proof (fs_write_read_faults (dir, KEY_FILE_NAME) (signing_key_to_bytes (KeyManager.create_key draw)) d1) as Hrf.
    destruct (fs_write _ _ d1) as [[] d2| |]; [|done|done]. injection Hk as _ <-.
    split; [by rewrite (Hrf d2)|]. intros q Hq. rewrite (Hw d2 q) by (done || congruence). by apply Hf.
Qed.

(** [start_peer], step by step. *)
Lemma start_peer_Ret key_draw draw now c d p d' :
  start_peer key_draw draw now c d = Ret p d' →
  ∃ s key engine, BlockKeeper.new (peer_dir (pc_peer_id c)) DEFAULT_MEMPOOL_SIZE d = Some s ∧
    KeyManager.get_or_create_key (E := string) key_draw (peer_dir (pc_peer_id c)) d = Ret key d' ∧
    match consensus_mode c with
    | ModeVoting => engine = ConsensusEngine.new_voting (pc_peer_id c)
    | ModeRaft => create_raft_consensus draw now (pc_peer_id c) (peer_dir (pc_peer_id c)) (s <| disk := d' |>) = Ok engine
    end ∧
    p = Peer.new (pc_peer_id c) (RestNetwork.new (pc_peer_id c) (mkChannel [] (channel_size c) false))
          engine (s <| disk := d' |>) key.
Proof.
  unfold start_peer. cbv zeta. unfold bind at 1, get at 1. intros (s & d1 & Hn & H)%bind_Ret.
  destruct (BlockKeeper.new _ _ d) as [s0|]; [|done]. injection Hn as -> <-.
  apply bind_Ret in H as (key & d2 & Hkey & H). unfold bind at 1, get at 1 in H.
  apply bind_Ret in H as (engine & d3 & He & [= <- <-]). exists s, key, engine.
  destruct (consensus_mode c).
  - injection He as <- <-. done.
  - apply of_result_Ret in He as [He ->]. done.
Qed.

(** The engine of a started peer writes no block file. *)
Lemma start_engine_safe draw now c s engine (net : RestNetwork) key :
  match consensus_mode c with
  | ModeVoting => engine = ConsensusEngine.new_voting (pc_peer_id c)
  | ModeRaft => create_raft_consensus draw now (pc_peer_id c) (peer_dir (pc_peer_id c)) s = Ok engine
  end → safe_log (Peer.new (pc_peer_id c) net engine s key).
Proof.
  intros He i. cbn. destruct (consensus_mode c); [by subst engine|].
  unfold create_raft_consensus, ConsensusEngine.new_raft_with_storage, RaftConsensus.new_with_storage in He.
  destruct (RaftLogStore.load _ _); [|done]. injection He as <-. cbn. intros [= _ H].
  by apply (block_filename_not_log i).
Qed.

Lemma keeper_new_wf path size d s : BlockKeeper.new path size d = Some s → storage_wf s.
Proof.
  unfold BlockKeeper.new. intros ([i h] & _ & [= <-])%bind_Some.
  split; cbn; [intros ?? H; by rewrite lookup_empty in H..|by left].
Qed.

(** A peer starts with its store well formed, whatever the disk holds, and with
    nobody known and nothing in the channel. *)
Lemma start_peer_initial key_draw draw now c d p d' :
  start_peer key_draw draw now c d = Ret p d' →
  storage_wf (store_of p) ∧ safe_log p ∧
  network (effects p) = RestNetwork.new (pc_peer_id c) (mkChannel [] (channel_size c) false).
Proof.
  intros (s & key & engine & Hn & _ & He & ->)%start_peer_Ret. split_and!; [|by eapply start_engine_safe|done].
  by apply keeper_new_wf in Hn.
Qed.

Lemma new_keeps_path path size d s : BlockKeeper.new path size d = Some s → path_to_blocks (keeper s) = path.
Proof.
  unfold BlockKeeper.new. intros ([i h] & _ & [= <-])%bind_Some. done.
Qed.
End facts.
End RuntimeFacts.

Module RuntimeTheorems.
Import KeeperFacts Chain Restart RaftFiles StoreHistory PeerHistory RuntimeFacts.
Section theorems.
Context {BP : BuildProfile} {P : Platform} {PL : PlatformLaws} {HO : HashOrder} {HL : HashOrderLaws}.
Context `{!Serde PersistedRaftLogState, !Serde (list SignedTransaction), !Serde BlockFile}.
Context `{!Serde Transaction, !Serde SignedTransaction}.

(** C18. Restarting a peer on the disk of a keeper [s] of fewer than 100000
    blocks: the new peer has the height, the hash and the blocks that [s]
    had, nothing staged, and a Raft log that cannot overwrite a block; but
    its ledger is empty, whatever transactions those blocks hold. *)
Theorem start_peer_recovers key_draw draw now c s p d' :
  path_to_blocks (keeper s) = peer_dir (pc_peer_id c) →
  readable s → chain_ok s → dir_ok s → block_height (storage_state s) < 100000 →
  start_peer key_draw draw now c (disk s) = Ret p d' →
  storage_state (store_of p) = storage_state s ∧
  (∀ i, stored (store_of p) i = stored s i) ∧
  mempool (keeper (store_of p)) = ∅ ∧ uncommited_blocks (keeper (store_of p)) = ∅ ∧
  safe_log p ∧ storage_wf (store_of p) ∧
  transaction_processor (effects p) = TransactionProcessor_default.
Proof.
  intros Hpath Hr Hc Hd Hh (s1 & key & engine & Hn & Hk & He & ->)%start_peer_Ret.
  destruct (StorageTheorems.new_after s DEFAULT_MEMPOOL_SIZE Hr Hc Hd Hh) as (s2 & Hn2 & Hst & Hdisk & Hwf & Hm & Hu).
  rewrite Hpath, Hn in Hn2. injection Hn2 as <-.
  pose proof (new_keeps_path _ _ _ _ Hn) as Hp1.
  pose proof (get_or_create_key_writes _ _ _ _ _ Hk) as [Hrf Hw].
  unfold store_of. cbn. split_and!; try done.
  - intros i. unfold stored, BlockStorageView.get_block, BlockFile.read_from_disk_by_index,
      BlockFile.read_from_disk, fs_read. cbn. rewrite Hp1, Hpath, Hrf, Hw; [done|].
    intros [= H]. by apply (block_filename_not_key i).
  - apply (start_engine_safe draw now c (s1 <| disk := d' |>)). by destruct (consensus_mode c).
Qed.

(** A restarted Raft node believes its log file about what is committed:
    its commit index is the persisted one, however few blocks are on disk, so
    the blocks between the height and that index, whose commit effects were
    lost with the process, are taken for committed; and its term is 0 again
    and its vote forgotten. *)
Theorem restart_trusts_log_file key_draw draw now c d p d' entries ci :
  consensus_mode c = ModeRaft →
  RaftLogStore.load_file (FileRaftLogStore_new (peer_dir (pc_peer_id c))) d = Ok (mkRaftLogState entries (Some ci)) →
  start_peer key_draw draw now c d = Ret p d' →
  ∃ r, consensus p = EngineRaft r ∧ log r = entries ∧
    commit_index r = N.min ci (match last entries with Some e => index e | None => 0 end) ∧
    current_term r = 0 ∧ voted_for r = None ∧ role r = Follower.
Proof.
  intros Hmode Hload (s1 & key & engine & Hn & Hk & He & ->)%start_peer_Ret. rewrite Hmode in He.
  pose proof (get_or_create_key_writes _ _ _ _ _ Hk) as [Hrf Hw].
  assert (Hload' : RaftLogStore.load_file (FileRaftLogStore_new (peer_dir (pc_peer_id c))) d' =
    Ok (mkRaftLogState entries (Some ci))).
  { rewrite <-Hload. unfold RaftLogStore.load_file, path_exists, fs_read. cbn. rewrite Hrf, Hw; [done|].
    intros [= H]. }
  unfold create_raft_consensus, ConsensusEngine.new_raft_with_storage, RaftConsensus.new_with_storage,
    RaftLogStore.load in He. cbn in He. rewrite Hload' in He. injection He as <-. by eexists.
Qed.

(** The port of a peer is 3000 plus its id: the ids that fit a [u16] but
    not the ports above 3000 pass the check meant for them, and then panic
    (dev profile) or wrap around to a port below 3000 (release). *)
Theorem peer_port parse_ip resolve env id text :
  env !! PEER_ID_ENV_VAR = Some text → PeerId_from_str text = Ok id →
  env !! CONSENSUS_MODE_ENV_VAR = None → env !! PEER_ADVERTISE_HOST_ENV_VAR = None →
  ∀ ip, parse_ip (default DEFAULT_LOCAL_HOST (env !! PEER_BIND_HOST_ENV_VAR)) = Some ip →
  from_env parse_ip resolve env =
    if decide (id < 62536) then
      Ret (mkPeerConfig id (mkSocketAddr ip (3000 + id)) (mkSocketAddr ip (3000 + id)) DEFAULT_CHANNEL_SIZE ModeRaft) env
    else if decide (id < 65536) then
      if overflow_checks then Panic
      else Ret (mkPeerConfig id (mkSocketAddr ip (id - 62536)) (mkSocketAddr ip (id - 62536)) DEFAULT_CHANNEL_SIZE ModeRaft) env
    else Err ("PeerId is too big: " +:+ pretty id) env.
Proof.
  intros Hid Hparse Hmode Hadv ip Hip. unfold from_env. unfold bind at 1, get. cbv beta iota.
  rewrite Hid. unfold bind at 1, ok_or at 1, ret at 1. rewrite Hparse. unfold bind at 1, ok_or at 1, ret at 1.
  rewrite Hmode. cbn [default]. unfold bind at 1, of_result at 1.
  change (ConsensusMode_from_str "raft") with (Ok ModeRaft : result ConsensusMode string). cbv beta iota. unfold ret at 1.
  unfold PeerId_try_into_u16, u16_modulus. unfold bind at 1, of_result.
  destruct (decide (id < 65536)) as [H16|H16]; [|rewrite decide_False by lia; done].
  unfold ret at 1. unfold bind at 1, add_u16, checked_plus, DEFAULT_BASE_PORT, u16_modulus.
  rewrite Hip, Hadv.
  destruct (decide (id < 62536)) as [H|H]; [by rewrite decide_True by lia|].
  rewrite decide_False by lia. destruct overflow_checks; [done|]. cbv beta iota. unfold unwrap, ret at 1.
  assert ((3000 + id) mod 65536 = id - 62536) as ->; [|done].
  symmetry. apply (N.mod_unique _ _ 1); lia.
Qed.
End theorems.
End RuntimeTheorems.
