(* ===== verification/PanicFree.v ===== *)
(** * What a peer's main task can panic on

    Without the overflow checks of the build, nothing that a message, a tick or
    a served block makes a peer do panics; a synchronization does so when all
    known peers are gone or an answer cannot be read.  (A panic of a checked
    build on anything else is thus a failed overflow check.) *)

From S2P Require Import Prelude Platform Crypto Transactions Storage Messages RaftLogStore Raft Voting VotingTheorems Consensus Network Effects PeerNode Synchronization SyncTheorems NetworkTheorems Runtime.

(** ** Calls that do not panic *)

Module NoPanic.
Definition calm {S E A} (m : M S E A) : Prop := ∀ s, m s ≠ Panic.

Section rules.
Context {S E : Type}.

Lemma calm_ret {A} (a : A) : calm (S := S) (E := E) (ret a).
Proof. done. Qed.
Lemma calm_throw {A} (e : E) : calm (S := S) (A := A) (throw e).
Proof. done. Qed.
Lemma calm_get : calm (S := S) (E := E) get.
Proof. done. Qed.
Lemma calm_gets {A} (f : S → A) : calm (E := E) (gets f).
Proof. done. Qed.
Lemma calm_modify (f : S → S) : calm (E := E) (modify f).
Proof. done. Qed.
Lemma calm_bind {A B} (m : M S E A) (k : A → M S E B) : calm m → (∀ a, calm (k a)) → calm (bind m k).
Proof. intros Hm Hk s. unfold bind. specialize (Hm s). destruct (m s); [apply Hk|done..]. Qed.
Lemma calm_try {F A} (m : M S E A) : calm m → calm (try_ (F := F) m).
Proof. intros Hm s. unfold try_. specialize (Hm s). by destruct (m s). Qed.
Lemma calm_map_err {F A} (f : E → F) (m : M S E A) : calm m → calm (map_err f m).
Proof. intros Hm s. unfold map_err. specialize (Hm s). by destruct (m s). Qed.
Lemma calm_zoom {T A} proj upd (m : M T E A) : calm m → calm (S := S) (zoom proj upd m).
Proof. intros Hm s. unfold zoom. specialize (Hm (proj s)). by destruct (m (proj s)). Qed.
Lemma calm_of_result {A} (r : result A E) : calm (S := S) (of_result r).
Proof. by destruct r. Qed.
Lemma calm_ok_or {A} e (o : option A) : calm (S := S) (E := E) (ok_or e o).
Proof. by destruct o. Qed.
Lemma calm_for_each {A} (l : list A) (f : A → M S E unit) : (∀ x, calm (f x)) → calm (for_each l f).
Proof. intros Hf. induction l as [|x l IH]; cbn [for_each]; [apply calm_ret|]. by apply calm_bind. Qed.

Lemma calm_unwrap_Some {A} (o : option A) : is_Some o → calm (S := S) (E := E) (unwrap o).
Proof. by intros [a ->]. Qed.
End rules.

Section arithmetic.
Context {BP : BuildProfile} (NC : overflow_checks = false).

(** Arithmetic wraps. *)
Lemma checked_plus_Some m a b : is_Some (checked_plus m a b).
Proof. unfold checked_plus. case_decide; [by eexists|]. rewrite NC. by eexists. Qed.
Lemma checked_minus_Some m a b : is_Some (checked_minus m a b).
Proof. unfold checked_minus. case_decide; [by eexists|]. rewrite NC. by eexists. Qed.
Lemma calm_add_u32 {S E} a b : calm (S := S) (E := E) (add_u32 a b).
Proof. apply calm_unwrap_Some, checked_plus_Some. Qed.
Lemma calm_sub_u32 {S E} a b : calm (S := S) (E := E) (sub_u32 a b).
Proof. apply calm_unwrap_Some, checked_minus_Some. Qed.
Lemma calm_add_u64 {S E} a b : calm (S := S) (E := E) (add_u64 a b).
Proof. apply calm_unwrap_Some, checked_plus_Some. Qed.
Lemma calm_sub_u64 {S E} a b : calm (S := S) (E := E) (sub_u64 a b).
Proof. apply calm_unwrap_Some, checked_minus_Some. Qed.
End arithmetic.

Create HintDb calm.
#[export] Hint Resolve calm_add_u32 calm_sub_u32 calm_add_u64 calm_sub_u64 : calm.

(** Following the code; the calls are left to the hints. *)
Ltac calm_step :=
  lazymatch goal with
  | |- calm (bind _ _) => apply calm_bind; [|intros ?]
  | |- calm (ret _) => apply calm_ret
  | |- calm (throw _) => apply calm_throw
  | |- calm get => apply calm_get
  | |- calm (gets _) => apply calm_gets
  | |- calm (modify _) => apply calm_modify
  | |- calm (try_ _) => apply calm_try
  | |- calm (map_err _ _) => apply calm_map_err
  | |- calm (zoom _ _ _) => apply calm_zoom
  | |- calm (of_result _) => apply calm_of_result
  | |- calm (ok_or _ _) => apply calm_ok_or
  | |- calm (for_each _ _) => apply calm_for_each; intros ?
  | |- calm (match ?x with _ => _ end) => destruct x
  | |- calm (let _ := _ in _) => cbv zeta
  | |- calm _ => solve [eauto with calm]
  end.
Ltac calmly := repeat calm_step.
End NoPanic.

Module PanicFree.
Import NoPanic.

(** ** The components *)
Section components.
Context {BP : BuildProfile} {P : Platform} {HO : HashOrder} (NC : overflow_checks = false).
Context `{!Serde PersistedRaftLogState, !Serde (list SignedTransaction), !Serde BlockFile}.

Import TransactionProcessor.
Lemma add_coin_calm id a n : calm (add_coin id a n).
Proof. unfold add_coin. calmly. Qed.
#[local] Hint Resolve add_coin_calm : calm.
Lemma process_transaction_calm tx : calm (process_transaction tx).
Proof. unfold process_transaction, send_coins. calmly. Qed.
Lemma rollback_transactions_calm {E} txs : calm (E := E) (rollback_transactions txs).
Proof. unfold rollback_transactions, rollback_transaction, reverse_add_coin, reverse_send_coins. calmly. Qed.

Import BlockKeeper.
Lemma fs_write_calm p b : calm (fs_write p b).
Proof. intros d. apply fs_write_no_panic. Qed.
#[local] Hint Resolve fs_write_calm : calm.
Lemma add_transaction_calm {E} tx : calm (E := E) (add_transaction tx).
Proof. unfold add_transaction, create_new_block, update_keeper. calmly. Qed.
#[local] Hint Resolve add_transaction_calm : calm.
Lemma add_external_block_calm b : calm (add_external_block b).
Proof. unfold add_external_block, take_from_mempool, update_keeper. calmly. Qed.
Lemma commit_block_calm h : calm (commit_block h).
Proof. unfold commit_block, update_keeper. calmly. Qed.
Lemma rollback_block_calm h : calm (rollback_block h).
Proof. unfold rollback_block, return_to_mempool, update_keeper. calmly. Qed.
Lemma find_predecessor_calm {S E} i l : calm (S := S) (E := E) (find_predecessor i l).
Proof. induction l as [|b l IH]; cbn [find_predecessor]; calmly. Qed.
#[local] Hint Resolve find_predecessor_calm : calm.
Lemma block_can_be_added_calm {E} b : calm (E := E) (block_can_be_added b).
Proof. unfold block_can_be_added. calmly. Qed.

(** *** Consensus *)

Import RaftConsensus.
Lemma update_calm {E} f : calm (E := E) (update f).
Proof. unfold update. calmly. Qed.
Lemma persist_log_calm : calm persist_log.
Proof.
  intros s. unfold persist_log. pose proof (RaftLogStore.save_no_panic (raft_log_store (raft s)) (log (raft s))
    (commit_index (raft s)) (raft_disk s)) as Hs. by destruct (RaftLogStore.save _ _ _ _).
Qed.
#[local] Hint Resolve update_calm persist_log_calm : calm.
Lemma step_down_calm {E} t : calm (E := E) (step_down t).
Proof. unfold step_down. calmly. Qed.
Lemma become_leader_calm {E} : calm (E := E) become_leader_if_majority.
Proof. unfold become_leader_if_majority. calmly. Qed.
#[local] Hint Resolve step_down_calm become_leader_calm : calm.
Lemma contiguous_calm {S E} i o l : calm (S := S) (E := E) (entries_are_contiguous_from i o l).
Proof. revert o. induction l as [|e l IH]; intros o; cbn [entries_are_contiguous_from]; calmly. Qed.
Lemma append_loop_calm {E} l d : calm (E := E) (append_loop l d).
Proof. revert d. induction l as [|e l IH]; intros d; cbn [append_loop]; calmly. Qed.
Lemma advance_calm {E} : calm (E := E) advance_commit_index.
Proof. unfold advance_commit_index. calmly. Qed.
#[local] Hint Resolve contiguous_calm append_loop_calm advance_calm : calm.
Lemma append_local_entry_calm e : calm (append_local_entry e).
Proof. unfold append_local_entry. calmly. Qed.
#[local] Hint Resolve append_local_entry_calm : calm.
Lemma raft_on_tick_calm now peers : calm (on_tick now peers).
Proof. unfold on_tick, update_participants, start_election_at, append_leader_noop. calmly. Qed.
Lemma raft_on_client_transaction_calm tx : calm (on_client_transaction tx).
Proof. unfold on_client_transaction, forward_client_transaction. calmly. Qed.
Lemma raft_on_block_created_calm h : calm (on_block_created h).
Proof. unfold on_block_created, append_local_block. calmly. Qed.
Lemma raft_on_request_vote_calm t c i lt f : calm (on_request_vote t c i lt f).
Proof. unfold on_request_vote, request_vote. calmly. Qed.
Lemma raft_on_request_vote_response_calm t v g : calm (on_request_vote_response t v g).
Proof.
  unfold on_request_vote_response, receive_vote, append_leader_noop, step_down_on_newer_term. calmly.
Qed.
Lemma raft_on_append_entries_calm d t l i pt es c f now : calm (on_append_entries d t l i pt es c f now).
Proof.
  unfold on_append_entries, handle_append_entries, receive_append_entries_at, reset_election_timeout, append_entries,
    entries_are_contiguous_after. calmly.
Qed.
Lemma raft_on_append_entries_response_calm t f ok i : calm (on_append_entries_response t f ok i).
Proof. unfold on_append_entries_response, handle_leader_append_entries_response, step_down_on_newer_term. calmly. Qed.
Lemma raft_take_pending_block_calm {E} h : calm (E := E) (take_pending_block h).
Proof. unfold take_pending_block. calmly. Qed.

(** Voting unwraps a round it has just opened. *)
Lemma handle_voting_vote_calm {E} id peers h f a : calm (E := E) (Voting.handle_voting_vote id peers h f a).
Proof. intros vs. by destruct (VotingTheorems.handle_total (E := E) id peers h f a vs) as (e & vs' & ->). Qed.

Lemma with_raft_calm {E A} r (m : M RaftS E A) : calm m → calm (ConsensusEngine.with_raft r m).
Proof. intros Hm s. unfold ConsensusEngine.with_raft. specialize (Hm (mkRaftS r (engine_disk s))). by destruct (m _). Qed.
Lemma with_votings_calm {E A} id vs (m : M Votings E A) : calm m → calm (ConsensusEngine.with_votings id vs m).
Proof. intros Hm s. unfold ConsensusEngine.with_votings. specialize (Hm vs). by destruct (m _). Qed.
#[local] Hint Resolve raft_on_tick_calm raft_on_client_transaction_calm raft_on_block_created_calm
  raft_on_request_vote_calm raft_on_request_vote_response_calm raft_on_append_entries_calm
  raft_on_append_entries_response_calm raft_take_pending_block_calm handle_voting_vote_calm
  with_raft_calm with_votings_calm : calm.

Import ConsensusEngine.
Lemma on_client_transaction_calm tx : calm (ConsensusEngine.on_client_transaction tx).
Proof. unfold ConsensusEngine.on_client_transaction. calmly. Qed.
Lemma on_block_created_calm h : calm (ConsensusEngine.on_block_created h).
Proof. unfold ConsensusEngine.on_block_created. calmly. Qed.
Lemma on_local_block_proposed_calm h peers : calm (on_local_block_proposed h peers).
Proof. unfold on_local_block_proposed, Voting.on_local_block_proposed. calmly. Qed.
Lemma on_block_vote_calm h f a peers : calm (on_block_vote h f a peers).
Proof. unfold on_block_vote, Voting.on_block_vote. calmly. Qed.
Lemma on_proposal_calm h f v peers : calm (on_block_proposal_validated h f v peers).
Proof.
  unfold on_block_proposal_validated. apply calm_bind; [apply calm_gets|]. intros [id vs|r]; [|apply calm_ret].
  apply with_votings_calm. unfold Voting.on_block_proposal_validated. calmly.
Qed.
Lemma on_tick_calm now peers : calm (ConsensusEngine.on_tick now peers).
Proof. unfold ConsensusEngine.on_tick, raft_only. calmly. Qed.
Lemma on_message_calm draw f b now : calm (on_message draw f b now).
Proof.
  unfold on_message. destruct b; try apply calm_throw;
    unfold ConsensusEngine.on_request_vote, ConsensusEngine.on_request_vote_response,
      ConsensusEngine.on_append_entries, ConsensusEngine.on_append_entries_response, raft_only; calmly.
Qed.
Lemma take_pending_calm {E} h : calm (E := E) (take_pending_raft_block h).
Proof. unfold take_pending_raft_block. calmly. Qed.
#[local] Hint Resolve add_transaction_calm add_external_block_calm commit_block_calm rollback_block_calm
  block_can_be_added_calm process_transaction_calm rollback_transactions_calm on_client_transaction_calm
  on_block_created_calm on_local_block_proposed_calm on_block_vote_calm on_proposal_calm on_tick_calm
  on_message_calm take_pending_calm : calm.

(** *** The peer, over a REST network *)

Context `{!Serde Transaction, !Serde SignedTransaction}.
#[local] Existing Instance RestNetwork.interface.

Lemma send_calm {E} m : calm (S := RestNetwork) (E := E) (send_peer_message m).
Proof. cbn. unfold RestNetwork.send, RestNetwork.spawn. calmly. Qed.
Lemma broadcast_calm {E} b f : calm (S := RestNetwork) (E := E) (broadcast_peer_message b f).
Proof. cbn. unfold RestNetwork.broadcast, RestNetwork.spawn. calmly. Qed.

Import PeerEffects.
Lemma on_keeper_calm {E A} (m : M Storage E A) : calm m → calm (S := PeerEffects RestNetwork) (on_keeper m).
Proof. apply calm_zoom. Qed.
Lemma on_ledger_calm {E A} (m : M TransactionProcessor E A) : calm m → calm (S := PeerEffects RestNetwork) (on_ledger m).
Proof. apply calm_zoom. Qed.
Lemma on_network_calm {E A} (m : M RestNetwork E A) : calm m → calm (on_network m).
Proof. apply calm_zoom. Qed.
Lemma on_effects_calm {E A} (m : M (PeerEffects RestNetwork) E A) : calm m → calm (on_effects m).
Proof. apply calm_zoom. Qed.
Lemma on_consensus_calm {E A} (m : M EngineS E A) : calm m → calm (S := Peer RestNetwork) (on_consensus m).
Proof. apply calm_zoom. Qed.
#[local] Hint Resolve send_calm broadcast_calm on_keeper_calm on_ledger_calm on_network_calm on_effects_calm
  on_consensus_calm calm_try calm_map_err calm_modify : calm.

Lemma apply_block_transactions_calm {E} b : calm (S := PeerEffects RestNetwork) (E := E) (apply_block_transactions b).
Proof. unfold apply_block_transactions. calmly. Qed.
#[local] Hint Resolve apply_block_transactions_calm : calm.
Lemma stage_external_block_calm b : calm (S := PeerEffects RestNetwork) (stage_external_block b).
Proof. unfold stage_external_block. calmly. Qed.
Lemma effects_apply_synchronized_calm b : calm (S := PeerEffects RestNetwork) (PeerEffects.apply_synchronized_block b).
Proof. unfold PeerEffects.apply_synchronized_block. calmly. Qed.
Lemma stage_client_transaction_calm tx : calm (S := PeerEffects RestNetwork) (stage_client_transaction tx).
Proof. unfold stage_client_transaction. calmly. Qed.
Lemma stage_raft_entries_calm l : calm (S := Peer RestNetwork) (stage_raft_entries l).
Proof. induction l as [|e l IH]; cbn [stage_raft_entries]; calmly. Qed.
Lemma broadcast_block_proposal_calm h : calm (S := PeerEffects RestNetwork) (broadcast_block_proposal h).
Proof. unfold broadcast_block_proposal. calmly. Qed.
Lemma send_raft_append_entries_calm to t i pt es c :
  calm (S := PeerEffects RestNetwork) (send_raft_append_entries to t i pt es c).
Proof. unfold send_raft_append_entries. calmly. Qed.
#[local] Hint Resolve stage_external_block_calm effects_apply_synchronized_calm stage_client_transaction_calm
  stage_raft_entries_calm broadcast_block_proposal_calm send_raft_append_entries_calm : calm.

Lemma broadcast_client_transaction_calm tx : calm (S := PeerEffects RestNetwork) (broadcast_client_transaction tx).
Proof. unfold broadcast_client_transaction. calmly. Qed.
#[local] Hint Resolve broadcast_client_transaction_calm : calm.
Lemma execute_effect_calm e : calm (S := Peer RestNetwork) (execute_effect e).
Proof. unfold execute_effect. destruct e; calmly. Qed.
#[local] Hint Resolve execute_effect_calm : calm.
Lemma run_generation_calm {E} q n es : calm (S := Peer RestNetwork) (E := E) (run_generation q n es).
Proof. revert n es. induction q as [|e q IH]; intros n es; cbn [run_generation]; calmly. Qed.
#[local] Hint Resolve run_generation_calm : calm.
Lemma generations_calm {E} k q es : calm (S := Peer RestNetwork) (E := E) (generations k q es).
Proof. revert q es. induction k as [|k IH]; intros q es; cbn [generations]; calmly. Qed.
#[local] Hint Resolve generations_calm : calm.

Import Peer.
Lemma execute_consensus_effects_calm q : calm (S := Peer RestNetwork) (execute_consensus_effects q).
Proof. unfold execute_consensus_effects, execute_all. calmly. Qed.
#[local] Hint Resolve execute_consensus_effects_calm : calm.

Lemma apply_synchronized_calm b : calm (S := Peer RestNetwork) (Peer.apply_synchronized_block b).
Proof. unfold Peer.apply_synchronized_block. calmly. Qed.
Lemma handle_message_calm {E} draw now m : calm (S := Peer RestNetwork) (E := E) (handle_message draw now m).
Proof.
  unfold handle_message, process_message, process_client_transaction, synchronize_transaction,
    process_block_proposal, process_block_vote, dispatch_to_consensus. calmly.
Qed.
Lemma handle_tick_calm now : calm (S := Peer RestNetwork) (handle_tick now).
Proof. unfold handle_tick. calmly. Qed.
End components.

(** ** The main task *)
Section main_task.
Import NetworkFacts.
Context {BP : BuildProfile} {P : Platform} {PL : PlatformLaws} {HO : HashOrder} {HL : HashOrderLaws}.
Context (NC : overflow_checks = false).

(** What a synchronization panics on. *)
Definition lost (env : nat → RestMoment) : Prop :=
  (∃ k, known_peers (env (2 * k + 1)%nat) = []) ∨ SyncFacts.unreadable env.

Lemma sync_panics {S E} (env : nat → RestMoment) draws (apply_block : BlockFile → M S string unit) h s :
  (∀ b, calm (apply_block b)) →
  Synchronization.check_and_retrieve_missing_blocks (E := E) env draws apply_block h s = Panic → lost env.
Proof.
  intros Hb. assert (Hl : ∀ fuel k states idx errors s,
    Synchronization.sync_loop (E := E) env draws apply_block fuel k states idx errors s = Panic → lost env).
  { induction fuel as [|fuel IH]; intros k states idx errors s0; cbn [Synchronization.sync_loop]; [done|].
    repeat (case_decide; [done|]). unfold bind at 1.
    destruct (SyncFacts.get_block_file_cases env draws (E := E) k idx states s0)
      as [[[Hk|Hu] ->]|[[_ ->]|(p & b & answers & _ & _ & _ & _ & _ & _ & ->)]].
    - intros _. left. eauto.
    - by right.
    - apply IH.
    - unfold bind at 1 2, try_ at 1. specialize (Hb b s0). destruct (apply_block b s0); [..|done].
      + unfold ret at 1. cbn [is_ok]. unfold bind at 1. pose proof (calm_add_u32 NC (E := E) idx 1 s1) as Ha.
        destruct (add_u32 idx 1 s1); [apply IH|done..].
      + apply IH. }
  unfold Synchronization.check_and_retrieve_missing_blocks.
  destruct (Synchronization.get_latest_indexes (env O)) as [states|] eqn:Hs.
  2:{ intros _. right. left. unfold Synchronization.get_latest_indexes in Hs. apply fmap_None in Hs. eauto. }
  rewrite bind_unwrap_Some. cbv zeta. case_decide; [done|].
  unfold bind at 1. pose proof (calm_add_u32 NC (E := E) h 1 s) as Ha. destruct (add_u32 h 1 s); [apply Hl|done..].
Qed.

Context `{!Serde PersistedRaftLogState, !Serde (list SignedTransaction), !Serde BlockFile}.
Context `{!Serde Transaction, !Serde SignedTransaction}.
#[local] Existing Instance RestNetwork.interface.

(** A turn of the loop panics only in a synchronization. *)
Lemma turn_panics c ev p :
  handle_event c ev p = Panic →
  ∃ env draws, ev = EvSyncTick env draws ∧ consensus_mode c = ModeVoting ∧ lost env.
Proof.
  destruct ev as [draw now|env draws|now]; unfold handle_event.
  - unfold recv. rewrite bind_assoc. unfold bind at 1, get. destruct (queue _) as [|m q].
    { by destruct (closed _). }
    rewrite bind_assoc, bind_modify, bind_ret_l. unfold ok_or. rewrite bind_ret_l. intros Hp.
    by apply (PanicFree.handle_message_calm NC) in Hp.
  - destruct (consensus_mode c); [|done]. unfold bind at 1, get. cbv zeta. intros Hp.
    exists env, draws. split_and!; [done|done|].
    unfold bind in Hp. destruct (Synchronization.check_and_retrieve_missing_blocks _ _ _ _ _) eqn:Hs; [done..|].
    by apply sync_panics in Hs; [|intros b; apply apply_synchronized_calm].
  - unfold bind at 1, get. destruct (ConsensusEngine.requires_tick _); [|done].
    intros Hp. exfalso. revert Hp. apply calm_bind; [apply calm_try, (handle_tick_calm NC)|]. intros a. apply calm_ret.
Qed.
End main_task.
End PanicFree.
