(* ===== verification/HttpTheorems.v ===== *)
(** * The HTTP layer: theorems

    A request reaches the handler it is meant for with its arguments; what a
    peer asks over HTTP is what the other peer's server answers; a turn of the
    discovery loop makes the node known and leaves it knowing the others. *)

From S2P Require Import Prelude Platform Crypto Transactions Storage BlockNames Messages RaftLogStore Raft Voting Consensus Network Effects PeerNode Synchronization NetworkTheorems Server Discovery DiscoveryTheorems Runtime Http.

Module HttpFacts.

(** ** Numbers in paths *)

Lemma parse_digits_le s acc n : parse_digits s acc = Some n → acc ≤ n.
Proof.
  revert acc. induction s as [|c s IH]; intros acc; cbn; [intros [= ->]; lia|].
  destruct (is_ascii_digit c); [|done]. intros H%IH. lia.
Qed.

Lemma parse_int_digits_of m s acc n :
  parse_digits s acc = Some n → n < m → parse_int_digits m s acc = Ok n.
Proof.
  revert acc. induction s as [|c s IH]; intros acc Hs Hn; cbn in *; [by injection Hs as ->|].
  destruct (is_ascii_digit c); [|done]. rewrite decide_True; [by apply IH|].
  apply parse_digits_le in Hs. lia.
Qed.

Lemma pretty_digits (n : N) : all_digits (pretty n) = true.
Proof. eapply parse_digits_all, parse_digits_pretty. Qed.

Lemma pretty_nonempty (n : N) : pretty n ≠ "".
Proof.
  intros H. pose proof (parse_digits_pretty n) as Hp. rewrite H in Hp. injection Hp as <-. done.
Qed.

(** A character that is no digit does not occur among digits. *)
Lemma digits_have_no c s : all_digits s = true → is_ascii_digit c = false → has_char c s = false.
Proof.
  intros Hs Hc. induction s as [|d s IH]; [done|]. unfold all_digits in *. cbn in *.
  apply andb_true_iff in Hs as [Hd Hs]. rewrite IH by done.
  rewrite bool_decide_eq_false_2; [done|]. intros ->. congruence.
Qed.

Lemma parse_int_pretty m (n : N) : n < m → parse_int m (pretty n) = Ok n.
Proof.
  intros Hn. pose proof (parse_digits_pretty n) as Hp. pose proof (pretty_digits n) as Hd.
  pose proof (pretty_nonempty n) as Hne. unfold parse_int. destruct (pretty n) as [|c s] eqn:E; [done|].
  assert ((Ascii.N_of_ascii c =? 43)%N = false) as ->.
  { unfold all_digits in Hd. cbn in Hd. apply andb_true_iff in Hd as [Hc _].
    unfold is_ascii_digit in Hc. cbv zeta in Hc. apply andb_true_iff in Hc as [Hc _].
    apply N.leb_le in Hc. apply N.eqb_neq. lia. }
  by apply parse_int_digits_of.
Qed.

(** ** Routes *)
Section routes.
Context `{PM : PathMatch} {PL : PathMatchLaws}.

Lemma route_literal {H} (table : Routes H) m p h :
  p ∈ table.*1 → has_char brace p = false → find_route table p = Some (m, h) →
  route table m p = Handler h [].
Proof. intros Hin Hb Hf. unfold route. rewrite match_literal by done. rewrite Hf. by rewrite decide_True. Qed.

(** The paths of the requests about one block. *)
Lemma route_index (dir : string) h (i : N) :
  has_char brace dir = false → dir ≠ "" →
  (dir +:+ "/{block_index}") ∈ peer_routes.*1 →
  (∀ name, (dir +:+ "/{" +:+ name) ∈ peer_routes.*1 → name = "block_index}") →
  (dir +:+ "/" +:+ pretty i) ∉ peer_routes.*1 →
  find_route peer_routes (dir +:+ "/{block_index}") = Some (GET, h) →
  route peer_routes GET (dir +:+ "/" +:+ pretty i) = Handler h [pretty i].
Proof.
  intros Hb Hne Hin Huniq Hni Hf. unfold route.
  rewrite (match_parameter peer_routes.*1 dir "block_index}" (pretty i)); try done.
  - change (dir +:+ "/{" +:+ "block_index}") with (dir +:+ "/{block_index}"). by rewrite Hf, decide_True.
  - apply pretty_nonempty.
  - apply digits_have_no; [apply pretty_digits|done].
  - apply digits_have_no; [apply pretty_digits|done].
Qed.

Lemma digits_ne s t c : all_digits s = true → is_ascii_digit c = false → has_char c t = true → s ≠ t.
Proof. intros Hs Hc Ht ->. by rewrite (digits_have_no c) in Ht. Qed.

Ltac in_routes := cbn; repeat (apply elem_of_cons; first [by left|right]).

Lemma route_block (i : N) : route peer_routes GET ("/block" +:+ "/" +:+ pretty i) = Handler EpBlock [pretty i].
Proof.
  apply route_index; [done|done|in_routes| | |done].
  - intros name Hn. cbn in Hn. repeat (apply elem_of_cons in Hn as [Hn|Hn]; [try discriminate|]);
      [by injection Hn as <-|by apply not_elem_of_nil in Hn].
  - pose proof (pretty_digits i) as Hd. pose proof (pretty_nonempty i) as Hne. cbn. intros Hn.
    repeat (apply elem_of_cons in Hn as [Hn|Hn]; [try discriminate|]); [..|by apply not_elem_of_nil in Hn].
    all: injection Hn as Hn; revert Hn; first [by apply (digits_ne _ _ (Ascii.ascii_of_N 98))|by apply (digits_ne _ _ (Ascii.ascii_of_N 116))].
Qed.

Lemma route_block_state (i : N) :
  route peer_routes GET ("/block/state" +:+ "/" +:+ pretty i) = Handler EpBlockState [pretty i].
Proof.
  apply route_index; [done|done|in_routes| | |done].
  - intros name Hn. cbn in Hn. repeat (apply elem_of_cons in Hn as [Hn|Hn]; [try discriminate|]);
      [by injection Hn as <-|by apply not_elem_of_nil in Hn].
  - pose proof (pretty_digits i) as Hd. cbn. intros Hn.
    repeat (apply elem_of_cons in Hn as [Hn|Hn]; [try discriminate|]); [..|by apply not_elem_of_nil in Hn].
    all: injection Hn as Hn; revert Hn; first [by apply (digits_ne _ _ (Ascii.ascii_of_N 98))|by apply (digits_ne _ _ (Ascii.ascii_of_N 116))].
Qed.
End routes.
End HttpFacts.

Module HttpTheorems.
Import HttpFacts NetworkTheorems DiscoveryTheorems.
#[local] Existing Instance Discovery.fresh_dec.

(** ** Requests reach their handlers *)
Section peer_server.
Context {P : Platform} {HO : HashOrder} {PM : PathMatch} {ML : PathMatchLaws}.
Context `{!Serde Transaction, !Serde SignedTransaction, !Serde BlockFile, !Serde RegisterRequest}.
Context `{!Serde Message, !Serde BlockStorageState, !Serde PeerState}.
Context {Net : Type} `{!NetworkInterface Net}.
Context (rejection : HttpResponse) (draw key_draw : N) (client_id : HeaderValue).
Context (view : Storage) (id : PeerId) (consensus : ConsensusState).

Definition serve {E} (r : HttpRequest) (path : string) : M (Net * Disk) E HttpResponse :=
  serve_peer rejection draw key_draw client_id view id consensus (rq_method r) path (rq_body r).

(** The requests peers send each other. *)
Definition for_peer (m : NetworkMessage) : Prop :=
  match m with
  | GetBlockState i | GetBlock i => i < u32_modulus
  | GetLatestBlockState | PeerMessage _ => True
  | Register _ | GetPeers => False
  end.

Definition peer_answer {E} (m : NetworkMessage) : M (Net * Disk) E HttpResponse :=
  match m with
  | GetLatestBlockState => ret (json_response (Server.get_latest_storage_state view))
  | GetBlockState i => ret (json_result (Server.get_block_state view i))
  | GetBlock i => ret (json_result (Server.get_block view i))
  | PeerMessage m => zoom fst (λ n s, (n, s.2)) (Server.hande_peer_message m) ;;; ret (mkHttpResponse 200 [])
  | Register _ | GetPeers => ret (mkHttpResponse 404 [])
  end.

Ltac in_table := repeat (apply elem_of_cons; first [by left|right]).

(** C36. The router, the extractors and the client agree: the request that a
    message becomes is routed by the peer's server to the handler meant for
    it, which gets back the index or the message that was sent, so the response
    is exactly that handler's.  (A message's encoding is within axum's limit of
    2 MB.) *)
Theorem request_reaches_handler `{!SerdeLaws Message} {E} base m s :
  for_peer m →
  serve (E := E) (build_request base m) (NetworkMessage.path m) s = peer_answer m s.
Proof.
  unfold serve, serve_peer, build_request, peer_answer. destruct m as [|i|i|m|r|]; cbn [for_peer]; try done; intros Hi.
  - rewrite (route_literal peer_routes GET LATEST_BLOCK_STATE_PATH EpLatestState); [done|cbn; in_table|done|done].
  - change (NetworkMessage.path (GetBlockState i)) with ("/block/state" +:+ "/" +:+ pretty i).
    change (rq_method _) with GET. rewrite route_block_state. unfold path_u32. by rewrite parse_int_pretty.
  - change (NetworkMessage.path (GetBlock i)) with ("/block" +:+ "/" +:+ pretty i).
    change (rq_method _) with GET. rewrite route_block. unfold path_u32. by rewrite parse_int_pretty.
  - rewrite (route_literal peer_routes POST HANDLE_PEER_MESSAGE_PATH EpPeerMessage); [|cbn; in_table|done|done].
    cbn [rq_body NetworkMessage.method NetworkMessage.body]. rewrite decide_True by done.
    unfold json_body. by rewrite from_slice_to_vec.
Qed.
End peer_server.

(** ** What peers answer each other *)
Section fetch.
Context {P : Platform} {HO : HashOrder} {PM : PathMatch} {ML : PathMatchLaws}.
Context `{!Serde Transaction, !Serde SignedTransaction, !Serde BlockFile, !Serde RegisterRequest}.
Context `{!Serde Message, !Serde BlockStorageState, !Serde PeerState}.
Context (show_addr : SocketAddr → string) (transport : HttpRequest → result Received string).
#[local] Existing Instance RestNetwork.interface.

(** The server of peer [id], as the far end of a request sees it. *)
Definition http_server (rejection : HttpResponse) (view : Storage) (id : PeerId) (consensus : ConsensusState)
    (s : RestNetwork * Disk) (r : HttpRequest) (path : string) : result HttpResponse string :=
  match serve (E := string) rejection 0 0 Missing view id consensus r path s with
  | Ret response _ => Ok response
  | Err e _ => Error e
  | Panic => Error "connection closed before message completed"
  end.

(** A response that comes whole. *)
Definition whole_answer (answer : result HttpResponse string) : result Received string :=
  match answer with Ok response => Ok (Whole response) | Error e => Error e end.

(** The transport reaches, at the address, a server that reads [view], and its
    responses come whole. *)
Definition reaches (addr : SocketAddr) (view : Storage) : Prop :=
  ∃ rejection id consensus s, ∀ m,
    let r := build_request (http_url show_addr addr) m in
    transport r = whole_answer (http_server rejection view id consensus s r (NetworkMessage.path m)).

Lemma rest_answer_reached `{!SerdeLaws Message} `{!Serde T} addr view m response :
  reaches addr view → for_peer m →
  (∀ s, peer_answer (Net := RestNetwork) (E := string) view m s = Ret response s) →
  rest_answer (T := T) show_addr transport addr m = Some (from_slice (rs_body response)).
Proof.
  intros (rejection & id & consensus & s & Hr) Hm Ha. unfold rest_answer. rewrite Hr. unfold http_server.
  rewrite request_reaches_handler by done. by rewrite Ha.
Qed.

(** What a peer of the address book answers, by what its server reads. *)
Section asking.
Context `{!SerdeLaws Message, !SerdeLaws BlockFile, !SerdeLaws BlockStorageState}.
Context (n : RestNetwork) (id : PeerId) (addr : SocketAddr) (view : Storage).
Context (Hid : rn_known_peers n !! id = Some addr) (Hr : reaches addr view).

Lemma ask_latest : answer_state (http_moment show_addr transport n) GetLatestBlockState id = Some (Ok (storage_state view)).
Proof.
  cbn. rewrite Hid. erewrite (rest_answer_reached addr view GetLatestBlockState); [|done|done|by intros s].
  cbn. by rewrite from_slice_to_vec.
Qed.

Lemma ask_block_state i b : i < u32_modulus → BlockStorageView.get_block view i = Ok b →
  answer_state (http_moment show_addr transport n) (GetBlockState i) id = Some (Ok (state_of_block b)).
Proof.
  intros Hi Hb. cbn. rewrite Hid. erewrite (rest_answer_reached addr view (GetBlockState i)); [|done|done|].
  2:{ intros s. cbn. unfold Server.get_block_state. by rewrite Hb. }
  cbn. by rewrite from_slice_to_vec.
Qed.

Lemma ask_block i b : i < u32_modulus → BlockStorageView.get_block view i = Ok b →
  answer_block (http_moment show_addr transport n) (GetBlock i) id = Some (Ok b).
Proof.
  intros Hi Hb. cbn. rewrite Hid. erewrite (rest_answer_reached addr view (GetBlock i)); [|done|done|].
  2:{ intros s. cbn. unfold Server.get_block. by rewrite Hb. }
  cbn. by rewrite from_slice_to_vec.
Qed.
End asking.
End fetch.

(** ** A turn of the discovery loop *)
Section discovery.
Context {P : Platform} {HO : HashOrder} {HL : HashOrderLaws} {PM : PathMatch} {ML : PathMatchLaws}.
Context `{!Serde Message, !Serde RegisterRequest, !Serde PeersResponse}.
Context `{!SerdeLaws RegisterRequest, !SerdeLaws PeersResponse}.
Context {W : Type} (transport : HttpRequest → M W string Received).
(* the discovery server in the world, the clock, and how far a request
   advances it *)
Context (server : W → AppState) (clock : W → N) (later : N → N).

(** The transport reaches the discovery server: a request is served at the
    clock's time, and the world after it has the server's new state. *)
Definition reaches_discovery (c : HttpDiscoveryClient) (rejection : HttpResponse) : Prop :=
  ∀ m w, let r := build_request (discovery_base_url c) m in
  ∀ response s', serve_discovery (E := string) rejection (clock w) (rq_method r) (NetworkMessage.path m) (rq_body r) (server w) =
    Ret response s' → ∃ w', transport r w = Ret (Whole response) w' ∧ server w' = s' ∧ clock w' = later (clock w).

(** The address a client takes from an answer is the registered one. *)
Lemma last_addr_Some id peers a : last_addr id peers = Some a → mkPeerWithAddr id a ∈ peers.
Proof.
  induction peers as [|[id' a'] peers IH]; cbn; [done|]. destruct (last_addr id peers).
  - intros [= <-]. right. by apply IH.
  - case_decide; [|done]. intros [= <-]. subst. left.
Qed.

Lemma last_addr_None id peers a : last_addr id peers = None → mkPeerWithAddr id a ∉ peers.
Proof.
  induction peers as [|[id' a'] peers IH]; cbn; [intros _ H; by apply not_elem_of_nil in H|].
  destruct (last_addr id peers); [done|]. case_decide; [done|]. intros _ [[= <- <-]|Hin]%elem_of_cons; [done|].
  by apply IH in Hin.
Qed.

Lemma last_addr_response f id : last_addr id (Discovery.peers_response f) = fst <$> f !! id.
Proof.
  destruct (last_addr id _) as [a|] eqn:Hl.
  - apply last_addr_Some, peers_response_iff in Hl as [t ->]. done.
  - destruct (f !! id) as [[a t]|] eqn:Hf; [|done]. exfalso.
    eapply (last_addr_None _ _ a); [exact Hl|]. apply peers_response_iff. eauto.
Qed.

Lemma serve_register {E} rejection now req s base :
  let r := build_request base (Register req) in
  serve_discovery (E := E) rejection now (rq_method r) (NetworkMessage.path (Register req)) (rq_body r) s =
    Ret (text_response 200 "Ok") (s <| known_peers ::= <[rr_peer_id req := (rr_addr req, now)]> |>).
Proof.
  unfold serve_discovery, build_request. cbn [rq_method rq_body NetworkMessage.method NetworkMessage.body].
  rewrite (route_literal discovery_routes POST REGISTER_PATH EpRegister);
    [|cbn; repeat (apply elem_of_cons; first [by left|right])|done|done].
  rewrite decide_True by done. unfold json_body. by rewrite from_slice_to_vec.
Qed.

Lemma serve_peers {E} rejection now s base :
  let r := build_request base GetPeers in
  ∃ peers s', serve_discovery (E := E) rejection now (rq_method r) (NetworkMessage.path GetPeers) (rq_body r) s =
    Ret (mkHttpResponse 200 (to_vec (mkPeersResponse peers))) s' ∧
    known_peers s' = Discovery.filtered now s ∧
    ∀ id, last_addr id peers = fst <$> Discovery.filtered now s !! id.
Proof.
  exists (Discovery.peers_response (Discovery.filtered now s)), (s <| known_peers := Discovery.filtered now s |>).
  split_and!; [|done|intros id; apply last_addr_response].
  unfold serve_discovery, build_request. cbn [rq_method rq_body NetworkMessage.method NetworkMessage.body].
  rewrite (route_literal discovery_routes GET GET_PEERS_PATH EpGetPeers);
    [|cbn; repeat (apply elem_of_cons; first [by left|right])|done|done].
  unfold bind at 1. rewrite get_peers_run. done.
Qed.

Lemma discover_run c rejection id addr w :
  reaches_discovery c rejection →
  let now := later (clock w) in
  let registered := <[id := (addr, clock w)]> (known_peers (server w)) in
  ∃ peers w', discover transport c id addr w = Ret peers w' ∧
    known_peers (server w') = filter (Discovery.fresh now) registered ∧
    ∀ i, last_addr i peers = fst <$> filter (Discovery.fresh now) registered !! i.
Proof.
  intros Hr now registered. unfold discover, HttpDiscoveryClient.register, HttpDiscoveryClient.peers,
    HttpDiscoveryClient.send_message.
  destruct (Hr (Register (mkRegisterRequest id addr)) w _ _ (serve_register _ _ _ _ _)) as (w1 & H1 & Hs1 & Hc1).
  destruct (serve_peers (E := string) rejection (clock w1) (server w1) (discovery_base_url c)) as (peers & s' & H2 & Hk & Hl).
  destruct (Hr GetPeers w1 _ _ H2) as (w2 & H2' & Hs2 & _).
  assert (Hf : Discovery.filtered (clock w1) (server w1) = filter (Discovery.fresh now) registered).
  { unfold Discovery.filtered. by rewrite Hs1, Hc1. }
  rewrite Hf in Hk, Hl. exists peers, w2. split_and!; [|by rewrite Hs2|done].
  unfold bind. rewrite H1. unfold ret at 1. rewrite H2'. cbn.
  by rewrite from_slice_to_vec.
Qed.

(** C38. One turn of the discovery loop against the discovery server: the node is
    registered under its address, the count of failures is reset, and it then
    knows exactly the other nodes whose registration is less than 20 seconds
    old, each at the address it registered last; the server keeps just those
    registrations and this one. *)
Theorem check_discovers c rejection addr failed notify n w :
  reaches_discovery c rejection → (failed < NETWORK_CHECK_TRIES)%nat →
  let now := later (clock w) in
  let registered := <[rn_peer_id n := (addr, clock w)]> (known_peers (server w)) in
  ∃ n' w', check transport c addr failed notify (n, w) = Ret (O, false) (n', w') ∧
    (∀ id a, rn_known_peers n' !! id = Some a ↔
       id ≠ rn_peer_id n ∧ ∃ t, known_peers (server w) !! id = Some (a, t) ∧ now - t < KEEP_ALIVE) ∧
    known_peers (server w') = filter (Discovery.fresh now) registered.
Proof.
  intros Hr Hfailed now registered.
  destruct (discover_run c rejection (rn_peer_id n) addr w Hr) as (peers & w' & Hd & Hs & Hl).
  destruct (update_peers_spec (Ok peers) n) as (n' & Hu & Hk & _). exists n', w'. split_and!; [| |done].
  - unfold check, bind at 1, get. rewrite decide_False by lia. cbn [fst snd].
    unfold bind at 1, try_ at 1, zoom at 1. cbn [snd]. rewrite Hd. unfold zoom. cbn [fst snd].
    unfold RestNetwork.run_turn. rewrite decide_False by lia. unfold bind, try_. by rewrite Hu.
  - intros id a. rewrite Hk, Hl. case_decide as Hid; [split; [done|]; by intros [? _]|].
    fold now registered. split.
    + intros [[a' t] [Ht ->]]%fmap_Some. apply map_lookup_filter_Some in Ht as [Ht Hf].
      unfold registered in Ht. rewrite lookup_insert_ne in Ht by done. eauto.
    + intros (_ & t & Ht & Hf). apply fmap_Some. exists (a, t). split; [|done].
      apply map_lookup_filter_Some. split; [|done]. unfold registered. by rewrite lookup_insert_ne.
Qed.
End discovery.

(** A peer that starts to wait before the first successful check is woken by
    it; one that starts later is never woken, however many checks succeed. *)
Theorem late_waiter_never_woken k :
  Readiness.awake (Nat.iter (S k) Readiness.turn_succeeded (Readiness.wait_for_readiness Readiness.initial)) = true ∧
  Readiness.awake (Nat.iter k Readiness.turn_succeeded
    (Readiness.wait_for_readiness (Readiness.turn_succeeded Readiness.initial))) = false.
Proof.
  split; induction k as [|k IH]; try done.
  - rewrite Nat.iter_succ. unfold Readiness.turn_succeeded at 1. destruct (Readiness.notify_waiters _); [|done].
    cbn [Readiness.awake]. by rewrite IH.
  - rewrite Nat.iter_succ. unfold Readiness.turn_succeeded at 1.
    assert (Hn : ∀ k, Readiness.notify_waiters (Nat.iter k Readiness.turn_succeeded
      (Readiness.wait_for_readiness (Readiness.turn_succeeded Readiness.initial))) = false).
    { clear. induction k as [|k IH]; [done|]. rewrite Nat.iter_succ. unfold Readiness.turn_succeeded at 1. by rewrite IH. }
    by rewrite Hn.
Qed.
End HttpTheorems.
