(* ===== verification/HttpSync.v ===== *)
(** * A synchronization over HTTP

    The synchronization of a voting peer, composed with the HTTP servers of the
    peers it asks: if their chains continue its own, it catches up. *)

From S2P Require Import Prelude Platform Crypto Transactions TransactionsFacts Storage Messages RaftLogStore Raft Voting Consensus Network Effects PeerNode KeeperFacts ChainFacts Synchronization SyncTheorems HonestSync NetworkTheorems Server Http HttpTheorems.

Module HttpSync.
Import Synchronization SyncTheorems Chain Continuation HonestSync HttpTheorems NetworkFacts.
Section sync.
Context {BP : BuildProfile} {P : Platform} {PL : PlatformLaws} {HO : HashOrder} {HL : HashOrderLaws}.
Context {PM : PathMatch} {ML : PathMatchLaws}.
Context `{!Serde PersistedRaftLogState, !Serde (list SignedTransaction), !Serde BlockFile}.
Context `{!Serde Transaction, !Serde SignedTransaction, !Serde RegisterRequest}.
Context `{!Serde Message, !Serde BlockStorageState, !Serde PeerState}.
Context `{!SerdeLaws BlockFile, !SerdeLaws Message, !SerdeLaws BlockStorageState}.
Context (show_addr : SocketAddr → string).
#[local] Existing Instance RestNetwork.interface.
Implicit Types (p : Peer RestNetwork) (n : RestNetwork).

(** Asking peers that are all known. *)
Lemma asked_known n ids :
  (∀ id, id ∈ ids → is_Some (rn_known_peers n !! id)) → RestNetwork.asked n ids = (ids, None).
Proof.
  induction ids as [|id ids IH]; intros Hk; [done|]. cbn.
  destruct (Hk id) as [a ->]; [by left|]. rewrite IH; [done|]. intros id' Hid. apply Hk. by right.
Qed.

Lemma send_to_known {T} n (answer : PeerId → option (result T string)) ids :
  (∀ id, id ∈ ids → is_Some (rn_known_peers n !! id) ∧ is_Some (answer id)) →
  ∃ results, RestNetwork.send_to_all n answer ids = Some results ∧
    ∀ id, results !! id = if decide (id ∈ ids) then answer id else None.
Proof.
  intros Hk. pose proof (send_to_all_answers n answer ids) as H. rewrite asked_known in H by (intros id Hid; by apply Hk).
  destruct (RestNetwork.send_to_all n answer ids) as [results|].
  - exists results. split; [done|]. intros id. rewrite H. cbn. destruct (decide (id ∈ ids)); [done|].
    by rewrite decide_False.
  - destruct H as (id & [_ [r Hr]]%Hk & Hn). congruence.
Qed.

(** What a peer of the address book has to serve: the blocks [bs] above
    [height]. *)
Definition serves_blocks (height : N) (bs : list BlockFile) (view : Storage) : Prop :=
  ∀ j b, bs !! j = Some b → BlockStorageView.get_block view (height + 1 + N.of_nat j) = Ok b.

(** At each moment of the synchronization every known peer is reached and
    serves the missing blocks; at the first they are at the height of the last
    one. *)
Definition honest_network (transport : nat → HttpRequest → result Received string) p (missing : list BlockFile) : Prop :=
  ∀ k id addr, rn_known_peers (network (effects p)) !! id = Some addr →
    ∃ view, reaches show_addr (transport k) addr view ∧ serves_blocks (peer_height p) missing view ∧
      (k = O → block_height (storage_state view) = peer_height p + N.of_nat (length missing)).

(** *** What such a network answers *)
Section network.
Context (transport : nat → HttpRequest → result Received string) (p : Peer RestNetwork) (missing : list BlockFile).
Context (Hnet : honest_network transport p missing).
Let n : RestNetwork := network (effects p).
Let env (k : nat) : RestMoment := http_moment show_addr (transport k) n.

Lemma known_iff id : id ∈ known_peers (env O) ↔ is_Some (rn_known_peers n !! id).
Proof.
  change (known_peers (env O)) with (map_order (rn_known_peers n)).*1. rewrite map_order_perm, list_elem_of_fmap. split.
  - intros ([id' a] & -> & Ha%elem_of_map_to_list). eauto.
  - intros [a Ha]. exists (id, a). split; [done|]. by apply elem_of_map_to_list.
Qed.

Lemma latest_answer id : is_Some (rn_known_peers n !! id) →
  ∃ st, answer_state (env O) GetLatestBlockState id = Some (Ok st) ∧
    block_height st = peer_height p + N.of_nat (length missing).
Proof.
  intros [a Ha]. destruct (Hnet O id a Ha) as (view & Hr & _ & Hh). exists (storage_state view).
  split; [|by apply Hh]. by apply (ask_latest show_addr (transport O) n id a view).
Qed.

(** The heights they report. *)
Lemma latest_reported :
  ∃ reported, get_latest_indexes (env O) = Some reported ∧
    ∀ id, match reported !! id with
          | Some st => is_Some (rn_known_peers n !! id) ∧ block_height st = peer_height p + N.of_nat (length missing)
          | None => rn_known_peers n !! id = None
          end.
Proof.
  destruct (send_to_known n (answer_state (env O) GetLatestBlockState) (known_peers (env O))) as (answers & Hs & Ha).
  { intros id Hid%known_iff. split; [done|]. apply latest_answer in Hid as (st & Hst & _). by rewrite Hst. }
  exists (reported_states answers). split; [unfold get_latest_indexes; cbn [request_states rest_requests]|].
  { change (rest (env O)) with n. by rewrite Hs. }
  intros id. unfold reported_states. rewrite lookup_omap, Ha.
  destruct (decide (id ∈ known_peers (env O))) as [Hi|Hi]; rewrite known_iff in Hi.
  - destruct (latest_answer id Hi) as (st & Hst & Hh). by rewrite Hst.
  - cbn. by apply eq_None_not_Some.
Qed.

Context (reported : gmap PeerId BlockStorageState).
Context (Hreported : ∀ id, is_Some (reported !! id) ↔ is_Some (rn_known_peers n !! id)).

Lemma honest_agree j b :
  rn_known_peers n ≠ ∅ → missing !! j = Some b → peer_height p + 1 + N.of_nat j < u32_modulus →
  agree_on env reported (peer_height p + 1 + N.of_nat j) b.
Proof.
  intros Hne Hj Hu. split.
  - intros k. change (known_peers (env (2 * k + 1)%nat)) with (known_peers (env O)). split.
    + intros He. apply map_choose in Hne as (id & a & Ha).
      assert (Hi : id ∈ known_peers (env O)) by (apply known_iff; eauto). rewrite He in Hi. by apply not_elem_of_nil in Hi.
    + change (known_peers (env O)) with (map_order (rn_known_peers n)).*1.
      rewrite length_fmap, map_order_perm, length_map_to_list.
      rewrite <-(size_dom (D := gset PeerId) (rn_known_peers n)), <-(size_dom (D := gset PeerId) reported).
      apply subseteq_size. intros id. rewrite !elem_of_dom. apply Hreported.
  - intros k ids Hids.
    assert (Hans : ∀ id, id ∈ ids → is_Some (rn_known_peers n !! id) ∧
      answer_state (env (2 * k + 1)%nat) (GetBlockState (peer_height p + 1 + N.of_nat j)) id =
        Some (Ok (state_of_block b))).
    { intros id Hid. destruct (proj1 (Hreported id)) as [a Ha]; [by apply Hids|]. split; [eauto|].
      destruct (Hnet (2 * k + 1)%nat id a Ha) as (view & Hr & Hserves & _).
      by apply (ask_block_state show_addr _ n id a view Ha Hr _ b); eauto. }
    destruct (send_to_known n (answer_state (env (2 * k + 1)%nat) (GetBlockState (peer_height p + 1 + N.of_nat j))) ids)
      as (answers & Hs & Ha).
    { intros id Hid. apply Hans in Hid as [? ->]. eauto. }
    exists answers. split; [exact Hs|]. intros id Hid. rewrite Ha, decide_True by done. by apply Hans.
  - intros k id Hid. destruct (proj1 (Hreported id)) as [a Ha]; [done|].
    destruct (Hnet (2 * k + 2)%nat id a Ha) as (view & Hr & Hserves & _).
    cbn [request_block rest_requests]. unfold RestNetwork.send_and_wait.
    change (rest (env (2 * k + 2)%nat)) with n. rewrite Ha.
    unfold env. by apply (ask_block show_addr _ n id a view Ha Hr); eauto.
Qed.
End network.

(** C37. Liveness of synchronization: take a voting peer whose known peers, at
    least one, stay the same during the call and all serve, over HTTP and with
    responses that come whole, the same blocks continuing its chain.  If its
    disk works, the supply of coins fits the balances and it has itself staged
    none of these blocks, its synchronization ends with [SUCCESS], whatever is
    drawn: it is then at their height, has these blocks in its files, and still
    has its own below.  (A block that is staged, a proposal whose decision was
    missed, is refused whenever it is served:
    [SyncTheorems.staged_block_refused].) *)
Theorem http_sync_succeeds transport draws {E} p missing :
  rn_known_peers (network (effects p)) ≠ ∅ → honest_network transport p missing → ready_for p missing →
  let env k := http_moment show_addr (transport k) (network (effects p)) in
  ∃ p', check_and_retrieve_missing_blocks (E := E) env draws Peer.apply_synchronized_block (peer_height p) p =
      Ret (Some SUCCESS) p' ∧
    peer_height p' = peer_height p + N.of_nat (length missing) ∧
    serves_blocks (peer_height p) missing (peer_storage p') ∧
    ∀ i, i ≤ peer_height p → stored (peer_storage p') i = stored (peer_storage p) i.
Proof.
  intros Hne Hnet Hready env.
  destruct (latest_reported transport p missing Hnet) as (reported & Hlatest & Hrep).
  assert (Hiff : ∀ id, is_Some (reported !! id) ↔ is_Some (rn_known_peers (network (effects p)) !! id)).
  { intros id. specialize (Hrep id). destruct (reported !! id); [|rewrite Hrep]; naive_solver. }
  destruct (sync_succeeds env draws (E := E) p missing reported) as (p' & Hsync & Hrun); [exact Hlatest| | | |exact Hready|].
  - intros ->. apply map_choose in Hne as (id & a & Ha). destruct (proj2 (Hiff id)) as [st Hst]; [eauto|].
    by rewrite lookup_empty in Hst.
  - intros id st Hst. specialize (Hrep id). rewrite Hst in Hrep. apply Hrep.
  - intros j b Hj. apply (honest_agree transport p missing Hnet reported Hiff j b Hne Hj).
    apply lookup_lt_Some in Hj. pose proof (rf_height _ _ Hready). lia.
  - destruct (apply_missing missing p Hready) as (p'' & Hrun' & Hh & Hnew & Hold).
    rewrite Hrun in Hrun'. injection Hrun' as <-. exists p'. by split_and!.
Qed.
End sync.
End HttpSync.
