(* ===== verification/ProcessTheorems.v ===== *)
(** * A running peer: theorems

    Whatever the tasks of a peer do in whatever order: its committed blocks stay
    as they are, its channel is never overfull and its messages are handled in
    order, and [run_peer] does not return; what its main task can panic on. *)

From S2P Require Import Prelude Platform Crypto Transactions Storage Messages RaftLogStore Raft Voting Consensus Network Effects PeerNode KeeperFacts ChainFacts BlockNames Synchronization NetworkTheorems Server Runtime Http Process History RuntimeTheorems PanicFree HttpTheorems.

Module ProcessFacts.
Import Process KeeperFacts Chain StoreHistory PeerHistory LoopHistory NetworkFacts RuntimeFacts.

(** ** What a request changes *)
Section requests.
Context {P : Platform} {HO : HashOrder} {PM : PathMatch}.
Context `{!Serde Transaction, !Serde SignedTransaction, !Serde BlockFile}.
Context `{!Serde Message, !Serde BlockStorageState, !Serde PeerState}.
#[local] Existing Instance RestNetwork.interface.
Implicit Types (n : RestNetwork) (d : Disk).

(** Messages arrive at the end of the channel, within its capacity. *)
Definition arrive (ms : list Message) n : RestNetwork :=
  n <| peer_sender ::= λ c, mkChannel (queue c ++ ms) (capacity c) (closed c) |>.
Definition arrivals n n' : Prop := ∃ ms, n' = arrive ms n ∧
  (length (queue (peer_sender n')) ≤ Nat.max (length (queue (peer_sender n))) (capacity (peer_sender n)))%nat.

#[export] Instance arrivals_preorder : PreOrder arrivals.
Proof.
  split.
  - intros [i k [q c b] o]. exists []. unfold arrive, update_field. cbn. rewrite app_nil_r. split; [done|lia].
  - intros n1 n2 n3 (l1 & -> & H1) (l2 & -> & H2). exists (l1 ++ l2).
    unfold arrive, update_field in *. cbn in *. rewrite app_assoc. split; [done|lia].
Qed.

Lemma message_received_arrivals m n : leads arrivals n (RestNetwork.message_received m).
Proof.
  unfold RestNetwork.message_received. intros s'. unfold bind at 1, get, try_send.
  destruct (closed (peer_sender n)) eqn:Hc; [by intros [= <-]|]. case_decide; [by intros [= <-]|].
  unfold of_result. rewrite bind_ret_l. intros [= <-]. exists [m]. unfold arrive, update_field. cbn.
  split; [by rewrite Hc|]. rewrite length_app. cbn. lia.
Qed.

Lemma accept_arrivals {E} draw tx n : leads (E := E) arrivals n (Server.accept draw tx).
Proof.
  unfold Server.accept. lead. cbn. unfold RestNetwork.receive_client. lead. apply message_received_arrivals.
Qed.

#[export] Instance writes_only_preorder f : PreOrder (writes_only f).
Proof.
  split; [by intros d|]. intros d1 d2 d3 [R1 F1] [R2 F2]. split; [congruence|].
  intros q Hq. rewrite F2 by done. by apply F1.
Qed.

(** The server's handlers together: the network and the disk. *)
Definition served (f : option FilePath) (s s' : RestNetwork * Disk) : Prop :=
  arrivals s.1 s'.1 ∧ writes_only f s.2 s'.2.
#[export] Instance served_preorder f : PreOrder (served f).
Proof. split; [by intros s|]. intros s1 s2 s3 [A1 W1] [A2 W2]. split; by etrans. Qed.

Lemma zoom_fst_served {E A} f (m : M RestNetwork E A) s :
  leads arrivals s.1 m → leads (served f) s (zoom fst (λ n s, (n, s.2)) m).
Proof.
  intros Hm s'. unfold zoom, leads in *. destruct (m s.1); cbn in *; [..|done]; intros [= <-];
    (split; [by apply Hm|by cbn]).
Qed.

Lemma get_or_create_key_no_Err {E} draw dir d e d' : KeyManager.get_or_create_key (E := E) draw dir d ≠ Err e d'.
Proof.
  unfold KeyManager.get_or_create_key, bind, try_, get. destruct (create_dir_all dir d) as [[] d1| |]; [|done..].
  destruct (fs_read d1 _).
  - case_decide; [|done]. by destruct (signing_key_from_bytes _).
  - by destruct (fs_write _ _ d1) as [[] d2| |].
Qed.

Lemma serve_peer_served {E} rejection draw key_draw client_id view id consensus method path body s :
  leads (E := E) (served (test_key_file client_id)) s
    (serve_peer rejection draw key_draw client_id view id consensus method path body).
Proof.
  unfold serve_peer, json_body, path_u32.
  destruct (route peer_routes method path) as [[] params| |]; lead; try apply zoom_fst_served.
  - apply accept_arrivals.
  - unfold Server.handle_test_transaction. destruct client_id as [| |text]; [by lead..|].
    apply leads_bind; [apply _| |].
    + intros s'. unfold zoom.
      destruct (KeyManager.get_or_create_key key_draw (path_join TEST_CLIENT_DIR text) s.2) as [k d|e d|] eqn:Hk; cbn;
        [..|done]; intros [= <-].
      * apply get_or_create_key_writes in Hk. by split.
      * by apply get_or_create_key_no_Err in Hk.
    + intros k s1 _. apply zoom_fst_served, accept_arrivals.
  - unfold Server.hande_peer_message. lead. apply message_received_arrivals.
Qed.
End requests.

(** ** What can fail *)
Section errors.
Context {BP : BuildProfile} {P : Platform} {HO : HashOrder}.
Context `{!Serde PersistedRaftLogState, !Serde (list SignedTransaction), !Serde BlockFile}.
Context `{!Serde Transaction, !Serde SignedTransaction}.
#[local] Existing Instance RestNetwork.interface.

(** A call that returns or panics. *)
Definition no_error {S E A} (m : M S E A) : Prop := ∀ s e s', m s ≠ Err e s'.

Lemma no_error_bind {S E A B} (m : M S E A) (k : A → M S E B) :
  no_error m → (∀ a, no_error (k a)) → no_error (bind m k).
Proof. intros Hm Hk s e s' [H|(a & s1 & _ & H)]%bind_Err; [by eapply Hm|by eapply Hk]. Qed.
Lemma no_error_ret {S E A} (a : A) : no_error (S := S) (E := E) (ret a).
Proof. done. Qed.
Lemma no_error_try {S E F A} (m : M S E A) : no_error (E := F) (try_ m).
Proof. intros s e s'. unfold try_. by destruct (m s). Qed.
Lemma no_error_unwrap {S E A} (o : option A) : no_error (S := S) (E := E) (unwrap o).
Proof. by destruct o. Qed.

(** A synchronization does not fail, and what its closure reports is dropped. *)
Lemma sync_no_error {T E} (env : nat → RestMoment) draws (apply_block : BlockFile → M T string unit) h :
  no_error (E := E) (Synchronization.check_and_retrieve_missing_blocks env draws apply_block h).
Proof.
  assert (Hl : ∀ fuel k states idx errors, no_error (E := E)
    (Synchronization.sync_loop env draws apply_block fuel k states idx errors)).
  { induction fuel as [|fuel IH]; intros k states idx errors; cbn [Synchronization.sync_loop]; [apply no_error_ret|].
    repeat (case_decide; [apply no_error_ret|]). apply no_error_bind.
    - unfold Synchronization.get_block_file. cbv zeta. apply no_error_bind; [apply no_error_unwrap|]. intros answers.
      case_decide; [|apply no_error_ret]. unfold random_index. case_decide; [done|].
      do 3 (apply no_error_bind; [apply no_error_ret || apply no_error_unwrap|intros ?]). apply no_error_ret.
    - intros block. apply no_error_bind; [destruct block; [apply no_error_bind; [apply no_error_try|done]|done]|].
      intros [|]; [|apply IH]. apply no_error_bind; [apply no_error_unwrap|intros ?; apply IH]. }
  unfold Synchronization.check_and_retrieve_missing_blocks. apply no_error_bind; [apply no_error_unwrap|].
  intros states. cbv zeta. case_decide; [apply no_error_ret|].
  apply no_error_bind; [apply no_error_unwrap|]. intros idx. apply Hl.
Qed.

Lemma handle_message_no_error {E} draw now m :
  no_error (S := Peer RestNetwork) (E := E) (Peer.handle_message draw now m).
Proof. unfold Peer.handle_message. apply no_error_bind; [apply no_error_try|]. intros r. apply no_error_ret. Qed.

(** The loop ends with an error only when the channel is closed. *)
Lemma handle_event_Err c ev p x p' :
  handle_event c ev p = Err x p' → closed (channel_of p) = false → False.
Proof.
  intros He Hc. destruct ev as [draw now|env draws|now]; revert He; unfold handle_event.
  - unfold recv. rewrite bind_assoc. unfold bind at 1, get.
    change (peer_sender (network (effects p))) with (channel_of p). destruct (queue (channel_of p)) as [|m q].
    + by rewrite Hc.
    + rewrite bind_assoc, bind_modify, bind_ret_l. unfold ok_or. rewrite bind_ret_l. apply handle_message_no_error.
  - destruct (consensus_mode c); [|done]. unfold bind at 1, get.
    apply no_error_bind; [apply sync_no_error|]. intros a. apply no_error_ret.
  - unfold bind at 1, get. destruct (ConsensusEngine.requires_tick _); [|done].
    apply no_error_bind; [apply no_error_try|]. intros a. apply no_error_ret.
Qed.
End errors.

(** ** Turns *)
Section turns.
Context {BP : BuildProfile} {P : Platform} {HO : HashOrder} {PM : PathMatch}.
Context `{!Serde PersistedRaftLogState, !Serde (list SignedTransaction), !Serde BlockFile}.
Context `{!Serde Transaction, !Serde SignedTransaction}.
Context `{!Serde Message, !Serde BlockStorageState, !Serde PeerState}.
Context `{!Serde RegisterRequest, !Serde PeersResponse}.
#[local] Existing Instance RestNetwork.interface.
#[local] Existing Instance rest_laws.
Context (rejection : HttpResponse) (client : HttpDiscoveryClient) (c : PeerConfig).
Implicit Types (s : Process) (a : Action).
Abbreviation act := (act (E := Empty_set) rejection client c).
Abbreviation process_step := (process_step rejection client c).

(** *** The store *)

Definition kept s s' : Prop :=
  safe_log (main_peer s) → safe_log (main_peer s') ∧ history (store_of (main_peer s)) (store_of (main_peer s')).
#[export] Instance kept_preorder : PreOrder kept.
Proof.
  split; [by intros s|]. intros s1 s2 s3 H12 H23 H1. destruct (H12 H1) as [H2 Hh].
  destruct (H23 H2) as [H3 Hh']. split; [done|]. by etrans.
Qed.

Lemma set_network_kept n s : kept s (set_network n s).
Proof. by intros Hs. Qed.

(** A key file is no block file. *)
Lemma set_disk_kept client_id d s : writes_only (test_key_file client_id) (disk_of s) d → kept s (set_disk d s).
Proof.
  intros Hw Hs. split; [exact Hs|]. apply (writes_only_history _ _ _ Hw). intros i.
  destruct client_id; [done..|]. intros [= _ H]. by apply (block_filename_not_key i).
Qed.

Lemma act_kept a s r s' : overflow_checks = true → act a s = Ret r s' → kept s s'.
Proof.
  intros OC Ha. assert (Hf : final_state (act a s) = Some s') by by rewrite Ha. clear Ha. revert s' Hf.
  change (leads kept s (act a)). unfold Process.act. apply leads_get. destruct (run_result s); [by lead|].
  destruct a as [transport| |ev|draw key_draw client_id method path body]; (apply leads_bind; [apply _| |intros; by lead]).
  - unfold discovery_tick. apply leads_get. destruct (network_stopped s); [by lead|].
    apply leads_bind; [apply _|apply leads_try, leads_zoom; intros t; apply set_network_kept|].
    intros [[failed notify]|] s1 _; apply leads_modify; by intros Hs.
  - unfold wait_for_peers. apply leads_get. destruct (Readiness.waiting _); [by lead|]. apply leads_modify. by intros Hs.
  - unfold loop_turn. apply leads_get. destruct (Readiness.awake _); [|by lead].
    apply leads_bind; [apply _|apply leads_try|].
    + intros s'. unfold zoom. pose proof (handle_event_keeps c ev (main_peer s)) as Hk.
      destruct (handle_event c ev (main_peer s)) as [u p'|x p'|]; cbn; [..|done]; intros [= <-];
        destruct (Hk p' OC eq_refl) as [H _]; by destruct (takes_message ev).
    + intros [|] s1 _; [by lead|]. apply leads_modify. by intros Hs.
  - unfold request. apply leads_get. intros s'. unfold zoom.
    pose proof (serve_peer_served (E := Empty_set) rejection draw key_draw client_id (block_keeper (effects (main_peer s)))
      (id (main_peer s)) (consensus_state (main_peer s)) method path body (network_of s, disk_of s)) as Hs.
    unfold leads in Hs. destruct (serve_peer _ _ _ _ _ _ _ _ _ _ _) as [x t|x t|]; cbn in *; [..|done]; intros [= <-];
      (etrans; [apply set_network_kept|]; by eapply set_disk_kept, Hs).
Qed.

Lemma step_kept s s' : overflow_checks = true → process_step s s' → kept s s'.
Proof.
  intros OC [a s1 r s1' Ha|draw key_draw client_id method path body s1 d' _ _ Hw];
    [by eapply act_kept|by eapply set_disk_kept].
Qed.

Lemma steps_kept s s' : overflow_checks = true → rtc process_step s s' → kept s s'.
Proof. intros OC. induction 1 as [|s1 s2 s3 H12 _ IH]; [reflexivity|]. etrans; [by apply step_kept|exact IH]. Qed.

(** The runs with their turns are the runs. *)
Lemma steps_trace s s' : rtc process_step s s' ↔ ∃ l, trace rejection client c l s s'.
Proof.
  split.
  - induction 1 as [s|s1 s2 s3 H12 _ [l Hl]]; [exists []; constructor|].
    destruct H12 as [a s1 r s2 Ha|draw key_draw client_id method path body s1 d1 H1 H2 H3];
      [exists (Some a :: l)|exists (None :: l)]; by econstructor.
  - intros [l Hl]. induction Hl as [s|a l s r s1 s2 Ha _ IH|? ? ? ? ? ? l s d1 s2 H1 H2 H3 _ IH];
      [done|eapply rtc_l; [by econstructor|exact IH]..].
Qed.

Lemma acts_trace l s rs s' : acts (E := Empty_set) rejection client c l s = Ret rs s' →
  trace rejection client c (Some <$> l) s s'.
Proof.
  revert s rs. induction l as [|a l IH]; intros s rs; cbn [acts fmap list_fmap]; [intros [= _ <-]; constructor|].
  intros (r & s1 & Ha & (rs' & s2 & Hl & [= _ <-])%bind_Ret)%bind_Ret. econstructor; [done|by eapply IH].
Qed.

(** A schedule is a run of the system. *)
Lemma acts_steps l s rs s' : acts (E := Empty_set) rejection client c l s = Ret rs s' → rtc process_step s s'.
Proof. intros Hl. apply steps_trace. eexists. by eapply acts_trace. Qed.

(** *** The channel *)

Definition channel (s : Process) : Channel := peer_sender (network_of s).
Definition queued (s : Process) : list Message := queue (channel s).

Definition takes (a : Action) : bool := match a with LoopTurn ev => takes_message ev | _ => false end.

(** The messages that a turn hands to the peer: what [recv] takes. *)
Definition handled (a : Action) (s : Process) : list Message :=
  if takes a && Readiness.awake (peers_ready s) then option_list (received (main_peer s)) else [].

(** What a turn does to the channel, the signal that peers are known, and the
    result of [run_peer]. *)
Record turn_facts a s s' : Prop := {
  tf_queue : ∃ ms, queued s ++ ms = handled a s ++ queued s';
  tf_length : (length (queued s') ≤ Nat.max (length (queued s)) (capacity (channel s)))%nat;
  tf_capacity : capacity (channel s') = capacity (channel s);
  tf_closed : closed (channel s') = closed (channel s);
  tf_awake : Readiness.awake (peers_ready s) = true → Readiness.awake (peers_ready s') = true;
  tf_result : closed (channel s) = false → run_result s' = None;
}.

(** A channel that only gets messages. *)
Definition fills (ch ch' : Channel) : Prop := ∃ ms, queue ch' = queue ch ++ ms ∧
  (length (queue ch') ≤ Nat.max (length (queue ch)) (capacity ch))%nat ∧
  capacity ch' = capacity ch ∧ closed ch' = closed ch.

Lemma fills_same ch ch' : ch' = ch → fills ch ch'.
Proof. intros ->. exists []. rewrite app_nil_r. split_and!; [done|lia|done..]. Qed.

Lemma arrivals_fills n n' : arrivals n n' → fills (peer_sender n) (peer_sender n').
Proof. intros (ms & -> & Hl). by exists ms. Qed.

Lemma fills_facts a s s' :
  handled a s = [] → fills (channel s) (channel s') → run_result s' = None →
  (Readiness.awake (peers_ready s) = true → Readiness.awake (peers_ready s') = true) → turn_facts a s s'.
Proof.
  intros Hh (ms & Hq & Hl & Hc & Hcl) Hr Hw. split; [|done..]. exists ms. by rewrite Hh.
Qed.

(** The network's task does not touch the channel. *)
Definition same_sender {T} (s s' : RestNetwork * T) : Prop := peer_sender s'.1 = peer_sender s.1.
#[export] Instance same_sender_preorder {T} : PreOrder (@same_sender T).
Proof. split; [by intros s|]. unfold same_sender. intros s1 s2 s3. congruence. Qed.

Lemma check_same_sender {T} transport addr failed notify (s : RestNetwork * T) :
  leads same_sender s (check transport client addr failed notify).
Proof.
  unfold check. apply leads_get. lead; [by apply leads_zoom|].
  intros s'. unfold zoom, RestNetwork.run_turn. case_decide; [by intros [= <-]|].
  assert (Hu : ∀ answer n0, leads (λ n n', peer_sender n' = peer_sender n) n0 (RestNetwork.update_peers answer)).
  { intros answer n0. assert (HR : PreOrder (λ n n' : RestNetwork, peer_sender n' = peer_sender n)).
    { split; [by intros ?|]. intros n1 n2 n3. congruence. }
    unfold RestNetwork.update_peers. apply leads_bind; [apply _|apply leads_of_result; apply _|]. intros peers n3 _.
    apply leads_bind; [apply _|by apply leads_modify|]. intros [] n2 _.
    apply for_each_leads; [apply _|]. intros peer n6. apply leads_get. case_decide; [by apply leads_modify|apply leads_ret; apply _]. }
  unfold bind, try_. match goal with |- context [RestNetwork.update_peers ?x ?n] => specialize (Hu x n) end.
  unfold leads in Hu. destruct (RestNetwork.update_peers _ _); cbn in *; [..|done]; intros [= <-]; by apply Hu.
Qed.

(** *** Every turn *)

Lemma awake_mono_turn r : Readiness.awake r = true → Readiness.awake (Readiness.turn_succeeded r) = true.
Proof. unfold Readiness.turn_succeeded. destruct (Readiness.notify_waiters r); [|done]. cbn. by intros ->. Qed.

Lemma discovery_facts transport s r s' :
  run_result s = None → act (DiscoveryTick transport) s = Ret r s' → turn_facts (DiscoveryTick transport) s s'.
Proof.
  intros Hr. unfold Process.act, bind at 1, get. rewrite Hr. intros ([] & s1 & H1 & [= _ <-])%bind_Ret. revert H1.
  unfold discovery_tick, bind at 1, get. destruct (network_stopped s).
  { intros [= <-]. apply fills_facts; [done|by apply fills_same|done|done]. }
  intros (checked & s2 & H2 & H3)%bind_Ret. revert H2. unfold try_, zoom.
  pose proof (check_same_sender (T := unit) (λ r, of_result (transport r)) (advertised_addr c) (checks_failed s)
    (Readiness.notify_waiters (peers_ready s)) (network_of s, tt)) as Hk. unfold leads in Hk.
  destruct (check _ _ _ _ _ _) as [[failed notify] n|e n|]; cbn in Hk; [..|done]; specialize (Hk _ eq_refl);
    intros [= <- <-]; injection H3 as <-; (apply fills_facts; [done|by apply fills_same|done|]).
  - cbn. destruct notify; [done|]. apply awake_mono_turn.
  - done.
Qed.

Lemma loop_facts ev s r s' :
  overflow_checks = true → run_result s = None → act (LoopTurn ev) s = Ret r s' → turn_facts (LoopTurn ev) s s'.
Proof.
  intros OC Hr. unfold Process.act, bind at 1, get. rewrite Hr. intros ([] & s1 & H1 & [= _ <-])%bind_Ret. revert H1.
  unfold loop_turn, bind at 1, get. destruct (Readiness.awake (peers_ready s)) eqn:Hw.
  2:{ intros [= <-]. apply fills_facts; [unfold handled; by rewrite Hw, andb_false_r|by apply fills_same|done|congruence]. }
  intros (handled_ev & s2 & H2 & H3)%bind_Ret. revert H2. unfold try_, zoom.
  pose proof (handle_event_keeps c ev (main_peer s)) as Hk.
  assert (Hfacts : ∀ p' (x : option (result unit string)),
    final_state (handle_event c ev (main_peer s)) = Some p' →
    (closed (channel s) = false → x = None) →
    turn_facts (LoopTurn ev) s (s <| main_peer := p' |> <| run_result := x |>)).
  { intros p' x Hf Hx. destruct (Hk p' OC Hf) as [_ [l Hn]].
    assert (Hch : channel (s <| main_peer := p' |> <| run_result := x |>) =
      peer_sender (network (effects (if takes_message ev then take_message (main_peer s) else main_peer s)))).
    { unfold channel, network_of. cbn. by rewrite Hn. }
    destruct ev as [draw now|env draws|now]; cbn [takes_message] in Hch.
    - split; unfold queued; rewrite ?Hch; try done.
      + exists []. unfold handled, received, channel_of. cbn. rewrite Hw, app_nil_r. cbn.
        unfold channel, network_of. by destruct (queue _).
      + unfold channel, network_of. cbn. destruct (queue _); cbn; lia.
    - split; unfold queued; rewrite ?Hch; try done; [exists []; apply app_nil_r|apply Nat.le_max_l].
    - split; unfold queued; rewrite ?Hch; try done; [exists []; apply app_nil_r|apply Nat.le_max_l]. }
  destruct (handle_event c ev (main_peer s)) as [u p'|x p'|] eqn:He; [..|done]; intros [= <- <-]; injection H3 as <-.
  - specialize (Hfacts p' None eq_refl (λ _, eq_refl)). destruct s. cbn in Hr. subst. exact Hfacts.
  - apply (Hfacts p' (Some (Error x)) eq_refl). intros Hc.
    by destruct (handle_event_Err c ev (main_peer s) x p' He Hc).
Qed.

Lemma request_facts draw key_draw client_id method path body s r s' :
  run_result s = None → act (Request draw key_draw client_id method path body) s = Ret r s' →
  turn_facts (Request draw key_draw client_id method path body) s s'.
Proof.
  intros Hr. unfold Process.act, bind at 1, get. rewrite Hr. intros (response & s1 & H1 & [= _ <-])%bind_Ret. revert H1.
  unfold request, bind at 1, get, zoom.
  pose proof (serve_peer_served (E := Empty_set) rejection draw key_draw client_id (block_keeper (effects (main_peer s)))
    (id (main_peer s)) (consensus_state (main_peer s)) method path body (network_of s, disk_of s)) as Hs.
  unfold leads in Hs. destruct (serve_peer _ _ _ _ _ _ _ _ _ _ _) as [x t|x t|]; cbn in *; [|done..]. intros [= _ <-].
  apply fills_facts; [done| |done|done]. by apply arrivals_fills, Hs.
Qed.

Lemma act_facts a s r s' :
  overflow_checks = true → run_result s = None → act a s = Ret r s' → turn_facts a s s'.
Proof.
  intros OC Hr. destruct a as [transport| |ev|draw key_draw client_id method path body].
  - by apply discovery_facts.
  - unfold Process.act, bind at 1, get. rewrite Hr. intros ([] & s1 & H1 & [= _ <-])%bind_Ret. revert H1.
    unfold wait_for_peers, bind at 1, get. destruct (Readiness.waiting _); intros [= <-];
      (apply fills_facts; [done|by apply fills_same|done|done]).
  - by apply loop_facts.
  - by apply request_facts.
Qed.

(** A turn of the loop panics where the handling of its event does. *)
Lemma loop_panics ev s :
  act (LoopTurn ev) s = Panic → Readiness.awake (peers_ready s) = true ∧ handle_event c ev (main_peer s) = Panic.
Proof.
  unfold Process.act, bind at 1, get. destruct (run_result s); [done|]. unfold bind at 1, loop_turn, bind at 1, get.
  destruct (Readiness.awake _); [|done]. unfold bind, try_, zoom.
  by destruct (handle_event c ev (main_peer s)).
Qed.

(** *** Before the first peers are known *)

(** What the main task owns. *)
Definition same_main (p p' : Peer RestNetwork) : Prop :=
  id p' = id p ∧ consensus p' = consensus p ∧ consensus_state p' = consensus_state p ∧
  transaction_processor (effects p') = transaction_processor (effects p) ∧
  keeper (store_of p') = keeper (store_of p) ∧ storage_state (store_of p') = storage_state (store_of p).

Lemma same_main_trans p1 p2 p3 : same_main p1 p2 → same_main p2 p3 → same_main p1 p3.
Proof. unfold same_main. intuition congruence. Qed.

(** Only a turn of the loop changes it. *)
Lemma act_asleep a s r s' :
  act a s = Ret r s' → Readiness.awake (peers_ready s) = false → same_main (main_peer s) (main_peer s').
Proof.
  unfold Process.act, bind at 1, get. destruct (run_result s); [by intros [= _ <-]|]. intros Ha Hw.
  destruct a as [transport| |ev|draw key_draw client_id method path body]; revert Ha.
  - intros ([] & s1 & H1 & [= _ <-])%bind_Ret. revert H1. unfold discovery_tick, bind at 1, get.
    destruct (network_stopped s); [by intros [= <-]|]. intros (checked & s2 & H2 & H3)%bind_Ret. revert H2.
    unfold try_, zoom. destruct (check _ _ _ _ _ _) as [[failed notify] n|e n|]; [..|done]; intros [= <- <-];
      by injection H3 as <-.
  - intros ([] & s1 & H1 & [= _ <-])%bind_Ret. revert H1. unfold wait_for_peers, bind at 1, get.
    by destruct (Readiness.waiting _); intros [= <-].
  - intros ([] & s1 & H1 & [= _ <-])%bind_Ret. revert H1. unfold loop_turn, bind at 1, get. rewrite Hw. by intros [= <-].
  - intros (response & s1 & H1 & [= _ <-])%bind_Ret. revert H1. unfold request, bind at 1, get, zoom.
    destruct (serve_peer _ _ _ _ _ _ _ _ _ _ _); [|done..]. by intros [= _ <-].
Qed.
End turns.
End ProcessFacts.

(** ** Theorems *)

Module ProcessTheorems.
Import Process KeeperFacts Chain StoreHistory PeerHistory LoopHistory NetworkFacts RuntimeFacts ProcessFacts.
Section theorems.
Context {BP : BuildProfile} {P : Platform} {HO : HashOrder} {PM : PathMatch}.
Context `{!Serde PersistedRaftLogState, !Serde (list SignedTransaction), !Serde BlockFile}.
Context `{!Serde Transaction, !Serde SignedTransaction}.
Context `{!Serde Message, !Serde BlockStorageState, !Serde PeerState}.
Context `{!Serde RegisterRequest, !Serde PeersResponse}.
#[local] Existing Instance RestNetwork.interface.
Context (rejection : HttpResponse) (client : HttpDiscoveryClient) (c : PeerConfig).
Implicit Types (s : Process) (a : Action).

(** C13. Committed history is immutable in a running peer: whatever its tasks do
    in whatever order (any messages and requests, honest or not, ticks,
    synchronizations, changes of the known peers), however their handlers fail
    or panic and whatever the disk refuses, the peer's height never goes down
    and every block at or below it is read back unchanged.  (With overflow
    checks, under which a height that would wrap is a panic.) *)
Theorem peer_history_immutable s s' i :
  overflow_checks = true → safe_log (main_peer s) →
  rtc (process_step rejection client c) s s' →
  let store s := store_of (main_peer s) in
  i ≤ block_height (storage_state (store s)) →
  block_height (storage_state (store s)) ≤ block_height (storage_state (store s')) ∧
  stored (store s') i = stored (store s) i.
Proof.
  intros OC Hs Hsteps store Hi. destruct (steps_kept rejection client c s s' OC Hsteps Hs) as [_ [_ Hh Hst _ _]]. auto.
Qed.

(** What holds of a process that was started as peer [p0]. *)
Record process_ok (p0 : Peer RestNetwork) s : Prop := {
  ok_runs : run_result s = None;
  ok_open : closed (channel s) = false;
  ok_capacity : capacity (channel s) = channel_size c;
  ok_length : (length (queued s) ≤ channel_size c)%nat;
  ok_wf : storage_wf (store_of (main_peer s));
  ok_log : safe_log (main_peer s);
  ok_asleep : Readiness.awake (peers_ready s) = false → same_main p0 (main_peer s);
}.

Lemma step_ok p0 s s' :
  overflow_checks = true → process_ok p0 s → process_step rejection client c s s' → process_ok p0 s'.
Proof.
  intros OC [Hr Ho Hc Hl Hwf Hlog Has] Hstep.
  destruct (step_kept rejection client c s s' OC Hstep Hlog) as [Hlog' Hh].
  assert (Hwf' : storage_wf (store_of (main_peer s'))) by by apply (hi_wf _ _ Hh).
  destruct Hstep as [a s r s' Ha|draw key_draw client_id method path body s d' _ _ _].
  - destruct (act_facts rejection client c a s r s' OC Hr Ha) as [_ Tl Tc Tcl Tw Tr].
    split; [by apply Tr|congruence|congruence|lia|done|done|].
    intros Hw. assert (Hw0 : Readiness.awake (peers_ready s) = false).
    { destruct (Readiness.awake (peers_ready s)) eqn:E; [|done]. rewrite Tw in Hw by done. done. }
    eapply same_main_trans; [by apply Has|]. by eapply act_asleep.
  - by split.
Qed.

(** Why the loop of a peer panics: the turn fails an overflow check (the same
    turn does not panic in a build without them), or it is a synchronization
    that finds all known peers gone or cannot read an answer. *)
Definition panic_cause (ev : Event) s : Prop :=
  handle_event (BP := false) c ev (main_peer s) ≠ Panic ∨
  ∃ env draws, ev = EvSyncTick env draws ∧ consensus_mode c = ModeVoting ∧ PanicFree.lost env.

(** C14. A peer that was started goes on until a turn of its main task panics:
    in every state its tasks can reach, [run_peer] has not returned (its loop
    cannot see the channel closed, because the peer's own network handle keeps
    it open), and if the run ends there, it is by a panic of the main task, after
    the first peers were known, from a failed overflow check or in a
    synchronization that lost all its peers or cannot read an answer: no
    message, tick or served block makes it panic otherwise.  The channel holds
    at most what it was created for, the block store is well formed and Raft's
    log is in a file of its own; and until a discovery check succeeds while the
    main task waits, its ledger, consensus and store are as they were at the
    start, whatever arrives.  (For a build with overflow checks.) *)
Theorem process_invariant `{!PlatformLaws, !HashOrderLaws} key_draw draw now d s0 d' s :
  overflow_checks = true → run_peer c key_draw draw now d = Ret s0 d' →
  rtc (process_step rejection client c) s0 s →
  process_ok (main_peer s0) s ∧
  ∀ e, process_exit rejection client c s e →
    ∃ ev, e = Panicked ev ∧ Readiness.awake (peers_ready s) = true ∧ panic_cause ev s.
Proof.
  unfold run_peer. intros OC (p & d1 & Hp & [= <- <-])%bind_Ret Hsteps.
  destruct (start_peer_initial _ _ _ _ _ _ _ Hp) as (Hwf & Hlog & Hnet).
  assert (Hstart : process_ok p (mkProcess p 0 false Readiness.initial None)).
  { split; unfold queued, channel, network_of; cbn; rewrite ?Hnet; cbn; try done; lia. }
  cbn [main_peer]. assert (Hok : process_ok p s).
  { revert Hstart. induction Hsteps as [|s1 s2 s3 H12 _ IH]; [done|]. intros Hs1. by eapply IH, step_ok. }
  split; [exact Hok|]. intros e [r Hr|ev Hev]; [by rewrite (ok_runs _ _ Hok) in Hr|].
  exists ev. apply loop_panics in Hev as [Hw _]. split_and!; [done|done|].
  unfold panic_cause. destruct (handle_event (BP := false) c ev (main_peer s)) eqn:He; [by left..|].
  right. by apply (PanicFree.turn_panics (BP := false) eq_refl) in He.
Qed.

(** *** Messages *)

(** How often a run asks for a message. *)
Definition message_turns (l : list (option Action)) : nat :=
  length (filter (λ turn : option Action, from_option takes false turn = true) l).

Lemma message_turns_cons turn l :
  message_turns (turn :: l) = ((if from_option takes false turn then 1 else 0) + message_turns l)%nat.
Proof. unfold message_turns. rewrite filter_cons. by destruct (from_option takes false turn). Qed.

(** Somewhere in the run [l] between [s] and [s'], after [k] other message turns,
    there is one in which [Peer.handle_message] gets [m] and returns. *)
Definition handles l s s' (k : nat) (m : Message) : Prop :=
  ∃ l1 draw now l2 s1 s2,
    l = l1 ++ Some (LoopTurn (EvMessage draw now)) :: l2 ∧ message_turns l1 = k ∧
    trace rejection client c l1 s s1 ∧
    Peer.handle_message (E := string) draw now m (take_message (main_peer s1)) = Ret tt (main_peer s2) ∧
    trace rejection client c l2 s2 s'.

Lemma message_turn draw now m s r s1 :
  run_result s = None → Readiness.awake (peers_ready s) = true → head (queued s) = Some m →
  act (E := Empty_set) rejection client c (LoopTurn (EvMessage draw now)) s = Ret r s1 →
  Peer.handle_message (E := string) draw now m (take_message (main_peer s)) = Ret tt (main_peer s1).
Proof.
  intros Hr Hw Hm. unfold act, bind at 1, get. rewrite Hr. intros ([] & s2 & Ha & [= _ <-])%bind_Ret. revert Ha.
  unfold loop_turn, bind at 1, get. rewrite Hw. intros (handled & s3 & H1 & H2)%bind_Ret. revert H1.
  unfold try_, zoom, handle_event, recv. rewrite bind_assoc. unfold bind at 1, get. unfold queued, channel, network_of in Hm.
  destruct (queue _) as [|m0 q] eqn:Hq; [done|]. injection Hm as ->. rewrite bind_assoc, bind_modify, bind_ret_l.
  unfold ok_or. rewrite bind_ret_l. unfold take_message, update_field. cbn. rewrite Hq.
  pose proof (handle_message_no_error (E := string) draw now m) as Hne. unfold no_error in Hne.
  destruct (Peer.handle_message draw now m _) as [[] p|e p|] eqn:Hh; [..|done].
  - intros [= <- <-]. by injection H2 as <-.
  - by apply Hne in Hh.
Qed.

(** The messages of the channel are handled one by one, in their order. *)
Lemma drained l s s' k m :
  overflow_checks = true → run_result s = None → closed (channel s) = false → Readiness.awake (peers_ready s) = true →
  trace rejection client c l s s' → queued s !! k = Some m → (k < message_turns l)%nat → handles l s s' k m.
Proof.
  intros OC Hr Ho Hw Hl. revert k Hr Ho Hw.
  induction Hl as [s|a l s r s1 s2 Ha Hl IH|? ? ? ? ? ? l s d1 s2 H1 H2 H3 Hl IH]; intros k Hr Ho Hw Hk Hlt.
  - by apply Nat.nlt_0_r in Hlt.
  - destruct (act_facts rejection client c a s r s1 OC Hr Ha) as [[ms Hq] _ _ Hcl Hw1 Hr1].
    assert (Hih : ∀ k, queued s1 !! k = Some m → (k < message_turns l)%nat → handles l s1 s2 k m).
    { intros k' Hk' Hlt'. apply IH; [by apply Hr1|congruence|by apply Hw1|done|done]. }
    assert (Hk' : (handled a s ++ queued s1) !! k = Some m) by (rewrite <-Hq; by apply lookup_app_l_Some).
    rewrite message_turns_cons in Hlt. cbn [from_option] in Hlt.
    assert (Hlater : ∀ k', ((if takes a then 1 else 0) + k' = k)%nat →
      handles l s1 s2 k' m → handles (Some a :: l) s s2 k m).
    { intros k' <- (l1 & draw & now & l2 & s3 & s4 & -> & Hn & Hl1 & Hh & Hl2).
      exists (Some a :: l1), draw, now, l2, s3, s4.
      split_and!; [done|by rewrite message_turns_cons, Hn|by econstructor|done|done]. }
    unfold handled in *. rewrite Hw, andb_true_r in *. destruct (takes a) eqn:Ht.
    + unfold received, channel_of in *.
      change (queue (peer_sender (network (effects (main_peer s))))) with (queued s) in *.
      destruct (queued s) as [|m0 q] eqn:Hqs; [by rewrite lookup_nil in Hk|]. cbn [head option_list app] in *.
      destruct k as [|k].
      * injection Hk as ->. destruct a as [| |[draw now|env draws|now]|]; try done.
        exists [], draw, now, l, s, s1. split_and!; [done|done|constructor| |done].
        apply (message_turn draw now m s r s1); [done|done|by rewrite Hqs|done].
      * apply (Hlater k); [done|]. apply Hih; [exact Hk'|lia].
    + apply (Hlater k); [done|]. by apply Hih.
  - rewrite message_turns_cons in Hlt.
    destruct (IH k Hr Ho Hw Hk Hlt) as (l1 & draw' & now & l2 & s3 & s4 & -> & Hn & Hl1 & Hh & Hl2).
    exists (None :: l1), draw', now, l2, s3, s4. split_and!; [done|by rewrite message_turns_cons|by econstructor|done|done].
Qed.

(** A message posted to the peer's server, if the handler does not panic. *)
Lemma posted draw key_draw client_id m r s s1 `{!SerdeLaws Message, !PathMatchLaws} :
  run_result s = None →
  act (E := Empty_set) rejection client c
    (Request draw key_draw client_id POST HANDLE_PEER_MESSAGE_PATH (Some (to_vec m))) s = Ret r s1 →
  r = Some (mkHttpResponse 200 []) ∧ queued s1 = queued s ++ [m] ∧ peers_ready s1 = peers_ready s ∧
  run_result s1 = None ∧ closed (channel s1) = false.
Proof.
  intros Hr. unfold act, bind at 1, get. rewrite Hr. intros (response & s2 & H1 & [= <- <-])%bind_Ret. revert H1.
  unfold request, bind at 1, get, zoom at 1, serve_peer.
  rewrite (HttpFacts.route_literal peer_routes POST HANDLE_PEER_MESSAGE_PATH EpPeerMessage);
    [|cbn; repeat (apply elem_of_cons; first [by left|right])|done|done].
  unfold json_body. rewrite from_slice_to_vec. unfold Server.hande_peer_message, bind, zoom, try_. cbn.
  unfold RestNetwork.message_received, bind, get, try_send.
  destruct (closed (peer_sender (network_of s))) eqn:Hc; [done|]. case_decide; [done|]. cbn. intros [= <- <-].
  split_and!; [done|done|done|exact Hr|done].
Qed.

(** C15. Fairness of the server: a message that is posted to a peer and accepted
    (status 200) is given to [Peer.handle_message], in its turn, as soon as the
    loop has taken the messages that were in the channel before it, and one
    more: each of them, in the order of the channel, and then it.  This holds
    whatever other tasks do, whatever else arrives, however the handling of
    the others fails, and if the handlers of other requests panic; only a panic
    of the main task ends the run.  (For a build with overflow checks.) *)
Theorem accepted_message_is_handled draw key_draw client_id m r s s1 l s2 `{!SerdeLaws Message, !PathMatchLaws} :
  overflow_checks = true → run_result s = None → Readiness.awake (peers_ready s) = true →
  act (E := Empty_set) rejection client c
    (Request draw key_draw client_id POST HANDLE_PEER_MESSAGE_PATH (Some (to_vec m))) s = Ret r s1 →
  trace rejection client c l s1 s2 → (length (queued s) < message_turns l)%nat →
  r = Some (mkHttpResponse 200 []) ∧
  ∀ k m', (queued s ++ [m]) !! k = Some m' → handles l s1 s2 k m'.
Proof.
  intros OC Hr Hw Hpost Hl Hlt.
  destruct (posted draw key_draw client_id m r s s1 Hr Hpost) as (-> & Hq & Hready & Hr1 & Ho). split; [done|].
  intros k m' Hk. apply lookup_lt_Some in Hk as Hlen. rewrite length_app in Hlen. cbn in Hlen.
  apply drained; [done|done|done|by rewrite Hready|done|by rewrite Hq|lia].
Qed.
End theorems.
End ProcessTheorems.
