(* ===== verification/RaftStore.v ===== *)
(** * What a Raft peer stores is what its node commits

    A peer of the Raft engine writes a block file only because its node has
    committed the block, and in the order of the log: over whatever the tasks of
    the peer do, the blocks it adds are a subsequence of the blocks its node
    commits meanwhile.  (A subsequence, because a commit may fail: a block that
    could not be staged, a disk that refuses to write.) *)

From S2P Require Import Prelude Platform Crypto Transactions Storage Messages RaftLogStore Raft RaftFacts RaftInvariant RaftCommits Voting Consensus Network Effects PeerNode KeeperFacts ChainFacts StorageTheorems PeerTheorems NetworkTheorems Server Runtime Http Process History RuntimeTheorems ProcessTheorems.

(** ** The block store *)

Module Growth.
Import BlockKeeper KeeperFacts Chain StoreHistory.
Section growth.
Context {BP : BuildProfile} {P : Platform} {HO : HashOrder}.
Context `{!Serde (list SignedTransaction), !Serde BlockFile, !SerdeLaws BlockFile}.
Context (OC : overflow_checks = true).
Implicit Types (s : Storage) (l : list BlockHash).

(** The block files can be read. *)
Definition blocks_readable s : Prop :=
  ∀ i, (path_to_blocks (keeper s), block_filename_for_index i) ∉ read_faults (disk s).

(** [l] are the hashes of the blocks that [s'] has above the height of [s]. *)
Record grows s s' l : Prop := {
  gr_height : block_height (storage_state s') = block_height (storage_state s) + N.of_nat (length l);
  gr_history : history s s';
  gr_blocks k h : l !! k = Some h →
    ∃ b, stored s' (block_height (storage_state s) + 1 + N.of_nat k) = Ok b ∧ bf_hash b = h;
}.

Lemma grows_readable s s' l : grows s s' l → blocks_readable s → blocks_readable s'.
Proof. intros [_ Hh _] Hr i. rewrite (hi_path _ _ Hh), (hi_faults _ _ Hh). apply Hr. Qed.

Lemma grows_app s1 s2 s3 l1 l2 : grows s1 s2 l1 → grows s2 s3 l2 → grows s1 s3 (l1 ++ l2).
Proof.
  intros [H1 A1 B1] [H2 A2 B2]. split; [rewrite H2, H1, length_app; lia|by etrans|].
  intros k h [Hk|[Hge Hk]]%lookup_app_Some.
  - destruct (B1 k h Hk) as (b & Hb & Hh). exists b. split; [|done]. apply lookup_lt_Some in Hk.
    rewrite (hi_stored _ _ A2); [done|lia].
  - destruct (B2 _ _ Hk) as (b & Hb & Hh). exists b. split; [|done].
    rewrite <-Hb, H1. f_equal. lia.
Qed.

(** The calls that leave the height alone. *)
Definition still s s' : Prop := history s s' ∧ storage_state s' = storage_state s.
#[export] Instance still_preorder : PreOrder still.
Proof. split; [by intros s|]. intros s1 s2 s3 [H1 S1] [H2 S2]. split; [by etrans|congruence]. Qed.

Lemma still_grows s s' : still s s' → grows s s' [].
Proof. intros [Hh Hs]. split; [rewrite Hs; cbn; lia|done|by intros k h]. Qed.

Lemma same_disk_still {E A} (m : M Storage E A) s :
  (∀ s0, preserves (StorageTheorems.same_disk s0) m) → preserves storage_wf m → leads still s m.
Proof.
  intros Hm Hw s' Hf. split; [by apply preserves_history in Hf|].
  by destruct (Hm s s s') as (_ & Hst & _).
Qed.

Lemma add_transaction_still {E} tx s : leads (E := E) still s (add_transaction tx).
Proof. apply same_disk_still; [intros s0; apply StorageTheorems.add_transaction_same_disk|apply add_transaction_wf]. Qed.
Lemma add_external_block_still b s : leads still s (add_external_block b).
Proof. apply same_disk_still; [intros s0; apply StorageTheorems.add_external_block_same_disk|apply add_external_block_wf]. Qed.
Lemma rollback_block_still h s : leads still s (rollback_block h).
Proof. apply same_disk_still; [intros s0; apply StorageTheorems.rollback_block_same_disk|apply rollback_block_wf]. Qed.
Lemma block_can_be_added_still {E} b s : leads (E := E) still s (block_can_be_added b).
Proof. intros s' Hf. by rewrite <-(SyncTheorems.Synchronized.block_can_be_added_state b s s' Hf). Qed.

(** A call that may store blocks of [q]. *)
Definition stores {E A} (q : list BlockHash) s (m : M Storage E A) : Prop := ∀ s',
  storage_wf s → blocks_readable s → final_state (m s) = Some s' → ∃ l, l `sublist_of` q ∧ grows s s' l.

Lemma still_stores {E A} q s (m : M Storage E A) : leads still s m → stores q s m.
Proof. intros Hm s' _ _ Hf. exists []. split; [apply sublist_nil_l|by apply still_grows, Hm]. Qed.

Lemma commit_block_stores h s : stores [h] s (commit_block h).
Proof.
  intros s' Hwf Hr Hf. pose proof (commit_block_history OC h s s' Hf) as Hh.
  destruct (decide (block_height (storage_state s) + 1 < u32_modulus)) as [Hlt|Hge].
  - destruct (commit_block h s) as [[] s1|e s1|] eqn:Hc; cbn in Hf; [..|done]; injection Hf as ->.
    + destruct (commit_block_commits h s s' Hlt Hwf Hc) as (b & _ & Hb & _ & Hcm). exists [h]. split; [done|].
      split; [by rewrite (commits_state _ _ _ Hcm)|done|]. intros [|k] h'; [|done]. intros [= <-]. exists b.
      split; [|done]. rewrite N.add_0_r. apply stored_new; [done|apply Hr].
    + exists []. split; [apply sublist_nil_l|]. apply still_grows. split; [done|].
      pose proof (commit_block_cases h s Hlt) as Hcc. rewrite Hc in Hcc.
      destruct (uncommited_blocks (keeper s) !! h) as [b|]; [|by injection Hcc as _ ->].
      destruct (fs_write _ _ _) as [[] d|x d|]; [by destruct Hcc|by injection Hcc as _ ->|done].
  - exists []. split; [apply sublist_nil_l|]. apply still_grows. split; [done|]. revert Hf.
    unfold commit_block. rewrite bind_gets. destruct (uncommited_blocks (keeper s) !! h); [|by intros [= <-]].
    rewrite bind_gets. unfold bind at 1, add_u32, checked_plus. rewrite decide_False by done. by rewrite OC.
Qed.
End growth.
End Growth.

(** ** The peer *)

Module RaftPeer.
Import PeerEffects BlockKeeper KeeperFacts Chain RaftFiles StoreHistory PeerHistory Committed Growth.
Section peer.
Context {BP : BuildProfile} {P : Platform} {HO : HashOrder}.
Context `{!Serde PersistedRaftLogState, !Serde (list SignedTransaction), !Serde BlockFile, !SerdeLaws BlockFile}.
Context `{!Serde Transaction, !Serde SignedTransaction}.
Context {Net : Type} `{!NetworkInterface Net, !NetworkLaws Net}.
Context (OC : overflow_checks = true).
Implicit Types (p : Peer Net) (e : PeerEffects Net) (q new l : list BlockHash).

(** A well-formed peer of the Raft engine. *)
Record raft_ok p : Prop := {
  ro_node : ∃ r, consensus p = EngineRaft r ∧ raft_wf r;
  ro_log : safe_log p;
  ro_store : storage_wf (store_of p);
  ro_readable : blocks_readable (store_of p);
}.

(** The blocks its node has committed. *)
Definition peer_committed p : list BlockHash :=
  match consensus p with EngineRaft r => committed r | EngineVoting _ _ => [] end.

(** The node commits [new], and the store grows by [l]. *)
Record follows p p' new l : Prop := {
  fo_ok : raft_ok p';
  fo_committed : peer_committed p' = peer_committed p ++ new;
  fo_store : grows (store_of p) (store_of p') l;
}.

Lemma follows_app p1 p2 p3 new1 new2 l1 l2 :
  follows p1 p2 new1 l1 → follows p2 p3 new2 l2 → follows p1 p3 (new1 ++ new2) (l1 ++ l2).
Proof.
  intros [_ C1 G1] [O2 C2 G2]. split; [done|by rewrite C2, C1, app_assoc|by eapply grows_app].
Qed.

(** Neither moves. *)
Definition quiet p p' : Prop := raft_ok p → follows p p' [] [].
#[export] Instance quiet_preorder : PreOrder quiet.
Proof.
  split.
  - intros p Hp. split; [done|by rewrite app_nil_r|]. by apply still_grows.
  - intros p1 p2 p3 H12 H23 H1. specialize (H12 H1). exact (follows_app _ _ _ [] [] [] [] H12 (H23 (fo_ok _ _ _ _ H12))).
Qed.

(** The store follows the node: it grows by some of what the node commits, in
    its order. *)
Definition obeys p p' : Prop := raft_ok p → ∃ new l, follows p p' new l ∧ l `sublist_of` new.
#[export] Instance obeys_preorder : PreOrder obeys.
Proof.
  split.
  - intros p Hp. exists [], []. split; [by apply quiet_preorder|done].
  - intros p1 p2 p3 H12 H23 H1. destruct (H12 H1) as (n1 & l1 & F1 & S1).
    destruct (H23 (fo_ok _ _ _ _ F1)) as (n2 & l2 & F2 & S2). exists (n1 ++ n2), (l1 ++ l2).
    split; [by eapply follows_app|by apply sublist_app].
Qed.

Lemma quiet_obeys p p' : quiet p p' → obeys p p'.
Proof. intros H Hp. exists [], []. split; [by apply H|done]. Qed.
Lemma leads_obeys {E A} p (m : PeerM (Net := Net) E A) : leads quiet p m → leads obeys p m.
Proof. intros H p' Hf. by apply quiet_obeys, H. Qed.

(** *** Calls of the services *)

Definition still_effects e e' : Prop := still (block_keeper e) (block_keeper e').
#[local] Instance still_effects_preorder : PreOrder still_effects.
Proof. split; [by intros e|]. intros e1 e2 e3. unfold still_effects. apply transitivity. Qed.

Lemma on_keeper_still {E A} (m : M Storage E A) e :
  leads still (block_keeper e) m → leads still_effects e (on_keeper m).
Proof.
  intros Hm e'. unfold on_keeper, zoom, leads in *. destruct (m _); cbn in *; [..|done]; intros [= <-]; by apply Hm.
Qed.

Ltac still_store := lead; try apply leads_map_err;
  first [apply on_keeper_still; first [apply add_transaction_still|apply add_external_block_still
          |apply rollback_block_still|apply block_can_be_added_still]
        |apply leads_zoom; intros ?; unfold still_effects; cbn; reflexivity
        |unfold still_effects; cbn; reflexivity
        |idtac].

Lemma apply_block_still {E} b e : leads (E := E) still_effects e (apply_block_transactions b).
Proof.
  unfold apply_block_transactions. revert e. induction (bf_transactions b) as [|tx txs IH]; intros e;
    cbn [for_each]; still_store. apply IH.
Qed.
Lemma stage_external_still b e : leads still_effects e (stage_external_block b).
Proof. unfold stage_external_block. still_store. apply apply_block_still. Qed.
Lemma stage_client_still tx e : leads still_effects e (stage_client_transaction tx).
Proof. unfold stage_client_transaction. still_store. Qed.
Lemma broadcast_client_still tx e : leads still_effects e (broadcast_client_transaction tx).
Proof. unfold broadcast_client_transaction. still_store. Qed.
Lemma send_append_still to t pi pt es lc e : leads still_effects e (send_raft_append_entries to t pi pt es lc).
Proof. unfold send_raft_append_entries. still_store. Qed.

(** What a call does to the store is what it does to the peer. *)
Lemma effects_follow p e' l :
  raft_ok p → grows (block_keeper (effects p)) (block_keeper e') l →
  follows p (p <| effects := e' |>) [] l.
Proof.
  intros [Hn Hl Hs Hr] Hg. split; [|by rewrite app_nil_r|exact Hg]. split; [exact Hn| |by apply (gr_history _ _ _ Hg)|].
  - intros i. unfold store_of. cbn. rewrite (hi_path _ _ (gr_history _ _ _ Hg)). apply Hl.
  - by eapply grows_readable.
Qed.

Lemma on_effects_quiet {E A} (m : EffectsM (Net := Net) E A) p :
  leads still_effects (effects p) m → leads quiet p (on_effects m).
Proof.
  intros Hm p'. unfold on_effects, zoom, leads in *.
  destruct (m _); cbn in *; [..|done]; intros [= <-] Hp; (apply effects_follow; [done|by apply still_grows, Hm]).
Qed.

(** *** Calls of the node *)

(** The peer after its node and the disk have changed. *)
Lemma node_follows p r r' d' new :
  consensus p = EngineRaft r → raft_wf r' → committed r' = committed r ++ new →
  raft_ok p → keeps_history p (p <| consensus := EngineRaft r' |>
      <| effects ::= λ e, e <| block_keeper ::= λ k, k <| disk := d' |> |> |>) →
  follows p (p <| consensus := EngineRaft r' |>
      <| effects ::= λ e, e <| block_keeper ::= λ k, k <| disk := d' |> |> |>) new [].
Proof.
  intros Hc Hwf Hnew [_ Hl Hs Hr] [Hk _]. destruct (Hk Hl) as [Hl' Hh]. split.
  - split; [by eauto|done|done|]. intros i. pose proof (hi_faults _ _ Hh) as Hf.
    unfold store_of in *. cbn in *. rewrite Hf. apply Hr.
  - unfold peer_committed. cbn. by rewrite Hc.
  - split; [unfold store_of; cbn; lia|done|by intros k h].
Qed.

(** An engine call that is an event of the node: the effects it returns name
    what it has committed. *)
Definition tracks q p (m : PeerM (Net := Net) string (list ConsensusEffect)) : Prop := ∀ p',
  final_state (m p) = Some p' → raft_ok p →
  ∃ new l, follows p p' new l ∧ l `sublist_of` q ∧ ∀ effects, m p = Ret effects p' → commits effects = new.

Lemma tracks_event q p ev (m : M EngineS string (list ConsensusEffect)) :
  (∀ s r, engine s = EngineRaft r → m s = ConsensusEngine.with_raft r (run_event ev) s) →
  (∀ s, leads engine_files s m) → tracks q p (on_consensus m).
Proof.
  intros Hm Hfiles p' Hf Hp. destruct (ro_node _ Hp) as (r & Hr & Hwf).
  pose proof (on_consensus_keeps m p Hfiles p' Hf) as Hk. revert Hf. unfold on_consensus, zoom in *.
  rewrite (Hm (mkEngineS (consensus p) (disk (block_keeper (effects p)))) r Hr). unfold ConsensusEngine.with_raft. cbn [engine_disk].
  pose proof (run_event_commits OC (mkRaftS r (disk (block_keeper (effects p)))) ev) as Hev.
  destruct (run_event ev _) as [effs s'|x s'|] eqn:He; cbn; [..|done]; intros [= <-];
    destruct (Hev s' Hwf eq_refl) as (Hwf' & new & Hnew & Heffs); exists new, [];
    (split; [by eapply node_follows|split; [apply sublist_nil_l|]]); [|done].
  intros effects [= <-]. by apply Heffs.
Qed.

(** A call that is none: a voting call, or a message that is not for the engine. *)
Lemma tracks_idle q p (m : M EngineS string (list ConsensusEffect)) :
  (∀ s r, engine s = EngineRaft r → m s = Ret [] s ∨ ∃ x, m s = Err x s) → tracks q p (on_consensus m).
Proof.
  intros Hm p' Hf Hp. destruct (ro_node _ Hp) as (r & Hr & Hwf). exists [], []. revert Hf. unfold on_consensus, zoom in *.
  assert (Hpp : p <| consensus := consensus p |> <| effects ::= λ e, e <| block_keeper ::= λ k, k <| disk :=
    disk (block_keeper (effects p)) |> |> |> = p) by (destruct p as [i c cs [j tp [k st d] sk pk n lc]]; reflexivity).
  destruct (Hm (mkEngineS (consensus p) (disk (block_keeper (effects p)))) r Hr) as [->|[x ->]];
    cbn; intros [= <-]; rewrite Hpp; (split; [by apply quiet_preorder|split; [apply sublist_nil_l|by intros ? [= <-]]]).
Qed.

Lemma take_pending_quiet {E} h p : leads (E := E) quiet p (on_consensus (ConsensusEngine.take_pending_raft_block h)).
Proof.
  intros p' Hf Hp. destruct (ro_node _ Hp) as (r & Hr & Hwf).
  pose proof (on_consensus_keeps _ p (take_pending_files h) p' Hf) as Hk. revert Hf Hk.
  unfold on_consensus, zoom, ConsensusEngine.take_pending_raft_block. rewrite bind_gets. cbn [engine]. rewrite Hr.
  unfold ConsensusEngine.with_raft, RaftConsensus.take_pending_block. rewrite bind_gets, RaftFacts.bind_update. cbn.
  intros [= <-] Hk. eapply node_follows; [done| |by rewrite app_nil_r|done|done]. by destruct Hwf.
Qed.

(** *** The effects *)

Lemma tracks_nil q p : tracks q p (ret []).
Proof.
  intros p' [= <-] Hp. exists [], []. split; [by apply quiet_preorder|].
  split; [apply sublist_nil_l|by intros ? [= <-]].
Qed.

Lemma tracks_quiet {A} q p (m : PeerM (Net := Net) string A) (k : A → PeerM string (list ConsensusEffect)) :
  leads quiet p m → (∀ a p1, m p = Ret a p1 → tracks q p1 (k a)) → tracks q p (bind m k).
Proof.
  intros Hm Hk p' Hf Hp. unfold bind in *. destruct (m p) as [a p1|x p1|] eqn:Hmp; [..|done].
  - assert (F1 : follows p p1 [] []) by (apply Hm; [by rewrite Hmp|done]).
    destruct (Hk a p1 eq_refl p' Hf (fo_ok _ _ _ _ F1)) as (new & l & F2 & Hl & He).
    exists new, l. split; [exact (follows_app _ _ _ [] _ [] _ F1 F2)|by split].
  - injection Hf as <-. exists [], []. split; [apply Hm; [by rewrite Hmp|done]|].
    split; [apply sublist_nil_l|done].
Qed.

(** A call that may store a block, and then none. *)
Definition stores_effects {A} q e (m : EffectsM (Net := Net) string A) : Prop := ∀ e',
  storage_wf (block_keeper e) → blocks_readable (block_keeper e) → final_state (m e) = Some e' →
  ∃ l, l `sublist_of` q ∧ grows (block_keeper e) (block_keeper e') l.

Lemma tracks_stores {A} q p (m : EffectsM (Net := Net) string A) (k : A → PeerM string (list ConsensusEffect)) :
  stores_effects q (effects p) m → (∀ a p1, tracks [] p1 (k a)) → tracks q p (bind (on_effects m) k).
Proof.
  intros Hm Hk p' Hf Hp. unfold bind, on_effects, zoom in *.
  specialize (λ e', Hm e' (ro_store _ Hp) (ro_readable _ Hp)).
  destruct (m (effects p)) as [a e1|x e1|]; [..|done]; destruct (Hm e1 eq_refl) as (l & Hl & Hg);
    pose proof (effects_follow p e1 l Hp Hg) as F1.
  - destruct (Hk a _ p' Hf (fo_ok _ _ _ _ F1)) as (new & l2 & F2 & ->%sublist_nil_r & He).
    exists new, l. split; [|by split]. pose proof (follows_app _ _ _ _ _ _ _ F1 F2) as F. by rewrite app_nil_r in F.
  - injection Hf as <-. exists [], l. by split.
Qed.

Lemma on_keeper_stores {A} q (m : M Storage string A) e :
  stores q (block_keeper e) m → stores_effects q e (on_keeper m).
Proof.
  intros Hm e' Hwf Hr. unfold on_keeper, zoom. specialize (λ s', Hm s' Hwf Hr).
  destruct (m (block_keeper e)); cbn; [..|done]; intros [= <-]; by apply Hm.
Qed.

(** A proposal commits the block if there is nobody to propose it to. *)
Lemma broadcast_proposal_stores h e : stores_effects [h] e (broadcast_block_proposal h).
Proof.
  unfold broadcast_block_proposal. intros e' Hwf Hr. unfold bind at 1, get. case_decide.
  - intros Hf. apply (on_keeper_stores _ _ _ (commit_block_stores OC h _) e' Hwf Hr).
    revert Hf. unfold bind. by destruct (on_keeper _ e).
  - intros Hf. exists []. split; [apply sublist_nil_l|]. apply still_grows. revert e' Hf.
    change (leads still_effects e (match get_uncommited_block (keeper (block_keeper e)) h with
      | Some block_file => on_network (E := string) (broadcast_peer_message
          (BlockProposal h (to_vec block_file) (ecdsa_sign (signing_key e) (to_vec block_file)) (pe_public_key e)) (pe_peer_id e))
      | None => ret tt
      end ;;; ret (Some (PeerEffects.known_peers e)))). still_store.
Qed.

Lemma stage_raft_entries_quiet entries p : leads quiet p (stage_raft_entries entries).
Proof.
  revert p. induction entries as [|entry entries IH]; intros p; cbn [stage_raft_entries]; lead;
    first [apply take_pending_quiet|apply on_effects_quiet; first [apply apply_block_still|by still_store]|apply IH].
Qed.

(** What an effect may store is what it names, and what it makes the node
    commit is named by the effects it pushes. *)
Lemma execute_effect_tracks (x : ConsensusEffect) p : tracks (commits [x]) p (execute_effect x).
Proof.
  unfold execute_effect. destruct x as [tx|entries|tx|h|to t pi pt es lc|h|h|b|to b].
  - apply tracks_quiet; [apply on_effects_quiet, stage_client_still|]. intros [|h] p1 _; [apply tracks_nil|].
    apply (tracks_event _ _ (EvBlockCreated h)); [|apply on_block_created_files].
    intros s r Hs. unfold ConsensusEngine.on_block_created. by rewrite bind_gets, Hs.
  - apply tracks_quiet; [apply stage_raft_entries_quiet|intros; apply tracks_nil].
  - apply tracks_quiet; [apply on_effects_quiet, broadcast_client_still|intros; apply tracks_nil].
  - apply tracks_stores; [apply broadcast_proposal_stores|]. intros [peers|] p1; [|apply tracks_nil].
    apply tracks_idle. intros s r Hs. left. unfold ConsensusEngine.on_local_block_proposed. by rewrite bind_gets, Hs.
  - apply tracks_quiet; [apply on_effects_quiet, send_append_still|intros; apply tracks_nil].
  - apply tracks_stores; [apply on_keeper_stores, (commit_block_stores OC)|]. intros _ p1.
    apply tracks_quiet; [apply on_effects_quiet; by still_store|intros; apply tracks_nil].
  - apply tracks_quiet; [by intros p' [= <-]|]. intros p1 p2 _. apply tracks_quiet.
    + destruct (get_uncommited_block _ _); lead; apply on_effects_quiet; by still_store.
    + intros _ p3 _. apply tracks_quiet; [apply on_effects_quiet; by still_store|intros; apply tracks_nil].
  - apply tracks_quiet; [by intros p' [= <-]|]. intros p1 p2 _.
    apply tracks_quiet; [apply on_effects_quiet; by still_store|intros; apply tracks_nil].
  - apply tracks_quiet; [by intros p' [= <-]|]. intros p1 p2 _.
    apply tracks_quiet; [apply on_effects_quiet; by still_store|intros; apply tracks_nil].
Qed.

(** *** The queue

    It is first in, first out: what is stored and what is still to be executed
    is named, in this order, by the queue at the start and by what the node has
    committed since. *)

Lemma run_generation_follows {E} queue next errors p next' errors' p' :
  run_generation (E := E) queue next errors p = Ret (next', errors') p' → raft_ok p →
  ∃ new l, follows p p' new l ∧ l `sublist_of` commits queue ∧ commits next' `sublist_of` commits next ++ new.
Proof.
  revert next errors p. induction queue as [|x queue IH]; intros next errors p; cbn [run_generation].
  { intros [= -> -> <-] Hp. exists [], []. split; [by apply quiet_preorder|]. by rewrite app_nil_r. }
  intros (r & p1 & H1 & H2)%bind_Ret Hp. pose proof (execute_effect_tracks x p) as Hx. unfold tracks, try_ in *.
  change (x :: queue) with ([x] ++ queue). rewrite commits_app.
  destruct (execute_effect x p) as [more p2|e p2|]; [..|done]; injection H1 as <- ->;
    destruct (Hx p1 eq_refl Hp) as (new1 & l1 & F1 & S1 & He);
    destruct (IH _ _ _ H2 (fo_ok _ _ _ _ F1)) as (new2 & l2 & F2 & S2 & S3);
    exists (new1 ++ new2), (l1 ++ l2); (split; [by eapply follows_app|split; [by apply sublist_app|]]).
  - by rewrite commits_app, (He _ eq_refl), <-app_assoc in S3.
  - etrans; [exact S3|]. apply sublist_app; [done|]. by apply sublist_inserts_l.
Qed.

Lemma generations_follow {E} n queue errors p rest errors' p' :
  generations (E := E) n queue errors p = Ret (rest, errors') p' → raft_ok p →
  ∃ new l, follows p p' new l ∧ l ++ commits rest `sublist_of` commits queue ++ new.
Proof.
  revert queue errors p. induction n as [|n IH]; intros queue errors p; cbn [generations].
  { intros [= -> -> <-] Hp. exists [], []. split; [by apply quiet_preorder|]. by rewrite app_nil_r. }
  intros ([next errors1] & p1 & H1 & H2)%bind_Ret Hp.
  destruct (run_generation_follows _ _ _ _ _ _ _ H1 Hp) as (new1 & l1 & F1 & S1 & S2).
  destruct (IH _ _ _ H2 (fo_ok _ _ _ _ F1)) as (new2 & l2 & F2 & S3).
  exists (new1 ++ new2), (l1 ++ l2). split; [by eapply follows_app|]. rewrite <-!app_assoc.
  apply sublist_app; [done|]. etrans; [exact S3|]. by apply sublist_app.
Qed.

Lemma execute_all_follows queue p p' :
  final_state (execute_all queue p) = Some p' → raft_ok p →
  ∃ new l, follows p p' new l ∧ l `sublist_of` commits queue ++ new.
Proof.
  unfold execute_all, bind. intros Hf Hp.
  destruct (generations 3 queue [] p) as [[rest errors] p1|x p1|] eqn:Hg; [..|done].
  - assert (p1 = p') as -> by by revert Hf; case_decide; intros [= <-].
    destruct (generations_follow _ _ _ _ _ _ _ Hg Hp) as (new & l & F & S). exists new, l. split; [done|].
    etrans; [|exact S]. by apply sublist_inserts_r.
  - by apply PeerTheorems.generations_no_error in Hg.
Qed.
(** *** The handlers *)

Lemma handled_follows p (call : PeerM (Net := Net) string (list ConsensusEffect)) :
  tracks [] p call → leads obeys p (bind call Peer.execute_consensus_effects).
Proof.
  intros Hc p' Hf Hp. unfold bind in Hf. unfold tracks in Hc.
  destruct (call p) as [queue p1|x p1|]; [..|done].
  - destruct (Hc p1 eq_refl Hp) as (new1 & l1 & F1 & ->%sublist_nil_r & He). specialize (He queue eq_refl).
    unfold Peer.execute_consensus_effects, bind in Hf. pose proof (execute_all_follows queue p1) as Hq.
    destruct (execute_all queue p1) as [[] p2|x p2|]; [..|done]; injection Hf as <-;
      destruct (Hq p2 eq_refl (fo_ok _ _ _ _ F1)) as (new2 & l2 & F2 & S2); rewrite He in S2;
      exists (new1 ++ new2), l2; (split; [|done]); pose proof (follows_app _ _ _ _ _ _ _ F1 F2) as F; cbn [app] in F; [|exact F].
    destruct F as [[O1 O2 O3 O4] C G]. by split.
  - injection Hf as <-. destruct (Hc p1 eq_refl Hp) as (new1 & l1 & F1 & ->%sublist_nil_r & _).
    exists new1, []. split; [done|apply sublist_nil_l].
Qed.

Ltac by_raft :=
  unfold ConsensusEngine.on_message, ConsensusEngine.on_request_vote, ConsensusEngine.on_request_vote_response,
    ConsensusEngine.on_append_entries, ConsensusEngine.on_append_entries_response, ConsensusEngine.on_tick,
    ConsensusEngine.raft_only;
  intros s r Hs; by rewrite bind_gets, Hs.

Lemma vote_obeys h sender approve p : leads obeys p (Peer.process_block_vote h sender approve).
Proof.
  unfold Peer.process_block_vote. apply leads_get. case_decide; [|by lead]. lead_step; [by lead|].
  apply handled_follows, tracks_idle. intros s' r Hs. left. unfold ConsensusEngine.on_block_vote. by rewrite bind_gets, Hs.
Qed.

(** A message the engine handles is an event of the node, or none. *)
Lemma on_message_tracks draw now sender b p :
  tracks [] p (on_consensus (ConsensusEngine.on_message draw sender b now)).
Proof.
  destruct b as [| | | | |t cand li lt|t granted|t leader pi pt es lc|t ok m];
    try (apply tracks_idle; intros s r Hs; right; by eexists).
  - apply (tracks_event _ _ (EvRequestVote t cand li lt sender)); [|apply on_message_files].
    by_raft.
  - apply (tracks_event _ _ (EvRequestVoteResponse t sender granted)); [|apply on_message_files].
    by_raft.
  - apply (tracks_event _ _ (EvAppendEntries draw t leader pi pt es lc sender now)); [|apply on_message_files].
    by_raft.
  - apply (tracks_event _ _ (EvAppendEntriesResponse t sender ok m)); [|apply on_message_files].
    by_raft.
Qed.

Lemma process_message_obeys draw now m p : leads obeys p (Peer.process_message draw now m).
Proof.
  unfold Peer.process_message. destruct (body m) as [tx|vtx|h f sig key|h|h|t cand li lt|t granted|t leader pi pt es lc|t ok mi];
    try (apply handled_follows, on_message_tracks).
  - unfold Peer.process_client_transaction. apply leads_bind; [apply _|by lead|intros ???]. apply handled_follows, (tracks_event _ _ (EvClientTransaction tx));
      [|apply on_client_transaction_files]. intros s r Hs. unfold ConsensusEngine.on_client_transaction. by rewrite bind_gets, Hs.
  - unfold Peer.synchronize_transaction. lead_step; [by lead|].
    lead_step; [by apply leads_obeys, on_effects_quiet, stage_client_still|].
    lead_step; [by lead|]. apply handled_follows, (tracks_event _ _ (EvBlockCreated block_hash)); [|apply on_block_created_files].
    intros s r Hs. unfold ConsensusEngine.on_block_created. by rewrite bind_gets, Hs.
  - unfold Peer.process_block_proposal. apply leads_get. case_decide; [by lead|]. lead_step.
    + destruct (BlockFile.verify_block_vec _ _ _ _); [|by lead]. by apply leads_obeys, on_effects_quiet, stage_external_still.
    + apply leads_get, handled_follows, tracks_idle. intros s r Hs. left.
      unfold ConsensusEngine.on_block_proposal_validated. by rewrite bind_gets, Hs.
  - by apply vote_obeys.
  - by apply vote_obeys.
Qed.

Lemma handle_message_obeys {E} draw now m p : leads (E := E) obeys p (Peer.handle_message draw now m).
Proof. unfold Peer.handle_message. lead. apply process_message_obeys. Qed.

Lemma handle_tick_obeys now p : leads obeys p (Peer.handle_tick now).
Proof.
  unfold Peer.handle_tick. apply leads_get, handled_follows, (tracks_event _ _ (EvTick now (PeerEffects.known_peers (effects p))));
    [|apply on_tick_files]. by_raft.
Qed.
End peer.
End RaftPeer.

(** ** The running process *)

Module RaftProcess.
Import Process BlockKeeper KeeperFacts Chain StoreHistory PeerHistory LoopHistory NetworkFacts ProcessFacts Committed Growth RaftPeer.

Section event.
Context {BP : BuildProfile} {P : Platform} {HO : HashOrder}.
Context `{!Serde PersistedRaftLogState, !Serde (list SignedTransaction), !Serde BlockFile, !SerdeLaws BlockFile}.
Context `{!Serde Transaction, !Serde SignedTransaction}.
#[local] Existing Instance RestNetwork.interface.
#[local] Existing Instance rest_laws.
Implicit Types (p : Peer RestNetwork).

(** What leaves the node and the store alone. *)
Lemma rest_quiet p p' : consensus p' = consensus p → still (store_of p) (store_of p') → quiet p p'.
Proof.
  intros Hc Hst [Hn Hl Hs Hr]. pose proof (still_grows _ _ Hst) as Hg. split; [split|..].
  - by rewrite Hc.
  - intros i. rewrite Hc, (hi_path _ _ (gr_history _ _ _ Hg)). apply Hl.
  - by apply (gr_history _ _ _ Hg).
  - by eapply grows_readable.
  - unfold peer_committed. by rewrite Hc, app_nil_r.
  - done.
Qed.

(** A turn of the loop; a Raft peer does not synchronize. *)
Lemma handle_event_obeys c ev p :
  overflow_checks = true → consensus_mode c = ModeRaft → leads obeys p (handle_event c ev).
Proof.
  intros OC Hm. destruct ev as [draw now|env draws|now]; unfold handle_event.
  - apply leads_bind; [apply _| |].
    + unfold recv. apply leads_get. destruct (queue _); [by lead|].
      apply leads_bind; [apply _|apply leads_modify; by apply quiet_obeys, rest_quiet|intros; by lead].
    + intros [m|] p1 _; [|by lead]. lead. by apply handle_message_obeys.
  - rewrite Hm. by lead.
  - apply leads_get. destruct (ConsensusEngine.requires_tick _); [|by lead]. lead. by apply handle_tick_obeys.
Qed.
End event.

Section process.
Context {BP : BuildProfile} {P : Platform} {HO : HashOrder} {PM : PathMatch}.
Context `{!Serde PersistedRaftLogState, !Serde (list SignedTransaction), !Serde BlockFile, !SerdeLaws BlockFile}.
Context `{!Serde Transaction, !Serde SignedTransaction}.
Context `{!Serde Message, !Serde BlockStorageState, !Serde PeerState}.
Context `{!Serde RegisterRequest, !Serde PeersResponse}.
#[local] Existing Instance RestNetwork.interface.
#[local] Existing Instance rest_laws.
Context (rejection : HttpResponse) (client : HttpDiscoveryClient) (c : PeerConfig).
Context (OC : overflow_checks = true) (Hmode : consensus_mode c = ModeRaft).
Implicit Types (s : Process) (a : Action).
Abbreviation act := (act (E := Empty_set) rejection client c).
Abbreviation process_step := (process_step rejection client c).

Definition process_obeys s s' : Prop := obeys (main_peer s) (main_peer s').
#[local] Instance process_obeys_preorder : PreOrder process_obeys.
Proof. split; [intros s; unfold process_obeys; reflexivity|]. intros s1 s2 s3. unfold process_obeys. apply transitivity. Qed.

Lemma set_network_obeys n s : process_obeys s (set_network n s).
Proof. by apply quiet_obeys, rest_quiet. Qed.

Lemma same_peer_obeys s s' : main_peer s' = main_peer s → process_obeys s s'.
Proof. unfold process_obeys. by intros ->. Qed.

Lemma set_disk_obeys client_id d s :
  writes_only (test_key_file client_id) (disk_of s) d → process_obeys s (set_disk d s).
Proof.
  intros Hw. apply quiet_obeys, rest_quiet; [done|]. split; [|done]. apply (writes_only_history _ _ _ Hw).
  intros i. destruct client_id; [done..|]. intros [= _ H]. by apply (RuntimeFacts.block_filename_not_key i).
Qed.

Lemma act_obeys a s : leads process_obeys s (act a).
Proof.
  unfold Process.act. apply leads_get. destruct (run_result s); [by lead|].
  destruct a as [transport| |ev|draw key_draw client_id method path body]; (apply leads_bind; [apply _| |intros; by lead]).
  - unfold discovery_tick. apply leads_get. destruct (network_stopped s); [by lead|].
    apply leads_bind; [apply _|apply leads_try, leads_zoom; intros t; apply set_network_obeys|].
    intros [[failed notify]|] s1 _; apply leads_modify; by apply same_peer_obeys.
  - unfold wait_for_peers. apply leads_get. destruct (Readiness.waiting _); [by lead|].
    apply leads_modify. by apply same_peer_obeys.
  - unfold loop_turn. apply leads_get. destruct (Readiness.awake _); [|by lead].
    apply leads_bind; [apply _|apply leads_try|].
    + intros s'. unfold zoom. pose proof (handle_event_obeys c ev (main_peer s) OC Hmode) as Hk. unfold leads in Hk.
      destruct (handle_event c ev (main_peer s)) as [u p'|x p'|]; cbn; [..|done]; intros [= <-]; by apply Hk.
    + intros [|] s1 _; [by lead|]. apply leads_modify. by apply same_peer_obeys.
  - unfold request. apply leads_get. intros s'. unfold zoom.
    pose proof (serve_peer_served (E := Empty_set) rejection draw key_draw client_id (block_keeper (effects (main_peer s)))
      (id (main_peer s)) (consensus_state (main_peer s)) method path body (network_of s, disk_of s)) as Hs.
    unfold leads in Hs. destruct (serve_peer _ _ _ _ _ _ _ _ _ _ _) as [x t|x t|]; cbn in *; [..|done]; intros [= <-];
      (etrans; [apply set_network_obeys|]; by eapply set_disk_obeys, Hs).
Qed.

Lemma steps_obey s s' : rtc process_step s s' → process_obeys s s'.
Proof.
  induction 1 as [|s1 s2 s3 H12 _ IH]; [reflexivity|]. etrans; [|exact IH].
  destruct H12 as [a s1 r s1' Ha|draw key_draw client_id method path body s1 d' _ _ Hw].
  - apply (act_obeys a). by rewrite Ha.
  - by eapply set_disk_obeys.
Qed.
End process.
End RaftProcess.

(** ** Theorems *)

Module RaftStoreTheorems.
Import Process RaftConsensus BlockKeeper KeeperFacts Chain RaftFiles PeerHistory LoopHistory RuntimeFacts Committed Growth RaftPeer RaftProcess.
Section theorems.
Context {BP : BuildProfile} {P : Platform} {HO : HashOrder} {PM : PathMatch}.
Context `{!Serde PersistedRaftLogState, !Serde (list SignedTransaction), !Serde BlockFile, !SerdeLaws BlockFile}.
Context `{!Serde Transaction, !Serde SignedTransaction}.
Context `{!Serde Message, !Serde BlockStorageState, !Serde PeerState}.
Context `{!Serde RegisterRequest, !Serde PeersResponse}.
#[local] Existing Instance RestNetwork.interface.
Context (rejection : HttpResponse) (client : HttpDiscoveryClient) (c : PeerConfig).
Implicit Types (s : Process) (entries : list RaftLogEntry).

(** A Raft peer starts well formed on a log file of consecutive entries (or
    none), and takes for committed what that file says. *)
Lemma started_raft_ok key_draw draw now d s d' entries ci :
  consensus_mode c = ModeRaft →
  RaftLogStore.load_file (FileRaftLogStore_new (peer_dir (pc_peer_id c))) d = Ok (mkRaftLogState entries ci) →
  contiguous entries → (∀ i, (peer_dir (pc_peer_id c), block_filename_for_index i) ∉ read_faults d) →
  run_peer c key_draw draw now d = Ret s d' →
  raft_ok (main_peer s) ∧ (entries = [] → peer_committed (main_peer s) = []).
Proof.
  unfold run_peer. intros Hmode Hload Hent Hread (p & d1 & Hp & [= <- <-])%bind_Ret. cbn [main_peer].
  destruct (start_peer_initial _ _ _ _ _ _ _ Hp) as (Hwf & Hlog & _).
  apply start_peer_Ret in Hp as (s1 & key & engine & Hn & Hk & He & ->). rewrite Hmode in He.
  apply get_or_create_key_writes in Hk as [Hrf Hw].
  assert (Hload' : RaftLogStore.load_file (FileRaftLogStore_new (peer_dir (pc_peer_id c))) d1 = Ok (mkRaftLogState entries ci)).
  { rewrite <-Hload. unfold RaftLogStore.load_file, path_exists, fs_read. cbn. by rewrite Hrf, Hw by intros [= ?]. }
  unfold create_raft_consensus, ConsensusEngine.new_raft_with_storage, new_with_storage, RaftLogStore.load in He.
  cbn in He. rewrite Hload' in He. injection He as <-. split; [split|].
  - eexists. split; [done|]. pose proof (last_log_index_length (new_with_log draw now (pc_peer_id c) entries 0
      (File (FileRaftLogStore_new (peer_dir (pc_peer_id c))))) Hent) as Hlast. unfold last_log_index in Hlast. cbn in Hlast.
    split; cbn; [done|rewrite Hlast; lia|set_solver..|done].
  - done.
  - done.
  - intros i. unfold store_of. cbn. rewrite (new_keeps_path _ _ _ _ Hn), Hrf. apply Hread.
  - intros ->. unfold peer_committed, committed. cbn. by rewrite take_nil.
Qed.

(** C16. What a Raft peer stores is what its node commits: over any run of a
    Raft peer (its tasks in any order, any messages and requests, honest or
    not, failing disks and panicking handlers), the blocks that are added to
    its disk are, from the old height on and in their order, blocks that its
    node has committed in the same run, in the order of the log; nothing else
    is ever added.  (A subsequence, because the commit of a block that is
    missing or that the disk refuses is reported and skipped.) *)
Theorem raft_decides_disk s s' :
  overflow_checks = true → consensus_mode c = ModeRaft → raft_ok (main_peer s) →
  rtc (process_step rejection client c) s s' →
  let store s := store_of (main_peer s) in
  ∃ new l,
    peer_committed (main_peer s') = peer_committed (main_peer s) ++ new ∧ l `sublist_of` new ∧
    block_height (storage_state (store s')) = block_height (storage_state (store s)) + N.of_nat (length l) ∧
    ∀ k h, l !! k = Some h →
      ∃ b, stored (store s') (block_height (storage_state (store s)) + 1 + N.of_nat k) = Ok b ∧ bf_hash b = h.
Proof.
  intros OC Hmode Hs Hsteps store. apply steps_obey in Hsteps; [|done..].
  destruct (Hsteps Hs) as (new & l & [_ Hc [Hh _ Hb]] & Hl). by exists new, l.
Qed.
End theorems.
End RaftStoreTheorems.
