(* ===== verification/Codec.v ===== *)
(** * Codecs: executable serializers with a round-trip law

    A codec writes a value to bytes and reads it back from the front of a byte
    string.  Codecs of the program's types give executable [Serde] instances
    that satisfy [SerdeLaws], on which the examples are evaluated. *)

From S2P Require Import Prelude Platform.

Class Codec (T : Type) : Type := {
  enc : T → bytes;
  dec : bytes → option (T * bytes);
  dec_enc x rest : dec (enc x ++ rest) = Some (x, rest);
}.

(** A codec of [A] read as one of [B]. *)
Section iso.
Context {A B : Type} {C : Codec A}.

Program Definition codec_iso (f : B → A) (g : A → B) (gf : ∀ x, g (f x) = x) : Codec B := {|
  enc x := enc (f x);
  dec b := '(x, rest) ← dec b; Some (g x, rest);
|}.
Next Obligation. intros f g gf x rest. cbn. rewrite dec_enc. cbn. by rewrite gf. Qed.

(** The same when reading back may fail. *)
Program Definition codec_partial (f : B → A) (g : A → option B) (gf : ∀ x, g (f x) = Some x) : Codec B := {|
  enc x := enc (f x);
  dec b := '(x, rest) ← dec b; y ← g x; Some (y, rest);
|}.
Next Obligation. intros f g gf x rest. cbn. rewrite dec_enc. cbn. by rewrite gf. Qed.
End iso.

#[export] Program Instance codec_byte : Codec byte := {|
  enc b := [b];
  dec b := match b with x :: rest => Some (x, rest) | [] => None end;
|}.
Next Obligation. done. Qed.

#[export] Program Instance codec_prod {A B} `{!Codec A, !Codec B} : Codec (A * B) := {|
  enc x := enc x.1 ++ enc x.2;
  dec b := '(x, b) ← dec b; '(y, b) ← dec b; Some ((x, y), b);
|}.
Next Obligation. intros A B CA CB [x y] rest. cbn. rewrite <-app_assoc, dec_enc. cbn. by rewrite dec_enc. Qed.

(** A positive number, bit by bit. *)
Fixpoint enc_pos (p : positive) : bytes :=
  match p with
  | xH => [x02]
  | xO p => x00 :: enc_pos p
  | xI p => x01 :: enc_pos p
  end.
Fixpoint dec_pos (b : bytes) : option (positive * bytes) :=
  match b with
  | x02 :: rest => Some (xH, rest)
  | x00 :: rest => '(p, rest) ← dec_pos rest; Some (xO p, rest)
  | x01 :: rest => '(p, rest) ← dec_pos rest; Some (xI p, rest)
  | _ => None
  end.

#[export] Program Instance codec_pos : Codec positive := {| enc := enc_pos; dec := dec_pos |}.
Next Obligation. intros p rest. induction p as [p IH|p IH|]; cbn; [by rewrite IH..|done]. Qed.

#[export] Instance codec_N : Codec N.
Proof.
  refine (codec_iso N.succ_pos (λ p, N.pred (N.pos p)) _).
  intros n. by rewrite N.succ_pos_spec, N.pred_succ.
Defined.

Fixpoint dec_many {T} `{!Codec T} (n : nat) (b : bytes) : option (list T * bytes) :=
  match n with
  | O => Some ([], b)
  | S n => '(x, b) ← dec b; '(l, b) ← dec_many n b; Some (x :: l, b)
  end.

Lemma dec_many_enc {T} `{!Codec T} (l : list T) rest :
  dec_many (length l) (concat (enc <$> l) ++ rest) = Some (l, rest).
Proof. induction l as [|x l IH]; [done|]. cbn. rewrite <-app_assoc, dec_enc. cbn. by rewrite IH. Qed.

#[export] Program Instance codec_list {T} `{!Codec T} : Codec (list T) := {|
  enc l := enc (N.of_nat (length l)) ++ concat (enc <$> l);
  dec b := '(n, b) ← dec b; dec_many (N.to_nat n) b;
|}.
Next Obligation.
  intros T C l rest. cbn [enc dec]. rewrite <-app_assoc, dec_enc. cbn. by rewrite Nat2N.id, dec_many_enc.
Qed.

#[export] Instance codec_string : Codec string.
Proof.
  refine (codec_iso (λ s, Ascii.N_of_ascii <$> String.list_ascii_of_string s)
                    (λ l, String.string_of_list_ascii (Ascii.ascii_of_N <$> l)) _).
  intros s. rewrite <-list_fmap_compose.
  rewrite (list_fmap_ext _ id) by (intros ???; apply Ascii.ascii_N_embedding).
  by rewrite list_fmap_id, String.string_of_list_ascii_of_string.
Defined.

#[export] Instance codec_vec {n} : Codec (vec byte n).
Proof. exact (codec_partial vec_to_list (to_vec_n n) to_vec_n_to_list). Defined.

(** A tag before the value of a sum. *)
#[export] Instance codec_sum {A B} `{!Codec A, !Codec B} : Codec (A + B).
Proof.
  refine {|
    enc x := match x with inl a => x00 :: enc a | inr b => x01 :: enc b end;
    dec b := match b with
             | x00 :: b => '(a, rest) ← dec b; Some (inl a, rest)
             | x01 :: b => '(b, rest) ← dec b; Some (inr b, rest)
             | _ => None
             end;
  |}.
  intros [x|x] rest; cbn; by rewrite dec_enc.
Defined.

#[export] Instance codec_unit : Codec unit.
Proof. refine {| enc _ := []; dec b := Some (tt, b) |}. by intros []. Defined.

#[export] Instance codec_bool : Codec bool.
Proof.
  refine (codec_iso (A := unit + unit) (λ b, if b : bool then inl tt else inr tt)
    (λ x, match x with inl _ => true | inr _ => false end) _). by intros [].
Defined.

#[export] Instance codec_option {T} `{!Codec T} : Codec (option T).
Proof.
  refine (codec_iso (A := T + unit) (λ o, match o with Some x => inl x | None => inr tt end)
    (λ x, match x with inl x => Some x | inr _ => None end) _). by intros [].
Defined.

(** ** [Serde] from a codec *)

Definition serde_of_codec (T : Type) `{!Codec T} : Serde T := {|
  to_vec := enc;
  from_slice b := match dec b with Some (x, []) => Ok x | _ => Error "invalid encoding" end;
|}.

Lemma serde_of_codec_laws T `{!Codec T} : @SerdeLaws T (serde_of_codec T).
Proof. intros x. cbn. rewrite <-(app_nil_r (enc x)), dec_enc. done. Qed.
