(* ===== verification/Concrete.v ===== *)
(** * A concrete platform, for examples

    Executable stand-ins for the crates of [Platform], simple enough to compute
    with, and the proof that they have the documented properties
    ([PlatformLaws]): a key is a byte, a signature a keyed checksum of two bytes,
    the digest such a checksum, [hex] is the real encoding and the regex the
    real one on ASCII names; the generator's choices are read off the draw.
    Values are serialized by the codecs of Codec.v.  The witnesses of the
    theorems evaluate the program on this platform. *)

From S2P Require Import Prelude Platform Crypto Transactions Storage Messages RaftLogStore Network Codec.

(** stdpp hides the empty map from conversion; the examples compute with it. *)
#[global] Transparent gmap_empty.

(** ** Digests *)

(** A checksum of 16 bits, in two bytes. *)
Definition checksum (b : bytes) : N :=
  foldl (λ a x, (a * 5 + Byte.to_N x + 1) mod 65536) 0 b.
Definition checksum_bytes (n : N) : byte * byte :=
  (default x00 (Byte.of_N (n / 256)), default x00 (Byte.of_N (n mod 256))).

Definition digest (n : N) : vec byte 32 :=
  let '(hi, lo) := checksum_bytes n in hi ::: lo ::: vreplicate 30 x01.

(** ** hex *)

Definition hex_digit (n : N) : Ascii.ascii :=
  Ascii.ascii_of_N (if n <? 10 then 48 + n else 87 + n).

Fixpoint hex (b : bytes) : string :=
  match b with
  | [] => ""
  | x :: b => String (hex_digit (Byte.to_N x / 16)) (String (hex_digit (Byte.to_N x mod 16)) (hex b))
  end.

Definition hex_value (c : Ascii.ascii) : N :=
  let n := Ascii.N_of_ascii c in if n <? 58 then n - 48 else n - 87.

Lemma hex_digits_byte x :
  Byte.of_N (hex_value (hex_digit (Byte.to_N x / 16)) * 16 + hex_value (hex_digit (Byte.to_N x mod 16))) = Some x.
Proof. destruct x; reflexivity. Qed.

#[export] Instance hex_inj : Inj (=) (=) hex.
Proof.
  intros a. induction a as [|x a IH]; intros [|y b]; cbn [hex]; [done..|].
  intros H. injection H as H1 H2 H3. f_equal; [|by apply IH].
  pose proof (hex_digits_byte x) as Hx. rewrite H1, H2, hex_digits_byte in Hx. congruence.
Qed.

(** ** The block name pattern *)

Fixpoint leading_digits (s : string) : string * string :=
  match s with
  | String c rest =>
      if is_ascii_digit c then let '(d, r) := leading_digits rest in (String c d, r) else ("", s)
  | EmptyString => ("", "")
  end.

Definition pattern (s : string) : option string :=
  let '(d, r) := leading_digits s in
  if decide (d ≠ "" ∧ r = ".block") then Some d else None.

Lemma leading_digits_spec s :
  let '(d, r) := leading_digits s in s = d +:+ r ∧ all_digits d = true.
Proof.
  induction s as [|c s IH]; cbn; [done|]. destruct (is_ascii_digit c) eqn:Hc; [|done].
  destruct (leading_digits s) as [d r]. destruct IH as [-> Hd]. split; [done|].
  unfold all_digits in *. cbn. by rewrite Hc, Hd.
Qed.

Lemma leading_digits_app d r :
  all_digits d = true → (∀ c r', r = String c r' → is_ascii_digit c = false) →
  leading_digits (d +:+ r) = (d, r).
Proof.
  intros Hd Hr. induction d as [|c d IH].
  - change ("" +:+ r) with r. destruct r as [|c r]; [done|]. cbn [leading_digits]. by rewrite (Hr c r eq_refl).
  - unfold all_digits in Hd, IH. cbn [String.list_ascii_of_string forallb] in Hd.
    apply andb_true_iff in Hd as [Hc Hd]. specialize (IH Hd).
    change (String c d +:+ r) with (String c (d +:+ r)). cbn [leading_digits]. by rewrite Hc, IH.
Qed.

Lemma pattern_spec s d : pattern s = Some d ↔ (s = d +:+ ".block" ∧ d ≠ "" ∧ all_digits d = true).
Proof.
  unfold pattern. split.
  - pose proof (leading_digits_spec s) as H. destruct (leading_digits s) as [d' r]. destruct H as [-> Hd].
    case_decide as Hc; [|done]. destruct Hc as [Hne ->]. by intros [= <-].
  - intros (-> & Hne & Hd). rewrite leading_digits_app; [by rewrite decide_True|done|].
    by intros c r' [= <- _].
Qed.

(** ** Sorted vectors *)

Fixpoint push (v : list string) (x : string) : list string :=
  match v with
  | [] => [x]
  | y :: v' => if decide (string_le x y) then x :: y :: v' else y :: push v' x
  end.

Lemma push_perm v x : push v x ≡ₚ x :: v.
Proof. induction v as [|y v IH]; cbn; [done|]. case_decide; [done|]. rewrite IH. constructor. Qed.

Lemma push_sorted v x : StronglySorted string_le v → StronglySorted string_le (push v x).
Proof.
  induction 1 as [|y v Hs IH Hy]; cbn; [by repeat constructor|]. case_decide as Hxy.
  - constructor; [by constructor|]. constructor; [done|].
    eapply Forall_impl; [exact Hy|]. intros z Hz. by etrans.
  - constructor; [done|]. rewrite push_perm. constructor; [|done]. by destruct (stdpp.base.total string_le x y).
Qed.

(** ** The platform *)

Module Toy.
Definition sign (sk : byte) (m : bytes) : bytes :=
  let '(hi, lo) := checksum_bytes (checksum (sk :: m)) in [hi; lo].

#[export] Instance platform : Platform := {|
  Signature := bytes;
  VerifyingKey := byte;
  SigningKey := byte;
  verifying_key_from sk := sk;
  ecdsa_sign := sign;
  ecdsa_verify k m s := bool_decide (s = sign k m);
  signature_to_bytes s := s;
  to_sec1_bytes k := [k];
  from_sec1_bytes b := match b with [k] => Some k | _ => None end;
  signing_key_to_bytes k := k :: replicate 31 x00;
  signing_key_from_bytes b := head b;
  signing_key_random draw := default x00 (Byte.of_N (draw mod 256));
  signature_error := "signature error";
  sha256 b := digest (checksum b);
  hex_encode := hex;
  block_pattern := pattern;
  sorted_vec_push := push;
  random_range draw lo hi := lo + draw mod (hi - lo + 1);
  choose_multiple A draw l k := take k l;
  io_error_display e := match e with NotFound => "not found" | OtherIo => "other error" end;
|}.

#[export] Instance platform_laws : PlatformLaws.
Proof.
  split.
  - intros sk m. by apply bool_decide_eq_true.
  - intros a b. done.
  - done.
  - done.
  - done.
  - exact hex_inj.
  - intros s d _. apply pattern_spec.
  - exact push_perm.
  - exact push_sorted.
  - cbn. intros draw lo hi Hle. assert (Hlt : draw mod (hi - lo + 1) < hi - lo + 1) by (apply N.mod_lt; lia).
    set (m := draw mod (hi - lo + 1)) in *. lia.
  - intros A draw l k. apply length_take.
  - intros A draw l k. apply sublist_submseteq, sublist_take.
Qed.

#[export] Instance order : HashOrder := canonical_order.
#[export] Instance order_laws : HashOrderLaws := canonical_order_laws.

(** ** Codecs of the program's types *)

#[export] Instance codec_asset : Codec AssetType.
Proof.
  refine (codec_partial (λ a, match a with BTC => x00 | USDT => x01 end)
    (λ b, match b with x00 => Some BTC | x01 => Some USDT | _ => None end) _). by intros [].
Defined.

#[export] Instance codec_operation : Codec Operation.
Proof.
  refine (codec_partial
    (λ o, match o with AddCoin n a => (x00, ("", (n, a))) | Transactions.Send r n a => (x01, (r, (n, a))) end)
    (λ '(tag, (r, (n, a))), match tag with
       | x00 => Some (AddCoin n a) | x01 => Some (Transactions.Send r n a) | _ => None end) _).
  by intros [].
Defined.

#[export] Instance codec_metadata : Codec Metadata.
Proof.
  refine (codec_iso (A := N * N) (λ m, (timestamp_nanos m, sequence_number m)) (λ '(t, n), mkMetadata t n) _). by intros [].
Defined.

#[export] Instance codec_transaction : Codec Transaction.
Proof.
  refine (codec_iso (A := Operation * Metadata) (λ t, (operation t, metadata t)) (λ '(o, m), mkTransaction o m) _). by intros [].
Defined.

#[export] Instance codec_signed : Codec SignedTransaction.
Proof.
  refine (codec_iso (A := Transaction * (bytes * byte)) (λ t, (transaction t, (signature t : bytes, public_key t : byte)))
    (λ '(t, (s, k)), mkSignedTransaction t s k) _). by intros [].
Defined.

#[export] Instance codec_block : Codec BlockFile.
Proof.
  refine (codec_iso (A := N * (vec byte 32 * (vec byte 32 * list SignedTransaction))) (λ b, (bf_index b, (bf_hash b, (bf_previous_hash b, bf_transactions b))))
    (λ '(i, (h, (p, txs))), mkBlockFile i h p txs) _). by intros [].
Defined.

#[export] Instance codec_entry : Codec RaftLogEntry.
Proof.
  refine (codec_iso (A := N * (N * vec byte 32)) (λ e, (term e, (index e, block_hash e))) (λ '(t, (i, h)), mkRaftLogEntry t i h) _). by intros [].
Defined.

#[export] Instance codec_raft_log : Codec PersistedRaftLogState.
Proof.
  refine (codec_iso (A := list RaftLogEntry * N) (λ s, (persisted_log s, persisted_commit_index s)) (λ '(l, c), mkPersistedRaftLogState l c) _).
  by intros [].
Defined.

#[export] Instance serde_transaction : Serde Transaction := serde_of_codec _.
#[export] Instance serde_signed : Serde SignedTransaction := serde_of_codec _.
#[export] Instance serde_signed_list : Serde (list SignedTransaction) := serde_of_codec _.
#[export] Instance serde_block : Serde BlockFile := serde_of_codec _.
#[export] Instance serde_raft_log : Serde PersistedRaftLogState := serde_of_codec _.

#[export] Instance serde_block_laws : SerdeLaws BlockFile := serde_of_codec_laws _.
#[export] Instance serde_raft_log_laws : SerdeLaws PersistedRaftLogState := serde_of_codec_laws _.
End Toy.

(** The two builds. *)
Definition dev_profile : BuildProfile := true.
Definition release_profile : BuildProfile := false.

(** ** A little world *)

Module World.
Import Toy.
#[export] Existing Instance dev_profile.

Definition key (n : N) : SigningKey := default x00 (Byte.of_N n).

Definition deposit (k seq amount : N) (a : AssetType) : SignedTransaction :=
  SignedTransaction_new (mkTransaction (AddCoin amount a) (mkMetadata 0 seq)) (key k).
Definition transfer (k seq : N) (to amount : N) (a : AssetType) : SignedTransaction :=
  SignedTransaction_new
    (mkTransaction (Transactions.Send (KeyManager.to_string_hex (key to)) amount a) (mkMetadata 0 seq)) (key k).

(** A directory with nothing in it, and a keeper on it. *)
Definition dir : string := "data/peer_1".
Definition empty_disk : Disk := mkDisk {[ dir := ∅ ]} ∅ ∅ ∅.

Definition keeper_of_size (n : nat) : Storage :=
  mkStorage (mkBlockKeeper dir n ∅ ∅ ∅ EMPTY_HASH) (mkBlockStorageState 0 EMPTY_HASH) empty_disk.

(** The state a call that returns leaves, for states built by running calls. *)
Definition after {S E A} (m : M S E A) (s : S) : S := default s (final_state (m s)).
Definition value {S E A} (d : A) (m : M S E A) (s : S) : A := match m s with Ret a _ => a | _ => d end.

(** Conversion unfolds a name for a computed state before the computation. *)
Strategy 10 [after value].

(** Whether it returns, and whether it leaves a state, to be evaluated. *)
Definition returns {S E A} (o : outcome S A E) : bool := match o with Ret _ _ => true | _ => false end.
Definition survives {S E A} (o : outcome S A E) : bool := match o with Panic => false | _ => true end.

Lemma after_Ret {S E A} d (m : M S E A) s : returns (m s) = true → m s = Ret (value d m s) (after m s).
Proof. unfold value, after. by destruct (m s). Qed.
Lemma runs_to {S E A} d (a : A) (m : M S E A) s :
  returns (m s) = true → value d m s = a → m s = Ret a (after m s).
Proof. intros H <-. by apply after_Ret. Qed.
Lemma after_final {S E A} (m : M S E A) s : survives (m s) = true → final_state (m s) = Some (after m s).
Proof. unfold after. by destruct (m s). Qed.

Definition tx1 : SignedTransaction := deposit 1 1 10 BTC.
Definition tx2 : SignedTransaction := deposit 2 1 20 USDT.
Definition tx3 : SignedTransaction := transfer 1 2 3 4 BTC.

(** Blocks on top of the empty chain. *)
Definition block1 : BlockFile := BlockFile.create [tx1] EMPTY_HASH 1.
Definition block1' : BlockFile := BlockFile.create [tx2] EMPTY_HASH 1.
Definition block2 : BlockFile := BlockFile.create [tx3] (bf_hash block1) 2.

(** One block staged, and then committed. *)
Definition store0 : Storage := keeper_of_size 1.
Definition staged1 : Storage := after (BlockKeeper.add_external_block block1) store0.
Definition store1 : Storage := after (BlockKeeper.commit_block (bf_hash block1)) staged1.
End World.
