(* ===== verification/Wire.v ===== *)
(** * What is on the wire, concretely

    A path matcher with axum's documented behaviour on the routes of the
    program, and codecs of the messages that peers, the discovery server and
    clients exchange. *)

From S2P Require Import Prelude Platform Crypto Transactions Storage Messages RaftLogStore Raft Voting Consensus Network Effects PeerNode Server Http Codec Concrete.

(** ** A path matcher *)

Module Matcher.

Fixpoint split_last (s : string) : option (string * string) :=
  match s with
  | EmptyString => None
  | String c s' =>
      match split_last s' with
      | Some (dir, segment) => Some (String c dir, segment)
      | None => if bool_decide (slash = c) then Some (EmptyString, s') else None
      end
  end.

Definition with_parameter (ps : list string) (dir : string) : option string :=
  List.find (λ q, starts_with q (dir +:+ "/{")) ps.

Definition matches (ps : list string) (path : string) : option (string * list string) :=
  if existsb (String.eqb path) ps && negb (has_char brace path) then Some (path, [])
  else '(dir, segment) ← split_last path;
       q ← with_parameter ps dir;
       Some (q, [segment]).
#[export] Instance matcher : PathMatch := matches.

Lemma split_none s : has_char slash s = false → split_last s = None.
Proof.
  induction s as [|c s IH]; cbn; [done|]. intros [Hc Hs]%orb_false_iff. rewrite IH by done. by rewrite Hc.
Qed.

Lemma split_join dir segment :
  has_char slash segment = false → split_last (dir +:+ "/" +:+ segment) = Some (dir, segment).
Proof.
  intros Hs. induction dir as [|c dir IH].
  - change ("" +:+ "/" +:+ segment) with (String slash segment). cbn [split_last]. by rewrite split_none.
  - change (String c dir +:+ "/" +:+ segment) with (String c (dir +:+ "/" +:+ segment)). cbn [split_last].
    by rewrite IH.
Qed.

Lemma starts_with_spec q p : starts_with q p = true ↔ ∃ rest, q = p +:+ rest.
Proof.
  revert q. induction p as [|c p IH]; intros q; cbn.
  - split; [by exists q|done].
  - destruct q as [|d q]; [split; [done|by intros [? ?]]|].
    rewrite andb_true_iff, bool_decide_eq_true, IH. change (String c p +:+ ?r) with (String c (p +:+ r)).
    split; [intros [-> [r ->]]; by exists r|intros [r [= <- ->]]; split; [done|by exists r]].
Qed.

Lemma append_assoc (a b c : string) : (a +:+ b) +:+ c = a +:+ b +:+ c.
Proof. induction a as [|x a IH]; [done|]. change (String x ((a +:+ b) +:+ c) = String x (a +:+ b +:+ c)). by f_equal. Qed.

Lemma existsb_path path ps : existsb (String.eqb path) ps = true ↔ path ∈ ps.
Proof.
  rewrite existsb_exists, list_elem_of_In. split.
  - intros (q & Hq & He%String.eqb_eq). by subst.
  - intros H. exists path. split; [done|]. apply String.eqb_refl.
Qed.

#[export] Instance matcher_laws : PathMatchLaws.
Proof.
  split.
  - intros ps p Hin Hb. unfold match_path, matcher, matches.
    rewrite (proj2 (existsb_path p ps) Hin). by rewrite Hb.
  - intros ps dir name segment Hin Hdir Huniq Hne Hslash Hbrace Hni. unfold match_path, matcher, matches.
    assert (existsb (String.eqb (dir +:+ "/" +:+ segment)) ps = false) as ->.
    { destruct (existsb _ _) eqn:E; [|done]. by apply existsb_path in E. }
    cbn [andb]. rewrite split_join by done. cbn. unfold with_parameter.
    destruct (List.find _ ps) as [q|] eqn:Hq.
    + apply find_some in Hq as [Hq [rest Hr]%starts_with_spec]. apply list_elem_of_In in Hq. subst q.
      rewrite append_assoc in *. by rewrite (Huniq rest Hq).
    + exfalso.
      pose proof (find_none _ _ Hq (dir +:+ "/{" +:+ name) (proj1 (list_elem_of_In _ _) Hin)) as Hf. cbn in Hf.
      assert (starts_with (dir +:+ "/{" +:+ name) (dir +:+ "/{") = true) as Ht; [|congruence].
      apply starts_with_spec. exists name. by rewrite append_assoc.
Qed.
End Matcher.

Module Wire.
Import Toy.

(** ** Codecs of what is on the wire *)

#[export] Instance codec_state : Codec BlockStorageState.
Proof.
  refine (codec_iso (A := N * vec byte 32) (λ s, (block_height s, last_commited_hash s))
    (λ '(h, x), mkBlockStorageState h x) _). by intros [].
Defined.

#[export] Instance codec_addr : Codec SocketAddr.
Proof. refine (codec_iso (A := N * N) (λ a, (ip a, port a)) (λ '(i, p), mkSocketAddr i p) _). by intros []. Defined.

#[export] Instance codec_register : Codec RegisterRequest.
Proof.
  refine (codec_iso (A := N * SocketAddr) (λ r, (rr_peer_id r, rr_addr r)) (λ '(i, a), mkRegisterRequest i a) _).
  by intros [].
Defined.

#[export] Instance codec_peer : Codec PeerWithAddr.
Proof.
  refine (codec_iso (A := N * SocketAddr) (λ r, (pa_peer_id r, pa_addr r)) (λ '(i, a), mkPeerWithAddr i a) _).
  by intros [].
Defined.

#[export] Instance codec_peers : Codec PeersResponse.
Proof. refine (codec_iso (A := list PeerWithAddr) pr_peers mkPeersResponse _). by intros []. Defined.

#[export] Instance codec_role : Codec RaftRole.
Proof.
  refine (codec_partial (λ r, match r with Follower => x00 | Candidate => x01 | Leader => x02 end)
    (λ b, match b with x00 => Some Follower | x01 => Some Candidate | x02 => Some Leader | _ => None end) _).
  by intros [].
Defined.

#[export] Instance codec_raft_state : Codec RaftPublicState.
Proof.
  refine (codec_iso (A := RaftRole * (N * (option N * (N * N))))
    (λ s, (ps_role s, (ps_term s, (ps_leader_id s, (ps_commit_index s, ps_last_log_index s)))))
    (λ '(r, (t, (l, (c, i)))), mkRaftPublicState r t l c i) _). by intros [].
Defined.

#[export] Instance codec_consensus_state : Codec ConsensusState.
Proof.
  refine (codec_iso (A := unit + RaftPublicState) (λ s, match s with StateVoting => inl tt | StateRaft s => inr s end)
    (λ x, match x with inl _ => StateVoting | inr s => StateRaft s end) _). by intros [].
Defined.

#[export] Instance codec_peer_state : Codec PeerState.
Proof.
  refine (codec_iso (A := N * (list N * (BlockStorageState * ConsensusState)))
    (λ s, (ps_peer_id s, (ps_known_peers s, (ps_block s, ps_consensus s))))
    (λ '(i, (k, (b, c))), mkPeerState i k b c) _). by intros [].
Defined.

#[export] Instance codec_verified : Codec VerifiedTransaction.
Proof.
  refine (codec_iso (A := SignedTransaction * (bytes * byte))
    (λ t, (client_tx t, (peer_signature t : bytes, peer_public_key t : byte)))
    (λ '(t, (s, k)), mkVerifiedTransaction t s k) _). by intros [].
Defined.

#[export] Instance codec_replicated : Codec RaftReplicatedBlock.
Proof.
  refine (codec_iso (A := RaftLogEntry * (bytes * (bytes * byte)))
    (λ b, (rb_entry b, (rb_block_file b, (rb_signature b : bytes, rb_public_key b : byte))))
    (λ '(e, (f, (s, k))), mkRaftReplicatedBlock e f s k) _). by intros [].
Defined.

(** The wire form of a message body: one summand per constructor. *)
Definition BodyCode : Type :=
  ((SignedTransaction) +
   ((VerifiedTransaction) +
   ((vec byte 32 * (bytes * (bytes * byte))) +
   ((vec byte 32) +
   ((vec byte 32) +
   ((N * (N * (N * N))) +
   ((N * bool) +
   ((N * (N * (N * (N * (list RaftReplicatedBlock * N))))) +
   (N * (bool * N))))))))))%type.

Definition body_code (b : MessageBody) : BodyCode :=
  match b with
  | ClientTransaction t => inl t
  | Messages.Synchronization t => inr (inl t)
  | BlockProposal h f s k => inr (inr (inl (h, (f, (s : bytes, k : byte)))))
  | BlockReject h => inr (inr (inr (inl h)))
  | BlockApproved h => inr (inr (inr (inr (inl h))))
  | RaftRequestVote t c i l => inr (inr (inr (inr (inr (inl (t, (c, (i, l))))))))
  | RaftRequestVoteResponse t g => inr (inr (inr (inr (inr (inr (inl (t, g)))))))
  | RaftAppendEntries t l p pt es c => inr (inr (inr (inr (inr (inr (inr (inl (t, (l, (p, (pt, (es, c))))))))))))
  | RaftAppendEntriesResponse t ok i => inr (inr (inr (inr (inr (inr (inr (inr (t, (ok, i)))))))))
  end.

Definition body_decode (c : BodyCode) : MessageBody :=
  match c with
  | inl t => ClientTransaction t
  | inr (inl t) => Messages.Synchronization t
  | inr (inr (inl (h, (f, (s, k))))) => BlockProposal h f s k
  | inr (inr (inr (inl h))) => BlockReject h
  | inr (inr (inr (inr (inl h)))) => BlockApproved h
  | inr (inr (inr (inr (inr (inl (t, (c, (i, l)))))))) => RaftRequestVote t c i l
  | inr (inr (inr (inr (inr (inr (inl (t, g))))))) => RaftRequestVoteResponse t g
  | inr (inr (inr (inr (inr (inr (inr (inl (t, (l, (p, (pt, (es, c)))))))))))) => RaftAppendEntries t l p pt es c
  | inr (inr (inr (inr (inr (inr (inr (inr (t, (ok, i))))))))) => RaftAppendEntriesResponse t ok i
  end.

#[export] Instance codec_body : Codec MessageBody.
Proof. refine (codec_iso (A := BodyCode) body_code body_decode _). by intros []. Defined.

#[export] Instance codec_message : Codec Message.
Proof.
  refine (codec_iso (A := N * (N * MessageBody)) (λ m, (from m, (to m, body m))) (λ '(f, (t, b)), mkMessage f t b) _).
  by intros [].
Defined.

#[export] Instance serde_message : Serde Message := serde_of_codec _.
#[export] Instance serde_message_laws : SerdeLaws Message := serde_of_codec_laws _.
#[export] Instance serde_state : Serde BlockStorageState := serde_of_codec _.
#[export] Instance serde_state_laws : SerdeLaws BlockStorageState := serde_of_codec_laws _.
#[export] Instance serde_peer_state : Serde PeerState := serde_of_codec _.
#[export] Instance serde_register : Serde RegisterRequest := serde_of_codec _.
#[export] Instance serde_register_laws : SerdeLaws RegisterRequest := serde_of_codec_laws _.
#[export] Instance serde_peers : Serde PeersResponse := serde_of_codec _.
#[export] Instance serde_peers_laws : SerdeLaws PeersResponse := serde_of_codec_laws _.
End Wire.
