(* ===== verification/LedgerExamples.v ===== *)
(** * The ledger's theorems at concrete inputs *)

From S2P Require Import Prelude Platform Crypto Transactions TransactionsFacts Storage Codec Concrete.

Module LedgerExamples.
Import TransactionProcessor LedgerTheorems Ledger Rollback Toy World.

(** Account 1 after its deposit, and after sending 4 of its 10 to account 2. *)
Definition ledger1 : TransactionProcessor := after (process_transaction tx1) TransactionProcessor_default.
Definition ledger2 : TransactionProcessor := after (process_transaction tx3) ledger1.

Lemma process_transaction_conserves_witness :
  supply BTC ledger2 = supply BTC ledger1 + minted BTC tx3 ∧
  applied_transactions ledger2 = {[ tx_id tx3 ]} ∪ applied_transactions ledger1.
Proof.
  apply (process_transaction_conserves tx3 ledger1 ledger2 BTC);
    [by_compute|by left|computes].
Defined.

(** The same from the other account, which has no money. *)
Definition overdraft : SignedTransaction := transfer 2 7 1 5 BTC.

Lemma process_transaction_decides_witness :
  (accepts overdraft (accounts ledger1) ∧
   process_transaction overdraft ledger1 =
     Ret tt (mkTransactionProcessor (exact_accounts overdraft (accounts ledger1))
               ({[ tx_id overdraft ]} ∪ applied_transactions ledger1))) ∨
  (¬ accepts overdraft (accounts ledger1) ∧ ∃ e, process_transaction overdraft ledger1 = Err e ledger1).
Proof. apply (process_transaction_decides overdraft ledger1); by_compute. Defined.

Lemma rollback_restores_ledger_witness :
  ∃ q, rollback_transactions (E := string) [tx3; tx2] (after (process_all [tx3; tx2]) ledger1) = Ret tt q ∧
       restores ledger1 q.
Proof.
  apply (rollback_restores_ledger [tx3; tx2] ledger1); [| |by left|by_compute| |computes].
  - change (map_Forall (λ _ acc, balance acc < u32_modulus) (accounts ledger1)). by_compute.
  - repeat constructor.
  - apply Forall_forall. by_compute.
Defined.
End LedgerExamples.
