(* ===== verification/StorageExamples.v ===== *)
(** * The block store's theorems at concrete inputs *)

From S2P Require Import Prelude Platform Crypto Transactions Storage KeeperFacts ChainFacts MempoolFacts StorageTheorems Refinement Codec Concrete.

Module StorageExamples.
Import BlockKeeper KeeperFacts Chain Mempool StorageTheorems Refinement Toy World.

(** ** The little world's stores are well formed *)

Lemma keeper_of_size_wf n : storage_wf (keeper_of_size n).
Proof.
  split; cbn; [intros ?? H; by rewrite lookup_empty in H..|by left].
Qed.

Lemma no_faults_read s name : read_faults (disk s) = ∅ → (path_to_blocks (keeper s), name) ∉ read_faults (disk s).
Proof. intros ->. apply not_elem_of_empty. Qed.

Lemma store0_chain : chain_ok store0 ∧ dir_ok store0.
Proof.
  split; [split; [done|intros i H1 H2; cbn in H2; lia]|].
  intros name [b Hb]. vm_compute in Hb. done.
Qed.

Lemma staged1_wf : storage_wf staged1.
Proof. apply (add_external_block_wf block1 store0); [apply keeper_of_size_wf|]. computes. Qed.

Lemma staged1_chain : chain_ok staged1 ∧ dir_ok staged1.
Proof.
  destruct store0_chain as [H1 H2]. split; [|exact H2].
  apply (chain_ok_frame store0); [computes|done|done].
Qed.

Lemma store1_chain : chain_ok store1 ∧ dir_ok store1.
Proof.
  split.
  - split; [computes|]. intros i Hpos Hle. assert (i = 1) as ->.
    { assert (block_height (storage_state store1) = 1) as H1 by computes. lia. }
    exists block1. split; [computes|]. split; [done|]. split; computes.
  - apply (commits_dir_ok staged1 block1); [|apply staged1_chain].
    destruct (commit_block_commits (bf_hash block1) staged1 store1) as (b & Hb & _ & _ & Hc);
      [by_compute|apply staged1_wf|computes|].
    assert (Some b = Some block1) as [= ->] by (rewrite <-Hb; computes). exact Hc.
Qed.

Lemma store1_wf : storage_wf store1.
Proof. apply (commit_block_wf (bf_hash block1) staged1); [apply staged1_wf|computes]. Qed.

Lemma store1_height : block_height (storage_state store1) = 1.
Proof. computes. Qed.

(** ** Witnesses *)

(** Two deposits fill a mempool of two, and the block made of them is
    committed. *)
Definition two_ops : list keeper_op :=
  [OpAddTransaction tx1; OpAddTransaction tx2;
   OpCommitBlock (bf_hash (next_block (keeper_of_size 2) {[ tx_id tx1 := tx1; tx_id tx2 := tx2 ]}))].
Definition after_ops : Storage := default store0 (run_ops two_ops (keeper_of_size 2)).

Lemma keeper_invariant_witness : block_height (storage_state after_ops) = 1 ∧ storage_wf after_ops.
Proof.
  split; [computes|].
  apply (keeper_invariant two_ops (keeper_of_size 2)); [apply keeper_of_size_wf|computes].
Defined.

Lemma add_transaction_spec_witness :
  let s := after (add_transaction (E := string) tx1) (keeper_of_size 2) in
  let m := {[ tx_id tx1 := tx1; tx_id tx2 := tx2 ]} in
  let b := next_block s m in
  add_transaction (E := string) tx2 s = Ret (NewBlockCreated (bf_hash b)) (s <| keeper ::= λ k, staged k m b |>) ∧
  bf_transactions b ≡ₚ (map_to_list m).*2.
Proof.
  intros s m b.
  destruct (add_transaction_spec (E := string) tx2 s) as (H1 & H2 & _).
  - apply (add_transaction_wf (E := string) tx1 (keeper_of_size 2)); [apply keeper_of_size_wf|computes].
  - by_compute.
  - split; [|exact H2]. rewrite H1. computes.
Defined.

Lemma commit_block_durable_witness :
  ∃ b, uncommited_blocks (keeper staged1) !! bf_hash block1 = Some b ∧ bf_hash b = bf_hash block1 ∧
    storage_state store1 = mkBlockStorageState (block_height (storage_state staged1) + 1) (bf_hash block1) ∧
    read_block_by_index store1 (block_height (storage_state store1)) = Ok b ∧
    BlockStorageView.get_block store1 (block_height (storage_state store1)) = Ok b ∧
    uncommited_blocks (keeper store1) !! bf_hash block1 = None ∧
    (∀ i, i ≠ block_height (storage_state store1) → stored store1 i = stored staged1 i).
Proof.
  apply (commit_block_durable (bf_hash block1) staged1 store1);
    [by_compute|apply staged1_wf|intros i; by apply no_faults_read|computes].
Defined.

Lemma commit_block_chain_witness : chain_ok store1 ∧ dir_ok store1.
Proof.
  apply (commit_block_chain (bf_hash block1) staged1 store1);
    [by_compute|apply staged1_wf|by apply no_faults_read| |computes|apply staged1_chain..].
  intros b Hb. assert (Some b = Some block1) as [= ->] by (rewrite <-Hb; computes). by split.
Defined.

(** Two blocks staged on the same tip. *)
Definition siblings : Storage := after (add_external_block block1') staged1.
Definition first : Storage := after (commit_block (bf_hash block1)) siblings.
Definition second : Storage := after (commit_block (bf_hash block1')) first.

Lemma commit_siblings_breaks_chain_witness : chain_ok first ∧ ¬ chain_ok second.
Proof.
  apply (commit_siblings_breaks_chain (bf_hash block1) (bf_hash block1') block1 block1' siblings first second).
  - by_compute.
  - apply (add_external_block_wf block1' staged1); [apply staged1_wf|computes].
  - intros i. by apply no_faults_read.
  - computes.
  - by split.
  - computes.
  - by split.
  - by_compute.
  - by_compute.
  - apply (chain_ok_frame staged1); [computes|done|apply staged1_chain].
  - computes.
  - computes.
Defined.

Lemma store_refines_chain_witness :
  ∃ l', refined_run (keeper_of_size 2) [] two_ops after_ops l' ∧ represents after_ops l' ∧ [] `prefix_of` l' ∧
    ∀ l'', represents after_ops l'' → l'' = l'.
Proof.
  apply (store_refines_chain two_ops (keeper_of_size 2) after_ops []);
    [by_compute|apply keeper_of_size_wf|intros name; by apply no_faults_read|computes|].
  split; [done|done|]. intros i b Hi. by rewrite lookup_nil in Hi.
Defined.

(** A mempool of one: the block is made, staged, rolled back and made again. *)
Lemma rollback_created_block_noop_witness :
  rollback_block (bf_hash (next_block store0 {[ tx_id tx1 := tx1 ]}))
    (after (add_transaction (E := string) tx1) store0) =
  Ret tt (after (add_transaction (E := string) tx1) store0).
Proof.
  apply (rollback_created_block_noop (E := string) tx1 store0);
    [apply keeper_of_size_wf|by_compute|computes].
Defined.
End StorageExamples.
