(* ===== verification/RaftExamples.v ===== *)
(** * The Raft theorems at concrete inputs

    A cluster of three nodes: node 1 times out, is voted for by node 2, becomes
    leader, and commits a block with node 2. *)

From S2P Require Import Prelude Platform Crypto Transactions Storage Messages RaftLogStore Raft RaftFacts RaftInvariant RaftTheorems Cluster Codec Concrete.

Module RaftExamples.
Import RaftConsensus RaftTheorems Cluster Election Toy World.

(** ** Three nodes and a run *)

Definition file_store : AnyRaftLogStore := File (FileRaftLogStore_new dir).
Definition node (id : PeerId) : RaftS :=
  mkRaftS (new_with_log 0 0 id [] 0 file_store) empty_disk.

Definition timeout : N := nanos_of_secs 11.

(** The next state, and the effects. *)
Definition step (ev : raft_event) (s : RaftS) : RaftS := after (run_event ev) s.
Definition effects_of (ev : raft_event) (s : RaftS) : list ConsensusEffect := value [] (run_event ev) s.

Definition election : raft_event := EvTick timeout [2; 3].
Definition vote_of_2 : raft_event := EvRequestVoteResponse 1 2 true.
Definition request_of_1 : raft_event := EvRequestVote 1 1 0 0 1.

Definition candidate1 : RaftS := step election (node 1).
Definition leader1 : RaftS := step vote_of_2 candidate1.
Definition ticked2 : RaftS := step (EvTick 0 [1; 3]) (node 2).
Definition voter2 : RaftS := step request_of_1 ticked2.

(** The leader's no-op entry, and then a block, as it sends them. *)
Definition noop1 : RaftReplicatedBlock := mkRaftReplicatedBlock (noop 1 1) [] (sign (key 1) []) (key 1).
Definition entry_of (i : N) (b : BlockFile) : RaftReplicatedBlock :=
  mkRaftReplicatedBlock (mkRaftLogEntry 1 i (bf_hash b)) (to_vec b) (sign (key 1) (to_vec b)) (key 1).
Definition append1 : AppendEntriesRequest :=
  mkAppendEntriesRequest 1 1 0 0 [noop1; entry_of 2 block1] 1 1 timeout.
Definition follower2 : RaftS := after (handle_append_entries 0 append1) voter2.
Definition effects2 : list ConsensusEffect := value [] (handle_append_entries 0 append1) voter2.

Definition ack2 (i : N) : raft_event := EvAppendEntriesResponse 1 2 true i.
Definition leader2 : RaftS := step (ack2 1) leader1.

(** ** Runs by evaluation *)

(** Bounds on the counters of a closed state. *)
Ltac fits := repeat split; vm_compute; reflexivity.
Lemma step_Ret ev s : returns (run_event ev s) = true → run_event ev s = Ret (effects_of ev s) (step ev s).
Proof. apply after_Ret. Qed.

Lemma run_step s ev evs s' :
  event_fits (raft s) ev → survives (run_event ev s) = true →
  raft_run (step ev s) evs s' → raft_run s (ev :: evs) s'.
Proof. intros Hf Hs. apply run_cons; [done|by apply after_final]. Qed.

(** A run through the listed states. *)
Tactic Notation "via" constr(s) := apply run_step; [fits|computes|
  lazymatch goal with |- raft_run ?t ?evs ?s' => change (raft_run s evs s') end].

Lemma node_wf id : raft_wf (raft (node id)).
Proof. split; cbn; try done; set_solver. Qed.

Lemma leader_run : raft_run (node 1) [election; vote_of_2; ack2 1] leader2.
Proof. via candidate1. via leader1. via leader2. constructor. Qed.
Lemma leader2_wf : raft_wf (raft leader2).
Proof. apply (raft_run_evolves _ _ _ leader_run (node_wf 1)). Qed.

Lemma follower_run : raft_run (node 2) [EvTick 0 [1; 3]; request_of_1] voter2.
Proof. via ticked2. via voter2. constructor. Qed.
Lemma ticked2_wf : raft_wf (raft ticked2).
Proof. apply (raft_run_evolves (node 2) [EvTick 0 [1; 3]] ticked2); [via ticked2; constructor|apply node_wf]. Qed.
Lemma voter2_wf : raft_wf (raft voter2).
Proof. apply (raft_run_evolves _ _ _ follower_run (node_wf 2)). Qed.

(** ** Witnesses *)

Lemma raft_invariant_witness : role (raft leader2) = Leader ∧ raft_wf (raft leader2).
Proof.
  split; [vm_compute; reflexivity|].
  apply (raft_invariant (node 1) [election; vote_of_2; ack2 1] leader2); [apply leader_run|apply node_wf].
Defined.

Definition leader3 : RaftS := step (EvBlockCreated (bf_hash block1)) leader2.

Lemma committed_prefix_stable_witness :
  commit_index (raft leader2) = 1 ∧ length (log (raft leader3)) = 2%nat ∧
  commit_index (raft leader2) ≤ commit_index (raft leader3) ∧
  take (N.to_nat (commit_index (raft leader2))) (log (raft leader3)) =
  take (N.to_nat (commit_index (raft leader2))) (log (raft leader2)).
Proof.
  split; [vm_compute; reflexivity|]. split; [vm_compute; reflexivity|].
  apply (committed_prefix_stable leader2 [EvBlockCreated (bf_hash block1)] leader3); [|apply leader2_wf].
  via leader3. constructor.
Defined.

Definition granted : RaftS := after (request_vote (E := string) 1 1 0 0) ticked2.

Lemma request_vote_spec_witness :
  let s := ticked2 in
  (Granted = Granted ↔ vote_allowed (raft s) 1 1 0 0) ∧
  raft granted = (at_term (raft s) 1) <| voted_for := Some 1 |> ∧ raft_disk granted = raft_disk s.
Proof.
  exact (request_vote_spec (E := string) 1 1 0 0 ticked2 Granted granted
    (runs_to Rejected Granted (request_vote (E := string) 1 1 0 0) ticked2 ltac:(computes) ltac:(computes))).
Defined.

(** Node 2 answers a request of node 1, and a repeated one again. *)
Definition answer : RaftM string (list ConsensusEffect) := on_request_vote 1 1 0 0 1.
Definition granted_once : RaftS := after answer ticked2.
Definition granted_twice : RaftS := after answer granted_once.

Lemma answers s :
  returns (answer s) = true → value [] answer s = [Send 1 (RaftRequestVoteResponse 1 true)] →
  on_request_vote 1 1 0 0 1 s = Ret [Send 1 (RaftRequestVoteResponse 1 true)] (after answer s).
Proof. apply runs_to. Qed.

Lemma one_vote_per_term_witness :
  on_request_vote 1 1 0 0 1 granted_once = Ret [Send 1 (RaftRequestVoteResponse 1 true)] granted_twice ∧
  (1 : PeerId) = 1.
Proof.
  assert (H : on_request_vote 1 1 0 0 1 granted_once = Ret [Send 1 (RaftRequestVoteResponse 1 true)] granted_twice)
    by exact (answers granted_once ltac:(computes) ltac:(computes)).
  split; [exact H|].
  exact (one_vote_per_term 1 1 1 0 0 0 0 1 1 1 1 1 1 ticked2 granted_once [] granted_once granted_twice
    ticked2_wf (answers ticked2 ltac:(computes) ltac:(computes)) (run_nil granted_once) H).
Defined.

(** Accepted: the follower's log is the leader's, and the no-op committed. *)
Lemma append_entries_outcome_witness :
  let es := [noop 1 1; mkRaftLogEntry 1 2 (bf_hash block1)] in
  log (raft follower2) = es ∧ commit_index (raft follower2) = 1 ∧
  ((∃ m, effects2 = [append_entries_response (raft follower2) 1 false m] ∧
        log (raft follower2) = log (raft voter2) ∧ commit_index (raft follower2) = commit_index (raft voter2)) ∨
  (append_accepted (raft voter2) 0 0 es ∧
   log (raft follower2) = merge (log (raft voter2)) es ∧
   commit_index (raft follower2) =
     N.max (commit_index (raft voter2)) (N.min 1 (last_log_index (raft follower2))) ∧
   (∀ e, e ∈ es → ∃ x, lookup_index (log (raft follower2)) (index e) = Some x ∧ term x = term e) ∧
   ∃ effects0, effects2 = effects0 ++
     [append_entries_response (raft follower2) 1 true (0 + N.of_nat (length es))])).
Proof.
  split; [computes|]. split; [computes|].
  assert (H : handle_append_entries 0 append1 voter2 = Ret (effects2) follower2)
    by exact (after_Ret [] (handle_append_entries 0 append1) voter2 ltac:(computes)).
  exact (append_entries_outcome 0 append1 voter2 _ follower2 voter2_wf ltac:(vm_compute; reflexivity) H).
Defined.

(** The block is replicated on node 2, and the leader advances. *)
Definition leader3' : RaftS := mkRaftS ((raft leader3) <| match_indexes ::= <[2 := 2]> |>) (raft_disk leader3).

Lemma match_wf r p m : p ∈ participants r → raft_wf r → raft_wf (r <| match_indexes ::= <[p := m]> |>).
Proof. intros Hp []. split; cbn; try done. rewrite dom_insert. set_solver. Qed.

Lemma leader3'_wf : raft_wf (raft leader3').
Proof.
  apply match_wf; [by_compute|].
  apply (raft_run_evolves leader2 [EvBlockCreated (bf_hash block1)] leader3); [via leader3; constructor|apply leader2_wf].
Qed.

Lemma leader_commit_rule_witness :
  commit_index (raft leader3') = 1 ∧ commit_index (raft (after (advance_commit_index (E := string)) leader3')) = 2 ∧
  ∃ n, final_state (advance_commit_index (E := string) leader3') =
    Some (leader3' <| raft ::= λ r, r <| commit_index := n |> |>) ∧
  ∀ e, may_commit (raft leader3') e → index e ≤ n.
Proof.
  split; [computes|]. split; [computes|].
  destruct (leader_commit_rule (E := string) leader3' leader3'_wf) as (n & H1 & _ & H3). exists n.
  split; [|exact H3]. by rewrite H1.
Defined.

Lemma leader_append_message_witness :
  ∃ prev_term, term_at (raft leader2) 1 = Some prev_term ∧
    append_entries_effect_for (raft leader2) 2 = Some (SendRaftAppendEntries 2 1 1 prev_term [] 1) ∧
    contiguous_after 1 [].
Proof. apply (leader_append_message (raft leader2) 2). apply leader2_wf. Defined.

(** *** The log on disk *)

Lemma node_stored id : stored_ok (node id).
Proof.
  split; [intros f [= <-]; apply not_elem_of_empty|]. exists None. split; [computes|by right].
Qed.

Lemma ticked2_stored : stored_ok ticked2.
Proof.
  split; [intros f Hf; vm_compute in Hf; injection Hf as <-; apply (bool_decide_unpack _); vm_compute; exact I|].
  exists None. split; [computes|by right].
Qed.

Lemma leader1_stored : stored_ok leader1.
Proof.
  split; [intros f Hf; vm_compute in Hf; injection Hf as <-; apply (bool_decide_unpack _); vm_compute; exact I|].
  exists (Some 0). split; [computes|by left].
Qed.

Lemma leader1_wf : raft_wf (raft leader1).
Proof.
  apply (raft_run_evolves (node 1) [election; vote_of_2] leader1); [|apply node_wf].
  via candidate1. via leader1. constructor.
Qed.

Lemma handlers_persist_witness : commit_index (raft leader2) = 1 ∧ stored_ok leader2.
Proof.
  split; [vm_compute; reflexivity|].
  exact (handlers_persist (ack2 1) leader1 _ leader2 leader1_wf ltac:(fits) leader1_stored
    (step_Ret (ack2 1) leader1 ltac:(computes))).
Defined.

Lemma restart_recovers_log_witness :
  ∃ r, new_with_storage 5 0 1 file_store 0 (raft_disk leader1) = Ok r ∧
    raft_wf r ∧ log r = [noop 1 1] ∧ commit_index r = 0.
Proof. apply (restart_recovers_log 5 0 0 leader1); [apply leader1_wf|apply leader1_stored]. Defined.

(** Node 2 votes for node 1, restarts, and votes for node 3. *)
Lemma restart_votes_twice_witness :
  ∃ r, new_with_storage 0 0 2 file_store 0 (raft_disk granted_once) = Ok r ∧
  ∃ s2, on_request_vote 1 3 0 0 3 (mkRaftS r (raft_disk granted_once)) =
        Ret [Send 3 (RaftRequestVoteResponse 1 true)] s2.
Proof.
  exact (restart_votes_twice 0 0 0 1 3 1 0 0 1 3 ticked2 granted_once ticked2_stored ltac:(lia)
    (answers ticked2 ltac:(computes) ltac:(computes))).
Defined.

(** A heartbeat of another leader, with its commit index, commits node 2's own
    uncommitted block. *)
Definition stale : RaftS := after (append_entries (E := string) 0 0 [noop 1 1; mkRaftLogEntry 1 2 (bf_hash block1)] 1) voter2.

Lemma stale_wf : raft_wf (raft stale).
Proof.
  exact (proj1 (append_entries_evolves (E := string) voter2 0 0 [noop 1 1; mkRaftLogEntry 1 2 (bf_hash block1)] 1
    ltac:(vm_compute; reflexivity) stale
    (after_final (append_entries (E := string) 0 0 [noop 1 1; mkRaftLogEntry 1 2 (bf_hash block1)] 1) voter2 ltac:(computes))
    voter2_wf)).
Qed.

Lemma heartbeat_commits_unchecked_suffix_witness :
  let commits := (λ e, CommitBlock (block_hash e)) <$> filter (λ e, is_noop e = false)
                   (drop (N.to_nat (commit_index (raft stale))) (log (raft stale))) in
  commits = [CommitBlock (bf_hash block1)] ∧
  append_entries (E := string) 1 1 [] 2 stale =
    Ret (Some commits)
      (mkRaftS ((raft stale) <| commit_index := N.of_nat (length (log (raft stale))) |>) (raft_disk stale)).
Proof.
  intros commits. split; [computes|].
  exact (heartbeat_commits_unchecked_suffix 1 1 2 stale stale_wf ltac:(vm_compute; reflexivity)
    ltac:(computes) ltac:(vm_compute; discriminate)).
Defined.

(** *** The cluster *)

Definition members : gset PeerId := {[ 1; 2; 3 ]}.
Definition cluster0 : Cluster := mkCluster {[ 1 := node 1; 2 := node 2; 3 := node 3 ]} [].
Definition request (dst : PeerId) : Message := mkMessage 1 dst (RaftRequestVote 1 1 0 0).
Definition reply2 : Message := mkMessage 2 1 (RaftRequestVoteResponse 1 true).
Definition cluster1 : Cluster := mkCluster (<[1 := candidate1]> (nodes cluster0)) ([request 2; request 3] ++ sent cluster0).
Definition cluster1' : Cluster := mkCluster (<[2 := ticked2]> (nodes cluster1)) ([] ++ sent cluster1).
Definition cluster2 : Cluster := mkCluster (<[2 := voter2]> (nodes cluster1')) ([reply2] ++ sent cluster1').
Definition cluster3 : Cluster := mkCluster (<[1 := leader1]> (nodes cluster2)) ([] ++ sent cluster2).

Lemma cluster3_reachable : reachable members cluster3.
Proof.
  exists cluster0. split.
  - split; [done|]. split; [by_compute|]. intros i s Hi.
    assert (i ∈ members) as Hm.
    { assert (dom (nodes cluster0) = members) as <- by by_compute. by apply elem_of_dom_2 in Hi. }
    assert (s = node i) as ->.
    { unfold members in Hm. rewrite !elem_of_union, !elem_of_singleton in Hm.
      destruct Hm as [[-> | ->] | ->]; cbn in Hi; by injection Hi as <-. }
    exists 0, 0, [], 0, file_store. split; [|done]. intros j. by rewrite lookup_nil.
  - apply (rtc_l _ _ cluster1).
    { apply (step_ok _ _ 1 (node 1) election (effects_of election (node 1)) candidate1);
        [computes|apply en_tick; by_compute|fits|exact (step_Ret _ _ ltac:(computes))|].
      repeat constructor; (eexists; split; [|apply snd_broadcast; [by_compute|done]]);
        vm_compute; by left. }
    apply (rtc_l _ _ cluster1').
    { apply (step_ok _ _ 2 (node 2) (EvTick 0 [1; 3]) [] ticked2);
        [computes|apply en_tick; by_compute|fits|computes|constructor]. }
    apply (rtc_l _ _ cluster2).
    { apply (step_ok _ _ 2 ticked2 request_of_1 (effects_of request_of_1 ticked2) voter2);
        [computes| |fits|exact (step_Ret _ _ ltac:(computes))|].
      - apply (en_deliver _ _ _ (request 2)); [by left|done|by apply del_request].
      - repeat constructor. eexists. split; [|apply snd_send]. vm_compute. by left. }
    apply rtc_once.
    apply (step_ok _ _ 1 candidate1 vote_of_2 (effects_of vote_of_2 candidate1) leader1);
      [computes| |fits|exact (step_Ret _ _ ltac:(computes))|constructor].
    apply (en_deliver _ _ _ reply2); [by left|done|by apply del_response].
Qed.

Lemma election_safety_witness : role (raft leader1) = Leader ∧ (1 : PeerId) = 1.
Proof.
  split; [vm_compute; reflexivity|].
  apply (election_safety members cluster3 1 1 leader1 leader1);
    [apply cluster3_reachable|computes|computes|vm_compute; reflexivity|vm_compute; reflexivity|done].
Defined.
End RaftExamples.
