(* ===== verification/ClusterExamples.v ===== *)
(** * Executions of a cluster

    Two schedules, found by following the code, at whose end two nodes have
    committed different entries at one index. *)

From S2P Require Import Prelude Platform Crypto Transactions Storage Messages RaftLogStore Raft RaftFacts RaftInvariant Cluster LogMatching ClusterSafety ClusterRun Codec Concrete.

Module ClusterExamples.
Import RaftConsensus Cluster LogMatching ClusterSafety ClusterRun Toy World.

(** ** Fresh clusters *)

Definition member (id : PeerId) : RaftS :=
  mkRaftS (new_with_log 0 0 id [] 0 (InMemory InMemoryRaftLogStore_new)) empty_disk.
Definition fresh_cluster (ids : list PeerId) : Cluster :=
  mkCluster (list_to_map ((λ id, (id, member id)) <$> ids)) [].

Lemma fresh_cluster_start ids : fresh_start (list_to_set ids) (fresh_cluster ids).
Proof.
  assert (Hn : ∀ i s, nodes (fresh_cluster ids) !! i = Some s → s = member i).
  { cbn. intros i s Hi. apply elem_of_list_to_map_2, list_elem_of_fmap in Hi as (id & [= -> ->] & _). done. }
  split; [split_and!|].
  - done.
  - cbn. rewrite dom_list_to_map_L. f_equal. rewrite <-list_fmap_compose. apply list_fmap_id.
  - intros i s ->%Hn. exists 0, 0, [], 0, (InMemory InMemoryRaftLogStore_new). split; [|done].
    intros j. by rewrite lookup_nil.
  - by intros i s ->%Hn.
Qed.

(** Blocks without transactions, and the payloads of entries. *)
Definition empty_block (n : N) : BlockFile := BlockFile.create [] EMPTY_HASH n.
Definition blocks : list BlockFile := empty_block <$> [1; 2; 3; 4; 5; 6].
Definition payload (e : RaftLogEntry) : bytes :=
  if is_noop e then []
  else from_option to_vec [] (List.find (λ b, bool_decide (bf_hash b = block_hash e)) blocks).
Definition attach (e : RaftLogEntry) : RaftReplicatedBlock :=
  mkRaftReplicatedBlock e (payload e) (sign (key 1) (payload e)) (key 1).

Definition timeout : N := nanos_of_secs 11.
Definition later : N := nanos_of_secs 22.
Definition last : N := nanos_of_secs 28.

(** What a schedule leads to, checked by evaluation. *)
Definition reaches (ids : list PeerId) (schedule : list move) (ok : Cluster → bool) : bool :=
  match run_schedule (list_to_set ids) anything attach schedule (fresh_cluster ids) with
  | Some c => ok c
  | None => false
  end.

Lemma reaches_sound ids schedule ok :
  reaches ids schedule ok = true → ∃ c, reachable_fresh (list_to_set ids) c ∧ ok c = true.
Proof.
  unfold reaches. destruct (run_schedule _ _ _ _ _) as [c|] eqn:Hc; [|done]. intros Hok. exists c. split; [|done].
  eapply where_reachable. exists (fresh_cluster ids). split; [apply fresh_cluster_start|].
  exact (run_schedule_sound _ _ _ anything_sound attach (λ _, eq_refl) _ _ _ Hc).
Qed.

(** The entry a node has committed at an index, and its role and term. *)
Definition committed_entry (c : Cluster) (i : PeerId) (k : N) : option RaftLogEntry :=
  s ← nodes c !! i; if decide (k ≤ commit_index (raft s)) then lookup_index (log (raft s)) k else None.
Definition position (c : Cluster) (i : PeerId) : option (RaftRole * N) :=
  (λ s, (role (raft s), current_term (raft s))) <$> nodes c !! i.

(** Two nodes, in given positions, have committed entries of given terms at
    an index. *)
Definition committed_differently (p1 p2 : RaftRole * N) (k t1 t2 : N) (c : Cluster) : bool :=
  bool_decide (position c 1 = Some p1) && bool_decide (position c 2 = Some p2) &&
  match committed_entry c 1 k, committed_entry c 2 k with
  | Some e1, Some e2 => bool_decide (term e1 = t1) && bool_decide (term e2 = t2)
  | _, _ => false
  end.

Lemma committed_differently_spec p1 p2 k t1 t2 c :
  committed_differently p1 p2 k t1 t2 c = true →
  position c 1 = Some p1 ∧ position c 2 = Some p2 ∧
  ∃ e1 e2, committed_entry c 1 k = Some e1 ∧ committed_entry c 2 k = Some e2 ∧ term e1 = t1 ∧ term e2 = t2.
Proof.
  unfold committed_differently. intros [[H1 H2]%andb_true_iff H]%andb_true_iff.
  apply bool_decide_eq_true in H1. apply bool_decide_eq_true in H2. split_and!; [done|done|].
  destruct (committed_entry c 1 k) as [e1|]; [|done]. destruct (committed_entry c 2 k) as [e2|]; [|done].
  apply andb_true_iff in H as [T1%bool_decide_eq_true T2%bool_decide_eq_true]. eauto 10.
Qed.

(** ** Log matching at an execution

    Leader 1 commits its no-op and a block with node 2, sends both to node 3, and
    tells node 2 at the next heartbeat. *)
Definition three : list PeerId := [1; 2; 3].
Definition replicate_block (n : N) : list move :=
  [Created 1 (bf_hash (empty_block n)); Deliver 1 2 0 timeout; Deliver 2 1 0 0].
Definition elect_1 : list move :=
  [Tick 2 0; Tick 3 0; Tick 1 timeout; Deliver 1 2 0 0; Deliver 2 1 0 0; Deliver 1 2 0 timeout; Deliver 2 1 0 0].
Definition agreed_schedule : list move :=
  elect_1 ++ replicate_block 1 ++ [Deliver 1 3 0 timeout; Tick 1 later; Deliver 1 2 0 later].
Definition agreed : Cluster :=
  default (fresh_cluster three) (run_schedule (list_to_set three) vouches attach agreed_schedule (fresh_cluster three)).
Definition node_of (c : Cluster) (i : PeerId) : RaftS := default (member i) (nodes c !! i).
Definition entry_of (c : Cluster) (i : PeerId) (k : nat) : RaftLogEntry :=
  default (noop 0 0) (log (raft (node_of c i)) !! k).

Lemma agreed_ordered : reachable_vouched (list_to_set three) agreed.
Proof.
  exists (fresh_cluster three). split; [apply fresh_cluster_start|].
  apply (run_schedule_sound _ _ _ vouches_sound attach (λ _, eq_refl) agreed_schedule). unfold agreed.
  assert (H : is_Some (run_schedule (list_to_set three) vouches attach agreed_schedule (fresh_cluster three))) by by_compute.
  by destruct H as [c ->].
Qed.

Lemma agreed_reachable : reachable_fresh (list_to_set three) agreed.
Proof. eapply where_reachable, agreed_ordered. Qed.

Lemma agreed_node i : bool_decide (is_Some (nodes agreed !! i)) = true → nodes agreed !! i = Some (node_of agreed i).
Proof. unfold node_of. by intros [c ->]%bool_decide_eq_true. Qed.

Lemma agreed_entry i k :
  bool_decide (is_Some (log (raft (node_of agreed i)) !! k)) = true →
  log (raft (node_of agreed i)) !! k = Some (entry_of agreed i k).
Proof. unfold entry_of. by intros [e ->]%bool_decide_eq_true. Qed.

Lemma log_matching_witness :
  is_noop (entry_of agreed 2 1) = false ∧
  take 2 (log (raft (node_of agreed 2))) = take 2 (log (raft (node_of agreed 3))).
Proof.
  split; [computes|].
  exact (log_matching (list_to_set three) agreed 2 3 (node_of agreed 2) (node_of agreed 3) 1
    (entry_of agreed 2 1) (entry_of agreed 3 1) agreed_reachable
    (agreed_node 2 ltac:(computes)) (agreed_node 3 ltac:(computes))
    (agreed_entry 2 1 ltac:(computes)) (agreed_entry 3 1 ltac:(computes)) ltac:(by_compute)).
Defined.

(** Both promises at the same execution, in which node 2 has committed the
    block that leader 1 has, and node 3 as well. *)
Lemma leader_completeness_witness :
  commit_index (raft (node_of agreed 2)) = 2 ∧
  take 2 (log (raft (node_of agreed 2))) `prefix_of` log (raft (node_of agreed 1)).
Proof.
  assert (Hc : commit_index (raft (node_of agreed 2)) = 2) by computes. split; [done|].
  change 2%nat with (N.to_nat 2). rewrite <-Hc.
  exact (leader_completeness (list_to_set three) agreed 2 1 (node_of agreed 2) (node_of agreed 1) agreed_ordered
    (agreed_node 2 ltac:(computes)) (agreed_node 1 ltac:(computes)) ltac:(computes) ltac:(by_compute)).
Defined.

Lemma state_machine_safety_witness :
  is_noop (entry_of agreed 2 1) = false ∧
  lookup_index (log (raft (node_of agreed 1))) 2 = lookup_index (log (raft (node_of agreed 2))) 2.
Proof.
  split; [computes|].
  exact (state_machine_safety (list_to_set three) agreed 1 2 (node_of agreed 1) (node_of agreed 2) 2 agreed_ordered
    (agreed_node 1 ltac:(computes)) (agreed_node 2 ltac:(computes)) ltac:(by_compute) ltac:(by_compute)).
Defined.

(** ** A stale rejection

    Leader 1 of term 1 replicates its no-op and a block to node 3 only; a
    heartbeat for the two is delayed.  Leader 2 of term 2 replaces them at
    node 1, which becomes leader of term 3.  Now the heartbeat arrives at
    node 3: it is rejected, as old, with the index at which node 3 still holds
    the entry of term 1, and the answer, in term 3, makes leader 1 believe that
    node 3 holds its own entry of that index.  With one more peer it commits,
    and node 2 is elected without the entry in term 4. *)
Definition five : list PeerId := [1; 2; 3; 4; 5].
Definition term1_to_3 : list move :=
  [Tick 2 0; Tick 3 0; Tick 4 0; Tick 5 0; Tick 1 timeout;
   Deliver 1 2 0 0; Deliver 1 3 0 0; Deliver 2 1 0 0; Deliver 3 1 0 0;
   Deliver 1 3 0 timeout; Deliver 3 1 0 0;
   Created 1 (bf_hash (empty_block 1)); Deliver 1 3 0 timeout; Deliver 3 1 0 0; Tick 1 timeout;
   Tick 2 timeout; Deliver 2 4 0 0; Deliver 2 5 0 0; Deliver 4 2 0 0; Deliver 5 2 0 0; Deliver 2 1 0 timeout;
   Tick 1 later; Deliver 1 2 0 0; Deliver 1 3 0 0; Deliver 1 4 0 0; Deliver 2 1 0 0; Deliver 3 1 0 0;
   Deliver 1 4 0 later].
Definition stale_rejection : list move := [Deliver 1 3 2 later; Deliver 3 1 0 0; Deliver 4 1 0 0].
Definition term4 : list move :=
  [Tick 2 later; Deliver 2 3 0 0; Deliver 2 5 0 0; Deliver 3 2 0 0; Deliver 5 2 0 0;
   Deliver 2 3 0 later; Deliver 2 5 0 later; Deliver 3 2 0 0; Deliver 5 2 0 0].

(** A committed entry can be lost: a reachable state of five nodes, started
    fresh and never restarted, in which two nodes lead, in terms 3 and 4, and
    each has committed, by the majority rule, its own entry at index 2; the
    rejection of a delayed AppendEntries of term 1 was counted as the
    replication of an entry of term 3. *)
Theorem stale_rejection_loses_commit :
  ∃ c : Cluster, reachable_fresh (list_to_set five) c ∧
    position c 1 = Some (Leader, 3) ∧ position c 2 = Some (Leader, 4) ∧
    ∃ e1 e2, committed_entry c 1 2 = Some e1 ∧ committed_entry c 2 2 = Some e2 ∧
      term e1 = 3 ∧ term e2 = 4.
Proof.
  destruct (reaches_sound five (term1_to_3 ++ stale_rejection ++ term4)
    (committed_differently (Leader, 3) (Leader, 4) 2 3 4)) as (c & Hc & Hok); [computes|].
  exists c. split; [done|]. by apply committed_differently_spec.
Qed.

(** ** A heartbeat over a stale suffix

    Leader 1 of term 1 commits five entries with node 2 and appends a sixth
    that reaches nobody.  Node 2, elected by node 3 in term 2, commits its own
    sixth entry.  Its next message to node 1 carries entries 1 to 5, all
    there is room for, and the commit index 6. *)
Definition stale_suffix : list move :=
  elect_1 ++
  ([1; 2; 3; 4] ≫= replicate_block) ++
  [Created 1 (bf_hash (empty_block 5));
   Tick 2 later; Deliver 2 3 0 0; Deliver 3 2 0 0;
   Deliver 2 3 0 later; Deliver 3 2 0 0; Tick 2 later; Deliver 2 3 0 later; Deliver 3 2 0 0;
   Tick 2 last; Deliver 2 1 0 last].

(** C39. A follower commits what its leader replaced: a reachable state of three
    nodes, started fresh and never restarted, in which node 1 follows node 2 in
    term 2 and both have committed index 6, node 1 its own entry of term 1,
    node 2 one of term 2. *)
Theorem heartbeat_diverges :
  ∃ c : Cluster, reachable_fresh (list_to_set three) c ∧
    position c 1 = Some (Follower, 2) ∧ position c 2 = Some (Leader, 2) ∧
    ∃ e1 e2, committed_entry c 1 6 = Some e1 ∧ committed_entry c 2 6 = Some e2 ∧
      term e1 = 1 ∧ term e2 = 2.
Proof.
  destruct (reaches_sound three stale_suffix
    (committed_differently (Follower, 2) (Leader, 2) 6 1 2)) as (c & Hc & Hok); [computes|].
  exists c. split; [done|]. by apply committed_differently_spec.
Qed.
End ClusterExamples.
