(* ===== verification/VotingExamples.v ===== *)
(** * The voting theorems at concrete inputs *)

From S2P Require Import Prelude Platform Transactions Storage Messages Voting VotingTheorems Codec Concrete.

Module VotingExamples.
Import Voting VotingTheorems VotingFacts Toy World.

Definition h1 : BlockHash := bf_hash block1.

Definition three : list (PeerId * bool) := [(1, true); (2, true); (3, true)].
Definition other_three : list (PeerId * bool) := [(4, true); (2, true); (3, true)].

(** The votes of the listed peers, at peer 1 of four. *)
Definition votes_of (l : list (PeerId * bool)) : list vote :=
  (λ '(x, approve), mkVote h1 x approve [2; 3; 4]) <$> l.
Definition round_of (l : list (PeerId * bool)) : Votings := after (run_votes (E := string) 1 (votes_of l)) ∅.
Definition voting_of (l : list (PeerId * bool)) : VotingConsensus :=
  default (new 1 []) (round_of l !! h1).

Lemma run_votes_wf {E} votes : preserves votings_wf (run_votes (E := E) 1 votes).
Proof. induction votes as [|x votes IH]; cbn; preserve; [apply handle_wf|done]. Qed.

Lemma round_of_wf l : votings_wf (round_of l).
Proof.
  unfold round_of, after. destruct (final_state (run_votes 1 (votes_of l) ∅)) as [vs|] eqn:Hr; cbn.
  - eapply (run_votes_wf (E := string)); [|exact Hr]. intros h v Hv. by rewrite lookup_empty in Hv.
  - intros h v Hv. by rewrite lookup_empty in Hv.
Qed.

Lemma voting_of_wf l : voting_wf (voting_of l).
Proof.
  unfold voting_of. destruct (round_of l !! h1) as [v|] eqn:Hv; cbn; [|apply new_wf].
  by eapply round_of_wf.
Qed.

Lemma voting_decides_once_witness :
  (length (decisions h1 [CommitBlock h1; Broadcast (BlockApproved h1)]) ≤ 1)%nat.
Proof.
  apply (voting_decides_once (E := string) 1 (votes_of [(1, true); (2, true); (3, true); (4, false)]) h1 ∅ _
    (round_of [(1, true); (2, true); (3, true); (4, false)])). computes.
Defined.

(** The third approval of four decides. *)
Lemma voting_decision_justified_witness :
  ∃ v', round_of three !! h1 = Some v' ∧
    vote_counted (voting_of [(1, true); (2, true)]) 3 true h1 v' [CommitBlock h1; Broadcast (BlockApproved h1)].
Proof.
  destruct (voting_decision_justified (E := string) 1 [2; 3; 4] h1 3 true (round_of [(1, true); (2, true)])
    [CommitBlock h1; Broadcast (BlockApproved h1)] (round_of three)) as (_ & _ & v' & H1 & _ & H2 & _);
    [apply round_of_wf|computes|].
  assert (Ho : open_round 1 [2; 3; 4] h1 (round_of [(1, true); (2, true)]) = voting_of [(1, true); (2, true)]) by computes.
  rewrite Ho in H2. exists v'. split; [exact H1|]. apply H2. unfold counts. by_compute.
Defined.

(** Peer 1 gets the votes of 1, 2 and 3, peer 4 those of 4, 2 and 3. *)
Definition votes_at (others : list PeerId) (l : list (PeerId * bool)) : list vote :=
  (λ '(x, approve), mkVote h1 x approve others) <$> l.

Definition votes_at_1 : list vote := votes_at [2; 3; 4] three.
Definition votes_at_4 : list vote := votes_at [1; 2; 3] other_three.

Lemma approval_quorums_intersect_witness : (1 + 1 ≤ size (approvers h1 votes_at_1 ∩ approvers h1 votes_at_4))%nat.
Proof.
  apply (approval_quorums_intersect (E := string) ({[ 1; 2; 3; 4 ]} : gset PeerId) 1 1 4 votes_at_1
    votes_at_4 h1 h1
    (value [] (run_votes (E := string) 1 votes_at_1) ∅)
    (value [] (run_votes (E := string) 4 votes_at_4) ∅)
    (after (run_votes (E := string) 1 votes_at_1) ∅)
    (after (run_votes (E := string) 4 votes_at_4) ∅)).
  - computes.
  - apply Forall_forall. by_compute.
  - apply Forall_forall. by_compute.
  - exact (after_Ret [] (run_votes (E := string) 1 votes_at_1) ∅ ltac:(computes)).
  - exact (after_Ret [] (run_votes (E := string) 4 votes_at_4) ∅ ltac:(computes)).
  - by_compute.
  - by_compute.
Defined.

(** Four participants. *)
Lemma valid_proposal_stalls_witness :
  (∃ vs', on_local_block_proposed (E := string) 1 h1 [2; 3; 4] ∅ = Ret [] vs') ∧
  (∃ vs', on_block_proposal_validated (E := string) 1 h1 2 true [2; 3; 4] ∅ = Ret [] vs').
Proof. apply (valid_proposal_stalls (E := string) 1 2 [2; 3; 4] h1 ∅); [by_compute|reflexivity]. Defined.
End VotingExamples.
