(* ===== verification/NodeExamples.v ===== *)
(** * Peers and synchronization at concrete inputs *)

From S2P Require Import Prelude Platform Crypto Transactions TransactionsFacts Storage KeeperFacts ChainFacts StorageTheorems Messages RaftLogStore Raft Voting Consensus Network Effects PeerNode PeerTheorems Synchronization SyncTheorems Replay NetworkTheorems Discovery DiscoveryTheorems Server Runtime History RuntimeTheorems Codec Concrete StorageExamples.

(** ** A voting peer and the peers it synchronizes with *)

Module Node.
Import Toy World.
#[export] Existing Instance RestNetwork.interface.

Definition addr (n : N) : SocketAddr := mkSocketAddr 2130706433 (3000 + n).
Definition net : RestNetwork :=
  mkRestNetwork 1 {[ 2 := addr 2; 3 := addr 3 ]} (mkChannel [] 1000 false) [].

Definition peer_with (s : Storage) : Peer RestNetwork :=
  Peer.new 1 net (ConsensusEngine.new_voting 1) s (key 7).

(** Peer 1 has committed [block1]; peers 2 and 3 also [block2]. *)
Definition peer1 : Peer RestNetwork := peer_with store1.
Definition peer1' : Peer RestNetwork :=
  after (Peer.apply_synchronized_block block2) peer1.

Definition block_of (i : N) : option BlockFile :=
  if decide (i = 1) then Some block1 else if decide (i = 2) then Some block2 else None.
Definition serves (m : NetworkMessage) (id : PeerId) : option (result BlockFile string) :=
  Some match m with
       | GetBlock i => match block_of i with Some b => Ok b | None => Error "not found" end
       | _ => Error "not found"
       end.
Definition reports (m : NetworkMessage) (id : PeerId) : option (result BlockStorageState string) :=
  Some match m with
       | GetLatestBlockState => Ok (state_of_block block2)
       | GetBlockState i => match block_of i with Some b => Ok (state_of_block b) | None => Error "not found" end
       | _ => Error "not found"
       end.
Definition honest_peers : nat → RestMoment := λ _, mkRestMoment net reports serves.
Definition draws : nat → N := λ _, 0.

(** A block that extends the chain of [peer1], but whose hash is not that of
    its contents: a deposit nobody signed. *)
Definition forged_tx : SignedTransaction :=
  mkSignedTransaction (mkTransaction (AddCoin 1000000 BTC) (mkMetadata 0 1)) [] (key 9).
Definition forged : BlockFile := mkBlockFile 2 (bf_hash block1') (bf_hash block1) [forged_tx].
End Node.

Module NodeExamples.
Import KeeperFacts Chain SyncFacts SyncLoop SyncTheorems PeerTheorems NetworkFacts Toy World Node StorageExamples.

Definition synced : Prelude.outcome (Peer RestNetwork) (option SyncState) string :=
  Synchronization.check_and_retrieve_missing_blocks honest_peers draws Peer.apply_synchronized_block 1 peer1.

Lemma peer1_height : peer_height peer1 = 1.
Proof. computes. Qed.
Lemma height_reported : reported_height (honest_peers O) = 2.
Proof. computes. Qed.
Lemma synced_ok : synced = Ret (Some SUCCESS) peer1'.
Proof. computes. Qed.

Lemma sync_reaches_height_witness : synced = Ret (Some SUCCESS) peer1' ∧ peer_height peer1' = 2.
Proof.
  split; [exact synced_ok|].
  pose proof (sync_reaches_height honest_peers draws (E := string) peer1) as H. cbv zeta in H.
  rewrite height_reported, peer1_height in H. fold synced in H. rewrite synced_ok in H.
  apply H; [by_compute|by_compute|apply store1_wf].
Defined.

Lemma peer1_inv : sync_inv (peer_height peer1 + 1) peer1.
Proof.
  split; [done|apply store1_wf|apply store1_chain|]. intros i. apply no_faults_read. computes.
Qed.

Lemma sync_keeps_chain_witness : chain_ok (peer_storage peer1') ∧ storage_wf (peer_storage peer1').
Proof.
  apply (sync_keeps_chain honest_peers draws (E := string) peer1 peer1').
  - rewrite peer1_height. by_compute.
  - rewrite height_reported. by_compute.
  - exact peer1_inv.
  - intros idx b (k & id & Hb). cbn in Hb. unfold RestNetwork.send_and_wait in Hb.
    destruct (rn_known_peers _ !! id); [|done]. cbn in Hb. unfold serves, block_of in Hb.
    repeat case_decide; simplify_eq; computes.
  - rewrite peer1_height. fold synced. by rewrite synced_ok.
Defined.

Definition latest : gmap PeerId BlockStorageState :=
  default ∅ (Synchronization.get_latest_indexes (honest_peers O)).

Lemma fetched_block_agreed_witness :
  ∃ peers agreed source,
    NoDup peers ∧ length peers = Nat.min (length (Network.known_peers (honest_peers 1%nat))) 3 ∧
    (∀ id, id ∈ peers → (∃ st, latest !! id = Some st ∧ 2 ≤ block_height st) ∧
      ∃ answers, request_states (honest_peers 1%nat) (GetBlockState 2) peers = Some answers ∧
        answers !! id = Some (Ok agreed)) ∧
    source ∈ peers ∧ request_block (honest_peers 2%nat) source (GetBlock 2) = Some (Ok block2) ∧ tt = tt.
Proof.
  apply (fetched_block_agreed honest_peers draws 0 2 latest (E := string) tt tt block2).
  computes.
Defined.

(** ** Staging and applying blocks *)

Definition staged2 : PeerEffects RestNetwork :=
  after (PeerEffects.stage_external_block block2) (effects peer1).

Lemma empty_is_Some (m : gmap BlockHash BlockFile) : m = ∅ → ∀ h b, m !! h = Some b → False.
Proof. intros -> h b. by rewrite lookup_empty. Qed.

Lemma nothing_staged : uncommited_blocks (keeper (block_keeper (effects peer1))) = ∅.
Proof. computes. Qed.

(** Among four, a proposal of peer 2 is not decided by its own vote. *)
Definition of_four : Peer RestNetwork :=
  Peer.new 1 (net <| rn_known_peers := {[ 2 := addr 2; 3 := addr 3; 4 := addr 4 ]} |>)
    (ConsensusEngine.new_voting 1) store1 (key 7).
Definition proposed : M (Peer RestNetwork) string unit :=
  Peer.process_block_proposal (bf_hash block2) (to_vec block2) (ecdsa_sign (key 2) (to_vec block2))
    (verifying_key_from (key 2)) 2.
Definition of_four' : Peer RestNetwork := after proposed of_four.
Definition votings_of (p : Peer RestNetwork) : Votings :=
  match consensus p with EngineVoting _ vs => vs | EngineRaft _ => ∅ end.

Lemma own_approval_counted : approved_by 1 (bf_hash block2) (votings_of of_four').
Proof.
  exists (default (Voting.new 1 []) (votings_of of_four' !! bf_hash block2)). split; [computes|by_compute].
Qed.

Lemma nothing_staged_of_four : uncommited_blocks (keeper (block_keeper (effects of_four))) = ∅.
Proof. computes. Qed.

Lemma proposed_block b :
  BlockFile.verify_block_vec (bf_hash block2) (to_vec block2) (ecdsa_sign (key 2) (to_vec block2))
    (verifying_key_from (key 2)) = Ok b → bf_index b < u32_modulus.
Proof.
  assert (Hb : BlockFile.verify_block_vec (bf_hash block2) (to_vec block2) (ecdsa_sign (key 2) (to_vec block2))
    (verifying_key_from (key 2)) = Ok block2) by computes.
  rewrite Hb. intros [= <-]. by_compute.
Qed.

Lemma own_approval_checked_witness :
  ∃ b e, bf_hash b = bf_hash block2 ∧ BlockFile.verify_block b = Ok tt ∧
    PeerEffects.stage_external_block b (effects of_four) = Ret true e.
Proof.
  destruct (own_approval_checked (bf_hash block2) (to_vec block2) (ecdsa_sign (key 2) (to_vec block2))
    (verifying_key_from (key 2)) 2 of_four of_four' 1 ∅ (votings_of of_four')) as (b & e & _ & H1 & H2 & _ & H3 & _);
    [exact proposed_block| |discriminate|reflexivity|computes|computes| |exact own_approval_counted|].
  - intros h b Hb. exfalso. exact (empty_is_Some _ nothing_staged_of_four h b Hb).
  - intros (v & Hv & _). by rewrite lookup_empty in Hv.
  - exists b, e. split; [exact H1|]. split; [exact H2|exact H3].
Defined.

(** The forged block is refused, and its deposit credited. *)
Lemma unverified_block_applied_witness :
  ∃ e1, PeerEffects.apply_synchronized_block forged (effects peer1) =
      Err (verification_error_display InvalidBlockHash) e1 ∧
    block_keeper e1 = block_keeper (effects peer1) ∧
    accounts (transaction_processor e1) !! KeyManager.to_string_hex (key 9) = Some (mkAccount BTC 1000000).
Proof.
  apply (unverified_block_applied forged (effects peer1) InvalidBlockHash forged_tx 1000000 BTC);
    [computes|computes|computes|computes|by_compute|computes].
Defined.

(** The disk refuses the file of the second block. *)
Definition full_disk : Storage :=
  store1 <| disk ::= λ d, d <| write_faults := {[ (dir, block_filename_for_index 2) := WriteDenied ]} |> |>.
Definition peer_full : Peer RestNetwork := peer_with full_disk.
Definition peer_full' : Peer RestNetwork := after (Peer.apply_synchronized_block block2) peer_full.

Lemma failed_write_blocks_resync_witness :
  Peer.apply_synchronized_block block2 peer_full =
    Err ("Failed to write block file: " +:+ io_error_display OtherIo) peer_full' ∧
  ∃ y, Peer.apply_synchronized_block block2 peer_full' = Err y peer_full'.
Proof.
  assert (Hs : Peer.apply_synchronized_block block2 peer_full =
    Err ("Failed to write block file: " +:+ io_error_display OtherIo) peer_full') by computes.
  split; [exact Hs|].
  apply (failed_write_blocks_resync block2 peer_full
    ("Failed to write block file: " +:+ io_error_display OtherIo) peer_full'
    (after (BlockKeeper.add_external_block block2) full_disk)); [by_compute|by_compute|computes|computes|exact Hs].
Defined.
(** ** Replaying what was synchronized *)

(** A peer that starts empty and is handed both blocks: reading its store back
    gives the ledger it has. *)
Definition empty_peer : Peer RestNetwork := peer_with store0.
Definition caught_up : Peer RestNetwork :=
  after (for_each [block1; block2] Peer.apply_synchronized_block) empty_peer.

Lemma store0_replayable : Replay.replayable store0 [].
Proof.
  split; [split; [done|done|]|apply store0_chain|apply keeper_of_size_wf|apply not_elem_of_empty|].
  - intros i b Hb. by rewrite lookup_nil in Hb.
  - intros name. by apply no_faults_read.
Qed.

Lemma replay_restores_ledger_witness :
  read_state (peer_storage caught_up) TransactionProcessor_default =
    Ret tt (transaction_processor (effects caught_up)) ∧
  accounts (transaction_processor (effects caught_up)) ≠ ∅.
Proof.
  pose proof (after_Ret tt (for_each [block1; block2] Peer.apply_synchronized_block) empty_peer ltac:(computes)) as Hrun.
  destruct (Replay.replay_restores_ledger [block1; block2] empty_peer caught_up) as [_ H];
    [exact store0_replayable|computes|exact Hrun|by_compute|].
  pose proof (after_Ret tt (read_state (peer_storage caught_up)) TransactionProcessor_default ltac:(computes)) as Hok.
  split; [|by_compute]. exact (eq_trans Hok (f_equal (Ret _) (H _ Hok))).
Defined.
End NodeExamples.
