(* ===== verification/RuntimeExamples.v ===== *)
(** * The runtime, the servers and the networks at concrete inputs *)

From S2P Require Import Prelude Platform Crypto Transactions Storage BlockNames KeeperFacts ChainFacts StorageTheorems Messages RaftLogStore Raft Voting Consensus Network Effects PeerNode PeerTheorems Synchronization NetworkTheorems Discovery DiscoveryTheorems Server Runtime History RuntimeTheorems Codec Concrete StorageExamples NodeExamples.

Module RuntimeExamples.
Import KeeperFacts Chain RaftFiles StoreHistory PeerHistory Toy World Node StorageExamples.

Definition config (mode : ConsensusMode) : PeerConfig :=
  mkPeerConfig 1 (addr 1) (addr 1) 1000 mode.

(** ** Restarting on the disk of a peer at height 1 *)

Definition restart : M Disk string (Peer RestNetwork) := start_peer 5 0 0 (config ModeRaft).
Definition restarted_disk : Disk := after restart (disk store1).
Definition restarted_peer : Peer RestNetwork := value peer1 restart (disk store1).

Lemma restarted_ok : restart (disk store1) = Ret restarted_peer restarted_disk.
Proof. exact (after_Ret peer1 restart (disk store1) ltac:(computes)). Qed.

Lemma start_peer_recovers_witness :
  storage_state (store_of restarted_peer) = storage_state store1 ∧
  stored (store_of restarted_peer) 1 = stored store1 1 ∧
  transaction_processor (effects restarted_peer) = TransactionProcessor_default.
Proof.
  destruct (RuntimeTheorems.start_peer_recovers 5 0 0 (config ModeRaft) store1 restarted_peer restarted_disk)
    as (H1 & H2 & _ & _ & _ & _ & H3);
    [computes| |apply store1_chain|apply store1_chain|by_compute|exact restarted_ok|].
  - split; [by_compute|]. intros i. apply no_faults_read. computes.
  - split; [exact H1|]. split; [exact (H2 1)|exact H3].
Defined.

(** ** Serving *)

Lemma server_serves_chain_witness :
  ∃ b, Server.get_block store1 1 = Ok b ∧ linked store1 1 b ∧
    Server.get_block_state store1 1 = Ok (mkBlockStorageState 1 (bf_hash b)) ∧
    (1 = block_height (Server.get_latest_storage_state store1) →
     Server.get_block_state store1 1 = Ok (Server.get_latest_storage_state store1)).
Proof. apply (ServerTheorems.server_serves_chain store1 1); [apply store1_chain|by_compute|by_compute]. Defined.

(** ** Keys, ports, peers *)

Lemma signing_key_stable_witness :
  KeyManager.get_or_create_key (E := string) 6 dir restarted_disk = Ret (signing_key (effects restarted_peer)) restarted_disk ∧
  KeyManager.verify_message (verifying_key_from (signing_key (effects restarted_peer)))
    (KeyManager.sign_message (signing_key (effects restarted_peer)) block1) (to_vec block1) = Ok tt.
Proof.
  destruct (KeyManager.signing_key_stable (E := string) 5 dir (disk store1)
    (signing_key (effects restarted_peer)) restarted_disk) as [H1 H2]; [computes|by_compute|].
  split; [exact (H1 6)|exact (H2 BlockFile _ block1)].
Defined.

Definition localhost (s : string) : option N := if decide (s = "127.0.0.1") then Some 2130706433 else None.
Definition no_resolver (host : string) (port : N) : result (list SocketAddr) string := Error "unknown host".
Definition environment (id : string) : gmap string string := {[ PEER_ID_ENV_VAR := id ]}.

(** A peer id that fits 16 bits, whose port does not. *)
Lemma peer_port_witness : from_env localhost no_resolver (environment "65000") = Panic.
Proof.
  rewrite (RuntimeTheorems.peer_port localhost no_resolver (environment "65000") 65000 "65000") with (ip := 2130706433);
    [computes|computes..].
Defined.

Lemma update_peers_spec_witness :
  ∃ n', RestNetwork.update_peers (Ok [mkPeerWithAddr 1 (addr 1); mkPeerWithAddr 4 (addr 4)]) net = Ret tt n' ∧
    rn_known_peers n' !! 2 = None ∧ rn_known_peers n' !! 4 = Some (addr 4).
Proof.
  destruct (NetworkTheorems.update_peers_spec (Ok [mkPeerWithAddr 1 (addr 1); mkPeerWithAddr 4 (addr 4)]) net)
    as (n' & H1 & H2 & _).
  exists n'. split; [exact H1|]. split; [exact (H2 2)|exact (H2 4)].
Defined.

(** Peer 2 registered 30 seconds ago, peer 3 just now. *)
Definition app0 : AppState :=
  mkAppState {[ 2 := (addr 2, 0); 3 := (addr 3, nanos_of_secs 30) ]}.

Lemma get_peers_spec_witness :
  ∃ peers s', Discovery.get_peers (E := Empty_set) (nanos_of_secs 31) app0 = Ret peers s' ∧
    (mkPeerWithAddr 3 (addr 3) ∈ peers) ∧ ¬ (mkPeerWithAddr 2 (addr 2) ∈ peers).
Proof.
  destruct (DiscoveryTheorems.get_peers_spec (nanos_of_secs 31) app0) as (peers & s' & H1 & H2 & _).
  exists peers, s'. split; [exact H1|]. split.
  - apply (proj2 (H2 3 (addr 3))). exists (nanos_of_secs 30). split; [computes|by_compute].
  - intros Hin. apply (proj1 (H2 2 (addr 2))) in Hin. destruct Hin as (t & Ht & Hlt).
    assert (Some (addr 2, 0) = Some (addr 2, t)) as [= <-] by exact Ht. vm_compute in Hlt. discriminate.
Defined.
End RuntimeExamples.
