(* ===== verification/HttpExamples.v ===== *)
(** * The HTTP layer at concrete inputs

    A peer's server that is asked for a block, peers that synchronize over HTTP
    and a discovery server that two peers use. *)

From S2P Require Import Prelude Platform Crypto Transactions TransactionsFacts Storage ChainFacts Messages RaftLogStore Raft Voting Consensus Network Effects PeerNode Synchronization SyncTheorems HonestSync NetworkTheorems Server Discovery DiscoveryTheorems Runtime Http HttpTheorems HttpSync Codec Concrete Wire StorageExamples NodeExamples.

Module HttpExamples.
Import SyncTheorems Continuation Toy World Node Matcher Wire HttpTheorems StorageExamples NodeExamples.
#[local] Existing Instance RestNetwork.interface.

(** ** Witnesses *)

Definition rejected : HttpResponse := mkHttpResponse 400 [].
Definition show (a : SocketAddr) : string := pretty (ip a) +:+ ":" +:+ pretty (port a).
Definition hello : Message := mkMessage 2 1 (BlockReject EMPTY_HASH).

(** A message posted to a peer's server is in its channel. *)
Lemma request_reaches_handler_witness :
  (∀ s, serve (E := string) (Net := RestNetwork) rejected 0 0 Missing store1 1 StateVoting
     (build_request "http://peer" (PeerMessage hello)) "/handle" s =
   peer_answer store1 (PeerMessage hello) s) ∧
  (∀ s, serve (E := string) (Net := RestNetwork) rejected 0 0 Missing store1 1 StateVoting
     (build_request "http://peer" (GetBlock 1)) "/block/1" s =
   peer_answer store1 (GetBlock 1) s).
Proof.
  split; intros s.
  - exact (request_reaches_handler rejected 0 0 Missing store1 1 StateVoting "http://peer" (PeerMessage hello) s I).
  - exact (request_reaches_handler rejected 0 0 Missing store1 1 StateVoting "http://peer" (GetBlock 1) s ltac:(done)).
Defined.

(** The path of a request to a peer. *)
Fixpoint strip (p s : string) : string :=
  match p, s with
  | String _ p, String _ s => strip p s
  | _, _ => s
  end.
Lemma strip_append p s : strip p (p +:+ s) = s.
Proof. induction p as [|c p IH]; [by destruct s|]. exact IH. Qed.

Definition peer2_url : string := http_url show (addr 2).

(** Peer 1 synchronizes with peers 2 and 3, whose servers read the store with
    both blocks. *)
Definition store2 : Storage := peer_storage peer1'.
Definition to_peers (r : HttpRequest) : result Received string :=
  whole_answer (http_server rejected store2 2 StateVoting (net, empty_disk) r (strip peer2_url (rq_url r))).

Lemma peers_reached id a : rn_known_peers net !! id = Some a → reaches show to_peers a store2.
Proof.
  intros Ha. exists rejected, 2, StateVoting, (net, empty_disk). intros m.
  assert (Hs : strip peer2_url (http_url show a +:+ NetworkMessage.path m) = NetworkMessage.path m).
  { change (rn_known_peers net) with ({[2 := addr 2; 3 := addr 3]} : gmap PeerId SocketAddr) in Ha.
    apply lookup_insert_Some in Ha as [[_ <-]|[_ [_ <-]%lookup_singleton_Some]]; reflexivity. }
  unfold to_peers, build_request. cbn [rq_url]. by rewrite Hs.
Qed.

Lemma no_faults_write (d : Disk) path : write_faults d = ∅ → write_faults d !! path = None.
Proof. intros ->. apply lookup_empty. Qed.

Lemma peer1_ready : ready_for peer1 [block2].
Proof.
  split; [by_compute| |apply store1_wf| |by_compute| | |].
  - split_and!; [computes..|exact I].
  - intros b _. assert (Hu : uncommited_blocks (keeper (peer_storage peer1)) = ∅) by computes.
    rewrite Hu. apply lookup_empty.
  - intros i. apply no_faults_write. computes.
  - intros i. apply no_faults_read. computes.
  - intros []; by_compute.
Qed.

Lemma http_sync_succeeds_witness :
  ∃ p', Synchronization.check_and_retrieve_missing_blocks (E := string)
      (λ _, http_moment show to_peers net) draws Peer.apply_synchronized_block 1 peer1 = Ret (Some SUCCESS) p' ∧
    peer_height p' = 2 ∧ BlockStorageView.get_block (peer_storage p') 2 = Ok block2 ∧
    Chain.stored (peer_storage p') 1 = Chain.stored (peer_storage peer1) 1.
Proof.
  destruct (HttpSync.http_sync_succeeds show (λ _, to_peers) draws (E := string) peer1 [block2])
    as (p' & H1 & H2 & H3 & H4).
  - intros He. assert (Hk : rn_known_peers net !! 2 = Some (addr 2)) by computes.
    change (rn_known_peers (network (effects peer1))) with (rn_known_peers net) in He.
    by rewrite He, lookup_empty in Hk.
  - intros k id a Ha. exists store2. split; [exact (peers_reached id a Ha)|]. split.
    + intros j b Hj. destruct j as [|j]; [|destruct j; discriminate]. injection Hj as <-. computes.
    + intros _. computes.
  - exact peer1_ready.
  - exists p'. split_and!; [exact H1|rewrite H2; computes|exact (H3 O block2 eq_refl)|].
    apply H4. by_compute.
Defined.

(** A world with a discovery server and a clock that each request advances by
    a second; peer 2 registered 15 seconds ago and peer 3 a minute ago. *)
Record World' : Type := mkWorld' { w_server : AppState; w_clock : N }.
Definition discovery_url : string := "http://127.0.0.1:3000".
Definition next_second (t : N) : N := t + nanos_of_secs 1.
Definition to_discovery (r : HttpRequest) : M World' string Received := λ w,
  match serve_discovery rejected (w_clock w) (rq_method r) (strip discovery_url (rq_url r)) (rq_body r) (w_server w) with
  | Ret response s => Ret (Whole response) (mkWorld' s (next_second (w_clock w)))
  | Err e s => Err e (mkWorld' s (next_second (w_clock w)))
  | Panic => Panic
  end.
Definition world0 : World' :=
  mkWorld' (mkAppState {[ 2 := (addr 2, nanos_of_secs 45); 3 := (addr 3, 0) ]}) (nanos_of_secs 60).

Lemma check_discovers_witness :
  ∃ n' w', check to_discovery (HttpDiscoveryClient.from_env ∅) (addr 1) 3 true (net, world0) = Ret (O, false) (n', w') ∧
    rn_known_peers n' !! 2 = Some (addr 2) ∧ rn_known_peers n' !! 3 = None ∧
    known_peers (w_server w') !! 1 = Some (addr 1, nanos_of_secs 60).
Proof.
  destruct (check_discovers to_discovery w_server w_clock next_second (HttpDiscoveryClient.from_env ∅) rejected
    (addr 1) 3 true net world0) as (n' & w' & H1 & H2 & H3).
  - intros m w r response s' Hs. exists (mkWorld' s' (next_second (w_clock w))). split; [|done].
    unfold to_discovery. unfold r in *. clear r. unfold build_request in *. cbn [rq_url rq_method rq_body] in *.
    change (discovery_base_url (HttpDiscoveryClient.from_env ∅)) with discovery_url.
    rewrite strip_append. by rewrite Hs.
  - unfold NETWORK_CHECK_TRIES. lia.
  - exists n', w'. split; [exact H1|]. split_and!.
    + apply (proj2 (H2 2 (addr 2))). split; [done|]. exists (nanos_of_secs 45). split; [computes|by_compute].
    + destruct (rn_known_peers n' !! 3) as [a|] eqn:E; [|done]. exfalso.
      apply (proj1 (H2 3 a)) in E as (_ & t & Ht & Hlt). 
      assert (Some (addr 3, 0) = Some (a, t)) as [= <- <-] by exact Ht. vm_compute in Hlt. discriminate.
    + rewrite H3. computes.
Defined.
End HttpExamples.
