(* ===== verification/ProcessExamples.v ===== *)
(** * A running peer at concrete inputs

    Peer 1, at height 1, waits for the first peers, learns of peer 2, gets a
    proposal and a client's transaction over HTTP, handles both, synchronizes
    and serves a block. *)

From S2P Require Import Prelude Platform Crypto Transactions Storage KeeperFacts ChainFacts Messages RaftLogStore Raft Voting Consensus Network Effects PeerNode Synchronization NetworkTheorems Server Discovery Runtime Http Process History RuntimeTheorems ProcessTheorems RaftFacts RaftInvariant RaftCommits RaftStore Codec Concrete Wire StorageExamples NodeExamples RuntimeExamples HttpExamples.

Module ProcessExamples.
Import Process KeeperFacts Chain StoreHistory PeerHistory ProcessFacts Toy World Node Matcher Wire StorageExamples RuntimeExamples HttpExamples.
#[local] Existing Instance RestNetwork.interface.

Definition discovery_client : HttpDiscoveryClient := HttpDiscoveryClient.from_env ∅.

(** The discovery server, at 60 seconds, with peers 1 and 2 registered. *)
Definition registered : AppState :=
  mkAppState {[ 1 := (addr 1, nanos_of_secs 55); 2 := (addr 2, nanos_of_secs 50) ]}.
Definition discovery (r : HttpRequest) : result Received string :=
  match serve_discovery (E := string) rejected (nanos_of_secs 60) (rq_method r) (strip discovery_url (rq_url r)) (rq_body r) registered with
  | Ret response _ => Ok (Whole response)
  | Err e _ => Error e
  | Panic => Error "connection closed"
  end.

Definition proposal : Message :=
  mkMessage 2 1 (BlockProposal (bf_hash block2) (to_vec block2)
    (ecdsa_sign (key 2) (to_vec block2)) (verifying_key_from (key 2))).

Definition wake_up : list Action := [WaitForPeers; DiscoveryTick discovery].
Definition post (path : string) (contents : bytes) : Action := Request 0 0 Missing POST path (Some contents).
Definition take_one : Action := LoopTurn (EvMessage 0 0).
Definition schedule : list Action :=
  wake_up ++
  [post "/handle" (to_vec proposal); post "/transactions" (to_vec tx2); take_one; take_one;
   LoopTurn (EvSyncTick honest_peers draws); LoopTurn (EvConsensusTick 0);
   Request 0 0 Missing GET "/block/2" None].

Definition run (mode : ConsensusMode) (l : list Action) : M Process Empty_set (list HttpResponse) :=
  acts rejected discovery_client (config mode) l.

Definition process1 : Process := mkProcess peer1 0 false Readiness.initial None.
Definition process1' : Process := after (run ModeVoting schedule) process1.

Lemma schedule_ran : run ModeVoting schedule process1 = Ret (value [] (run ModeVoting schedule) process1) process1'.
Proof. exact (after_Ret [] (run ModeVoting schedule) process1 ltac:(computes)). Qed.

(** Both blocks, the proposal and the one made of the transaction, have been
    committed. *)
Lemma peer_history_immutable_witness :
  block_height (storage_state (store_of (main_peer process1'))) = 3 ∧
  stored (store_of (main_peer process1')) 1 = stored (store_of (main_peer process1)) 1.
Proof.
  split; [computes|].
  apply (ProcessTheorems.peer_history_immutable rejected discovery_client (config ModeVoting) process1 process1' 1);
    [reflexivity|intros i; discriminate|exact (acts_steps _ _ _ schedule _ _ _ schedule_ran)|by_compute].
Defined.

(** Restarted on the disk of a peer at height 1 and run on, the peer holds what
    it has to. *)
Definition start : M Disk string Process := run_peer (config ModeVoting) 5 0 0.
Definition started : Process := value process1 start (disk store1).
Definition started' : Process := after (run ModeVoting schedule) started.

Lemma started_ok : start (disk store1) = Ret started (after start (disk store1)).
Proof. exact (after_Ret process1 start (disk store1) ltac:(computes)). Qed.
Lemma started_ran : run ModeVoting schedule started = Ret (value [] (run ModeVoting schedule) started) started'.
Proof. exact (after_Ret [] (run ModeVoting schedule) started ltac:(computes)). Qed.

(** Peers whose answers break off end the run. *)
Definition broken_off : Event := EvSyncTick (λ _, mkRestMoment net (λ _ _, None) (λ _ _, None)) draws.

Lemma broken_off_exit : process_exit rejected discovery_client (config ModeVoting) started' (Panicked broken_off).
Proof. constructor. computes. Qed.

Lemma process_invariant_witness :
  run_result started' = None ∧ (length (queued started') ≤ 1000)%nat ∧ storage_wf (store_of (main_peer started')) ∧
  ProcessTheorems.panic_cause (config ModeVoting) broken_off started'.
Proof.
  destruct (ProcessTheorems.process_invariant rejected discovery_client (config ModeVoting) 5 0 0 (disk store1)
    started (after start (disk store1)) started') as [[H1 _ _ H2 H3 _ _] H4];
    [reflexivity|exact started_ok|exact (acts_steps _ _ _ schedule _ _ _ started_ran)|].
  split_and!; [exact H1|exact H2|exact H3|].
  destruct (H4 _ broken_off_exit) as (ev & Heq & _ & Hcause). injection Heq as <-. exact Hcause.
Defined.

(** With the proposal already in the channel, a message posted next is the
    second one that is handled. *)
Definition posted_one : list Action := wake_up ++ [post "/handle" (to_vec proposal)].
Definition process2 : Process := after (run ModeVoting posted_one) process1.
Definition hello_action : Action := post HANDLE_PEER_MESSAGE_PATH (to_vec hello).
Definition posting : M Process Empty_set (option HttpResponse) :=
  act rejected discovery_client (config ModeVoting) hello_action.
Definition process3 : Process := after posting process2.
Definition rest_of_schedule : list Action := [take_one; post "/transactions" (to_vec tx2); take_one; take_one].
Definition process4 : Process := after (run ModeVoting rest_of_schedule) process3.

Lemma accepted_message_is_handled_witness :
  posting process2 = Ret (Some (mkHttpResponse 200 [])) process3 ∧
  ProcessTheorems.handles rejected discovery_client (config ModeVoting) (Some <$> rest_of_schedule)
    process3 process4 0 proposal ∧
  ProcessTheorems.handles rejected discovery_client (config ModeVoting) (Some <$> rest_of_schedule)
    process3 process4 1 hello.
Proof.
  pose proof (after_Ret None posting process2 ltac:(computes)) as Hpost.
  pose proof (after_Ret [] (run ModeVoting rest_of_schedule) process3 ltac:(computes)) as Hrest.
  destruct (ProcessTheorems.accepted_message_is_handled rejected discovery_client (config ModeVoting) 0 0 Missing hello
    (value None posting process2) process2 process3 (Some <$> rest_of_schedule) process4) as [H1 H2];
    [reflexivity|computes|computes|exact Hpost|exact (acts_trace _ _ _ rest_of_schedule _ _ _ Hrest)|by_compute|].
  assert (Hq : queued process2 = [proposal]) by computes. rewrite Hq in H2.
  split; [by rewrite Hpost, H1|]. split; apply H2; reflexivity.
Defined.

(** A Raft peer, restarted at height 1, learns of peer 2 and is told by it, the
    leader, that the block after it is committed. *)
Definition appended : Message :=
  mkMessage 2 1 (RaftAppendEntries 1 2 0 0
    [mkRaftReplicatedBlock (mkRaftLogEntry 1 1 (bf_hash block2)) (to_vec block2)
       (ecdsa_sign (key 2) (to_vec block2)) (verifying_key_from (key 2))] 1).
Definition raft_schedule : list Action :=
  wake_up ++ [LoopTurn (EvConsensusTick 0); post HANDLE_PEER_MESSAGE_PATH (to_vec appended); take_one].
Definition raft_start : M Disk string Process := run_peer (config ModeRaft) 5 0 0.
Definition raft_process : Process := value process1 raft_start (disk store1).
Definition raft_process' : Process := after (run ModeRaft raft_schedule) raft_process.

Lemma raft_started : raft_start (disk store1) = Ret raft_process (after raft_start (disk store1)).
Proof. exact (after_Ret process1 raft_start (disk store1) ltac:(computes)). Qed.
Lemma raft_ran : run ModeRaft raft_schedule raft_process = Ret (value [] (run ModeRaft raft_schedule) raft_process) raft_process'.
Proof. exact (after_Ret [] (run ModeRaft raft_schedule) raft_process ltac:(computes)). Qed.

Lemma raft_process_ok : RaftPeer.raft_ok (main_peer raft_process) ∧ RaftPeer.peer_committed (main_peer raft_process) = [].
Proof.
  destruct (RaftStoreTheorems.started_raft_ok (config ModeRaft) 5 0 0 (disk store1) raft_process
    (after raft_start (disk store1)) [] None) as [H1 H2]; [done|computes|by intros i e| |exact raft_started|]; [|auto].
  intros i. assert (read_faults (disk store1) = ∅) as -> by computes. apply not_elem_of_empty.
Qed.

(** What was added is what was committed. *)
Lemma one_committed (p p' : Peer RestNetwork) h new l :
  RaftPeer.peer_committed p = [] → RaftPeer.peer_committed p' = [h] →
  block_height (storage_state (store_of p)) = 1 → block_height (storage_state (store_of p')) = 2 →
  RaftPeer.peer_committed p' = RaftPeer.peer_committed p ++ new → l `sublist_of` new →
  block_height (storage_state (store_of p')) = block_height (storage_state (store_of p)) + N.of_nat (length l) →
  (∀ k h, l !! k = Some h →
    ∃ b, stored (store_of p') (block_height (storage_state (store_of p)) + 1 + N.of_nat k) = Ok b ∧ bf_hash b = h) →
  ∃ b, stored (store_of p') 2 = Ok b ∧ bf_hash b = h.
Proof.
  intros -> -> Hh Hh' [= <-] Hl Hlen Hb. rewrite Hh, Hh' in *. destruct l as [|h' l]; [done|].
  assert (h' = h) as ->; [|by apply (Hb 0%nat)].
  inversion Hl as [|? ? ? Hr|? ? ? Hr]; subst; [done|]. by apply sublist_nil_r in Hr.
Qed.

Lemma raft_committed : RaftPeer.peer_committed (main_peer raft_process') = [bf_hash block2].
Proof. by_compute. Qed.

Lemma raft_decides_disk_witness :
  RaftPeer.peer_committed (main_peer raft_process') = [bf_hash block2] ∧
  ∃ b, stored (store_of (main_peer raft_process')) 2 = Ok b ∧ bf_hash b = bf_hash block2.
Proof.
  destruct (RaftStoreTheorems.raft_decides_disk rejected discovery_client (config ModeRaft) raft_process raft_process')
    as (new & l & Hc & Hl & Hh & Hb);
    [reflexivity|reflexivity|exact (proj1 raft_process_ok)|exact (acts_steps _ _ _ raft_schedule _ _ _ raft_ran)|].
  split; [exact raft_committed|].
  exact (one_committed (main_peer raft_process) (main_peer raft_process') (bf_hash block2) new l
    (proj2 raft_process_ok) raft_committed ltac:(computes) ltac:(computes) Hc Hl Hh Hb).
Defined.
End ProcessExamples.
