(* ===== verification/UnitTests.v ===== *)
(** * The repository's unit tests, run on the model

    The test modules inside storage.rs, synchronization.rs, voting.rs,
    rest_network.rs, raft_log_store.rs and peer_runtime.rs, translated like the
    rest of the program: a test runs on the file system, a failed assertion is a
    panic.  Every one of them passes on the model, on the concrete platform of
    Concrete.v.  Tests of the JSON text itself (in messages.rs, and
    [parse_block_state] of storage.rs) are about serde_json, which is a
    parameter, and are left out. *)

From S2P Require Import Prelude Platform Crypto Transactions Storage Messages RaftLogStore Raft Voting Network Synchronization Server Runtime Codec Concrete.

(** ** Assertions and local variables *)

Definition assert_that {S E} (b : bool) : M S E unit := if b then ret tt else panic.
Definition assert_eq {S E A} `{EqDecision A} (a b : A) : M S E unit := assert_that (bool_decide (a = b)).
(** [unwrap] of what a call returns. *)
Definition unwrap_ok {S E F A} (m : M S E A) : M S F A :=
  let* r := try_ m in match r with Ok a => ret a | Error _ => panic end.

(** A local variable [s] that the body changes. *)
Definition with_local {S T E A} (s : S) (body : M S E A) : M T E A := λ t,
  match body s with Ret a _ => Ret a t | Err e _ => Err e t | Panic => Panic end.
(** One that works on the file system of the test. *)
Definition with_disk {S E A} (open : Disk → S) (disk_of : S → Disk) (body : M S E A) : M Disk E A := λ d,
  match body (open d) with Ret a s => Ret a (disk_of s) | Err e s => Err e (disk_of s) | Panic => Panic end.
Definition with_keeper `{Platform} {E A} (s : Storage) : M Storage E A → M Disk E A :=
  with_disk (λ d, s <| disk := d |>) disk.

(** [fs::remove_dir_all]: the directory and what is below it. *)
Definition is_within (base path : string) : bool := String.eqb base path || String.prefix (base +:+ "/") path.
Definition remove_dir_all (base : string) : M Disk IoError unit :=
  let* d := get in
  if decide (base ∈ dir_faults d) then throw OtherIo
  else if existsb (is_within base) (map_to_list (dirs d)).*1
  then modify (λ d, d <| dirs ::= filter (λ kv, is_within base kv.1 = false) |>)
  else throw NotFound.

(** A test passes if it returns. *)
Definition passes {S} (s : S) (test : M S Empty_set unit) : bool :=
  match test s with Ret _ _ => true | _ => false end.

(** ** voting.rs *)

Module VotingTests.
Import Voting.
Section tests.
Context {E : Type}.
Implicit Types (consensus : VotingConsensus).

Definition consensus_of_four : VotingConsensus := new 1 [2; 3; 4].

Definition approves_when_threshold_is_reached : M Disk E unit :=
  with_local consensus_of_four (
    let* o := make_vote 1 true in assert_eq o Pending ;;;
    let* o := make_vote 2 true in assert_eq o Pending ;;;
    let* o := make_vote 3 true in assert_eq o Approved ;;;
    let* consensus := get in assert_eq (outcome consensus) (Some Approved)).

Definition rejects_when_threshold_is_reached : M Disk E unit :=
  with_local consensus_of_four (
    let* o := make_vote 2 false in assert_eq o Rejected ;;;
    let* consensus := get in assert_eq (outcome consensus) (Some Rejected)).

Definition ignores_votes_from_non_participants : M Disk E unit :=
  with_local consensus_of_four (
    let* o := make_vote 99 true in assert_eq o Pending ;;;
    let* consensus := get in assert_eq (outcome consensus) None).

Definition tracks_duplicate_votes_without_changing_state : M Disk E unit :=
  with_local consensus_of_four (
    let* o := make_vote 1 true in assert_eq o Pending ;;;
    let* consensus := get in assert_that (already_voted consensus 1) ;;;
    let* o := make_vote 1 true in assert_eq o Pending ;;;
    let* o := make_vote 2 true in assert_eq o Pending).

Definition returns_final_outcome_after_consensus_is_reached : M Disk E unit :=
  with_local consensus_of_four (
    let* o := make_vote 2 false in assert_eq o Rejected ;;;
    let* o := make_vote 3 true in assert_eq o Rejected).
End tests.

Definition all {E} : list (M Disk E unit) :=
  [approves_when_threshold_is_reached; rejects_when_threshold_is_reached; ignores_votes_from_non_participants;
   tracks_duplicate_votes_without_changing_state; returns_final_outcome_after_consensus_is_reached].
End VotingTests.

(** ** storage.rs *)

Module StorageTests.
Section tests.
Context {BP : BuildProfile} {P : Platform} {HO : HashOrder}.
Context `{!Serde (list SignedTransaction), !Serde BlockFile, !Serde Transaction}.
Context {E : Type}.
(* what the generator draws for the client's key *)
Context (key_draw : N).

Definition setup (path_to_blocks : string) : M Disk E unit :=
  let* _ := try_ (remove_dir_all path_to_blocks) in
  unwrap_ok (create_dir_all path_to_blocks).

Definition create_block_keeper (path_to_blocks : string) (size : nat) : M Disk E Storage :=
  gets (λ d, mkStorage (mkBlockKeeper path_to_blocks size ∅ ∅ ∅ EMPTY_HASH) (mkBlockStorageState 0 EMPTY_HASH) d).

Definition create_test_transaction (client_key : SigningKey) (seq : N) : SignedTransaction :=
  SignedTransaction_new (mkTransaction (AddCoin 10 BTC) (mkMetadata 100 seq)) client_key.

Definition path_to_blocks_of (test_name : string) : string := path_join "target/test/data" test_name.

Definition block_save_test : M Disk E unit :=
  let path := path_to_blocks_of "block_save" in
  setup path ;;;
  let client_key := KeyManager.create_key key_draw in
  let* block_keeper := create_block_keeper path 1 in
  let client_transaction := create_test_transaction client_key 1 in
  with_keeper block_keeper (
    let* status := BlockKeeper.add_transaction client_transaction in
    match status with
    | NewBlockCreated block_hash =>
        unwrap_ok (BlockKeeper.commit_block block_hash) ;;;
        let* s := get in
        let* block_file := unwrap_ok (of_result (BlockFile.read_from_disk_by_index (disk s) (path_to_blocks (keeper s)) 1)) in
        assert_eq (length (bf_transactions block_file)) 1%nat ;;;
        assert_that (bool_decide (client_transaction ∈ bf_transactions block_file)) ;;;
        assert_eq (bf_index block_file) 1 ;;;
        let* found := unwrap_ok (of_result (BlockKeeper.read_block_by_hash s block_hash)) in
        assert_eq (bf_hash found) block_hash
    | AddedToMempool => panic
    end).

Definition block_must_be_created_only_when_mempool_is_full : M Disk E unit :=
  let path := path_to_blocks_of "mempool" in
  setup path ;;;
  let client_key := KeyManager.create_key key_draw in
  let* block_keeper := create_block_keeper path 2 in
  with_keeper block_keeper (
    let* status := BlockKeeper.add_transaction (create_test_transaction client_key 1) in
    match status with AddedToMempool => ret tt | NewBlockCreated _ => panic end ;;;
    let* status := BlockKeeper.add_transaction (create_test_transaction client_key 2) in
    match status with AddedToMempool => panic | NewBlockCreated _ => ret tt end).

Definition missing_block_returns_read_error : M Disk E unit :=
  let path := path_to_blocks_of "missing_block" in
  setup path ;;;
  let* d := get in
  match BlockFile.read_from_disk_by_index d path 99 with
  | Error e => assert_that (String.prefix "Block file not found" e)
  | Ok _ => panic
  end.

Definition corrupt_block_returns_read_error : M Disk E unit :=
  let path := path_to_blocks_of "corrupt_block" in
  setup path ;;;
  unwrap_ok (fs_write (path, block_filename_for_index 1) (String.list_byte_of_string "{")) ;;;
  let* d := get in
  match BlockFile.read_from_disk_by_index d path 1 with
  | Error e => assert_that (String.prefix "Failed to deserialize" e)
  | Ok _ => panic
  end.

Definition all : list (M Disk E unit) :=
  [block_save_test; block_must_be_created_only_when_mempool_is_full; missing_block_returns_read_error;
   corrupt_block_returns_read_error].
End tests.
End StorageTests.

(** ** synchronization.rs *)

Module SynchronizationTests.
Section tests.
Context {BP : BuildProfile} {P : Platform} {HO : HashOrder}.
Context `{!Serde (list SignedTransaction), !Serde BlockFile, !Serde Transaction}.
Context (choose : N → list PeerId → option PeerId) (shape_error : string).
#[local] Instance local_interface : NetworkInterface LocalNetwork := LocalNetwork.interface choose.
#[local] Instance local_answers : RequestInterface LocalNetwork := local_requests choose shape_error.
Context {E : Type}.
(* the draws for the client's key and of the synchronization, and the
   directory counter *)
Context (key_draw : N) (draws : nat → N) (dir_id : N).

Definition bytes_of (b : byte) : BlockHash := vreplicate 32 b.

Definition block_states_match_when_height_and_hash_match : M Disk E unit :=
  assert_that (block_states_match [mkBlockStorageState 1 (bytes_of x01); mkBlockStorageState 1 (bytes_of x01)]).

Definition block_states_do_not_match_when_hash_differs_at_same_height : M Disk E unit :=
  assert_that (negb (block_states_match [mkBlockStorageState 1 (bytes_of x01); mkBlockStorageState 1 (bytes_of x02)])).

Definition create_and_commit_block (client_key : SigningKey) : M Storage E BlockHash :=
  let transaction := SignedTransaction_new (mkTransaction (AddCoin 10 BTC) (mkMetadata 100 1)) client_key in
  let* status := BlockKeeper.add_transaction transaction in
  match status with
  | NewBlockCreated block_hash => unwrap_ok (BlockKeeper.commit_block block_hash) ;;; ret block_hash
  | AddedToMempool => panic
  end.

Definition create_test_dirs : M Disk E (string * string) :=
  let base_dir := path_join "target/test/data/synchronization" (pretty dir_id) in
  let source_dir := path_join base_dir "source" in
  let target_dir := path_join base_dir "target" in
  let* _ := try_ (remove_dir_all base_dir) in
  unwrap_ok (create_dir_all source_dir) ;;;
  unwrap_ok (create_dir_all target_dir) ;;;
  ret (source_dir, target_dir).

(** The closure the synchronization is given. *)
Definition apply_to_target (block_file : BlockFile) : M Storage string unit :=
  let* ok := BlockKeeper.block_can_be_added block_file in
  if negb ok then throw ("block " +:+ hash_display (bf_hash block_file) +:+ " does not extend the local chain")
  else
    map_err verification_error_display (BlockKeeper.add_external_block block_file) ;;;
    BlockKeeper.commit_block (bf_hash block_file).

Definition local_network_retrieves_missing_block : M Disk E unit :=
  let* '(source_dir, target_dir) := create_test_dirs in
  let* d := get in
  let* source_keeper := unwrap (BlockKeeper.new source_dir 1 d) in
  let* target_keeper := unwrap (BlockKeeper.new target_dir 1 d) in
  let client_key := KeyManager.create_key key_draw in
  let* '(block_hash, view) := with_keeper source_keeper (
    let* block_hash := create_and_commit_block client_key in
    let* view := get in
    ret (block_hash, view)) in
  let network := LocalNetwork.add_block_storage_view 2 view (mkLocalNetwork ∅ [] ∅ []) in
  with_keeper target_keeper (
    let* s := get in
    let peer_height := block_height (storage_state s) in
    let* result := Synchronization.check_and_retrieve_missing_blocks (λ _, network) draws
                     apply_to_target peer_height in
    assert_eq result (Some SUCCESS) ;;;
    let* s := get in
    assert_eq (block_height (storage_state s)) 1 ;;;
    assert_eq (last_commited_hash (storage_state s)) block_hash).

Definition all : list (M Disk E unit) :=
  [block_states_match_when_height_and_hash_match; block_states_do_not_match_when_hash_differs_at_same_height;
   local_network_retrieves_missing_block].
End tests.
End SynchronizationTests.

(** ** rest_network.rs *)

Module RestNetworkTests.
Section tests.
Context {P : Platform} {HO : HashOrder} {E : Type}.

(** [FakeDiscoveryClient]: it answers with the peers it was made with. *)
Record FakeDiscoveryClient : Type := mkFakeDiscoveryClient { fake_peers : list PeerWithAddr }.
Definition fake_register (_ : FakeDiscoveryClient) (_ : PeerId) (_ : SocketAddr) : result unit string := Ok tt.
Definition fake_answer (client : FakeDiscoveryClient) : result (list PeerWithAddr) string := Ok (fake_peers client).

(* 127.0.0.1 as a number *)
Definition localhost : N := 2130706433.

Definition update_peers_uses_discovery_client_and_filters_self : M Disk E unit :=
  let client := mkFakeDiscoveryClient
    [mkPeerWithAddr 1 (mkSocketAddr localhost 3001); mkPeerWithAddr 2 (mkSocketAddr localhost 3002)] in
  with_local (RestNetwork.new 1 (mkChannel [] 1 false)) (
    unwrap_ok (RestNetwork.update_peers (fake_answer client)) ;;;
    let* network := get in
    assert_eq (@known_peers _ _ RestNetwork.interface network) [2]).
End tests.

Definition all {P : Platform} {HO : HashOrder} {E} : list (M Disk E unit) :=
  [update_peers_uses_discovery_client_and_filters_self].
End RestNetworkTests.

(** ** raft_log_store.rs *)

Module RaftLogStoreTests.
Section tests.
Context {P : Platform} `{!Serde PersistedRaftLogState} {E : Type}.
Context (temp_dir : string) (process_id : N).

Definition saves_and_loads_raft_log_entries : M Disk E unit :=
  let dir := path_join temp_dir ("rustchain_raft_log_store_" +:+ pretty process_id) in
  let* _ := try_ (remove_dir_all dir) in
  let store := FileRaftLogStore_new dir in
  let log := [mkRaftLogEntry 2 1 (vreplicate 32 x07)] in
  unwrap_ok (RaftLogStore.save_file store log 1) ;;;
  let* d := get in
  let* loaded := unwrap_ok (of_result (RaftLogStore.load_file store d)) in
  assert_eq (rls_log loaded) log ;;;
  let* loaded := unwrap_ok (of_result (RaftLogStore.load_file store d)) in
  assert_eq (rls_commit_index loaded) (Some 1) ;;;
  unwrap_ok (remove_dir_all dir).

Definition in_memory_store_saves_and_loads_raft_log_entries : M Disk E unit :=
  let log := [mkRaftLogEntry 3 2 (vreplicate 32 x08)] in
  let* store := unwrap_ok (RaftLogStore.save (InMemory InMemoryRaftLogStore_new) log 1) in
  let* d := get in
  let* loaded := unwrap_ok (of_result (RaftLogStore.load store d)) in
  assert_eq (rls_log loaded) log ;;;
  let* loaded := unwrap_ok (of_result (RaftLogStore.load store d)) in
  assert_eq (rls_commit_index loaded) (Some 1).

Definition all : list (M Disk E unit) :=
  [saves_and_loads_raft_log_entries; in_memory_store_saves_and_loads_raft_log_entries].
End tests.
End RaftLogStoreTests.

(** ** peer_runtime.rs *)

Module RuntimeTests.
Section tests.
Context {E : Type}.

Definition parses_consensus_mode : M Disk E unit :=
  assert_eq (ConsensusMode_from_str "voting") (Ok ModeVoting) ;;;
  assert_eq (ConsensusMode_from_str "raft") (Ok ModeRaft) ;;;
  assert_eq (ConsensusMode_from_str "RAFT") (Ok ModeRaft).

Definition rejects_unknown_consensus_mode : M Disk E unit :=
  assert_that (negb (is_ok (ConsensusMode_from_str "pow"))).
End tests.

Definition all {E} : list (M Disk E unit) := [parses_consensus_mode; rejects_unknown_consensus_mode].
End RuntimeTests.

(** ** They pass

    Each on a file system in which earlier runs have left files or not. *)

Module UnitTests.
Import Toy World.

Definition fresh : Disk := mkDisk ∅ ∅ ∅ ∅.
Definition left_over : Disk := fresh <| dirs := {[
  "target/test/data/missing_block" := {[ "00099.block" := [x01] ]};
  "target/test/data/block_save" := {[ "00001.block" := [] ]};
  "target/test/data/synchronization/0/target" := {[ "00007.block" := to_vec block1 ]};
  "/tmp/rustchain_raft_log_store_42" := {[ "other" := [] ]} ]} |>.

Definition unit_tests : list (M Disk Empty_set unit) :=
  VotingTests.all ++ StorageTests.all 1 ++
  SynchronizationTests.all (λ _, head) "invalid type" 1 (λ _, 0) 0 ++
  RestNetworkTests.all ++ RaftLogStoreTests.all "/tmp" 42 ++ RuntimeTests.all.

Lemma unit_tests_pass : forallb (passes fresh) unit_tests && forallb (passes left_over) unit_tests = true.
Proof. computes. Qed.
End UnitTests.
