(* ===== verification/RaftTests.v ===== *)
(** * The repository's Raft tests, run on the model

    peer/consensus/raft/tests.rs, one definition per test, as in UnitTests.v.
    The generator's draw and the clock's reading are arguments; the tests are
    run for several draws, the extreme election timeouts among them. *)

From S2P Require Import Prelude Platform Crypto Transactions Storage Messages RaftLogStore Raft Codec Concrete UnitTests.

Module RaftTests.
Import RaftConsensus.
Section tests.
Context {BP : BuildProfile} {P : Platform} {HO : HashOrder}.
Context `{!Serde PersistedRaftLogState, !Serde (list SignedTransaction), !Serde BlockFile}.
Context {E : Type}.
Context (draw now : N).
Implicit Types (consensus : RaftConsensus).

Definition secs (n : N) : N := nanos_of_secs n.
Definition state_of {F} : M RaftS F RaftConsensus := gets raft.

(** [let mut consensus = RaftConsensus::new(PeerId::from(1))] *)
Definition with_new (body : M RaftS E unit) : M Disk E unit :=
  let* d := get in
  let* consensus := unwrap (new draw now 1 d) in
  with_disk (mkRaftS consensus) raft_disk body.

(** [let mut consensus = create_consensus(now)] *)
Definition create_consensus (body : M RaftS E unit) : M Disk E unit :=
  with_new (
    update_participants [2; 3] ;;;
    let* _ := receive_append_entries_at draw 0 2 2 now in
    body).

Definition hash (value : byte) : BlockHash := vreplicate 32 value.

(** The index fits a byte. *)
Definition log_entry_of (i t : N) : RaftLogEntry :=
  mkRaftLogEntry t i (hash (default x00 (Byte.of_N i))).

Definition starts_election_as_candidate_and_votes_for_self : M Disk E unit :=
  with_new (
    update_participants [2; 3] ;;;
    let* _ := start_election_at now in
    let* consensus := state_of in
    assert_eq (current_term consensus) 1 ;;;
    assert_eq (role consensus) Candidate ;;;
    assert_eq (voted_for consensus) (Some 1) ;;;
    assert_eq (leader_id consensus) None).

Definition past_timeout (t : N) : N :=
  t + DEFAULT_ELECTION_TIMEOUT + DEFAULT_ELECTION_TIMEOUT_JITTER + secs 1.

Definition election_request_includes_candidates_last_log_metadata : M Disk E unit :=
  with_new (
    update_participants [2; 3] ;;;
    update (λ r, r <| log := [log_entry_of 1 1; log_entry_of 2 3] |>) ;;;
    let* consensus := state_of in
    let election_at := past_timeout (last_heartbeat_received_at consensus) in
    let* effects := unwrap_ok (on_tick election_at [2; 3]) in
    assert_eq effects [Broadcast (RaftRequestVote 1 1 2 3)]).

Definition becomes_leader_after_majority_vote : M Disk E unit :=
  with_new (
    update_participants [2; 3] ;;;
    let* _ := start_election_at now in
    let* _ := receive_vote 1 2 true in
    let* consensus := state_of in
    assert_eq (role consensus) Leader ;;;
    assert_eq (leader_id consensus) (Some 1)).

Definition grants_one_vote_per_term : M Disk E unit :=
  with_new (
    update_participants [2; 3] ;;;
    let* response := request_vote 1 2 0 0 in assert_eq response Granted ;;;
    let* response := request_vote 1 3 0 0 in assert_eq response Rejected ;;;
    let* consensus := state_of in
    assert_eq (voted_for consensus) (Some 2)).

Definition rejects_stale_term_vote_requests : M Disk E unit :=
  with_new (
    update_participants [2; 3] ;;;
    let* _ := request_vote 2 2 0 0 in
    let* response := request_vote 1 3 0 0 in assert_eq response Rejected ;;;
    let* consensus := state_of in
    assert_eq (current_term consensus) 2).

Definition rejects_candidate_with_older_last_log_term : M Disk E unit :=
  with_new (
    update (λ r, r <| log := [log_entry_of 1 2] |>) ;;;
    let* response := request_vote 3 2 10 1 in assert_eq response Rejected ;;;
    let* consensus := state_of in
    assert_eq (voted_for consensus) None).

Definition rejects_candidate_with_shorter_log_in_same_last_term : M Disk E unit :=
  with_new (
    update (λ r, r <| log := [log_entry_of 1 2; log_entry_of 2 2] |>) ;;;
    let* response := request_vote 3 2 1 2 in assert_eq response Rejected ;;;
    let* consensus := state_of in
    assert_eq (voted_for consensus) None).

Definition grants_vote_to_candidate_with_newer_last_log_term : M Disk E unit :=
  with_new (
    update (λ r, r <| log := [log_entry_of 1 1; log_entry_of 2 1] |>) ;;;
    let* response := request_vote 3 2 1 2 in assert_eq response Granted ;;;
    let* consensus := state_of in
    assert_eq (voted_for consensus) (Some 2)).

Definition stale_candidate_in_newer_term_steps_node_down_but_is_rejected : M Disk E unit :=
  with_new (
    update (λ r, r <| log := [log_entry_of 1 1] |>) ;;;
    let* _ := start_election_at now in
    let* response := request_vote 2 2 1 0 in assert_eq response Rejected ;;;
    let* consensus := state_of in
    assert_eq (current_term consensus) 2 ;;;
    assert_eq (role consensus) Follower ;;;
    assert_eq (voted_for consensus) None).

Definition newer_term_steps_candidate_down : M Disk E unit :=
  with_new (
    update_participants [2; 3] ;;;
    let* _ := start_election_at now in
    let* _ := receive_vote 2 2 true in
    let* consensus := state_of in
    assert_eq (current_term consensus) 2 ;;;
    assert_eq (role consensus) Follower ;;;
    assert_eq (voted_for consensus) None ;;;
    assert_eq (leader_id consensus) None).

(** [assert!(consensus.receive_append_entries_at(..))] and its negation. *)
Definition accepts (t : N) (leader sender : PeerId) (at_ : N) : M RaftS E unit :=
  let* accepted := receive_append_entries_at draw t leader sender at_ in assert_that accepted.
Definition rejects (t : N) (leader sender : PeerId) (at_ : N) : M RaftS E unit :=
  let* accepted := receive_append_entries_at draw t leader sender at_ in assert_that (negb accepted).

Definition append_entries_records_current_leader : M Disk E unit :=
  create_consensus (
    accepts 1 2 2 now ;;;
    let* consensus := state_of in
    assert_eq (current_term consensus) 1 ;;;
    assert_eq (role consensus) Follower ;;;
    assert_eq (leader_id consensus) (Some 2)).

Definition append_entries_rejects_impersonated_leader : M Disk E unit :=
  create_consensus (
    rejects 1 2 3 now ;;;
    let* consensus := state_of in
    assert_eq (leader_id consensus) (Some 2)).

Definition append_entries_rejects_non_participant_leader : M Disk E unit :=
  create_consensus (
    rejects 1 99 99 now ;;;
    let* consensus := state_of in
    assert_eq (leader_id consensus) (Some 2)).

Definition append_entries_rejects_different_leader_before_timeout : M Disk E unit :=
  create_consensus (
    accepts 1 2 2 now ;;;
    rejects 1 3 3 (now + DEFAULT_ELECTION_TIMEOUT - secs 1) ;;;
    let* consensus := state_of in
    assert_eq (leader_id consensus) (Some 2)).

Definition append_entries_accepts_different_leader_in_newer_term_before_timeout : M Disk E unit :=
  create_consensus (
    accepts 1 2 2 now ;;;
    accepts 2 3 3 (now + DEFAULT_ELECTION_TIMEOUT - secs 1) ;;;
    let* consensus := state_of in
    assert_eq (current_term consensus) 2 ;;;
    assert_eq (role consensus) Follower ;;;
    assert_eq (leader_id consensus) (Some 3)).

Definition append_entries_accepts_different_leader_after_timeout : M Disk E unit :=
  create_consensus (
    accepts 1 3 3 (past_timeout now) ;;;
    let* consensus := state_of in
    assert_eq (leader_id consensus) (Some 3)).

Definition append_entries_from_same_leader_does_not_reset_election_timeout : M Disk E unit :=
  create_consensus (
    let* consensus := state_of in
    let election_timeout := current_election_timeout consensus in
    accepts 0 2 2 (now + secs 1) ;;;
    let* consensus := state_of in
    assert_eq (current_election_timeout consensus) election_timeout).

(** With the draws of twenty new nodes. *)
Definition randomized_election_timeout_is_within_expected_bounds (draws : list N) : M Disk E unit :=
  for_each draws (λ draw,
    let* d := get in
    let* consensus := unwrap (new draw now 1 d) in
    assert_that (DEFAULT_ELECTION_TIMEOUT <=? current_election_timeout consensus) ;;;
    assert_that (current_election_timeout consensus <=? DEFAULT_ELECTION_TIMEOUT + DEFAULT_ELECTION_TIMEOUT_JITTER)).

(** A tick and the number of effects it is to have. *)
Definition ticks (at_ : N) (effects : nat) : M RaftS E unit :=
  let* actual := unwrap_ok (on_tick at_ [2; 3]) in assert_eq (length actual) effects.

Definition append_entries_resets_heartbeat_timer : M Disk E unit :=
  create_consensus (
    let heartbeat_at := now + DEFAULT_ELECTION_TIMEOUT - secs 1 in
    accepts 1 2 2 heartbeat_at ;;;
    ticks (heartbeat_at + DEFAULT_ELECTION_TIMEOUT - secs 1) 0 ;;;
    ticks (past_timeout heartbeat_at) 1).

Definition append_entries_rejects_non_contiguous_entries : M Disk E unit :=
  create_consensus (
    let* appended := append_entries 0 0 [log_entry_of 1 1; log_entry_of 3 1] 0 in
    assert_that (bool_decide (appended = None)) ;;;
    let* consensus := state_of in
    assert_eq (last_log_index consensus) 0).

Definition current_term_noop_replaces_conflicting_uncommitted_suffix : M Disk E unit :=
  create_consensus (
    update (λ r, r <| log := [log_entry_of 1 1; log_entry_of 2 1] |> <| commit_index := 1 |>) ;;;
    let* appended := append_entries 1 1 [noop 2 2] 1 in
    let* effects := unwrap appended in
    let* consensus := state_of in
    assert_eq (log consensus) [log_entry_of 1 1; noop 2 2] ;;;
    assert_eq effects [RollbackBlock (hash x02)] ;;;
    assert_eq (commit_index consensus) 1).

Definition append_entries_never_truncates_committed_entries : M Disk E unit :=
  create_consensus (
    update (λ r, r <| log := [log_entry_of 1 1; log_entry_of 2 1] |> <| commit_index := 2 |>) ;;;
    let* appended := append_entries 1 1 [noop 2 2] 2 in
    assert_that (bool_decide (appended = None)) ;;;
    let* consensus := state_of in
    assert_eq (log consensus) [log_entry_of 1 1; log_entry_of 2 1]).

Definition matching_index_returns_highest_entry_with_same_term : M Disk E unit :=
  create_consensus (
    update (λ r, r <| log := [log_entry_of 1 1; log_entry_of 2 1; log_entry_of 3 2] |>) ;;;
    let* consensus := state_of in
    assert_eq (matching_index_for consensus 0 0 [log_entry_of 1 1; log_entry_of 2 1; log_entry_of 3 3]) 2).

Definition follower_tick_before_timeout_does_nothing : M Disk E unit :=
  create_consensus (
    ticks (now + DEFAULT_ELECTION_TIMEOUT - secs 1) 0 ;;;
    let* consensus := state_of in
    assert_eq (role consensus) Follower).

Definition follower_tick_after_timeout_starts_election : M Disk E unit :=
  create_consensus (
    ticks (past_timeout now) 1 ;;;
    let* consensus := state_of in
    assert_eq (current_term consensus) 1 ;;;
    assert_eq (role consensus) Candidate).

Definition candidate_tick_after_timeout_starts_new_term : M Disk E unit :=
  create_consensus (
    let* _ := start_election_at now in
    ticks (past_timeout now) 1 ;;;
    let* consensus := state_of in
    assert_eq (current_term consensus) 2 ;;;
    assert_eq (role consensus) Candidate).

Definition leader_tick_emits_heartbeat_when_due : M Disk E unit :=
  create_consensus (
    let* _ := start_election_at now in
    let* _ := receive_vote 1 2 true in
    ticks now 2 ;;;
    ticks (now + DEFAULT_HEARTBEAT_INTERVAL - secs 1) 0 ;;;
    ticks (now + DEFAULT_HEARTBEAT_INTERVAL) 2).

Definition all (draws : list N) : list (M Disk E unit) :=
  [starts_election_as_candidate_and_votes_for_self;
   election_request_includes_candidates_last_log_metadata;
   becomes_leader_after_majority_vote;
   grants_one_vote_per_term;
   rejects_stale_term_vote_requests;
   rejects_candidate_with_older_last_log_term;
   rejects_candidate_with_shorter_log_in_same_last_term;
   grants_vote_to_candidate_with_newer_last_log_term;
   stale_candidate_in_newer_term_steps_node_down_but_is_rejected;
   newer_term_steps_candidate_down;
   append_entries_records_current_leader;
   append_entries_rejects_impersonated_leader;
   append_entries_rejects_non_participant_leader;
   append_entries_rejects_different_leader_before_timeout;
   append_entries_accepts_different_leader_in_newer_term_before_timeout;
   append_entries_accepts_different_leader_after_timeout;
   append_entries_from_same_leader_does_not_reset_election_timeout;
   randomized_election_timeout_is_within_expected_bounds draws;
   append_entries_resets_heartbeat_timer;
   append_entries_rejects_non_contiguous_entries;
   current_term_noop_replaces_conflicting_uncommitted_suffix;
   append_entries_never_truncates_committed_entries;
   matching_index_returns_highest_entry_with_same_term;
   follower_tick_before_timeout_does_nothing;
   follower_tick_after_timeout_starts_election;
   candidate_tick_after_timeout_starts_new_term;
   leader_tick_emits_heartbeat_when_due].
End tests.

(** ** They pass *)

Import Toy World UnitTests.

(** Draws for the smallest, a middle and the largest election timeout, an hour
    after the clock's origin. *)
Definition draws : list N := [0; 1; 2500; 4999; 5000; 5001; 123456789].
Definition an_hour : N := nanos_of_secs 3600.

Lemma raft_tests_pass :
  forallb (λ draw, forallb (passes fresh) (all draw an_hour draws)) draws = true.
Proof. computes. Qed.
End RaftTests.
