(* ===== verification/ConsensusTests.v ===== *)
(** * The repository's tests of the consensus engine, run on the model

    peer/consensus/tests.rs, one definition per test, as in UnitTests.v.  What a
    test asserts of the JSON of a state is left out (serde_json is a
    parameter). *)

From S2P Require Import Prelude Platform Crypto Transactions Storage Messages RaftLogStore Raft Consensus Server Codec Concrete UnitTests.

Module ConsensusTests.
Import ConsensusEngine.
Section tests.
Context {BP : BuildProfile} {P : Platform} {HO : HashOrder}.
Context `{!Serde PersistedRaftLogState, !Serde (list SignedTransaction), !Serde BlockFile, !Serde Transaction}.
Context {E : Type}.
(* the generator's draws for an election timeout and for keys, the clock, the
   date, the directory of temporary files and the id of the process *)
Context (draw key_draw now date : N) (temp_dir : string) (process_id : N).

Definition hash (value : N) : BlockHash := vreplicate 32 (default x00 (Byte.of_N value)).

Definition replicated_block (entry : RaftLogEntry) (block_file : BlockFile) : RaftReplicatedBlock :=
  let signing_key := KeyManager.create_key key_draw in
  let block_bytes := to_vec block_file in
  mkRaftReplicatedBlock entry block_bytes (ecdsa_sign signing_key block_bytes) (verifying_key_from signing_key).

Definition with_engine (consensus : ConsensusEngine) : M EngineS E unit → M Disk E unit :=
  with_disk (mkEngineS consensus) engine_disk.
Definition with_voting : M EngineS E unit → M Disk E unit := with_engine (new_voting 1).
(** [let mut consensus = create_raft_consensus()] *)
Definition create_raft_consensus (body : M EngineS E unit) : M Disk E unit :=
  let* d := get in
  let* consensus := unwrap (new_raft draw now 1 d) in
  with_engine consensus body.

(** The calls the tests unwrap. *)
Definition tick (at_ : N) : M EngineS E (list ConsensusEffect) := unwrap_ok (on_tick at_ [2; 3]).
Definition vote_response (t : N) (voter : PeerId) : M EngineS E (list ConsensusEffect) :=
  unwrap_ok (on_request_vote_response t voter true).
Definition append_response (t : N) (sender : PeerId) (success : bool) (match_index : N) : M EngineS E (list ConsensusEffect) :=
  unwrap_ok (on_append_entries_response t sender success match_index).
Definition block_created (h : BlockHash) : M EngineS E (list ConsensusEffect) := unwrap_ok (on_block_created h).
Definition append_from_2 (prev_index prev_term : N) (entries : list RaftReplicatedBlock) : M EngineS E (list ConsensusEffect) :=
  unwrap_ok (on_append_entries draw 1 2 prev_index prev_term entries 0 2 now).

Definition past_timeout : N :=
  now + DEFAULT_ELECTION_TIMEOUT + DEFAULT_ELECTION_TIMEOUT_JITTER + nanos_of_secs 1.

Definition elect_raft_leader : M EngineS E unit :=
  let* _ := tick past_timeout in
  let* _ := vote_response 1 2 in
  let* _ := append_response 1 2 true 1 in
  let* _ := append_response 1 3 true 1 in
  ret tt.

Definition create_test_transaction (signing_key : SigningKey) : SignedTransaction :=
  SignedTransaction_new (mkTransaction (AddCoin 10 USDT) (mkMetadata date 1)) signing_key.
Definition transaction : SignedTransaction := create_test_transaction (KeyManager.create_key key_draw).

(** [let Err(error) = .. else { panic!(..) }; assert_eq!(error, ..)] *)
Definition fails_with {S A} (m : M S string A) (error : string) : M S E unit :=
  let* r := try_ m in
  match r with Ok _ => panic | Error e => assert_eq e error end.

(** [outputs.iter().any(..)], for an append message. *)
Definition some_append (outputs : list ConsensusEffect)
    (p : PeerId → N → N → N → list RaftLogEntry → N → bool) : M EngineS E unit :=
  assert_that (existsb (λ e, match e with
    | SendRaftAppendEntries to t prev_index prev_term entries leader_commit =>
        p to t prev_index prev_term entries leader_commit
    | _ => false
    end) outputs).

(** *** Voting *)

Definition voting_consensus_reports_voting_state : M Disk E unit :=
  assert_eq (state (new_voting 1)) StateVoting.

Definition voting_stages_and_broadcasts_client_transaction : M Disk E unit :=
  with_voting (
    let* outputs := unwrap_ok (on_client_transaction transaction) in
    assert_eq outputs [StageClientTransaction transaction; BroadcastClientTransaction transaction]).

Definition only_raft_requires_tick : M Disk E unit :=
  assert_that (negb (requires_tick (new_voting 1))) ;;;
  let* d := get in
  let* raft := unwrap (new_raft draw now 1 d) in
  assert_that (requires_tick raft).

Definition new_block_created_proposes_for_voting_only_by_default : M Disk E unit :=
  with_voting (
    let* outputs := block_created (hash 9) in
    assert_eq (head outputs) (Some (ProposeBlock (hash 9)))) ;;;
  create_raft_consensus (
    let* outputs := block_created (hash 9) in
    assert_eq outputs []).

Definition local_block_proposal_initializes_vote_without_side_effects : M Disk E unit :=
  with_voting (
    let* actions := unwrap_ok (on_local_block_proposed (hash 1) [2; 3; 4]) in
    assert_eq actions []).

Definition local_block_proposal_emits_commit_when_self_vote_reaches_threshold : M Disk E unit :=
  with_voting (
    let* actions := unwrap_ok (on_local_block_proposed (hash 8) [2; 3]) in
    assert_eq actions [CommitBlock (hash 8); Broadcast (BlockApproved (hash 8))]).

Definition received_votes_emit_commit_and_broadcast_actions_at_threshold : M Disk E unit :=
  let known_peers := [2; 3; 4] in
  with_voting (
    let* _ := unwrap_ok (on_local_block_proposed (hash 2) known_peers) in
    let* outputs := unwrap_ok (on_block_vote (hash 2) 2 true known_peers) in
    assert_eq outputs [] ;;;
    let* outputs := unwrap_ok (on_block_vote (hash 2) 3 true known_peers) in
    assert_eq outputs [CommitBlock (hash 2); Broadcast (BlockApproved (hash 2))]).

Definition duplicate_votes_do_not_emit_actions : M Disk E unit :=
  let known_peers := [2; 3; 4] in
  with_voting (
    let* outputs := unwrap_ok (on_block_vote (hash 3) 2 true known_peers) in
    assert_eq outputs [] ;;;
    let* outputs := unwrap_ok (on_block_vote (hash 3) 2 true known_peers) in
    assert_eq outputs []).

Definition validated_rejected_proposal_emits_rollback_and_broadcast_actions : M Disk E unit :=
  with_voting (
    let* outputs := unwrap_ok (on_block_proposal_validated (hash 4) 2 false [2; 3; 4]) in
    assert_eq outputs [RollbackBlock (hash 4); Broadcast (BlockReject (hash 4))]).

(** *** Raft, followers and candidates *)

Definition raft_election_timeout_broadcasts_vote_request : M Disk E unit :=
  create_raft_consensus (
    let* outputs := tick (now + DEFAULT_ELECTION_TIMEOUT - nanos_of_secs 1) in
    assert_eq outputs [] ;;;
    let* outputs := tick past_timeout in
    assert_eq outputs [Broadcast (RaftRequestVote 1 1 0 0)]).

Definition raft_vote_request_sends_direct_response : M Disk E unit :=
  create_raft_consensus (
    let* outputs := unwrap_ok (on_request_vote 1 2 0 0 2) in
    assert_eq outputs [Send 2 (RaftRequestVoteResponse 1 true)]).

Definition raft_new_leader_appends_current_term_noop : M Disk E unit :=
  create_raft_consensus (
    let* _ := tick past_timeout in
    let* effects := vote_response 1 2 in
    some_append effects (λ to t prev_index prev_term entries leader_commit,
      (to =? 3) && (t =? 1) && (prev_index =? 0) && (prev_term =? 0) && (leader_commit =? 0) &&
      bool_decide (entries = [noop 1 1]))).

Definition raft_append_entries_records_leader : M Disk E unit :=
  create_raft_consensus (
    let* outputs := tick now in
    assert_eq outputs [] ;;;
    let* heartbeat_outputs := append_from_2 0 0 [] in
    assert_eq heartbeat_outputs [Send 2 (RaftAppendEntriesResponse 1 true 0)] ;;;
    let* outputs := unwrap_ok (on_client_transaction transaction) in
    assert_eq (head outputs) (Some (Send 2 (ClientTransaction transaction)))).

Definition raft_append_entries_persists_accepted_entries : M Disk E unit :=
  let dir := path_join temp_dir ("rustchain_raft_append_entries_persist_" +:+ pretty process_id) in
  let* _ := try_ (remove_dir_all dir) in
  let* d := get in
  let* consensus := unwrap_ok (of_result (new_raft_with_storage draw now 1 (File (FileRaftLogStore_new dir)) 0 d)) in
  let block_file := BlockFile.create [] EMPTY_HASH 1 in
  let block_hash := bf_hash block_file in
  let entry := mkRaftLogEntry 1 1 block_hash in
  with_engine consensus (
    let* _ := tick now in
    let* outputs := append_from_2 0 0 [replicated_block entry block_file] in
    assert_that (existsb (λ e, bool_decide (e = StageRaftEntries [entry])) outputs) ;;;
    let* pending := take_pending_raft_block block_hash in
    let* pending := unwrap pending in
    assert_eq (bf_hash pending) block_hash) ;;;
  let* d := get in
  let* restored := unwrap_ok (of_result (RaftLogStore.load_file (FileRaftLogStore_new dir) d)) in
  assert_eq (rls_log restored) [entry] ;;;
  unwrap_ok (remove_dir_all dir).

Definition raft_rejected_append_entries_does_not_retain_validated_block : M Disk E unit :=
  let block_file := BlockFile.create [] EMPTY_HASH 2 in
  let block_hash := bf_hash block_file in
  create_raft_consensus (
    let* _ := tick now in
    let* effects := append_from_2 1 1 [replicated_block (mkRaftLogEntry 1 2 block_hash) block_file] in
    assert_that (match effects with
      | Send _ (RaftAppendEntriesResponse _ false _) :: _ => true
      | _ => false
      end) ;;;
    let* pending := take_pending_raft_block block_hash in
    assert_eq pending None).

Definition raft_follower_forwards_client_transaction_to_known_leader : M Disk E unit :=
  create_raft_consensus (
    let* _ := tick now in
    let* _ := append_from_2 0 0 [] in
    let* outputs := unwrap_ok (on_client_transaction transaction) in
    assert_eq outputs [Send 2 (ClientTransaction transaction)]).

Definition raft_follower_rejects_client_transaction_without_known_leader : M Disk E unit :=
  create_raft_consensus (fails_with (on_client_transaction transaction) "Raft leader is unknown").

(** *** Raft, leaders *)

Definition raft_leader_stages_client_transaction_without_broadcasting_it : M Disk E unit :=
  create_raft_consensus (
    let* _ := tick past_timeout in
    fails_with (on_client_transaction transaction) "Raft leader is unknown" ;;;
    let* _ := vote_response 1 2 in
    let* outputs := unwrap_ok (on_client_transaction transaction) in
    assert_eq outputs [StageClientTransaction transaction]).

Definition raft_leader_appends_new_block_to_log : M Disk E unit :=
  create_raft_consensus (
    elect_raft_leader ;;;
    let* outputs := block_created (hash 7) in
    assert_eq (length outputs) 2%nat ;;;
    for_each [2; 3] (λ follower,
      some_append outputs (λ to t prev_index prev_term entries leader_commit,
        (to =? follower) && (t =? 1) && (prev_index =? 1) && (prev_term =? 1) && (leader_commit =? 1) &&
        bool_decide (entries = [mkRaftLogEntry 1 2 (hash 7)])))).

Definition raft_leader_commits_after_majority_append_response : M Disk E unit :=
  create_raft_consensus (
    elect_raft_leader ;;;
    let* _ := block_created (hash 8) in
    let* outputs := append_response 1 2 true 2 in
    assert_eq outputs [CommitBlock (hash 8)]).

Definition raft_new_leader_commits_inherited_block_through_current_term_noop : M Disk E unit :=
  let dir := path_join temp_dir ("rustchain_raft_leader_noop_" +:+ pretty process_id) in
  let* _ := try_ (remove_dir_all dir) in
  let inherited_entry := mkRaftLogEntry 1 1 (hash 18) in
  let store := FileRaftLogStore_new dir in
  unwrap_ok (RaftLogStore.save_file store [inherited_entry] 0) ;;;
  let* d := get in
  let* consensus := unwrap_ok (of_result (new_raft_with_storage draw now 1 (File store) 0 d)) in
  with_engine consensus (
    let* _ := tick now in
    let* _ := append_from_2 1 1 [] in
    let* _ := tick past_timeout in
    let* replication_effects := vote_response 2 3 in
    some_append replication_effects (λ to t prev_index prev_term entries leader_commit,
      (to =? 2) && (t =? 2) && (leader_commit =? 0) &&
      bool_decide (entries = [inherited_entry; noop 2 2])) ;;;
    let* commit_effects := append_response 2 2 true 2 in
    assert_eq commit_effects [CommitBlock (hash 18)] ;;;
    let* s := get in
    assert_eq (state (engine s)) (StateRaft (mkRaftPublicState Leader 2 (Some 1) 2 2))) ;;;
  let* d := get in
  let* persisted_state := unwrap_ok (of_result (RaftLogStore.load_file (FileRaftLogStore_new dir) d)) in
  assert_eq (rls_commit_index persisted_state) (Some 2) ;;;
  assert_eq (rls_log persisted_state) [inherited_entry; noop 2 2] ;;;
  unwrap_ok (remove_dir_all dir).

Definition raft_leader_allows_only_one_uncommitted_block : M Disk E unit :=
  create_raft_consensus (
    elect_raft_leader ;;;
    let* _ := block_created (hash 8) in
    fails_with (on_client_transaction transaction) "Raft leader already has an uncommitted block" ;;;
    fails_with (on_block_created (hash 9)) "Raft leader already has an uncommitted block" ;;;
    let* _ := append_response 1 2 true 2 in
    let* outputs := unwrap_ok (on_client_transaction transaction) in
    assert_eq outputs [StageClientTransaction transaction]).

Definition raft_leader_sends_entries_after_each_followers_match_index : M Disk E unit :=
  create_raft_consensus (
    elect_raft_leader ;;;
    let* _ := block_created (hash 10) in
    let* _ := append_response 1 2 true 2 in
    let* outputs := block_created (hash 11) in
    some_append outputs (λ to t prev_index prev_term entries leader_commit,
      (to =? 2) && (prev_index =? 2) && (prev_term =? 1) &&
      bool_decide ((λ e, (index e, block_hash e)) <$> entries = [(3, hash 11)])) ;;;
    some_append outputs (λ to t prev_index prev_term entries leader_commit,
      (to =? 3) && (prev_index =? 1) && (prev_term =? 1) &&
      bool_decide ((λ e, (index e, block_hash e)) <$> entries = [(2, hash 10); (3, hash 11)]))).

Definition raft_leader_limits_append_entries_batch_size : M Disk E unit :=
  create_raft_consensus (
    elect_raft_leader ;;;
    for_each [1; 2; 3; 4; 5] (λ block_number,
      let* _ := block_created (hash block_number) in
      let* _ := append_response 1 2 true (block_number + 1) in
      ret tt) ;;;
    let* outputs := block_created (hash 6) in
    some_append outputs (λ to t prev_index prev_term entries leader_commit,
      (to =? 3) && (prev_index =? 1) && (prev_term =? 1) && (length entries =? 5)%nat &&
      bool_decide (index <$> head entries = Some 2) && bool_decide (index <$> entries !! 4%nat = Some 6))).

Definition past_heartbeat : N :=
  now + DEFAULT_ELECTION_TIMEOUT + DEFAULT_ELECTION_TIMEOUT_JITTER + DEFAULT_HEARTBEAT_INTERVAL + nanos_of_secs 2.

Definition raft_leader_sends_missing_entries_on_tick : M Disk E unit :=
  create_raft_consensus (
    elect_raft_leader ;;;
    for_each [1; 2; 3; 4; 5; 6] (λ block_number,
      let* _ := block_created (hash block_number) in
      let* _ := append_response 1 3 true (block_number + 1) in
      ret tt) ;;;
    let* _ := append_response 1 2 true 5 in
    let* outputs := tick past_heartbeat in
    some_append outputs (λ to t prev_index prev_term entries leader_commit,
      (to =? 2) && (prev_index =? 5) && bool_decide (index <$> entries = [6; 7]))).

Definition raft_leader_sends_empty_append_entries_on_tick_when_follower_is_caught_up : M Disk E unit :=
  create_raft_consensus (
    elect_raft_leader ;;;
    let* _ := block_created (hash 12) in
    let* _ := append_response 1 2 true 2 in
    let* outputs := tick past_heartbeat in
    some_append outputs (λ to t prev_index prev_term entries leader_commit,
      (to =? 2) && (prev_index =? 2) && bool_decide (entries = []))).

Definition raft_leader_retries_after_failed_append_response_match_index : M Disk E unit :=
  create_raft_consensus (
    elect_raft_leader ;;;
    let* _ := block_created (hash 12) in
    let* _ := append_response 1 2 true 2 in
    let* _ := block_created (hash 13) in
    let* outputs := append_response 1 2 false 2 in
    assert_eq (length outputs) 1%nat ;;;
    some_append outputs (λ to t prev_index prev_term entries leader_commit,
      (to =? 2) && (prev_index =? 2) && (prev_term =? 1) &&
      bool_decide (block_hash <$> entries = [hash 13]))).

Definition raft_leader_does_not_retry_empty_append_entries_after_failed_response : M Disk E unit :=
  create_raft_consensus (
    elect_raft_leader ;;;
    let* _ := block_created (hash 14) in
    let* _ := append_response 1 2 true 2 in
    let* outputs := append_response 1 2 false 2 in
    assert_eq outputs []).

Definition all : list (M Disk E unit) :=
  [voting_consensus_reports_voting_state;
   voting_stages_and_broadcasts_client_transaction;
   only_raft_requires_tick;
   new_block_created_proposes_for_voting_only_by_default;
   local_block_proposal_initializes_vote_without_side_effects;
   local_block_proposal_emits_commit_when_self_vote_reaches_threshold;
   received_votes_emit_commit_and_broadcast_actions_at_threshold;
   duplicate_votes_do_not_emit_actions;
   validated_rejected_proposal_emits_rollback_and_broadcast_actions;
   raft_election_timeout_broadcasts_vote_request;
   raft_vote_request_sends_direct_response;
   raft_new_leader_appends_current_term_noop;
   raft_append_entries_records_leader;
   raft_append_entries_persists_accepted_entries;
   raft_rejected_append_entries_does_not_retain_validated_block;
   raft_follower_forwards_client_transaction_to_known_leader;
   raft_leader_stages_client_transaction_without_broadcasting_it;
   raft_follower_rejects_client_transaction_without_known_leader;
   raft_leader_appends_new_block_to_log;
   raft_leader_commits_after_majority_append_response;
   raft_new_leader_commits_inherited_block_through_current_term_noop;
   raft_leader_allows_only_one_uncommitted_block;
   raft_leader_sends_entries_after_each_followers_match_index;
   raft_leader_limits_append_entries_batch_size;
   raft_leader_sends_missing_entries_on_tick;
   raft_leader_sends_empty_append_entries_on_tick_when_follower_is_caught_up;
   raft_leader_retries_after_failed_append_response_match_index;
   raft_leader_does_not_retry_empty_append_entries_after_failed_response].
End tests.

(** ** They pass

    For the smallest, a middle and the largest election timeout. *)

Import Toy World UnitTests.

Lemma consensus_tests_pass :
  forallb (λ draw, forallb (passes fresh)
    (all draw 7 (nanos_of_secs 3600) 1700000000000000000 "/tmp" 42)) [0; 2500; 5000] = true.
Proof. computes. Qed.
End ConsensusTests.
