(* ===== verification/PeerTests.v ===== *)
(** * The repository's integration tests, run on the model

    tests/tests.rs (keys, transactions, the ledger) and tests/peer.rs (peers on
    the local network), one definition per test, as in UnitTests.v.  What a test
    asserts of the JSON of a state is left out (serde_json is a parameter). *)

From S2P Require Import Prelude Platform Crypto Transactions Storage Messages RaftLogStore Raft Consensus Network Effects PeerNode Server Codec Concrete UnitTests.

Definition TEST_DATA_PATH : string := "target/test/data".

Definition recreate_dir {E} (path : string) : M Disk E unit :=
  let* _ := try_ (remove_dir_all path) in
  unwrap_ok (create_dir_all path).

(** ** tests/tests.rs *)

Module LedgerTests.
Import TransactionProcessor.
Section tests.
Context {BP : BuildProfile} {P : Platform} {HO : HashOrder}.
Context `{!Serde PersistedRaftLogState, !Serde (list SignedTransaction), !Serde BlockFile}.
Context `{!Serde Transaction, !Serde SignedTransaction}.
Context {E : Type}.
(* what the generator draws for two keys *)
Context (draw1 draw2 : N).

Definition create_signed_transaction (signing_key : SigningKey) (op : Operation) (seq : N) : SignedTransaction :=
  SignedTransaction_new (mkTransaction op (mkMetadata 100 seq)) signing_key.

Definition sender_key : SigningKey := KeyManager.create_key draw1.
Definition sender_id : string := KeyManager.to_string_hex (verifying_key_from sender_key).
Definition recipient_id : string := KeyManager.to_string_hex (verifying_key_from (KeyManager.create_key draw2)).

Definition verify_signature (sig : Signature) (message : bytes) (key : VerifyingKey) : M Disk E unit :=
  assert_that (ecdsa_verify key message sig).

Definition test_key_from_key_manager : M Disk E unit :=
  let key_dir := path_join TEST_DATA_PATH "key_manager_peer" in
  recreate_dir key_dir ;;;
  let* signing_key := KeyManager.get_or_create_key draw1 key_dir in
  let client_transaction := create_signed_transaction signing_key (AddCoin 10 BTC) 1 in
  let* _ := unwrap_ok (of_result (SignedTransaction_verify client_transaction)) in
  let* signing_key_from_key_manager := KeyManager.get_or_create_key draw2 key_dir in
  let client_transaction2 := create_signed_transaction signing_key_from_key_manager (AddCoin 10 BTC) 1 in
  let key := verifying_key_from signing_key in
  verify_signature (signature client_transaction) (to_sign_bytes (transaction client_transaction)) key ;;;
  verify_signature (signature client_transaction2) (to_sign_bytes (transaction client_transaction2)) key.

Definition test_block_verification : M Disk E unit :=
  let peer_1_dir := path_join TEST_DATA_PATH "block_verification_peer" in
  recreate_dir peer_1_dir ;;;
  let* d := get in
  let* block_keeper := unwrap (BlockKeeper.new peer_1_dir 1 d) in
  let* peer_keeper := unwrap (BlockKeeper.new peer_1_dir 1 d) in
  let* key := KeyManager.get_or_create_key draw1 peer_1_dir in
  let peer_1 := Peer.new 1 (mkLocalNetwork ∅ [] ∅ []) (ConsensusEngine.new_voting 1) peer_keeper key in
  let client_transaction := create_signed_transaction (KeyManager.create_key draw2) (AddCoin 10 BTC) 1 in
  with_keeper block_keeper (
    let* _ := BlockKeeper.add_transaction client_transaction in
    ret tt).

Definition test_transaction_verification : M Disk E unit :=
  let client_transaction := create_signed_transaction (KeyManager.create_key draw1) (AddCoin 10 BTC) 1 in
  assert_that (is_ok (SignedTransaction_verify client_transaction)) ;;;
  let wrong_transaction := create_signed_transaction (KeyManager.create_key draw2) (AddCoin 10 BTC) 1 in
  assert_that (is_ok (SignedTransaction_verify wrong_transaction)) ;;;
  assert_that (bool_decide (tx_id client_transaction ≠ tx_id wrong_transaction)).

(** [let mut processor = TransactionProcessor::default()] *)
Definition with_processor : M TransactionProcessor E unit → M Disk E unit := with_local TransactionProcessor_default.
Definition processed (op : Operation) (seq : N) : M TransactionProcessor E unit :=
  unwrap_ok (process_transaction (create_signed_transaction sender_key op seq)).
Definition refused (op : Operation) (seq : N) (error : TransactionValidationError) : M TransactionProcessor E unit :=
  let* result := try_ (process_transaction (create_signed_transaction sender_key op seq)) in
  assert_eq result (Error error).
Definition assert_balance (id : string) (b : N) : M TransactionProcessor E unit :=
  let* processor := get in
  let* account := unwrap (get_account processor id) in
  assert_eq (balance account) b.

Definition test_send_from_missing_account_returns_error : M Disk E unit :=
  with_processor (refused (Transactions.Send "recipient" 10 BTC) 1 (AccountNotFound sender_id)).

Definition test_send_with_insufficient_funds_returns_error : M Disk E unit :=
  with_processor (
    processed (AddCoin 5 BTC) 1 ;;;
    refused (Transactions.Send "recipient" 10 BTC) 2 (InsufficientFunds sender_id 5 10) ;;;
    assert_balance sender_id 5).

Definition test_send_with_asset_mismatch_returns_error : M Disk E unit :=
  with_processor (
    processed (AddCoin 10 BTC) 1 ;;;
    refused (Transactions.Send "recipient" 5 USDT) 2 (AssetMismatch sender_id BTC USDT) ;;;
    assert_balance sender_id 10).

Definition test_process_transaction_is_idempotent_for_the_same_transaction : M Disk E unit :=
  with_processor (
    processed (AddCoin 10 BTC) 1 ;;;
    processed (AddCoin 10 BTC) 1 ;;;
    assert_balance sender_id 10).

Definition test_rollback_transactions_reverses_add_coin : M Disk E unit :=
  let add_coin_tx := create_signed_transaction sender_key (AddCoin 10 BTC) 1 in
  with_processor (
    unwrap_ok (process_transaction add_coin_tx) ;;;
    assert_balance sender_id 10 ;;;
    rollback_transactions [add_coin_tx] ;;;
    assert_balance sender_id 0 ;;;
    unwrap_ok (process_transaction add_coin_tx) ;;;
    assert_balance sender_id 10).

Definition test_rollback_transactions_reverses_send_in_reverse_order : M Disk E unit :=
  let add_coin_tx := create_signed_transaction sender_key (AddCoin 20 BTC) 1 in
  let send_tx := create_signed_transaction sender_key (Transactions.Send recipient_id 15 BTC) 2 in
  with_processor (
    unwrap_ok (process_transaction add_coin_tx) ;;;
    unwrap_ok (process_transaction send_tx) ;;;
    assert_balance sender_id 5 ;;;
    assert_balance recipient_id 15 ;;;
    rollback_transactions [add_coin_tx; send_tx] ;;;
    assert_balance sender_id 0 ;;;
    assert_balance recipient_id 0).

Definition all : list (M Disk E unit) :=
  [test_key_from_key_manager;
   test_block_verification;
   test_transaction_verification;
   test_send_from_missing_account_returns_error;
   test_send_with_insufficient_funds_returns_error;
   test_send_with_asset_mismatch_returns_error;
   test_process_transaction_is_idempotent_for_the_same_transaction;
   test_rollback_transactions_reverses_add_coin;
   test_rollback_transactions_reverses_send_in_reverse_order].
End tests.
End LedgerTests.

(** ** tests/peer.rs *)

Module PeerTests.
Section tests.
Context {BP : BuildProfile} {P : Platform} {HO : HashOrder}.
Context `{!Serde PersistedRaftLogState, !Serde (list SignedTransaction), !Serde BlockFile}.
Context `{!Serde Transaction, !Serde SignedTransaction}.
Context (choose : N → list PeerId → option PeerId).
#[local] Instance local_interface : NetworkInterface LocalNetwork := LocalNetwork.interface choose.
Context {E : Type}.
(* the generator's draws for an election timeout and for three keys, the clock,
   the date and the directory counter *)
Context (draw own_draw client_draw other_draw now date dir_id : N).

Definition LocalM := M (Peer LocalNetwork) E.

(** The network a test builds: peers without a channel, or with one. *)
Definition known (ids : list PeerId) : LocalNetwork :=
  foldl (λ n id, LocalNetwork.add_known_peer id n) (mkLocalNetwork ∅ [] ∅ []) ids.
Definition connected (ids : list PeerId) : LocalNetwork :=
  foldl (λ n id, LocalNetwork.add_peer id (mkChannel [] 1000 false) n) (mkLocalNetwork ∅ [] ∅ []) ids.

(** What [create_peer] and [create_raft_peer] share. *)
Definition create_with (engine : Disk → option ConsensusEngine) (pid : PeerId) (net : LocalNetwork) (size : nat)
    (body : LocalM unit) : M Disk E unit :=
  let peer_1_dir := path_join TEST_DATA_PATH ("peer_test_" +:+ pretty dir_id) in
  recreate_dir peer_1_dir ;;;
  let* d := get in
  let* engine := unwrap (engine d) in
  let* keeper := unwrap (BlockKeeper.new peer_1_dir size d) in
  let* key := KeyManager.get_or_create_key own_draw peer_1_dir in
  with_disk (λ d, Peer.new pid net engine (keeper <| disk := d |>) key) (λ p, disk (block_keeper (effects p))) body.
Definition create_peer (net : LocalNetwork) (size : nat) : LocalM unit → M Disk E unit :=
  create_with (λ _, Some (ConsensusEngine.new_voting 1)) 1 net size.
Definition create_raft_peer (net : LocalNetwork) (size : nat) : LocalM unit → M Disk E unit :=
  create_with (ConsensusEngine.new_raft draw now 1) 1 net size.

Definition tick_consensus (at_ : N) : LocalM unit := unwrap_ok (Peer.handle_tick at_).
Definition handle (sender : PeerId) (b : MessageBody) : LocalM unit :=
  Peer.handle_message draw now (mkMessage sender 1 b).

Definition create_test_transaction (signing_key : SigningKey) : SignedTransaction :=
  SignedTransaction_new (mkTransaction (AddCoin 10 USDT) (mkMetadata date 1)) signing_key.
Definition client_key : SigningKey := KeyManager.create_key client_draw.
Definition the_transaction : SignedTransaction := create_test_transaction client_key.
Definition create_invalid_send_transaction (signing_key : SigningKey) : SignedTransaction :=
  let recipient_key := KeyManager.create_key other_draw in
  SignedTransaction_new
    (mkTransaction (Transactions.Send (KeyManager.to_string_hex (verifying_key_from recipient_key)) 10 USDT) (mkMetadata date 1))
    signing_key.

(** [network.get_broadcasted_messages()] *)
Definition get_broadcasted_messages : LocalM (list MessageBody) :=
  gets (λ p, broadcasted_messages (network (effects p))).
Definition broadcasts (n : nat) : LocalM unit :=
  let* messages := get_broadcasted_messages in assert_eq (length messages) n.
Definition some_broadcast (p : MessageBody → bool) : LocalM unit :=
  let* messages := get_broadcasted_messages in assert_that (existsb p messages).
Definition no_broadcast (p : MessageBody → bool) : LocalM unit :=
  let* messages := get_broadcasted_messages in assert_that (negb (existsb p messages)).

Definition synchronizes (b : MessageBody) : bool :=
  match b with Synchronization verified => bool_decide (client_tx verified = the_transaction) | _ => false end.
Definition proposes (b : MessageBody) : bool := match b with BlockProposal _ _ _ _ => true | _ => false end.
Definition approves (b : MessageBody) : bool := match b with BlockApproved _ => true | _ => false end.

(** [receiver.try_recv().unwrap()], [n] times *)
Definition try_recv (id : PeerId) (n : nat) : LocalM (list Message) :=
  let* p := get in
  let* channel := unwrap (senders (network (effects p)) !! id) in
  if decide (n ≤ length (queue channel))%nat then
    modify (λ p, p <| effects ::= λ e, e <| network ::= λ net, net <| senders ::=
      <[id := mkChannel (drop n (queue channel)) (capacity channel) (closed channel)]> |> |> |>) ;;;
    ret (take n (queue channel))
  else panic.

Definition test_peer_state_view_tracks_raft_state : M Disk E unit :=
  create_raft_peer (known []) 5 (
    let* peer := get in
    let initial_state := Peer.get_state peer [3; 2] in
    assert_eq (ps_peer_id initial_state) 1 ;;;
    assert_eq (ps_known_peers initial_state) [3; 2] ;;;
    assert_eq (block_height (ps_block initial_state)) 0 ;;;
    assert_eq (ps_consensus initial_state) (StateRaft (mkRaftPublicState Follower 0 None 0 0)) ;;;
    tick_consensus (now + DEFAULT_ELECTION_TIMEOUT + DEFAULT_ELECTION_TIMEOUT_JITTER + nanos_of_millis 1) ;;;
    let* peer := get in
    assert_eq (ps_consensus (Peer.get_state peer [])) (StateRaft (mkRaftPublicState Leader 1 (Some 1) 1 1))).

Definition test_client_transaction_mempool_size_2 : M Disk E unit :=
  create_peer (known [2]) 2 (
    handle 0 (ClientTransaction the_transaction) ;;;
    broadcasts 1 ;;;
    some_broadcast synchronizes).

Definition test_client_transaction_mempool_size_1 : M Disk E unit :=
  create_peer (known [2]) 1 (
    handle 0 (ClientTransaction the_transaction) ;;;
    broadcasts 3 ;;;
    some_broadcast synchronizes ;;;
    some_broadcast proposes ;;;
    some_broadcast approves).

Definition test_block_approval : M Disk E unit :=
  create_peer (known [2; 3; 4]) 1 (
    handle 0 (ClientTransaction the_transaction) ;;;
    broadcasts 2 ;;;
    let* messages := get_broadcasted_messages in
    match messages with
    | first :: BlockProposal block_hash _ _ _ :: _ =>
        assert_that (synchronizes first) ;;;
        handle 2 (BlockApproved block_hash) ;;;
        broadcasts 2 ;;;
        handle 3 (BlockApproved block_hash) ;;;
        broadcasts 3 ;;;
        some_broadcast approves ;;;
        handle 4 (BlockApproved block_hash) ;;;
        broadcasts 3 ;;;
        unwrap_ok (Peer.make_vote block_hash 4 true) ;;;
        broadcasts 3
    | _ => panic
    end).

Definition test_block_proposal_that_cannot_be_staged_is_rejected_not_approved : M Disk E unit :=
  create_peer (known [2; 3; 4]) 1 (
    let proposer_key := KeyManager.create_key other_draw in
    let block_file := BlockFile.create [] (vreplicate 32 x09) 1 in
    let block_hash := bf_hash block_file in
    let block_bytes := to_vec block_file in
    handle 2 (BlockProposal block_hash block_bytes (ecdsa_sign proposer_key block_bytes) (verifying_key_from proposer_key)) ;;;
    some_broadcast (λ b, bool_decide (b = BlockReject block_hash)) ;;;
    no_broadcast approves).

Definition test_raft_election_request_is_broadcast : M Disk E unit :=
  create_raft_peer (known [2; 3]) 1 (
    tick_consensus (now + nanos_of_secs 60) ;;;
    let* messages := get_broadcasted_messages in
    assert_eq messages [RaftRequestVote 1 1 0 0]).

Definition test_raft_vote_response_is_sent_to_candidate : M Disk E unit :=
  create_raft_peer (connected [2]) 1 (
    tick_consensus now ;;;
    handle 2 (RaftRequestVote 1 2 0 0) ;;;
    let* response := try_recv 2 1 in
    assert_eq response [mkMessage 1 2 (RaftRequestVoteResponse 1 true)] ;;;
    broadcasts 0).

(** The heartbeat of the leader that the followers of the tests know. *)
Definition heartbeat_of_2 : LocalM unit := handle 2 (RaftAppendEntries 1 2 0 0 [] 0).

Definition test_raft_follower_forwards_valid_client_transaction_to_leader : M Disk E unit :=
  create_raft_peer (connected [2]) 1 (
    tick_consensus now ;;;
    heartbeat_of_2 ;;;
    handle 0 (ClientTransaction the_transaction) ;;;
    let* received_messages := try_recv 2 2 in
    assert_that (existsb (λ m, bool_decide (m = mkMessage 1 2 (ClientTransaction the_transaction))) received_messages) ;;;
    broadcasts 0).

Definition test_raft_follower_does_not_propose_block_from_synchronized_transaction : M Disk E unit :=
  create_raft_peer (known [2]) 1 (
    tick_consensus now ;;;
    heartbeat_of_2 ;;;
    handle 2 (Synchronization (VerifiedTransaction_new the_transaction (KeyManager.create_key other_draw))) ;;;
    no_broadcast proposes).

Definition test_synchronized_transaction_is_validated_before_mempool : M Disk E unit :=
  create_peer (known [2]) 1 (
    let transaction := create_invalid_send_transaction client_key in
    handle 2 (Synchronization (VerifiedTransaction_new transaction (KeyManager.create_key other_draw))) ;;;
    no_broadcast proposes).

Definition test_raft_leader_processes_client_transaction_locally : M Disk E unit :=
  create_raft_peer (known [2; 3]) 2 (
    tick_consensus (now + nanos_of_secs 60) ;;;
    handle 2 (RaftRequestVoteResponse 1 true) ;;;
    handle 0 (ClientTransaction the_transaction) ;;;
    let* messages := get_broadcasted_messages in
    match messages with
    | [RaftRequestVote _ _ _ _] => ret tt
    | _ => panic
    end ;;;
    no_broadcast (λ b, match b with Synchronization _ => true | _ => false end)).

(** The no-op and a block, from the start of the log. *)
Definition replicates_block (m : Message) : bool :=
  match body m with
  | RaftAppendEntries 1 _ 0 0 [first; second] 0 =>
      (term (rb_entry first) =? 1) && (index (rb_entry first) =? 1) && is_noop (rb_entry first) &&
      bool_decide (rb_block_file first = []) &&
      (term (rb_entry second) =? 1) && (index (rb_entry second) =? 2) && bool_decide (rb_block_file second ≠ [])
  | _ => false
  end.

Definition test_raft_leader_replicates_created_block_with_append_entries : M Disk E unit :=
  create_raft_peer (connected [2; 3]) 1 (
    tick_consensus (now + nanos_of_secs 60) ;;;
    handle 2 (RaftRequestVoteResponse 1 true) ;;;
    handle 0 (ClientTransaction the_transaction) ;;;
    let* peer_2_messages := try_recv 2 3 in
    let* peer_3_messages := try_recv 3 3 in
    assert_that (existsb replicates_block peer_2_messages) ;;;
    assert_that (existsb replicates_block peer_3_messages) ;;;
    no_broadcast (λ b, match b with RaftAppendEntries _ _ _ _ _ _ | BlockProposal _ _ _ _ => true | _ => false end)).

Definition all : list (M Disk E unit) :=
  [test_peer_state_view_tracks_raft_state;
   test_client_transaction_mempool_size_2;
   test_client_transaction_mempool_size_1;
   test_block_approval;
   test_block_proposal_that_cannot_be_staged_is_rejected_not_approved;
   test_raft_election_request_is_broadcast;
   test_raft_vote_response_is_sent_to_candidate;
   test_raft_follower_forwards_valid_client_transaction_to_leader;
   test_raft_follower_does_not_propose_block_from_synchronized_transaction;
   test_synchronized_transaction_is_validated_before_mempool;
   test_raft_leader_processes_client_transaction_locally;
   test_raft_leader_replicates_created_block_with_append_entries].
End tests.

(** ** They pass *)

Import Toy World UnitTests.

Lemma integration_tests_pass :
  forallb (passes fresh) (LedgerTests.all 1 2) &&
  forallb (λ draw, forallb (passes fresh) (all (λ _, head) draw 1 2 3 (nanos_of_secs 3600) 1700000000000000000 0))
    [0; 2500; 5000] = true.
Proof. computes. Qed.
End PeerTests.
